(* ===== verification/_CoqProject ===== *)
-Q . S2P
Prelude.v
Status.v
Model.v
Number.v
Json.v
Predicates.v
Consistency.v
EventData.v
WriteContext.v
SqlPredicates.v
Sql.v
SqliteStore.v
SqliteLog.v
GroupCommit.v
SqliteRead.v
SqliteIndex.v
EventStore.v
Api.v
Subscription.v
Auth.v
Users.v
SqliteAdmin.v
Projections.v
Neutral.v
Catalog.v
Boundaries.v
Lifecycle.v
Provisioning.v
BoundarySubscriber.v
BoundaryExamples.v
JetStreamLock.v
PgPredicates.v
PgInsert.v
PgLog.v
PgStore.v
PgSave.v
PgRead.v
PgSnapshot.v
PgMigration.v
PgAdmin.v
Md5.v
Notifications.v
PgListener.v
GrpcApi.v
AdminGrpc.v
Middleware.v
SqliteFiles.v
Client.v
HintReceiver.v
Config.v
Server.v
CountProjectors.v
Streams.v
