(* ===== verification/Prelude.v ===== *)
(** * Orisun: a verified model of an event store with command context consistency

Orisun stores events in boundaries. Each boundary is a log; a client appends events with
a save that names the queries it has read (its observations) and the position at which
it saw each of them. The save is accepted only if no event has been added to any of
those contexts since. The event store runs over SQLite or PostgreSQL; admin users,
sessions and boundaries are themselves kept as events. This library models the Go code
of the event store core, of its SQLite and PostgreSQL backends (with the PL/pgSQL functions
that the latter executes), of its distributed lock and of the admin commands that use it, and
proves what makes them correct.

** How the parts interact

A request arrives through gRPC: an interceptor ([admin/middleware.go]) turns a session token or
credentials into a user, and a handler ([orisun/grpcapi/eventstore_adapter.go],
[admin/grpc_server.go]) converts its messages. It enters [orisun/eventstore.go]: authorization,
the activation gate, validation, then the backend behind the interfaces [EventsSaver] and
[EventsRetriever]. A save is prepared ([orisun/eventstore_core.go], [orisun/consistency.go]), submitted to the group
commit coordinator ([internal/groupcommit]) and flushed with others in one SQLite
transaction ([sqlite/group_commit_executor.go]), one savepoint per request. Reads go to
[sqlite/sqlite_eventstore.go]. On PostgreSQL the coordinator hands a batch, as JSON, to one
SQL function ([postgres/scripts/common/db_scripts_1.sql]) that decides and stores it under the
lock of the boundary. Subscriptions read batches and hand them to handlers
([orisun/subscription_drain.go]); the hints that make them read come from the backend
([sqlite/event_signal.go], [postgres/pg_listener.go]) through a relay per boundary
([orisun/notification_relay.go]). Admin commands ([admin/slices]) read the log, decide,
and save with the observation they decided on; sessions ([admin/auth.go]) are issued
from user records and revoked by the events of these commands. The boundaries themselves are
events of the admin boundary: a command defines one ([admin/slices/create_boundary]), the node
that holds the lock of the provisioning subscription ([orisun/jetstream_lock_provider.go])
provisions it and records the outcome ([admin/slices/boundary_provisioning]), and every
process exposes it when it sees it activated; all of them read and write through the ports
of [internal/eventstoreadapter].

** Files

- [Prelude]: strings as Go has them (bytes, [TrimSpace], [Split]), 64-bit integers
  ([wrap64]), lists and tactics shared by all files.
- [Status]: [internal/statuscode], [internal/grpcstatus]; error values and the error monad.
- [Model]: messages, positions and their order, boundary names.
- [Number]: [internal/eventdata/number.go]; exact comparison of JSON numbers.
- [Json]: JSON values; the JSON library is the class [GoJson] with the laws [GoJsonLaws],
  and a concrete codec that satisfies them and runs the examples.
- [Predicates]: [orisun/query_predicates.go], [orisun/tag_matching.go].
- [Consistency]: [orisun/consistency.go]; normal forms of queries and the checks of a save.
- [EventData]: event data, reserved fields and the storage envelope.
- [WriteContext]: write identifiers and the durable record of the observations of a save.
- [SqlPredicates]: the SQL of criteria as syntax, its rendering and its meaning.
- [Sql]: statements, savepoints and transactions of SQLite as a monad over the tables in
  which any statement may fail, without effect or with the open transaction rolled back by
  SQLite; the driver is the class [Sqlitex].
- [SqliteStore]: the flush of a batch of saves; [SqliteLog]: the invariant of the log and
  the theorems on flushes; [SqliteRead]: the reads; [SqliteIndex]: the index catalog.
- [GroupCommit]: the coordinator, its workers and callers as interleaved programs.
- [EventStore]: the handlers over an abstract backend; [Api]: over SQLite.
- [Subscription]: the reader of a subscription under any schedule of hints and failures.
- [Auth]: the session table; [Users]: creating and deleting users, changing passwords.
- [SqliteAdmin]: the users table with its cache, checkpoints and counters;
  [Projections]: the projectors that fill them from the log.
- [Neutral]: [eventstore/types.go] and [internal/eventstoreadapter/adapter.go]; the contract
  of the ports is the class [EventLog], which the adapter over SQLite discharges.
- [Catalog]: the boundary catalog as a fold of its events, and its replay;
  [Boundaries]: the commands and event handlers of the lifecycle;
  [Lifecycle]: what the log says about one boundary, and the context a command loads;
  [Provisioning]: any number of nodes writing outcomes, against [EventLog];
  [BoundarySubscriber]: the subscriber, its replay and its retry loops as a transition
  system with infinite runs; [BoundaryExamples]: the lifecycle over SQLite.
- [JetStreamLock]: the lock and its leases as a transition system over a bucket, the class
  [LockKeyValue] with the laws that JetStream documents.
- PostgreSQL: [PgPredicates]: the numbers and predicates of its SQL; the conversions of the
  server are the class [Postgres] with the laws [PostgresLaws]. [PgInsert]: the function that
  decides and stores a batch, phase by phase, and next to it the reference that looks at the
  log for each request; [PgLog]: the refinement between them. [PgStore]: the Go side
  ([postgres/group_commit_request.go], [group_commit_executor.go], [group_commit.go],
  [postgres_eventstore.go], [write_context.go], [boundary_registry.go]) with the read
  functions; [PgSave]: saves; [PgRead]: reads; [PgSnapshot]: the transactions
  of the server around a log, and what readers see meanwhile. [PgMigration]: [postgres/migration.go],
  [storage_migration.go] and [boundary_provisioner.go]; [PgAdmin]: [PostgresAdminDB].
- [SqliteFiles]: [sqlite/pool.go], [migration.go], [boundary_registry.go] and
  [boundary_provisioner.go]; the databases of the SQLite backend, their migration and settings.
- [GrpcApi]: the messages and handlers of the event store; [AdminGrpc]: those of the admin
  service; [Middleware]: the interceptors that authenticate their calls, with base64.
- Hints: [Notifications]: the relays over the class [SignalSource] with its laws, and the
  notifier of SQLite, which discharges them; [PgListener]: the listener of PostgreSQL, which
  does too; [Md5]: the hash in the names of its channels; [HintReceiver]:
  [orisun/subscription_notifications.go], the end of a subscription that receives them.
- [Client]: [orisun/client.go], the client of a program that embeds the store;
  [Streams]: [orisun/common.go] and [stream.go], buffered streams.
- [Config]: [config/config.go]; [Server]: the logic of [server/server.go], [server/health.go]
  and [nats/nats.go], with [Backoff]; [CountProjectors]: the loops of the projectors that count.

State is passed explicitly: a [Conn] holds the tables of a boundary, the schedule of
the statements that fail and the tables at the beginning of the open transaction, a [Registry] maps boundaries to connections, a [World] adds
what the instruments received. Fallible code returns [result]; a panic or an infinite
loop is [None]. Integers are [Z] with [wrap64] where Go would wrap.

** What is proved

- The core contract, through the API down to the tables: a save is a compare-and-append
  ([Api.save_compare_and_append], [Api.save_appends]), the position of a context that was
  read is the lock of its query ([Api.context_position_is_lock]), flushes are sound and
  serializable under all failures, as long as none of them makes SQLite roll back the
  transaction of several requests ([SqliteLog.flush_sound], [flush_exact],
  [accepted_is_serializable], [batch_is_sequential], [prepared_check_context]), and what
  was saved is read back ([SqliteRead.GetBatch_exact], [GetLatestByCriteria_context],
  [accepted_events_read_back], [write_context_read_back]).
- The coordinator, for all interleavings: no panic, each caller gets the outcome of its
  own request, requests run in order and within bounds, closing settles every request
  and terminates ([GroupCommit]).
- Queries: normal forms are canonical and keep the meaning ([Consistency]), SQL and Go
  agree on tags up to the text SQLite gives a number, dropping criteria that include others
  changes nothing, quoting is safe
  ([SqlPredicates]), numbers are compared exactly ([Number]).
- Data: the envelope round trip and reserved fields ([EventData]), write identifiers
  ([WriteContext]), index definitions with their physical indexes ([SqliteIndex]).
- Access: the activation gate and authorization ([EventStore]), sessions come from logins
  that nothing revoked and are bounded ([Auth]).
- Use of the store: subscriptions deliver in order, once and without gaps, and catching
  up ends ([Subscription]); usernames are unique and users are deleted once, however
  commands interleave ([Users]); the users table follows the log through failures,
  crashes and restarts ([Projections.user_projection_refines]), and its cache never
  changes an answer ([SqliteAdmin.user_lookup_coherent]).
- Boundaries: the events of each keep the shape of a lifecycle whatever the nodes do at the
  same time ([Provisioning.boundary_lifecycle]), the catalog and the context of a command are
  exact ([Catalog.catalog_replay], [Lifecycle.load_context_exact]), a restart misses no event
  ([BoundarySubscriber.replay_exact]), only active boundaries are exposed
  ([Provisioning.runtime_exposes_active]), and a defined boundary becomes active in every
  fair run in which provisioning works at last
  ([BoundarySubscriber.boundary_eventually_active]).
- The lock: at most one holder, with failures that hide effects and clocks of bounded skew
  ([JetStreamLock.lock_mutual_exclusion]), and what each attempt to acquire it does
  ([acquire_attempt_exact]).
- PostgreSQL: the batch function refines the reference ([PgLog.insert_event_requests_exact]),
  a save is a compare-and-append ([PgSave.pg_save_compare_and_append]), reads return what the
  query selects and the position they return is the lock of a save
  ([PgRead.pg_GetBatch_exact], [pg_context_is_lock]), what an ascending reader sees only
  grows at its end while transactions come and go ([PgSnapshot.pg_reads_grow]), numbers are compared exactly
  ([PgPredicates.pg_compare_number_exact]), migrations keep the log and registered boundaries
  are ready ([PgMigration.migration_keeps_log], [registered_boundary_ready]), users are read
  back ([PgAdmin.pg_user_read_back]).
- SQLite storage: registered boundaries have both their databases, current and of their kind, and
  migrations keep every event ([SqliteFiles.sqlite_storage_ready]).
- The interface: the core contract holds between gRPC clients, with the observations as they were
  answered ([GrpcApi.grpc_context_is_lock]); a call passes only with a user whose token or
  credentials it presents ([Middleware.interceptor_authenticates]), and a user who was deleted or changed the password
  is shut out ([Middleware.revoked_token_refused]).
- Hints: none is lost, whatever fails and in whatever order: a boundary whose relay waits with
  nothing pending has had a hint since its last stored event
  ([Notifications.sqlite_hints_not_lost], [PgListener.pg_hints_not_lost]); and a subscription
  that hears nothing asks for a hint itself ([HintReceiver.silent_subscription_pings]).
- Around the core: the client saves as the API does ([Client.client_save_is_api_save],
  [client_conditional_save]); a configuration is accepted exactly when the startup can use it
  ([Config.validateConfig_exact], [loaded_config_starts], [substitute_placeholder]); starting and
  closing NATS leak nothing, health follows the probes and every provisioned boundary gets one
  projector ([Server.start_releases], [health_follows_probes], [boundary_projectors]); streams are
  first in first out ([Streams.stream_fifo]).
- Some theorems state what the code does where it does not do what it means to:
  [Users.first_password_change_refused], [Users.username_never_reused],
  [SqliteIndex.index_names_collide], [Subscription.lock_names_collide],
  [Projections.event_count_overcounts], [Projections.lost_user_count],
  [SqliteAdmin.overlapping_lookup_stale], [PgSave.nul_request_fails_flush],
  [PgRead.quoted_boundary_unreadable], [PgMigration.mixed_case_schema_refused],
  [PgAdmin.pg_cached_user_served], [PgAdmin.mixed_case_count],
  [AdminGrpc.deleted_user_not_recognized], [SqliteFiles.metadata_name_taken],
  [Server.default_password_fixed], [CountProjectors.failed_checkpoint_counts_again],
  [Config.substitute_backtick_before_colon], [SqliteLog.accepted_request_rolled_back],
  [PgMigration.long_boundary_without_sequence], [PgMigration.refused_names].

** Bounds and fuel

Loops without a structural measure take fuel and return [None] when it runs out; each is
proved to return with the fuel its callers give: [limit_loop] with one more than the
sessions, [drain] with two more than the events to see, the replays of the catalog and of
the subscriber with one more than the events of the log whenever a page is read. The loop that
records an activation ([activate_loop]) and those that restart a subscription go on as long as
other nodes interfere: their theorems hold for every fuel. What other nodes do before each
operation of a handler is the argument [env]. MD5 takes the length of the padded message, of
which each block uses 64 bytes ([Md5.md5_blocks_fuel]). The coordinator has no fuel: its termination
theorem bounds every sequence of its steps. Loops that retry until something outside works
([Config], [Server], [CountProjectors]) take the list of the answers they meet.

** What is not modelled

The indexes of PostgreSQL: the server compares their definitions with its deparser, whose text
is not in the repository. The server that carries hints from the relays to subscriptions: an
environment of both, which may lose or repeat hints. The generated protobuf code: its messages
are records. The order in which [Run] of [server/server.go] and the packages of [embedded] wire the
components, and the options they hand to gRPC and NATS; exporters of telemetry, benchmarks and
command lines: they keep no state of the store. What SQLite finds at a JSON path whose key has a
double quote or a backslash is the parameter [odd_path]. Members of JSON objects are found by their
exact names, while [encoding/json] also takes a name in another case. On PostgreSQL the functions
for saves and reads take the tables of a boundary with its sequence, which a migration creates for
names of up to 46 bytes. *)

From stdpp Require Export gmap strings list sorting pretty.
From Stdlib Require Export Ascii ZArith Lia.
From stdpp Require Import options.

Declare Scope go_scope.
Delimit Scope go_scope with go.

(** ** Automation shared by the components *)

Create HintDb orisun discriminated.

(** Case analysis on every [match]/[if] of the goal and the context, closing
the contradictory branches. *)
Ltac split_matches :=
  repeat (case_match; simplify_eq/=; try done).

(** Decide a boolean comparison of the context or the goal into its
proposition. *)
Ltac bool_props :=
  repeat match goal with
  | H : andb _ _ = true |- _ => apply andb_true_iff in H as [? ?]
  | H : andb _ _ = false |- _ => apply andb_false_iff in H
  | H : orb _ _ = false |- _ => apply orb_false_iff in H as [? ?]
  | H : orb _ _ = true |- _ => apply orb_true_iff in H
  | H : negb _ = true |- _ => apply negb_true_iff in H
  | H : negb _ = false |- _ => apply negb_false_iff in H
  | H : Z.leb _ _ = true |- _ => apply Z.leb_le in H
  | H : Z.leb _ _ = false |- _ => apply Z.leb_gt in H
  | H : Z.ltb _ _ = true |- _ => apply Z.ltb_lt in H
  | H : Z.ltb _ _ = false |- _ => apply Z.ltb_ge in H
  | H : Z.eqb _ _ = true |- _ => apply Z.eqb_eq in H
  | H : Z.eqb _ _ = false |- _ => apply Z.eqb_neq in H
  | H : N.leb _ _ = true |- _ => apply N.leb_le in H
  | H : N.leb _ _ = false |- _ => apply N.leb_gt in H
  | H : N.ltb _ _ = true |- _ => apply N.ltb_lt in H
  | H : N.ltb _ _ = false |- _ => apply N.ltb_ge in H
  | H : Nat.leb _ _ = true |- _ => apply Nat.leb_le in H
  | H : Nat.leb _ _ = false |- _ => apply Nat.leb_gt in H
  | H : Nat.ltb _ _ = true |- _ => apply Nat.ltb_lt in H
  | H : Nat.ltb _ _ = false |- _ => apply Nat.ltb_ge in H
  | H : Nat.eqb _ _ = true |- _ => apply Nat.eqb_eq in H
  | H : Nat.eqb _ _ = false |- _ => apply Nat.eqb_neq in H
  | H : String.eqb _ _ = true |- _ => apply String.eqb_eq in H
  | H : String.eqb _ _ = false |- _ => apply String.eqb_neq in H
  | H : bool_decide _ = true |- _ => apply bool_decide_eq_true_1 in H
  | H : bool_decide _ = false |- _ => apply bool_decide_eq_false_1 in H
  end.

(** ** Go's fixed-width integers *)

(** [int64] (and [int] on the supported 64-bit targets). *)
Definition MinInt64 : Z := - 2 ^ 63.
Definition MaxInt64 : Z := 2 ^ 63 - 1.
Definition is_int64 (z : Z) : Prop := (MinInt64 <= z <= MaxInt64)%Z.
#[export] Instance is_int64_dec z : Decision (is_int64 z).
Proof. unfold is_int64. apply _. Defined.

(** Two's-complement wrap-around of an exact result to [int64]. *)
Definition wrap64 (z : Z) : Z := ((z + 2 ^ 63) mod 2 ^ 64 - 2 ^ 63)%Z.

Definition wrap32u (z : Z) : Z := (z mod 2 ^ 32)%Z.

Lemma wrap64_id z : is_int64 z → wrap64 z = z.
Proof.
  unfold is_int64, MinInt64, MaxInt64, wrap64. intros H.
  rewrite Z.mod_small; lia.
Qed.

Lemma wrap64_range z : is_int64 (wrap64 z).
Proof.
  unfold is_int64, MinInt64, MaxInt64, wrap64.
  pose proof (Z.mod_pos_bound (z + 2 ^ 63) (2 ^ 64)) as ?. lia.
Qed.

(** ** Bytes and strings

A Go [string] is a byte sequence; so is Rocq's [string], whose characters are
the 256 bytes. [String.compare] is Go's byte-wise [<] on strings. *)

Definition byte_at (s : string) (i : nat) : option ascii := String.get i s.

(** [len(s)]. *)
Definition go_len (s : string) : Z := Z.of_nat (String.length s).

Definition is_digit (c : ascii) : bool :=
  let n := N_of_ascii c in (48 <=? n)%N && (n <=? 57)%N.

Definition digit_val (c : ascii) : N := (N_of_ascii c - 48)%N.

Fixpoint string_forallb (f : ascii → bool) (s : string) : bool :=
  match s with
  | EmptyString => true
  | String c s => f c && string_forallb f s
  end.

Fixpoint string_existsb (f : ascii → bool) (s : string) : bool :=
  match s with
  | EmptyString => false
  | String c s => f c || string_existsb f s
  end.

(** [strings.ContainsRune(s, 0)]. *)
Definition contains_nul (s : string) : bool :=
  string_existsb (Ascii.eqb Ascii.zero) s.

(** [strings.HasPrefix]. *)
Definition HasPrefix (s pre : string) : bool := String.prefix pre s.

(** [strings.Join]. *)
Fixpoint Join (parts : list string) (sep : string) : string :=
  match parts with
  | [] => ""
  | [p] => p
  | p :: ps => p +:+ sep +:+ Join ps sep
  end.

(** [strings.ReplaceAll(s, c, by)] for a one-byte pattern. *)
Fixpoint ReplaceAll (s : string) (c : ascii) (by_ : string) : string :=
  match s with
  | EmptyString => ""
  | String d s =>
      if Ascii.eqb d c then by_ +:+ ReplaceAll s c by_
      else String d (ReplaceAll s c by_)
  end.

(** [strings.Split(s, sep)] for a one-byte separator: never empty. *)
Fixpoint Split (s : string) (sep : ascii) : list string :=
  match s with
  | EmptyString => [""]
  | String d s =>
      if Ascii.eqb d sep then "" :: Split s sep
      else match Split s sep with
           | [] => [String d ""]
           | p :: ps => String d p :: ps
           end
  end.

(** The UTF-8 encodings of Unicode's White_Space characters, the set that
[strings.TrimSpace] removes. *)
Fixpoint bytes (l : list N) : string :=
  match l with
  | [] => EmptyString
  | n :: l => String (ascii_of_N n) (bytes l)
  end.

Definition unicode_spaces : list string :=
  [bytes [9]; bytes [10]; bytes [11]; bytes [12]; bytes [13]; bytes [32];
   bytes [194; 133]; bytes [194; 160]; bytes [225; 154; 128];
   bytes [226; 128; 128]; bytes [226; 128; 129]; bytes [226; 128; 130];
   bytes [226; 128; 131]; bytes [226; 128; 132]; bytes [226; 128; 133];
   bytes [226; 128; 134]; bytes [226; 128; 135]; bytes [226; 128; 136];
   bytes [226; 128; 137]; bytes [226; 128; 138]; bytes [226; 128; 168];
   bytes [226; 128; 169]; bytes [226; 128; 175]; bytes [226; 129; 159];
   bytes [227; 128; 128]]%N.

Fixpoint strip_prefix (pre s : string) : option string :=
  match pre, s with
  | EmptyString, _ => Some s
  | String a pre, String b s => if Ascii.eqb a b then strip_prefix pre s else None
  | _, EmptyString => None
  end.

Fixpoint first_strip (pres : list string) (s : string) : option string :=
  match pres with
  | [] => None
  | p :: ps => match strip_prefix p s with
               | Some rest => Some rest
               | None => first_strip ps s
               end
  end.

(** Remove leading members of [pres]; every member is at least one byte, so the
length of the string is enough fuel. *)
Fixpoint trim_left_of (fuel : nat) (pres : list string) (s : string) : string :=
  match fuel with
  | 0 => s
  | S fuel => match first_strip pres s with
              | Some rest => trim_left_of fuel pres rest
              | None => s
              end
  end.

(** [strings.TrimSpace]. *)
Definition TrimSpace (s : string) : string :=
  let l := trim_left_of (String.length s) unicode_spaces s in
  String.rev (trim_left_of (String.length l) (String.rev <$> unicode_spaces)
                (String.rev l)).

(** ** Decimal integers: [strconv.FormatInt] and [strconv.ParseInt] *)

(** [strconv.FormatInt(z, 10)]. *)
Definition FormatInt (z : Z) : string := pretty z.

(** The value of a digit string read from the left onto [acc]; [None] when a
byte is not a digit. *)
Fixpoint parse_digits (acc : N) (s : string) : option N :=
  match s with
  | EmptyString => Some acc
  | String c s =>
      if is_digit c then parse_digits (10 * acc + digit_val c)%N s else None
  end.

(** [strconv.ParseInt(s, 10, 64)]: an optional sign, at least one digit, and a
value in range. *)
Definition ParseInt (s : string) : option Z :=
  let unsigned (s : string) :=
    match s with EmptyString => None | _ => parse_digits 0 s end in
  match
    (match s with
     | String "-" s => (λ n, - Z.of_N n)%Z <$> unsigned s
     | String "+" s => Z.of_N <$> unsigned s
     | _ => Z.of_N <$> unsigned s
     end)
  with
  | Some z => if bool_decide (is_int64 z) then Some z else None
  | None => None
  end.

Lemma pretty_N_char_digit (r : N) :
  (r < 10)%N →
  is_digit (pretty_N_char r) = true ∧ digit_val (pretty_N_char r) = r.
Proof.
  intros Hr.
  assert (r = 0 ∨ r = 1 ∨ r = 2 ∨ r = 3 ∨ r = 4 ∨ r = 5 ∨ r = 6 ∨ r = 7
    ∨ r = 8 ∨ r = 9)%N as Hc by lia.
  destruct_or! Hc; by subst.
Qed.

Lemma parse_digits_pretty_go (x : N) (s : string) :
  parse_digits 0 (pretty_N_go x s) = parse_digits x s.
Proof.
  revert s. induction (N.lt_wf_0 x) as [x _ IH]; intros s.
  assert (x = 0 ∨ 0 < x)%N as [->|Hx] by lia; [by rewrite pretty_N_go_0|].
  rewrite pretty_N_go_step by done.
  rewrite IH by (by apply N.div_lt). simpl.
  destruct (pretty_N_char_digit (x `mod` 10)) as [-> ->]; [by apply N.mod_lt|].
  f_equal. pose proof (N.div_mod x 10). lia.
Qed.

Lemma pretty_go_forallb (f : ascii → bool) (x : N) (s : string) :
  (∀ r, (r < 10)%N → f (pretty_N_char r) = true) →
  string_forallb f s = true → string_forallb f (pretty_N_go x s) = true.
Proof.
  intros Hf. revert s. induction (N.lt_wf_0 x) as [x _ IH]; intros s Hs.
  assert (x = 0 ∨ 0 < x)%N as [->|Hx] by lia; [by rewrite pretty_N_go_0|].
  rewrite pretty_N_go_step by done. apply IH; [by apply N.div_lt|]. simpl.
  rewrite Hf by (by apply N.mod_lt). done.
Qed.

Lemma pretty_N_digits (n : N) :
  string_forallb is_digit (pretty n) = true.
Proof.
  unfold pretty, pretty_N. case_decide; [done|].
  apply pretty_go_forallb; [|done]. intros. by apply pretty_N_char_digit.
Qed.

Lemma parse_digits_pretty (n : N) : parse_digits 0 (pretty n) = Some n.
Proof.
  unfold pretty, pretty_N. case_decide; [by subst|].
  by rewrite parse_digits_pretty_go.
Qed.

Lemma pretty_N_nonempty (n : N) : (pretty n : string) ≠ "".
Proof.
  intros Hn. pose proof (parse_digits_pretty n) as Hp.
  rewrite Hn in Hp. by destruct n.
Qed.

(** A decimal digit is neither a sign nor a separator. *)
Lemma pretty_N_head (n : N) :
  ∃ c s, (pretty n : string) = String c s ∧ is_digit c = true.
Proof.
  pose proof (pretty_N_nonempty n). pose proof (pretty_N_digits n) as Hd.
  destruct (pretty n) as [|c s] eqn:E; [done|].
  simpl in Hd. bool_props. eauto.
Qed.

Lemma ParseInt_FormatInt (z : Z) :
  is_int64 z → ParseInt (FormatInt z) = Some z.
Proof.
  intros Hz. unfold FormatInt.
  assert (∀ n : N, is_int64 (Z.of_N n) → ParseInt (pretty n) = Some (Z.of_N n))
    as Hpos.
  { intros n Hn. destruct (pretty_N_head n) as (c & s & Hs & Hc).
    pose proof (parse_digits_pretty n) as Hp. unfold ParseInt. rewrite Hs in *.
    assert (c ≠ "-"%char ∧ c ≠ "+"%char) as [? ?]
      by (split; by intros ->).
    rewrite Hp.
    destruct c as [[] [] [] [] [] [] [] []]; try done; simpl;
      by rewrite bool_decide_true. }
  destruct z as [|p|p].
  - done.
  - apply (Hpos (N.pos p) Hz).
  - change (pretty (Z.neg p)) with (String "-" (pretty (N.pos p))).
    unfold ParseInt. pose proof (parse_digits_pretty (N.pos p)) as Hp.
    destruct (pretty (N.pos p)) as [|c s] eqn:E;
      [by destruct (pretty_N_nonempty (N.pos p))|].
    rewrite Hp. simpl. by rewrite bool_decide_true.
Qed.

(** ** Splitting and length-prefixed encodings *)

Lemma string_app_cons c (s t : string) : String c s +:+ t = String c (s +:+ t).
Proof. reflexivity. Qed.

Lemma string_app_empty (t : string) : "" +:+ t = t.
Proof. reflexivity. Qed.

#[export] Hint Rewrite string_app_cons string_app_empty : string_app.

(** Push string concatenation through the constructors. *)
Ltac string_simpl := autorewrite with string_app in *; simpl in *.

Lemma string_app_nil_r (s : string) : s +:+ "" = s.
Proof. induction s as [|c s IH]; [done|]. string_simpl. by rewrite IH. Qed.

Lemma string_app_assoc (a b c : string) : (a +:+ b) +:+ c = a +:+ (b +:+ c).
Proof. induction a as [|x a IH]; [done|]. string_simpl. by rewrite IH. Qed.

Lemma ReplaceAll_app s t c b : ReplaceAll (s +:+ t) c b = ReplaceAll s c b +:+ ReplaceAll t c b.
Proof.
  induction s as [|d s IH]; [done|]. simpl. destruct (Ascii.eqb d c); rewrite IH; [|done].
  by rewrite string_app_assoc.
Qed.

Lemma string_length_app (a b : string) :
  String.length (a +:+ b) = String.length a + String.length b.
Proof. induction a as [|x a IH]; [done|]. string_simpl. by rewrite IH. Qed.

Lemma string_app_inj_length (a b x y : string) :
  String.length a = String.length b → a +:+ x = b +:+ y → a = b ∧ x = y.
Proof.
  revert b. induction a as [|c a IH]; intros [|d b] Hl He; try done.
  string_simpl. injection He as -> He. injection Hl as Hl.
  destruct (IH b) as [-> ->]; auto.
Qed.

Lemma string_forallb_app f (a b : string) :
  string_forallb f (a +:+ b) = string_forallb f a && string_forallb f b.
Proof. induction a as [|c a IH]; [done|]. string_simpl. by rewrite IH, andb_assoc. Qed.

(** A prefix free of [c] is determined by what precedes the first [c]. *)
Lemma string_split_at (c : ascii) (a b x y : string) :
  string_forallb (λ d, negb (Ascii.eqb d c)) a = true →
  string_forallb (λ d, negb (Ascii.eqb d c)) b = true →
  a +:+ String c x = b +:+ String c y → a = b ∧ x = y.
Proof.
  revert b. induction a as [|d a IH]; intros [|e b] Ha Hb He; string_simpl.
  - by simplify_eq.
  - injection He as -> _. by rewrite Ascii.eqb_refl in Hb.
  - injection He as -> _. by rewrite Ascii.eqb_refl in Ha.
  - injection He as -> He. bool_props.
    destruct (IH b) as [-> ->]; auto.
Qed.

(** [fmt.Sprintf("%d:%s", len(s), s)]. *)
Definition len_prefixed (s : string) : string :=
  pretty (String.length s) +:+ ":" +:+ s.

Lemma digits_no_colon (s : string) :
  string_forallb is_digit s = true →
  string_forallb (λ d, negb (Ascii.eqb d ":"%char)) s = true.
Proof.
  induction s as [|c s IH]; [done|]. simpl. intros H. bool_props.
  rewrite IH by done. rewrite andb_true_r, negb_true_iff.
  destruct (Ascii.eqb c ":") eqn:E; [|done].
  apply Ascii.eqb_eq in E as ->. done.
Qed.

(** Length-prefixed strings form a prefix code: a concatenation decodes in one
way. *)
Lemma len_prefixed_inj (a b x y : string) :
  len_prefixed a +:+ x = len_prefixed b +:+ y → a = b ∧ x = y.
Proof.
  unfold len_prefixed. rewrite !string_app_assoc. intros H.
  apply (string_split_at ":") in H as [Hl Hr];
    [|by apply digits_no_colon, pretty_N_digits..].
  apply (inj pretty) in Hl. by apply string_app_inj_length in Hr.
Qed.

Lemma len_prefixed_nonempty (a x : string) : len_prefixed a +:+ x ≠ "".
Proof.
  unfold len_prefixed. rewrite !string_app_assoc.
  pose proof (pretty_N_nonempty (N.of_nat (String.length a))) as Hp.
  change (pretty (String.length a)) with
    (pretty (N.of_nat (String.length a)) : string).
  by destruct (pretty (N.of_nat (String.length a))).
Qed.

(** A field without the separator is returned whole by [Split]. *)
Lemma Split_no_sep (s : string) (c : ascii) :
  string_forallb (λ d, negb (Ascii.eqb d c)) s = true → Split s c = [s].
Proof.
  induction s as [|d s IH]; [done|]. simpl. intros H. bool_props.
  rewrite H. by rewrite IH.
Qed.

Lemma Split_app (a b : string) (c : ascii) :
  string_forallb (λ d, negb (Ascii.eqb d c)) a = true →
  Split (a +:+ String c b) c = a :: Split b c.
Proof.
  induction a as [|d a IH]; string_simpl; [by rewrite Ascii.eqb_refl|].
  intros H. bool_props. rewrite H. by rewrite IH.
Qed.

(** ** Options and lists *)

Lemma default_Some {A} (d x : A) : default d (Some x) = x.
Proof. done. Qed.

Lemma list_filter_none {A} (P : A → Prop) `{!∀ x, Decision (P x)} (l : list A) :
  (∀ x, x ∈ l → ¬ P x) → filter P l = [].
Proof.
  induction l as [|x l IH]; intros Hn; [done|]. rewrite filter_cons_False.
  - apply IH. intros y Hy. apply Hn. by right.
  - apply Hn. left.
Qed.

Lemma Forall2_impl_elem {A B} (P Q : A → B → Prop) l k :
  Forall2 P l k → (∀ x y, x ∈ l → P x y → Q x y) → Forall2 Q l k.
Proof.
  induction 1 as [|x y l k Hxy _ IH]; intros H; constructor.
  - apply H; [left|done].
  - apply IH. intros x' y' Hx. apply H. by right.
Qed.

Lemma list_filter_all {A} (P : A → Prop) `{!∀ x, Decision (P x)} (l : list A) :
  (∀ x, x ∈ l → P x) → filter P l = l.
Proof.
  induction l as [|x l IH]; intros Ha; [done|]. rewrite filter_cons_True.
  - f_equal. apply IH. intros y Hy. apply Ha. by right.
  - apply Ha. left.
Qed.

Lemma existsb_app_b {A} (f : A → bool) l1 l2 :
  existsb f (l1 ++ l2) = existsb f l1 || existsb f l2.
Proof. apply existsb_app. Qed.

Lemma existsb_ext_elem {A B} (f : A → bool) (g : B → bool) (l : list A) (k : list B) :
  (∀ x, x ∈ l → f x = true → ∃ y, y ∈ k ∧ g y = true) →
  (∀ y, y ∈ k → g y = true → ∃ x, x ∈ l ∧ f x = true) →
  existsb f l = existsb g k.
Proof.
  intros H1 H2. apply eq_iff_eq_true. rewrite !existsb_exists.
  setoid_rewrite <-list_elem_of_In. naive_solver.
Qed.

Lemma forallb_ext_elem {A} (f : A → bool) (l k : list A) :
  (∀ x, x ∈ l ↔ x ∈ k) → forallb f l = forallb f k.
Proof.
  intros H. apply eq_iff_eq_true. rewrite !forallb_forall.
  setoid_rewrite <-list_elem_of_In. naive_solver.
Qed.

Lemma StronglySorted_lookup {A} (R : relation A) (l : list A) :
  (∀ i j x y, i < j → l !! i = Some x → l !! j = Some y → R x y) → StronglySorted R l.
Proof.
  induction l as [|x l IH]; intros H; constructor.
  - apply IH. intros i j y z Hij Hi Hj. by apply (H (S i) (S j)); [lia|..].
  - apply Forall_forall. intros y [i Hi]%list_elem_of_lookup.
    by apply (H 0 (S i)); [lia|..].
Qed.

Lemma StronglySorted_filter {A} (R : relation A) (P : A → Prop) `{!∀ x, Decision (P x)} l :
  StronglySorted R l → StronglySorted R (filter P l).
Proof.
  induction 1 as [|x l Hs IH Hf]; [constructor|]. rewrite filter_cons.
  case_decide; [|done]. constructor; [done|]. rewrite Forall_forall in *.
  intros y [_ Hy]%list_elem_of_filter. by apply Hf.
Qed.

Lemma StronglySorted_reverse {A} (R : relation A) (l : list A) :
  StronglySorted R l → StronglySorted (flip R) (reverse l).
Proof.
  induction 1 as [|x l Hs IH Hf]; [constructor|]. rewrite reverse_cons.
  apply StronglySorted_app_2; [|done|repeat constructor].
  intros y z Hy Hz%list_elem_of_singleton. subst. rewrite elem_of_reverse in Hy.
  rewrite Forall_forall in Hf. by apply Hf.
Qed.

Lemma StronglySorted_mono {A} (R Q : relation A) (l : list A) :
  (∀ x y, R x y → Q x y) → StronglySorted R l → StronglySorted Q l.
Proof.
  intros HRQ. induction 1 as [|x l Hs IH Hf]; constructor; [done|].
  eapply Forall_impl; [done|]. auto.
Qed.

(** ** Sums over maps *)

Definition map_sum `{Countable K} {V} (f : V → nat) (m : gmap K V) : nat :=
  map_fold (λ _ v n, f v + n) 0 m.

Lemma map_sum_insert_new `{Countable K} {V} (f : V → nat) (m : gmap K V) k v :
  m !! k = None → map_sum f (<[k := v]> m) = f v + map_sum f m.
Proof.
  intros Hk. unfold map_sum. rewrite map_fold_insert_L; [done| |done]. intros. lia.
Qed.

Lemma map_sum_insert `{Countable K} {V} (f : V → nat) (m : gmap K V) k v v' :
  m !! k = Some v → map_sum f (<[k := v']> m) + f v = map_sum f m + f v'.
Proof.
  intros Hk. rewrite <-insert_delete_eq.
  rewrite <-(insert_id m k v Hk) at 2. rewrite <-(insert_delete_eq m k v).
  rewrite !map_sum_insert_new by apply lookup_delete_eq. lia.
Qed.

Lemma substring_all s n : (String.length s <= n)%nat → String.substring 0 n s = s.
Proof.
  revert n. induction s as [|c s IH]; intros [|n] Hn; simpl in *; try done; [lia|].
  by rewrite IH by lia.
Qed.
