(* ===== verification/Status.v ===== *)
(** * Errors: [internal/statuscode], [internal/grpcstatus]

Go [error] values and the [(T, error)] results of the program. An error keeps
what the code inspects: its status code, the sentinel it is, and what it
wraps with [%w]. The text is the literal format of the call; its arguments are
not rendered, except where the code branches on the text. *)

From stdpp Require Import options.
From S2P Require Import Prelude.

(** [statuscode.Code]. *)
Inductive Code :=
  | OK | Unknown | Canceled | InvalidArgument | DeadlineExceeded | NotFound
  | AlreadyExists | PermissionDenied | Unauthenticated | Unavailable
  | Unimplemented | FailedPrecondition | Internal.

#[export] Instance Code_eq_dec : EqDecision Code.
Proof. solve_decision. Defined.

(** A Go [error] that is not nil. *)
Inductive goerror :=
  | StatusError (code : Code) (message : string)  (* a [*statuscode.Error] *)
  | ContextCanceled                               (* [context.Canceled] *)
  | ContextDeadlineExceeded                       (* [context.DeadlineExceeded] *)
  | Sentinel (name : string)                      (* a package-level error variable *)
  | PlainError (message : string)                 (* [errors.New], [fmt.Errorf] *)
  | Wrapped (format : string) (inner : goerror).  (* [fmt.Errorf] with %w *)

#[export] Instance goerror_eq_dec : EqDecision goerror.
Proof. solve_decision. Defined.

(** A [(T, error)] result. *)
Inductive result (A : Type) :=
  | Ok (a : A)
  | Err (e : goerror).
Arguments Ok {_} _.
Arguments Err {_} _.

#[export] Instance result_eq_dec {A} `{EqDecision A} : EqDecision (result A).
Proof. solve_decision. Defined.

(** [if err != nil { return ..., err }] is the bind of this monad. *)
#[export] Instance result_ret : MRet result := λ A a, Ok a.
#[export] Instance result_bind : MBind result := λ A B f m,
  match m with Ok a => f a | Err e => Err e end.
#[export] Instance result_fmap : FMap result := λ A B f m,
  match m with Ok a => Ok (f a) | Err e => Err e end.

Definition is_ok {A} (r : result A) : bool :=
  match r with Ok _ => true | Err _ => false end.

(** [if bad { return err }]. *)
Definition reject_if (bad : bool) (e : goerror) : result unit :=
  if bad then Err e else Ok tt.

Definition New (code : Code) (message : string) : goerror :=
  StatusError code message.

Definition Errorf (code : Code) (format : string) : goerror := New code format.

(** [errors.As(err, &coded)] down the %w chain. *)
Fixpoint as_status (e : goerror) : option (Code * string) :=
  match e with
  | StatusError c m => Some (c, m)
  | Wrapped _ inner => as_status inner
  | _ => None
  end.

(** The text of an error: the literal part the code can test. *)
Fixpoint Error_text (e : goerror) : string :=
  match e with
  | StatusError _ m => m
  | ContextCanceled => "context canceled"
  | ContextDeadlineExceeded => "context deadline exceeded"
  | Sentinel n => n
  | PlainError m => m
  | Wrapped f inner => f +:+ Error_text inner
  end.

(** [errors.Is]. *)
Fixpoint errors_Is (e target : goerror) : bool :=
  if decide (e = target) then true
  else match e with Wrapped _ inner => errors_Is inner target | _ => false end.

Definition FromError (e : goerror) : Code * string * bool :=
  match as_status e with
  | Some (c, m) => (c, m, true)
  | None => (Unknown, Error_text e, false)
  end.

Definition CodeOf (err : option goerror) : Code :=
  match err with
  | None => OK
  | Some e => match FromError e with
              | (c, _, true) => c
              | (_, _, false) => Unknown
              end
  end.

(** The code of a [(T, error)] result. *)
Definition result_code {A} (r : result A) : Code :=
  match r with Ok _ => OK | Err e => CodeOf (Some e) end.

Definition FromContextError (e : goerror) : goerror :=
  if errors_Is e ContextCanceled then New Canceled "context canceled"
  else if errors_Is e ContextDeadlineExceeded
  then New DeadlineExceeded "context deadline exceeded"
  else New Unknown (Error_text e).

(** [if code, _, ok := FromError(err); ok && code != Unknown { return err };
return Errorf(Internal, ...)]: how the API layer passes coded errors through. *)
Definition coded_or_internal (format : string) (e : goerror) : goerror :=
  match FromError e with
  | (c, _, true) => if decide (c = Unknown) then Errorf Internal format else e
  | (_, _, false) => Errorf Internal format
  end.

(** ** [grpcstatus] *)

(** The [codes.Code] values of gRPC the adapter names. *)
Inductive GrpcCode :=
  | GUnknown | GCanceled | GInvalidArgument | GDeadlineExceeded | GNotFound
  | GAlreadyExists | GPermissionDenied | GUnauthenticated | GUnavailable
  | GUnimplemented | GFailedPrecondition | GInternal.

#[export] Instance GrpcCode_eq_dec : EqDecision GrpcCode.
Proof. solve_decision. Defined.

Definition grpcCode (c : Code) : GrpcCode :=
  match c with
  | Canceled => GCanceled
  | InvalidArgument => GInvalidArgument
  | DeadlineExceeded => GDeadlineExceeded
  | NotFound => GNotFound
  | AlreadyExists => GAlreadyExists
  | PermissionDenied => GPermissionDenied
  | Unauthenticated => GUnauthenticated
  | Unavailable => GUnavailable
  | Unimplemented => GUnimplemented
  | FailedPrecondition => GFailedPrecondition
  | Internal => GInternal
  | OK | Unknown => GUnknown
  end.

(** What [grpcstatus.FromError] hands to gRPC: a status, or the error as it is. *)
Definition grpc_FromError (err : option goerror)
  : option (GrpcCode * string + goerror) :=
  match err with
  | None => None
  | Some e => match FromError e with
              | (c, m, true) => Some (inl (grpcCode c, m))
              | (_, _, false) => Some (inr e)
              end
  end.

(** ** Facts used by the components *)

Lemma result_bind_ok {A B} (m : result A) (f : A → result B) b :
  m ≫= f = Ok b ↔ ∃ a, m = Ok a ∧ f a = Ok b.
Proof. destruct m as [a|e]; simpl; naive_solver. Qed.

Lemma reject_if_ok b e : reject_if b e = Ok tt ↔ b = false.
Proof. by destruct b. Qed.

Lemma mapM_cons {A B} (f : A → result B) x l :
  mapM f (x :: l) = (y ← f x; k ← mapM f l; mret (y :: k)).
Proof. done. Qed.

Lemma mapM_ok {A B} (f : A → result B) (g : A → B) (l : list A) :
  (∀ x, x ∈ l → f x = Ok (g x)) → mapM f l = Ok (g <$> l).
Proof.
  induction l as [|x l IH]; intros H; [done|]. simpl.
  rewrite H by left. simpl. rewrite IH; [done|]. intros y Hy. apply H. by right.
Qed.

Lemma mapM_fmap_l {A B C} (f : B → result C) (g : A → B) (l : list A) :
  mapM f (g <$> l) = mapM (λ x, f (g x)) l.
Proof.
  induction l as [|x l IH]; [done|]. rewrite fmap_cons. simpl.
  destruct (f (g x)); simpl; [|done]. by rewrite IH.
Qed.

Lemma result_mapM_Forall2 {A C} (f : A → result C) l k :
  mapM f l = Ok k → Forall2 (λ x y, f x = Ok y) l k.
Proof.
  revert k. induction l as [|x l IH]; intros k H; [by injection H as <-|].
  rewrite mapM_cons in H. apply result_bind_ok in H as (y & Hy & H).
  apply result_bind_ok in H as (k' & Hk & [= <-]). constructor; [done|by apply IH].
Qed.

Lemma CodeOf_status c m : CodeOf (Some (StatusError c m)) = c.
Proof. done. Qed.

Lemma CodeOf_wrapped f e : CodeOf (Some (Wrapped f e)) = CodeOf (Some e).
Proof. unfold CodeOf, FromError. simpl. by destruct (as_status e) as [[]|]. Qed.

(** Split a hypothesis [m ≫= f = Ok b]. *)
Ltac inv_ok :=
  repeat match goal with
  | H : mbind _ ?m = Ok _ |- _ => apply result_bind_ok in H as (? & ? & H)
  | H : reject_if _ _ = Ok ?u |- _ => destruct u; apply reject_if_ok in H
  | H : Ok _ = Ok _ |- _ => injection H as H
  | H : Err _ = Ok _ |- _ => discriminate H
  | H : Ok _ = Err _ |- _ => discriminate H
  | H : Err _ = Err _ |- _ => injection H as H
  end.
