(* ===== verification/Model.v ===== *)
(** * The data model: [orisun/eventstore_messages.go], [orisun/read_batch.go],
[orisun/latest_batch.go], [eventstore/types.go], [boundary/types.go]

Pointers that the code tests against nil are [option]s; [time.Time] is a count
of nanoseconds. *)

From stdpp Require Import options.
From S2P Require Import Prelude Status.

(** ** Positions *)

(** [orisun.Position] and [eventstore.Position]. *)
Record Position := mkPosition { CommitPosition : Z; PreparePosition : Z }.

#[export] Instance Position_eq_dec : EqDecision Position.
Proof. solve_decision. Defined.
#[export] Instance Position_inhabited : Inhabited Position :=
  populate (mkPosition 0 0).

Definition NotExistsPosition : Position := mkPosition (-1) (-1).
Definition FirstPosition : Position := mkPosition 0 0.

(** [orisun.ComparePositions]: -1, 0 or 1. *)
Definition ComparePositions (p1 p2 : Position) : Z :=
  if (CommitPosition p1 =? CommitPosition p2)%Z
     && (PreparePosition p1 =? PreparePosition p2)%Z then 0
  else if (CommitPosition p1 <? CommitPosition p2)%Z
     || ((CommitPosition p1 =? CommitPosition p2)%Z
         && (PreparePosition p1 <? PreparePosition p2)%Z) then -1
  else 1.

Definition isEventPositionNewerThanPosition (new last : Position) : bool :=
  (ComparePositions new last =? 1)%Z.

(** [Position.Compare] of the neutral package. *)
Definition Position_Compare (p other : Position) : Z :=
  if (CommitPosition p <? CommitPosition other)%Z
     || ((CommitPosition p =? CommitPosition other)%Z
         && (PreparePosition p <? PreparePosition other)%Z) then -1
  else if decide (p = other) then 0
  else 1.

Definition Position_After (p other : Position) : bool :=
  (0 <? Position_Compare p other)%Z.

Definition Position_Before (p other : Position) : bool :=
  (Position_Compare p other <? 0)%Z.

(** [positionValuesAfter] of [orisun/eventstore.go]. *)
Definition positionValuesAfter (commit prepare previousCommit previousPrepare : Z)
  : bool :=
  (previousCommit <? commit)%Z
  || ((commit =? previousCommit)%Z && (previousPrepare <? prepare)%Z).

(** The total order of a boundary that these functions decide. *)
Definition pos_lt (p q : Position) : Prop :=
  (CommitPosition p < CommitPosition q
   ∨ CommitPosition p = CommitPosition q ∧ PreparePosition p < PreparePosition q)%Z.
Definition pos_le (p q : Position) : Prop := pos_lt p q ∨ p = q.

#[export] Instance pos_lt_dec : RelDecision pos_lt.
Proof. intros p q. unfold pos_lt. apply _. Defined.
#[export] Instance pos_le_dec : RelDecision pos_le.
Proof. intros p q. unfold pos_le. apply _. Defined.

(** ** Queries *)

Record Tag := mkTag { Tag_Key : string; Tag_Value : string; Tag_Operator : string }.
Record Criterion := mkCriterion { Criterion_Tags : list (option Tag) }.
Record Query := mkQuery { Query_Criteria : list (option Criterion) }.

#[export] Instance Tag_eq_dec : EqDecision Tag.
Proof. solve_decision. Defined.

(** [orisun.ReadTag], [orisun.ReadCriterion], [orisun.ConsistencyCheck]. *)
Record ReadTag := mkReadTag { Key : string; Value : string; Operator : string }.
Record ReadCriterion := mkReadCriterion { Tags : list ReadTag }.
Record ConsistencyCheck :=
  mkConsistencyCheck { Criteria : list ReadCriterion; CheckPosition : Position }.

#[export] Instance ReadTag_eq_dec : EqDecision ReadTag.
Proof. solve_decision. Defined.
#[export] Instance ReadCriterion_eq_dec : EqDecision ReadCriterion.
Proof. solve_decision. Defined.
#[export] Instance ConsistencyCheck_eq_dec : EqDecision ConsistencyCheck.
Proof. solve_decision. Defined.

(** [orisun.ConsistencyObservation]. *)
Record ConsistencyObservation :=
  mkObservation { Obs_Query : option Query; Obs_Position : option Position }.

(** ** Events *)

Record EventToSave := mkEventToSave {
  ETS_EventId : string; ETS_EventType : string;
  ETS_Data : string; ETS_Metadata : string }.

Record PreparedEvent := mkPreparedEvent {
  PE_EventId : string; PE_EventType : string;
  PE_DataJSON : string; PE_MetadataJSON : string }.

Record Event := mkEvent {
  Event_WriteId : string; Event_EventId : string; Event_EventType : string;
  Event_Data : string; Event_Metadata : string;
  Event_Position : option Position; Event_DateCreated : Z }.

Record ReadEvent := mkReadEvent {
  RE_WriteId : string; RE_EventId : string; RE_EventType : string;
  RE_Data : string; RE_Metadata : string;
  RE_CommitPosition : Z; RE_PreparePosition : Z; RE_DateCreated : Z }.

#[export] Instance ReadEvent_eq_dec : EqDecision ReadEvent.
Proof. solve_decision. Defined.
#[export] Instance Event_eq_dec : EqDecision Event.
Proof. solve_decision. Defined.

Definition RE_Position (e : ReadEvent) : Position :=
  mkPosition (RE_CommitPosition e) (RE_PreparePosition e).

(** [fillEvent], and [ReadEvent.Event] on a non-nil receiver. *)
Definition fillEvent (read : ReadEvent) : Event :=
  {| Event_WriteId := RE_WriteId read;
     Event_EventId := RE_EventId read;
     Event_EventType := RE_EventType read;
     Event_Data := RE_Data read;
     Event_Metadata := RE_Metadata read;
     Event_Position :=
       Some (mkPosition (RE_CommitPosition read) (RE_PreparePosition read));
     Event_DateCreated := RE_DateCreated read |}.

(** [ReadEventBatch.Response]: the events of the response, in row order. *)
Definition Response (batch : list ReadEvent) : list Event := fillEvent <$> batch.

Definition DefaultReadBatchSize : Z := 1000.
Definition MaxReadBatchSize : Z := 10000.

Inductive Direction := Direction_ASC | Direction_DESC.
#[export] Instance Direction_eq_dec : EqDecision Direction.
Proof. solve_decision. Defined.

Record GetEventsRequest := mkGetEventsRequest {
  GE_Query : option Query; GE_FromPosition : option Position;
  GE_Count : Z; GE_Direction : Direction; GE_Boundary : string }.

Record LatestByCriteriaQuery := mkLatestByCriteriaQuery {
  LQ_Boundary : string; LQ_Criteria : list ReadCriterion }.

(** [Found = false] is [None]; the event is meaningful only when found. *)
Record LatestByCriteriaBatch := mkLatestByCriteriaBatch {
  LB_Matches : list (option ReadEvent);
  LB_ContextCommitPosition : Z;
  LB_ContextPreparePosition : Z }.

Definition LB_ContextPosition (b : LatestByCriteriaBatch) : Position :=
  mkPosition (LB_ContextCommitPosition b) (LB_ContextPreparePosition b).

Record WriteResult := mkWriteResult { WR_WriteId : string; WR_LogPosition : Position }.

(** ** Boundaries: [boundary/types.go] *)

Inductive BoundaryStatus := StatusProvisioning | StatusActive | StatusFailed.
#[export] Instance BoundaryStatus_eq_dec : EqDecision BoundaryStatus.
Proof. solve_decision. Defined.

Record Placement := mkPlacement { Backend : string; Namespace : string }.
#[export] Instance Placement_eq_dec : EqDecision Placement.
Proof. solve_decision. Defined.

Record Definition_ := mkDefinition {
  Def_Name : string; Def_Description : string; Def_Placement : Placement }.

Record Boundary := mkBoundary {
  B_Name : string; B_Description : string; B_Placement : Placement;
  B_Status : BoundaryStatus; B_LastError : string;
  B_DefinitionPosition : option Position; B_StatusPosition : option Position }.
#[export] Instance Boundary_eq_dec : EqDecision Boundary.
Proof. solve_decision. Defined.

Definition letter (c : ascii) : bool :=
  let n := N_of_ascii c in
  ((97 <=? n)%N && (n <=? 122)%N) || ((65 <=? n)%N && (n <=? 90)%N).

Definition digit (c : ascii) : bool :=
  let n := N_of_ascii c in (48 <=? n)%N && (n <=? 57)%N.

(** The loop of [ValidateName] over [name[1:]]. *)
Fixpoint name_rest (s : string) : bool :=
  match s with
  | EmptyString => true
  | String c s =>
      (letter c || digit c || Ascii.eqb c "_"%char) && name_rest s
  end.

Definition ValidateName (name : string) : result unit :=
  match name with
  | EmptyString => Err (PlainError "boundary name must be 1-63 characters, got %d")
  | String c rest =>
      if (63 <? go_len name)%Z
      then Err (PlainError "boundary name must be 1-63 characters, got %d")
      else if negb (letter c) && negb (Ascii.eqb c "_"%char)
      then Err (PlainError "boundary name must start with a letter or underscore, got %q")
      else if name_rest rest then Ok tt
      else Err (PlainError "boundary name can only contain letters, digits, and underscores, invalid character %q at position %d")
  end.

(** ** The order of positions *)

#[export] Instance pos_lt_strict : StrictOrder pos_lt.
Proof.
  split.
  - intros p. unfold complement, pos_lt. lia.
  - intros p q r. unfold pos_lt. lia.
Qed.

#[export] Instance pos_lt_trichotomy : Trichotomy pos_lt.
Proof.
  intros [c1 p1] [c2 p2]. unfold pos_lt; simpl.
  destruct (Z.lt_total c1 c2) as [?|[->|?]]; [by auto| |by auto].
  destruct (Z.lt_total p1 p2) as [?|[->|?]]; auto.
Qed.

#[export] Instance pos_le_po : PartialOrder pos_le.
Proof.
  split; [split|].
  - intros p. by right.
  - intros p q r [?| ->] [?| ->]; unfold pos_le; auto. left. by transitivity q.
  - intros p q [H1| ->] [H2|H2]; auto.
    destruct (irreflexivity pos_lt p). by transitivity q.
Qed.

#[export] Instance pos_le_total : Total pos_le.
Proof.
  intros p q. unfold pos_le. destruct (trichotomy pos_lt p q) as [?|[?|?]]; auto.
Qed.

Lemma pos_lt_irrefl p : ¬ pos_lt p p.
Proof. unfold pos_lt. lia. Qed.

Lemma pos_not_lt p q : ¬ pos_lt p q ↔ pos_le q p.
Proof.
  unfold pos_le. split.
  - intros Hn. destruct (trichotomy pos_lt p q) as [?|[->|?]]; naive_solver.
  - intros [H| ->]; [|apply pos_lt_irrefl].
    intros H2. apply (pos_lt_irrefl p). by transitivity q.
Qed.

Lemma positionValuesAfter_spec c p c' p' :
  positionValuesAfter c p c' p' = true ↔ pos_lt (mkPosition c' p') (mkPosition c p).
Proof.
  unfold positionValuesAfter, pos_lt; simpl.
  rewrite orb_true_iff, andb_true_iff, !Z.ltb_lt, Z.eqb_eq. lia.
Qed.

Lemma Position_After_spec p q : Position_After p q = true ↔ pos_lt q p.
Proof.
  unfold Position_After, Position_Compare, pos_lt.
  rewrite Z.ltb_lt. destruct p as [c p], q as [c' p']; simpl.
  destruct (Z.ltb_spec c c'), (Z.eqb_spec c c'), (Z.ltb_spec p p');
    simpl; try (case_decide; simplify_eq); try lia.
  assert (p ≠ p') by (intros ->; naive_solver). lia.
Qed.

Lemma ComparePositions_spec p q :
  (ComparePositions p q = -1 ↔ pos_lt p q)%Z
  ∧ (ComparePositions p q = 0 ↔ p = q)%Z
  ∧ (ComparePositions p q = 1 ↔ pos_lt q p)%Z.
Proof.
  unfold ComparePositions, pos_lt. destruct p as [c p], q as [c' p']; simpl.
  destruct (Z.eqb_spec c c'), (Z.eqb_spec p p'), (Z.ltb_spec c c'),
    (Z.ltb_spec p p'); simpl; split_and!; split; intros; simplify_eq;
    first [lia | f_equal; lia].
Qed.

(** A valid boundary name contains only letters, digits and underscores. *)
Lemma ValidateName_chars name :
  ValidateName name = Ok tt →
  string_forallb (λ c, letter c || digit c || Ascii.eqb c "_"%char) name = true
  ∧ (1 <= go_len name <= 63)%Z.
Proof.
  unfold ValidateName. destruct name as [|c rest]; [done|].
  destruct (Z.ltb_spec 63 (go_len (String c rest))); [done|].
  destruct (negb _ && negb _) eqn:E; [done|].
  destruct (name_rest rest) eqn:Hr; [|done]. intros _.
  assert (∀ s, name_rest s =
    string_forallb (λ c, letter c || digit c || Ascii.eqb c "_"%char) s) as Hs
    by (induction s as [|d s IH]; simpl; congruence).
  rewrite Hs in Hr. simpl. rewrite Hr, andb_true_r. split; [|unfold go_len in *; simpl in *; lia].
  destruct (letter c), (Ascii.eqb c "_"%char), (digit c); naive_solver.
Qed.
