(* ===== verification/Number.v ===== *)
(** * Exact comparison of JSON numbers: [internal/eventdata/number.go]

[CompareJSONNumbers] orders two decimal tokens without converting them to a
float and without building a buffer as long as an exponent. The reference is
the rational number a JSON number denotes. *)

From Stdlib Require Import QArith Qpower.
From stdpp Require Import options.
From S2P Require Import Prelude Status Model.

Local Open Scope Z_scope.

(** ** The code *)

Definition nonzero_digit (c : ascii) : bool := is_digit c && negb (Ascii.eqb c "0").

Fixpoint skip_digits (s : string) : string :=
  match s with
  | String c s' => if is_digit c then skip_digits s' else s
  | EmptyString => s
  end.

(** The rest after at least one digit. *)
Definition digits1 (s : string) : option string :=
  match s with
  | String c s' => if is_digit c then Some (skip_digits s') else None
  | EmptyString => None
  end.

(** The integer part: a zero, or a non-zero digit and more digits. *)
Definition match_int (s : string) : option string :=
  match s with
  | String c s' =>
      if Ascii.eqb c "0" then Some s'
      else if nonzero_digit c then Some (skip_digits s') else None
  | EmptyString => None
  end.

(** The optional fraction: a point and at least one digit. *)
Definition match_frac (s : string) : string :=
  match s with
  | String c s' => if Ascii.eqb c "." then default s (digits1 s') else s
  | EmptyString => s
  end.

Definition is_sign (c : ascii) : bool := Ascii.eqb c "+" || Ascii.eqb c "-".
Definition is_e (c : ascii) : bool := Ascii.eqb c "e" || Ascii.eqb c "E".

Definition skip_sign (s : string) : string :=
  match s with
  | String c s' => if is_sign c then s' else s
  | EmptyString => s
  end.

(** The optional exponent. *)
Definition match_exp (s : string) : string :=
  match s with
  | String c s' => if is_e c then default s (digits1 (skip_sign s')) else s
  | EmptyString => s
  end.

(** [s[0] == '-'] on a non-empty string, and [s[1:]] when it is. *)
Definition starts_minus (s : string) : bool :=
  match s with String c _ => Ascii.eqb c "-" | EmptyString => false end.

Definition strip_minus (s : string) : string :=
  match s with
  | String c s' => if Ascii.eqb c "-" then s' else s
  | EmptyString => s
  end.

(** [jsonNumberPattern.MatchString]. The pattern is deterministic on its first
byte, so a greedy pass without backtracking decides it. *)
Definition jsonNumberPattern (s : string) : bool :=
  match match_int (strip_minus s) with
  | Some rest => bool_decide (match_exp (match_frac rest) = "")
  | None => false
  end.

(** The parts before and after the first byte satisfying [f]. *)
Fixpoint cut_at (f : ascii → bool) (s : string) : option (string * string) :=
  match s with
  | EmptyString => None
  | String c s' =>
      if f c then Some (EmptyString, s')
      else match cut_at f s' with
           | Some (a, b) => Some (String c a, b)
           | None => None
           end
  end.

(** [big.Int.SetString(s, 10)] on what the pattern accepts: an optional sign and
digits. *)
Definition big_SetString (s : string) : Z :=
  let abs := Z.of_N (default 0%N (parse_digits 0 (skip_sign s))) in
  if starts_minus s then - abs else abs.

(** [strings.TrimLeft(s, "0")]. *)
Fixpoint trim_zeros (s : string) : string :=
  match s with
  | String c s' => if Ascii.eqb c "0" then trim_zeros s' else s
  | EmptyString => s
  end.

(** [(digits, magnitude, negative)]; [None] is [ok = false]. *)
Definition decimalParts (s : string) : option (string * Z * bool) :=
  if jsonNumberPattern s then
    let negative := starts_minus s in
    let s := strip_minus s in
    let '(s, magnitude) :=
      match cut_at is_e s with
      | Some (m, e) => (m, big_SetString e)
      | None => (s, 0)
      end in
    let '(s, fractional) :=
      match cut_at (λ c, Ascii.eqb c ".") s with
      | Some (a, b) => (a +:+ b, go_len b)
      | None => (s, 0)
      end in
    let digits := trim_zeros s in
    if String.eqb digits "" then Some ("", magnitude, false)
    else Some (digits, magnitude + (go_len digits - fractional), negative)
  else None.

(** One iteration of the digit loop. *)
Definition cmp_byte (a b : ascii) : Z :=
  if (N_of_ascii a <? N_of_ascii b)%N then -1
  else if (N_of_ascii b <? N_of_ascii a)%N then 1 else 0.

(** [for i := 0; i < len(ad) || i < len(bd); i++]: the shorter operand reads
as ['0'] past its end. *)
Fixpoint cmp_right (b : string) : Z :=
  match b with
  | EmptyString => 0
  | String y b => match cmp_byte "0" y with 0 => cmp_right b | c => c end
  end.

Fixpoint cmp_digits (a b : string) : Z :=
  match a with
  | EmptyString => cmp_right b
  | String x a =>
      match b with
      | EmptyString => match cmp_byte x "0" with 0 => cmp_digits a "" | c => c end
      | String y b => match cmp_byte x y with 0 => cmp_digits a b | c => c end
      end
  end.

(** [big.Int.Cmp]. *)
Definition Z_Cmp (a b : Z) : Z :=
  match Z.compare a b with Lt => -1 | Eq => 0 | Gt => 1 end.

Definition CompareJSONNumbers (a b : string) : option Z :=
  match decimalParts a with
  | None => None
  | Some (ad, ae, an) =>
      match decimalParts b with
      | None => None
      | Some (bd, be, bn) =>
          if negb (Bool.eqb an bn) then Some (if an then -1 else 1)
          else
            let cmp :=
              if String.eqb ad "" && String.eqb bd "" then 0
              else if String.eqb ad "" then -1
              else if String.eqb bd "" then 1
              else match Z_Cmp ae be with 0 => cmp_digits ad bd | c => c end in
            Some (if an then - cmp else cmp)
      end
  end.

(** ** The reference: JSON numbers and the rationals they denote *)

Record exponent := mkExponent { ex_mark : ascii; ex_sign : string; ex_digits : string }.

Record number := mkNumber {
  num_neg : bool;
  num_int : string;
  num_frac : option string;
  num_exp : option exponent }.

Definition all_digits (s : string) : bool := string_forallb is_digit s.

Definition wf_exponent (e : exponent) : bool :=
  is_e (ex_mark e)
  && bool_decide (ex_sign e ∈ [""; "+"; "-"])
  && all_digits (ex_digits e) && negb (String.eqb (ex_digits e) "").

(** The grammar of RFC 8259. *)
Definition wf_number (n : number) : bool :=
  all_digits (num_int n)
  && (String.eqb (num_int n) "0"
      || match num_int n with String c _ => nonzero_digit c | _ => false end)
  && match num_frac n with
     | Some f => all_digits f && negb (String.eqb f "")
     | None => true
     end
  && match num_exp n with Some e => wf_exponent e | None => true end.

Definition print_frac (f : option string) : string :=
  match f with Some f => String "." f | None => "" end.

Definition print_exp (e : option exponent) : string :=
  match e with
  | Some e => String (ex_mark e) (ex_sign e +:+ ex_digits e)
  | None => ""
  end.

Definition print_number (n : number) : string :=
  (if num_neg n then "-" else "")
  +:+ num_int n +:+ print_frac (num_frac n) +:+ print_exp (num_exp n).

(** The digits of [s] read onto [acc]. *)
Fixpoint dval (acc : Z) (s : string) : Z :=
  match s with
  | EmptyString => acc
  | String c s => dval (10 * acc + Z.of_N (digit_val c)) s
  end.

Definition exp_value (e : option exponent) : Z :=
  match e with
  | None => 0
  | Some e => if String.eqb (ex_sign e) "-" then - dval 0 (ex_digits e)
              else dval 0 (ex_digits e)
  end.

Definition frac_digits (n : number) : string := default "" (num_frac n).

(** [number_value n] = ± digits × 10 ^ (exponent − fractional digits). *)
Definition number_value (n : number) : Q :=
  inject_Z ((if num_neg n then -1 else 1) * dval 0 (num_int n +:+ frac_digits n))
  * inject_Z 10 ^ (exp_value (num_exp n) - go_len (frac_digits n)).

Definition Q_sign (c : comparison) : Z :=
  match c with Lt => -1 | Eq => 0 | Gt => 1 end.

(** ** Scanning *)

Lemma digit_cases c :
  is_digit c = true →
  Ascii.eqb c "-" = false ∧ Ascii.eqb c "." = false ∧ is_e c = false
  ∧ is_sign c = false.
Proof. destruct c as [[] [] [] [] [] [] [] []]; by vm_compute. Qed.

(** The first byte of [s], if any, is not a digit. *)
Definition no_digit_head (s : string) : Prop :=
  match s with String c _ => is_digit c = false | EmptyString => True end.

Lemma skip_digits_app a s :
  all_digits a = true → no_digit_head s → skip_digits (a +:+ s) = s.
Proof.
  induction a as [|c a IH]; intros Ha Hs; string_simpl.
  - destruct s as [|d s]; [done|]. simpl in *. by rewrite Hs.
  - bool_props. unfold all_digits in *. simpl in *. bool_props. rewrite H. auto.
Qed.

Lemma digits1_app a s :
  all_digits a = true → a ≠ "" → no_digit_head s → digits1 (a +:+ s) = Some s.
Proof.
  destruct a as [|c a]; [done|]. unfold all_digits. string_simpl. intros Ha _ Hs.
  bool_props. rewrite H. f_equal. by apply skip_digits_app.
Qed.

Lemma skip_digits_inv s : ∃ a, s = a +:+ skip_digits s ∧ all_digits a = true.
Proof.
  induction s as [|c s IH]; [by exists ""|]. simpl. destruct (is_digit c) eqn:E.
  - destruct IH as (a & Hs & Ha). exists (String c a). string_simpl.
    unfold all_digits in *. simpl. rewrite E, Ha. split; [by f_equal|done].
  - by exists "".
Qed.

Lemma digits1_inv s r :
  digits1 s = Some r → ∃ a, s = a +:+ r ∧ all_digits a = true ∧ a ≠ "".
Proof.
  destruct s as [|c s]; [done|]. simpl. destruct (is_digit c) eqn:E; [|done].
  intros [= <-]. destruct (skip_digits_inv s) as (a & Hs & Ha).
  exists (String c a). string_simpl. unfold all_digits in *. simpl.
  rewrite E, Ha. split_and!; [by f_equal|done..].
Qed.

Lemma cut_at_app f a c b :
  string_forallb (λ d, negb (f d)) a = true → f c = true →
  cut_at f (a +:+ String c b) = Some (a, b).
Proof.
  induction a as [|d a IH]; intros Ha Hc; string_simpl; [by rewrite Hc|].
  bool_props. rewrite H, IH by done. done.
Qed.

Lemma cut_at_none f a :
  string_forallb (λ d, negb (f d)) a = true → cut_at f a = None.
Proof.
  induction a as [|d a IH]; [done|]. simpl. intros Ha. bool_props.
  rewrite H. by rewrite IH.
Qed.

Lemma string_forallb_impl (f g : ascii → bool) s :
  (∀ c, f c = true → g c = true) →
  string_forallb f s = true → string_forallb g s = true.
Proof.
  intros Hfg. induction s as [|c s IH]; [done|]. simpl. intros H. bool_props.
  rewrite Hfg by done. auto.
Qed.

Lemma digits_not_e s :
  all_digits s = true → string_forallb (λ d, negb (is_e d)) s = true.
Proof.
  apply string_forallb_impl. intros c Hc. by destruct (digit_cases c Hc) as (_&_&->&_).
Qed.

Lemma digits_not_dot s :
  all_digits s = true → string_forallb (λ d, negb (Ascii.eqb d ".")) s = true.
Proof.
  apply string_forallb_impl. intros c Hc. by destruct (digit_cases c Hc) as (_&->&_).
Qed.

(** ** Printing and recognising *)

Lemma e_not_digit c : is_e c = true → is_digit c = false ∧ Ascii.eqb c "." = false.
Proof. destruct c as [[] [] [] [] [] [] [] []]; by vm_compute. Qed.

Record wf_num (n : number) : Prop := {
  wf_int : all_digits (num_int n) = true;
  wf_lead : num_int n = "0"
            ∨ ∃ c s, num_int n = String c s ∧ nonzero_digit c = true;
  wf_frac : ∀ f, num_frac n = Some f → all_digits f = true ∧ f ≠ "";
  wf_exp : ∀ e, num_exp n = Some e →
    is_e (ex_mark e) = true ∧ ex_sign e ∈ [""; "+"; "-"]
    ∧ all_digits (ex_digits e) = true ∧ ex_digits e ≠ "" }.

Lemma wf_number_spec n : wf_number n = true ↔ wf_num n.
Proof.
  destruct n as [neg i f e]. unfold wf_number, wf_exponent. simpl. split.
  - intros H. bool_props.
    split; simpl; [done| | |].
    + destruct (String.eqb_spec i "0"); [by left|]. right.
      destruct i as [|c s]; [naive_solver|]. simpl in *. naive_solver.
    + intros f' ->. bool_props. done.
    + intros e' ->. bool_props. done.
  - intros [H1 H2 H3 H4]; simpl in *. rewrite H1. simpl.
    assert ((String.eqb i "0" ||
      match i with | EmptyString => false | String c _ => nonzero_digit c end)
      = true) as ->
      by (destruct H2 as [->|(c & s & -> & ->)]; [done|apply orb_true_r]).
    assert ((match f with Some f => all_digits f && negb (String.eqb f "")
      | None => true end) = true) as ->.
    { destruct f as [f|]; [|done]. destruct (H3 f) as [-> Hf]; [done|].
      by apply String.eqb_neq in Hf as ->. }
    destruct e as [e|]; [|done]. destruct (H4 e) as (-> & Hs & -> & Hd); [done|].
    apply String.eqb_neq in Hd as ->. by rewrite bool_decide_true.
Qed.

Lemma head_exp n : wf_num n → no_digit_head (print_exp (num_exp n)).
Proof.
  intros Hwf. destruct (num_exp n) as [e|] eqn:E; [|done].
  destruct (wf_exp n Hwf e E) as (He & _). by apply e_not_digit in He as [? _].
Qed.

Lemma head_frac n :
  wf_num n → no_digit_head (print_frac (num_frac n) +:+ print_exp (num_exp n)).
Proof. intros Hwf. destruct (num_frac n) as [f|]; [done|]. by apply head_exp. Qed.

Lemma skip_sign_print sg d :
  sg ∈ [""; "+"; "-"] → all_digits d = true → d ≠ "" → skip_sign (sg +:+ d) = d.
Proof.
  intros Hsg Hd Hne.
  assert (skip_sign d = d) as Hskip.
  { destruct d as [|c d]; [done|]. unfold all_digits in Hd. simpl in *. bool_props.
    by destruct (digit_cases c) as (_&_&_&->). }
  rewrite !elem_of_cons in Hsg. destruct Hsg as [->|[->|[->|Hnil]]]; [done..|].
  by apply elem_of_nil in Hnil.
Qed.

Lemma match_exp_print n : wf_num n → match_exp (print_exp (num_exp n)) = "".
Proof.
  intros Hwf. destruct (num_exp n) as [e|] eqn:E; [|done].
  destruct (wf_exp n Hwf e E) as (He & Hs & Hd & Hne). simpl. rewrite He.
  rewrite skip_sign_print by done. rewrite <-(string_app_nil_r (ex_digits e)).
  by rewrite digits1_app.
Qed.

Lemma match_frac_print n :
  wf_num n →
  match_frac (print_frac (num_frac n) +:+ print_exp (num_exp n))
  = print_exp (num_exp n).
Proof.
  intros Hwf. destruct (num_frac n) as [f|] eqn:F; string_simpl.
  - destruct (wf_frac n Hwf f F) as [Hd Hne].
    by rewrite digits1_app by (by try apply head_exp).
  - destruct (num_exp n) as [e|] eqn:E; [|done]. simpl.
    destruct (wf_exp n Hwf e E) as (He & _).
    by apply e_not_digit in He as [_ ->].
Qed.

Lemma match_int_print n :
  wf_num n →
  match_int (num_int n +:+ print_frac (num_frac n) +:+ print_exp (num_exp n))
  = Some (print_frac (num_frac n) +:+ print_exp (num_exp n)).
Proof.
  intros Hwf. pose proof (wf_int n Hwf) as Hd.
  destruct (wf_lead n Hwf) as [Hz|(c & s & Hs & Hc)]; [by rewrite Hz|].
  rewrite Hs in *. unfold all_digits in Hd. string_simpl. bool_props.
  rewrite Hc. unfold nonzero_digit in Hc. bool_props.
  match goal with H : Ascii.eqb c "0" = false |- _ => rewrite H end.
  f_equal. apply skip_digits_app; [done|]. by apply head_frac.
Qed.

Lemma strip_minus_print n :
  wf_num n →
  strip_minus (print_number n)
  = num_int n +:+ print_frac (num_frac n) +:+ print_exp (num_exp n)
  ∧ starts_minus (print_number n) = num_neg n.
Proof.
  intros Hwf. unfold print_number. destruct (num_neg n); [done|].
  string_simpl. pose proof (wf_int n Hwf) as Hd.
  assert (∃ c s, num_int n = String c s ∧ is_digit c = true) as (c & s & Hs & Hc).
  { destruct (wf_lead n Hwf) as [->|(c & s & Hs & Hc)]; [by exists "0"%char, ""|].
    unfold nonzero_digit in Hc. bool_props. eauto. }
  rewrite Hs. string_simpl. by destruct (digit_cases c Hc) as (-> & _).
Qed.

Lemma pattern_print n : wf_num n → jsonNumberPattern (print_number n) = true.
Proof.
  intros Hwf. unfold jsonNumberPattern.
  destruct (strip_minus_print n Hwf) as [-> _].
  rewrite match_int_print, match_frac_print, match_exp_print by done. done.
Qed.

(** ** Every accepted token is the print of a number *)

Lemma match_exp_inv s :
  match_exp s = "" →
  ∃ e, s = print_exp e ∧ (∀ x, e = Some x → wf_exponent x = true).
Proof.
  destruct s as [|c s]; [by exists None|]. simpl.
  destruct (is_e c) eqn:Hc; [|done]. intros H.
  destruct (digits1 (skip_sign s)) as [r|] eqn:E; simplify_eq/=.
  apply digits1_inv in E as (d & Hs & Hd & Hne). rewrite string_app_nil_r in Hs.
  apply String.eqb_neq in Hne.
  assert (∃ sg, sg ∈ [""; "+"; "-"] ∧ s = sg +:+ d) as (sg & Hsg & ->).
  { destruct s as [|c' s]; simpl in Hs;
      [by exists ""; split; [set_solver|]|].
    destruct (is_sign c') eqn:Hsgn; [|by exists ""; split; [set_solver|]].
    unfold is_sign in Hsgn. bool_props. subst.
    destruct Hsgn as [->%Ascii.eqb_eq| ->%Ascii.eqb_eq].
    - exists "+". split; [set_solver|done].
    - exists "-". split; [set_solver|done]. }
  exists (Some (mkExponent c sg d)). split; [done|]. intros x [= <-].
  unfold wf_exponent. simpl. rewrite Hc, Hd, Hne. by rewrite bool_decide_true.
Qed.

Lemma match_frac_inv s :
  ∃ f, s = print_frac f +:+ match_frac s
       ∧ (∀ x, f = Some x → all_digits x = true ∧ x ≠ "").
Proof.
  destruct s as [|c s]; [by exists None|]. simpl.
  destruct (Ascii.eqb c ".") eqn:Hc; [|by exists None].
  apply Ascii.eqb_eq in Hc as ->.
  destruct (digits1 s) as [r|] eqn:E; [|by exists None]. simpl.
  apply digits1_inv in E as (d & -> & Hd & Hne).
  exists (Some d). split; [done|]. by intros x [= <-].
Qed.

Lemma match_int_inv s r :
  match_int s = Some r →
  ∃ i, s = i +:+ r ∧ all_digits i = true
       ∧ (i = "0" ∨ ∃ c t, i = String c t ∧ nonzero_digit c = true).
Proof.
  destruct s as [|c s]; [done|]. simpl. destruct (Ascii.eqb c "0") eqn:Hc.
  - apply Ascii.eqb_eq in Hc as ->. intros [= ->]. exists "0". naive_solver.
  - destruct (nonzero_digit c) eqn:Hn; [|done]. intros [= <-].
    destruct (skip_digits_inv s) as (a & Hs & Ha). exists (String c a).
    string_simpl. split_and!; [by f_equal| |eauto 10].
    unfold all_digits in *. simpl. unfold nonzero_digit in Hn. bool_props.
    by rewrite H, Ha.
Qed.

Lemma pattern_inv s :
  jsonNumberPattern s = true → ∃ n, wf_num n ∧ print_number n = s.
Proof.
  unfold jsonNumberPattern. intros H.
  destruct (match_int (strip_minus s)) as [r|] eqn:Hi; [|done]. bool_props.
  apply match_int_inv in Hi as (i & Hs & Hd & Hlead).
  destruct (match_frac_inv r) as (f & Hr & Hf).
  apply match_exp_inv in H as (e & He & Hwe).
  exists (mkNumber (starts_minus s) i f e). split.
  - apply wf_number_spec. apply wf_number_spec.
    split; simpl; [done..|]. intros x Hx. specialize (Hwe x Hx).
    unfold wf_exponent in Hwe. bool_props. done.
  - unfold print_number. simpl. rewrite <-He, <-Hr, <-Hs.
    destruct s as [|c s]; [done|]. simpl.
    destruct (Ascii.eqb c "-") eqn:Hc; [|done]. by apply Ascii.eqb_eq in Hc as ->.
Qed.

(** ** What [decimalParts] computes on the print of a number *)

Lemma parse_digits_dval (acc : N) s :
  all_digits s = true → parse_digits acc s = Some (Z.to_N (dval (Z.of_N acc) s)).
Proof.
  revert acc. induction s as [|c s IH]; intros acc Hs; [simpl; f_equal; lia|].
  unfold all_digits in *. simpl in *. bool_props. rewrite H.
  rewrite IH by done. do 3 f_equal. lia.
Qed.

Lemma dval_nonneg acc s : 0 <= acc → 0 <= dval acc s.
Proof. revert acc. induction s; simpl; intros; [done|]. apply IHs. lia. Qed.

Lemma big_SetString_print sg d :
  sg ∈ [""; "+"; "-"] → all_digits d = true → d ≠ "" →
  big_SetString (sg +:+ d) = if String.eqb sg "-" then - dval 0 d else dval 0 d.
Proof.
  intros Hsg Hd Hne. unfold big_SetString.
  rewrite skip_sign_print, (parse_digits_dval 0) by done. simpl.
  rewrite Z2N.id by (by apply dval_nonneg).
  assert (starts_minus d = false) as Hm.
  { destruct d as [|c d]; [done|]. unfold all_digits in Hd. simpl in *. bool_props.
    by destruct (digit_cases c) as (-> & _). }
  rewrite !elem_of_cons in Hsg. destruct Hsg as [->|[->|[->|Hnil]]].
  - string_simpl. by rewrite Hm.
  - done.
  - done.
  - by apply elem_of_nil in Hnil.
Qed.

Lemma cut_exp_print n :
  wf_num n →
  cut_at is_e (num_int n +:+ print_frac (num_frac n) +:+ print_exp (num_exp n)) =
  match num_exp n with
  | Some e => Some (num_int n +:+ print_frac (num_frac n),
                    ex_sign e +:+ ex_digits e)
  | None => None
  end.
Proof.
  intros Hwf.
  assert (string_forallb (λ d, negb (is_e d))
    (num_int n +:+ print_frac (num_frac n)) = true) as Hne.
  { rewrite string_forallb_app, digits_not_e by apply Hwf. simpl.
    destruct (num_frac n) as [f|] eqn:F; [|done]. simpl.
    apply digits_not_e. by apply (wf_frac n Hwf). }
  destruct (num_exp n) as [e|] eqn:E; simpl.
  - rewrite <-string_app_assoc. apply cut_at_app; [done|]. by apply (wf_exp n Hwf).
  - rewrite string_app_nil_r. by apply cut_at_none.
Qed.

Lemma cut_dot_print n :
  wf_num n →
  cut_at (λ c, Ascii.eqb c ".") (num_int n +:+ print_frac (num_frac n)) =
  match num_frac n with Some f => Some (num_int n, f) | None => None end.
Proof.
  intros Hwf. destruct (num_frac n) as [f|] eqn:F; simpl.
  - apply cut_at_app; [|done]. apply digits_not_dot, Hwf.
  - rewrite string_app_nil_r. apply cut_at_none, digits_not_dot, Hwf.
Qed.

Lemma decimalParts_print n :
  wf_num n →
  decimalParts (print_number n) =
    let D := trim_zeros (num_int n +:+ frac_digits n) in
    Some (if String.eqb D "" then ("", exp_value (num_exp n), false)
          else (D, exp_value (num_exp n)
                   + (go_len D - go_len (frac_digits n)), num_neg n)).
Proof.
  intros Hwf. unfold decimalParts. rewrite pattern_print by done.
  destruct (strip_minus_print n Hwf) as [-> ->]. rewrite cut_exp_print by done.
  assert (match num_exp n with
    | Some e => big_SetString (ex_sign e +:+ ex_digits e) | None => 0 end
    = exp_value (num_exp n)) as Hexp.
  { destruct (num_exp n) as [e|] eqn:E; [|done]. simpl.
    destruct (wf_exp n Hwf e E) as (_ & Hs & Hd & Hne).
    by rewrite big_SetString_print. }
  unfold frac_digits.
  destruct (num_exp n) as [e|] eqn:E; simpl in *;
    [|replace (print_frac (num_frac n) +:+ "") with (print_frac (num_frac n))
        by (by rewrite string_app_nil_r)];
    rewrite cut_dot_print by done; destruct (num_frac n); simpl;
    rewrite ?string_app_nil_r, ?Hexp; by destruct (String.eqb _ "").
Qed.

(** ** Digit strings as integers *)

Lemma go_len_nonneg s : 0 <= go_len s.
Proof. unfold go_len. lia. Qed.

Lemma go_len_cons c s : go_len (String c s) = go_len s + 1.
Proof. unfold go_len. simpl. lia. Qed.

Lemma dval_acc acc s : dval acc s = acc * 10 ^ go_len s + dval 0 s.
Proof.
  revert acc. induction s as [|c s IH]; intros acc; [simpl; unfold go_len; simpl; lia|].
  simpl dval. rewrite IH, (IH (10 * 0 + _)), go_len_cons.
  rewrite Z.pow_add_r by (pose proof (go_len_nonneg s); lia). lia.
Qed.

Lemma dval_cons c s :
  dval 0 (String c s) = Z.of_N (digit_val c) * 10 ^ go_len s + dval 0 s.
Proof. simpl. rewrite dval_acc. lia. Qed.

Lemma digit_val_bound c : is_digit c = true → 0 <= Z.of_N (digit_val c) <= 9.
Proof. unfold is_digit, digit_val. intros H. bool_props. lia. Qed.

Lemma dval_bound s : all_digits s = true → 0 <= dval 0 s < 10 ^ go_len s.
Proof.
  induction s as [|c s IH]; intros Hs; [done|]. rewrite dval_cons, go_len_cons.
  unfold all_digits in *. simpl in Hs. bool_props.
  apply digit_val_bound in H. specialize (IH H0).
  rewrite Z.pow_add_r by (pose proof (go_len_nonneg s); lia). nia.
Qed.

Lemma trim_zeros_spec s :
  all_digits s = true →
  all_digits (trim_zeros s) = true ∧ dval 0 (trim_zeros s) = dval 0 s
  ∧ (trim_zeros s = "" ∨ ∃ c t, trim_zeros s = String c t ∧ nonzero_digit c = true).
Proof.
  induction s as [|c s IH]; intros Hs; [naive_solver|]. simpl trim_zeros.
  destruct (Ascii.eqb c "0") eqn:Hc.
  - apply Ascii.eqb_eq in Hc as ->. destruct IH as (? & -> & ?); [|done].
    unfold all_digits in Hs. simpl in Hs. by bool_props.
  - split_and!; [done..|]. right. exists c, s. split; [done|].
    unfold nonzero_digit. rewrite Hc. unfold all_digits in Hs. simpl in Hs.
    bool_props. by rewrite H.
Qed.

Lemma nonzero_digit_pos c : nonzero_digit c = true → (1 <= digit_val c)%N.
Proof.
  unfold nonzero_digit. intros H. bool_props. apply Ascii.eqb_neq in H0.
  unfold is_digit, digit_val in *. bool_props.
  assert (N_of_ascii c ≠ 48%N); [|lia]. intros Hc. apply H0.
  rewrite <-(ascii_N_embedding c), Hc. done.
Qed.

Lemma dval_lead c s :
  nonzero_digit c = true → all_digits s = true →
  10 ^ go_len s <= dval 0 (String c s).
Proof.
  intros Hc Hs. rewrite dval_cons. apply nonzero_digit_pos in Hc.
  pose proof (dval_bound s Hs). nia.
Qed.

(** [s] read as the fraction [0.s], scaled to [L] digits. *)
Definition scaled (s : string) (L : Z) : Z := dval 0 s * 10 ^ (L - go_len s).

Lemma scaled_cons c s L :
  go_len s + 1 <= L →
  scaled (String c s) L = Z.of_N (digit_val c) * 10 ^ (L - 1) + scaled s (L - 1).
Proof.
  intros HL. unfold scaled. rewrite dval_cons, go_len_cons.
  rewrite Z.mul_add_distr_r, <-Z.mul_assoc.
  rewrite <-Z.pow_add_r by (pose proof (go_len_nonneg s); lia).
  f_equal; [do 2 f_equal; lia|do 2 f_equal; lia].
Qed.

Lemma scaled_bound s L :
  all_digits s = true → go_len s <= L → 0 <= scaled s L < 10 ^ L.
Proof.
  intros Hs HL. unfold scaled. pose proof (dval_bound s Hs).
  replace (10 ^ L) with (10 ^ go_len s * 10 ^ (L - go_len s)).
  - pose proof (Z.pow_pos_nonneg 10 (L - go_len s)). nia.
  - rewrite <-Z.pow_add_r by (pose proof (go_len_nonneg s); lia). f_equal. lia.
Qed.

Lemma scaled_empty L : scaled "" L = 0.
Proof. done. Qed.

Lemma Z_Cmp_lex x y u v P :
  0 <= u < P → 0 <= v < P →
  Z_Cmp (x * P + u) (y * P + v) =
  match Z_Cmp x y with 0 => Z_Cmp u v | c => c end.
Proof.
  intros Hu Hv. unfold Z_Cmp. destruct (Z.compare_spec x y) as [->|H|H].
  - by rewrite Z.add_compare_mono_l.
  - assert (x * P + u < y * P + v) as Hlt by nia. by apply Z.compare_lt_iff in Hlt as ->.
  - assert (x * P + u > y * P + v) as Hlt by nia.
    by apply Z.gt_lt, Z.compare_gt_iff in Hlt as ->.
Qed.

Lemma cmp_byte_digits x y :
  is_digit x = true → is_digit y = true →
  cmp_byte x y = Z_Cmp (Z.of_N (digit_val x)) (Z.of_N (digit_val y)).
Proof.
  unfold is_digit, cmp_byte, Z_Cmp, digit_val. intros Hx Hy. bool_props.
  destruct (N.ltb_spec (N_of_ascii x) (N_of_ascii y)).
  - by replace (_ ?= _) with Lt by (symmetry; apply Z.compare_lt_iff; lia).
  - destruct (N.ltb_spec (N_of_ascii y) (N_of_ascii x)).
    + by replace (_ ?= _) with Gt by (symmetry; apply Z.compare_gt_iff; lia).
    + by replace (_ ?= _) with Eq by (symmetry; apply Z.compare_eq_iff; lia).
Qed.

Lemma all_digits_cons c s :
  all_digits (String c s) = true → is_digit c = true ∧ all_digits s = true.
Proof. unfold all_digits. simpl. intros H. by bool_props. Qed.

(** One digit of the loop decides, or passes on to the rest. *)
Lemma scaled_step x y a b L :
  is_digit x = true → is_digit y = true → all_digits a = true → all_digits b = true →
  go_len a <= L - 1 → go_len b <= L - 1 →
  Z_Cmp (Z.of_N (digit_val x) * 10 ^ (L - 1) + scaled a (L - 1))
        (Z.of_N (digit_val y) * 10 ^ (L - 1) + scaled b (L - 1)) =
  match cmp_byte x y with 0 => Z_Cmp (scaled a (L - 1)) (scaled b (L - 1)) | c => c end.
Proof.
  intros. rewrite Z_Cmp_lex by (by apply scaled_bound). by rewrite cmp_byte_digits.
Qed.

Lemma cmp_right_spec b L :
  all_digits b = true → go_len b <= L → cmp_right b = Z_Cmp 0 (scaled b L).
Proof.
  revert L. induction b as [|y b IH]; intros L Hb HL; [done|].
  apply all_digits_cons in Hb as [Hy Hb]. rewrite go_len_cons in HL.
  rewrite scaled_cons by lia.
  pose proof (scaled_step "0" y "" b L) as Hstep. rewrite scaled_empty in Hstep.
  change (Z.of_N (digit_val "0")) with 0 in Hstep.
  rewrite Z.mul_0_l, Z.add_0_l in Hstep.
  rewrite Hstep by (done || unfold go_len in *; simpl; lia). simpl.
  by rewrite (IH (L - 1)) by (done || lia).
Qed.

Lemma cmp_digits_spec a b L :
  all_digits a = true → all_digits b = true → go_len a <= L → go_len b <= L →
  cmp_digits a b = Z_Cmp (scaled a L) (scaled b L).
Proof.
  revert b L. induction a as [|x a IH]; intros b L Ha Hb HaL HbL;
    [by apply cmp_right_spec|].
  apply all_digits_cons in Ha as [Hx Ha]. rewrite go_len_cons in HaL.
  rewrite scaled_cons by lia. destruct b as [|y b].
  - pose proof (scaled_step x "0" a "" L) as Hstep. rewrite scaled_empty in *.
    change (Z.of_N (digit_val "0")) with 0 in Hstep.
    rewrite Z.mul_0_l, Z.add_0_l in Hstep.
    rewrite Hstep by (done || unfold go_len in *; simpl; lia). simpl.
    rewrite (IH "" (L - 1)) by (done || unfold go_len in *; simpl; lia). done.
  - apply all_digits_cons in Hb as [Hy Hb]. rewrite go_len_cons in HbL.
    rewrite scaled_cons, scaled_step by (done || lia). simpl.
    by rewrite (IH b (L - 1)) by (done || lia).
Qed.

(** ** Magnitudes *)

(** The leading digit is not zero. *)
Definition normalized (s : string) : Prop :=
  all_digits s = true ∧ ∃ c t, s = String c t ∧ nonzero_digit c = true.

Lemma normalized_bounds s :
  normalized s → 0 < go_len s ∧ 10 ^ (go_len s - 1) <= dval 0 s < 10 ^ go_len s.
Proof.
  intros (Hd & c & t & -> & Hc). split; [rewrite go_len_cons; pose proof (go_len_nonneg t); lia|].
  split; [|by apply dval_bound]. apply all_digits_cons in Hd as [_ Hd].
  replace (go_len (String c t) - 1) with (go_len t) by (rewrite go_len_cons; lia).
  by apply dval_lead.
Qed.

Lemma magnitude_lt a b ea eb k :
  normalized a → normalized b → k <= ea → k <= eb →
  ea + go_len a < eb + go_len b →
  dval 0 a * 10 ^ (ea - k) < dval 0 b * 10 ^ (eb - k).
Proof.
  intros Ha Hb Hka Hkb Hlt.
  destruct (normalized_bounds a Ha) as [La [_ Ua]].
  destruct (normalized_bounds b Hb) as [Lb [Bb _]].
  apply Z.lt_le_trans with (10 ^ go_len a * 10 ^ (ea - k)).
  { apply Z.mul_lt_mono_pos_r; [apply Z.pow_pos_nonneg; lia|done]. }
  transitivity (10 ^ (go_len b - 1) * 10 ^ (eb - k)).
  - rewrite <-!Z.pow_add_r by lia. apply Z.pow_le_mono_r; lia.
  - apply Z.mul_le_mono_nonneg_r; [apply Z.pow_nonneg; lia|done].
Qed.

(** The unsigned comparison of the code, on non-zero digit strings. *)
Lemma compare_magnitudes a b ea eb k :
  normalized a → normalized b → k <= ea → k <= eb →
  match Z_Cmp (ea + go_len a) (eb + go_len b) with
  | 0 => cmp_digits a b | c => c end
  = Z_Cmp (dval 0 a * 10 ^ (ea - k)) (dval 0 b * 10 ^ (eb - k)).
Proof.
  intros Ha Hb Hka Hkb. unfold Z_Cmp at 1.
  destruct (Z.compare_spec (ea + go_len a) (eb + go_len b)) as [He|Hl|Hg].
  - set (L := ea + go_len a - k).
    rewrite (cmp_digits_spec a b L) by (apply Ha || apply Hb || unfold L; lia).
    unfold scaled, L. f_equal; do 2 f_equal; lia.
  - pose proof (magnitude_lt a b ea eb k Ha Hb Hka Hkb Hl) as Hlt. unfold Z_Cmp.
    by apply Z.compare_lt_iff in Hlt as ->.
  - pose proof (magnitude_lt b a eb ea k Hb Ha Hkb Hka Hg) as Hlt. unfold Z_Cmp.
    by apply Z.compare_gt_iff in Hlt as ->.
Qed.

(** ** Rationals *)

Lemma Qcompare_scale (a b c : Q) :
  (0 < c)%Q → ((a * c)%Q ?= (b * c)%Q)%Q = (a ?= b)%Q.
Proof.
  intros Hc. destruct (a ?= b)%Q eqn:E.
  - apply Qeq_alt in E. apply Qeq_alt. by rewrite E.
  - apply Qlt_alt in E. apply Qlt_alt. by apply Qmult_lt_r.
  - apply Qgt_alt in E. apply Qgt_alt. by apply Qmult_lt_r.
Qed.

Lemma ten_power_split (m e k : Z) :
  k <= e →
  (inject_Z m * inject_Z 10 ^ e == inject_Z (m * 10 ^ (e - k)) * inject_Z 10 ^ k)%Q.
Proof.
  intros Hk. rewrite inject_Z_mult, Zpower_Qpower by lia.
  rewrite <-Qmult_assoc, <-Qpower_plus by done.
  by replace (e - k + k) with e by lia.
Qed.

Lemma Qcompare_decimal (m1 m2 e1 e2 k : Z) :
  k <= e1 → k <= e2 →
  ((inject_Z m1 * inject_Z 10 ^ e1)%Q ?= (inject_Z m2 * inject_Z 10 ^ e2)%Q)%Q
  = Z.compare (m1 * 10 ^ (e1 - k)) (m2 * 10 ^ (e2 - k)).
Proof.
  intros H1 H2.
  rewrite (ten_power_split m1 e1 k), (ten_power_split m2 e2 k) by done.
  rewrite Qcompare_scale by (by apply Qpower_0_lt).
  unfold Qcompare. simpl. by rewrite !Z.mul_1_r.
Qed.

(** ** The comparison is exact *)

Lemma digits_of_number n :
  wf_num n → all_digits (num_int n +:+ frac_digits n) = true.
Proof.
  intros Hwf. unfold all_digits. rewrite string_forallb_app.
  fold (all_digits (num_int n)). rewrite (wf_int n Hwf). unfold frac_digits.
  destruct (num_frac n) as [f|] eqn:F; [|done]. by apply (wf_frac n Hwf).
Qed.

(** [decimalParts], as a sign, normalized digits and a scale: either the number is
zero and reads as unsigned, or its digits are normalized. *)
Lemma decimalParts_value n :
  wf_num n →
  ∃ D e neg M,
    decimalParts (print_number n) = Some (D, M, neg)
    ∧ (number_value n == inject_Z ((if neg then -1 else 1) * dval 0 D)
                         * inject_Z 10 ^ e)%Q
    ∧ (D = "" ∧ neg = false ∨ normalized D ∧ M = e + go_len D).
Proof.
  intros Hwf. pose proof (digits_of_number n Hwf) as Hd.
  destruct (trim_zeros_spec _ Hd) as (Htd & Hv & Hcase).
  set (D := trim_zeros (num_int n +:+ frac_digits n)) in *.
  pose proof (decimalParts_print n Hwf) as Hp. cbv zeta in Hp. fold D in Hp.
  exists D, (exp_value (num_exp n) - go_len (frac_digits n)).
  destruct Hcase as [HD|(c & t & HD & Hc)].
  - rewrite HD in *. simpl in Hp, Hv. eexists false, _.
    split_and!; [exact Hp| |by left].
    unfold number_value. rewrite <-Hv. simpl. by rewrite Z.mul_0_r.
  - assert (String.eqb D "" = false) as Hne by (by rewrite HD).
    rewrite Hne in Hp. eexists (num_neg n), _. split_and!; [exact Hp| |].
    + unfold number_value. by rewrite Hv.
    + right. split; [|lia]. split; [done|]. eauto.
Qed.

Lemma Z_Cmp_neg a b : Z_Cmp (- a) (- b) = - Z_Cmp a b.
Proof.
  unfold Z_Cmp. rewrite Z.compare_opp, Z.compare_antisym.
  by destruct (a ?= b).
Qed.

Lemma Q_sign_Z_Cmp a b : Q_sign (Z.compare a b) = Z_Cmp a b.
Proof. by unfold Q_sign, Z_Cmp; destruct (a ?= b). Qed.

Lemma Z_Cmp_lt a b : a < b → Z_Cmp a b = -1.
Proof. unfold Z_Cmp. by intros ->%Z.compare_lt_iff. Qed.

Lemma Z_Cmp_gt a b : b < a → Z_Cmp a b = 1.
Proof. unfold Z_Cmp. by intros ->%Z.compare_gt_iff. Qed.

Lemma scaled_pos D e k : normalized D → k <= e → 0 < dval 0 D * 10 ^ (e - k).
Proof.
  intros HD Hk. destruct (normalized_bounds D HD) as [? [? _]].
  assert (0 < 10 ^ (go_len D - 1)) by (apply Z.pow_pos_nonneg; lia).
  assert (0 < 10 ^ (e - k)) by (apply Z.pow_pos_nonneg; lia). nia.
Qed.

(** The unsigned comparison of the code, zero operands included. *)
Lemma compare_unsigned a b ea eb Ma Mb k :
  (a = "" ∨ normalized a ∧ Ma = ea + go_len a) →
  (b = "" ∨ normalized b ∧ Mb = eb + go_len b) →
  k <= ea → k <= eb →
  (if String.eqb a "" && String.eqb b "" then 0
   else if String.eqb a "" then -1 else if String.eqb b "" then 1
   else match Z_Cmp Ma Mb with 0 => cmp_digits a b | c => c end)
  = Z_Cmp (dval 0 a * 10 ^ (ea - k)) (dval 0 b * 10 ^ (eb - k)).
Proof.
  assert (∀ d, normalized d → String.eqb d "" = false) as Hne
    by (by intros d (_ & c & t & -> & _)).
  intros [->|[Ha ->]] [->|[Hb ->]] Hka Hkb; rewrite ?(Hne a), ?(Hne b) by done;
    cbn [String.eqb andb].
  - by rewrite !Z.mul_0_l.
  - symmetry. rewrite Z.mul_0_l. by apply Z_Cmp_lt, scaled_pos.
  - symmetry. rewrite Z.mul_0_l. by apply Z_Cmp_gt, scaled_pos.
  - by apply compare_magnitudes.
Qed.

Lemma CompareJSONNumbers_print a b :
  wf_num a → wf_num b →
  CompareJSONNumbers (print_number a) (print_number b)
  = Some (Q_sign (number_value a ?= number_value b)%Q).
Proof.
  intros Ha Hb.
  destruct (decimalParts_value a Ha) as (Da & ea & na & Ma & Hpa & Hva & Hca).
  destruct (decimalParts_value b Hb) as (Db & eb & nb & Mb & Hpb & Hvb & Hcb).
  unfold CompareJSONNumbers. rewrite Hpa, Hpb, Hva, Hvb.
  set (k := Z.min ea eb).
  rewrite (Qcompare_decimal _ _ _ _ k) by (unfold k; lia).
  rewrite Q_sign_Z_Cmp.
  set (Za := dval 0 Da * 10 ^ (ea - k)). set (Zb := dval 0 Db * 10 ^ (eb - k)).
  replace ((if na then -1 else 1) * dval 0 Da * 10 ^ (ea - k))
    with ((if na then -1 else 1) * Za) by (unfold Za; lia).
  replace ((if nb then -1 else 1) * dval 0 Db * 10 ^ (eb - k))
    with ((if nb then -1 else 1) * Zb) by (unfold Zb; lia).
  assert (k <= ea ∧ k <= eb) as [Hka Hkb] by (unfold k; lia).
  pose proof (compare_unsigned Da Db ea eb Ma Mb k) as Hmag.
  fold Za Zb in Hmag. rewrite Hmag; [|by intuition|by intuition|done..]. clear Hmag.
  assert (0 <= Za ∧ (na = true → 0 < Za)) as [HZa HnZa].
  { destruct Hca as [[-> ->]|[HD _]]; [done|].
    pose proof (scaled_pos Da ea k HD Hka). split; [|intros _]; unfold Za; lia. }
  assert (0 <= Zb ∧ (nb = true → 0 < Zb)) as [HZb HnZb].
  { destruct Hcb as [[-> ->]|[HD _]]; [done|].
    pose proof (scaled_pos Db eb k HD Hkb). split; [|intros _]; unfold Zb; lia. }
  clearbody Za Zb k. destruct na, nb; cbn [Bool.eqb negb].
  - replace (-1 * Za) with (- Za) by lia. replace (-1 * Zb) with (- Zb) by lia.
    by rewrite Z_Cmp_neg.
  - f_equal. symmetry. apply Z_Cmp_lt. specialize (HnZa eq_refl). lia.
  - f_equal. symmetry. apply Z_Cmp_gt. specialize (HnZb eq_refl). lia.
  - by rewrite !Z.mul_1_l.
Qed.

Lemma decimalParts_none s : jsonNumberPattern s = false → decimalParts s = None.
Proof. unfold decimalParts. by intros ->. Qed.

(** C38: the comparison of two tokens is decided exactly when both are JSON
numbers, and then it is the comparison of the rationals they denote. *)
Theorem CompareJSONNumbers_exact (a b : string) (c : Z) :
  CompareJSONNumbers a b = Some c ↔
  ∃ m n, wf_num m ∧ wf_num n ∧ print_number m = a ∧ print_number n = b
         ∧ c = Q_sign (number_value m ?= number_value n)%Q.
Proof.
  split.
  - intros Hc.
    assert (jsonNumberPattern a = true) as Pa.
    { destruct (jsonNumberPattern a) eqn:E; [done|].
      unfold CompareJSONNumbers in Hc. by rewrite decimalParts_none in Hc. }
    assert (jsonNumberPattern b = true) as Pb.
    { destruct (jsonNumberPattern b) eqn:E; [done|].
      unfold CompareJSONNumbers in Hc. rewrite (decimalParts_none b) in Hc by done.
      by destruct (decimalParts a) as [[[] ]|]. }
    apply pattern_inv in Pa as (m & Hm & <-), Pb as (n & Hn & <-).
    rewrite CompareJSONNumbers_print in Hc by done. exists m, n. naive_solver.
  - intros (m & n & Hm & Hn & <- & <- & ->). by apply CompareJSONNumbers_print.
Qed.

(** ** Decimal integers are JSON numbers *)

Lemma pretty_go_lead (x : N) (s : string) :
  (0 < x)%N → ∃ c r, pretty_N_go x s = String c r ∧ nonzero_digit c = true.
Proof.
  revert s. induction (N.lt_wf_0 x) as [x _ IH]; intros s Hx.
  rewrite pretty_N_go_step by done.
  destruct (decide (x / 10 = 0)%N) as [Hz|Hz].
  - rewrite Hz, pretty_N_go_0. eexists _, _. split; [done|].
    assert (x < 10)%N by (by apply N.div_small_iff in Hz).
    rewrite N.mod_small by done.
    assert (x = 1 ∨ x = 2 ∨ x = 3 ∨ x = 4 ∨ x = 5 ∨ x = 6 ∨ x = 7
      ∨ x = 8 ∨ x = 9)%N as Hc by lia.
    destruct_or! Hc; by subst.
  - apply IH; [by apply N.div_lt|]. by apply N.neq_0_lt_0.
Qed.

Lemma pattern_FormatInt (z : Z) : jsonNumberPattern (FormatInt z) = true.
Proof.
  assert (∀ (neg : bool) (n : N), jsonNumberPattern
    ((if neg then "-" else "") +:+ pretty n) = true) as H.
  { intros neg n.
    pose (m := mkNumber neg (pretty n) None None).
    assert (wf_num m) as Hm.
    { split; simpl; [apply pretty_N_digits| |done|done].
      unfold pretty, pretty_N. case_decide; [by left|right].
      apply pretty_go_lead. lia. }
    apply pattern_print in Hm. unfold m, print_number in Hm. simpl in Hm.
    by rewrite !string_app_nil_r in Hm. }
  destruct z as [|p|p]; [done|apply (H false)|apply (H true (N.pos p))].
Qed.
