(* ===== verification/Json.v ===== *)
(** * JSON values and the JSON library

The program encodes and decodes with [github.com/goccy/go-json], which is not
part of the repository: its functions are the fields of the class [GoJson], and
the behaviour the program relies on is the class [GoJsonLaws]. The value type
keeps number tokens as text, as [json.RawMessage] does. *)

From stdpp Require Import options countable.
From S2P Require Import Prelude Status Model Number.

Set Default Proof Using "Type*".

Inductive json :=
  | JNull
  | JBool (b : bool)
  | JNumber (token : string)
  | JString (s : string)
  | JArray (l : list json)
  | JObject (fields : list (string * json)).

(** [orisun.TagPredicate]. *)
Record TagPredicate := mkTagPredicate { TP_Operator : string; TP_Value : string }.
#[export] Instance TagPredicate_eq_dec : EqDecision TagPredicate.
Proof. solve_decision. Defined.

(** The encoding of a [[]TagPredicate] by its struct tags. *)
Definition predicate_json (p : TagPredicate) : json :=
  JObject [("operator", JString (TP_Operator p)); ("value", JString (TP_Value p))].
Definition predicates_json (ps : list TagPredicate) : json :=
  JArray (predicate_json <$> ps).

(** Keys in Go's byte order. *)
Definition key_le {A} (x y : string * A) : Prop := String.le x.1 y.1.
#[export] Instance key_le_dec {A} : RelDecision (@key_le A).
Proof. intros x y. unfold key_le. apply _. Defined.

(** A Go map marshals with its keys sorted. *)
Definition sorted_entries {A} (m : gmap string A) : list (string * A) :=
  merge_sort key_le (map_to_list m).
Definition json_of_map (m : gmap string json) : json := JObject (sorted_entries m).

(** Decoding into a map keeps the last of repeated keys. *)
Definition map_of_fields (fields : list (string * json)) : gmap string json :=
  list_to_map (reverse fields).

Class GoJson := {
  (** [json.Marshal] of a value, as text. *)
  json_Marshal : json → result string;
  (** [json.Unmarshal] of a text into a value. *)
  json_Unmarshal : string → result json;
  json_Valid : string → bool;
  (** [json.Unmarshal] into [[]TagPredicate]. *)
  json_predicates : json → result (list TagPredicate);
  (** The strings that are encoded as they are: valid UTF-8. *)
  text_ok : string → Prop }.

(** The values whose text reads back as written: every string is encoded as it
is and every number token follows the JSON grammar. *)
Fixpoint json_faithful `{J : GoJson} (v : json) : Prop :=
  match v with
  | JNull | JBool _ => True
  | JNumber t => jsonNumberPattern t = true
  | JString s => text_ok s
  | JArray l => fold_right (λ x P, json_faithful x ∧ P) True l
  | JObject fs => fold_right (λ kv P, (text_ok kv.1 ∧ json_faithful kv.2) ∧ P) True fs
  end.

Class GoJsonLaws `{J : GoJson} : Prop := {
  json_roundtrip v :
    json_faithful v → ∃ s, json_Marshal v = Ok s ∧ s ≠ "" ∧ json_Unmarshal s = Ok v;
  json_decoded_faithful s v : json_Unmarshal s = Ok v → json_faithful v;
  json_Valid_spec s : json_Valid s = true ↔ ∃ v, json_Unmarshal s = Ok v;
  json_predicates_array ps : json_predicates (predicates_json ps) = Ok ps;
  (** The names the program writes itself. *)
  text_ok_ascii s : string_forallb (λ c, (N_of_ascii c <? 128)%N) s = true → text_ok s }.

(** [json.Unmarshal] into a [map[string]json.RawMessage]: [None] is the nil map
that JSON null decodes to. A raw message is represented by the value its text
denotes. *)
Definition unmarshal_object `{J : GoJson} (text : string)
  : result (option (gmap string json)) :=
  v ← json_Unmarshal text;
  match v with
  | JObject fields => Ok (Some (map_of_fields fields))
  | JNull => Ok None
  | _ => Err (PlainError "cannot unmarshal into a map")
  end.

Definition marshal_object `{J : GoJson} (object : gmap string json) : result string :=
  json_Marshal (json_of_map object).

(** ** Sorted maps *)

#[export] Instance key_le_trans {A} : Transitive (@key_le A).
Proof. intros x y z. unfold key_le. apply transitivity. Qed.
#[export] Instance key_le_total {A} : Total (@key_le A).
Proof. intros x y. unfold key_le. apply total, _. Qed.

Lemma sorted_entries_Permutation {A} (m : gmap string A) :
  sorted_entries m ≡ₚ map_to_list m.
Proof. apply merge_sort_Permutation. Qed.

Lemma list_to_map_sorted_entries {A} (m : gmap string A) :
  list_to_map (sorted_entries m) = m.
Proof.
  rewrite (list_to_map_proper _ (map_to_list m)).
  - apply list_to_map_to_list.
  - rewrite sorted_entries_Permutation. apply NoDup_fst_map_to_list.
  - apply sorted_entries_Permutation.
Qed.

Lemma map_of_fields_json_of_map (m : gmap string json) :
  map_of_fields (sorted_entries m) = m.
Proof.
  unfold map_of_fields. rewrite <-(list_to_map_sorted_entries m) at 2.
  symmetry. apply list_to_map_proper.
  - rewrite sorted_entries_Permutation. apply NoDup_fst_map_to_list.
  - symmetry. apply reverse_Permutation.
Qed.

(** ** Faithful objects *)

Section Faithful.
Context `{J : GoJson}.

Lemma json_faithful_array l :
  json_faithful (JArray l) ↔ ∀ x, x ∈ l → json_faithful x.
Proof.
  simpl. induction l as [|x l IH]; simpl.
  - split; [by intros _ x ?%elem_of_nil|done].
  - rewrite IH. setoid_rewrite elem_of_cons. naive_solver.
Qed.

Lemma json_faithful_object fs :
  json_faithful (JObject fs) ↔ ∀ k v, (k, v) ∈ fs → text_ok k ∧ json_faithful v.
Proof.
  simpl. induction fs as [|[k v] fs IH]; simpl.
  - split; [by intros _ k v ?%elem_of_nil|done].
  - rewrite IH. setoid_rewrite elem_of_cons. naive_solver.
Qed.

Lemma json_faithful_map m :
  json_faithful (json_of_map m) ↔ ∀ k v, m !! k = Some v → text_ok k ∧ json_faithful v.
Proof.
  unfold json_of_map. rewrite json_faithful_object.
  setoid_rewrite sorted_entries_Permutation. by setoid_rewrite elem_of_map_to_list.
Qed.

Lemma map_of_fields_faithful fs :
  json_faithful (JObject fs) → json_faithful (json_of_map (map_of_fields fs)).
Proof.
  rewrite json_faithful_object, json_faithful_map. intros H k v Hk.
  apply elem_of_list_to_map_2 in Hk. rewrite elem_of_reverse in Hk. eauto.
Qed.

Context `{L : !GoJsonLaws}.

Lemma unmarshal_marshal_object m :
  json_faithful (json_of_map m) →
  ∃ s, marshal_object m = Ok s ∧ s ≠ "" ∧ unmarshal_object s = Ok (Some m).
Proof.
  intros (s & Hm & Hs & Hu)%json_roundtrip. exists s. split_and!; [done..|].
  unfold unmarshal_object. rewrite Hu. simpl.
  by rewrite map_of_fields_json_of_map.
Qed.

Lemma unmarshal_object_faithful s m :
  unmarshal_object s = Ok (Some m) → json_faithful (json_of_map m).
Proof.
  unfold unmarshal_object. intros H. inv_ok.
  destruct x as [| | | | |fs]; simplify_eq/=.
  apply map_of_fields_faithful. by eapply json_decoded_faithful.
Qed.

Lemma json_faithful_int z : json_faithful (JNumber (FormatInt z)).
Proof. apply pattern_FormatInt. Qed.

End Faithful.

(** ** A concrete library

A codec by counted and length-prefixed text: it shows that the laws can hold,
and lets the examples run. *)

Fixpoint json_to_tree (v : json) : gen_tree (string + bool) :=
  match v with
  | JNull => GenNode 0 []
  | JBool b => GenNode 1 [GenLeaf (inr b)]
  | JNumber t => GenNode 2 [GenLeaf (inl t)]
  | JString s => GenNode 3 [GenLeaf (inl s)]
  | JArray l => GenNode 4 (json_to_tree <$> l)
  | JObject fs => GenNode 5 (list_fmap _ _ (λ kv, GenNode 6 [GenLeaf (inl kv.1); json_to_tree kv.2]) fs)
  end.

Fixpoint tree_to_json (t : gen_tree (string + bool)) : json :=
  match t with
  | GenNode 1 [GenLeaf (inr b)] => JBool b
  | GenNode 2 [GenLeaf (inl s)] => JNumber s
  | GenNode 3 [GenLeaf (inl s)] => JString s
  | GenNode 4 l => JArray (list_fmap _ _ tree_to_json l)
  | GenNode 5 l =>
      JObject (list_fmap _ _ (λ t, match t with
        | GenNode 6 [GenLeaf (inl k); v] => (k, tree_to_json v)
        | _ => ("", JNull)
        end) l)
  | _ => JNull
  end.

(** Induction through the nested lists. *)
Fixpoint json_ind' (P : json → Prop)
  (Hnull : P JNull) (Hbool : ∀ b, P (JBool b)) (Hnum : ∀ t, P (JNumber t))
  (Hstr : ∀ s, P (JString s)) (Harr : ∀ l, Forall P l → P (JArray l))
  (Hobj : ∀ fs, Forall (λ kv, P kv.2) fs → P (JObject fs)) (v : json) : P v :=
  let rec := json_ind' P Hnull Hbool Hnum Hstr Harr Hobj in
  match v with
  | JNull => Hnull
  | JBool b => Hbool b
  | JNumber t => Hnum t
  | JString s => Hstr s
  | JArray l => Harr l
      ((fix go l : Forall P l := match l with
        | [] => Forall_nil_2 _
        | x :: l => Forall_cons_2 _ _ _ (rec x) (go l)
        end) l)
  | JObject fs => Hobj fs
      ((fix go l : Forall (λ kv, P kv.2) l := match l with
        | [] => Forall_nil_2 _
        | x :: l => Forall_cons_2 _ _ _ (rec x.2) (go l)
        end) fs)
  end.

Lemma tree_to_json_to_tree v : tree_to_json (json_to_tree v) = v.
Proof.
  induction v as [| | | |l IH|fs IH] using json_ind'; simpl; f_equal; [done..| |].
  - induction IH as [|x l Hx _ IHl]; [done|]. simpl. by f_equal.
  - induction IH as [|[k x] l Hx _ IHl]; [done|]. simpl in *. by rewrite Hx, IHl.
Qed.

#[export] Instance json_eq_dec : EqDecision json.
Proof.
  refine (λ v w, cast_if (decide (json_to_tree v = json_to_tree w))).
  - abstract (rewrite <-(tree_to_json_to_tree v), <-(tree_to_json_to_tree w); congruence).
  - abstract congruence.
Defined.

(** Counted and length-prefixed text, read back with the length as fuel. *)
Definition write_list (parts : list string) : string :=
  pretty (length parts) +:+ ":" +:+ fold_right String.append "" parts.

Fixpoint write_json (v : json) : string :=
  match v with
  | JNull => "n"
  | JBool true => "t"
  | JBool false => "f"
  | JNumber t => String "#" (len_prefixed t)
  | JString s => String "s" (len_prefixed s)
  | JArray l => String "a" (write_list (list_fmap _ _ write_json l))
  | JObject fs => String "o" (write_list
      (list_fmap _ _ (λ kv, len_prefixed kv.1 +:+ write_json kv.2) fs))
  end.

Definition write_field (kv : string * json) : string :=
  len_prefixed kv.1 +:+ write_json kv.2.

Fixpoint read_num (acc : N) (s : string) : option (N * string) :=
  match s with
  | EmptyString => None
  | String c s => if Ascii.eqb c ":" then Some (acc, s)
                  else if is_digit c then read_num (10 * acc + digit_val c) s else None
  end.

Fixpoint read_chars (n : nat) (s : string) : option (string * string) :=
  match n, s with
  | 0, _ => Some ("", s)
  | S n, String c s => '(a, r) ← read_chars n s; Some (String c a, r)
  | _, EmptyString => None
  end.

Definition read_text (s : string) : option (string * string) :=
  '(n, s) ← read_num 0 s; read_chars (N.to_nat n) s.

Fixpoint read_many {A} (f : string → option (A * string)) (n : nat) (s : string)
  : option (list A * string) :=
  match n with
  | 0 => Some ([], s)
  | S n => '(x, s) ← f s; '(xs, s) ← read_many f n s; Some (x :: xs, s)
  end.

Fixpoint read_json (fuel : nat) (s : string) : option (json * string) :=
  match fuel, s with
  | S fuel, String c s =>
      if Ascii.eqb c "n" then Some (JNull, s)
      else if Ascii.eqb c "t" then Some (JBool true, s)
      else if Ascii.eqb c "f" then Some (JBool false, s)
      else if Ascii.eqb c "#" then '(t, s) ← read_text s; Some (JNumber t, s)
      else if Ascii.eqb c "s" then '(t, s) ← read_text s; Some (JString t, s)
      else if Ascii.eqb c "a" then
        '(n, s) ← read_num 0 s;
        '(l, s) ← read_many (read_json fuel) (N.to_nat n) s; Some (JArray l, s)
      else if Ascii.eqb c "o" then
        '(n, s) ← read_num 0 s;
        '(l, s) ← read_many (λ s, '(k, s) ← read_text s; '(v, s) ← read_json fuel s;
                                  Some ((k, v), s)) (N.to_nat n) s;
        Some (JObject l, s)
      else None
  | _, _ => None
  end.

Lemma read_num_digits s acc n rest :
  parse_digits acc s = Some n → read_num acc (s +:+ String ":" rest) = Some (n, rest).
Proof.
  revert acc. induction s as [|c s IH]; intros acc H; string_simpl; [by simplify_eq|].
  destruct (is_digit c) eqn:Hc; [|done].
  destruct (Ascii.eqb_spec c ":") as [->|]; [done|]. by apply IH.
Qed.

Lemma read_num_pretty (n : nat) rest :
  read_num 0 (pretty n +:+ String ":" rest) = Some (N.of_nat n, rest).
Proof. apply read_num_digits, parse_digits_pretty. Qed.

Lemma read_text_prefixed a rest : read_text (len_prefixed a +:+ rest) = Some (a, rest).
Proof.
  unfold read_text, len_prefixed. rewrite !string_app_assoc.
  change (":" +:+ a +:+ rest) with (String ":" (a +:+ rest)). rewrite read_num_pretty.
  simpl. rewrite Nat2N.id. induction a as [|c a IH]; string_simpl; [done|].
  by rewrite IH.
Qed.

(** Reading back a list of parts, each read back by [f]. *)
Lemma read_many_parts {A} (f : string → option (A * string)) (w : A → string) l rest :
  (∀ x r, x ∈ l → f (w x +:+ r) = Some (x, r)) →
  read_many f (length l) (fold_right String.append "" (w <$> l) +:+ rest) = Some (l, rest).
Proof.
  induction l as [|x l IH]; intros Hf; [done|]. rewrite fmap_cons. simpl.
  rewrite string_app_assoc, Hf by left. simpl. rewrite IH; [done|].
  intros y r Hy. apply Hf. by right.
Qed.

Lemma parts_length {A} (w : A → string) l x :
  x ∈ l → String.length (w x) ≤ String.length (fold_right String.append "" (w <$> l)).
Proof.
  induction l as [|y l IH]; intros Hx; [by apply elem_of_nil in Hx|].
  rewrite fmap_cons. simpl. rewrite string_length_app.
  apply elem_of_cons in Hx as [->|Hx]; [lia|]. specialize (IH Hx). lia.
Qed.

Lemma write_list_length parts :
  String.length (fold_right String.append "" parts) ≤ String.length (write_list parts).
Proof. unfold write_list. rewrite !string_length_app. lia. Qed.

Lemma read_write_json v fuel rest :
  String.length (write_json v) ≤ fuel →
  read_json fuel (write_json v +:+ rest) = Some (v, rest).
Proof.
  revert fuel rest.
  induction v as [|b|t|s|l IH|fs IH] using json_ind'; intros [|fuel] rest Hf;
    try (simpl in Hf; lia).
  - done.
  - destruct b; simpl in Hf; lia.
  - by destruct b.
  - cbn [write_json]. rewrite string_app_cons. cbn -[read_text]. by rewrite read_text_prefixed.
  - cbn [write_json]. rewrite string_app_cons. cbn -[read_text]. by rewrite read_text_prefixed.
  - cbn [write_json] in *. rewrite string_app_cons. cbn -[read_text write_list].
    change (list_fmap _ _ _ l) with (write_json <$> l) in *.
    pose proof (write_list_length (write_json <$> l)) as Hl. simpl in Hf.
    unfold write_list at 1. rewrite !string_app_assoc.
    change (":" +:+ ?a +:+ rest) with (String ":" (a +:+ rest)).
    rewrite read_num_pretty. cbn [mbind option_bind]. rewrite Nat2N.id, length_fmap.
    rewrite (read_many_parts (read_json fuel) write_json); [done|].
    intros x r Hx. rewrite Forall_forall in IH. apply IH; [done|].
    pose proof (parts_length write_json l x Hx). lia.
  - cbn [write_json] in *. rewrite string_app_cons. cbn -[read_text write_list].
    change (list_fmap _ _ _ fs) with (write_field <$> fs) in *.
    pose proof (write_list_length (write_field <$> fs)) as Hl.
    change (S (String.length (write_list (write_field <$> fs))) ≤ S fuel) in Hf.
    unfold write_list at 1. rewrite !string_app_assoc.
    change (":" +:+ ?a +:+ rest) with (String ":" (a +:+ rest)).
    rewrite read_num_pretty. cbn [mbind option_bind]. rewrite Nat2N.id, length_fmap.
    rewrite (read_many_parts _ write_field); [done|].
    intros [k x] r Hx. pose proof (parts_length write_field fs (k, x) Hx) as Hp.
    unfold write_field at 1. simpl. rewrite string_app_assoc, read_text_prefixed. simpl.
    rewrite Forall_forall in IH. rewrite (IH (k, x)); [done|done|].
    assert (String.length (write_field (k, x))
      = String.length (len_prefixed k) + String.length (write_json x)) as Hw
      by apply string_length_app.
    simpl. lia.
Qed.

Definition example_predicate (v : json) : result TagPredicate :=
  match v with
  | JObject [("operator", JString o); ("value", JString x)] =>
      Ok (mkTagPredicate o x)
  | _ => Err (PlainError "cannot unmarshal")
  end.

Fixpoint example_predicates (l : list json) : result (list TagPredicate) :=
  match l with
  | [] => Ok []
  | v :: l => p ← example_predicate v; ps ← example_predicates l; mret (p :: ps)
  end.

Fixpoint numbers_ok (v : json) : bool :=
  match v with
  | JNumber t => jsonNumberPattern t
  | JArray l => forallb numbers_ok l
  | JObject fs => forallb (λ kv, numbers_ok kv.2) fs
  | _ => true
  end.

(** It also reads JSON objects whose members are strings without escapes: the pieces of
the text between its double quotes. *)
Fixpoint flat_members (l : list string) : option (list (string * json)) :=
  match l with
  | [k; ":"; v; "}"] => Some [(k, JString v)]
  | k :: ":" :: v :: "," :: l => fs ← flat_members l; Some ((k, JString v) :: fs)
  | _ => None
  end.

Definition example_read (s : string) : option json :=
  match s with
  | String "{" s =>
      match Split s "034" with
      | "" :: l => JObject <$> flat_members l
      | _ => None
      end
  | _ => match read_json (String.length s) s with
         | Some (v, EmptyString) => Some v
         | _ => None
         end
  end.

Definition example_Unmarshal (s : string) : result json :=
  match example_read s with
  | Some v => if numbers_ok v then Ok v else Err (PlainError "invalid JSON")
  | None => Err (PlainError "invalid JSON")
  end.

Definition example_json : GoJson := {|
  json_Marshal v := Ok (write_json v);
  json_Unmarshal s := example_Unmarshal s;
  json_Valid s := is_ok (example_Unmarshal s);
  json_predicates v :=
    match v with
    | JArray l => example_predicates l
    | JNull => Ok []
    | _ => Err (PlainError "cannot unmarshal")
    end;
  text_ok _ := True |}.

Lemma numbers_ok_faithful v :
  numbers_ok v = true ↔ @json_faithful example_json v.
Proof.
  induction v as [| | | |l IH|fs IH] using json_ind'; simpl; [done..| |].
  - induction IH as [|x l Hx _ IHl]; [done|]. simpl. rewrite andb_true_iff, Hx, IHl. done.
  - induction IH as [|[k x] l Hx _ IHl]; [done|]. simpl in *.
    rewrite andb_true_iff, Hx, IHl. naive_solver.
Qed.

Lemma example_json_laws : @GoJsonLaws example_json.
Proof.
  split.
  - intros v Hv. simpl. eexists. split_and!; [done| |].
    + by destruct v as [|[]| | | |].
    + unfold example_Unmarshal.
      assert (example_read (write_json v)
        = match read_json (String.length (write_json v)) (write_json v) with
          | Some (v, EmptyString) => Some v
          | _ => None
          end) as -> by by destruct v as [|[]| | | |].
      rewrite <-(string_app_nil_r (write_json v)) at 2.
      rewrite read_write_json by done. by apply numbers_ok_faithful in Hv as ->.
  - intros s v. simpl. unfold example_Unmarshal. destruct (example_read s) as [x|]; [|done].
    destruct (numbers_ok x) eqn:Hx; [|done]. intros [= <-]. by apply numbers_ok_faithful.
  - intros s. simpl. destruct (example_Unmarshal s); naive_solver.
  - intros ps. change (example_predicates (predicate_json <$> ps) = Ok ps).
    induction ps as [|[o x] ps IH]; [done|]. rewrite fmap_cons.
    cbn [example_predicates]. by rewrite IH.
  - done.
Qed.
