(* ===== verification/Predicates.v ===== *)
(** * Tag predicates: [orisun/query_predicates.go], [orisun/tag_matching.go]

Validation of query tags, the durable encoding of a criterion, and the scalar
comparison used by engines that evaluate predicates in Go. *)

From Stdlib Require Import QArith.
From stdpp Require Import options.
From S2P Require Import Prelude Status Model Number Json.

(** ** Operators and validation *)

Definition CanonicalTagOperator (operator : string) : result string :=
  if bool_decide (operator ∈ [""; "eq"]) then Ok "eq"
  else if bool_decide (operator ∈ ["ne"; "gt"; "gte"; "lt"; "lte"]) then Ok operator
  else Err (PlainError "unsupported tag operator %q").

(** The SQL operator of a canonical operator, by the table of the code; a missing
entry reads as the empty string. *)
Definition sql_operator_table : list (string * string) :=
  [("eq", "="); ("ne", "<>"); ("gt", ">"); ("gte", ">="); ("lt", "<"); ("lte", "<=")].

Definition TagSQLOperator (operator : string) : result string :=
  op ← CanonicalTagOperator operator;
  mret (default "" ((list_to_map sql_operator_table : gmap string string) !! op)).

Definition ValidateTag (key value operator : string) : result unit :=
  if String.eqb key "" then Err (New InvalidArgument "tag key cannot be empty")
  else if contains_nul key || contains_nul value
  then Err (New InvalidArgument "tag key and value cannot contain NUL")
  else match CanonicalTagOperator operator with
       | Err e => Err (New InvalidArgument (Error_text e))
       | Ok _ => Ok tt
       end.

Fixpoint validate_tags (tags : list (option Tag)) : result unit :=
  match tags with
  | [] => Ok tt
  | None :: _ => Err (New InvalidArgument "tag cannot be nil")
  | Some t :: tags =>
      _ ← ValidateTag (Tag_Key t) (Tag_Value t) (Tag_Operator t);
      validate_tags tags
  end.

Fixpoint validate_criteria (criteria : list (option Criterion)) : result unit :=
  match criteria with
  | [] => Ok tt
  | None :: _ => Err (New InvalidArgument "criterion cannot be nil")
  | Some c :: criteria =>
      _ ← validate_tags (Criterion_Tags c); validate_criteria criteria
  end.

Definition ValidateQuery (query : option Query) : result unit :=
  match query with
  | None => Ok tt
  | Some q => validate_criteria (Query_Criteria q)
  end.

Fixpoint validate_read_tags (tags : list ReadTag) : result unit :=
  match tags with
  | [] => Ok tt
  | t :: tags => _ ← ValidateTag (Key t) (Value t) (Operator t); validate_read_tags tags
  end.

Fixpoint ValidateReadCriteria (criteria : list ReadCriterion) : result unit :=
  match criteria with
  | [] => Ok tt
  | c :: criteria => _ ← validate_read_tags (Tags c); ValidateReadCriteria criteria
  end.

(** ** The durable encoding *)

(** The dynamic values ([any]) a criterion field holds: a string, a typed slice
of predicates, or whatever a JSON decoder produced. *)
Inductive anyval :=
  | AString (s : string)
  | APredicates (ps : list TagPredicate)
  | AJson (v : json).

#[export] Instance anyval_eq_dec : EqDecision anyval.
Proof. solve_decision. Defined.

Definition encoded_operator (op : string) : string :=
  if String.eqb op "" then "eq" else op.

(** [fields[tag.Key] = append(fields[tag.Key], ...)]. *)
Definition append_predicate (fields : gmap string (list TagPredicate)) (t : ReadTag)
  : gmap string (list TagPredicate) :=
  <[Key t := default [] (fields !! Key t)
             ++ [mkTagPredicate (encoded_operator (Operator t)) (Value t)]]> fields.

Definition encode_predicates (ps : list TagPredicate) : anyval :=
  match ps with
  | [p] => if String.eqb (TP_Operator p) "eq" then AString (TP_Value p)
           else APredicates ps
  | _ => APredicates ps
  end.

Definition EncodeCriterion (tags : list ReadTag) : gmap string anyval :=
  encode_predicates <$> foldl append_predicate ∅ tags.

Definition EncodeReadCriteria (criteria : list ReadCriterion)
  : list (gmap string anyval) :=
  (λ c, EncodeCriterion (Tags c)) <$> criteria.

(** A nil criterion or tag dereferences a nil pointer: [None] is that panic. *)
Definition read_tag (t : Tag) : ReadTag :=
  mkReadTag (Tag_Key t) (Tag_Value t) (Tag_Operator t).

Definition read_criterion (c : option Criterion) : option ReadCriterion :=
  c ← c; ts ← mapM (λ t, t) (Criterion_Tags c);
  Some (mkReadCriterion (read_tag <$> ts)).

Definition EncodeQueryCriteria (query : option Query)
  : option (list (gmap string anyval)) :=
  match query with
  | None => Some []
  | Some q => EncodeReadCriteria <$> mapM read_criterion (Query_Criteria q)
  end.

Section Decode.
Context `{J : GoJson}.

Definition DecodeTagPredicates (value : anyval) : result (list TagPredicate) :=
  match value with
  | AString text => Ok [mkTagPredicate "eq" text]
  | APredicates predicates => Ok predicates
  | AJson v =>
      (* Marshal, then Unmarshal into []TagPredicate *)
      text ← json_Marshal v;
      match json_Unmarshal text ≫= json_predicates with
      | Err e => Err (Wrapped "invalid tag predicates: %w" e)
      | Ok [] => Err (PlainError "tag predicates cannot be empty")
      | Ok predicates => Ok predicates
      end
  end.

Definition decode_predicate (key : string) (p : TagPredicate) : result ReadTag :=
  _ ← ValidateTag key (TP_Value p) (TP_Operator p);
  mret (mkReadTag key (TP_Value p)
          (if String.eqb (TP_Operator p) "eq" then "" else TP_Operator p)).

Fixpoint decode_key (key : string) (ps : list TagPredicate) : result (list ReadTag) :=
  match ps with
  | [] => Ok []
  | p :: ps => t ← decode_predicate key p; ts ← decode_key key ps; mret (t :: ts)
  end.

Fixpoint decode_keys (fields : gmap string anyval) (keys : list string)
  : result (list ReadTag) :=
  match keys with
  | [] => Ok []
  | key :: keys =>
      ps ← DecodeTagPredicates (default (AJson JNull) (fields !! key));
      ts ← decode_key key ps;
      rest ← decode_keys fields keys;
      mret (ts ++ rest)
  end.

Definition DecodeCriterion (fields : gmap string anyval) : result (list ReadTag) :=
  decode_keys fields (merge_sort String.le (map_to_list fields).*1).

End Decode.

(** ** Scalar comparison: [MatchTagValue] *)

(** A JSON-decoded value. A [float64] is represented by its shortest ['g'] text,
the only use the code makes of it; [VOther] by its [%v] text. *)
Inductive tagvalue :=
  | VNil
  | VString (s : string)
  | VBool (b : bool)
  | VNumber (token : string)     (* json.Number *)
  | VFloat64 (text : string)
  | VInt (z : Z)                 (* int and int64 *)
  | VOther (text : string).

Definition eventTagEquals (v : tagvalue) (target : string) : bool :=
  match v with
  | VString x => String.eqb x target
  | VBool true => String.eqb target "true"
  | VBool false => String.eqb target "false"
  | VFloat64 text => String.eqb text target
  | VNumber token => String.eqb token target
  | VNil => String.eqb target "" || String.eqb target "null"
  | VInt z => String.eqb (FormatInt z) target
  | VOther text => String.eqb text target
  end.

(** [strings.Compare]. *)
Definition strings_Compare (a b : string) : Z :=
  match String.compare a b with Lt => -1 | Eq => 0 | Gt => 1 end.

Definition compare_value (v : tagvalue) (target : string) : option Z :=
  match v with
  | VString x => Some (strings_Compare x target)
  | VNumber token => CompareJSONNumbers token target
  | VFloat64 text => CompareJSONNumbers text target
  | VInt z => CompareJSONNumbers (FormatInt z) target
  | VBool _ | VNil | VOther _ => None
  end.

Definition MatchTagValue (value : tagvalue) (target operator : string) : bool :=
  match CanonicalTagOperator operator, value with
  | Err _, _ | _, VNil => false
  | Ok op, _ =>
      if String.eqb op "eq" then eventTagEquals value target
      else if String.eqb op "ne" then negb (eventTagEquals value target)
      else match compare_value value target with
           | None => false
           | Some cmp =>
               if String.eqb op "gt" then (0 <? cmp)%Z
               else if String.eqb op "gte" then (0 <=? cmp)%Z
               else if String.eqb op "lt" then (cmp <? 0)%Z
               else if String.eqb op "lte" then (cmp <=? 0)%Z
               else false
           end
  end.

(** ** Validity *)

Lemma CanonicalTagOperator_ok op c :
  CanonicalTagOperator op = Ok c →
  c ∈ ["eq"; "ne"; "gt"; "gte"; "lt"; "lte"] ∧ (c = op ∨ (c = "eq" ∧ op = "")).
Proof.
  unfold CanonicalTagOperator. intros H. repeat case_bool_decide; inv_ok; subst.
  - split; [set_solver|]. rewrite !elem_of_cons in H0. set_solver.
  - split; [|by left]. set_solver.
Qed.

Lemma ValidateTag_ok key value op :
  ValidateTag key value op = Ok tt ↔
  key ≠ "" ∧ contains_nul key = false ∧ contains_nul value = false
  ∧ ∃ c, CanonicalTagOperator op = Ok c.
Proof.
  unfold ValidateTag. destruct (String.eqb_spec key ""); [naive_solver|].
  destruct (contains_nul key), (contains_nul value); simpl; [naive_solver..|].
  destruct (CanonicalTagOperator op); naive_solver.
Qed.

Lemma ValidateTag_encoded key value op :
  ValidateTag key value (encoded_operator op) = ValidateTag key value op.
Proof.
  unfold ValidateTag, encoded_operator.
  destruct (String.eqb_spec op ""); [by subst|done].
Qed.

(** ** Encoding groups the tags by key *)

Definition tag_predicate (t : ReadTag) : TagPredicate :=
  mkTagPredicate (encoded_operator (Operator t)) (Value t).

Definition of_key (k : string) (tags : list ReadTag) : list ReadTag :=
  filter (λ t, Key t = k) tags.

Lemma fields_lookup tags fields k :
  foldl append_predicate fields tags !! k =
  match of_key k tags, fields !! k with
  | [], f => f
  | ts, f => Some (default [] f ++ (tag_predicate <$> ts))
  end.
Proof.
  revert fields. induction tags as [|t tags IH]; intros fields; [done|].
  simpl. rewrite IH. unfold of_key. rewrite filter_cons. unfold append_predicate.
  destruct (decide (Key t = k)) as [<-|Hne].
  - rewrite lookup_insert_eq. fold (of_key (Key t) tags).
    destruct (of_key (Key t) tags) as [|u us]; simpl; [done|].
    by rewrite <-(assoc_L (++)).
  - by rewrite lookup_insert_ne.
Qed.

Lemma EncodeCriterion_lookup tags k :
  EncodeCriterion tags !! k =
  match of_key k tags with
  | [] => None
  | ts => Some (encode_predicates (tag_predicate <$> ts))
  end.
Proof.
  unfold EncodeCriterion. rewrite lookup_fmap, fields_lookup.
  by destruct (of_key k tags).
Qed.

Lemma EncodeCriterion_lookup_Some tags k :
  of_key k tags ≠ [] →
  EncodeCriterion tags !! k
  = Some (encode_predicates (tag_predicate <$> of_key k tags)).
Proof. rewrite EncodeCriterion_lookup. by destruct (of_key k tags). Qed.

Lemma of_key_nonempty k tags : of_key k tags ≠ [] ↔ k ∈ Key <$> tags.
Proof.
  unfold of_key. rewrite list_elem_of_fmap. split.
  - intros Hne. destruct (filter _ tags) as [|t ts] eqn:E; [done|].
    assert (t ∈ filter (λ t, Key t = k) tags) as Ht by (rewrite E; left).
    apply list_elem_of_filter in Ht as [<- Ht]. eauto.
  - intros (t & -> & Ht) E. assert (t ∈ filter (λ u, Key u = Key t) tags) as Hin
      by (by apply list_elem_of_filter). rewrite E in Hin.
    by apply elem_of_nil in Hin.
Qed.

(** ** Decoding an encoded criterion *)

Section DecodeFacts.
Context `{J : GoJson}.

Definition valid_read_tag (t : ReadTag) : Prop :=
  ValidateTag (Key t) (Value t) (Operator t) = Ok tt ∧ Operator t ≠ "eq".

Lemma ValidateReadCriteria_valid criteria :
  (∀ c, c ∈ criteria → Forall valid_read_tag (Tags c)) →
  ValidateReadCriteria criteria = Ok tt.
Proof.
  induction criteria as [|c criteria IH]; intros H; [done|]. simpl.
  assert (Forall valid_read_tag (Tags c)) as Hc by (apply H; left).
  assert (validate_read_tags (Tags c) = Ok tt) as ->.
  { induction Hc as [|t ts [Ht _] _ IHt]; [done|]. simpl. by rewrite Ht. }
  simpl. apply IH. intros d Hd. apply H. by right.
Qed.

Lemma decode_encode_predicates ps :
  ps ≠ [] → DecodeTagPredicates (encode_predicates ps) = Ok ps.
Proof.
  destruct ps as [|[op v] [|q qs]]; [done| |done]. intros _. simpl.
  by destruct (String.eqb_spec op "eq") as [->|].
Qed.

Lemma decode_key_tags k ts :
  Forall valid_read_tag ts → Forall (λ t, Key t = k) ts →
  decode_key k (tag_predicate <$> ts) = Ok ts.
Proof.
  induction ts as [|t ts IH]; intros Hv Hk; [done|].
  apply Forall_cons in Hv as [[Hv Hop] Hvs]. apply Forall_cons in Hk as [Hk Hks].
  rewrite fmap_cons. cbn [decode_key]. unfold decode_predicate. simpl.
  rewrite ValidateTag_encoded. rewrite <-Hk at 1. rewrite Hv. simpl.
  rewrite IH by done. simpl. do 2 f_equal. destruct t as [key v op]. simpl in *.
  unfold encoded_operator. subst. f_equal.
  destruct (String.eqb_spec op ""); [by subst|].
  by destruct (String.eqb_spec op "eq").
Qed.

(** [g] is what storage makes of a field value: the identity in memory, the
JSON-decoded form after a write and a read. *)
Lemma decode_keys_concat (g : anyval → anyval) tags keys :
  (∀ ts, ts ⊆ tags → ts ≠ [] →
     DecodeTagPredicates (g (encode_predicates (tag_predicate <$> ts)))
     = Ok (tag_predicate <$> ts)) →
  Forall valid_read_tag tags → Forall (λ k, k ∈ Key <$> tags) keys →
  decode_keys (g <$> EncodeCriterion tags) keys
  = Ok (concat ((λ k, of_key k tags) <$> keys)).
Proof.
  intros Hg Hv. induction keys as [|k keys IH]; intros Hk; [done|].
  apply Forall_cons in Hk as [Hk Hks]. apply of_key_nonempty in Hk.
  cbn [decode_keys]. rewrite lookup_fmap, EncodeCriterion_lookup_Some by done.
  cbn [fmap option_fmap option_map]. rewrite default_Some, Hg; [| |done].
  - cbn [mbind result_bind]. rewrite decode_key_tags.
    + cbn [mbind result_bind]. rewrite IH by done. done.
    + unfold of_key. rewrite Forall_forall in *.
      intros u [_ ?]%list_elem_of_filter. auto.
    + unfold of_key. apply Forall_forall. by intros u [? _]%list_elem_of_filter.
  - unfold of_key. by intros u [_ ?]%list_elem_of_filter.
Qed.

Definition tag_key_le (x y : ReadTag) : Prop := String.le (Key x) (Key y).

(** In a list sorted by key, the tags of the least key come first. *)
Lemma sorted_split_least k (tags : list ReadTag) :
  StronglySorted tag_key_le tags →
  (∀ t, t ∈ tags → String.le k (Key t)) →
  tags = of_key k tags ++ filter (λ t, Key t ≠ k) tags.
Proof.
  induction 1 as [|t tags Hs IH Hf]; intros Hle; [done|]. unfold of_key in *.
  rewrite !filter_cons.
  destruct (decide (Key t = k)) as [<-|Hne].
  - rewrite decide_False by naive_solver. simpl. f_equal. apply IH.
    intros u Hu. apply Hle. by right.
  - rewrite (decide_True (P := Key t ≠ k)) by done.
    assert (filter (λ u, Key u = k) tags = []) as Hnil.
    { apply list_filter_none. intros u Hu Huk. apply Hne.
      rewrite Forall_forall in Hf. apply (anti_symm String.le).
      - rewrite <-Huk. by apply Hf.
      - apply Hle. left. }
    rewrite Hnil. simpl. f_equal. rewrite Hnil in IH. apply IH.
    intros u Hu. apply Hle. by right.
Qed.

Lemma concat_groups keys tags :
  StronglySorted String.le keys → NoDup keys → StronglySorted tag_key_le tags →
  (∀ t, t ∈ tags → Key t ∈ keys) →
  concat ((λ k, of_key k tags) <$> keys) = tags.
Proof.
  intros Hks. revert tags. induction Hks as [|k keys Hks IH Hk]; intros tags Hnd Hs Hin.
  - destruct tags as [|t tags]; [done|].
    assert (Key t ∈ ([] : list string)) as Ht by (apply Hin; left).
    by apply elem_of_nil in Ht.
  - apply NoDup_cons in Hnd as [Hnk Hnd]. simpl.
    assert (∀ t, t ∈ tags → String.le k (Key t)) as Hle.
    { intros t Ht. specialize (Hin t Ht). apply elem_of_cons in Hin as [->|Hin].
      - apply reflexivity.
      - rewrite Forall_forall in Hk. by apply Hk. }
    etransitivity; [|symmetry; exact (sorted_split_least k tags Hs Hle)]. f_equal.
    rewrite <-(IH (filter (λ t, Key t ≠ k) tags)); [|done| |].
    + f_equal. apply list_fmap_ext. intros i k' Hk'.
      assert (k' ≠ k) as Hne by (intros ->; apply list_elem_of_lookup_2 in Hk'; done).
      unfold of_key. rewrite list_filter_filter_l by naive_solver. done.
    + rewrite (sorted_split_least k tags Hs Hle) in Hs.
      eapply StronglySorted_app_1_r. exact Hs.
    + intros t [Hne Ht]%list_elem_of_filter. specialize (Hin t Ht).
      by apply elem_of_cons in Hin as [?|?].
Qed.

Lemma decode_stored_criterion (g : anyval → anyval) (tags : list ReadTag) :
  (∀ ts, ts ⊆ tags → ts ≠ [] →
     DecodeTagPredicates (g (encode_predicates (tag_predicate <$> ts)))
     = Ok (tag_predicate <$> ts)) →
  Forall valid_read_tag tags → StronglySorted tag_key_le tags →
  DecodeCriterion (g <$> EncodeCriterion tags) = Ok tags.
Proof.
  intros Hg Hv Hs. unfold DecodeCriterion.
  set (ks := (map_to_list (g <$> EncodeCriterion tags)).*1).
  assert (∀ k, k ∈ merge_sort String.le ks ↔ k ∈ Key <$> tags) as Hmem.
  { intros k. rewrite merge_sort_Permutation. unfold ks.
    rewrite list_elem_of_fmap. rewrite <-of_key_nonempty. split.
    - intros ([k' v] & -> & Hkv%elem_of_map_to_list).
      rewrite lookup_fmap, EncodeCriterion_lookup in Hkv. simpl.
      by destruct (of_key k' tags).
    - intros Hne. eexists (k, _). split; [done|]. apply elem_of_map_to_list.
      by rewrite lookup_fmap, EncodeCriterion_lookup_Some. }
  rewrite decode_keys_concat; [|done|done|by apply Forall_forall; intros k Hk; apply Hmem].
  f_equal. apply concat_groups; [apply (StronglySorted_merge_sort _)| |done|].
  - rewrite merge_sort_Permutation. apply NoDup_fst_map_to_list.
  - intros t Ht. apply Hmem, list_elem_of_fmap. eauto.
Qed.

(** Round trip of the durable criterion encoding. Reading back an encoded
criterion ([DecodeCriterion] after [EncodeCriterion]) gives exactly the tags
that were written, in order, when they are valid, sorted by key and spell
equality as the empty operator, as normalized consistency checks do: repeated
keys and range operators included. *)
Theorem criterion_roundtrip (tags : list ReadTag) :
  Forall valid_read_tag tags → StronglySorted tag_key_le tags →
  DecodeCriterion (EncodeCriterion tags) = Ok tags.
Proof.
  intros Hv Hs. rewrite <-(map_fmap_id (EncodeCriterion tags)).
  apply decode_stored_criterion; [|done|done]. intros ts _ Hne. simpl.
  apply decode_encode_predicates. by destruct ts.
Qed.

End DecodeFacts.

(** ** Range operators decide the order of the numbers *)

(** The four range operators on a stored JSON number hold exactly as the
rational numbers denoted by the stored token and by the target compare; with a
target that is not a JSON number none of them holds. *)
Theorem MatchTagValue_number_order (m : number) (target : string) :
  wf_num m →
  (∀ n, wf_num n → target = print_number n →
    let match_op := MatchTagValue (VNumber (print_number m)) target in
    (match_op "gt" = true ↔ (number_value n < number_value m)%Q)
    ∧ (match_op "gte" = true ↔ (number_value n <= number_value m)%Q)
    ∧ (match_op "lt" = true ↔ (number_value m < number_value n)%Q)
    ∧ (match_op "lte" = true ↔ (number_value m <= number_value n)%Q))
  ∧ (jsonNumberPattern target = false → ∀ op, op ∈ ["gt"; "gte"; "lt"; "lte"] →
     MatchTagValue (VNumber (print_number m)) target op = false).
Proof.
  intros Hm. split.
  - intros n Hn -> match_op. unfold match_op, MatchTagValue. simpl.
    rewrite (CompareJSONNumbers_print m n Hm Hn).
    rewrite !Qlt_alt, !Qle_alt. rewrite <-(Qcompare_antisym (number_value m)).
    destruct (number_value m ?= number_value n)%Q; simpl; naive_solver.
  - intros Hp op Hop. unfold MatchTagValue, compare_value, CompareJSONNumbers.
    rewrite (decimalParts_none target Hp).
    rewrite !elem_of_cons, elem_of_nil in Hop.
    destruct Hop as [->|[->|[->|[->|[]]]]]; simpl;
      by destruct (decimalParts (print_number m)) as [[[] ]|].
Qed.

(** ** Witnesses *)

Definition example_tags : list ReadTag :=
  [mkReadTag "amount" "10" "gte"; mkReadTag "amount" "20" "lt";
   mkReadTag "order" "o-1" ""].

Lemma criterion_roundtrip_witness :
  @DecodeCriterion example_json (EncodeCriterion example_tags) = Ok example_tags.
Proof.
  apply (@criterion_roundtrip example_json).
  - repeat apply Forall_cons_2; try (by apply Forall_nil_2); by split.
  - repeat constructor; by vm_compute.
Defined.

Lemma MatchTagValue_number_order_witness :
  MatchTagValue (VNumber "9007199254740993") "9007199254740992.0e0" "gt" = true.
Proof.
  pose (m := mkNumber false "9007199254740993" None None).
  pose (n := mkNumber false "9007199254740992" (Some "0") (Some (mkExponent "e" "" "0"))).
  assert (wf_num m) as Hm by (by apply wf_number_spec).
  assert (wf_num n) as Hn by (by apply wf_number_spec).
  destruct (MatchTagValue_number_order m "9007199254740992.0e0" Hm) as [H _].
  destruct (H n Hn eq_refl) as [Hgt _]. apply Hgt. unfold Qlt. by vm_compute.
Defined.
