(* ===== verification/Consistency.v ===== *)
(** * Consistency observations: [orisun/consistency.go]

Validation and normalization of the query observations of a save: equal queries
get one key, whatever the order and repetition of their criteria and tags. *)

From stdpp Require Import options.
From S2P Require Import Prelude Status Model Number Json Predicates.

Definition maxConsistencyObservations : Z := 1024.
Definition maxConsistencyCriteria : Z := 4096.
Definition maxConsistencyTags : Z := 16384.

Definition validateConsistencyPosition (position : Position) : result unit :=
  if decide (position = NotExistsPosition) then Ok tt
  else if (CommitPosition position <? 0)%Z || (PreparePosition position <? 0)%Z
  then Err (PlainError "position must be non-negative or exactly (-1, -1)")
  else Ok tt.

(** ** Normalizing one query *)

(** [fmt.Sprintf("%d:%s%d:%s%d:%s", len(key), key, len(op), op, len(value), value)]. *)
Definition tag_identity (key operator value : string) : string :=
  len_prefixed key +:+ len_prefixed operator +:+ len_prefixed value.

(** The loop over the tags of one criterion: the predicates by identity, and the
equalities seen so far by key. *)
Fixpoint normalize_tags (tags : list (option Tag))
    (predicates : gmap string ReadTag) (equalities : gmap string string)
  : result (gmap string ReadTag) :=
  match tags with
  | [] => Ok predicates
  | None :: _ => Err (PlainError "criterion %d tag %d is nil")
  | Some tag :: tags =>
      _ ← ValidateTag (Tag_Key tag) (Tag_Value tag) (Tag_Operator tag);
      let operator :=
        match CanonicalTagOperator (Tag_Operator tag) with Ok o => o | Err _ => "" end in
      let insert_predicate op :=
        <[tag_identity (Tag_Key tag) op (Tag_Value tag)
          := mkReadTag (Tag_Key tag) (Tag_Value tag) op]> predicates in
      if String.eqb operator "eq" then
        match equalities !! Tag_Key tag with
        | Some previous =>
            if String.eqb previous (Tag_Value tag)
            then normalize_tags tags (insert_predicate "")
                   (<[Tag_Key tag := Tag_Value tag]> equalities)
            else Err (PlainError "criterion %d repeats key %q with a different value")
        | None => normalize_tags tags (insert_predicate "")
                    (<[Tag_Key tag := Tag_Value tag]> equalities)
        end
      else normalize_tags tags (insert_predicate operator) equalities
  end.

(** The comparison function of [sort.Slice]. *)
Definition tag_less (a b : ReadTag) : bool :=
  if negb (String.eqb (Key a) (Key b)) then String.ltb (Key a) (Key b)
  else if negb (String.eqb (Operator a) (Operator b))
  then String.ltb (Operator a) (Operator b)
  else String.ltb (Value a) (Value b).

Definition tag_le (a b : ReadTag) : Prop := tag_less b a = false.
#[export] Instance tag_le_dec : RelDecision tag_le.
Proof. intros a b. unfold tag_le. apply _. Defined.

Definition normalized_tags (predicates : gmap string ReadTag) : list ReadTag :=
  merge_sort tag_le (map_to_list predicates).*2.

Fixpoint criterion_key (tags : list ReadTag) : string :=
  match tags with
  | [] => ""
  | t :: tags => tag_identity (Key t) (Operator t) (Value t) +:+ criterion_key tags
  end.

(** The loop over the criteria. *)
Fixpoint normalize_criteria (criteria : list (option Criterion))
    (criteriaByKey : gmap string ReadCriterion) (keys : list string)
  : result (gmap string ReadCriterion * list string) :=
  match criteria with
  | [] => Ok (criteriaByKey, keys)
  | None :: _ => Err (PlainError "criterion %d has no tags")
  | Some criterion :: criteria =>
      if bool_decide (Criterion_Tags criterion = [])
      then Err (PlainError "criterion %d has no tags")
      else
        predicates ← normalize_tags (Criterion_Tags criterion) ∅ ∅;
        let normalized := normalized_tags predicates in
        let key := criterion_key normalized in
        if bool_decide (is_Some (criteriaByKey !! key))
        then normalize_criteria criteria criteriaByKey keys
        else normalize_criteria criteria
               (<[key := mkReadCriterion normalized]> criteriaByKey) (keys ++ [key])
  end.

Fixpoint query_key (keys : list string) : string :=
  match keys with
  | [] => ""
  | key :: keys => len_prefixed key +:+ query_key keys
  end.

Definition normalizeConsistencyQuery (query : option Query)
  : result (list ReadCriterion * string) :=
  match query with
  | None => Err (PlainError "query must contain at least one criterion")
  | Some q =>
      if bool_decide (Query_Criteria q = [])
      then Err (PlainError "query must contain at least one criterion")
      else
        '(criteriaByKey, keys) ← normalize_criteria (Query_Criteria q) ∅ [];
        let keys := merge_sort String.le keys in
        let criteria :=
          (λ key, default (mkReadCriterion []) (criteriaByKey !! key)) <$> keys in
        mret (criteria, query_key keys)
  end.

(** ** From observations to checks *)

Record check_state := mkCheckState {
  cs_checks : list ConsistencyCheck;
  cs_seen : gmap string Position;
  cs_totalCriteria : Z;
  cs_totalTags : Z }.

(** The inner loop that counts tags: [None] when the limit is passed. *)
Fixpoint count_tags (criteria : list (option Criterion)) (total : Z) : option Z :=
  match criteria with
  | [] => Some total
  | None :: criteria => count_tags criteria total
  | Some c :: criteria =>
      let total := (total + Z.of_nat (length (Criterion_Tags c)))%Z in
      if (maxConsistencyTags <? total)%Z then None else count_tags criteria total
  end.

(** The counters after one observation, or the limit that was passed. *)
Definition count_query (query : option Query) (totalCriteria totalTags : Z)
  : result (Z * Z) :=
  match query with
  | None => Ok (totalCriteria, totalTags)
  | Some q =>
      let totalCriteria :=
        (totalCriteria + Z.of_nat (length (Query_Criteria q)))%Z in
      if (maxConsistencyCriteria <? totalCriteria)%Z
      then Err (Errorf InvalidArgument "consistency has more than %d criteria")
      else match count_tags (Query_Criteria q) totalTags with
           | None => Err (Errorf InvalidArgument "consistency has more than %d tags")
           | Some totalTags => Ok (totalCriteria, totalTags)
           end
  end.

(** One iteration of the loop over the observations. *)
Definition check_observation (st : check_state) (observation : option ConsistencyObservation)
  : result check_state :=
  match observation with
  | None => Err (Errorf InvalidArgument "consistency observation %d is nil")
  | Some o =>
      match Obs_Position o with
      | None => Err (Errorf InvalidArgument "consistency observation %d has no position")
      | Some position =>
          match validateConsistencyPosition position with
          | Err _ => Err (Errorf InvalidArgument "consistency observation %d: %v")
          | Ok _ =>
              '(totalCriteria, totalTags) ←
                count_query (Obs_Query o) (cs_totalCriteria st) (cs_totalTags st);
              match normalizeConsistencyQuery (Obs_Query o) with
              | Err _ => Err (Errorf InvalidArgument "consistency observation %d: %v")
              | Ok (criteria, key) =>
                  match cs_seen st !! key with
                  | Some previous =>
                      if decide (previous = position)
                      then Ok (mkCheckState (cs_checks st) (cs_seen st)
                                 totalCriteria totalTags)
                      else Err (Errorf InvalidArgument
                        "consistency observation %d contradicts an earlier observation for the same query")
                  | None =>
                      Ok (mkCheckState
                            (cs_checks st ++ [mkConsistencyCheck criteria position])
                            (<[key := position]> (cs_seen st))
                            totalCriteria totalTags)
                  end
              end
          end
      end
  end.

Fixpoint check_observations (st : check_state)
    (observations : list (option ConsistencyObservation)) : result check_state :=
  match observations with
  | [] => Ok st
  | o :: observations => st ← check_observation st o; check_observations st observations
  end.

Definition ConsistencyChecksFromObservations
    (observations : list (option ConsistencyObservation))
  : result (list ConsistencyCheck) :=
  if (maxConsistencyObservations <? Z.of_nat (length observations))%Z
  then Err (Errorf InvalidArgument "consistency has %d observations, maximum is %d")
  else cs_checks <$> check_observations (mkCheckState [] ∅ 0 0) observations.

(** ** The order of tags *)

Lemma ltb_not_le (s t : string) : String.ltb s t = true ↔ ¬ String.le t s.
Proof.
  unfold String.le, String.ltb, String.leb. rewrite String.compare_antisym.
  destruct (String.compare t s); simpl; naive_solver.
Qed.

Lemma ltb_false_le (s t : string) : String.ltb s t = false ↔ String.le t s.
Proof.
  rewrite <-not_true_iff_false, ltb_not_le. split; [apply dec_stable|by intros ? ?].
Qed.

Lemma tag_le_spec a b :
  tag_le a b ↔
  (Key a ≠ Key b ∧ String.le (Key a) (Key b))
  ∨ (Key a = Key b ∧ Operator a ≠ Operator b ∧ String.le (Operator a) (Operator b))
  ∨ (Key a = Key b ∧ Operator a = Operator b ∧ String.le (Value a) (Value b)).
Proof.
  unfold tag_le, tag_less.
  destruct (String.eqb_spec (Key b) (Key a)) as [Hk|Hk]; simpl.
  - destruct (String.eqb_spec (Operator b) (Operator a)) as [Ho|Ho]; simpl;
      rewrite ltb_false_le; naive_solver.
  - rewrite ltb_false_le. naive_solver.
Qed.

#[export] Instance tag_le_trans : Transitive tag_le.
Proof.
  intros a b c. rewrite !tag_le_spec.
  assert (∀ x y z : string, String.le x y → String.le y z → String.le x z) as T
    by (intros x y z; apply transitivity).
  assert (∀ x y : string, String.le x y → String.le y x → x = y) as A
    by (intros x y; apply (anti_symm String.le)).
  intros [[? ?]|[(?&?&?)|(?&?&?)]] [[? ?]|[(?&?&?)|(?&?&?)]];
    repeat match goal with H : _ = _ |- _ => rewrite H in *; clear H end;
    first
    [ left; split; [|by eauto]; intros E; rewrite E in *; by eauto
    | right; left; split_and!; [done|intros E; rewrite E in *; by eauto|by eauto]
    | right; right; split_and!; by eauto ].
Qed.

#[export] Instance tag_le_total : Total tag_le.
Proof.
  intros a b. rewrite !tag_le_spec.
  destruct (decide (Key a = Key b)), (decide (Operator a = Operator b)).
  - destruct (total String.le (Value a) (Value b)); naive_solver.
  - destruct (total String.le (Operator a) (Operator b)); naive_solver.
  - destruct (total String.le (Key a) (Key b)); naive_solver.
  - destruct (total String.le (Key a) (Key b)); naive_solver.
Qed.

#[export] Instance tag_le_antisym : AntiSymm (=) tag_le.
Proof.
  intros [ka va oa] [kb vb ob]. rewrite !tag_le_spec. simpl.
  assert (∀ x y : string, String.le x y → String.le y x → x = y) as A
    by (intros x y; apply (anti_symm String.le)).
  intros [[? ?]|[(?&?&?)|(?&?&?)]] [[? ?]|[(?&?&?)|(?&?&?)]];
    subst; try done; first [by destruct (A ka kb) | by destruct (A oa ob) | f_equal; auto].
Qed.

(** Two sorted lists without repetition and with the same elements are equal. *)
Lemma sorted_set_unique {A} (R : relation A) `{!Transitive R, !AntiSymm (=) R}
    (l k : list A) :
  StronglySorted R l → StronglySorted R k → NoDup l → NoDup k →
  (∀ x, x ∈ l ↔ x ∈ k) → l = k.
Proof.
  intros Hl Hk Nl Nk Hm. apply (StronglySorted_unique R); [done..|].
  by apply NoDup_Permutation.
Qed.

(** ** Keys decode uniquely *)

Lemma tag_identity_inj k o v k' o' v' x y :
  tag_identity k o v +:+ x = tag_identity k' o' v' +:+ y →
  k = k' ∧ o = o' ∧ v = v' ∧ x = y.
Proof.
  unfold tag_identity. rewrite !string_app_assoc. intros H.
  apply len_prefixed_inj in H as [-> H]. apply len_prefixed_inj in H as [-> H].
  by apply len_prefixed_inj in H as [-> ->].
Qed.

#[export] Instance criterion_key_inj : Inj (=) (=) criterion_key.
Proof.
  intros l. induction l as [|[k v o] l IH]; intros [|[k' v' o'] l']; simpl; [done| | |].
  - unfold tag_identity. rewrite !string_app_assoc. intros H. symmetry in H.
    by apply len_prefixed_nonempty in H.
  - unfold tag_identity. rewrite !string_app_assoc. intros H.
    by apply len_prefixed_nonempty in H.
  - intros H. apply tag_identity_inj in H as (-> & -> & -> & H). f_equal. by apply IH.
Qed.

#[export] Instance read_criterion_key_inj :
  Inj (=) (=) (λ c, criterion_key (Tags c)).
Proof. intros [x] [y] E%(inj criterion_key). simpl in E. by f_equal. Qed.

#[export] Instance query_key_inj : Inj (=) (=) query_key.
Proof.
  intros l. induction l as [|k l IH]; intros [|k' l']; simpl; [done| | |].
  - intros H. symmetry in H. by apply len_prefixed_nonempty in H.
  - intros H. by apply len_prefixed_nonempty in H.
  - intros H. apply len_prefixed_inj in H as [-> H]. f_equal. by apply IH.
Qed.

(** ** What the tag loop collects *)

Definition canonical_operator (op : string) : string :=
  if String.eqb op "eq" then "" else op.

Definition canonical_tag (t : Tag) : ReadTag :=
  mkReadTag (Tag_Key t) (Tag_Value t) (canonical_operator (Tag_Operator t)).

(** The tags of a criterion that are not nil; an accepted criterion has no other. *)
Definition present_tags (c : Criterion) : list Tag := omap (λ t, t) (Criterion_Tags c).
Definition canonical_tags (c : Criterion) : list ReadTag :=
  canonical_tag <$> present_tags c.
Definition present_criteria (q : Query) : list Criterion :=
  omap (λ c, c) (Query_Criteria q).

Definition identity_of (t : ReadTag) : string :=
  tag_identity (Key t) (Operator t) (Value t).

Definition insert_tag (p : gmap string ReadTag) (t : Tag) : gmap string ReadTag :=
  <[identity_of (canonical_tag t) := canonical_tag t]> p.

Lemma normalize_tags_ok tags p e p' :
  normalize_tags tags p e = Ok p' →
  p' = foldl insert_tag p (omap (λ t, t) tags)
  ∧ Forall (λ t, ∃ u, t = Some u
      ∧ ValidateTag (Tag_Key u) (Tag_Value u) (Tag_Operator u) = Ok tt) tags.
Proof.
  revert p e. induction tags as [|[t|] tags IH]; intros p e; simpl; [|intros H|done].
  { intros [= <-]. by split. }
  apply result_bind_ok in H as ([] & Hv & H).
  assert (∃ o, CanonicalTagOperator (Tag_Operator t) = Ok o) as [o Ho]
    by (by apply ValidateTag_ok in Hv as (_ & _ & _ & ?)).
  rewrite Ho in H.
  assert (insert_tag p t =
    <[tag_identity (Tag_Key t) (if String.eqb o "eq" then "" else o) (Tag_Value t)
      := mkReadTag (Tag_Key t) (Tag_Value t) (if String.eqb o "eq" then "" else o)]> p)
    as Hins.
  { unfold insert_tag, canonical_tag, identity_of, canonical_operator. simpl.
    apply CanonicalTagOperator_ok in Ho as [_ [->|[-> ->]]]; done. }
  assert (∃ e', normalize_tags tags (insert_tag p t) e' = Ok p') as [e' H'].
  { rewrite Hins. destruct (String.eqb o "eq"); [|by eexists].
    destruct (e !! Tag_Key t) as [prev|]; [|by eexists].
    destruct (String.eqb prev (Tag_Value t)); [by eexists|done]. }
  apply IH in H' as [-> HF]. split; [done|]. constructor; [by eexists|done].
Qed.

Lemma insert_tags_lookup ts p id u :
  (∀ i w, p !! i = Some w → i = identity_of w) →
  foldl insert_tag p ts !! id = Some u ↔
  id = identity_of u ∧ (u ∈ canonical_tag <$> ts ∨ p !! id = Some u).
Proof.
  revert p. induction ts as [|t ts IH]; intros p Hp; simpl.
  - rewrite elem_of_nil. split; [|by intros [_ [[]|?]]]. intros H. auto.
  - rewrite IH.
    + unfold insert_tag. rewrite elem_of_cons.
      destruct (decide (id = identity_of (canonical_tag t))) as [->|Hne].
      * rewrite lookup_insert_eq. split.
        -- intros [Hid [?|?]]; [naive_solver|]. simplify_eq. auto.
        -- intros [Hid [[->|?]|H]]; [auto..|]. split; [done|].
           assert (u = canonical_tag t) as ->; [|by right].
           assert (identity_of (canonical_tag t) +:+ "" = identity_of u +:+ "") as Hi
             by (by rewrite Hid).
           apply tag_identity_inj in Hi as (? & ? & ? & _).
           destruct u, (canonical_tag t); simpl in *; by subst.
      * rewrite lookup_insert_ne by done. naive_solver.
    + intros i w. unfold insert_tag.
      destruct (decide (i = identity_of (canonical_tag t))) as [->|Hne].
      * rewrite lookup_insert_eq. by intros [= <-].
      * rewrite lookup_insert_ne by done. apply Hp.
Qed.

(** The normal form of a criterion: its canonical tags, sorted, without repetition. *)
Definition normal_criterion (c : Criterion) : ReadCriterion :=
  mkReadCriterion (normalized_tags (foldl insert_tag ∅ (present_tags c))).

Lemma normal_criterion_spec c :
  (∀ t, t ∈ Tags (normal_criterion c) ↔ t ∈ canonical_tags c)
  ∧ NoDup (Tags (normal_criterion c))
  ∧ StronglySorted tag_le (Tags (normal_criterion c)).
Proof.
  unfold normal_criterion, normalized_tags. simpl.
  set (p := foldl insert_tag ∅ (present_tags c)).
  assert (∀ id u, p !! id = Some u ↔ id = identity_of u ∧ u ∈ canonical_tags c) as Hp.
  { intros id u. unfold p. rewrite insert_tags_lookup by done.
    rewrite lookup_empty. naive_solver. }
  split_and!.
  - intros t. rewrite merge_sort_Permutation, list_elem_of_fmap. split.
    + intros ([id u] & -> & H%elem_of_map_to_list). by apply Hp in H as [_ ?].
    + intros Ht. exists (identity_of t, t). split; [done|].
      apply elem_of_map_to_list. by apply Hp.
  - rewrite merge_sort_Permutation. apply NoDup_fmap_2_strong; [|apply NoDup_map_to_list].
    intros [i u] [j w] Hi%elem_of_map_to_list Hj%elem_of_map_to_list. simpl.
    intros <-. apply Hp in Hi as [-> _], Hj as [-> _]. done.
  - apply (StronglySorted_merge_sort _).
Qed.

Lemma normal_criterion_eq c d :
  normal_criterion c = normal_criterion d ↔
  (∀ t, t ∈ canonical_tags c ↔ t ∈ canonical_tags d).
Proof.
  destruct (normal_criterion_spec c) as (Mc & Nc & Sc).
  destruct (normal_criterion_spec d) as (Md & Nd & Sd). split.
  - intros E t. by rewrite <-Mc, <-Md, E.
  - intros E. destruct (normal_criterion c) as [lc], (normal_criterion d) as [ld].
    simpl in *. f_equal. apply (sorted_set_unique tag_le); [done..|].
    intros t. by rewrite Mc, Md.
Qed.

(** ** What the criterion loop collects *)

(** The state of the loop: [keys] lists the keys of [m] once, each the key of its
criterion. *)
Record criteria_inv (m : gmap string ReadCriterion) (keys : list string) : Prop := {
  ci_keys k : k ∈ keys ↔ is_Some (m !! k);
  ci_NoDup : NoDup keys;
  ci_key k c : m !! k = Some c → k = criterion_key (Tags c) }.

Definition valid_criterion (c : option Criterion) : Prop :=
  ∃ d, c = Some d ∧ Criterion_Tags d ≠ []
    ∧ Forall (λ t, ∃ u, t = Some u
        ∧ ValidateTag (Tag_Key u) (Tag_Value u) (Tag_Operator u) = Ok tt)
        (Criterion_Tags d).

Lemma criteria_inv_insert m keys c :
  criteria_inv m keys → m !! criterion_key (Tags c) = None →
  criteria_inv (<[criterion_key (Tags c) := c]> m) (keys ++ [criterion_key (Tags c)]).
Proof.
  intros [Hk Hn Hc] Hnone. split.
  - intros k. rewrite elem_of_app, list_elem_of_singleton, Hk.
    destruct (decide (k = criterion_key (Tags c))) as [->|Hne].
    + rewrite lookup_insert_eq. naive_solver.
    + rewrite lookup_insert_ne by done. naive_solver.
  - apply NoDup_app. split_and!; [done| |apply NoDup_singleton].
    intros k Hin%Hk ->%list_elem_of_singleton. rewrite Hnone in Hin.
    by destruct Hin.
  - intros k d. destruct (decide (k = criterion_key (Tags c))) as [->|Hne].
    + rewrite lookup_insert_eq. by intros [= <-].
    + rewrite lookup_insert_ne by done. apply Hc.
Qed.

Lemma normalize_criteria_ok criteria m keys m' keys' :
  normalize_criteria criteria m keys = Ok (m', keys') → criteria_inv m keys →
  criteria_inv m' keys' ∧ Forall valid_criterion criteria
  ∧ (∀ c, m' !! criterion_key (Tags c) = Some c ↔
       m !! criterion_key (Tags c) = Some c
       ∨ c ∈ normal_criterion <$> omap (λ x, x) criteria).
Proof.
  revert m keys. induction criteria as [|[d|] criteria IH]; intros m keys H Hinv;
    simpl in H; [| |done].
  { inv_ok. simplify_eq. split_and!; [done..|]. intros c.
    change (omap _ _) with ([] : list Criterion).
    rewrite fmap_nil, elem_of_nil. naive_solver. }
  case_bool_decide as Hd; [done|]. inv_ok.
  apply normalize_tags_ok in H0 as [-> HF].
  fold (present_tags d) in H. set (p := foldl insert_tag ∅ (present_tags d)) in *.
  change (normalized_tags p) with (Tags (normal_criterion d)) in H.
  assert (valid_criterion (Some d)) as Hvd by (by exists d).
  change (omap (λ x, x) (Some d :: criteria)) with (d :: omap (λ x, x) criteria).
  case_bool_decide as Hdup.
  - apply IH in H as (Hi & Hv & Hm); [|done]. split_and!; [done|by constructor|].
    intros c. rewrite Hm, fmap_cons, elem_of_cons. split; [naive_solver|].
    intros [?|[->|?]]; [by left| |by right]. left.
    destruct Hdup as [c' Hc']. rewrite Hc'. f_equal.
    apply (ci_key _ _ Hinv) in Hc' as Hk. by apply (inj (λ c, criterion_key (Tags c))) in Hk.
  - apply eq_None_not_Some in Hdup.
    change (mkReadCriterion (Tags (normal_criterion d))) with (normal_criterion d) in H.
    apply IH in H as (Hi & Hv & Hm); [|by apply criteria_inv_insert].
    split_and!; [done|by constructor|]. intros c.
    rewrite Hm, fmap_cons, elem_of_cons.
    destruct (decide (criterion_key (Tags c) = criterion_key (Tags (normal_criterion d))))
      as [Hk|Hne].
    + rewrite Hk, lookup_insert_eq. apply (inj criterion_key) in Hk.
      assert (c = normal_criterion d) as ->.
      { destruct c, (normal_criterion d). simpl in *. by subst. }
      rewrite Hdup. naive_solver.
    + rewrite lookup_insert_ne by done. naive_solver.
Qed.

(** ** Normal form of a query *)

Lemma normalizeConsistencyQuery_ok q cs key :
  normalizeConsistencyQuery (Some q) = Ok (cs, key) →
  Query_Criteria q ≠ [] ∧ Forall valid_criterion (Query_Criteria q)
  ∧ (∀ c, c ∈ cs ↔ c ∈ normal_criterion <$> present_criteria q)
  ∧ NoDup cs
  ∧ ∃ keys, keys = (λ c, criterion_key (Tags c)) <$> cs ∧ key = query_key keys
      ∧ StronglySorted String.le keys.
Proof.
  unfold normalizeConsistencyQuery. case_bool_decide as Hq; [done|]. intros H.
  inv_ok. destruct x as [m keys]. unfold mret, result_ret in H. inv_ok. simplify_eq.
  apply normalize_criteria_ok in H0 as (Hi & Hv & Hm);
    [|split; [intros k; rewrite elem_of_nil, lookup_empty;
        split; [done|by intros [? ?]]|constructor|done]].
  destruct Hi as [Hk Hn Hc]. fold (present_criteria q) in Hm.
  set (cs := (λ key, default (mkReadCriterion []) (m !! key)) <$> merge_sort String.le keys).
  assert (∀ k, k ∈ keys → ∃ c, m !! k = Some c ∧ k = criterion_key (Tags c)) as Hkc.
  { intros k Hin. apply Hk in Hin as [c Hkc]. eauto. }
  assert (merge_sort String.le keys = (λ c, criterion_key (Tags c)) <$> cs) as Hks.
  { unfold cs. rewrite <-list_fmap_compose.
    rewrite <-(list_fmap_id (merge_sort String.le keys)) at 1.
    apply list_fmap_ext. intros i k Hik. apply list_elem_of_lookup_2 in Hik.
    rewrite merge_sort_Permutation in Hik. destruct (Hkc k Hik) as (c & E & ->).
    simpl. by rewrite E. }
  split_and!; [done|done| | |].
  - intros c. unfold cs. rewrite list_elem_of_fmap.
    setoid_rewrite merge_sort_Permutation. split.
    + intros (k & -> & Hin). destruct (Hkc k Hin) as (c & E & Hkey).
      rewrite E, default_Some. rewrite Hkey in E.
      apply Hm in E as [E|?]; [|done]. by rewrite lookup_empty in E.
    + intros Hin. exists (criterion_key (Tags c)).
      assert (m !! criterion_key (Tags c) = Some c) as E by (apply Hm; by right).
      rewrite E. split; [done|]. apply Hk. eauto.
  - apply (NoDup_fmap_1 (λ c, criterion_key (Tags c))). rewrite <-Hks.
    by rewrite merge_sort_Permutation.
  - exists (merge_sort String.le keys). split_and!; [done|done|].
    apply (StronglySorted_merge_sort _).
Qed.

(** Two queries denote the same set of criteria, each a set of tags. *)
Definition same_query (p q : Query) : Prop :=
  (∀ c, c ∈ present_criteria p → ∃ d, d ∈ present_criteria q
     ∧ ∀ t, t ∈ canonical_tags c ↔ t ∈ canonical_tags d)
  ∧ (∀ d, d ∈ present_criteria q → ∃ c, c ∈ present_criteria p
     ∧ ∀ t, t ∈ canonical_tags c ↔ t ∈ canonical_tags d).

Lemma same_query_normal p q :
  same_query p q ↔
  ∀ c, c ∈ normal_criterion <$> present_criteria p
     ↔ c ∈ normal_criterion <$> present_criteria q.
Proof.
  setoid_rewrite list_elem_of_fmap. unfold same_query.
  setoid_rewrite <-normal_criterion_eq. split.
  - intros [H1 H2] c. split.
    + intros (d & -> & Hd). destruct (H1 d Hd) as (e & ? & ->). eauto.
    + intros (d & -> & Hd). destruct (H2 d Hd) as (e & ? & <-). eauto.
  - intros H. split.
    + intros c Hc. destruct (H (normal_criterion c)) as [(d & ? & ?) _]; eauto.
    + intros d Hd. destruct (H (normal_criterion d)) as [_ (c & ? & ?)]; eauto.
Qed.

(** C22: normalization decides equality of queries. Two accepted queries get the
same key exactly when they denote the same set of sets of tags (whatever the
order, the repetitions and the spelling of equality), and then they are replaced
by the same list of criteria. *)
Theorem normalize_canonical p q cs ds k l :
  normalizeConsistencyQuery (Some p) = Ok (cs, k) →
  normalizeConsistencyQuery (Some q) = Ok (ds, l) →
  (k = l ↔ same_query p q) ∧ (cs = ds ↔ same_query p q).
Proof.
  intros Hp%normalizeConsistencyQuery_ok Hq%normalizeConsistencyQuery_ok.
  destruct Hp as (_ & _ & Mc & Nc & ks & Hks & -> & Sc).
  destruct Hq as (_ & _ & Md & Nd & ls & Hls & -> & Sd).
  assert (query_key ks = query_key ls ↔ cs = ds) as ->.
  { rewrite Hks, Hls. split; [|by intros ->].
    by intros E%(inj query_key)%(inj (fmap (M:=list) (λ c, criterion_key (Tags c)))). }
  assert (cs = ds ↔ same_query p q) as ?; [|done].
  rewrite same_query_normal. setoid_rewrite <-Mc. setoid_rewrite <-Md.
  split; [by intros ->|]. intros Hm.
  apply (inj (fmap (M:=list) (λ c, criterion_key (Tags c)))). rewrite <-Hks, <-Hls.
  apply (sorted_set_unique String.le); [done|done| | |].
  - rewrite Hks. by apply (NoDup_fmap_2 (λ c, criterion_key (Tags c))).
  - rewrite Hls. by apply (NoDup_fmap_2 (λ c, criterion_key (Tags c))).
  - intros x. rewrite Hks, Hls, !list_elem_of_fmap. naive_solver.
Qed.

(** ** Normalization keeps the meaning of the query *)

(** A tag against the fields of an event, by [MatchTagValue]. *)
Definition tag_holds (doc : gmap string tagvalue) (key value operator : string) : bool :=
  match doc !! key with
  | Some v => MatchTagValue v value operator
  | None => false
  end.

Definition read_criterion_holds (doc : gmap string tagvalue) (c : ReadCriterion) : bool :=
  forallb (λ t, tag_holds doc (Key t) (Value t) (Operator t)) (Tags c).

Definition criterion_holds (doc : gmap string tagvalue) (c : Criterion) : bool :=
  forallb (λ t, tag_holds doc (Tag_Key t) (Tag_Value t) (Tag_Operator t))
    (present_tags c).

Lemma tag_holds_canonical doc t :
  tag_holds doc (Key (canonical_tag t)) (Value (canonical_tag t))
    (Operator (canonical_tag t))
  = tag_holds doc (Tag_Key t) (Tag_Value t) (Tag_Operator t).
Proof.
  unfold tag_holds, canonical_tag, canonical_operator. simpl.
  destruct (doc !! Tag_Key t) as [v|]; [|done].
  by destruct (String.eqb_spec (Tag_Operator t) "eq") as [->|].
Qed.

Lemma normal_criterion_holds doc c :
  read_criterion_holds doc (normal_criterion c) = criterion_holds doc c.
Proof.
  unfold read_criterion_holds, criterion_holds.
  rewrite (forallb_ext_elem _ _ (canonical_tags c));
    [|intros t; apply (normal_criterion_spec c)].
  unfold canonical_tags. induction (present_tags c) as [|t ts IH]; [done|].
  rewrite fmap_cons. simpl. by rewrite IH, <-tag_holds_canonical.
Qed.

(** An accepted query keeps its meaning. On every document of typed field
values, the normalized criteria hold exactly when the criteria the client sent
hold. *)
Theorem normalize_semantics q cs key doc :
  normalizeConsistencyQuery (Some q) = Ok (cs, key) →
  existsb (read_criterion_holds doc) cs
  = existsb (criterion_holds doc) (present_criteria q).
Proof.
  intros (_ & _ & Hm & _)%normalizeConsistencyQuery_ok. apply existsb_ext_elem.
  - intros c Hc%Hm Hh. apply list_elem_of_fmap in Hc as (d & -> & Hd).
    exists d. by rewrite <-normal_criterion_holds.
  - intros d Hd Hh. exists (normal_criterion d). rewrite normal_criterion_holds.
    split; [|done]. apply Hm, list_elem_of_fmap. eauto.
Qed.

(** ** Observations *)

(** The observation with its parts present and valid, and its normalized query. *)
Definition observes (o : option ConsistencyObservation) (q : Query)
    (cs : list ReadCriterion) (key : string) (pos : Position) : Prop :=
  o = Some (mkObservation (Some q) (Some pos))
  ∧ normalizeConsistencyQuery (Some q) = Ok (cs, key)
  ∧ (pos = NotExistsPosition ∨ (0 <= CommitPosition pos ∧ 0 <= PreparePosition pos)%Z).

Lemma validateConsistencyPosition_ok pos :
  validateConsistencyPosition pos = Ok tt ↔
  pos = NotExistsPosition ∨ (0 <= CommitPosition pos ∧ 0 <= PreparePosition pos)%Z.
Proof.
  unfold validateConsistencyPosition. case_decide; [naive_solver|].
  destruct (Z.ltb_spec (CommitPosition pos) 0), (Z.ltb_spec (PreparePosition pos) 0);
    simpl; naive_solver lia.
Qed.

Lemma check_observation_ok st o st' :
  check_observation st o = Ok st' →
  ∃ q cs key pos, observes o q cs key pos
  ∧ ((cs_seen st !! key = Some pos ∧ cs_seen st' = cs_seen st
      ∧ cs_checks st' = cs_checks st)
     ∨ (cs_seen st !! key = None ∧ cs_seen st' = <[key := pos]> (cs_seen st)
        ∧ cs_checks st' = cs_checks st ++ [mkConsistencyCheck cs pos])).
Proof.
  unfold check_observation. destruct o as [[q p]|]; [|done]. simpl.
  destruct p as [pos|]; [|done].
  destruct (validateConsistencyPosition pos) as [[]|] eqn:Hpos; [|done].
  intros H. inv_ok. destruct x as [tc tt].
  destruct (normalizeConsistencyQuery q) as [[cs key]|] eqn:Hq; [|done].
  destruct q as [q|]; [|done].
  apply validateConsistencyPosition_ok in Hpos. exists q, cs, key, pos.
  split; [done|]. destruct (cs_seen st !! key) as [prev|] eqn:Hs.
  - case_decide; [|done]. subst. inv_ok. subst. by left.
  - inv_ok. subst. by right.
Qed.

(** What the loop over the observations maintains. *)
Record checks_inv (seen : gmap string Position) (checks : list ConsistencyCheck)
    (obs : list (option ConsistencyObservation)) : Prop := {
  ch_obs o : o ∈ obs → ∃ q cs key pos, observes o q cs key pos
    ∧ mkConsistencyCheck cs pos ∈ checks;
  ch_from c : c ∈ checks → ∃ o q key, o ∈ obs
    ∧ observes o q (Criteria c) key (CheckPosition c)
    ∧ is_Some (seen !! key);
  ch_seen k p : seen !! k = Some p → ∃ q cs,
    normalizeConsistencyQuery (Some q) = Ok (cs, k) ∧ mkConsistencyCheck cs p ∈ checks;
  ch_NoDup : NoDup (Criteria <$> checks) }.

Lemma normalize_key_criteria p q cs ds key :
  normalizeConsistencyQuery (Some p) = Ok (cs, key) →
  normalizeConsistencyQuery (Some q) = Ok (ds, key) → cs = ds.
Proof.
  intros Hp%normalizeConsistencyQuery_ok Hq%normalizeConsistencyQuery_ok.
  destruct Hp as (_ & _ & _ & _ & ks & -> & -> & _).
  destruct Hq as (_ & _ & _ & _ & ls & -> & E%(inj query_key) & _).
  by apply (inj (fmap (M:=list) (λ c, criterion_key (Tags c)))).
Qed.

Lemma normalize_criteria_key p q cs key key' :
  normalizeConsistencyQuery (Some p) = Ok (cs, key) →
  normalizeConsistencyQuery (Some q) = Ok (cs, key') → key = key'.
Proof.
  intros Hp%normalizeConsistencyQuery_ok Hq%normalizeConsistencyQuery_ok.
  destruct Hp as (_ & _ & _ & _ & ks & -> & -> & _).
  by destruct Hq as (_ & _ & _ & _ & ls & -> & -> & _).
Qed.

Lemma checks_inv_duplicate seen checks obs o q cs key pos :
  checks_inv seen checks obs → observes o q cs key pos → seen !! key = Some pos →
  checks_inv seen checks (obs ++ [o]).
Proof.
  intros [Hobs Hfrom Hseen Hnd] Ho Hs. split; [| |done..].
  - intros o' [Ho'| ->%list_elem_of_singleton]%elem_of_app; [by apply Hobs|].
    exists q, cs, key, pos. split; [done|].
    apply Hseen in Hs as (q' & cs' & Hq' & Hin).
    destruct Ho as (_ & Hq & _). by rewrite (normalize_key_criteria _ _ _ _ _ Hq Hq').
  - intros c Hc. apply Hfrom in Hc as (o' & q' & key' & ? & ? & ?).
    exists o', q', key'. rewrite elem_of_app. auto.
Qed.

Lemma checks_inv_fresh seen checks obs o q cs key pos :
  checks_inv seen checks obs → observes o q cs key pos → seen !! key = None →
  checks_inv (<[key := pos]> seen) (checks ++ [mkConsistencyCheck cs pos]) (obs ++ [o]).
Proof.
  intros [Hobs Hfrom Hseen Hnd] Ho Hs. pose proof Ho as (_ & Hq & _). split.
  - intros o' [Ho'| ->%list_elem_of_singleton]%elem_of_app.
    + apply Hobs in Ho' as (q' & cs' & key' & pos' & ? & ?).
      exists q', cs', key', pos'. rewrite elem_of_app. auto.
    + exists q, cs, key, pos. rewrite elem_of_app, list_elem_of_singleton. auto.
  - intros c [Hc| ->%list_elem_of_singleton]%elem_of_app.
    + apply Hfrom in Hc as (o' & q' & key' & ? & ? & ?). exists o', q', key'.
      rewrite elem_of_app. split_and!; [by left|done|].
      destruct (decide (key' = key)) as [->|]; [by rewrite lookup_insert_eq|].
      by rewrite lookup_insert_ne.
    + exists o, q, key. rewrite elem_of_app, list_elem_of_singleton, lookup_insert_eq. auto.
  - intros k p. destruct (decide (k = key)) as [->|].
    + rewrite lookup_insert_eq. intros [= <-]. exists q, cs.
      rewrite elem_of_app, list_elem_of_singleton. auto.
    + rewrite lookup_insert_ne by done. intros (q' & cs' & ? & ?)%Hseen.
      exists q', cs'. rewrite elem_of_app. auto.
  - rewrite fmap_app. apply NoDup_app. split_and!; [done| |apply NoDup_singleton].
    intros ds (c & -> & Hc)%list_elem_of_fmap E%list_elem_of_singleton.
    simpl in E. apply Hfrom in Hc as (o' & q' & key' & _ & (_ & Hq' & _) & Hk').
    rewrite E in Hq'. rewrite (normalize_criteria_key _ _ _ _ _ Hq' Hq), Hs in Hk'.
    by destruct Hk'.
Qed.

Lemma checks_inv_nil : checks_inv ∅ [] [].
Proof.
  split.
  - by intros o ?%elem_of_nil.
  - by intros c ?%elem_of_nil.
  - intros k p. by rewrite lookup_empty.
  - constructor.
Qed.

Lemma check_observations_inv obs st done st' :
  check_observations st obs = Ok st' →
  checks_inv (cs_seen st) (cs_checks st) done →
  checks_inv (cs_seen st') (cs_checks st') (done ++ obs).
Proof.
  revert st done. induction obs as [|o obs IH]; intros st done H Hi; simpl in H.
  - inv_ok. subst. by rewrite app_nil_r.
  - inv_ok. replace (done ++ o :: obs) with ((done ++ [o]) ++ obs)
      by (by rewrite <-(assoc_L (++))).
    apply (IH x); [done|]. apply check_observation_ok in H0.
    destruct H0 as (q & cs & key & pos & Ho & [(Hs & -> & ->)|(Hs & -> & ->)]).
    + by eapply checks_inv_duplicate.
    + by eapply checks_inv_fresh.
Qed.

(** The checks of an accepted save are exactly its observations. There are at
most 1024 of them; every observation is present, has a non-empty query of
non-empty valid criteria and a valid position, and is enforced by a check on its
normalized query at its position; every check comes from an observation; and no
query is checked twice. *)
Theorem ConsistencyChecks_exact obs checks :
  ConsistencyChecksFromObservations obs = Ok checks →
  length obs ≤ 1024
  ∧ (∀ o, o ∈ obs → ∃ q cs key pos, observes o q cs key pos
       ∧ Query_Criteria q ≠ [] ∧ Forall valid_criterion (Query_Criteria q)
       ∧ mkConsistencyCheck cs pos ∈ checks)
  ∧ (∀ c, c ∈ checks → ∃ o q key, o ∈ obs
       ∧ observes o q (Criteria c) key (CheckPosition c))
  ∧ NoDup (Criteria <$> checks).
Proof.
  unfold ConsistencyChecksFromObservations, maxConsistencyObservations.
  destruct (Z.ltb_spec 1024 (Z.of_nat (length obs))); [done|]. intros Hc.
  destruct (check_observations _ obs) as [st|] eqn:E; [|done]. injection Hc as <-.
  apply (check_observations_inv _ _ []) in E as [Hobs Hfrom _ Hnd]; simpl in *.
  - split_and!; [lia| | |done].
    + intros o (q & cs & key & pos & Ho & Hin)%Hobs. exists q, cs, key, pos.
      pose proof Ho as (_ & (? & ? & _)%normalizeConsistencyQuery_ok & _). auto.
    + intros c (o & q & key & ? & ? & _)%Hfrom. eauto.
  - apply checks_inv_nil.
Qed.

Lemma check_observation_error st o e :
  check_observation st o = Err e → CodeOf (Some e) = InvalidArgument.
Proof.
  unfold check_observation, count_query. intros H. simpl in H.
  repeat case_match; simplify_eq/=; try done;
    repeat case_match; simplify_eq/=; done.
Qed.

Lemma check_observations_error obs st e :
  check_observations st obs = Err e → CodeOf (Some e) = InvalidArgument.
Proof.
  revert st. induction obs as [|o obs IH]; intros st H; simpl in H; [done|].
  destruct (check_observation st o) as [st'|e'] eqn:E; simpl in H; [by eapply IH|].
  injection H as <-. by eapply check_observation_error.
Qed.

(** A save that observes the same query at two different positions is
rejected, and every rejection of observations is an InvalidArgument. *)
Theorem ConsistencyChecks_reject obs :
  (∀ e, ConsistencyChecksFromObservations obs = Err e →
     CodeOf (Some e) = InvalidArgument)
  ∧ (∀ o o' q q' cs key pos pos', o ∈ obs → o' ∈ obs →
     observes o q cs key pos → observes o' q' cs key pos' → pos ≠ pos' →
     result_code (ConsistencyChecksFromObservations obs) = InvalidArgument).
Proof.
  assert (∀ e, ConsistencyChecksFromObservations obs = Err e →
     CodeOf (Some e) = InvalidArgument) as Herr.
  { unfold ConsistencyChecksFromObservations. intros e. case_match; [by intros [= <-]|].
    destruct (check_observations _ obs) eqn:E; [done|]. intros [= <-].
    by eapply check_observations_error. }
  split; [done|]. intros o o' q q' cs key pos pos' Ho Ho' Hob Hob' Hne.
  destruct (ConsistencyChecksFromObservations obs) as [checks|e] eqn:E; [|by apply Herr].
  exfalso. unfold ConsistencyChecksFromObservations in E. case_match; [done|].
  destruct (check_observations _ obs) as [st|] eqn:E'; [|done].
  apply (check_observations_inv _ _ []) in E' as Hi; [|apply checks_inv_nil].
  destruct Hi as [Hobs _ _ Hnd]. simpl in *.
  apply Hobs in Ho as (p & ds & k & r & Hr & Hin).
  apply Hobs in Ho' as (p' & ds' & k' & r' & Hr' & Hin').
  unfold observes in *. destruct_and!. simplify_eq.
  assert (ds = ds') as -> by congruence.
  apply list_elem_of_lookup in Hin as [i Hi], Hin' as [j Hj].
  assert (i = j) as ->.
  { eapply (NoDup_lookup _ i j ds'); [exact Hnd| |].
    - by rewrite list_lookup_fmap, Hi.
    - by rewrite list_lookup_fmap, Hj. }
  simplify_eq.
Qed.

(** ** Accepted checks are in the canonical form of the durable encoding *)

Lemma normal_tags_valid c :
  valid_criterion (Some c) → Forall valid_read_tag (Tags (normal_criterion c)).
Proof.
  intros (d & [= <-] & _ & Hv). rewrite Forall_forall in Hv.
  apply Forall_forall. intros t Ht.
  apply (normal_criterion_spec c) in Ht. unfold canonical_tags, present_tags in Ht.
  apply list_elem_of_fmap in Ht as (u & -> & Hu).
  apply list_elem_of_omap in Hu as (o & Ho & ->).
  destruct (Hv _ Ho) as (? & [= <-] & Hu). unfold valid_read_tag, canonical_tag. simpl.
  unfold canonical_operator. destruct (String.eqb_spec (Tag_Operator u) "eq") as [E|E].
  - rewrite E in Hu. split; [|done]. unfold ValidateTag in *. by split_matches.
  - done.
Qed.

Lemma accepted_checks_canonical obs checks check c :
  ConsistencyChecksFromObservations obs = Ok checks →
  check ∈ checks → c ∈ Criteria check →
  Forall valid_read_tag (Tags c) ∧ StronglySorted tag_key_le (Tags c).
Proof.
  unfold ConsistencyChecksFromObservations. intros H Hc Hcc. case_match; [done|].
  destruct (check_observations _ obs) as [st|] eqn:E; [|done]. injection H as <-.
  apply (check_observations_inv _ _ []) in E as [_ Hfrom _ _]; [|apply checks_inv_nil].
  apply Hfrom in Hc as (o & q & key & _ & (_ & Hq & _) & _).
  apply normalizeConsistencyQuery_ok in Hq as (_ & Hv & Hm & _).
  apply Hm, list_elem_of_fmap in Hcc as (d & -> & Hd).
  unfold present_criteria in Hd. apply list_elem_of_omap in Hd as (o' & Ho' & ->).
  rewrite Forall_forall in Hv. split; [by apply normal_tags_valid, Hv|].
  destruct (normal_criterion_spec d) as (_ & _ & Hs). clear -Hs.
  induction Hs as [|t ts Hs IH Hf]; constructor; [done|].
  eapply Forall_impl; [done|]. intros u. rewrite tag_le_spec. unfold tag_key_le.
  intros [[_ ?]|[[-> _]|[-> _]]]; done.
Qed.

(** ** Witnesses *)

Definition example_query_a : Query :=
  mkQuery [Some (mkCriterion [Some (mkTag "b" "2" "eq"); Some (mkTag "a" "1" "")]);
           Some (mkCriterion [Some (mkTag "n" "7" "gt")])].
Definition example_query_b : Query :=
  mkQuery [Some (mkCriterion [Some (mkTag "n" "7" "gt"); Some (mkTag "n" "7" "gt")]);
           Some (mkCriterion [Some (mkTag "a" "1" "eq"); Some (mkTag "b" "2" "")])].
Definition example_normal : list ReadCriterion :=
  [mkReadCriterion [mkReadTag "a" "1" ""; mkReadTag "b" "2" ""];
   mkReadCriterion [mkReadTag "n" "7" "gt"]].
Definition example_key : string := query_key ((λ c, criterion_key (Tags c)) <$> example_normal).

Definition example_observations : list (option ConsistencyObservation) :=
  [Some (mkObservation (Some example_query_a) (Some (mkPosition 4 3)));
   Some (mkObservation (Some example_query_b) (Some (mkPosition 4 3)))].

Lemma normalize_canonical_witness :
  same_query example_query_a example_query_b.
Proof.
  apply (normalize_canonical example_query_a example_query_b
           example_normal example_normal example_key example_key); by vm_compute.
Defined.

Lemma normalize_semantics_witness :
  existsb (read_criterion_holds {[ "n" := VNumber "8" ]}) example_normal = true.
Proof.
  rewrite (normalize_semantics example_query_a example_normal example_key
             {[ "n" := VNumber "8" ]}); by vm_compute.
Defined.

Lemma ConsistencyChecks_exact_witness :
  NoDup (Criteria <$> [mkConsistencyCheck example_normal (mkPosition 4 3)]).
Proof.
  apply (ConsistencyChecks_exact example_observations). by vm_compute.
Defined.

Lemma ConsistencyChecks_reject_witness :
  result_code (ConsistencyChecksFromObservations
    [Some (mkObservation (Some example_query_a) (Some (mkPosition 4 3)));
     Some (mkObservation (Some example_query_b) (Some NotExistsPosition))])
  = InvalidArgument.
Proof.
  eapply (ConsistencyChecks_reject _) with (q := example_query_a) (q' := example_query_b)
    (cs := example_normal) (key := example_key)
    (pos := mkPosition 4 3) (pos' := NotExistsPosition).
  - left.
  - right. left.
  - split_and!; [done|by vm_compute|]. right. simpl. lia.
  - split_and!; [done|by vm_compute|by left].
  - done.
Defined.
