(* ===== verification/EventData.v ===== *)
(** * Event documents: [internal/eventdata], the preparation functions of
[orisun/eventstore_core.go] and [orisun/eventstore.go], [sqlite/event_document.go]

Application data is an object without reserved keys; the stored document adds
the envelope fields, whose keys start with two underscores; a read removes them. *)

From stdpp Require Import options.
From S2P Require Import Prelude Status Model Number Json.

Set Default Proof Using "Type*".

Definition IsReservedKey (key : string) : bool := HasPrefix key "__".

(** A value of the [map[string]any] that [WithFields] merges: a Go value, or a
[json.RawMessage], whose text the encoder checks. *)
Inductive fieldval :=
  | FValue (v : json)
  | FRaw (text : string).

Definition MetadataValue (metadata : string) : fieldval :=
  if String.eqb metadata "" then FValue JNull else FRaw metadata.

(** [EventWithMapTags]'s [any] values: nil, a string, a byte slice, or another
value, which is used only through its encoding. *)
Inductive anydata :=
  | DNil
  | DString (s : string)
  | DBytes (s : string)
  | DOther (encoded : result string).

Record EventWithMapTags := mkEventWithMapTags {
  EM_EventId : string; EM_EventType : string; EM_Data : anydata; EM_Metadata : anydata }.

(** [eventdata.Object]: nil fields are [None]. *)
Definition Object := option (gmap string json).

(** [sqlite.preparedEventDocument]. *)
Record preparedEventDocument := mkDocument {
  doc_eventID : string; doc_eventType : string; doc_metadata : string;
  doc_object : Object; doc_err : option goerror }.

Section EventData.
Context `{J : GoJson}.

Definition ParseObject (data : string) : result Object :=
  fields ← unmarshal_object data;
  match fields with
  | None => Err (PlainError "event data must be an object")
  | Some fields => Ok (Some fields)
  end.

(** What the encoder makes of a field value. *)
Definition field_json (f : fieldval) : result json :=
  match f with FValue v => Ok v | FRaw text => json_Unmarshal text end.

Definition fields_json (values : gmap string fieldval) : result (gmap string json) :=
  list_to_map <$> mapM (M := result) (λ kv, v ← field_json kv.2; mret (kv.1, v))
                    (map_to_list values).

(** [Object.WithFields]: supplied values replace fields of the same name. *)
Definition Object_WithFields (object : Object) (values : gmap string fieldval)
  : result string :=
  match object with
  | None => Err (PlainError "event data must be an object")
  | Some fields => supplied ← fields_json values; marshal_object (supplied ∪ fields)
  end.

Definition WithFields (data : string) (values : gmap string fieldval) : result string :=
  object ← ParseObject data; Object_WithFields object values.

Definition without_reserved (object : gmap string json) : gmap string json :=
  filter (λ kv, IsReservedKey kv.1 = false) object.

Definition WithoutStorageEnvelope (encoded : string) : string :=
  if String.eqb encoded "" then encoded
  else match unmarshal_object encoded with
       | Err _ | Ok None => encoded
       | Ok (Some object) =>
           let public := without_reserved object in
           if decide (public = object) then encoded
           else match marshal_object public with
                | Ok publicData => publicData
                | Err _ => encoded
                end
       end.

(** ** Preparation *)

Definition has_reserved (object : gmap string json) : bool :=
  existsb (λ kv, IsReservedKey kv.1) (map_to_list object).

Definition prepare_object (value : anydata) : result (option (gmap string json)) :=
  match value with
  | DNil => Ok (Some ∅)
  | DString s | DBytes s => if String.eqb s "" then Ok (Some ∅) else unmarshal_object s
  | DOther encoded => s ← encoded; unmarshal_object s
  end.

Definition prepareJSONObjectJSON (value : anydata) (validateData : bool) : result string :=
  object ← prepare_object value;
  let object := default ∅ object in
  if validateData && has_reserved object
  then Err (PlainError "top-level field %q is reserved for Orisun (prefix __)")
  else marshal_object object.

Definition prepareEventDataJSON (value : anydata) : result string :=
  prepareJSONObjectJSON value true.

Definition prepareJSONValue (value : anydata) : result string :=
  match value with
  | DNil => Ok "{}"
  | DString s | DBytes s =>
      if String.eqb s "" then Ok "{}"
      else if negb (json_Valid s) then Err (PlainError "invalid JSON") else Ok s
  | DOther encoded => encoded
  end.

Fixpoint PrepareEventsForSave (events : list EventWithMapTags)
  : result (list PreparedEvent) :=
  match events with
  | [] => Ok []
  | event :: events =>
      match prepareEventDataJSON (EM_Data event) with
      | Err e => Err (Wrapped "event %d data: %w" e)
      | Ok dataJSON =>
          match prepareJSONValue (EM_Metadata event) with
          | Err e => Err (Wrapped "event %d metadata: %w" e)
          | Ok metadataJSON =>
              rest ← PrepareEventsForSave events;
              mret (mkPreparedEvent (EM_EventId event) (EM_EventType event)
                      dataJSON metadataJSON :: rest)
          end
      end
  end.

Fixpoint prepareRequestedEventsForSave (events : list (option EventToSave))
  : result (list PreparedEvent) :=
  match events with
  | [] => Ok []
  | None :: _ => Err (PlainError "event %d is nil")
  | Some event :: events =>
      match prepareEventDataJSON (DString (ETS_Data event)) with
      | Err e => Err (Wrapped "event %d data: %w" e)
      | Ok dataJSON =>
          match prepareJSONObjectJSON (DString (ETS_Metadata event)) false with
          | Err e => Err (Wrapped "event %d metadata: %w" e)
          | Ok metadataJSON =>
              rest ← prepareRequestedEventsForSave events;
              mret (mkPreparedEvent (ETS_EventId event) (ETS_EventType event)
                      dataJSON metadataJSON :: rest)
          end
      end
  end.

(** ** [sqlite/event_document.go] *)

Definition prepareEventDocument (event : PreparedEvent) : preparedEventDocument :=
  let '(object, err) :=
    match ParseObject (PE_DataJSON event) with
    | Ok object => (object, None)
    | Err e => (None, Some e)
    end in
  mkDocument (PE_EventId event) (PE_EventType event) (PE_MetadataJSON event) object err.

Definition prepareEventDocuments (events : list PreparedEvent)
  : list preparedEventDocument :=
  prepareEventDocument <$> events.

(** [positionedDocument] writes into the caller's map, which it is called with
again for the next event: the map is returned. *)
Definition positionedDocument (event : preparedEventDocument) (gid : Z)
    (fields : gmap string fieldval) : gmap string fieldval * result string :=
  match doc_err event with
  | Some e => (fields, Err e)
  | None =>
      let fields := <["__eventId" := FValue (JString (doc_eventID event))]> fields in
      let fields := <["__eventType" := FValue (JString (doc_eventType event))]> fields in
      let fields := <["__metadata" := MetadataValue (doc_metadata event)]> fields in
      let fields := <["__preparePosition" := FValue (JNumber (FormatInt gid))]> fields in
      (fields, Object_WithFields (doc_object event) fields)
  end.

End EventData.

(** ** Reserved and public fields *)

Definition no_reserved (o : gmap string json) : Prop :=
  ∀ k v, o !! k = Some v → IsReservedKey k = false.

Definition all_reserved {A} (m : gmap string A) : Prop :=
  ∀ k v, m !! k = Some v → IsReservedKey k = true.

Lemma has_reserved_spec o : has_reserved o = false ↔ no_reserved o.
Proof.
  unfold has_reserved, no_reserved. rewrite <-not_true_iff_false, existsb_exists.
  setoid_rewrite <-list_elem_of_In. split.
  - intros Hn k v Hk. destruct (IsReservedKey k) eqn:E; [|done].
    destruct Hn. exists (k, v). by rewrite elem_of_map_to_list.
  - intros H ([k v] & Hk%elem_of_map_to_list & E). simpl in E. by rewrite (H k v Hk) in E.
Qed.

Section Facts.
Context `{J : GoJson, L : !GoJsonLaws}.

Definition faithful_field (f : fieldval) : Prop :=
  match f with FValue v => json_faithful v | FRaw _ => True end.

Lemma fields_json_ok values vs :
  fields_json values = Ok vs →
  ∀ k, match values !! k, vs !! k with
       | Some f, Some v => field_json f = Ok v
       | None, None => True
       | _, _ => False
       end.
Proof.
  unfold fields_json. intros H.
  destruct (mapM _ (map_to_list values)) as [kvs|] eqn:E; [|done].
  injection H as <-.
  assert (∀ l kvs, mapM (M := result) (λ kv : string * fieldval,
      v ← field_json kv.2; mret (kv.1, v)) l = Ok kvs →
    Forall2 (λ a b, a.1 = b.1 ∧ field_json a.2 = Ok b.2) l kvs) as Hl.
  { induction l as [|[k f] l IH]; intros kvs' H; simpl in H.
    - injection H as <-. constructor.
    - inv_ok. simpl in *. unfold mret, result_ret in *. inv_ok. subst.
      constructor; [done|]. by apply IH. }
  apply Hl in E. clear Hl.
  assert (kvs.*1 = (map_to_list values).*1) as Hk.
  { clear -E. induction E as [|[k f] [k' v] l l' [Hk _] _ IH]; [done|].
    rewrite !fmap_cons, IH. simpl in *. by rewrite Hk. }
  assert (NoDup kvs.*1) as Hnd by (rewrite Hk; apply NoDup_fst_map_to_list).
  intros k. destruct (values !! k) as [f|] eqn:Hf.
  - apply elem_of_map_to_list, list_elem_of_lookup in Hf as [i Hi].
    destruct (Forall2_lookup_l _ _ _ _ _ E Hi) as ([k' v] & Hi' & Hk' & Hv).
    simpl in *. subst k'.
    erewrite elem_of_list_to_map_1; [done|done|]. by eapply list_elem_of_lookup_2.
  - destruct (list_to_map kvs !! k) as [v|] eqn:Hv; [|done].
    apply elem_of_list_to_map_2, list_elem_of_lookup in Hv as [i Hi].
    destruct (Forall2_lookup_r _ _ _ _ _ E Hi) as ([k' f] & Hi' & Hk' & _).
    simpl in *. subst k'. apply list_elem_of_lookup_2, elem_of_map_to_list in Hi'.
    by rewrite Hi' in Hf.
Qed.

Lemma fields_json_total values :
  (∀ k f, values !! k = Some f → ∃ v, field_json f = Ok v) →
  ∃ vs, fields_json values = Ok vs.
Proof.
  intros H. unfold fields_json.
  assert (∀ l : list (string * fieldval), (∀ k f, (k, f) ∈ l → ∃ v, field_json f = Ok v) →
    ∃ kvs, mapM (M := result) (λ kv, v ← field_json kv.2; mret (kv.1, v)) l = Ok kvs) as Hl.
  { induction l as [|[k f] l IH]; intros Hl; simpl; [by eexists|].
    destruct (Hl k f) as [v Hv]; [left|]. rewrite Hv. simpl.
    destruct IH as [kvs ->]; [|by eexists]. intros k' f' ?. apply (Hl k'). by right. }
  destruct (Hl (map_to_list values)) as [kvs ->]; [|by eexists].
  intros k f ?%elem_of_map_to_list. eauto.
Qed.

(** The object that [prepareJSONObjectJSON] encodes. *)
Lemma prepare_object_faithful value o :
  prepare_object value = Ok o → json_faithful (json_of_map (default ∅ o)).
Proof.
  assert (json_faithful (json_of_map ∅)) as He
    by (apply json_faithful_map; intros k v; by rewrite lookup_empty).
  assert (∀ s, unmarshal_object s = Ok o → json_faithful (json_of_map (default ∅ o))) as Hu.
  { intros s Hs. destruct o as [o|]; [|done]. by eapply unmarshal_object_faithful. }
  intros H. destruct value as [|s|s|[s|]]; simpl in H; inv_ok; subst; eauto;
    destruct (String.eqb s ""); inv_ok; subst; eauto.
Qed.

Lemma prepareEventDataJSON_ok value s :
  prepareEventDataJSON value = Ok s →
  ∃ o, prepare_object value = Ok o ∧ no_reserved (default ∅ o)
    ∧ json_faithful (json_of_map (default ∅ o))
    ∧ marshal_object (default ∅ o) = Ok s
    ∧ ParseObject s = Ok (Some (default ∅ o)).
Proof.
  unfold prepareEventDataJSON, prepareJSONObjectJSON. intros H.
  apply result_bind_ok in H as (o & Ho & H). simpl in H.
  destruct (has_reserved (default ∅ o)) eqn:Hr; [done|].
  pose proof (prepare_object_faithful _ _ Ho) as Hf. exists o.
  destruct (unmarshal_marshal_object _ Hf) as (s' & Hs' & _ & Hu).
  rewrite Hs' in H. injection H as ->. apply has_reserved_spec in Hr.
  split_and!; [done..|]. unfold ParseObject. by rewrite Hu.
Qed.

(** The stored text of an object with an envelope, and what it reads back as. *)
Lemma Object_WithFields_ok o values :
  json_faithful (json_of_map o) →
  (∀ k f, values !! k = Some f → text_ok k ∧ faithful_field f) →
  ∀ vs, fields_json values = Ok vs →
  ∃ text, Object_WithFields (Some o) values = Ok text ∧ text ≠ ""
    ∧ unmarshal_object text = Ok (Some (vs ∪ o)).
Proof.
  intros Ho Hv vs Hvs. cbn [Object_WithFields]. rewrite Hvs. cbn [mbind result_bind].
  apply unmarshal_marshal_object. apply json_faithful_map.
  rewrite json_faithful_map in Ho. intros k v [Hk|[_ Hk]]%lookup_union_Some_raw; [|eauto].
  pose proof (fields_json_ok _ _ Hvs k) as Hf. rewrite Hk in Hf.
  destruct (values !! k) as [f|] eqn:E; [|done]. destruct (Hv _ _ E) as [? Hff].
  split; [done|]. destruct f as [w|t]; simpl in *; [by simplify_eq|].
  by eapply json_decoded_faithful.
Qed.

Lemma fields_json_all_reserved values vs :
  fields_json values = Ok vs → all_reserved values → all_reserved vs.
Proof.
  intros Hvs Hr k v Hk. pose proof (fields_json_ok _ _ Hvs k) as Hf. rewrite Hk in Hf.
  destruct (values !! k) as [f|] eqn:E; [|done]. by eapply Hr.
Qed.

(** Reading a document that adds reserved fields to the public object [o]. *)
Lemma strip_envelope text doc o data :
  text ≠ "" → unmarshal_object text = Ok (Some doc) →
  (∀ k, IsReservedKey k = false → doc !! k = o !! k) →
  (∃ k v, doc !! k = Some v ∧ IsReservedKey k = true) →
  no_reserved o → marshal_object o = Ok data →
  WithoutStorageEnvelope text = data.
Proof.
  intros Hnil Hu Hpub (k & v & Hk & Hr) Hnr Hm.
  assert (without_reserved doc = o) as Hw.
  { apply map_eq. intros i. unfold without_reserved. rewrite map_lookup_filter.
    destruct (IsReservedKey i) eqn:Hi.
    - assert (o !! i = None) as ->.
      { destruct (o !! i) eqn:E; [|done]. by rewrite (Hnr _ _ E) in Hi. }
      destruct (doc !! i); simpl; [|done]. by rewrite option_guard_False; rewrite ?Hi.
    - rewrite Hpub by done. destruct (o !! i); simpl; [|done].
      by rewrite option_guard_True. }
  unfold WithoutStorageEnvelope. rewrite (proj2 (String.eqb_neq text "")) by done.
  rewrite Hu, Hw, decide_False; [by rewrite Hm|].
  intros ->. by rewrite (Hnr _ _ Hk) in Hr.
Qed.

(** C39: the storage envelope is transparent. For application data accepted from
a client, encoding it with any reserved fields and then removing the envelope
gives back, byte for byte, the prepared application data. *)
Theorem envelope_roundtrip value data values text :
  prepareEventDataJSON value = Ok data →
  all_reserved values → values ≠ ∅ →
  (∀ k f, values !! k = Some f → text_ok k ∧ faithful_field f) →
  WithFields data values = Ok text →
  WithoutStorageEnvelope text = data.
Proof.
  intros (o & _ & Hnr & Hf & Hm & Hp)%prepareEventDataJSON_ok Hr Hne Hv.
  unfold WithFields. rewrite Hp. cbn [mbind result_bind]. intros Hw.
  assert (∃ vs, fields_json values = Ok vs) as [vs Hvs].
  { cbn [Object_WithFields] in Hw. inv_ok. eauto. }
  destruct (Object_WithFields_ok _ _ Hf Hv vs Hvs) as (text' & Hw' & Hnil & Hu).
  rewrite Hw' in Hw. injection Hw as ->.
  pose proof (fields_json_all_reserved _ _ Hvs Hr) as Hvr.
  apply (strip_envelope _ (vs ∪ default ∅ o) (default ∅ o)); [done|done| | |done|done].
  - intros k Hk. apply lookup_union_r. destruct (vs !! k) eqn:E; [|done].
    by rewrite (Hvr _ _ E) in Hk.
  - apply map_choose in Hne as (k & f & Hk). pose proof (fields_json_ok _ _ Hvs k) as Hfk.
    rewrite Hk in Hfk. destruct (vs !! k) as [v|] eqn:E; [|done].
    exists k, v. split; [by apply lookup_union_Some_l|]. by eapply Hvr.
Qed.

(** C40: event data accepted from a client decodes to the client's object, which
has no top-level field in the reserved namespace; data with such a field is
refused. *)
Theorem prepared_data_public value :
  (∀ data, prepareEventDataJSON value = Ok data →
     ∃ o, prepare_object value = Ok o ∧ ParseObject data = Ok (Some (default ∅ o))
       ∧ no_reserved (default ∅ o))
  ∧ (∀ o, prepare_object value = Ok o → ¬ no_reserved (default ∅ o) →
     ∃ e, prepareEventDataJSON value = Err e).
Proof.
  split.
  - intros data (o & ? & ? & _ & _ & ?)%prepareEventDataJSON_ok. eauto.
  - intros o Ho Hn. unfold prepareEventDataJSON, prepareJSONObjectJSON. rewrite Ho.
    simpl. destruct (has_reserved (default ∅ o)) eqn:E; [by eexists|].
    by apply has_reserved_spec in E.
Qed.

End Facts.

(** ** Witnesses *)

Definition get_ok {A} (d : A) (r : result A) : A :=
  match r with Ok a => a | Err _ => d end.

Definition example_data : anydata :=
  DOther (@marshal_object example_json {[ "amount" := JNumber "12.50" ]}).
Definition example_values : gmap string fieldval :=
  {[ "__eventId" := FValue (JString "e-1"); "__commitPosition" := FValue (JNumber "3") ]}.
Definition example_prepared : string :=
  Eval vm_compute in get_ok "" (@prepareEventDataJSON example_json example_data).
Definition example_stored : string :=
  Eval vm_compute in get_ok "" (@WithFields example_json example_prepared example_values).

Lemma envelope_roundtrip_witness :
  @WithoutStorageEnvelope example_json example_stored = example_prepared.
Proof.
  apply (@envelope_roundtrip example_json example_json_laws example_data
           example_prepared example_values example_stored).
  - by vm_compute.
  - unfold example_values. intros k v. rewrite lookup_insert_Some, lookup_singleton_Some.
    naive_solver.
  - done.
  - unfold example_values. intros k v. rewrite lookup_insert_Some, lookup_singleton_Some.
    naive_solver.
  - by vm_compute.
Defined.

Lemma prepared_data_public_witness :
  ∃ e, @prepareEventDataJSON example_json
         (DOther (@marshal_object example_json {[ "__eventId" := JNull ]})) = Err e.
Proof.
  apply (@prepared_data_public example_json example_json_laws)
    with (o := Some {[ "__eventId" := JNull ]}).
  - by vm_compute.
  - intros H. specialize (H "__eventId" JNull (lookup_singleton_eq _ _)). done.
Defined.
