(* ===== verification/WriteContext.v ===== *)
(** * Write contexts: [orisun/write_context.go]

The identity of a save and the durable record of the observations that were
checked for it. *)

From stdpp Require Import options.
From S2P Require Import Prelude Status Model Number Json Predicates Consistency.

Set Default Proof Using "Type*".

Record GetWriteContextRequest := mkGetWriteContextRequest {
  GWC_Boundary : string; GWC_WriteId : string }.

Record WriteContext := mkWriteContext {
  WC_WriteId : string; WC_Consistency : list (option ConsistencyObservation) }.

(** [strconv.FormatInt(commit, 10) + ":" + strconv.FormatInt(prepare, 10)]. *)
Definition WriteID (commit prepare : Z) : string :=
  FormatInt commit +:+ ":" +:+ FormatInt prepare.

Definition invalid_write_id : goerror :=
  New InvalidArgument "boundary and a valid write_id are required".

Definition ValidateWriteContextRequest (req : option GetWriteContextRequest)
  : result Position :=
  match req with
  | None => Err invalid_write_id
  | Some req =>
      if String.eqb (GWC_Boundary req) "" then Err invalid_write_id
      else match Split (GWC_WriteId req) ":" with
           | [p0; p1] =>
               match ParseInt p0, ParseInt p1 with
               | Some commit, Some prepare =>
                   if (commit <? 0)%Z || (prepare <? 0)%Z
                      || negb (String.eqb (WriteID commit prepare) (GWC_WriteId req))
                   then Err invalid_write_id
                   else Ok (mkPosition commit prepare)
               | _, _ => Err invalid_write_id
               end
           | _ => Err invalid_write_id
           end
  end.

(** [storedConsistencyObservation]. *)
Record StoredObservation := mkStored {
  SO_Criteria : list (gmap string anyval); SO_TransactionID : Z; SO_GlobalID : Z }.

(** The encoding of the struct by its tags. *)
Definition anyval_json (a : anyval) : json :=
  match a with
  | AString s => JString s
  | APredicates ps => predicates_json ps
  | AJson v => v
  end.

Definition criterion_json (c : gmap string anyval) : json :=
  json_of_map (anyval_json <$> c).

Definition stored_json (o : StoredObservation) : json :=
  JObject [("query", JObject [("criteria", JArray (criterion_json <$> SO_Criteria o))]);
           ("position", JObject
              [("transaction_id", JNumber (FormatInt (SO_TransactionID o)));
               ("global_id", JNumber (FormatInt (SO_GlobalID o)))])].

(** A field decoded into [any]: a JSON string is a string, anything else the
decoder's own value. *)
Definition any_of_json (v : json) : anyval :=
  match v with JString s => AString s | v => AJson v end.

Definition decoded_observation (o : StoredObservation) : StoredObservation :=
  mkStored ((λ c : gmap string anyval, (λ a, any_of_json (anyval_json a)) <$> c)
              <$> SO_Criteria o)
           (SO_TransactionID o) (SO_GlobalID o).

(** [json.Unmarshal] into [[]storedConsistencyObservation], on what the encoder of
the same type writes. *)
Class GoJsonStored `{J : GoJson} := {
  json_observations : json → result (list StoredObservation) }.

Class GoJsonStoredLaws `{J : GoJson, S : !GoJsonStored} : Prop := {
  json_observations_array os :
    Forall (λ o, is_int64 (SO_TransactionID o) ∧ is_int64 (SO_GlobalID o)) os →
    json_observations (JArray (stored_json <$> os)) = Ok (decoded_observation <$> os) }.

Section WriteContext.
Context `{J : GoJson, S : !GoJsonStored}.

Definition stored_observation (check : ConsistencyCheck) : result StoredObservation :=
  _ ← ValidateReadCriteria (Criteria check);
  mret (mkStored (EncodeReadCriteria (Criteria check))
          (CommitPosition (CheckPosition check)) (PreparePosition (CheckPosition check))).

Definition MarshalConsistency (checks : list ConsistencyCheck) : result string :=
  observations ← mapM stored_observation checks;
  json_Marshal (JArray (stored_json <$> observations)).

Definition decode_stored_criterion_tags (fields : gmap string anyval)
  : result (option Criterion) :=
  match DecodeCriterion fields with
  | Err e => Err (Wrapped "decode write context: %w" e)
  | Ok tags =>
      mret (Some (mkCriterion
        ((λ t, Some (mkTag (Key t) (Value t) (Operator t))) <$> tags)))
  end.

Definition decode_observation (o : StoredObservation)
  : result (option ConsistencyObservation) :=
  criteria ← mapM decode_stored_criterion_tags (SO_Criteria o);
  mret (Some (mkObservation (Some (mkQuery criteria))
    (Some (mkPosition (SO_TransactionID o) (SO_GlobalID o))))).

Definition DecodeWriteContext (writeID data : string) : result WriteContext :=
  match json_Unmarshal data ≫= json_observations with
  | Err e => Err (Wrapped "decode write context: %w" e)
  | Ok stored =>
      consistency ← mapM decode_observation stored;
      mret (mkWriteContext writeID consistency)
  end.

End WriteContext.

(** ** Write identifiers *)

Lemma FormatInt_no_colon z :
  string_forallb (λ d, negb (Ascii.eqb d ":"%char)) (FormatInt z) = true.
Proof.
  unfold FormatInt. destruct z as [|p|p]; [done| |].
  - apply digits_no_colon, pretty_N_digits.
  - change (pretty (Z.neg p)) with (String "-" (pretty (N.pos p))).
    simpl. apply digits_no_colon, pretty_N_digits.
Qed.

Lemma ParseInt_range s z : ParseInt s = Some z → is_int64 z.
Proof.
  unfold ParseInt. intros Hz.
  match type of Hz with match ?m with _ => _ end = _ => destruct m end; [|done].
  case_bool_decide; naive_solver.
Qed.

Lemma Split_WriteID c p : Split (WriteID c p) ":" = [FormatInt c; FormatInt p].
Proof.
  unfold WriteID. change (":" +:+ FormatInt p) with (String ":" (FormatInt p)).
  rewrite Split_app by apply FormatInt_no_colon.
  by rewrite Split_no_sep by apply FormatInt_no_colon.
Qed.

Lemma write_id_accepted boundary c p :
  boundary ≠ "" → (0 <= c <= MaxInt64)%Z → (0 <= p <= MaxInt64)%Z →
  ValidateWriteContextRequest (Some (mkGetWriteContextRequest boundary (WriteID c p)))
  = Ok (mkPosition c p).
Proof.
  intros Hb Hc Hp. unfold ValidateWriteContextRequest. cbn [GWC_Boundary GWC_WriteId].
  destruct (String.eqb_spec boundary ""); [done|].
  rewrite Split_WriteID, !ParseInt_FormatInt
    by (unfold is_int64, MinInt64, MaxInt64 in *; lia).
  destruct (Z.ltb_spec c 0), (Z.ltb_spec p 0); [lia..|]. simpl.
  by rewrite String.eqb_refl.
Qed.

(** A write identifier names one position. A request with a boundary is
accepted exactly when its identifier is the one the store gives to a
non-negative position, and it is decoded to that position; anything else,
including other spellings of the same numbers, is an InvalidArgument. *)
Theorem WriteID_roundtrip boundary id :
  let r := ValidateWriteContextRequest (Some (mkGetWriteContextRequest boundary id)) in
  (∀ pos, r = Ok pos ↔
     boundary ≠ "" ∧ id = WriteID (CommitPosition pos) (PreparePosition pos)
     ∧ (0 <= CommitPosition pos <= MaxInt64)%Z ∧ (0 <= PreparePosition pos <= MaxInt64)%Z)
  ∧ (∀ e, r = Err e → CodeOf (Some e) = InvalidArgument).
Proof.
  unfold ValidateWriteContextRequest. simpl. split.
  - intros [c p]. simpl. split.
    + intros H. repeat (case_match; try done). bool_props. simplify_eq.
      repeat match goal with
      | H : ParseInt _ = Some _ |- _ => apply ParseInt_range in H as [_ ?]
      end.
      destruct (String.eqb_spec boundary ""); [done|]. split_and!; [done|done|lia..].
    + intros (Hb & -> & Hc & Hp). by apply (write_id_accepted boundary c p).
  - intros e H. cut (e = invalid_write_id); [by intros ->|].
    repeat (case_match; try done); by injection H.
Qed.

(** ** The record of a save's observations *)

(** A check read back as the observation it enforces. *)
Definition criterion_of_read (c : ReadCriterion) : option Criterion :=
  Some (mkCriterion ((λ t, Some (mkTag (Key t) (Value t) (Operator t))) <$> Tags c)).

Definition observation_of_check (check : ConsistencyCheck)
  : option ConsistencyObservation :=
  Some (mkObservation (Some (mkQuery (criterion_of_read <$> Criteria check)))
          (Some (CheckPosition check))).

Section Facts.
Context `{J : GoJson, L : !GoJsonLaws, S : !GoJsonStored, SL : !GoJsonStoredLaws}.

(** Keys and values that the JSON encoder writes as they are. *)
Definition text_criterion (c : ReadCriterion) : Prop :=
  Forall (λ t, text_ok (Key t) ∧ text_ok (Value t)) (Tags c).

Lemma valid_operator_text (t : ReadTag) :
  valid_read_tag t → text_ok (encoded_operator (Operator t)).
Proof.
  intros [Hv _]. apply ValidateTag_ok in Hv as (_ & _ & _ & o & Ho).
  apply text_ok_ascii. unfold encoded_operator.
  destruct (String.eqb_spec (Operator t) "") as [_|Hne]; [done|].
  apply CanonicalTagOperator_ok in Ho as [Hin [->|[-> ?]]]; [|done].
  rewrite !elem_of_cons, elem_of_nil in Hin. destruct_or! Hin; by rewrite ?Hin.
Qed.

Lemma predicates_faithful ts :
  Forall valid_read_tag ts → Forall (λ t, text_ok (Key t) ∧ text_ok (Value t)) ts →
  json_faithful (predicates_json (tag_predicate <$> ts)).
Proof.
  intros Hv Ht. unfold predicates_json. apply json_faithful_array. intros x Hx.
  rewrite <-list_fmap_compose in Hx. apply list_elem_of_fmap in Hx as (t & -> & Hin).
  rewrite Forall_forall in *. simpl.
  split_and!; try done; [by apply text_ok_ascii| |by apply text_ok_ascii|by apply Ht].
  by apply valid_operator_text, Hv.
Qed.

Lemma decode_stored_predicates ts :
  ts ≠ [] → Forall valid_read_tag ts →
  Forall (λ t, text_ok (Key t) ∧ text_ok (Value t)) ts →
  DecodeTagPredicates (any_of_json (anyval_json (encode_predicates (tag_predicate <$> ts))))
  = Ok (tag_predicate <$> ts).
Proof.
  intros Hne Hv Ht. pose proof (predicates_faithful ts Hv Ht) as Hf.
  assert (DecodeTagPredicates (AJson (predicates_json (tag_predicate <$> ts)))
    = Ok (tag_predicate <$> ts)) as Hd.
  { unfold DecodeTagPredicates. destruct (json_roundtrip _ Hf) as (s & -> & _ & Hu).
    cbn [mbind result_bind]. rewrite Hu. cbn [mbind result_bind].
    rewrite json_predicates_array. by destruct ts. }
  unfold encode_predicates.
  destruct (tag_predicate <$> ts) as [|p [|p' ps]] eqn:E; [by destruct ts| |exact Hd].
  destruct (String.eqb_spec (TP_Operator p) "eq") as [Heq|]; [|exact Hd].
  simpl. destruct p as [o v]. simpl in *. by subst.
Qed.

Lemma stored_criterion_roundtrip c :
  Forall valid_read_tag (Tags c) → StronglySorted tag_key_le (Tags c) →
  text_criterion c →
  decode_stored_criterion_tags
    ((λ a, any_of_json (anyval_json a)) <$> EncodeCriterion (Tags c))
  = Ok (criterion_of_read c).
Proof.
  intros Hv Hs Ht. unfold decode_stored_criterion_tags.
  rewrite decode_stored_criterion; [done| |done|done].
  intros ts Hsub Hne. unfold text_criterion in Ht. rewrite Forall_forall in Hv, Ht.
  apply decode_stored_predicates; [done|..]; apply Forall_forall; eauto.
Qed.

Lemma criterion_json_faithful c :
  Forall valid_read_tag (Tags c) → text_criterion c →
  json_faithful (criterion_json (EncodeCriterion (Tags c))).
Proof.
  intros Hv Ht. unfold criterion_json. apply json_faithful_map. intros k v.
  rewrite lookup_fmap, EncodeCriterion_lookup. unfold text_criterion in Ht.
  destruct (of_key k (Tags c)) as [|t ts] eqn:E; [done|]. intros [= <-].
  assert (∀ u, u ∈ t :: ts → Key u = k ∧ u ∈ Tags c) as Hin.
  { intros u Hu. rewrite <-E in Hu. by apply list_elem_of_filter in Hu. }
  rewrite Forall_forall in Hv, Ht.
  assert (Key t = k ∧ t ∈ Tags c) as [<- Hti] by (apply Hin; left).
  split; [by apply Ht|].
  assert (json_faithful (predicates_json (tag_predicate <$> t :: ts))) as Hf.
  { apply predicates_faithful; apply Forall_forall; intros u Hu%Hin; naive_solver. }
  destruct ts as [|u us]; [|exact Hf]. simpl.
  destruct (String.eqb _ _); [|exact Hf]. simpl. by apply Ht.
Qed.

Lemma stored_json_faithful check :
  (∀ c, c ∈ Criteria check → Forall valid_read_tag (Tags c) ∧ text_criterion c) →
  json_faithful (stored_json
    (mkStored (EncodeReadCriteria (Criteria check)) (CommitPosition (CheckPosition check))
       (PreparePosition (CheckPosition check)))).
Proof.
  intros Hc.
  assert (json_faithful (JArray (criterion_json <$> EncodeReadCriteria (Criteria check))))
    as Ha.
  { apply json_faithful_array. unfold EncodeReadCriteria. rewrite <-list_fmap_compose.
    intros x (c & -> & Hin)%list_elem_of_fmap. simpl.
    by apply criterion_json_faithful; apply Hc. }
  simpl in *.
  split_and!; try done; try (by apply text_ok_ascii); apply json_faithful_int.
Qed.

Lemma marshal_decode_checks obs checks id :
  ConsistencyChecksFromObservations obs = Ok checks →
  Forall (λ check, Forall text_criterion (Criteria check)
    ∧ is_int64 (CommitPosition (CheckPosition check))
    ∧ is_int64 (PreparePosition (CheckPosition check))) checks →
  ∃ data, MarshalConsistency checks = Ok data
    ∧ DecodeWriteContext id data
      = Ok (mkWriteContext id (observation_of_check <$> checks))
    ∧ ∃ l, json_Unmarshal data = Ok (JArray l).
Proof.
  intros Hobs Ht. rewrite Forall_forall in Ht.
  assert (∀ check c, check ∈ checks → c ∈ Criteria check →
    Forall valid_read_tag (Tags c) ∧ StronglySorted tag_key_le (Tags c)
    ∧ text_criterion c) as Hc.
  { intros check c Hin Hcc. destruct (Ht _ Hin) as [Htc _].
    rewrite Forall_forall in Htc.
    destruct (accepted_checks_canonical _ _ _ _ Hobs Hin Hcc). auto. }
  pose (store := λ check, mkStored (EncodeReadCriteria (Criteria check))
    (CommitPosition (CheckPosition check)) (PreparePosition (CheckPosition check))).
  assert (mapM stored_observation checks = Ok (store <$> checks)) as Hm.
  { apply mapM_ok. intros check Hin. unfold stored_observation.
    rewrite ValidateReadCriteria_valid; [done|].
    intros c Hcc. by apply (Hc check). }
  unfold MarshalConsistency. rewrite Hm. cbn [mbind result_bind].
  destruct (json_roundtrip (JArray (stored_json <$> (store <$> checks))))
    as (data & -> & _ & Hu).
  { apply json_faithful_array. rewrite <-list_fmap_compose.
    intros x (check & -> & Hin)%list_elem_of_fmap. apply stored_json_faithful.
    intros c Hcc. destruct (Hc _ _ Hin Hcc) as (? & _ & ?). auto. }
  exists data. split; [done|]. split; [|by eauto]. unfold DecodeWriteContext. rewrite Hu.
  cbn [mbind result_bind]. rewrite json_observations_array.
  2:{ apply Forall_fmap, Forall_forall. intros check Hin. simpl. by apply Ht. }
  rewrite <-list_fmap_compose.
  assert (mapM decode_observation (decoded_observation ∘ store <$> checks)
    = Ok (observation_of_check <$> checks)) as ->; [|done].
  rewrite mapM_fmap_l. apply mapM_ok. intros check Hin.
  unfold decode_observation. simpl. unfold EncodeReadCriteria.
  rewrite <-list_fmap_compose, mapM_fmap_l.
  rewrite (mapM_ok _ criterion_of_read); [by destruct check as [? []]|].
  intros c Hcc. destruct (Hc _ _ Hin Hcc) as (? & ? & ?).
  by apply stored_criterion_roundtrip.
Qed.

(** The record of a save's context is complete and exact. For every accepted
list of observations whose strings are valid text, the checks can be stored, and
reading the record back gives each check's query and position, in order. *)
Theorem write_context_roundtrip obs checks id :
  ConsistencyChecksFromObservations obs = Ok checks →
  Forall (λ check, Forall text_criterion (Criteria check)
    ∧ is_int64 (CommitPosition (CheckPosition check))
    ∧ is_int64 (PreparePosition (CheckPosition check))) checks →
  ∃ data, MarshalConsistency checks = Ok data
    ∧ DecodeWriteContext id data
      = Ok (mkWriteContext id (observation_of_check <$> checks)).
Proof. intros Ho Hc. destruct (marshal_decode_checks _ _ id Ho Hc) as (data & ? & ? & _). eauto. Qed.

End Facts.

(** ** A concrete decoder and the witness *)

Definition example_criterion (v : json) : gmap string anyval :=
  match v with JObject fs => any_of_json <$> map_of_fields fs | _ => ∅ end.

Definition example_observation (v : json) : result StoredObservation :=
  match v with
  | JObject [("query", JObject [("criteria", JArray cs)]);
             ("position", JObject [("transaction_id", JNumber t); ("global_id", JNumber g)])] =>
      match ParseInt t, ParseInt g with
      | Some t, Some g => Ok (mkStored (example_criterion <$> cs) t g)
      | _, _ => Err (PlainError "cannot unmarshal")
      end
  | _ => Err (PlainError "cannot unmarshal")
  end.

Definition example_stored_json : @GoJsonStored example_json := {|
  json_observations v :=
    match v with
    | JArray l => mapM example_observation l
    | JNull => Ok []
    | _ => Err (PlainError "cannot unmarshal")
    end |}.

Lemma example_stored_laws : @GoJsonStoredLaws example_json example_stored_json.
Proof.
  split. intros os Hos. rewrite Forall_forall in Hos. simpl. rewrite mapM_fmap_l.
  apply mapM_ok. intros o Ho. destruct (Hos o Ho) as [Ht Hg]. simpl.
  rewrite !ParseInt_FormatInt by done. unfold decoded_observation. do 2 f_equal.
  rewrite <-list_fmap_compose. apply list_fmap_ext. intros i c _. simpl.
  rewrite map_of_fields_json_of_map. by rewrite <-map_fmap_compose.
Qed.

Lemma write_context_roundtrip_witness :
  ∃ data, @MarshalConsistency example_json
      [mkConsistencyCheck example_normal (mkPosition 4 3)] = Ok data
    ∧ @DecodeWriteContext example_json example_stored_json "7:7" data
      = Ok (mkWriteContext "7:7"
          (observation_of_check <$> [mkConsistencyCheck example_normal (mkPosition 4 3)])).
Proof.
  apply (@write_context_roundtrip example_json example_json_laws
           example_stored_json example_stored_laws example_observations).
  - by vm_compute.
  - repeat constructor; simpl; done.
Defined.
