(* ===== verification/SqlPredicates.v ===== *)
(** * Content predicates in SQL: the query builders of
[sqlite/sqlite_eventstore.go], [sqlite/consistency.go], [sqlite/tag_comparison.go]

The code builds SQL text. A built clause is kept here as a syntax tree with the
function that renders the text the code builds ([render_where] and the others)
and the meaning of the clause on a stored document ([where_holds]): the SQL
semantics of the operators the text uses, SQL's NULL being a comparison that
does not hold. *)

From stdpp Require Import options.
From S2P Require Import Prelude Status Model Number Json Predicates Consistency.

Set Default Proof Using "Type*".

(** ** Literals and identifiers *)

Definition quote_char : ascii := "'".
Definition dquote_char : ascii := ascii_of_N 34.
Definition backslash_char : ascii := ascii_of_N 92.

(** A string of one double quote, and of two. *)
Definition dquote : string := String dquote_char "".

Definition sqlEscapeLiteral (v : string) : string :=
  "'" +:+ ReplaceAll v quote_char "''" +:+ "'".

Definition quoteIdent (name : string) : string :=
  dquote +:+ ReplaceAll name dquote_char (dquote +:+ dquote) +:+ dquote.

(** Escape for a JSON path inside an SQL literal: first the double quotes of the
path, then the single quotes of the literal. *)
Definition jsonPathLiteral (key : string) : string :=
  let k := ReplaceAll key dquote_char (dquote +:+ dquote) in
  let k := ReplaceAll k quote_char "''" in
  "'$." +:+ dquote +:+ k +:+ dquote +:+ "'".

Definition validateIdentifier (name : string) : result unit :=
  match name with
  | EmptyString => Err (PlainError "identifier must be 1-63 characters, got %d")
  | String c rest =>
      if (63 <? go_len name)%Z
      then Err (PlainError "identifier must be 1-63 characters, got %d")
      else if negb (letter c) && negb (Ascii.eqb c "_"%char)
      then Err (PlainError "identifier must start with a letter or underscore, got %q")
      else if name_rest rest then Ok tt
      else Err (PlainError "identifier may only contain letters, digits, underscores, invalid char %q at %d")
  end.

(** [sqlValueLiteral] of a string: the value that the literal denotes. *)
Definition sqlValueLiteral (s : string) : result string :=
  if contains_nul s then Err (PlainError "criteria value contains NUL byte")
  else Ok s.

(** ** Clauses *)

(** A comparison of the text of a field with a literal, a range comparison by
the type of the field, or a parenthesized conjunction. *)
Inductive predicate :=
  | PScalar (key op lit : string)
  | PRange (key op lit : string)
  | PGroup (parts : list predicate).

(** A disjunction of conjunctions; the empty one is the clause "1". *)
Definition where_clause := list (list predicate).

Definition sqliteJSONScalarTextExpr (key : string) : string :=
  let path := jsonPathLiteral key in
  let base := "json_extract(data, " +:+ path +:+ ")" in
  "CASE json_type(data, " +:+ path
  +:+ ") WHEN 'true' THEN 'true' WHEN 'false' THEN 'false' ELSE CAST("
  +:+ base +:+ " AS TEXT) END".

Fixpoint render_predicate (p : predicate) : string :=
  match p with
  | PScalar key op lit =>
      sqliteJSONScalarTextExpr key +:+ " " +:+ op +:+ " " +:+ sqlEscapeLiteral lit
  | PRange key op lit =>
      let path := jsonPathLiteral key in
      let lit := sqlEscapeLiteral lit in
      "(CASE json_type(data, " +:+ path +:+ ") WHEN 'text' THEN ("
      +:+ sqliteJSONScalarTextExpr key +:+ " COLLATE BINARY " +:+ op +:+ " " +:+ lit
      +:+ ") WHEN 'integer' THEN (orisun_compare_number(data -> " +:+ path +:+ ", " +:+ lit
      +:+ ") " +:+ op +:+ " 0) WHEN 'real' THEN (orisun_compare_number(data -> " +:+ path
      +:+ ", " +:+ lit +:+ ") " +:+ op +:+ " 0) ELSE 0 END)"
  | PGroup parts => "(" +:+ Join (list_fmap _ _ render_predicate parts) " AND " +:+ ")"
  end.

Definition render_where (w : where_clause) : string :=
  match w with
  | [] => "1"
  | w => Join ((λ ps, "(" +:+ Join (render_predicate <$> ps) " AND " +:+ ")") <$> w) " OR "
  end.

(** ** Their meaning *)

(** What the code takes from outside: [fmt.Sprint] of a decoded JSON value that is
not a string, SQLite's [CAST(json_extract(...) AS TEXT)] of a number, an array
or an object, its [->] operator, the JSON text of a value, and what the path
[jsonPathLiteral key] selects when the key has a double quote or a backslash. *)
Class SqlText := {
  sprint : json → string;
  cast_text : json → string;
  arrow_text : json → string;
  odd_path : gmap string json → string → option json }.

(** A key that a JSON path of SQLite names as it is. A double quote ends the quoted
name of a path, doubled or not, and a backslash starts an escape. *)
Definition plain_key (key : string) : bool :=
  string_forallb (λ c, negb (Ascii.eqb c dquote_char) && negb (Ascii.eqb c "\")) key.

Definition compare_holds (op : string) (c : Z) : bool :=
  if String.eqb op "=" then (c =? 0)%Z
  else if String.eqb op "<>" then negb (c =? 0)%Z
  else if String.eqb op ">" then (0 <? c)%Z
  else if String.eqb op ">=" then (0 <=? c)%Z
  else if String.eqb op "<" then (c <? 0)%Z
  else if String.eqb op "<=" then (c <=? 0)%Z
  else false.

(** The SQL function [orisun_compare_number]; [None] is NULL. *)
Definition orisun_compare_number (a b : string) : option Z := CompareJSONNumbers a b.

Section Meaning.
Context `{T : SqlText}.

(** The value at [jsonPathLiteral key], if there is one. A path that SQLite refuses
fails the statement, as a statement of a connection may. *)
Definition path_value (doc : gmap string json) (key : string) : option json :=
  if plain_key key then doc !! key else odd_path doc key.

(** The value of [sqliteJSONScalarTextExpr key]: NULL for a missing field and for
JSON null. *)
Definition scalar_text (doc : gmap string json) (key : string) : option string :=
  match path_value doc key with
  | None | Some JNull => None
  | Some (JBool true) => Some "true"
  | Some (JBool false) => Some "false"
  | Some (JString s) => Some s
  | Some v => Some (cast_text v)
  end.

Fixpoint predicate_holds (doc : gmap string json) (p : predicate) : bool :=
  match p with
  | PScalar key op lit =>
      match scalar_text doc key with
      | None => false
      | Some text => compare_holds op (strings_Compare text lit)
      end
  | PRange key op lit =>
      match path_value doc key with
      | Some (JString s) => compare_holds op (strings_Compare s lit)
      | Some (JNumber token) =>
          match orisun_compare_number token lit with
          | Some c => compare_holds op c
          | None => false
          end
      | _ => false
      end
  | PGroup parts => forallb (predicate_holds doc) parts
  end.

Definition where_holds (doc : gmap string json) (w : where_clause) : bool :=
  match w with
  | [] => true
  | w => existsb (forallb (predicate_holds doc)) w
  end.

(** ** The builders *)

Context `{J : GoJson}.

Definition range_or_scalar (key op lit : string) : predicate :=
  if String.eqb op "=" || String.eqb op "<>" then PScalar key op lit
  else PRange key op lit.

Definition render_tag_predicate (key : string) (p : TagPredicate) : result predicate :=
  op ← TagSQLOperator (TP_Operator p);
  lit ← sqlValueLiteral (TP_Value p);
  mret (range_or_scalar key op lit).

Definition scalar_equality (key text : string) : result predicate :=
  match sqlValueLiteral text with
  | Err e => Err (Wrapped "criteria key %q: %w" e)
  | Ok lit => Ok (PScalar key "=" lit)
  end.

Definition renderCriterionPredicate (key : string) (value : anyval) : result predicate :=
  match value with
  | AString s => scalar_equality key s
  | APredicates _ | AJson (JArray _) =>
      predicates ← DecodeTagPredicates value;
      parts ← mapM (render_tag_predicate key) predicates;
      mret (PGroup parts)
  | AJson v => scalar_equality key (sprint v)
  end.

(** The conjunction of one criterion, in key order. *)
Definition criterion_sql (c : gmap string anyval) : result (list predicate) :=
  mapM (λ kv, renderCriterionPredicate kv.1 kv.2) (sorted_entries c).

Definition buildCriteriaSQL (criteria : list (gmap string anyval)) : result where_clause :=
  orParts ← mapM criterion_sql criteria;
  mret (filter (λ ps, ps ≠ []) orParts).

(** ** Consistency lookups: [sqlite/consistency.go] *)

Record criterionLookup := mkLookup {
  lk_criterion : gmap string anyval; lk_where : where_clause }.

Definition criterionContains (criterion subset : gmap string anyval) : bool :=
  if decide (size criterion < size subset) then false
  else forallb (λ kv, bool_decide (criterion !! kv.1 = Some kv.2)) (map_to_list subset).

(** One step of the loop of [minimalCriteria]. *)
Definition add_minimal (minimal : list criterionLookup) (candidate : criterionLookup)
  : list criterionLookup :=
  if existsb (λ e, criterionContains (lk_criterion candidate) (lk_criterion e)) minimal
  then minimal
  else filter (λ e, criterionContains (lk_criterion e) (lk_criterion candidate) = false)
         minimal ++ [candidate].

Definition minimalCriteria (criteria : list criterionLookup) : list criterionLookup :=
  foldl add_minimal [] criteria.

(** The lookup of the latest matching position; [None] has no WHERE clause. *)
Definition latest_query := option where_clause.

Definition render_latest (q : latest_query) : string :=
  let order := " ORDER BY transaction_id DESC, global_id DESC LIMIT 1" in
  let select := "SELECT transaction_id, global_id FROM orisun_es_event" in
  match q with
  | Some w => select +:+ " WHERE " +:+ render_where w +:+ order
  | None => select +:+ order
  end.

Fixpoint criterion_lookups (criteria : list (gmap string anyval))
  : result (list criterionLookup) :=
  match criteria with
  | [] => Ok []
  | criterion :: criteria =>
      if decide (criterion = ∅) then criterion_lookups criteria
      else
        w ← buildCriteriaSQL [criterion];
        rest ← criterion_lookups criteria;
        mret (mkLookup criterion w :: rest)
  end.

Definition latestCriteriaQueries (criteria : list ReadCriterion)
  : result (list latest_query) :=
  lookups ← criterion_lookups (EncodeReadCriteria criteria);
  mret (match (λ l, Some (lk_where l)) <$> minimalCriteria lookups with
        | [] => [None]
        | queries => queries
        end).

Record preparedConsistencyCheck := mkPreparedCheck {
  pc_position : Position; pc_queries : list latest_query; pc_err : option goerror }.

Definition prepareConsistencyChecks (checks : list ConsistencyCheck)
  : list preparedConsistencyCheck :=
  (λ check,
     match latestCriteriaQueries (Criteria check) with
     | Ok queries => mkPreparedCheck (CheckPosition check) queries None
     | Err e => mkPreparedCheck (CheckPosition check) [] (Some e)
     end) <$> checks.

Definition query_holds (doc : gmap string json) (q : latest_query) : bool :=
  match q with Some w => where_holds doc w | None => true end.

End Meaning.

(** ** SQL reads back the literals *)

(** The SQL lexer on a quoted token whose delimiter is [q]: two delimiters in a
row stand for one, a single one ends the token. *)
Fixpoint lex_body (q : ascii) (s : string) : option (string * string) :=
  match s with
  | EmptyString => None
  | String c s =>
      if Ascii.eqb c q then
        match s with
        | String d s' =>
            if Ascii.eqb d q then prod_map (String q) id <$> lex_body q s'
            else Some ("", s)
        | EmptyString => Some ("", "")
        end
      else prod_map (String c) id <$> lex_body q s
  end.

Definition lex_quoted (q : ascii) (s : string) : option (string * string) :=
  match s with
  | String c s => if Ascii.eqb c q then lex_body q s else None
  | EmptyString => None
  end.

Definition not_starting (q : ascii) (s : string) : bool :=
  match s with String c _ => negb (Ascii.eqb c q) | EmptyString => true end.

Lemma lex_body_escaped (q : ascii) (v rest : string) :
  not_starting q rest = true →
  lex_body q (ReplaceAll v q (String q (String q "")) +:+ String q rest) = Some (v, rest).
Proof.
  intros Hr. induction v as [|c v IH]; string_simpl.
  - rewrite Ascii.eqb_refl. destruct rest as [|d rest]; [done|]. simpl in Hr.
    bool_props. by rewrite Hr.
  - destruct (Ascii.eqb_spec c q) as [->|Hne]; string_simpl.
    + rewrite !Ascii.eqb_refl. by rewrite IH.
    + rewrite (proj2 (Ascii.eqb_neq c q)) by done. by rewrite IH.
Qed.

(** No client string escapes its place in the SQL text. Followed by anything
that does not continue the token, an escaped value is read back by the SQL lexer
as exactly that value and nothing of what follows; the same holds for quoted
identifiers. *)
Theorem sql_quoting_roundtrip (v rest : string) :
  (not_starting quote_char rest = true →
     lex_quoted quote_char (sqlEscapeLiteral v +:+ rest) = Some (v, rest))
  ∧ (not_starting dquote_char rest = true →
     lex_quoted dquote_char (quoteIdent v +:+ rest) = Some (v, rest)).
Proof.
  split; intros Hr.
  - unfold sqlEscapeLiteral. rewrite !string_app_assoc.
    by apply (lex_body_escaped quote_char v rest).
  - unfold quoteIdent. rewrite !string_app_assoc.
    by apply (lex_body_escaped dquote_char v rest).
Qed.

(** ** What a built clause means *)

Section Facts.
Context `{T : SqlText, J : GoJson}.

(** A tag on a stored document, as SQL decides it. *)
Definition tag_sql_holds (doc : gmap string json) (t : ReadTag) : bool :=
  match TagSQLOperator (Operator t) with
  | Ok op => predicate_holds doc (range_or_scalar (Key t) op (Value t))
  | Err _ => false
  end.

Definition valid_tag (t : ReadTag) : Prop :=
  ValidateTag (Key t) (Value t) (Operator t) = Ok tt.

Lemma TagSQLOperator_encoded op : TagSQLOperator (encoded_operator op) = TagSQLOperator op.
Proof.
  unfold encoded_operator. by destruct (String.eqb_spec op "") as [->|].
Qed.

Lemma valid_tag_sql t :
  valid_tag t → ∃ op, TagSQLOperator (Operator t) = Ok op ∧ contains_nul (Value t) = false.
Proof.
  intros (_ & _ & Hn & c & Hc)%ValidateTag_ok. unfold TagSQLOperator. rewrite Hc.
  eexists. done.
Qed.

Lemma render_tag_predicates k ts :
  Forall valid_tag ts → Forall (λ t, Key t = k) ts →
  ∃ parts, mapM (render_tag_predicate k) (tag_predicate <$> ts) = Ok parts
    ∧ ∀ doc, forallb (predicate_holds doc) parts = forallb (tag_sql_holds doc) ts.
Proof.
  induction 1 as [|t ts Ht _ IH]; intros Hk; [by exists []|].
  apply Forall_cons in Hk as [Hk Hks]. destruct (IH Hks) as (parts & Hp & Hh).
  destruct (valid_tag_sql t Ht) as (op & Hop & Hn).
  exists (range_or_scalar k op (Value t) :: parts). rewrite fmap_cons, mapM_cons, Hp.
  unfold render_tag_predicate at 1. unfold sqlValueLiteral. simpl.
  rewrite TagSQLOperator_encoded, Hop. simpl. rewrite Hn. simpl.
  split; [done|]. intros doc. simpl. rewrite Hh. unfold tag_sql_holds at 2.
  by rewrite Hop, Hk.
Qed.

(** The clause of one key of a criterion. *)
Lemma render_encoded k ts :
  ts ≠ [] → Forall valid_tag ts → Forall (λ t, Key t = k) ts →
  ∃ p, renderCriterionPredicate k (encode_predicates (tag_predicate <$> ts)) = Ok p
    ∧ ∀ doc, predicate_holds doc p = forallb (tag_sql_holds doc) ts.
Proof.
  intros Hne Hv Hk. destruct (render_tag_predicates k ts Hv Hk) as (parts & Hp & Hh).
  assert (renderCriterionPredicate k (APredicates (tag_predicate <$> ts)) = Ok (PGroup parts))
    as Hg.
  { unfold renderCriterionPredicate. cbn [DecodeTagPredicates mbind result_bind].
    by rewrite Hp. }
  destruct ts as [|t [|u us]]; [done| |by exists (PGroup parts)].
  simpl. destruct (String.eqb_spec (encoded_operator (Operator t)) "eq") as [He|Hne'];
    [|by exists (PGroup parts)].
  apply Forall_cons in Hv as [Ht _]. apply Forall_cons in Hk as [Hk _].
  destruct (valid_tag_sql t Ht) as (op & Hop & Hn).
  exists (PScalar k "=" (Value t)). unfold renderCriterionPredicate, scalar_equality.
  unfold sqlValueLiteral. rewrite Hn. split; [done|]. intros doc. simpl.
  rewrite andb_true_r. unfold tag_sql_holds. rewrite <-TagSQLOperator_encoded, He, Hk. done.
Qed.

(** The fields of a criterion on a document. *)
Definition entry_holds (doc : gmap string json) (kv : string * anyval) : bool :=
  match renderCriterionPredicate kv.1 kv.2 with
  | Ok p => predicate_holds doc p
  | Err _ => false
  end.

Definition fields_hold (doc : gmap string json) (m : gmap string anyval) : bool :=
  forallb (entry_holds doc) (map_to_list m).

Lemma mapM_render_holds doc kvs ps :
  mapM (λ kv, renderCriterionPredicate kv.1 kv.2) kvs = Ok ps →
  forallb (predicate_holds doc) ps = forallb (entry_holds doc) kvs
  ∧ length ps = length kvs.
Proof.
  revert ps. induction kvs as [|kv kvs IH]; intros ps H; simpl in H.
  - by injection H as <-.
  - inv_ok. unfold mret, result_ret in H. inv_ok. subst. simpl.
    destruct (IH _ H1) as [-> ->]. split; [|done]. f_equal.
    unfold entry_holds. by rewrite H0.
Qed.

Lemma buildCriteriaSQL_one m w :
  m ≠ ∅ → buildCriteriaSQL [m] = Ok w →
  w ≠ [] ∧ ∀ doc, where_holds doc w = fields_hold doc m.
Proof.
  intros Hm H. unfold buildCriteriaSQL in H. inv_ok. simpl in H0. inv_ok.
  unfold mret, result_ret in H, H0. inv_ok. subst.
  assert (length x0 = length (map_to_list m)) as Hl.
  { destruct (mapM_render_holds ∅ _ _ H1) as [_ ->].
    by rewrite sorted_entries_Permutation. }
  assert (x0 ≠ []) as Hne.
  { intros ->. apply Hm, map_to_list_empty_iff. by destruct (map_to_list m). }
  rewrite filter_cons_True by done. simpl. split; [done|]. intros doc.
  rewrite orb_false_r. destruct (mapM_render_holds doc _ _ H1) as [-> _].
  apply forallb_ext_elem. intros kv. by rewrite sorted_entries_Permutation.
Qed.

(** An encoded criterion holds when all of its tags hold. *)
Lemma fields_hold_encoded doc tags :
  Forall valid_tag tags →
  fields_hold doc (EncodeCriterion tags) = forallb (tag_sql_holds doc) tags.
Proof.
  intros Hv. apply eq_iff_eq_true. unfold fields_hold. rewrite !forallb_forall.
  setoid_rewrite <-list_elem_of_In. rewrite Forall_forall in Hv.
  assert (∀ k, k ∈ Key <$> tags → ∃ p,
    renderCriterionPredicate k (encode_predicates (tag_predicate <$> of_key k tags)) = Ok p
    ∧ ∀ doc, predicate_holds doc p = forallb (tag_sql_holds doc) (of_key k tags)) as Hr.
  { intros k Hk. apply render_encoded; [by apply of_key_nonempty| |];
      apply Forall_forall; intros t [? ?]%list_elem_of_filter; auto. }
  split.
  - intros H t Ht. assert (Key t ∈ Key <$> tags) as Hk by (apply list_elem_of_fmap; eauto).
    destruct (Hr _ Hk) as (p & Hp & Hh). apply of_key_nonempty in Hk.
    specialize (H (Key t, encode_predicates (tag_predicate <$> of_key (Key t) tags))).
    unfold entry_holds in H. simpl in H. rewrite Hp, Hh in H.
    rewrite forallb_forall in H. setoid_rewrite <-list_elem_of_In in H. apply H.
    + apply elem_of_map_to_list. by apply EncodeCriterion_lookup_Some.
    + by apply list_elem_of_filter.
  - intros H [k v] Hkv%elem_of_map_to_list. unfold entry_holds. simpl.
    assert (of_key k tags ≠ []) as Hne.
    { intros E. by rewrite EncodeCriterion_lookup, E in Hkv. }
    rewrite EncodeCriterion_lookup_Some in Hkv by done. injection Hkv as <-.
    destruct (Hr k) as (p & -> & ->); [by apply of_key_nonempty|].
    apply forallb_forall. setoid_rewrite <-list_elem_of_In.
    intros t [_ Ht]%list_elem_of_filter. by apply H.
Qed.

Lemma buildCriteriaSQL_total tags :
  Forall valid_tag tags → ∃ w, buildCriteriaSQL [EncodeCriterion tags] = Ok w.
Proof.
  intros Hv. unfold buildCriteriaSQL. simpl.
  assert (∃ ps, criterion_sql (EncodeCriterion tags) = Ok ps) as [ps ->]; [|by eexists].
  unfold criterion_sql.
  assert (∀ kv, kv ∈ sorted_entries (EncodeCriterion tags) →
    ∃ p, renderCriterionPredicate kv.1 kv.2 = Ok p) as Hr.
  { intros [k v]. rewrite sorted_entries_Permutation, elem_of_map_to_list. intros Hk.
    assert (of_key k tags ≠ []) as Hne.
    { intros E. by rewrite EncodeCriterion_lookup, E in Hk. }
    rewrite EncodeCriterion_lookup_Some in Hk by done. injection Hk as <-.
    rewrite Forall_forall in Hv. destruct (render_encoded k (of_key k tags)) as (p & ? & _);
      [done|apply Forall_forall; intros t [? ?]%list_elem_of_filter; auto..|eauto]. }
  induction (sorted_entries _) as [|kv kvs IH]; [by eexists|].
  destruct (Hr kv) as [p Hp]; [left|]. simpl. rewrite Hp. simpl.
  destruct IH as [ps ->]; [|by eexists]. intros ? ?. apply Hr. by right.
Qed.

(** ** Simplifying a disjunction *)

Lemma criterionContains_spec c s :
  criterionContains c s = true ↔ s ⊆ c.
Proof.
  unfold criterionContains. rewrite map_subseteq_spec. case_decide as Hsz.
  - split; [done|]. intros Hsub. exfalso.
    assert (size s ≤ size c); [|lia]. by apply map_subseteq_size, map_subseteq_spec.
  - rewrite forallb_forall. setoid_rewrite <-list_elem_of_In.
    setoid_rewrite bool_decide_eq_true. split.
    + intros H k v Hk. by apply (H (k, v)), elem_of_map_to_list.
    + intros H [k v] Hk%elem_of_map_to_list. by apply H.
Qed.

Lemma fields_hold_subset doc s c :
  s ⊆ c → fields_hold doc c = true → fields_hold doc s = true.
Proof.
  unfold fields_hold. rewrite map_subseteq_spec, !forallb_forall.
  setoid_rewrite <-list_elem_of_In. intros Hs H [k v] Hk%elem_of_map_to_list.
  by apply H, elem_of_map_to_list, Hs.
Qed.

Definition lookups_hold (doc : gmap string json) (ls : list criterionLookup) : bool :=
  existsb (λ l, fields_hold doc (lk_criterion l)) ls.

Lemma add_minimal_holds doc ls l :
  lookups_hold doc (add_minimal ls l)
  = lookups_hold doc ls || fields_hold doc (lk_criterion l).
Proof.
  unfold add_minimal, lookups_hold.
  destruct (existsb (λ e, criterionContains _ _) ls) eqn:E.
  - apply existsb_exists in E as (e & He & Hc%criterionContains_spec).
    destruct (fields_hold doc (lk_criterion l)) eqn:Hl; [|by rewrite orb_false_r].
    rewrite orb_true_r. apply existsb_exists. exists e. split; [done|].
    by eapply fields_hold_subset.
  - rewrite existsb_app_b. simpl. rewrite orb_false_r.
    destruct (fields_hold doc (lk_criterion l)) eqn:Hl; [by rewrite !orb_true_r|].
    rewrite !orb_false_r. apply existsb_ext_elem.
    + intros e [_ He]%list_elem_of_filter Hh. eauto.
    + intros e He Hh. exists e. split; [|done]. apply list_elem_of_filter.
      split; [|done]. destruct (criterionContains _ _) eqn:Hc; [|done].
      apply criterionContains_spec in Hc.
      by rewrite (fields_hold_subset _ _ _ Hc Hh) in Hl.
Qed.

Lemma minimalCriteria_holds doc ls :
  lookups_hold doc (minimalCriteria ls) = lookups_hold doc ls.
Proof.
  unfold minimalCriteria.
  assert (∀ acc, lookups_hold doc (foldl add_minimal acc ls)
    = lookups_hold doc acc || lookups_hold doc ls) as H; [|by rewrite H].
  induction ls as [|l ls IH]; intros acc; simpl; [by rewrite orb_false_r|].
  by rewrite IH, add_minimal_holds, <-orb_assoc.
Qed.

Lemma minimalCriteria_sub ls l : l ∈ minimalCriteria ls → l ∈ ls.
Proof.
  unfold minimalCriteria.
  assert (∀ acc, l ∈ foldl add_minimal acc ls → l ∈ acc ∨ l ∈ ls) as H.
  { induction ls as [|x ls IH]; intros acc Hin; simpl in Hin; [by left|].
    apply IH in Hin as [Hin|Hin]; [|right; by right]. unfold add_minimal in Hin.
    case_match; [by left|]. apply elem_of_app in Hin as [[_ ?]%list_elem_of_filter|Hin].
    - by left.
    - apply list_elem_of_singleton in Hin as ->. right. left. }
  intros [?%elem_of_nil|?]%H; done.
Qed.

Lemma minimalCriteria_nonempty ls : ls ≠ [] → minimalCriteria ls ≠ [].
Proof.
  assert (∀ ls acc, acc ≠ [] → foldl add_minimal acc ls ≠ []) as H.
  { clear ls. induction ls as [|x ls IH]; intros acc Hacc; [done|]. simpl. apply IH.
    unfold add_minimal. case_match; [done|]. by intros [_ ?]%app_eq_nil. }
  destruct ls as [|l ls]; [done|]. intros _. by apply (H ls [l]).
Qed.

(** The map of no criterion of the list is included in that of another one. *)
Definition antichain (ls : list criterionLookup) : Prop :=
  ∀ i j a b, ls !! i = Some a → ls !! j = Some b → i ≠ j →
    ¬ lk_criterion a ⊆ lk_criterion b.

Lemma antichain_cons l ls :
  antichain (l :: ls) ↔
  antichain ls ∧ ∀ e, e ∈ ls → ¬ lk_criterion l ⊆ lk_criterion e
                             ∧ ¬ lk_criterion e ⊆ lk_criterion l.
Proof.
  unfold antichain. split.
  - intros H. split.
    + intros i j a b Hi Hj Hne. apply (H (S i) (S j)); auto.
    + intros e [i Hi]%list_elem_of_lookup. split.
      * by apply (H 0 (S i)).
      * by apply (H (S i) 0).
  - intros [H He] [|i] [|j] a b Hi Hj Hne; simpl in Hi, Hj; simplify_eq.
    + apply list_elem_of_lookup_2 in Hj. by apply He.
    + apply list_elem_of_lookup_2 in Hi. by apply He.
    + apply (H i j); auto.
Qed.

Lemma antichain_snoc ls l :
  antichain ls →
  (∀ e, e ∈ ls → ¬ lk_criterion l ⊆ lk_criterion e ∧ ¬ lk_criterion e ⊆ lk_criterion l) →
  antichain (ls ++ [l]).
Proof.
  induction ls as [|x ls IH]; intros Ha He.
  - apply antichain_cons. split; [done|]. by intros e ?%elem_of_nil.
  - apply antichain_cons in Ha as [Ha Hx]. simpl. apply antichain_cons. split.
    + apply IH; [done|]. intros e ?. apply He. by right.
    + intros e [?| ->%list_elem_of_singleton]%elem_of_app; [by apply Hx|].
      destruct (He x); [left|]. done.
Qed.

Lemma antichain_filter ls (P : criterionLookup → Prop) `{!∀ x, Decision (P x)} :
  antichain ls → antichain (filter P ls).
Proof.
  induction ls as [|x ls IH]; intros Ha; [done|].
  apply antichain_cons in Ha as [Ha Hx]. rewrite filter_cons.
  case_decide; [|by apply IH]. apply antichain_cons. split; [by apply IH|].
  intros e [_ ?]%list_elem_of_filter. by apply Hx.
Qed.

Lemma add_minimal_antichain ls l : antichain ls → antichain (add_minimal ls l).
Proof.
  intros Ha. unfold add_minimal. destruct (existsb _ ls) eqn:E; [done|].
  apply antichain_snoc; [by apply antichain_filter|].
  intros e [Hf He]%list_elem_of_filter.
  rewrite <-!criterionContains_spec. split; [by rewrite Hf|].
  intros Hc. rewrite <-not_true_iff_false in E. apply E, existsb_exists.
  exists e. by rewrite <-list_elem_of_In.
Qed.

(** C24: dropping redundant criteria from a consistency query changes nothing. On
every stored document the kept criteria hold exactly when one of the given
criteria holds, and no kept criterion has all the entries of another kept one,
their values compared for equality as the code does. *)
Theorem minimalCriteria_equivalent doc ls :
  lookups_hold doc (minimalCriteria ls) = lookups_hold doc ls
  ∧ antichain (minimalCriteria ls).
Proof.
  split; [apply minimalCriteria_holds|]. unfold minimalCriteria.
  assert (∀ acc, antichain acc → antichain (foldl add_minimal acc ls)) as H; [|by apply H].
  induction ls as [|l ls IH]; intros acc Hacc; [done|]. simpl. apply IH.
  by apply add_minimal_antichain.
Qed.

(** ** The lookups of a consistency check *)

(** The events in the context of a check: those on which all the tags of some
criterion hold; criteria without tags are ignored, and if there is no other the
context is the whole log. *)
Definition context_matches (criteria : list ReadCriterion) (doc : gmap string json) : bool :=
  match filter (λ c, Tags c ≠ []) criteria with
  | [] => true
  | cs => existsb (λ c, forallb (tag_sql_holds doc) (Tags c)) cs
  end.

Lemma EncodeCriterion_empty tags : EncodeCriterion tags = ∅ ↔ tags = [].
Proof.
  split; [|by intros ->]. intros He. destruct tags as [|t ts]; [done|].
  assert (of_key (Key t) (t :: ts) ≠ []) as Hne.
  { apply of_key_nonempty, list_elem_of_fmap. exists t. split; [done|left]. }
  pose proof (EncodeCriterion_lookup_Some _ _ Hne) as H. by rewrite He, lookup_empty in H.
Qed.

Lemma criterion_lookups_ok criteria :
  Forall (λ c, Forall valid_tag (Tags c)) criteria →
  ∃ ls, criterion_lookups (EncodeReadCriteria criteria) = Ok ls
    ∧ Forall (λ l, ∀ doc, where_holds doc (lk_where l) = fields_hold doc (lk_criterion l)) ls
    ∧ lk_criterion <$> ls
      = (λ c, EncodeCriterion (Tags c)) <$> filter (λ c, Tags c ≠ []) criteria.
Proof.
  induction 1 as [|c cs Hc _ (ls & Hls & Hw & Hm)]; [by exists []|].
  unfold EncodeReadCriteria in *. rewrite fmap_cons. cbn [criterion_lookups].
  rewrite filter_cons. destruct (decide (Tags c = [])) as [Hnil|Hne].
  - rewrite decide_True by (by apply EncodeCriterion_empty).
    rewrite decide_False by naive_solver. by exists ls.
  - rewrite decide_False by (by rewrite EncodeCriterion_empty).
    rewrite (decide_True (P := Tags c ≠ [])) by done.
    destruct (buildCriteriaSQL_total (Tags c) Hc) as [w Hb]. rewrite Hb.
    cbn [mbind result_bind]. rewrite Hls. eexists. split; [done|].
    split; [|by rewrite !fmap_cons, Hm]. constructor; [|done]. simpl.
    apply buildCriteriaSQL_one; [|done]. by rewrite EncodeCriterion_empty.
Qed.

(** On valid criteria the lookups of a check are built, and one of them finds a
document exactly when the document is in the context. *)
Lemma latestCriteriaQueries_ok criteria :
  Forall (λ c, Forall valid_tag (Tags c)) criteria →
  ∃ qs, latestCriteriaQueries criteria = Ok qs ∧ qs ≠ []
    ∧ ∀ doc, existsb (query_holds doc) qs = context_matches criteria doc.
Proof.
  intros Hv. destruct (criterion_lookups_ok criteria Hv) as (ls & Hls & Hw & Hm).
  unfold latestCriteriaQueries. rewrite Hls. cbn [mbind result_bind].
  eexists. split; [done|].
  assert (∀ doc, existsb (query_holds doc) ((λ l, Some (lk_where l)) <$> minimalCriteria ls)
    = lookups_hold doc ls) as Hh.
  { intros doc. rewrite <-minimalCriteria_holds. unfold lookups_hold.
    assert (∀ l, l ∈ minimalCriteria ls →
      where_holds doc (lk_where l) = fields_hold doc (lk_criterion l)) as Hl.
    { intros l Hl%minimalCriteria_sub. rewrite Forall_forall in Hw. by apply Hw. }
    induction (minimalCriteria ls) as [|l ks IH]; [done|]. rewrite fmap_cons. simpl.
    rewrite Hl by left. f_equal. apply IH. intros ? ?. apply Hl. by right. }
  assert (∀ doc, ls ≠ [] → lookups_hold doc ls = context_matches criteria doc) as Hc.
  { intros doc Hne. unfold context_matches, lookups_hold.
    assert (∀ c, c ∈ filter (λ c, Tags c ≠ []) criteria → Forall valid_tag (Tags c)) as Hvf.
    { intros c [_ ?]%list_elem_of_filter. rewrite Forall_forall in Hv. by apply Hv. }
    clear Hw Hls Hh. revert ls Hm Hne.
    destruct (filter _ criteria) as [|c cs]; intros ls Hm Hne; [by destruct ls|].
    clear Hne. revert ls Hm Hvf. generalize (c :: cs). clear c cs.
    intros cs. induction cs as [|c cs IH]; intros [|l ls] Hm Hvf; try done.
    rewrite !fmap_cons in Hm. injection Hm as Hl Hm. simpl.
    rewrite Hl, fields_hold_encoded by (apply Hvf; left). f_equal.
    apply IH; [done|]. intros ? ?. apply Hvf. by right. }
  destruct ls as [|l ls].
  - split; [done|]. intros doc. simpl. unfold context_matches.
    by destruct (filter _ criteria).
  - pose proof (minimalCriteria_nonempty (l :: ls)) as Hn.
    destruct (minimalCriteria (l :: ls)) as [|k ks] eqn:E; [by destruct Hn|].
    split; [done|]. intros doc. rewrite <-Hc by done. by rewrite <-Hh.
Qed.

(** ** SQL and Go decide tags alike *)

(** The scalar that a Go evaluator decodes from a JSON value. *)
Definition tagvalue_of (v : json) : option tagvalue :=
  match v with
  | JNull => Some VNil
  | JBool b => Some (VBool b)
  | JNumber t => Some (VNumber t)
  | JString s => Some (VString s)
  | JArray _ | JObject _ => None
  end.

Lemma strings_Compare_zero a b : (strings_Compare a b =? 0)%Z = String.eqb a b.
Proof.
  unfold strings_Compare. destruct (String.eqb_spec a b) as [->|Hne].
  - pose proof (String.compare_antisym b b). by destruct (String.compare b b).
  - destruct (String.compare a b) eqn:E; [|done..]. by apply String.compare_eq_iff in E.
Qed.

Lemma compare_holds_eq a b : compare_holds "=" (strings_Compare a b) = String.eqb a b.
Proof. apply strings_Compare_zero. Qed.

Lemma compare_holds_ne a b :
  compare_holds "<>" (strings_Compare a b) = negb (String.eqb a b).
Proof. unfold compare_holds. simpl. by rewrite strings_Compare_zero. Qed.

Lemma TagSQLOperator_canonical op c :
  CanonicalTagOperator op = Ok c →
  c = "eq" ∧ TagSQLOperator op = Ok "=" ∨ c = "ne" ∧ TagSQLOperator op = Ok "<>"
  ∨ c = "gt" ∧ TagSQLOperator op = Ok ">" ∨ c = "gte" ∧ TagSQLOperator op = Ok ">="
  ∨ c = "lt" ∧ TagSQLOperator op = Ok "<" ∨ c = "lte" ∧ TagSQLOperator op = Ok "<=".
Proof.
  intros Hc. unfold TagSQLOperator. rewrite Hc.
  apply CanonicalTagOperator_ok in Hc as [Hin _].
  rewrite !elem_of_cons, elem_of_nil in Hin.
  destruct Hin as [->|[->|[->|[->|[->|[->|[]]]]]]]; vm_compute; naive_solver.
Qed.

(** The scalar that SQL compares: for equality and inequality a number is the text that
SQLite renders it as, everything else is the stored scalar. *)
Definition compared (operator : string) (v : json) (tv : tagvalue) : tagvalue :=
  match v, CanonicalTagOperator operator with
  | JNumber _, Ok c => if String.eqb c "eq" || String.eqb c "ne" then VNumber (cast_text v) else tv
  | _, _ => tv
  end.

(** C23: the SQL predicate of a tag decides as the Go evaluator [MatchTagValue]. On a
valid tag whose key has no double quote and no backslash, and a scalar field, null and
booleans included, they give the same answer, where for eq and ne on a number the Go
evaluator is given the number as SQLite renders it as text; so they agree on the stored
token where SQLite renders it as it is written. A missing field matches nothing. *)
Theorem sql_matches_go doc t :
  valid_tag t → plain_key (Key t) = true →
  match doc !! Key t with
  | None => tag_sql_holds doc t = false
  | Some v => ∀ tv, tagvalue_of v = Some tv →
      tag_sql_holds doc t = MatchTagValue (compared (Operator t) v tv) (Value t) (Operator t)
  end.
Proof.
  intros (_ & _ & _ & c & Hc)%ValidateTag_ok Hp.
  unfold tag_sql_holds, MatchTagValue, compared. rewrite Hc.
  assert (∀ a b, String.eqb a b = String.eqb b a) as Hsym by (intros; apply String.eqb_sym).
  destruct (doc !! Key t) as [v|] eqn:Hd; [intros tv Htv|];
  (destruct (TagSQLOperator_canonical _ _ Hc)
    as [[-> ->]|[[-> ->]|[[-> ->]|[[-> ->]|[[-> ->]|[-> ->]]]]]];
    unfold range_or_scalar; simpl; unfold scalar_text, path_value; rewrite Hp, Hd; [..]);
    try done;
    destruct v as [|[]|token|s|l|l]; simplify_eq/=; try done;
    rewrite ?compare_holds_eq, ?compare_holds_ne; try done; by rewrite Hsym.
Qed.

End Facts.

(** ** Witnesses *)

(** Integers are rendered in decimal. *)
Definition example_sql_text : SqlText := {|
  sprint _ := "";
  cast_text v :=
    match v with
    | JNumber t => match ParseInt t with Some z => FormatInt z | None => t end
    | _ => ""
    end;
  arrow_text v := write_json v;
  odd_path _ _ := None |}.

Definition example_doc : gmap string json :=
  {[ "order" := JString "o'1"; "amount" := JNumber "12.50"; "count" := JNumber "12";
     "zero" := JNumber "-0" ]}.

Lemma sql_quoting_roundtrip_witness :
  lex_quoted quote_char (sqlEscapeLiteral "o'1" +:+ " OR 1") = Some ("o'1", " OR 1").
Proof. apply sql_quoting_roundtrip. reflexivity. Defined.

(** Equality on an integer, where the two agree on the token, and on [-0], where SQLite
renders 0; a range on a decimal; and a missing field. *)
Lemma sql_matches_go_witness :
  let holds k v op := @tag_sql_holds example_sql_text example_doc (mkReadTag k v op) in
  holds "count" "12" "eq" = MatchTagValue (VNumber "12") "12" "eq"
  ∧ holds "zero" "-0" "eq" = MatchTagValue (VNumber "0") "-0" "eq"
  ∧ holds "amount" "12.4" "gte" = MatchTagValue (VNumber "12.50") "12.4" "gte"
  ∧ holds "absent" "1" "ne" = false.
Proof.
  split_and!.
  - exact (@sql_matches_go example_sql_text example_doc (mkReadTag "count" "12" "eq")
      eq_refl eq_refl (VNumber "12") eq_refl).
  - exact (@sql_matches_go example_sql_text example_doc (mkReadTag "zero" "-0" "eq")
      eq_refl eq_refl (VNumber "-0") eq_refl).
  - exact (@sql_matches_go example_sql_text example_doc (mkReadTag "amount" "12.4" "gte")
      eq_refl eq_refl (VNumber "12.50") eq_refl).
  - exact (@sql_matches_go example_sql_text example_doc (mkReadTag "absent" "1" "ne")
      eq_refl eq_refl).
Defined.

(** What the criteria of the lookups [{n: [gt 5]}] and [{n: [gt 5, lt 9]}] are, although the
second one implies the first: two kept criteria. *)
Definition example_lookup (tags : list ReadTag) : criterionLookup :=
  mkLookup (EncodeCriterion tags) [].

Example implied_criterion_kept :
  let gt := mkReadTag "n" "5" "gt" in let lt := mkReadTag "n" "9" "lt" in
  length (minimalCriteria [example_lookup [gt]; example_lookup [gt; lt]]) = 2.
Proof. reflexivity. Qed.
