(* ===== verification/Sql.v ===== *)
(** * Connections to a SQLite database

Statements are functions on the tables of a database, of any type [T]; they run
on a connection that can fail any of them ([c_faults]). A statement fails without
effect, or its failure makes SQLite roll back the transaction that is open
(SQLITE_FULL, SQLITE_IOERR, SQLITE_NOMEM, SQLITE_INTERRUPT). Transactions and
savepoints are operations of the library [sqlitex]: the class [Transactions]
with the laws [TransactionLaws]. *)

From stdpp Require Import options.
From S2P Require Import Prelude Status.

Set Default Proof Using "Type*".

(** What the next statement meets. *)
Inductive fault := Fails (e : goerror) | RollsBack (e : goerror).

(** [c_open] holds the tables as they were when the open transaction began; [None] is
autocommit mode. *)
Record Connection (T : Type) := mkConnection {
  c_tables : T;
  c_faults : list (option fault);  (* whether the next statements fail *)
  c_open : option T }.
Arguments mkConnection {T} _ _ _.
Arguments c_tables {T} _.
Arguments c_faults {T} _.
Arguments c_open {T} _.

(** A connection with no transaction open. *)
Notation mkConn t fs := (mkConnection t fs None).

Definition statement (T A : Type) : Type := Connection T → result A * Connection T.

#[export] Instance stm_ret {T} : MRet (statement T) := λ A a c, (Ok a, c).
#[export] Instance stm_bind {T} : MBind (statement T) := λ A B f m c,
  match m c with (Ok a, c') => f a c' | (Err e, c') => (Err e, c') end.

Definition stm_fail {T A} (e : goerror) : statement T A := λ c, (Err e, c).

Definition stm_lift {T A} (r : result A) : statement T A := λ c, (r, c).

(** One SQL statement: it fails without effect, or with the transaction rolled back, or it
runs. *)
Definition Execute {T A} (f : T → result (A * T)) : statement T A := λ c,
  match c_faults c with
  | Some (Fails e) :: fs => (Err e, mkConnection (c_tables c) fs (c_open c))
  | Some (RollsBack e) :: fs => (Err e, mkConnection (default (c_tables c) (c_open c)) fs None)
  | fs =>
      let fs := tail fs in
      match f (c_tables c) with
      | Ok (a, t) => (Ok a, mkConnection t fs (c_open c))
      | Err e => (Err e, mkConnection (c_tables c) fs (c_open c))
      end
  end.

(** Rewrite the error of a step. *)
Definition map_err {T A} (f : goerror → goerror) (m : statement T A) : statement T A := λ c,
  match m c with (Ok a, c') => (Ok a, c') | (Err e, c') => (Err (f e), c') end.

(** [sqlitex.Save] and [sqlitex.ImmediateTransaction] around the work that follows
them, with the deferred release. *)
Class Transactions (T : Type) := {
  sqlitex_Save : ∀ {A}, statement T A → statement T A;
  sqlitex_Immediate : ∀ {A}, statement T A → statement T A }.

(** The connection inside a savepoint or a transaction: the outermost one opens the
transaction. *)
Definition opened {T} (c : Connection T) : Connection T :=
  mkConnection (c_tables c) (c_faults c) (Some (default (c_tables c) (c_open c))).

(** No failure of a statement rolls the transaction back. *)
Definition rolls_back (f : option fault) : bool :=
  match f with Some (RollsBack _) => true | _ => false end.
Definition kept {T} (c : Connection T) : Prop := Forall (λ f, rolls_back f = false) (c_faults c).

(** The failures that are still to come. *)
Definition later {T} (c c' : Connection T) : Prop := c_faults c' `suffix_of` c_faults c.

#[export] Instance later_preorder {T} : PreOrder (@later T).
Proof.
  split; [by intros c; unfold later|]. unfold later. intros c1 c2 c3 H12 H23. by etrans.
Qed.

(** How a bracket ends when the work has ended in [r1] and [c1]. If the transaction was rolled
back under the work, the connection is in autocommit mode and the deferred function returns
without doing anything. Otherwise the effects of work that succeeds are kept, unless it cannot be
released, and those of work that fails are undone; releasing can itself roll everything back. *)
Definition bracket_end {T A} (c : Connection T) (r1 : result A) (c1 : Connection T)
    (r : result A) (c' : Connection T) : Prop :=
  match c_open c1 with
  | None => r = r1 ∧ c_tables c' = c_tables c1 ∧ c_open c' = None
  | Some base =>
      (is_ok r1 = true ∧ r = r1 ∧ c_tables c' = c_tables c1 ∧ c_open c' = c_open c)
      ∨ (is_ok r = false ∧ c_tables c' = c_tables c ∧ c_open c' = c_open c)
      ∨ (is_ok r = false ∧ c_tables c' = base ∧ c_open c' = None ∧ ¬ kept c)
  end.

(** A bracket does not begin, or runs the work inside. [nests] says that it can begin in an open
transaction, as a savepoint can. *)
Definition bracketed {T A} (nests : bool) (body bracket : statement T A) : Prop := ∀ c r c',
  bracket c = (r, c') →
  (is_ok r = false ∧ c_tables c' = c_tables c ∧ c_open c' = c_open c ∧ later c c')
  ∨ ∃ c0 r1 c1, (nests = true ∨ c_open c = None) ∧ later c c0
      ∧ c_tables c0 = c_tables c ∧ c_open c0 = c_open (opened c)
      ∧ body c0 = (r1, c1) ∧ later c1 c' ∧ bracket_end c r1 c1 r c'.

(** On a connection where nothing fails the bracket has the result of the work. *)
Definition bracket_clean {T A} (nests : bool) (body bracket : statement T A) : Prop := ∀ c r c1,
  c_faults c = [] → nests = true ∨ c_open c = None →
  body (opened c) = (r, c1) → c_faults c1 = [] → c_open c1 = c_open (opened c) →
  ∃ c2, bracket c = (r, c2) ∧ c_faults c2 = [] ∧ c_open c2 = c_open c
    ∧ c_tables c2 = match r with Ok _ => c_tables c1 | Err _ => c_tables c end.

Class TransactionLaws (T : Type) `{X : !Transactions T} : Prop := {
  Save_bracketed {A} (body : statement T A) : bracketed true body (sqlitex_Save body);
  Immediate_bracketed {A} (body : statement T A) :
    bracketed false body (sqlitex_Immediate body);
  Save_clean {A} (body : statement T A) : bracket_clean true body (sqlitex_Save body);
  Immediate_clean {A} (body : statement T A) :
    bracket_clean false body (sqlitex_Immediate body) }.

(** ** Running statements *)

Lemma later_kept {T} (c c' : Connection T) : later c c' → kept c → kept c'.
Proof. unfold later, kept. intros [k ->]. by intros [_ ?]%Forall_app. Qed.

(** No statement fails; and no transaction is open. *)
Definition fault_free {T} (c : Connection T) : Prop := c_faults c = [].
Definition clean {T} (c : Connection T) : Prop := fault_free c ∧ c_open c = None.

Lemma later_fault_free {T} (c c' : Connection T) : later c c' → fault_free c → fault_free c'.
Proof. unfold later, fault_free. intros [k Hk] E. rewrite E in Hk. by destruct k. Qed.

Lemma fault_free_kept {T} (c : Connection T) : fault_free c → kept c.
Proof. unfold fault_free, kept. by intros ->. Qed.

Lemma Execute_ok {T A} (f : T → result (A * T)) c a c' :
  Execute f c = (Ok a, c') → f (c_tables c) = Ok (a, c_tables c').
Proof.
  unfold Execute. destruct (c_faults c) as [|[[]|] fs]; intros H; simplify_eq;
    destruct (f (c_tables c)) as [[b t]|]; by simplify_eq.
Qed.

Lemma Execute_clean {T A} (f : T → result (A * T)) c :
  fault_free c →
  Execute f c = match f (c_tables c) with
                | Ok (a, t) => (Ok a, mkConnection t [] (c_open c))
                | Err e => (Err e, mkConnection (c_tables c) [] (c_open c))
                end.
Proof. unfold fault_free, Execute. by intros ->. Qed.

Lemma stm_bind_eq {T A B} (m : statement T A) (f : A → statement T B) c :
  (m ≫= f) c = match m c with (Ok a, c') => f a c' | (Err e, c') => (Err e, c') end.
Proof. done. Qed.

Lemma stm_bind_ok {T A B} (m : statement T A) (f : A → statement T B) c b c' :
  (m ≫= f) c = (Ok b, c') → ∃ a c1, m c = (Ok a, c1) ∧ f a c1 = (Ok b, c').
Proof. rewrite stm_bind_eq. destruct (m c) as [[a|e] c1]; naive_solver. Qed.

Lemma stm_bind_inv {T A B} (m : statement T A) (f : A → statement T B) c r c' :
  (m ≫= f) c = (r, c') →
  (∃ a c1, m c = (Ok a, c1) ∧ f a c1 = (r, c')) ∨ (∃ e, m c = (Err e, c') ∧ r = Err e).
Proof. rewrite stm_bind_eq. destruct (m c) as [[a|e] c1]; naive_solver. Qed.

Lemma map_err_inv {T A} g (m : statement T A) c r c' :
  map_err g m c = (r, c') → ∃ r1, m c = (r1, c') ∧ is_ok r = is_ok r1
    ∧ ∀ a, r = Ok a ↔ r1 = Ok a.
Proof.
  unfold map_err. destruct (m c) as [[a|e] c1]; intros [= <- <-]; eexists; split_and!; naive_solver.
Qed.

(** ** Sequences of statements *)

(** The transaction was rolled back, and the sequence has ended with an error. *)
Definition gave_up {T A} (c : Connection T) (r : result A) (c' : Connection T) : Prop :=
  ∃ base, c_open c = Some base ∧ c_tables c' = base ∧ c_open c' = None ∧ is_ok r = false.

(** A sequence of statements that ends at the first error: it leaves the transaction as it is, or
it has given up. While no failure rolls back it leaves it as it is. *)
Definition steady {T A} (m : statement T A) : Prop := ∀ c r c', m c = (r, c') →
  later c c' ∧ (c_open c' = c_open c ∨ gave_up c r c') ∧ (kept c → c_open c' = c_open c).

(** A sequence of reads, moreover, leaves the tables as they are. *)
Definition reading {T A} (m : statement T A) : Prop := steady m ∧ ∀ c r c', m c = (r, c') →
  c_tables c' = c_tables c ∨ gave_up c r c'.

Lemma gave_up_closed {T A} (c : Connection T) (r : result A) c' :
  c_open c = None → ¬ gave_up c r c'.
Proof. intros H (base & ? & _). congruence. Qed.

Lemma steady_ok {T A} (m : statement T A) c a c' :
  steady m → m c = (Ok a, c') → c_open c' = c_open c.
Proof. intros Hm H. destruct (Hm _ _ _ H) as (_ & [?|(? & _ & _ & _ & ?)] & _); done. Qed.

Lemma steady_fault_free {T A} (m : statement T A) c r c' :
  steady m → m c = (r, c') → fault_free c → fault_free c' ∧ c_open c' = c_open c.
Proof.
  intros Hm H Hc. destruct (Hm _ _ _ H) as (Hl & _ & Hk).
  split; [by eapply later_fault_free|by apply Hk, fault_free_kept].
Qed.

Lemma steady_ret {T A} (a : A) : steady (T := T) (mret a).
Proof. intros c r c' [= <- <-]. split_and!; [done|by left|done]. Qed.

Lemma steady_lift {T A} (r : result A) : steady (T := T) (stm_lift r).
Proof. intros c r' c' [= <- <-]. split_and!; [done|by left|done]. Qed.

Lemma steady_fail {T A} e : steady (T := T) (A := A) (stm_fail e).
Proof. intros c r c' [= <- <-]. split_and!; [done|by left|done]. Qed.

Lemma steady_bind {T A B} (m : statement T A) (f : A → statement T B) :
  steady m → (∀ a, steady (f a)) → steady (m ≫= f).
Proof.
  intros Hm Hf c r c' H. apply stm_bind_inv in H as [(a & c1 & E & H)|(e & E & ->)].
  - pose proof (steady_ok _ _ _ _ Hm E) as Ho. destruct (Hm _ _ _ E) as (Hl & _ & _).
    destruct (Hf _ _ _ _ H) as (Hl' & H' & Hk'). unfold gave_up in *. rewrite Ho in *.
    split_and!; [by etrans|done|]. intros Hc. by apply Hk', (later_kept c).
  - by destruct (Hm _ _ _ E) as (? & H' & Hk).
Qed.

Lemma steady_map_err {T A} g (m : statement T A) : steady m → steady (map_err g m).
Proof.
  intros Hm c r c' (r1 & E & Hr & _)%map_err_inv. destruct (Hm _ _ _ E) as (Hl & H & Hk).
  unfold gave_up. by rewrite Hr.
Qed.

Lemma steady_Execute {T A} (f : T → result (A * T)) : steady (Execute f).
Proof.
  intros c r c' H. unfold Execute, later, kept in *.
  destruct (c_faults c) as [|[[e|e]|] fs] eqn:Ef; simpl in H.
  - destruct (f (c_tables c)) as [[b t]|]; injection H as <- <-; (split_and!; [done|by left|done]).
  - injection H as <- <-. split_and!; [by apply suffix_cons_r|by left|done].
  - injection H as <- <-. split_and!; [by apply suffix_cons_r| |].
    + unfold gave_up. simpl. destruct (c_open c) as [b|]; [right; by exists b|by left].
    + by intros [? _]%Forall_cons.
  - destruct (f (c_tables c)) as [[b t]|]; injection H as <- <-;
      (split_and!; [by apply suffix_cons_r|by left|done]).
Qed.

Lemma reading_Execute {T A} (f : T → result (A * T)) :
  (∀ t a t', f t = Ok (a, t') → t' = t) → reading (Execute f).
Proof.
  intros Hf. split; [apply steady_Execute|]. intros c r c' H. unfold Execute in H.
  destruct (c_faults c) as [|[[e|e]|] fs] eqn:Ef; simpl in H.
  - destruct (f (c_tables c)) as [[b t]|] eqn:E; injection H as <- <-; left; [by apply Hf in E|done].
  - injection H as <- <-. by left.
  - injection H as <- <-. unfold gave_up. simpl.
    destruct (c_open c) as [b|]; [right; by exists b|by left].
  - destruct (f (c_tables c)) as [[b t]|] eqn:E; injection H as <- <-; left; [by apply Hf in E|done].
Qed.

Lemma reading_ok {T A} (m : statement T A) c a c' :
  reading m → m c = (Ok a, c') → c_tables c' = c_tables c.
Proof. intros [_ Hm] H. destruct (Hm _ _ _ H) as [?|(? & _ & _ & _ & ?)]; done. Qed.

Lemma reading_ret {T A} (a : A) : reading (T := T) (mret a).
Proof. split; [apply steady_ret|]. intros c r c' [= <- <-]. by left. Qed.

Lemma reading_fail {T A} e : reading (T := T) (A := A) (stm_fail e).
Proof. split; [apply steady_fail|]. intros c r c' [= <- <-]. by left. Qed.

Lemma reading_bind {T A B} (m : statement T A) (f : A → statement T B) :
  reading m → (∀ a, reading (f a)) → reading (m ≫= f).
Proof.
  intros Hm Hf. split; [apply steady_bind; [apply Hm|intros a; apply Hf]|]. intros c r c' H.
  apply stm_bind_inv in H as [(a & c1 & E & H)|(e & E & ->)].
  - pose proof (reading_ok _ _ _ _ Hm E) as Ht. pose proof (steady_ok _ _ _ _ (proj1 Hm) E) as Ho.
    destruct (proj2 (Hf a) _ _ _ H) as [H'|H']; [left; congruence|right].
    unfold gave_up in *. by rewrite Ho in H'.
  - by destruct (proj2 Hm _ _ _ E) as [H'|H']; [left|right].
Qed.

Lemma reading_map_err {T A} g (m : statement T A) : reading m → reading (map_err g m).
Proof.
  intros [Hs Hm]. split; [by apply steady_map_err|].
  intros c r c' (r1 & E & Hr & _)%map_err_inv. unfold gave_up. rewrite Hr. by apply Hm in E.
Qed.

(** ** Brackets around sequences *)

Lemma err_of {A} (r : result A) : is_ok r = false → ∃ e, r = Err e.
Proof. destruct r; [done|eauto]. Qed.

(** A bracket around a sequence, whatever fails: either the sequence succeeds and its effects are
kept, or the bracket fails and everything is as before it, or everything is as before the
transaction that it stands in. *)
Lemma bracket_steady {T A} nests (body bracket : statement T A) c r c' :
  bracketed nests body bracket → steady body → bracket c = (r, c') →
  (is_ok r = false ∧ c_tables c' = c_tables c ∧ c_open c' = c_open c)
  ∨ (∃ a c0 c1, r = Ok a ∧ c_tables c0 = c_tables c ∧ body c0 = (Ok a, c1)
       ∧ c_tables c' = c_tables c1 ∧ c_open c' = c_open c)
  ∨ gave_up c r c' ∧ nests = true.
Proof.
  intros Hb Hs H. destruct (Hb _ _ _ H)
    as [(? & ? & ? & _)|(c0 & r1 & c1 & Hn & _ & Ht & Ho & E & _ & Hend)]; [by left|].
  assert (∀ t, c_open c' = None → c_tables c' = t → t = default (c_tables c) (c_open c) →
    is_ok r = false →
    (is_ok r = false ∧ c_tables c' = c_tables c ∧ c_open c' = c_open c)
    ∨ gave_up c r c' ∧ nests = true) as Hback.
  { intros t Ho' Ht' -> Hr. unfold gave_up. destruct (c_open c) as [b|] eqn:Ec; simpl in Ht'.
    - destruct Hn as [->|]; [|done]. right. split; [|done]. exists b. by split_and!.
    - left. by split_and!. }
  destruct (Hs _ _ _ E) as (_ & Hcase & _). unfold bracket_end in Hend.
  destruct (c_open c1) as [b|] eqn:Ec1.
  - destruct Hcase as [Hob|(? & _ & _ & ? & _)]; [|congruence]. rewrite Ho in Hob. simpl in Hob.
    injection Hob as ->.
    destruct Hend as [(Hr1 & -> & Ht' & Ho')|[?|(Hr & Ht' & Ho' & _)]]; [|by left|].
    + right; left. destruct r1 as [a|]; [|done]. by exists a, c0, c1.
    + destruct (Hback _ Ho' Ht' eq_refl Hr); tauto.
  - destruct Hend as (-> & Ht' & Ho').
    destruct Hcase as [Hob|(b & Hob & Hb' & _ & Hr)]; [by rewrite Ho in Hob|].
    rewrite Ho in Hob. simpl in Hob. injection Hob as <-.
    destruct (Hback _ Ho' Ht' Hb' Hr); tauto.
Qed.

Lemma steady_bracket {T A} nests (body bracket : statement T A) :
  bracketed nests body bracket → steady body → steady bracket.
Proof.
  intros Hb Hs c r c' H. split_and!.
  - destruct (Hb _ _ _ H) as [(_ & _ & _ & ?)|(c0 & r1 & c1 & _ & Hl0 & _ & _ & E & Hl & _)];
      [done|]. destruct (Hs _ _ _ E) as (Hl1 & _). by do 2 (etrans; [done|]).
  - destruct (bracket_steady _ _ _ _ _ _ Hb Hs H)
      as [(_ & _ & ?)|[(a & c0 & c1 & _ & _ & _ & _ & ?)|[? _]]]; auto.
  - intros Hk. destruct (Hb _ _ _ H)
      as [(_ & _ & ? & _)|(c0 & r1 & c1 & _ & Hl0 & _ & Ho & E & _ & Hend)]; [done|].
    destruct (Hs _ _ _ E) as (_ & _ & Hk1). specialize (Hk1 (later_kept _ _ Hl0 Hk)).
    unfold bracket_end in Hend. rewrite Hk1, Ho in Hend. simpl in Hend.
    destruct Hend as [(_ & _ & _ & ?)|[(_ & _ & ?)|(_ & _ & _ & Hn)]]; done.
Qed.

Section Brackets.
Context {T : Type} `{XL : TransactionLaws T}.

Lemma steady_Save {A} (body : statement T A) : steady body → steady (sqlitex_Save body).
Proof. apply (steady_bracket true), Save_bracketed. Qed.

(** A transaction of its own is all or nothing. *)
Lemma Immediate_steady {A} (body : statement T A) c r c' :
  steady body → sqlitex_Immediate body c = (r, c') →
  (∃ e, r = Err e ∧ c_tables c' = c_tables c)
  ∨ (∃ a c0 c1, r = Ok a ∧ c_tables c0 = c_tables c
       ∧ body c0 = (Ok a, c1) ∧ c_tables c' = c_tables c1).
Proof.
  intros Hs H. destruct (bracket_steady _ _ _ _ _ _ (Immediate_bracketed body) Hs H)
    as [(Hr%err_of & Ht & _)|[(a & c0 & c1 & -> & Ht & E & Ht' & _)|[_ ?]]]; [|eauto 10|done].
  left. destruct Hr as [e ->]. eauto.
Qed.

End Brackets.

(** ** A concrete transaction library *)

Definition example_Save {T A} (body : statement T A) : statement T A := λ c,
  match body (opened c) with
  | (r, c1) =>
      match c_open c1, r with
      | None, _ => (r, c1)
      | Some _, Ok a => (Ok a, mkConnection (c_tables c1) (c_faults c1) (c_open c))
      | Some _, Err e => (Err e, mkConnection (c_tables c) (c_faults c1) (c_open c))
      end
  end.

Definition example_Immediate {T A} (body : statement T A) : statement T A := λ c,
  match c_open c with
  | Some _ => (Err (PlainError "cannot start a transaction within a transaction"), c)
  | None => example_Save body c
  end.

Definition example_sqlitex {T} : Transactions T := {|
  sqlitex_Save := @example_Save T;
  sqlitex_Immediate := @example_Immediate T |}.

Lemma example_sqlitex_laws {T} : @TransactionLaws T example_sqlitex.
Proof.
  assert (∀ A (body : statement T A) c r c', example_Save body c = (r, c') →
    ∃ r1 c1, body (opened c) = (r1, c1) ∧ later c1 c' ∧ bracket_end c r1 c1 r c') as Hs.
  { intros A body c r c' H. unfold example_Save in H. destruct (body (opened c)) as [r1 c1].
    exists r1, c1. unfold bracket_end.
    destruct (c_open c1) eqn:Eo, r1; injection H as <- <-; (split; [done|]); (split; [by unfold later|]).
    - left. by split_and!.
    - right; left. by split_and!.
    - by split_and!.
    - by split_and!. }
  assert (∀ A (body : statement T A), bracket_clean true body (example_Save body)) as Hc.
  { intros A body c r c1 _ _ E Hc1 Ho. unfold example_Save. rewrite E, Ho.
    destruct r; eexists; by split_and!. }
  split.
  - intros A body c r c' (r1 & c1 & E & Hk & Hend)%Hs. right. exists (opened c), r1, c1.
    split_and!; auto; by unfold later.
  - intros A body c r c' H. cbn in H. unfold example_Immediate in H.
    destruct (c_open c) eqn:Eo; [injection H as <- <-; left; by split_and!|].
    apply Hs in H as (r1 & c1 & E & Hk & Hend). right. exists (opened c), r1, c1.
    split_and!; auto; by unfold later.
  - exact Hc.
  - intros A body c r c1 Hf [?|Ho] E Hc1 Ho1; [done|]. cbn. unfold example_Immediate.
    destruct (Hc A body c r c1) as (c2 & Hx); [auto..|]. exists c2. by rewrite Ho in *.
Qed.
