(* ===== verification/SqliteStore.v ===== *)
(** * The SQLite event log: [sqlite/migration.go] (the event tables),
[sqlite/group_commit_request.go], [sqlite/group_commit_executor.go], the write path
of [sqlite/sqlite_eventstore.go], [sqlite/consistency.go], [sqlite/write_context.go]

The tables of one boundary are data; the SQL statements of the code are functions
on them that enforce the constraints of the schema. Statements run on a
connection that can fail any of them ([Sql.v]). *)

From stdpp Require Import options.
From S2P Require Import Prelude Status Model Number Json Predicates Consistency EventData.
From S2P Require Import WriteContext SqlPredicates Sql.

Set Default Proof Using "Type*".

(** ** Tables *)

(** A row of [orisun_es_event]: its text and the object the text denotes. *)
Record Row := mkRow { row_data : string; row_doc : gmap string json }.

Record Tables := mkTables {
  t_events : list Row;              (* orisun_es_event, in insertion order *)
  t_writes : gmap Z string;         (* orisun_es_write *)
  t_next_id : Z }.                  (* orisun_es_seq *)

Definition empty_tables : Tables := mkTables [] ∅ 1.

(** The generated columns. *)
Definition int_field (doc : gmap string json) (key : string) : option Z :=
  match doc !! key with Some (JNumber t) => ParseInt t | _ => None end.

Definition text_field (doc : gmap string json) (key : string) : option string :=
  match doc !! key with Some (JString s) => Some s | _ => None end.

Definition row_transaction_id (r : Row) : option Z := int_field (row_doc r) "__commitPosition".
Definition row_global_id (r : Row) : option Z := int_field (row_doc r) "__preparePosition".
Definition row_date_created (r : Row) : option string := text_field (row_doc r) "__dateCreated".

(** [substr(x, instr(x, ':') + 1)]. *)
Fixpoint find_colon (s : string) : option string :=
  match s with
  | EmptyString => None
  | String c s => if Ascii.eqb c ":" then Some s else find_colon s
  end.
Definition after_colon (s : string) : string := default s (find_colon s).

(** [CAST(text AS INTEGER)]: the longest numeric prefix, clamped to 64 bits. *)
Fixpoint digits_prefix (acc : N) (s : string) : N :=
  match s with
  | String c s => if is_digit c then digits_prefix (10 * acc + digit_val c) s else acc
  | EmptyString => acc
  end.
Fixpoint skip_spaces (s : string) : string :=
  match s with
  | String c s' => if Ascii.eqb c " " then skip_spaces s' else s
  | EmptyString => ""
  end.
Definition cast_integer (s : string) : Z :=
  match skip_spaces s with
  | String "-" s => Z.max MinInt64 (- Z.of_N (digits_prefix 0 s))
  | String "+" s => Z.min MaxInt64 (Z.of_N (digits_prefix 0 s))
  | s => Z.min MaxInt64 (Z.of_N (digits_prefix 0 s))
  end.

Definition row_write_id (r : Row) : option Z :=
  (λ s, cast_integer (after_colon s)) <$> text_field (row_doc r) "__writeId".

Definition row_pos (r : Row) : Position :=
  mkPosition (default 0%Z (row_transaction_id r)) (default 0%Z (row_global_id r)).

(** ** Connections to these tables *)

Notation Conn := (Connection Tables).
Notation stm := (statement Tables).
Notation Sqlitex := (Transactions Tables).
Notation SqlitexLaws := (TransactionLaws Tables).

(** ** Requests *)

(** [preparedSQLiteSave]. [ps_ctx] is what [ctx.Err()] returns when the turn of the
request comes, and [ps_now] what [time.Now().UTC().Format(time.RFC3339Nano)]
returns when its events are inserted. *)
Record preparedSQLiteSave := mkSave {
  ps_ctx : option goerror;
  ps_now : string;
  ps_inserts : list preparedEventDocument;
  ps_consistencyJSON : string;
  ps_preparedChecks : list preparedConsistencyCheck }.

Record sqliteSaveResult := mkSaveResult {
  sr_transactionID : string; sr_globalID : Z; sr_err : option goerror }.

Definition failed_save (e : goerror) : sqliteSaveResult := mkSaveResult "" 0 (Some e).

Section Store.
Context `{J : GoJson, T : SqlText, X : Sqlitex}.

Definition prepareSQLiteSave (ctx : option goerror) (now : string) (inserts : list PreparedEvent)
    (checks : list ConsistencyCheck) : result preparedSQLiteSave :=
  data ← MarshalConsistency checks;
  mret (mkSave ctx now (prepareEventDocuments inserts) data (prepareConsistencyChecks checks)).

(** ** Statements *)

Definition constraint_failed : goerror := PlainError "constraint failed".

(** [INSERT INTO orisun_es_write(write_id, consistency) VALUES (?, ?)]. *)
Definition insert_write (id : Z) (consistencyJSON : string) (t : Tables)
  : result (unit * Tables) :=
  match json_Unmarshal consistencyJSON with
  | Ok (JArray _) =>
      match t_writes t !! id with
      | Some _ => Err constraint_failed
      | None => Ok (tt, mkTables (t_events t) (<[id := consistencyJSON]> (t_writes t))
                          (t_next_id t))
      end
  | _ => Err constraint_failed
  end.

Definition insertWriteContext (id : Z) (consistencyJSON : string) : stm unit :=
  Execute (insert_write id consistencyJSON).

(** One row of [INSERT INTO orisun_es_event (data) VALUES ...], with the CHECK, NOT
NULL, UNIQUE and REFERENCES constraints of the table. *)
Definition insert_event (t : Tables) (data : string) : result Tables :=
  match unmarshal_object data with
  | Ok (Some doc) =>
      let row := mkRow data doc in
      match row_transaction_id row, row_global_id row, row_date_created row with
      | Some _, Some gid, Some _ =>
          if existsb (λ r, bool_decide (row_global_id r = Some gid)) (t_events t)
          then Err constraint_failed
          else match row_write_id row with
               | Some wid =>
                   if bool_decide (is_Some (t_writes t !! wid))
                   then Ok (mkTables (t_events t ++ [row]) (t_writes t) (t_next_id t))
                   else Err constraint_failed
               | None => Ok (mkTables (t_events t ++ [row]) (t_writes t) (t_next_id t))
               end
      | _, _, _ => Err constraint_failed
      end
  | _ => Err constraint_failed
  end.

Fixpoint insert_rows (rows : list string) (t : Tables) : result (unit * Tables) :=
  match rows with
  | [] => Ok (tt, t)
  | data :: rows => t ← insert_event t data; insert_rows rows t
  end.

Definition sqliteMaxEventsPerInsert : nat := 999.

(** The documents of one chunk, through the shared field map. *)
Fixpoint chunk_documents (events : list preparedEventDocument) (gid : Z)
    (fields : gmap string fieldval) : gmap string fieldval * result (list string) :=
  match events with
  | [] => (fields, Ok [])
  | event :: events =>
      match positionedDocument event gid fields with
      | (fields, Err e) => (fields, Err e)
      | (fields, Ok data) =>
          match chunk_documents events (wrap64 (gid + 1)) fields with
          | (fields, Err e) => (fields, Err e)
          | (fields, Ok rest) => (fields, Ok (data :: rest))
          end
      end
  end.

(** The loop over the chunks; [fuel] bounds their number. *)
Fixpoint insert_chunks (fuel : nat) (events : list preparedEventDocument) (gid : Z)
    (fields : gmap string fieldval) : stm unit :=
  match fuel, events with
  | _, [] => mret tt
  | 0, _ => stm_fail (PlainError "unreachable")
  | S fuel, _ =>
      let chunk := take sqliteMaxEventsPerInsert events in
      match chunk_documents chunk gid fields with
      | (_, Err e) => stm_fail e
      | (fields, Ok args) =>
          _ ← Execute (insert_rows args);
          insert_chunks fuel (drop sqliteMaxEventsPerInsert events)
            (wrap64 (gid + Z.of_nat (length chunk))) fields
      end
  end.

Definition batch_fields (transactionID : Z) (now : string) : gmap string fieldval :=
  {[ "__commitPosition" := FValue (JNumber (FormatInt transactionID));
     "__dateCreated" := FValue (JString now);
     "__writeId" := FValue (JString (WriteID transactionID transactionID)) ]}.

Definition insertEventBatch (events : list preparedEventDocument)
    (firstID transactionID : Z) (now : string) : stm unit :=
  insert_chunks (length events) events firstID (batch_fields transactionID now).

Definition saveEventsOnConn (eventsToInsert : list preparedEventDocument)
    (consistencyJSON : string) (firstID : Z) (now : string) : stm (string * Z) :=
  let n := Z.of_nat (length eventsToInsert) in
  if (n =? 0)%Z || (wrap64 (MaxInt64 - firstID) <? n)%Z
  then stm_fail (Errorf Internal "event position range exhausted or empty batch")
  else
    let lastID := wrap64 (wrap64 (firstID + n) - 1) in
    _ ← insertWriteContext lastID consistencyJSON;
    _ ← map_err (λ _, Errorf Internal "insert events: %v")
          (insertEventBatch eventsToInsert firstID lastID now);
    mret (FormatInt lastID, lastID).

(** ** Consistency checks *)

(** [ORDER BY transaction_id DESC, global_id DESC]. *)
Definition row_ge (r s : Row) : Prop := pos_le (row_pos s) (row_pos r).
#[export] Instance row_ge_dec : RelDecision row_ge.
Proof. intros r s. unfold row_ge. apply _. Defined.

Definition select_latest (q : latest_query) (t : Tables) : result (option (Z * Z) * Tables) :=
  let found := merge_sort row_ge (filter (λ r, query_holds (row_doc r) q = true) (t_events t)) in
  Ok ((λ r, (CommitPosition (row_pos r), PreparePosition (row_pos r))) <$> head found, t).

Fixpoint latest_of_queries (queries : list latest_query) (latestTx latestGid : Z)
  : stm (Z * Z) :=
  match queries with
  | [] => mret (latestTx, latestGid)
  | query :: queries =>
      row ← map_err (λ _, Errorf Internal "ccc check: %v") (Execute (select_latest query));
      match row with
      | Some (tx, gid) =>
          if (latestTx <? tx)%Z || ((tx =? latestTx)%Z && (latestGid <? gid)%Z)
          then latest_of_queries queries tx gid
          else latest_of_queries queries latestTx latestGid
      | None => latest_of_queries queries latestTx latestGid
      end
  end.

Definition latestPreparedCriteriaPosition (queries : list latest_query) : stm (Z * Z) :=
  latest_of_queries queries (-1) (-1).

Definition latestCriteriaPosition (criteria : list ReadCriterion) : stm (Z * Z) :=
  match latestCriteriaQueries criteria with
  | Err _ => stm_fail (Errorf InvalidArgument "invalid consistency criteria: %v")
  | Ok queries => latestPreparedCriteriaPosition queries
  end.

Definition version_conflict : goerror := Errorf AlreadyExists
  "OptimisticConcurrencyException:StreamVersionConflict: Expected (%d, %d), Actual (%d, %d)".

Fixpoint check_consistency (checks : list preparedConsistencyCheck) : stm unit :=
  match checks with
  | [] => mret tt
  | check :: checks =>
      match pc_err check with
      | Some _ => stm_fail (Errorf InvalidArgument "invalid consistency criteria: %v")
      | None =>
          '(latestTx, latestGid) ← latestPreparedCriteriaPosition (pc_queries check);
          if negb (latestTx =? CommitPosition (pc_position check))%Z
             || negb (latestGid =? PreparePosition (pc_position check))%Z
          then stm_fail version_conflict
          else check_consistency checks
      end
  end.

Definition saveSavepointed (req : preparedSQLiteSave) (firstID : Z) : stm (string * Z) :=
  _ ← check_consistency (ps_preparedChecks req);
  sqlitex_Save
    (saveEventsOnConn (ps_inserts req) (ps_consistencyJSON req) firstID (ps_now req)).

(** ** The flush *)

Definition select_next_id (t : Tables) : result (Z * Tables) := Ok (t_next_id t, t).
Definition update_next_id (id : Z) (t : Tables) : result (unit * Tables) :=
  Ok (tt, mkTables (t_events t) (t_writes t) id).

(** The loop over the requests: an error of one request is its outcome. *)
Fixpoint run_requests (live : list preparedSQLiteSave) (nextID accepted : Z)
  : stm (list sqliteSaveResult * Z * Z) :=
  match live with
  | [] => mret ([], nextID, accepted)
  | req :: live =>
      match ps_ctx req with
      | Some ctxErr =>
          '(outcomes, nextID, accepted) ← run_requests live nextID accepted;
          mret (failed_save (FromContextError ctxErr) :: outcomes, nextID, accepted)
      | None => λ c,
          match saveSavepointed req nextID c with
          | (Err e, c) =>
              ('(outcomes, nextID, accepted) ← run_requests live nextID accepted;
               mret (failed_save e :: outcomes, nextID, accepted)) c
          | (Ok (txID, gid), c) =>
              ('(outcomes, nextID, accepted) ←
                 run_requests live (wrap64 (gid + 1)) (accepted + 1);
               mret (mkSaveResult txID gid None :: outcomes, nextID, accepted)) c
          end
      end
  end.

Definition transaction_body (live : list preparedSQLiteSave) : stm (list sqliteSaveResult) :=
  nextID ← Execute select_next_id;
  if (nextID <? 1)%Z then stm_fail (PlainError "invalid event sequence: %d")
  else
    '(outcomes, nextID, accepted) ← run_requests live nextID 0;
    if (0 <? accepted)%Z
    then _ ← Execute (update_next_id nextID); mret outcomes
    else mret outcomes.

Definition executeTransaction (live : list preparedSQLiteSave)
  : stm (list sqliteSaveResult) :=
  sqlitex_Immediate (transaction_body live).

End Store.
