(* ===== verification/SqliteLog.v ===== *)
(** * Correctness of the SQLite event log

The invariant of the log, what one flush of the group commit does to it under
any failures ([flush_sound]), when a request is accepted ([flush_exact]), and
that a batch is the sequence of its requests ([batch_is_sequential]). *)

From stdpp Require Import options.
From S2P Require Import Prelude Status Model Number Json Predicates Consistency EventData.
From S2P Require Import WriteContext SqlPredicates Sql SqliteStore.

Set Default Proof Using "Type*".

(** ** Stored documents *)

(** A prepared document that the JSON encoder writes faithfully, or that failed to
parse. *)
Definition good_document `{J : GoJson} (d : preparedEventDocument) : Prop :=
  doc_err d = None →
  ∃ o, doc_object d = Some o ∧ json_faithful (json_of_map o)
    ∧ text_ok (doc_eventID d) ∧ text_ok (doc_eventType d).

(** The fields added to event [d] when it is stored. *)
Definition event_fields (d : preparedEventDocument) (tid gid : Z) (now : string)
  : gmap string fieldval :=
  <["__preparePosition" := FValue (JNumber (FormatInt gid))]>
  (<["__metadata" := MetadataValue (doc_metadata d)]>
  (<["__eventType" := FValue (JString (doc_eventType d))]>
  (<["__eventId" := FValue (JString (doc_eventID d))]> (batch_fields tid now)))).

(** The field of a stored event under a literal key. *)
Ltac event_field :=
  unfold event_fields, batch_fields;
  repeat first [rewrite lookup_insert_eq; reflexivity
               |rewrite lookup_insert_ne by discriminate];
  rewrite lookup_singleton_eq; reflexivity.

Section Documents.
Context `{J : GoJson}.

(** The text stored for event [d], without the shared field map. *)
Definition document_text (d : preparedEventDocument) (tid gid : Z) (now : string)
  : result string :=
  match doc_err d with
  | Some e => Err e
  | None => Object_WithFields (doc_object d) (event_fields d tid gid now)
  end.

Fixpoint documents_text (ds : list preparedEventDocument) (tid gid : Z) (now : string)
  : result (list string) :=
  match ds with
  | [] => Ok []
  | d :: ds =>
      text ← document_text d tid gid now;
      rest ← documents_text ds tid (gid + 1) now;
      mret (text :: rest)
  end.

(** The shared map holds the batch fields; the other four keys are rewritten for
every event. *)
Definition event_keys : list string :=
  ["__eventId"; "__eventType"; "__metadata"; "__preparePosition"].

Definition fields_inv (tid : Z) (now : string) (fields : gmap string fieldval) : Prop :=
  ∀ k, k ∉ event_keys → fields !! k = batch_fields tid now !! k.

Lemma event_fields_shared d tid gid now fields :
  fields_inv tid now fields →
  <["__preparePosition" := FValue (JNumber (FormatInt gid))]>
  (<["__metadata" := MetadataValue (doc_metadata d)]>
  (<["__eventType" := FValue (JString (doc_eventType d))]>
  (<["__eventId" := FValue (JString (doc_eventID d))]> fields)))
  = event_fields d tid gid now.
Proof.
  intros Hf. apply map_eq. intros k. unfold event_fields.
  destruct (decide (k ∈ event_keys)) as [Hk|Hk].
  - unfold event_keys in Hk. rewrite !elem_of_cons, elem_of_nil in Hk.
    destruct_or! Hk; subst; by simplify_map_eq.
  - specialize (Hf k Hk). unfold event_keys in Hk. rewrite !not_elem_of_cons in Hk.
    destruct Hk as (? & ? & ? & ? & _). by rewrite !lookup_insert_ne by done.
Qed.

Lemma event_fields_inv d tid gid now : fields_inv tid now (event_fields d tid gid now).
Proof.
  intros k Hk. unfold event_fields. unfold event_keys in Hk.
  rewrite !not_elem_of_cons in Hk. destruct Hk as (? & ? & ? & ? & _).
  by rewrite !lookup_insert_ne by done.
Qed.

Lemma positionedDocument_text d tid gid now fields :
  fields_inv tid now fields →
  ∃ fields', positionedDocument d gid fields = (fields', document_text d tid gid now)
    ∧ fields_inv tid now fields'.
Proof.
  intros Hf. unfold positionedDocument, document_text.
  destruct (doc_err d); [by eexists|]. cbv zeta.
  rewrite (event_fields_shared d tid gid now fields Hf). eexists. split; [done|].
  apply event_fields_inv.
Qed.

Lemma chunk_documents_text ds tid gid now fields :
  fields_inv tid now fields → (1 <= gid)%Z →
  (gid + Z.of_nat (length ds) <= MaxInt64)%Z →
  ∃ fields', chunk_documents ds gid fields = (fields', documents_text ds tid gid now)
    ∧ fields_inv tid now fields'.
Proof.
  revert gid fields. induction ds as [|d ds IH]; intros gid fields Hf Hg Hm; simpl.
  - by eexists.
  - destruct (positionedDocument_text d tid gid now fields Hf) as (f' & -> & Hf').
    destruct (document_text d tid gid now) as [text|e]; simpl; [|by eexists].
    simpl in Hm. assert (wrap64 (gid + 1) = gid + 1)%Z as ->.
    { apply wrap64_id. unfold is_int64, MinInt64, MaxInt64 in *. lia. }
    destruct (IH (gid + 1)%Z f') as (f'' & -> & Hf''); [done|lia|lia|].
    destruct (documents_text ds tid (gid + 1) now); by eexists.
Qed.

Lemma documents_text_app ds es tid gid now :
  documents_text (ds ++ es) tid gid now =
  (a ← documents_text ds tid gid now;
   b ← documents_text es tid (gid + Z.of_nat (length ds)) now;
   mret (a ++ b)).
Proof.
  revert gid. induction ds as [|d ds IH]; intros gid; simpl.
  - rewrite Z.add_0_r. by destruct (documents_text es tid gid now).
  - destruct (document_text d tid gid now); simpl; [|done]. rewrite IH.
    replace (gid + 1 + Z.of_nat (length ds))%Z
      with (gid + Z.of_nat (S (length ds)))%Z by lia.
    destruct (documents_text ds tid (gid + 1) now); simpl; [|done].
    by destruct (documents_text es _ _ now).
Qed.

Lemma insert_rows_app a b t :
  insert_rows (a ++ b) t = ('(_, t) ← insert_rows a t; insert_rows b t).
Proof.
  revert t. induction a as [|x a IH]; intros t; simpl; [done|].
  destruct (insert_event t x) as [t'|]; simpl; [|done]. apply IH.
Qed.

End Documents.

(** ** The columns of a stored row *)

Lemma find_colon_app (a b : string) :
  string_forallb (λ d, negb (Ascii.eqb d ":"%char)) a = true →
  find_colon (a +:+ String ":" b) = Some b.
Proof.
  induction a as [|c a IH]; string_simpl; [done|]. intros H. bool_props.
  rewrite H. by apply IH.
Qed.

Lemma digits_prefix_parse s acc n : parse_digits acc s = Some n → digits_prefix acc s = n.
Proof.
  revert acc. induction s as [|c s IH]; intros acc H; simpl in *; [by simplify_eq|].
  destruct (is_digit c); [by apply IH|done].
Qed.

Lemma cast_integer_FormatInt z : (0 <= z <= MaxInt64)%Z → cast_integer (FormatInt z) = z.
Proof.
  intros Hz. unfold FormatInt.
  assert (∃ n : N, z = Z.of_N n ∧ (pretty z : string) = pretty n) as (n & -> & ->).
  { destruct z as [|p|p]; [by exists 0%N|by exists (N.pos p)|lia]. }
  destruct (pretty_N_head n) as (c & s & Hs & Hc).
  pose proof (parse_digits_pretty n) as Hp%digits_prefix_parse.
  rewrite Hs in *. unfold cast_integer.
  assert (skip_spaces (String c s) = String c s) as ->.
  { simpl. destruct (Ascii.eqb_spec c " ") as [->|]; done. }
  assert (c ≠ "-"%char ∧ c ≠ "+"%char) as [? ?] by (split; by intros ->).
  destruct c as [[] [] [] [] [] [] [] []]; try done; rewrite Hp; lia.
Qed.

Lemma write_id_column z :
  (0 <= z <= MaxInt64)%Z → cast_integer (after_colon (WriteID z z)) = z.
Proof.
  intros Hz. unfold after_colon, WriteID.
  change (":" +:+ FormatInt z) with (String ":" (FormatInt z)).
  rewrite find_colon_app by apply FormatInt_no_colon. by apply cast_integer_FormatInt.
Qed.

Section Rows.
Context `{J : GoJson, L : !GoJsonLaws}.

(** Row [r] holds event [d], stored by save [tid] at position [gid]. *)
Record stored_event (d : preparedEventDocument) (tid gid : Z) (now : string) (r : Row)
  : Prop := {
  se_text : document_text d tid gid now = Ok (row_data r);
  se_doc : unmarshal_object (row_data r) = Ok (Some (row_doc r));
  se_nonempty : row_data r ≠ "";
  se_tid : row_transaction_id r = Some tid;
  se_gid : row_global_id r = Some gid;
  se_now : row_date_created r = Some now;
  se_write : text_field (row_doc r) "__writeId" = Some (WriteID tid tid);
  se_wid : row_write_id r = Some tid;
  se_id : text_field (row_doc r) "__eventId" = Some (doc_eventID d);
  se_type : text_field (row_doc r) "__eventType" = Some (doc_eventType d);
  se_meta : ∃ m, row_doc r !! "__metadata" = Some m
            ∧ field_json (MetadataValue (doc_metadata d)) = Ok m;
  se_app : ∀ k, IsReservedKey k = false → row_doc r !! k = default ∅ (doc_object d) !! k }.

Lemma FormatInt_ascii z :
  string_forallb (λ c, (N_of_ascii c <? 128)%N) (FormatInt z) = true.
Proof.
  assert (∀ s, string_forallb is_digit s = true →
    string_forallb (λ c, (N_of_ascii c <? 128)%N) s = true) as Hd.
  { induction s as [|c s IH]; [done|]. simpl. intros H. bool_props.
    rewrite IH by done. rewrite andb_true_r. unfold is_digit in H. bool_props.
    apply N.ltb_lt. lia. }
  unfold FormatInt. destruct z as [|p|p]; [done|apply Hd, pretty_N_digits|].
  change (pretty (Z.neg p)) with (String "-" (pretty (N.pos p))). simpl.
  apply Hd, pretty_N_digits.
Qed.

Lemma WriteID_text z : text_ok (WriteID z z).
Proof.
  apply text_ok_ascii. unfold WriteID.
  by rewrite !string_forallb_app, FormatInt_ascii.
Qed.

Lemma event_fields_lookup d tid gid now k f :
  event_fields d tid gid now !! k = Some f →
  (k, f) ∈ [("__preparePosition", FValue (JNumber (FormatInt gid)));
            ("__metadata", MetadataValue (doc_metadata d));
            ("__eventType", FValue (JString (doc_eventType d)));
            ("__eventId", FValue (JString (doc_eventID d)));
            ("__commitPosition", FValue (JNumber (FormatInt tid)));
            ("__dateCreated", FValue (JString now));
            ("__writeId", FValue (JString (WriteID tid tid)))].
Proof.
  unfold event_fields, batch_fields. rewrite !lookup_insert_Some, lookup_singleton_Some.
  rewrite !elem_of_cons. naive_solver.
Qed.

Lemma event_fields_values d tid gid now :
  event_fields d tid gid now !! "__commitPosition" = Some (FValue (JNumber (FormatInt tid)))
  ∧ event_fields d tid gid now !! "__preparePosition" = Some (FValue (JNumber (FormatInt gid)))
  ∧ event_fields d tid gid now !! "__dateCreated" = Some (FValue (JString now))
  ∧ event_fields d tid gid now !! "__writeId" = Some (FValue (JString (WriteID tid tid)))
  ∧ event_fields d tid gid now !! "__eventId" = Some (FValue (JString (doc_eventID d)))
  ∧ event_fields d tid gid now !! "__eventType" = Some (FValue (JString (doc_eventType d)))
  ∧ event_fields d tid gid now !! "__metadata" = Some (MetadataValue (doc_metadata d)).
Proof. split_and!; event_field. Qed.

Lemma event_fields_faithful d tid gid now k f :
  text_ok now → text_ok (doc_eventID d) → text_ok (doc_eventType d) →
  event_fields d tid gid now !! k = Some f → text_ok k ∧ faithful_field f.
Proof.
  intros Hnow Hid Htype Hk%event_fields_lookup.
  rewrite !elem_of_cons, elem_of_nil in Hk.
  destruct_or! Hk; injection Hk as -> ->; (split; [by apply text_ok_ascii|]).
  - apply pattern_FormatInt.
  - unfold MetadataValue. by destruct (String.eqb _ _).
  - exact Htype.
  - exact Hid.
  - apply pattern_FormatInt.
  - exact Hnow.
  - apply WriteID_text.
Qed.

Lemma event_fields_reserved d tid gid now k f :
  event_fields d tid gid now !! k = Some f → IsReservedKey k = true.
Proof.
  intros Hk%event_fields_lookup. rewrite !elem_of_cons, elem_of_nil in Hk.
  destruct_or! Hk; injection Hk as -> _; done.
Qed.

Lemma document_text_stored d tid gid now text :
  good_document d → text_ok now → (0 <= tid <= MaxInt64)%Z → (0 <= gid <= MaxInt64)%Z →
  document_text d tid gid now = Ok text →
  ∃ doc, stored_event d tid gid now (mkRow text doc).
Proof.
  intros Hd Hnow Ht Hg Htext. pose proof Htext as Hw. unfold document_text in Hw.
  destruct (doc_err d) eqn:He; [done|].
  destruct (Hd He) as (o & Ho & Hof & Hid & Htype). rewrite Ho in Hw.
  assert (∃ vs, fields_json (event_fields d tid gid now) = Ok vs) as [vs Hvs].
  { cbn [Object_WithFields] in Hw. inv_ok. eauto. }
  destruct (Object_WithFields_ok o (event_fields d tid gid now) Hof) with (vs := vs)
    as (text' & Hw' & Hnil & Hu); [|done|].
  { intros k f Hk. exact (event_fields_faithful d tid gid now k f Hnow Hid Htype Hk). }
  rewrite Hw' in Hw. injection Hw as ->. exists (vs ∪ o).
  assert (∀ k f, event_fields d tid gid now !! k = Some f →
    ∃ v, (vs ∪ o) !! k = Some v ∧ field_json f = Ok v) as Hl.
  { intros k f Hk. pose proof (fields_json_ok _ _ Hvs k) as Hf. rewrite Hk in Hf.
    destruct (vs !! k) as [v|] eqn:Hv; [|destruct Hf].
    exists v. split; [exact (lookup_union_Some_l _ _ _ _ Hv)|exact Hf]. }
  assert (∀ k v, event_fields d tid gid now !! k = Some (FValue v) →
    (vs ∪ o) !! k = Some v) as Hl'.
  { intros k v Hk. destruct (Hl k _ Hk) as (w & Hv & Hj). cbn [field_json] in Hj.
    injection Hj as <-. exact Hv. }
  assert (is_int64 tid ∧ is_int64 gid) as [Hti Hgi].
  { unfold is_int64, MinInt64, MaxInt64 in *. lia. }
  destruct (event_fields_values d tid gid now) as (H1 & H2 & H3 & H4 & H5 & H6 & H7).
  apply Hl' in H1, H2, H3, H4, H5, H6. apply Hl in H7. clear Hl Hl'.
  split; [exact Htext|exact Hu|exact Hnil|..].
  - unfold row_transaction_id, int_field. cbn [row_doc]. rewrite H1.
    by apply ParseInt_FormatInt.
  - unfold row_global_id, int_field. cbn [row_doc]. rewrite H2.
    by apply ParseInt_FormatInt.
  - unfold row_date_created, text_field. cbn [row_doc]. rewrite H3. reflexivity.
  - unfold text_field. cbn [row_doc]. rewrite H4. reflexivity.
  - unfold row_write_id, text_field. cbn [row_doc]. rewrite H4. cbn [fmap option_fmap option_map].
    by rewrite write_id_column.
  - unfold text_field. cbn [row_doc]. rewrite H5. reflexivity.
  - unfold text_field. cbn [row_doc]. rewrite H6. reflexivity.
  - exact H7.
  - intros k Hk. rewrite Ho. simpl. rewrite lookup_union_r; [done|].
    destruct (vs !! k) as [v|] eqn:Hv; [|reflexivity].
    pose proof (fields_json_ok _ _ Hvs k) as Hf. rewrite Hv in Hf.
    destruct (event_fields d tid gid now !! k) as [f|] eqn:E; [|destruct Hf].
    apply event_fields_reserved in E. rewrite Hk in E. discriminate E.
Qed.

End Rows.

(** ** Inserting a save *)

Section Inserts.
Context `{J : GoJson, L : !GoJsonLaws}.

Fixpoint rows_stored (ds : list preparedEventDocument) (tid gid : Z) (now : string)
    (rows : list Row) : Prop :=
  match ds, rows with
  | [], [] => True
  | d :: ds, r :: rows =>
      stored_event d tid gid now r ∧ rows_stored ds tid (gid + 1) now rows
  | _, _ => False
  end.

Lemma rows_stored_lookup ds tid gid now rows i r :
  rows_stored ds tid gid now rows → rows !! i = Some r →
  ∃ d, ds !! i = Some d ∧ stored_event d tid (gid + Z.of_nat i) now r.
Proof.
  revert gid rows i. induction ds as [|d ds IH]; intros gid [|r' rows] i H Hi; try done.
  destruct H as [Hr Hrows]. destruct i as [|i]; simpl in Hi.
  - simplify_eq. exists d. by rewrite Z.add_0_r.
  - destruct (IH _ _ _ Hrows Hi) as (d' & Hd & Hs). exists d'. split; [done|].
    by replace (gid + Z.of_nat (S i))%Z with (gid + 1 + Z.of_nat i)%Z by lia.
Qed.

Lemma rows_stored_length ds tid gid now rows :
  rows_stored ds tid gid now rows → length rows = length ds.
Proof.
  revert gid rows. induction ds as [|d ds IH]; intros gid [|r rows] H; try done.
  destruct H as [_ H]. simpl. by rewrite (IH _ _ H).
Qed.

(** A row with a new position and an existing write satisfies the constraints. *)
Lemma insert_event_stored t d tid gid now r :
  stored_event d tid gid now r → is_Some (t_writes t !! tid) →
  (∀ s, s ∈ t_events t → row_global_id s ≠ Some gid) →
  insert_event t (row_data r) = Ok (mkTables (t_events t ++ [r]) (t_writes t) (t_next_id t)).
Proof.
  intros Hs Hw Hg. destruct Hs as [_ Hdoc _ Htid Hgid Hnow _ Hwid _ _ _ _].
  unfold insert_event. rewrite Hdoc.
  assert (mkRow (row_data r) (row_doc r) = r) as -> by (by destruct r).
  rewrite Htid, Hgid, Hnow, Hwid.
  destruct (existsb _ _) eqn:E.
  - apply existsb_exists in E as (s & Hin & Hb). apply list_elem_of_In in Hin.
    case_bool_decide; [|done]. by destruct (Hg s Hin).
  - by rewrite bool_decide_true.
Qed.

Lemma insert_rows_stored ds tid gid now texts t :
  documents_text ds tid gid now = Ok texts →
  Forall good_document ds → text_ok now →
  (0 <= tid <= MaxInt64)%Z → (0 <= gid)%Z → (gid + Z.of_nat (length ds) <= MaxInt64)%Z →
  is_Some (t_writes t !! tid) →
  (∀ s, s ∈ t_events t → ∃ g, row_global_id s = Some g ∧ (g < gid)%Z) →
  ∃ rows, rows_stored ds tid gid now rows
    ∧ insert_rows texts t
      = Ok (tt, mkTables (t_events t ++ rows) (t_writes t) (t_next_id t)).
Proof.
  revert gid texts t.
  induction ds as [|d ds IH]; intros gid texts t Htx Hd Hnow Ht Hg Hm Hw Hlt; simpl in Htx.
  - injection Htx as <-. exists []. split; [done|]. simpl. rewrite app_nil_r.
    by destruct t.
  - apply Forall_cons in Hd as [Hd Hds]. simpl in Hm. inv_ok.
    unfold mret, result_ret in Htx. inv_ok. subst texts.
    destruct (document_text_stored d tid gid now x) as [doc Hs]; [done|done|done|lia|done|].
    pose proof (insert_event_stored t d tid gid now _ Hs Hw) as Hins. cbn [row_data] in Hins.
    simpl. rewrite Hins.
    2:{ intros s Hin E. destruct (Hlt s Hin) as (g & Hg' & ?). simplify_eq. lia. }
    cbn [mbind result_bind].
    destruct (IH (gid + 1)%Z x0
      (mkTables (t_events t ++ [mkRow x doc]) (t_writes t) (t_next_id t)))
      as (rows & Hrs & Hi); [done|done|done|done|lia|lia|done| |].
    + intros s [Hin| ->%list_elem_of_singleton]%elem_of_app.
      * destruct (Hlt s Hin) as (g & ? & ?). exists g. split; [done|lia].
      * exists gid. split; [apply Hs|lia].
    + exists (mkRow x doc :: rows). split; [done|]. rewrite Hi. simpl.
      by rewrite <-(assoc_L (++)).
Qed.

(** ** The chunk loop *)


Lemma chunk_facts tid now gid fields (ds : list preparedEventDocument) :
  fields_inv tid now fields → (1 <= gid)%Z →
  (gid + Z.of_nat (length ds) <= MaxInt64)%Z →
  let chunk := take sqliteMaxEventsPerInsert ds in
  let rest := drop sqliteMaxEventsPerInsert ds in
  let next := (gid + Z.of_nat (length chunk))%Z in
  wrap64 next = next
  ∧ (1 <= next)%Z ∧ (next + Z.of_nat (length rest) <= MaxInt64)%Z
  ∧ (∃ fields', chunk_documents chunk gid fields
       = (fields', documents_text chunk tid gid now) ∧ fields_inv tid now fields')
  ∧ documents_text ds tid gid now =
     (a ← documents_text chunk tid gid now; b ← documents_text rest tid next now; mret (a ++ b)).
Proof.
  intros Hf Hg Hm chunk rest next.
  assert (length chunk + length rest = length ds) as Hlen.
  { unfold chunk, rest. rewrite <-length_app. by rewrite take_drop. }
  split_and!; [|lia|unfold next; lia| |].
  - apply wrap64_id. unfold next, is_int64, MinInt64, MaxInt64 in *. lia.
  - apply chunk_documents_text; [done|done|]. lia.
  - rewrite <-(take_drop sqliteMaxEventsPerInsert ds) at 1. apply documents_text_app.
Qed.

Lemma insert_chunks_sound fuel ds tid gid now fields c c' :
  fields_inv tid now fields → (1 <= gid)%Z →
  (gid + Z.of_nat (length ds) <= MaxInt64)%Z →
  insert_chunks fuel ds gid fields c = (Ok tt, c') →
  ∃ texts, documents_text ds tid gid now = Ok texts
    ∧ insert_rows texts (c_tables c) = Ok (tt, c_tables c').
Proof.
  revert ds gid fields c.
  induction fuel as [|fuel IH]; intros ds gid fields c Hf Hg Hm H;
    destruct ds as [|d ds']; [|done| |].
  1,2: injection H as <-; by exists [].
  remember (d :: ds') as ds eqn:Hds. cbn [insert_chunks] in H.
  destruct (chunk_facts tid now gid fields ds Hf Hg Hm)
    as (Hwrap & Hg' & Hm' & (f' & Hc & Hf') & Htx).
  rewrite Hds in H. rewrite <-Hds in H. rewrite Hc in H.
  destruct (documents_text (take _ ds) tid gid now) as [args|e] eqn:Ha; [|done].
  apply stm_bind_ok in H as (u & c1 & Hex & H). rewrite Hwrap in H.
  apply Execute_ok in Hex as Hins. destruct u.
  destruct (IH _ _ _ _ Hf' Hg' Hm' H) as (rest & Hr & Hir).
  exists (args ++ rest). rewrite Htx. cbn [mbind result_bind]. rewrite Hr. split; [done|].
  rewrite insert_rows_app, Hins. simpl. by rewrite Hir.
Qed.

Lemma insert_chunks_steady fuel ds gid fields : steady (insert_chunks fuel ds gid fields).
Proof.
  revert ds gid fields.
  induction fuel as [|fuel IH]; intros [|d ds] gid fields; cbn [insert_chunks];
    [apply steady_ret|apply steady_fail|apply steady_ret|].
  destruct (chunk_documents _ gid fields) as [f' [args|e]]; [|apply steady_fail].
  apply steady_bind; [apply steady_Execute|intros _; apply IH].
Qed.

Lemma insert_chunks_clean fuel ds tid gid now fields c :
  fields_inv tid now fields → (1 <= gid)%Z →
  (gid + Z.of_nat (length ds) <= MaxInt64)%Z → length ds ≤ fuel → fault_free c →
  ∃ r c', insert_chunks fuel ds gid fields c = (r, c')
    ∧ ∀ texts t', documents_text ds tid gid now = Ok texts →
        insert_rows texts (c_tables c) = Ok (tt, t') → r = Ok tt ∧ c_tables c' = t'.
Proof.
  revert ds gid fields c.
  induction fuel as [|fuel IH]; intros ds gid fields c Hf Hg Hm Hl Hc;
    destruct ds as [|d ds']; [|simpl in Hl; lia| |].
  1,2: exists (Ok tt), c; (split; [done|]); intros ? ? [= <-]; simpl; by intros [= <-].
  remember (d :: ds') as ds eqn:Hds.
  destruct (chunk_facts tid now gid fields ds Hf Hg Hm)
    as (Hwrap & Hg' & Hm' & (f' & Hch & Hf') & Htx).
  assert (insert_chunks (S fuel) ds gid fields c =
    match documents_text (take sqliteMaxEventsPerInsert ds) tid gid now with
    | Err e => (Err e, c)
    | Ok args => (_ ← Execute (insert_rows args);
        insert_chunks fuel (drop sqliteMaxEventsPerInsert ds)
          (gid + Z.of_nat (length (take sqliteMaxEventsPerInsert ds))) f') c
    end) as ->.
  { rewrite Hds. cbn [insert_chunks]. rewrite <-Hds, Hch, Hwrap.
    by destruct (documents_text (take _ ds) tid gid now). }
  destruct (documents_text (take _ ds) tid gid now) as [args|e].
  2:{ exists (Err e), c. split; [done|]. intros texts t' H. by rewrite Htx in H. }
  rewrite stm_bind_eq, Execute_clean by done.
  destruct (insert_rows args (c_tables c)) as [[[] t1]|e] eqn:Hi.
  2:{ eexists _, _. split; [done|]. intros texts t' H. rewrite Htx in H.
      apply result_bind_ok in H as (a & [= <-] & H). inv_ok. unfold mret, result_ret in H.
      inv_ok. subst. rewrite insert_rows_app, Hi. done. }
  assert (length (drop sqliteMaxEventsPerInsert ds) ≤ fuel) as Hl'.
  { rewrite length_drop, Hds. simpl. rewrite Hds in Hl. simpl in Hl. lia. }
  destruct (IH _ _ _ (mkConnection t1 [] (c_open c)) Hf' Hg' Hm' Hl')
    as (r & c' & Hr & Hok); [done|].
  exists r, c'. split; [done|]. intros texts t' H. rewrite Htx in H.
  apply result_bind_ok in H as (a & [= <-] & H). inv_ok. unfold mret, result_ret in H.
  inv_ok. subst texts. rewrite insert_rows_app, Hi. simpl. intros Hrest. by eapply Hok.
Qed.

End Inserts.

(** ** The invariant of the log *)

(** The log with [n] the next position: positions are dense from 1, each event
belongs to a recorded save that ends at or after it, and the saves are in order. *)
Record log_at (t : Tables) (n : Z) : Prop := {
  la_next : (1 <= n <= MaxInt64)%Z;
  la_length : (Z.of_nat (length (t_events t)) = n - 1)%Z;
  la_rows : ∀ i r, t_events t !! i = Some r →
    ∃ tid, row_transaction_id r = Some tid
      ∧ row_global_id r = Some (Z.of_nat i + 1)%Z
      ∧ (Z.of_nat i + 1 <= tid < n)%Z ∧ is_Some (t_writes t !! tid);
  la_order : ∀ i j r s, i ≤ j → t_events t !! i = Some r → t_events t !! j = Some s →
    (CommitPosition (row_pos r) <= CommitPosition (row_pos s))%Z;
  la_writes : ∀ w, is_Some (t_writes t !! w) → (1 <= w < n)%Z }.

Definition log_inv (t : Tables) : Prop := log_at t (t_next_id t).

Lemma log_inv_empty : log_inv empty_tables.
Proof.
  split; simpl.
  - unfold MaxInt64. lia.
  - done.
  - intros i r. by rewrite lookup_nil.
  - intros i j r s _. by rewrite lookup_nil.
  - intros w. rewrite lookup_empty. by intros [? ?].
Qed.

(** Positions are strictly increasing and real. *)
Lemma log_pos t n i r :
  log_at t n → t_events t !! i = Some r →
  ∃ tid, row_pos r = mkPosition tid (Z.of_nat i + 1) ∧ (Z.of_nat i + 1 <= tid < n)%Z.
Proof.
  intros H Hi. destruct (la_rows _ _ H _ _ Hi) as (tid & Ht & Hg & Hr & _).
  exists tid. unfold row_pos. by rewrite Ht, Hg.
Qed.

Lemma log_pos_increasing t n i j r s :
  log_at t n → i < j → t_events t !! i = Some r → t_events t !! j = Some s →
  pos_lt (row_pos r) (row_pos s).
Proof.
  intros H Hij Hi Hj. pose proof (la_order _ _ H i j r s) as Ho.
  destruct (log_pos _ _ _ _ H Hi) as (ti & Ei & _).
  destruct (log_pos _ _ _ _ H Hj) as (tj & Ej & _).
  rewrite Ei, Ej in *. simpl in Ho. specialize (Ho ltac:(lia) Hi Hj).
  unfold pos_lt. simpl. lia.
Qed.

Lemma log_pos_positive t n r :
  log_at t n → r ∈ t_events t → pos_lt NotExistsPosition (row_pos r).
Proof.
  intros H [i Hi]%list_elem_of_lookup. destruct (log_pos _ _ _ _ H Hi) as (tid & -> & ?).
  left. simpl. lia.
Qed.

(** ** The position of a context *)

(** [p] is the position of the last event that satisfies [P], or "not exists". *)
Definition is_context (t : Tables) (P : gmap string json → bool) (p : Position) : Prop :=
  (p = NotExistsPosition ∧ ∀ r, r ∈ t_events t → P (row_doc r) = false)
  ∨ (∃ r, r ∈ t_events t ∧ P (row_doc r) = true ∧ row_pos r = p
       ∧ ∀ s, s ∈ t_events t → P (row_doc s) = true → pos_le (row_pos s) p).

Lemma is_context_ext t P Q p :
  (∀ doc, P doc = Q doc) → is_context t P p ↔ is_context t Q p.
Proof. intros H. unfold is_context. by setoid_rewrite H. Qed.

Lemma is_context_unique t n P p q :
  log_at t n → is_context t P p → is_context t P q → p = q.
Proof.
  intros Hl [[-> Hn]|(r & Hr & HP & <- & Hm)] [[-> Hn']|(s & Hs & HQ & <- & Hm')].
  - done.
  - by rewrite Hn in HQ.
  - by rewrite Hn' in HP.
  - apply (anti_symm pos_le); auto.
Qed.

Lemma is_context_ge t n P p r :
  log_at t n → is_context t P p → r ∈ t_events t → P (row_doc r) = true →
  pos_le (row_pos r) p.
Proof. intros Hl [[-> Hn]|(s & _ & _ & _ & Hm)] Hr HP; [by rewrite Hn in HP|auto]. Qed.

#[export] Instance row_ge_total : Total row_ge.
Proof. intros r s. unfold row_ge. apply total, _. Qed.
#[export] Instance row_ge_trans : Transitive row_ge.
Proof. intros r s u Hrs Hsu. unfold row_ge in *. by transitivity (row_pos s). Qed.

Section Contexts.
Context `{T : SqlText}.

(** One lookup extends the context by its own events. *)
Lemma select_latest_context t q row :
  select_latest q t = Ok (row, t) →
  match row with
  | None => ∀ r, r ∈ t_events t → query_holds (row_doc r) q = false
  | Some (tx, gid) => ∃ r, r ∈ t_events t ∧ query_holds (row_doc r) q = true
      ∧ row_pos r = mkPosition tx gid
      ∧ ∀ s, s ∈ t_events t → query_holds (row_doc s) q = true →
          pos_le (row_pos s) (mkPosition tx gid)
  end.
Proof.
  unfold select_latest. set (l := filter _ (t_events t)). intros [= <-].
  assert (∀ r, r ∈ merge_sort row_ge l ↔ query_holds (row_doc r) q = true ∧ r ∈ t_events t)
    as Hin by (intros r; unfold l; by rewrite merge_sort_Permutation, list_elem_of_filter).
  pose proof (StronglySorted_merge_sort row_ge l) as Hs.
  destruct (merge_sort row_ge l) as [|r rs]; cbn [head fmap option_fmap option_map].
  - intros r Hr. destruct (query_holds (row_doc r) q) eqn:E; [|done].
    assert (r ∈ ([] : list Row)) as Hnil by (by apply Hin). by apply elem_of_nil in Hnil.
  - assert (query_holds (row_doc r) q = true ∧ r ∈ t_events t) as [Hq Hr]
      by (apply Hin; left).
    assert (row_pos r = mkPosition (CommitPosition (row_pos r)) (PreparePosition (row_pos r)))
      as Hrp by (by destruct (row_pos r)).
    exists r. split_and!; [done..|]. intros s Hs1 Hs2.
    change (pos_le (row_pos s) (row_pos r)).
    assert (s ∈ r :: rs) as [->|Hin']%elem_of_cons by (by apply Hin); [by right|].
    apply StronglySorted_inv in Hs as [_ Hall]. rewrite Forall_forall in Hall.
    by apply Hall.
Qed.

Lemma is_context_query t n P p q row :
  log_at t n → is_context t P p → select_latest q t = Ok (row, t) →
  let p' := match row with
            | Some (tx, gid) =>
                if (CommitPosition p <? tx)%Z
                   || ((tx =? CommitPosition p)%Z && (PreparePosition p <? gid)%Z)
                then mkPosition tx gid else p
            | None => p
            end in
  is_context t (λ doc, P doc || query_holds doc q) p'.
Proof.
  intros Hl Hp Hq%select_latest_context. destruct row as [[tx gid]|]; simpl.
  - destruct Hq as (r & Hr & Hh & Hrp & Hmax).
    assert (((CommitPosition p <? tx)%Z
      || ((tx =? CommitPosition p)%Z && (PreparePosition p <? gid)%Z)) = true
      ↔ pos_lt p (mkPosition tx gid)) as Hlt.
    { destruct p as [ptx pgid]. by rewrite <-positionValuesAfter_spec. }
    destruct (_ || _) eqn:E.
    + right. exists r. rewrite Hh, orb_true_r. split_and!; [done..|].
      intros s Hs [HP|HQ]%orb_true_iff; [|by apply Hmax].
      left. apply (is_context_ge _ _ _ _ _ Hl Hp Hs) in HP.
      destruct HP as [HP| ->]; [|by apply Hlt].
      transitivity p; [done|]. by apply Hlt.
    + assert (pos_le (mkPosition tx gid) p) as Hle.
      { apply pos_not_lt. rewrite <-Hlt. done. }
      destruct Hp as [[-> Hn]|(s & Hs & HP & <- & Hm)].
      * exfalso. pose proof (log_pos_positive _ _ _ Hl Hr) as Hpos. rewrite Hrp in Hpos.
        by apply (pos_not_lt NotExistsPosition) in Hle.
      * right. exists s. rewrite HP. split_and!; [done..|].
        intros u Hu [HPu|HQu]%orb_true_iff; [by apply Hm|].
        transitivity (mkPosition tx gid); [by apply Hmax|done].
  - destruct Hp as [[-> Hn]|(s & Hs & HP & <- & Hm)].
    + left. split; [done|]. intros r Hr. by rewrite Hn, Hq.
    + right. exists s. rewrite HP. split_and!; [done..|].
      intros u Hu [HPu|HQu]%orb_true_iff; [by apply Hm|]. by rewrite Hq in HQu.
Qed.

(** Reads do not change the tables. *)
Lemma select_latest_frame q t row t' : select_latest q t = Ok (row, t') → t' = t.
Proof. unfold select_latest. by intros [= _ <-]. Qed.

Lemma latest_of_queries_reading queries tx gid : reading (latest_of_queries queries tx gid).
Proof.
  revert tx gid. induction queries as [|q qs IH]; intros tx gid; simpl; [apply reading_ret|].
  apply reading_bind.
  - apply reading_map_err, reading_Execute. intros t row t'. apply select_latest_frame.
  - intros [[tx' gid']|]; [case_match|]; apply IH.
Qed.

Lemma latest_of_queries_context queries tx gid c tx' gid' c' n P :
  log_at (c_tables c) n → is_context (c_tables c) P (mkPosition tx gid) →
  latest_of_queries queries tx gid c = (Ok (tx', gid'), c') →
  is_context (c_tables c) (λ doc, P doc || existsb (query_holds doc) queries)
    (mkPosition tx' gid').
Proof.
  revert tx gid c P. induction queries as [|q qs IH]; intros tx gid c P Hl Hp H; simpl in H.
  - injection H as <- <- <-. eapply is_context_ext; [|exact Hp].
    intros doc. simpl. by rewrite orb_false_r.
  - apply stm_bind_ok in H as (row & c1 & He & H). unfold map_err in He.
    destruct (Execute (select_latest q) c) as [[row'|] c2] eqn:E; [|done].
    injection He as -> ->. apply Execute_ok in E as Hs.
    assert (c_tables c1 = c_tables c) as Ht by (unfold select_latest in Hs; by injection Hs).
    rewrite Ht in Hs. pose proof (is_context_query _ _ _ _ _ _ Hl Hp Hs) as Hq. simpl in Hq.
    rewrite <-Ht in Hl, Hq.
    rewrite <-Ht. apply (is_context_ext _ (λ doc,
      (P doc || query_holds doc q) || existsb (query_holds doc) qs)).
    { intros doc. simpl. by rewrite orb_assoc. }
    destruct row as [[tx1 gid1]|]; [destruct ((tx <? tx1)%Z || _)|];
      by eapply (IH _ _ c1 (λ doc, P doc || query_holds doc q)).
Qed.

End Contexts.

(** ** One save *)

Section Saves.
Context `{J : GoJson, L : !GoJsonLaws, T : SqlText}.

Definition check_ok (t : Tables) (check : preparedConsistencyCheck) : Prop :=
  pc_err check = None
  ∧ is_context t (λ doc, existsb (query_holds doc) (pc_queries check)) (pc_position check).

Definition last_id (n : Z) (req : preparedSQLiteSave) : Z :=
  (n + Z.of_nat (length (ps_inserts req)) - 1)%Z.

(** Request [req] is accepted on log [t] with next position [n] and makes it [t1]:
its observations are current, and its events are appended at the next positions,
under one record of its observations. *)
Record accepts (t : Tables) (n : Z) (req : preparedSQLiteSave) (t1 : Tables) : Prop := {
  ac_ctx : ps_ctx req = None;
  ac_nonempty : ps_inserts req ≠ [];
  ac_room : (n + Z.of_nat (length (ps_inserts req)) <= MaxInt64)%Z;
  ac_checks : Forall (check_ok t) (ps_preparedChecks req);
  ac_rows : ∃ rows, t_events t1 = t_events t ++ rows
    ∧ rows_stored (ps_inserts req) (last_id n req) n (ps_now req) rows;
  ac_writes : t_writes t1 = <[last_id n req := ps_consistencyJSON req]> (t_writes t);
  ac_next : t_next_id t1 = t_next_id t }.

Definition next_after (n : Z) (req : preparedSQLiteSave) : Z :=
  (n + Z.of_nat (length (ps_inserts req)))%Z.

Definition good_request (req : preparedSQLiteSave) : Prop :=
  Forall good_document (ps_inserts req) ∧ text_ok (ps_now req).

(** An accepted save keeps the invariant. *)
Lemma accepts_log_at t n req t1 :
  log_at t n → accepts t n req t1 → log_at t1 (next_after n req).
Proof.
  intros [Hn Hlen Hrows Hord Hw] [_ Hne Hroom _ (rows & He & Hst) Hwr _].
  unfold next_after. pose proof (rows_stored_length _ _ _ _ _ Hst) as Hl.
  assert (0 < length (ps_inserts req)) as Hpos by (destruct (ps_inserts req); simpl; [done|lia]).
  assert (∀ i r, t_events t1 !! i = Some r →
    (i < length (t_events t) ∧ t_events t !! i = Some r)
    ∨ (length (t_events t) ≤ i ∧ row_transaction_id r = Some (last_id n req)
       ∧ row_global_id r = Some (Z.of_nat i + 1)%Z
       ∧ (Z.of_nat i + 1 <= last_id n req)%Z)) as Hcase.
  { intros i r Hi. rewrite He in Hi. apply lookup_app_Some in Hi as [Hi|[Hi Hj]].
    - left. split; [|done]. by eapply lookup_lt_Some.
    - right. split; [done|].
      destruct (rows_stored_lookup _ _ _ _ _ _ _ Hst Hj) as (d & Hd & Hs).
      apply lookup_lt_Some in Hd. split; [apply Hs|]. split; [|unfold last_id; lia].
      rewrite (se_gid _ _ _ _ _ Hs). f_equal. lia. }
  split.
  - lia.
  - rewrite He, length_app. lia.
  - intros i r Hi. destruct (Hcase i r Hi) as [[_ Hi']|(Hge & Ht & Hg & Hr)].
    + destruct (Hrows i r Hi') as (tid & ? & ? & ? & [v Hv]). exists tid.
      split_and!; [done|done|lia|lia|]. rewrite Hwr.
      destruct (decide (tid = last_id n req)) as [->|]; [by rewrite lookup_insert_eq|].
      rewrite lookup_insert_ne by done. eauto.
    + exists (last_id n req). split_and!; [done|done|lia|unfold last_id; lia|].
      rewrite Hwr, lookup_insert_eq. eauto.
  - intros i j r s Hij Hi Hj.
    destruct (Hcase i r Hi) as [[_ Hi']|(Hge & Ht & _)],
      (Hcase j s Hj) as [[_ Hj']|(Hge' & Ht' & _)].
    + by apply (Hord i j).
    + destruct (Hrows i r Hi') as (tid & Htr & _ & ? & _). unfold row_pos. simpl.
      rewrite Htr, Ht'. simpl. unfold last_id. lia.
    + apply lookup_lt_Some in Hj'. lia.
    + unfold row_pos. simpl. rewrite Ht, Ht'. simpl. lia.
  - intros w Hw'. rewrite Hwr in Hw'.
    destruct (decide (w = last_id n req)) as [->|Hne']; [unfold last_id; lia|].
    rewrite lookup_insert_ne in Hw' by done. apply Hw in Hw'. lia.
Qed.

(** The arithmetic of [saveEventsOnConn] does not wrap. *)
Lemma save_bounds t n (ds : list preparedEventDocument) :
  log_at t n →
  wrap64 (MaxInt64 - n) = (MaxInt64 - n)%Z
  ∧ ((n + Z.of_nat (length ds) <= MaxInt64)%Z →
     wrap64 (wrap64 (n + Z.of_nat (length ds)) - 1) = (n + Z.of_nat (length ds) - 1)%Z).
Proof.
  intros [Hn _ _ _ _]. split.
  - apply wrap64_id. unfold is_int64, MinInt64, MaxInt64 in *. lia.
  - intros H. rewrite (wrap64_id (n + _)) by (unfold is_int64, MinInt64, MaxInt64 in *; lia).
    apply wrap64_id. unfold is_int64, MinInt64, MaxInt64 in *. lia.
Qed.

(** Inserting the events of a save on a log where its write was just recorded. *)
Lemma save_rows t n (req : preparedSQLiteSave) v texts :
  log_at t n → good_request req →
  (n + Z.of_nat (length (ps_inserts req)) <= MaxInt64)%Z → ps_inserts req ≠ [] →
  documents_text (ps_inserts req) (last_id n req) n (ps_now req) = Ok texts →
  ∃ rows, rows_stored (ps_inserts req) (last_id n req) n (ps_now req) rows
    ∧ insert_rows texts (mkTables (t_events t) (<[last_id n req := v]> (t_writes t)) (t_next_id t))
      = Ok (tt, mkTables (t_events t ++ rows) (<[last_id n req := v]> (t_writes t)) (t_next_id t)).
Proof.
  intros Hl [Hg Hnow] Hroom Hne Htx. pose proof (la_next _ _ Hl).
  assert (0 < length (ps_inserts req)) by (destruct (ps_inserts req); simpl; [done|lia]).
  eapply insert_rows_stored; [exact Htx|done|done|unfold last_id; lia|lia|lia| |].
  - simpl. rewrite lookup_insert_eq. eauto.
  - intros s [i Hi]%list_elem_of_lookup. simpl in Hi.
    destruct (la_rows _ _ Hl _ _ Hi) as (tid & _ & Hgid & ? & _).
    eexists. split; [exact Hgid|]. apply lookup_lt_Some in Hi.
    pose proof (la_length _ _ Hl). lia.
Qed.

Lemma batch_fields_inv tid now : fields_inv tid now (batch_fields tid now).
Proof. done. Qed.

Lemma saveEventsOnConn_sound n req c r c1 :
  log_at (c_tables c) n → good_request req →
  saveEventsOnConn (ps_inserts req) (ps_consistencyJSON req) n (ps_now req) c = (Ok r, c1) →
  r = (FormatInt (last_id n req), last_id n req)
  ∧ ps_inserts req ≠ []
  ∧ (n + Z.of_nat (length (ps_inserts req)) <= MaxInt64)%Z
  ∧ (∃ rows, t_events (c_tables c1) = t_events (c_tables c) ++ rows
       ∧ rows_stored (ps_inserts req) (last_id n req) n (ps_now req) rows)
  ∧ t_writes (c_tables c1)
    = <[last_id n req := ps_consistencyJSON req]> (t_writes (c_tables c))
  ∧ t_next_id (c_tables c1) = t_next_id (c_tables c).
Proof.
  intros Hl Hg H. unfold saveEventsOnConn in H.
  destruct (save_bounds _ _ (ps_inserts req) Hl) as [Hb1 Hb2]. rewrite Hb1 in H.
  destruct (Z.eqb_spec (Z.of_nat (length (ps_inserts req))) 0) as [|Hnz]; [done|].
  destruct (Z.ltb_spec (MaxInt64 - n) (Z.of_nat (length (ps_inserts req)))) as [|Hroom]; [done|].
  simpl in H. assert (n + Z.of_nat (length (ps_inserts req)) <= MaxInt64)%Z as Hroom' by lia.
  rewrite (Hb2 Hroom') in H. fold (last_id n req) in H.
  apply stm_bind_ok in H as (u & c2 & Hw & H). apply stm_bind_ok in H as (u' & c3 & Hi & H).
  injection H as <- <-. unfold insertWriteContext in Hw. apply Execute_ok in Hw.
  unfold insert_write in Hw. repeat case_match; simplify_eq.
  unfold map_err in Hi. destruct (insertEventBatch _ _ _ _ c2) as [[[]|] c4] eqn:E; [|done].
  injection Hi as <- <-. unfold insertEventBatch in E.
  assert (ps_inserts req ≠ []) as Hne by (intros Hnil; by rewrite Hnil in Hnz).
  pose proof (la_next _ _ Hl).
  apply (insert_chunks_sound _ _ _ _ _ _ _ _ (batch_fields_inv _ _)) in E
    as (texts & Htx & Hins); [|lia|lia].
  destruct (save_rows _ _ _ (ps_consistencyJSON req) _ Hl Hg Hroom' Hne Htx)
    as (rows & Hrs & Hins').
  match goal with Hc2 : c_tables c2 = _ |- _ => rewrite Hc2 in Hins
                | Hc2 : _ = c_tables c2 |- _ => rewrite <-Hc2 in Hins end.
  rewrite Hins' in Hins. injection Hins as Hins. rewrite <-Hins. simpl.
  split_and!; [done|done|done|by exists rows|done|done].
Qed.

(** The request can be stored at position [n]. *)
Definition saveable (n : Z) (req : preparedSQLiteSave) : Prop :=
  ps_inserts req ≠ []
  ∧ (n + Z.of_nat (length (ps_inserts req)) <= MaxInt64)%Z
  ∧ (∃ texts, documents_text (ps_inserts req) (last_id n req) n (ps_now req) = Ok texts)
  ∧ (∃ l, json_Unmarshal (ps_consistencyJSON req) = Ok (JArray l)).

Lemma saveEventsOnConn_steady ds consistency n now :
  steady (saveEventsOnConn ds consistency n now).
Proof.
  unfold saveEventsOnConn. case_match; [apply steady_fail|].
  apply steady_bind; [apply steady_Execute|intros _].
  apply steady_bind; [apply steady_map_err, insert_chunks_steady|intros _; apply steady_ret].
Qed.

Lemma saveEventsOnConn_clean n req c :
  log_at (c_tables c) n → good_request req → fault_free c →
  ∃ r c1, saveEventsOnConn (ps_inserts req) (ps_consistencyJSON req) n (ps_now req) c = (r, c1)
    ∧ (saveable n req → is_ok r = true).
Proof.
  intros Hl Hg Hc. unfold saveEventsOnConn.
  destruct (save_bounds _ _ (ps_inserts req) Hl) as [Hb1 Hb2]. rewrite Hb1.
  destruct (Z.eqb_spec (Z.of_nat (length (ps_inserts req))) 0) as [Hz|Hnz]; simpl.
  { eexists _, _. split; [done|]. intros (Hne & _). by destruct (ps_inserts req). }
  destruct (Z.ltb_spec (MaxInt64 - n) (Z.of_nat (length (ps_inserts req)))) as [Hlt|Hroom].
  { eexists _, _. split; [done|]. intros (_ & ? & _). lia. }
  assert (n + Z.of_nat (length (ps_inserts req)) <= MaxInt64)%Z as Hroom' by lia.
  rewrite (Hb2 Hroom'). fold (last_id n req). rewrite stm_bind_eq.
  unfold insertWriteContext. rewrite Execute_clean by done. unfold insert_write.
  assert (t_writes (c_tables c) !! last_id n req = None) as ->.
  { destruct (t_writes (c_tables c) !! last_id n req) eqn:E; [|done].
    assert (1 <= last_id n req < n)%Z by (apply (la_writes _ _ Hl); eauto).
    unfold last_id in *. lia. }
  destruct (json_Unmarshal (ps_consistencyJSON req)) as [[| | | |l|]|] eqn:Hj;
    try (eexists _, _; split; [done|]; intros (_ & _ & _ & l' & ?); congruence).
  rewrite stm_bind_eq. unfold map_err, insertEventBatch.
  set (t2 := mkTables _ _ _). pose proof (la_next _ _ Hl).
  destruct (insert_chunks_clean (length (ps_inserts req)) (ps_inserts req) (last_id n req) n
    (ps_now req) _ (mkConnection t2 [] (c_open c)) (batch_fields_inv _ _)) as (r & c' & -> & Hok);
    [lia|lia|lia|done|].
  destruct r as [[]|e]; eexists _, _; (split; [done|]); [done|].
  intros (Hne & _ & (texts & Htx) & _).
  destruct (save_rows _ _ _ (ps_consistencyJSON req) _ Hl Hg Hroom' Hne Htx)
    as (rows & _ & Hins). by destruct (Hok _ _ Htx Hins) as [[=] _].
Qed.

(** ** The checks of a request *)

Lemma latest_of_queries_clean queries tx gid c :
  fault_free c → ∃ p c', latest_of_queries queries tx gid c = (Ok p, c').
Proof.
  revert tx gid c. induction queries as [|q qs IH]; intros tx gid c Hc; simpl; [by eexists _, _|].
  rewrite stm_bind_eq. unfold map_err. rewrite Execute_clean by done.
  unfold select_latest at 1. destruct (fmap _ _) as [[tx' gid']|]; [case_match|]; by apply IH.
Qed.

Lemma check_consistency_reading checks : reading (check_consistency checks).
Proof.
  induction checks as [|check checks IH]; simpl; [apply reading_ret|].
  destruct (pc_err check); [apply reading_fail|].
  apply reading_bind; [apply latest_of_queries_reading|].
  intros [tx gid]. case_match; [apply reading_fail|done].
Qed.

Lemma context_empty t : is_context t (λ _, false) NotExistsPosition.
Proof. by left. Qed.

(** The position that the lookups of a check find is the position of its context. *)
Lemma latest_is_context t n queries c p c' :
  log_at t n → c_tables c = t →
  latestPreparedCriteriaPosition queries c = (Ok p, c') →
  is_context t (λ doc, existsb (query_holds doc) queries) (mkPosition p.1 p.2).
Proof.
  intros Hl <- H. destruct p as [tx gid]. unfold latestPreparedCriteriaPosition in H.
  exact (latest_of_queries_context _ _ _ _ _ _ _ _ _ Hl (context_empty _) H).
Qed.

Lemma check_step_spec t n check c p c' :
  log_at t n → c_tables c = t →
  latestPreparedCriteriaPosition (pc_queries check) c = (Ok p, c') →
  pc_err check = None →
  negb (p.1 =? CommitPosition (pc_position check))%Z
  || negb (p.2 =? PreparePosition (pc_position check))%Z = false ↔ check_ok t check.
Proof.
  intros Hl Hc H He. apply (latest_is_context _ _ _ _ _ _ Hl Hc) in H as Hx.
  destruct p as [tx gid]. simpl in *. unfold check_ok. rewrite orb_false_iff, !negb_false_iff,
    !Z.eqb_eq. split.
  - intros [E1 E2]. split; [done|]. rewrite E1, E2 in Hx. by destruct (pc_position check).
  - intros [_ Hx']. by rewrite <-(is_context_unique _ _ _ _ _ Hl Hx Hx').
Qed.

Lemma check_consistency_sound checks n c c' :
  log_at (c_tables c) n → check_consistency checks c = (Ok tt, c') →
  Forall (check_ok (c_tables c)) checks.
Proof.
  revert c. induction checks as [|check checks IH]; intros c Hl H; [done|]. simpl in H.
  destruct (pc_err check) eqn:He; [done|]. apply stm_bind_ok in H as ([tx gid] & c1 & E & H).
  pose proof (check_step_spec _ _ check c (tx, gid) c1 Hl eq_refl E He) as Hs. simpl in Hs.
  destruct (_ || _); [done|]. constructor; [by apply Hs|].
  apply (reading_ok _ _ _ _ (latest_of_queries_reading _ _ _)) in E as Ht.
  rewrite <-Ht. apply IH; [by rewrite Ht|done].
Qed.

(** Why a request is refused by its checks: one that cannot be evaluated, or one
whose context has moved. *)
Definition check_failure (t : Tables) (checks : list preparedConsistencyCheck)
    (e : goerror) : Prop :=
  ∃ check, check ∈ checks ∧ ¬ check_ok t check
    ∧ ((pc_err check = None ∧ e = version_conflict)
       ∨ (pc_err check ≠ None ∧ CodeOf (Some e) = InvalidArgument)).

Lemma check_consistency_clean checks n c :
  log_at (c_tables c) n → fault_free c →
  ∃ r c', check_consistency checks c = (r, c')
    ∧ match r with
      | Ok _ => Forall (check_ok (c_tables c)) checks
      | Err e => check_failure (c_tables c) checks e
      end.
Proof.
  revert c. induction checks as [|check checks IH]; intros c Hl Hc; simpl.
  { by exists (Ok tt), c. }
  destruct (pc_err check) as [e'|] eqn:He.
  { eexists _, c. split; [done|]. exists check. split_and!; [left| |right].
    - intros [? _]. congruence.
    - by rewrite He. }
  rewrite stm_bind_eq. unfold latestPreparedCriteriaPosition at 1.
  destruct (latest_of_queries_clean (pc_queries check) (-1) (-1) c Hc) as ([tx gid] & c1 & E).
  rewrite E.
  pose proof (check_step_spec _ _ check c (tx, gid) c1 Hl eq_refl E He) as Hs. simpl in Hs.
  pose proof (reading_ok _ _ _ _ (latest_of_queries_reading _ _ _) E) as Ht.
  destruct (steady_fault_free _ _ _ _ (proj1 (latest_of_queries_reading _ _ _)) E Hc) as [Hc1 _].
  destruct (negb _ || negb _) eqn:Eb.
  - eexists _, c1. split; [done|]. exists check. split_and!; [left| |by left].
    intros Hok. apply Hs in Hok. by rewrite Hok in Eb.
  - destruct (IH c1) as (r & c' & Hr & Hres); [by rewrite Ht|auto|]. exists r, c'.
    split; [done|]. rewrite Ht in Hres. destruct r.
    + constructor; [by apply Hs|done].
    + destruct Hres as (check' & ? & ?). exists check'. split; [by right|done].
Qed.

End Saves.

(** ** The flush of a batch *)

Section Flush.
Context `{J : GoJson, L : !GoJsonLaws, T : SqlText, X : Sqlitex, XL : !SqlitexLaws}.

(** The requests of a batch, one after the other, from log [t] with next position
[n]: each is refused without effect, for a reason allowed by [R], or accepted. *)
Inductive flushed (R : Tables → Z → preparedSQLiteSave → goerror → Prop)
  : Tables → Z → list preparedSQLiteSave → list sqliteSaveResult → Tables → Z → Prop :=
  | flushed_nil t n : flushed R t n [] [] t n
  | flushed_refuse t n req e reqs os t' n' :
      R t n req e → flushed R t n reqs os t' n' →
      flushed R t n (req :: reqs) (failed_save e :: os) t' n'
  | flushed_accept t n req t1 reqs os t' n' :
      accepts t n req t1 → flushed R t1 (next_after n req) reqs os t' n' →
      flushed R t n (req :: reqs)
        (mkSaveResult (FormatInt (last_id n req)) (last_id n req) None :: os) t' n'.

Lemma flushed_log_at R t n reqs os t' n' :
  flushed R t n reqs os t' n' → log_at t n →
  log_at t' n' ∧ t_events t `prefix_of` t_events t' ∧ t_next_id t' = t_next_id t.
Proof.
  induction 1 as [t n|t n req e reqs os t' n' _ _ IH|t n req t1 reqs os t' n' Ha _ IH];
    intros Hl; [done|auto|].
  destruct IH as (? & ? & Hn); [by eapply accepts_log_at|]. split_and!; [done| |].
  - transitivity (t_events t1); [|done]. destruct (ac_rows _ _ _ _ Ha) as (rows & -> & _).
    by eexists.
  - rewrite Hn. apply (ac_next _ _ _ _ Ha).
Qed.

Lemma saveSavepointed_steady req n : steady (saveSavepointed req n).
Proof.
  unfold saveSavepointed. apply steady_bind; [apply check_consistency_reading|intros _].
  apply steady_Save, saveEventsOnConn_steady.
Qed.

(** One request: it is accepted, or refused without effect, or SQLite has rolled the whole
transaction back. *)
Lemma saveSavepointed_sound n req c r c' :
  log_at (c_tables c) n → good_request req → ps_ctx req = None →
  saveSavepointed req n c = (r, c') →
  match r with
  | Err _ => (c_tables c' = c_tables c ∧ c_open c' = c_open c) ∨ gave_up c r c'
  | Ok (txID, gid) => txID = FormatInt (last_id n req) ∧ gid = last_id n req
      ∧ accepts (c_tables c) n req (c_tables c') ∧ c_open c' = c_open c
  end.
Proof.
  intros Hl Hg Hctx H. destruct (saveSavepointed_steady _ _ _ _ _ H) as (_ & Hopen & _).
  unfold saveSavepointed in H. apply stm_bind_inv in H as [([] & c1 & E & H)|(e & E & ->)].
  2:{ destruct (proj2 (check_consistency_reading _) _ _ _ E), Hopen; auto. }
  pose proof (check_consistency_sound _ _ _ _ Hl E) as Hok.
  pose proof (reading_ok _ _ _ _ (check_consistency_reading _) E) as Ht.
  pose proof (steady_ok _ _ _ _ (proj1 (check_consistency_reading _)) E) as Ho.
  destruct (bracket_steady _ _ _ _ _ _ (Save_bracketed _) (saveEventsOnConn_steady _ _ _ _) H)
    as [(Hr & Ht' & Ho')|[(a & c0 & c2 & -> & Ht0 & Hb & Ht' & Ho')|[Hgave _]]].
  - destruct r; [done|]. left. split; congruence.
  - assert (c_tables c0 = c_tables c) as Ht0' by congruence.
    apply saveEventsOnConn_sound in Hb as (-> & ? & ? & ? & ? & ?); [|by rewrite Ht0'|done].
    rewrite Ht0' in *. split_and!; [done..| |congruence]. split; rewrite ?Ht'; done.
  - unfold gave_up in *. rewrite Ho in Hgave.
    destruct r; [by destruct Hgave as (? & _ & _ & _ & ?)|]. by right.
Qed.

Lemma wrap64_next n req t1 :
  log_at t1 (next_after n req) → wrap64 (last_id n req + 1) = next_after n req.
Proof.
  intros Hl1. unfold last_id, next_after.
  replace (n + Z.of_nat (length (ps_inserts req)) - 1 + 1)%Z
    with (n + Z.of_nat (length (ps_inserts req)))%Z by lia.
  apply wrap64_id. pose proof (la_next _ _ Hl1) as Hn. unfold next_after in Hn.
  unfold is_int64, MinInt64. lia.
Qed.

(** The loop always returns outcomes; without an accepted request nothing changes. *)
Lemma run_requests_kept live n acc c r c' :
  log_at (c_tables c) n → Forall good_request live → kept c →
  run_requests live n acc c = (r, c') →
  ∃ outcomes n' acc', r = Ok (outcomes, n', acc')
    ∧ flushed (λ _ _ _ _, True) (c_tables c) n live outcomes (c_tables c') n'
    ∧ (acc <= acc')%Z ∧ (acc' = acc → n' = n ∧ c_tables c' = c_tables c)
    ∧ kept c' ∧ c_open c' = c_open c.
Proof.
  revert n acc c r c'.
  induction live as [|req live IH]; intros n acc c r c' Hl Hg Hk H; cbn [run_requests] in H.
  - injection H as <- <-. eexists _, _, _. split_and!; [done|constructor|lia|done..].
  - apply Forall_cons in Hg as [Hreq Hg]. destruct (ps_ctx req) as [ctxErr|] eqn:Hctx.
    + rewrite stm_bind_eq in H.
      destruct (run_requests live n acc c) as [r1 c1] eqn:E.
      destruct (IH _ _ _ _ _ Hl Hg Hk E) as (os & n' & acc' & -> & Hf & Hle & Heq & Hk' & Ho).
      injection H as <- <-. eexists _, _, _.
      split_and!; [done|by constructor|done..].
    + destruct (saveSavepointed req n c) as [rs c1] eqn:Es.
      pose proof (saveSavepointed_sound _ _ _ _ _ Hl Hreq Hctx Es) as Hs.
      destruct (saveSavepointed_steady _ _ _ _ _ Es) as (Hlt & _ & Ho1).
      specialize (Ho1 Hk). pose proof (later_kept _ _ Hlt Hk) as Hk1.
      destruct rs as [[txID gid]|e].
      * destruct Hs as (-> & -> & Ha & _). rewrite stm_bind_eq in H.
        pose proof (accepts_log_at _ _ _ _ Hl Ha) as Hl1.
        pose proof (wrap64_next _ _ _ Hl1) as Hw.
        rewrite Hw in H.
        destruct (run_requests live (next_after n req) (acc + 1) c1) as [r1 c2] eqn:E.
        destruct (IH _ _ _ _ _ Hl1 Hg Hk1 E) as (os & n' & acc' & -> & Hf & Hle & _ & Hk' & Ho).
        injection H as <- <-. eexists _, _, _.
        split_and!; [done|by econstructor|lia|lia|done|congruence].
      * assert (c_tables c1 = c_tables c) as Ht.
        { destruct Hs as [[? _]|(? & Hc & _ & Hc' & _)]; [done|congruence]. }
        rewrite <-Ht in Hl. rewrite stm_bind_eq in H.
        destruct (run_requests live n acc c1) as [r1 c2] eqn:E.
        destruct (IH _ _ _ _ _ Hl Hg Hk1 E) as (os & n' & acc' & -> & Hf & Hle & Heq & Hk' & Ho).
        injection H as <- <-. eexists _, _, _. rewrite Ht in Hf, Heq.
        split_and!; [done|by constructor|done|done|done|congruence].
Qed.

(** One request alone, whatever fails: when the transaction is rolled back the request is
refused, and the tables are as they were at its beginning. *)
Lemma run_requests_alone req n acc c r c' :
  log_at (c_tables c) n → good_request req → c_open c = Some (c_tables c) →
  run_requests [req] n acc c = (r, c') →
  ∃ outcomes n' acc', r = Ok (outcomes, n', acc')
    ∧ flushed (λ _ _ _ _, True) (c_tables c) n [req] outcomes (c_tables c') n'
    ∧ (acc <= acc')%Z ∧ (acc' = acc → n' = n ∧ c_tables c' = c_tables c)
    ∧ (c_open c' = c_open c ∨ acc' = acc ∧ c_open c' = None).
Proof.
  intros Hl Hreq Hopen H. cbn [run_requests] in H. destruct (ps_ctx req) as [ctxErr|] eqn:Hctx.
  - injection H as <- <-. eexists _, _, _.
    split_and!; [done|by repeat constructor|lia|done|by left].
  - destruct (saveSavepointed req n c) as [rs c1] eqn:Es.
    pose proof (saveSavepointed_sound _ _ _ _ _ Hl Hreq Hctx Es) as Hs.
    destruct rs as [[txID gid]|e]; injection H as <- <-; eexists _, _, _.
    + destruct Hs as (-> & -> & Ha & Ho).
      rewrite (wrap64_next _ _ _ (accepts_log_at _ _ _ _ Hl Ha)).
      split_and!; [done| |lia|lia|by left]. eapply flushed_accept; [done|constructor].
    + assert (c_tables c1 = c_tables c ∧ (c_open c1 = c_open c ∨ c_open c1 = None)) as [Ht Ho].
      { destruct Hs as [[? ?]|(b & Hb & Ht & Ho & _)]; [auto|].
        rewrite Hopen in Hb. injection Hb as <-. auto. }
      rewrite Ht. split_and!; [done|by repeat constructor|lia|done|]. destruct Ho; auto.
Qed.

(** No failure of a statement rolls the transaction back, or it is that of one request. *)
Definition unlosable (live : list preparedSQLiteSave) (c : Conn) : Prop :=
  kept c ∨ length live ≤ 1.

Lemma run_requests_sound live n acc c r c' :
  log_at (c_tables c) n → Forall good_request live →
  unlosable live c → c_open c = Some (c_tables c) →
  run_requests live n acc c = (r, c') →
  ∃ outcomes n' acc', r = Ok (outcomes, n', acc')
    ∧ flushed (λ _ _ _ _, True) (c_tables c) n live outcomes (c_tables c') n'
    ∧ (acc <= acc')%Z ∧ (acc' = acc → n' = n ∧ c_tables c' = c_tables c)
    ∧ (c_open c' = c_open c ∨ acc' = acc ∧ c_open c' = None).
Proof.
  intros Hl Hg [Hk|Hlen] Ho H.
  - destruct (run_requests_kept _ _ _ _ _ _ Hl Hg Hk H) as (os & n' & acc' & ? & ? & ? & ? & _ & ?).
    exists os, n', acc'. split_and!; auto.
  - destruct live as [|req [|? ?]]; simpl in Hlen; [| |lia].
    + injection H as <- <-. eexists _, _, _. split_and!; [done|constructor|lia|done|by left].
    + apply Forall_cons in Hg as [Hreq _]. by apply run_requests_alone.
Qed.

Definition commit_tables (t : Tables) (n : Z) : Tables :=
  mkTables (t_events t) (t_writes t) n.

Lemma log_at_next t n m : log_at t n → log_at (commit_tables t m) n.
Proof. intros [? ? ? ? ?]. by split. Qed.

(** The work of a flush, in the transaction that began with the tables as they are. *)
Lemma transaction_body_sound live c r c' :
  log_inv (c_tables c) → Forall good_request live →
  unlosable live c → c_open c = Some (c_tables c) →
  transaction_body live c = (r, c') →
  (c_open c' = c_open c ∨ c_open c' = None)
  ∧ match r with
    | Ok outcomes => ∃ t n,
        flushed (λ _ _ _ _, True) (c_tables c) (t_next_id (c_tables c)) live outcomes t n
        ∧ c_tables c' = commit_tables t n
    | Err _ => c_open c' = None → c_tables c' = c_tables c
    end.
Proof.
  intros Hl Hg Hu Hopen H. unfold transaction_body in H.
  apply stm_bind_inv in H as [(nextID & c1 & Hn & H)|(e & Hn & ->)].
  2:{ destruct (steady_Execute _ _ _ _ Hn) as (_ & [Ho|(b & Hb & Ht & Ho & _)] & _).
      - split; [by left|]. intros Hc. congruence.
      - rewrite Hopen in Hb. injection Hb as <-. auto. }
  pose proof (steady_ok _ _ _ _ (steady_Execute _) Hn) as Ho1.
  assert (unlosable live c1) as Hu1.
  { destruct Hu as [Hk|?]; [left|by right]. eapply later_kept; [|done].
    apply (steady_Execute _ _ _ _ Hn). }
  apply Execute_ok in Hn. unfold select_next_id in Hn. injection Hn as <- Ht. unfold log_inv in Hl.
  case_match; [injection H as <- <-; split; [by left|congruence]|].
  assert (log_at (c_tables c1) (t_next_id (c_tables c))) as Hl1 by by rewrite <-Ht.
  apply stm_bind_inv in H as [([[os n'] acc'] & c2 & Hr & H)|(e & Hr & ->)];
    destruct (run_requests_sound _ _ _ c1 _ _ Hl1 Hg Hu1 ltac:(congruence) Hr)
      as (os' & n'' & acc'' & Hres & Hf & Hle & Heq & Ho2); [|done].
  injection Hres as <- <- <-. rewrite <-Ht in Hf, Heq.
  destruct (Z.ltb_spec 0 acc') as [Hpos|Hz].
  - destruct Ho2 as [Ho2|[? _]]; [|lia].
    apply stm_bind_inv in H as [(u & c3 & Hu3 & H)|(e & Hu3 & ->)].
    + injection H as <- <-. pose proof (steady_ok _ _ _ _ (steady_Execute _) Hu3) as Ho3.
      apply Execute_ok in Hu3. unfold update_next_id in Hu3. injection Hu3 as _ Hu3.
      split; [left; congruence|]. exists (c_tables c2), n'. by rewrite <-Hu3.
    + destruct (steady_Execute _ _ _ _ Hu3) as (_ & [Ho|(b & Hb & Ht3 & Ho & _)] & _).
      * split; [left; congruence|]. intros Hc. congruence.
      * split; [by right|]. intros _. congruence.
  - injection H as <- <-. destruct Heq as [-> Heq]; [lia|].
    split; [destruct Ho2 as [?|[_ ?]]; [left; congruence|by right]|].
    exists (c_tables c2), (t_next_id (c_tables c)). split; [done|]. rewrite Heq.
    by destruct (c_tables c).
Qed.

Lemma executeTransaction_outcome live c r c' :
  log_inv (c_tables c) → Forall good_request live → unlosable live c →
  executeTransaction live c = (r, c') →
  match r with
  | Err _ => c_tables c' = c_tables c
  | Ok outcomes => ∃ t n,
      flushed (λ _ _ _ _, True) (c_tables c) (t_next_id (c_tables c)) live outcomes t n
      ∧ c_tables c' = commit_tables t n
  end.
Proof.
  intros Hl Hg Hu H. unfold executeTransaction in H.
  apply Immediate_bracketed in H
    as [(Hr & Ht & _)|(c0 & r1 & c1 & [?|Hnone] & Hlt & Ht0 & Ho0 & E & _ & Hend)];
    [by destruct r|done|].
  simpl in Ho0. rewrite Hnone in Ho0. simpl in Ho0. rewrite <-Ht0 in Hl, Ho0.
  assert (unlosable live c0) as Hu0.
  { destruct Hu as [Hk|?]; [left; by eapply later_kept|by right]. }
  apply transaction_body_sound in E as [Hopen E]; [|done..]. rewrite Ht0 in E, Ho0, Hl.
  unfold bracket_end in Hend. destruct (c_open c1) as [base|] eqn:Ho1.
  - rewrite Ho0 in Hopen. destruct Hopen as [[= ->]|]; [|done].
    destruct Hend as [(Hr1 & -> & Ht' & _)|[(Hr & Ht' & _)|(Hr & Ht' & _)]].
    + destruct r1; [|done]. by rewrite Ht'.
    + by destruct r.
    + by destruct r.
  - destruct Hend as (-> & Ht' & _). rewrite Ht'. destruct r1; [done|]. by apply E.
Qed.

Lemma executeTransaction_inv live c r c' :
  log_inv (c_tables c) → Forall good_request live → unlosable live c →
  executeTransaction live c = (r, c') →
  log_inv (c_tables c') ∧ t_events (c_tables c) `prefix_of` t_events (c_tables c').
Proof.
  intros Hl Hg Hu H. apply executeTransaction_outcome in H; [|done..].
  destruct r as [outcomes|e]; [|by rewrite H].
  destruct H as (t & n & Hf & ->).
  destruct (flushed_log_at _ _ _ _ _ _ _ Hf Hl) as (Hl' & Hp & _).
  split; [by apply log_at_next|done].
Qed.

(** C6: one flush of the group commit, whatever statements, savepoints or the
commit fail. If it reports an error nothing has changed. If it returns outcomes,
there is one per request, in order; the requests were applied one after the
other, each refused without any effect or accepted with its observations current
on the log left by the earlier ones, its events appended at the next dense
positions and its context recorded; the stored events only grew, and the
invariant of the log still holds. If the flush has more than one request this asks
that no failing statement makes SQLite roll back the whole transaction. *)
Theorem flush_sound live c r c' :
  log_inv (c_tables c) → Forall good_request live → unlosable live c →
  executeTransaction live c = (r, c') →
  log_inv (c_tables c')
  ∧ match r with
    | Err _ => c_tables c' = c_tables c
    | Ok outcomes => ∃ t n,
        flushed (λ _ _ _ _, True) (c_tables c) (t_next_id (c_tables c)) live outcomes t n
        ∧ c_tables c' = commit_tables t n
        ∧ t_events (c_tables c) `prefix_of` t_events (c_tables c')
    end.
Proof.
  intros Hl Hg Hu H. pose proof (executeTransaction_inv _ _ _ _ Hl Hg Hu H) as [Hl' Hp].
  split; [done|]. apply executeTransaction_outcome in H; [|done..].
  destruct r as [outcomes|e]; [|done]. destruct H as (t & n & ? & ?). by exists t, n.
Qed.

(** ** When nothing fails *)

(** Why a request is refused on a working connection. *)
Definition refused (t : Tables) (n : Z) (req : preparedSQLiteSave) (e : goerror) : Prop :=
  (∃ ctxErr, ps_ctx req = Some ctxErr ∧ e = FromContextError ctxErr)
  ∨ (ps_ctx req = None ∧ check_failure t (ps_preparedChecks req) e)
  ∨ (ps_ctx req = None ∧ Forall (check_ok t) (ps_preparedChecks req) ∧ ¬ saveable n req).

Lemma saveSavepointed_clean n req c :
  log_at (c_tables c) n → good_request req → ps_ctx req = None → fault_free c →
  ∃ r c', saveSavepointed req n c = (r, c') ∧ ∀ e, r = Err e → refused (c_tables c) n req e.
Proof.
  intros Hl Hg Hctx Hc. unfold saveSavepointed. rewrite stm_bind_eq.
  destruct (check_consistency_clean (ps_preparedChecks req) n c Hl Hc) as (r & c1 & E & Hr).
  rewrite E. destruct r as [[]|e].
  - pose proof (reading_ok _ _ _ _ (check_consistency_reading _) E) as Ht.
    destruct (steady_fault_free _ _ _ _ (proj1 (check_consistency_reading _)) E Hc) as [Hc1 _].
    destruct (saveEventsOnConn_clean n req (opened c1)) as (r & c2 & Eb & Hok);
      [simpl; by rewrite Ht|done|done|].
    destruct (steady_fault_free _ _ _ _ (saveEventsOnConn_steady _ _ _ _) Eb Hc1) as [Hc2 Ho2].
    destruct (Save_clean _ _ _ _ Hc1 (or_introl eq_refl) Eb Hc2 Ho2) as (c3 & -> & _).
    exists r, c3. split; [done|]. intros e ->. right. right. split_and!; [done..|].
    intros Hs. by apply Hok in Hs.
  - eexists _, _. split; [done|]. intros e' [= <-]. right. by left.
Qed.

Lemma run_requests_exact live n acc c :
  log_at (c_tables c) n → Forall good_request live → fault_free c →
  ∃ outcomes n' acc' c', run_requests live n acc c = (Ok (outcomes, n', acc'), c')
    ∧ fault_free c' ∧ c_open c' = c_open c
    ∧ flushed refused (c_tables c) n live outcomes (c_tables c') n'.
Proof.
  revert n acc c. induction live as [|req live IH]; intros n acc c Hl Hg Hc; cbn [run_requests].
  - eexists _, _, _, _. split_and!; [done|done|done|constructor].
  - apply Forall_cons in Hg as [Hreq Hg]. destruct (ps_ctx req) as [ctxErr|] eqn:Hctx.
    + destruct (IH n acc c Hl Hg Hc) as (os & n' & acc' & c' & E & Hc' & Ho' & Hf).
      rewrite stm_bind_eq, E. eexists _, _, _, _. split_and!; [done|done|done|].
      constructor; [|done]. left. eauto.
    + destruct (saveSavepointed_clean n req c Hl Hreq Hctx Hc) as (r & c1 & Es & Hr).
      destruct (steady_fault_free _ _ _ _ (saveSavepointed_steady _ _) Es Hc) as [Hc1 Ho1].
      rewrite Es. pose proof (saveSavepointed_sound _ _ _ _ _ Hl Hreq Hctx Es) as Hs.
      destruct r as [[txID gid]|e].
      * destruct Hs as (-> & -> & Ha & _). pose proof (accepts_log_at _ _ _ _ Hl Ha) as Hl1.
        rewrite stm_bind_eq, (wrap64_next _ _ _ Hl1).
        destruct (IH _ (acc + 1)%Z c1 Hl1 Hg Hc1) as (os & n' & acc' & c' & E & Hc' & Ho' & Hf).
        rewrite E. eexists _, _, _, _. split_and!; [done|done|congruence|]. by econstructor.
      * assert (c_tables c1 = c_tables c) as Ht.
        { destruct Hs as [[? _]|(? & Hb & _ & Hb' & _)]; [done|congruence]. }
        destruct (IH n acc c1) as (os & n' & acc' & c' & E & Hc' & Ho' & Hf);
          [by rewrite Ht|done|done|].
        rewrite stm_bind_eq, E. eexists _, _, _, _. split_and!; [done|done|congruence|].
        rewrite Ht in Hf. constructor; [|done]. by apply Hr.
Qed.

(** A connection just after [BEGIN IMMEDIATE]. *)
Definition started (t : Tables) : Conn := mkConnection t [] (Some t).

Lemma opened_clean (c : Conn) : clean c → opened c = started (c_tables c).
Proof. intros [Hf Ho]. unfold opened, started. by rewrite Hf, Ho. Qed.

Lemma started_unlosable live t : unlosable live (started t).
Proof. left. by apply fault_free_kept. Qed.

(** The work and the commit of a flush when nothing fails, from the run of its requests. *)
Lemma transaction_body_run live t os n' acc' c' :
  log_inv t → Forall good_request live →
  run_requests live (t_next_id t) 0 (started t) = (Ok (os, n', acc'), c') →
  fault_free c' → c_open c' = Some t →
  transaction_body live (started t)
  = (Ok os, mkConnection (commit_tables (c_tables c') n') [] (Some t)).
Proof.
  intros Hl Hg E Hc' Ho'. unfold transaction_body. rewrite stm_bind_eq, Execute_clean by done.
  cbn [c_tables started select_next_id]. pose proof (la_next _ _ Hl) as Hn.
  rewrite (proj2 (Z.ltb_ge _ _)) by lia. rewrite stm_bind_eq. unfold started in E. simpl. rewrite E.
  pose proof (run_requests_sound _ _ _ (started t) _ _ Hl Hg (started_unlosable _ _) eq_refl E)
    as (os' & n'' & acc'' & [= <- <- <-] & _ & Hle & Heq & _).
  destruct (Z.ltb_spec 0 acc') as [Hpos|Hz].
  - rewrite stm_bind_eq, Execute_clean by done. by rewrite Ho'.
  - destruct Heq as [-> Heq]; [lia|]. unfold fault_free in Hc'. destruct c' as [t' fs o].
    simpl in *. subst. unfold commit_tables. by destruct t.
Qed.

Lemma executeTransaction_run live c os n' acc' c' :
  log_inv (c_tables c) → Forall good_request live → clean c →
  run_requests live (t_next_id (c_tables c)) 0 (started (c_tables c))
    = (Ok (os, n', acc'), c') → fault_free c' → c_open c' = Some (c_tables c) →
  ∃ c2, executeTransaction live c = (Ok os, c2) ∧ clean c2
    ∧ c_tables c2 = commit_tables (c_tables c') n'.
Proof.
  intros Hl Hg Hc E Hc' Ho'.
  pose proof (transaction_body_run _ _ _ _ _ _ Hl Hg E Hc' Ho') as Hb.
  rewrite <-(opened_clean _ Hc) in Hb.
  destruct (Immediate_clean _ _ _ _ (proj1 Hc) (or_intror (proj2 Hc)) Hb) as (c2 & ? & ? & Ho & ?);
    [done|by rewrite opened_clean|].
  exists c2. split_and!; [done| |done]. split; [done|]. rewrite Ho. apply Hc.
Qed.

(** When the database works, exactly the right requests are accepted. The
flush returns outcomes, and a request is refused only because its caller has
gone, because one of its observations is not current at its turn (a version
conflict, AlreadyExists) or cannot be evaluated, or because it cannot be stored;
all the others are accepted. *)
Theorem flush_exact live c :
  log_inv (c_tables c) → Forall good_request live → clean c →
  ∃ outcomes c' t n, executeTransaction live c = (Ok outcomes, c')
    ∧ flushed refused (c_tables c) (t_next_id (c_tables c)) live outcomes t n
    ∧ c_tables c' = commit_tables t n.
Proof.
  intros Hl Hg Hc.
  destruct (run_requests_exact live (t_next_id (c_tables c)) 0 (started (c_tables c)))
    as (os & n & acc & c1 & E & Hc1 & Ho1 & Hf); [done..|].
  destruct (executeTransaction_run _ _ _ _ _ _ Hl Hg Hc E Hc1 Ho1) as (c2 & E2 & _ & Ht2).
  by exists os, c2, (c_tables c1), n.
Qed.

(** ** The log replays its observations *)

Definition log_prefix (t : Tables) (k : nat) : Tables :=
  mkTables (take k (t_events t)) (t_writes t) (t_next_id t).

Lemma flushed_lookup R t n reqs os t' n' j req o :
  flushed R t n reqs os t' n' → log_at t n →
  reqs !! j = Some req → os !! j = Some o → sr_err o = None →
  ∃ tj nj tj', log_at tj nj ∧ accepts tj nj req tj'
    ∧ t_events tj' `prefix_of` t_events t' ∧ sr_globalID o = last_id nj req.
Proof.
  intros Hf. revert j.
  induction Hf as [t n|t n rq e reqs os t' n' _ Hf IH|t n rq t1 reqs os t' n' Ha Hf IH];
    intros j Hl Hj Ho He; [done| |].
  - destruct j as [|j]; simpl in *; [by simplify_eq|]. by eapply IH.
  - pose proof (accepts_log_at _ _ _ _ Hl Ha) as Hl1.
    destruct j as [|j]; simpl in *; [|by eapply IH]. simplify_eq.
    exists t, n, t1. split_and!; [done|done| |done].
    by apply (flushed_log_at _ _ _ _ _ _ _ Hf).
Qed.

(** C5: no lost update. After a flush, under any failures, if it has one request, or
under any that do not make SQLite roll back the whole transaction, every accepted request
is justified by the log itself: on the events before its own first position, the
position of each context it observed is exactly the position it expected. So of
two requests that observed the same context, the second is refused once the
first has appended to that context. *)
Theorem accepted_is_serializable live c outcomes c' j req o check :
  log_inv (c_tables c) → Forall good_request live → unlosable live c →
  executeTransaction live c = (Ok outcomes, c') →
  live !! j = Some req → outcomes !! j = Some o → sr_err o = None →
  check ∈ ps_preparedChecks req →
  let before := Z.to_nat (sr_globalID o - Z.of_nat (length (ps_inserts req))) in
  is_context (log_prefix (c_tables c') before)
    (λ doc, existsb (query_holds doc) (pc_queries check)) (pc_position check).
Proof.
  intros Hl Hg Hu H Hj Ho He Hin before.
  apply executeTransaction_outcome in H as (t & n & Hf & Ht'); [|done..].
  destruct (flushed_lookup _ _ _ _ _ _ _ _ _ _ Hf Hl Hj Ho He)
    as (tj & nj & tj' & Hlj & Ha & Hp & Hgid).
  assert (before = length (t_events tj)) as Hb'.
  { unfold before. rewrite Hgid. unfold last_id. pose proof (la_length _ _ Hlj). lia. }
  assert (take before (t_events (c_tables c')) = t_events tj) as Htake.
  { rewrite Ht', Hb'. simpl. destruct (ac_rows _ _ _ _ Ha) as (rows & Hr & _).
    rewrite Hr in Hp. destruct Hp as [k ->].
    rewrite <-(assoc_L (++)). by rewrite take_app_length. }
  pose proof (ac_checks _ _ _ _ Ha) as Hck. rewrite Forall_forall in Hck.
  destruct (Hck _ Hin) as [_ Hctx]. unfold is_context in *. simpl. by rewrite Htake.
Qed.

(** ** A batch is the sequence of its requests *)

(** The requests of a flush read and write everything but the counter, which the
flush itself owns. *)
Definition same_log (c d : Conn) : Prop :=
  t_events (c_tables c) = t_events (c_tables d)
  ∧ t_writes (c_tables c) = t_writes (c_tables d) ∧ fault_free c ∧ fault_free d.

(** [m] gives the same result on logs that differ in the counter only. *)
Definition counter_free {A} (m : stm A) : Prop := ∀ c d, same_log c d →
  ∃ r c' d', m c = (r, c') ∧ m d = (r, d') ∧ same_log c' d'.

Lemma counter_free_ret {A} (a : A) : counter_free (mret a).
Proof. intros c d H. by exists (Ok a), c, d. Qed.

Lemma counter_free_fail {A} e : counter_free (stm_fail (A := A) e).
Proof. intros c d H. by exists (Err e), c, d. Qed.

Lemma counter_free_bind {A B} (m : stm A) (f : A → stm B) :
  counter_free m → (∀ a, counter_free (f a)) → counter_free (m ≫= f).
Proof.
  intros Hm Hf c d H. destruct (Hm c d H) as (r & c' & d' & Ec & Ed & H').
  setoid_rewrite stm_bind_eq. rewrite Ec, Ed. destruct r as [a|e].
  - by apply Hf.
  - by exists (Err e), c', d'.
Qed.

Lemma counter_free_map_err {A} g (m : stm A) : counter_free m → counter_free (map_err g m).
Proof.
  intros Hm c d H. destruct (Hm c d H) as (r & c' & d' & Ec & Ed & H').
  unfold map_err. rewrite Ec, Ed. destruct r; by eexists _, _, _.
Qed.

(** A statement that reads and writes the event and write tables only. *)
Lemma counter_free_Execute {A} (f : Tables → result (A * Tables)) :
  (∀ es ws n m, match f (mkTables es ws n) with
     | Ok (a, t) => f (mkTables es ws m) = Ok (a, mkTables (t_events t) (t_writes t) m)
     | Err e => f (mkTables es ws m) = Err e
     end) → counter_free (Execute f).
Proof.
  intros Hf [[es ws n] fc oc] [[es' ws' m] fd od] (He & Hw & Hc & Hd).
  unfold fault_free in *. simpl in *. subst. unfold Execute. simpl.
  specialize (Hf es' ws' n m). destruct (f (mkTables es' ws' n)) as [[a t]|e]; rewrite Hf;
    by eexists _, _, _.
Qed.

Lemma counter_free_Save {A} (body : stm A) :
  steady body → counter_free body → counter_free (sqlitex_Save body).
Proof.
  intros Hst Hb c d H. destruct (Hb (opened c) (opened d)) as (r & c' & d' & Ec & Ed & H'); [done|].
  destruct H as (He0 & Hw0 & Hc0 & Hd0). destruct H' as (He & Hw & _ & _).
  destruct (steady_fault_free _ _ _ _ Hst Ec Hc0) as [Hc Hoc].
  destruct (steady_fault_free _ _ _ _ Hst Ed Hd0) as [Hd Hod].
  destruct (Save_clean _ _ _ _ Hc0 (or_introl eq_refl) Ec Hc Hoc) as (c2 & Ec2 & Hc2 & _ & Htc).
  destruct (Save_clean _ _ _ _ Hd0 (or_introl eq_refl) Ed Hd Hod) as (d2 & Ed2 & Hd2 & _ & Htd).
  exists r, c2, d2. split_and!; [done..|]. unfold same_log. rewrite Htc, Htd.
  by destruct r.
Qed.

Lemma insert_event_counter es ws n m data :
  match insert_event (mkTables es ws n) data with
  | Ok t => insert_event (mkTables es ws m) data = Ok (mkTables (t_events t) (t_writes t) m)
  | Err e => insert_event (mkTables es ws m) data = Err e
  end.
Proof. unfold insert_event. simpl. repeat (case_match; simplify_eq; try done). Qed.

Lemma insert_rows_counter rows es ws n m :
  match insert_rows rows (mkTables es ws n) with
  | Ok (u, t) => insert_rows rows (mkTables es ws m)
                 = Ok (u, mkTables (t_events t) (t_writes t) m)
  | Err e => insert_rows rows (mkTables es ws m) = Err e
  end.
Proof.
  revert es ws. induction rows as [|x rows IH]; intros es ws; simpl; [done|].
  pose proof (insert_event_counter es ws n m x) as Hx.
  destruct (insert_event (mkTables es ws n) x) as [[es' ws' n']|e] eqn:E; simpl in *.
  - rewrite Hx. simpl. assert (n' = n) as ->; [|apply IH].
    unfold insert_event in E. simpl in E. repeat (case_match; simplify_eq; try done).
  - by rewrite Hx.
Qed.

Lemma insert_chunks_counter fuel ds gid fields :
  counter_free (insert_chunks fuel ds gid fields).
Proof.
  revert ds gid fields.
  induction fuel as [|fuel IH]; intros [|d ds] gid fields; cbn [insert_chunks];
    [apply counter_free_ret|apply counter_free_fail|apply counter_free_ret|].
  destruct (chunk_documents _ gid fields) as [f' [args|e]]; [|apply counter_free_fail].
  apply counter_free_bind; [|intros _; apply IH].
  apply counter_free_Execute. intros. apply insert_rows_counter.
Qed.

Lemma latest_of_queries_counter queries tx gid :
  counter_free (latest_of_queries queries tx gid).
Proof.
  revert tx gid. induction queries as [|q qs IH]; intros tx gid; simpl;
    [apply counter_free_ret|].
  apply counter_free_bind.
  - by apply counter_free_map_err, counter_free_Execute.
  - intros [[tx' gid']|]; [case_match|]; apply IH.
Qed.

Lemma check_consistency_counter checks : counter_free (check_consistency checks).
Proof.
  induction checks as [|check checks IH]; simpl; [apply counter_free_ret|].
  destruct (pc_err check); [apply counter_free_fail|].
  apply counter_free_bind; [apply latest_of_queries_counter|].
  intros [tx gid]. case_match; [apply counter_free_fail|done].
Qed.

Lemma saveSavepointed_counter req n : counter_free (saveSavepointed req n).
Proof.
  unfold saveSavepointed. apply counter_free_bind; [apply check_consistency_counter|].
  intros _. apply counter_free_Save; [apply saveEventsOnConn_steady|]. unfold saveEventsOnConn.
  case_match; [apply counter_free_fail|]. apply counter_free_bind.
  - apply counter_free_Execute. intros. unfold insert_write. simpl.
    repeat (case_match; simplify_eq; try done).
  - intros _. apply counter_free_bind; [|intros _; apply counter_free_ret].
    apply counter_free_map_err, insert_chunks_counter.
Qed.

Lemma run_requests_counter live n acc : counter_free (run_requests live n acc).
Proof.
  revert n acc. induction live as [|req live IH]; intros n acc; cbn [run_requests];
    [apply counter_free_ret|].
  destruct (ps_ctx req).
  - apply counter_free_bind; [apply IH|]. intros [[os m] a]. apply counter_free_ret.
  - intros c d H.
    destruct (saveSavepointed_counter req n c d H) as (r & c' & d' & -> & -> & H').
    destruct r as [[txID gid]|e];
      (apply counter_free_bind; [apply IH| |done]; intros [[os m] a]; apply counter_free_ret).
Qed.

(** Running the requests of [a ++ b] is running those of [a], then those of [b]. *)
Lemma run_requests_app a b n acc c :
  run_requests (a ++ b) n acc c =
  ('(os, n, acc) ← run_requests a n acc;
   '(os', n, acc) ← run_requests b n acc;
   mret (os ++ os', n, acc)) c.
Proof.
  revert n acc c. induction a as [|req a IH]; intros n acc c.
  - change (run_requests b n acc c
      = ('(os, n, acc) ← run_requests b n acc; mret (os, n, acc)) c).
    rewrite stm_bind_eq. by destruct (run_requests b n acc c) as [[[[os m] k]|] c'].
  - simpl. rewrite !stm_bind_eq. destruct (ps_ctx req).
    + rewrite !stm_bind_eq, IH, stm_bind_eq.
      destruct (run_requests a n acc c) as [[[[os m] k]|] c']; [|done].
      unfold mret, stm_ret. rewrite !stm_bind_eq.
      destruct (run_requests b m k c') as [[[[os' m'] k']|] c'']; done.
    + destruct (saveSavepointed req n c) as [[[txID gid]|e] c1];
        rewrite !stm_bind_eq, IH, stm_bind_eq;
        match goal with |- context [run_requests a ?x ?y c1] =>
          destruct (run_requests a x y c1) as [[[[os m] k]|] c'] end; try done;
        unfold mret, stm_ret; rewrite !stm_bind_eq;
        destruct (run_requests b m k c') as [[[[os' m'] k']|] c'']; done.
Qed.

Lemma run_requests_acc live n acc k c :
  run_requests live n (acc + k) c =
  ('(os, n, a) ← run_requests live n acc; mret (os, n, (a + k)%Z)) c.
Proof.
  revert n acc c. induction live as [|req live IH]; intros n acc c.
  - by rewrite stm_bind_eq.
  - rewrite stm_bind_eq. cbn [run_requests]. destruct (ps_ctx req).
    + rewrite !stm_bind_eq, IH, stm_bind_eq.
      by destruct (run_requests live n acc c) as [[[[os m] a]|] c'].
    + destruct (saveSavepointed req n c) as [[[txID gid]|e] c1]; rewrite !stm_bind_eq.
      * replace (acc + k + 1)%Z with (acc + 1 + k)%Z by lia. rewrite IH, stm_bind_eq.
        by destruct (run_requests live _ (acc + 1) c1) as [[[[os m] a]|] c'].
      * rewrite IH, stm_bind_eq.
        by destruct (run_requests live n acc c1) as [[[[os m] a]|] c'].
Qed.

(** Group commit is invisible to its callers. On a working connection, one
flush of the requests [a ++ b] gives each request the outcome it would have had
if [a] and then [b] had been committed separately, and leaves the same tables. *)
Theorem batch_is_sequential a b c :
  log_inv (c_tables c) → Forall good_request (a ++ b) → clean c →
  ∃ oa ca ob cb cab,
    executeTransaction a c = (Ok oa, ca) ∧ executeTransaction b ca = (Ok ob, cb)
    ∧ executeTransaction (a ++ b) c = (Ok (oa ++ ob), cab)
    ∧ c_tables cab = c_tables cb.
Proof.
  intros Hl Hg Hc. pose proof Hg as [Hga Hgb]%Forall_app.
  destruct (run_requests_exact a (t_next_id (c_tables c)) 0 (started (c_tables c)))
    as (oa & na & ka & c1 & Ea & Hc1 & Ho1 & Hfa); [done..|].
  destruct (executeTransaction_run a c _ _ _ _ Hl Hga Hc Ea Hc1 Ho1) as (ca & Eca & Hca & Hta).
  destruct (flushed_log_at _ _ _ _ _ _ _ Hfa Hl) as (Hla & _ & _).
  assert (log_inv (c_tables ca)) as Hlca by (rewrite Hta; by apply log_at_next).
  assert (t_next_id (c_tables ca) = na) as Hna by (by rewrite Hta).
  destruct (run_requests_counter b na 0 c1 (started (c_tables ca)))
    as (rb & c2 & d2 & Eb & Eb' & Hse & Hsw & Hc2 & _).
  { unfold same_log. simpl. by rewrite Hta. }
  destruct (run_requests_exact b (t_next_id (c_tables ca)) 0 (started (c_tables ca)) Hlca Hgb)
    as (ob & nb & kb & d2' & E & Hd2 & Hod & _); [done|].
  rewrite Hna, Eb' in E. injection E as -> ->. rewrite <-Hna in Eb'.
  destruct (executeTransaction_run b ca _ _ _ _ Hlca Hgb Hca Eb' Hd2 Hod) as (cb & Ecb & _ & Htb).
  assert (run_requests (a ++ b) (t_next_id (c_tables c)) 0 (started (c_tables c))
    = (Ok (oa ++ ob, nb, (kb + ka)%Z), c2)) as Eab.
  { rewrite run_requests_app, stm_bind_eq, Ea, stm_bind_eq.
    replace ka with (0 + ka)%Z at 1 by lia. by rewrite run_requests_acc, stm_bind_eq, Eb. }
  assert (c_open c2 = Some (c_tables c)) as Ho2.
  { destruct (run_requests_exact (a ++ b) (t_next_id (c_tables c)) 0 (started (c_tables c)) Hl Hg)
      as (? & ? & ? & ? & E & _ & Ho & _); [done|]. rewrite Eab in E. by injection E as _ _ _ <-. }
  destruct (executeTransaction_run (a ++ b) c _ _ _ _ Hl Hg Hc Eab Hc2 Ho2)
    as (cab & Ecab & _ & Htab).
  exists oa, ca, ob, cb, cab. split_and!; [done..|].
  rewrite Htab, Htb. unfold commit_tables. by rewrite Hse, Hsw.
Qed.

(** ** The checks that the store prepares *)

(** The consistency check of the store is the contract of the API. For a check
on valid criteria, the prepared lookups succeed exactly when the expected
position is that of the last event on which all the tags of some criterion hold,
or "not exists" when there is none. *)
Theorem prepared_check_context check t :
  Forall (λ c, Forall valid_tag (Tags c)) (Criteria check) →
  ∃ pc, prepareConsistencyChecks [check] = [pc]
    ∧ (check_ok t pc ↔
       is_context t (context_matches (Criteria check)) (CheckPosition check)).
Proof using J T.
  intros Hv. destruct (latestCriteriaQueries_ok _ Hv) as (qs & Hqs & _ & Hh).
  eexists. unfold prepareConsistencyChecks. simpl. rewrite Hqs. split; [done|].
  unfold check_ok. simpl. rewrite (is_context_ext _ _ _ _ Hh). naive_solver.
Qed.

End Flush.

(** ** Witnesses *)

#[local] Existing Instances example_json example_sql_text example_sqlitex.


Definition example_order : ReadCriterion := mkReadCriterion [mkReadTag "order" "o-1" ""].
Definition example_check : ConsistencyCheck :=
  mkConsistencyCheck [example_order] NotExistsPosition.

Definition example_event (id : string) : PreparedEvent :=
  mkPreparedEvent id "OrderPlaced"
    (get_ok "" (marshal_object {[ "order" := JString "o-1" ]})) "".

Definition example_request (id : string) : preparedSQLiteSave :=
  get_ok (mkSave None "" [] "" [])
    (prepareSQLiteSave None "2026-01-01T00:00:00Z"
       [example_event id] [example_check]).

Definition example_conn : Conn := mkConn empty_tables [].

Definition example_flush : result (list sqliteSaveResult) * Conn :=
  executeTransaction
    [example_request "e-1"; example_request "e-2"] example_conn.

Definition example_after : Conn := Eval vm_compute in example_flush.2.

(** The first of two requests that observed the same empty context is accepted,
the second is refused. *)
Lemma example_flush_outcomes :
  example_flush = (Ok [mkSaveResult "1" 1 None; failed_save version_conflict], example_after).
Proof. vm_compute. reflexivity. Qed.

Definition example_object : gmap string json := {[ "order" := JString "o-1" ]}.

Lemma example_good_document (d : preparedEventDocument) :
  doc_object d = Some example_object → good_document d.
Proof.
  intros Hd _. exists example_object. split; [exact Hd|]. split; [|split; exact I].
  apply json_faithful_map. unfold example_object. intros k v.
  rewrite lookup_singleton_Some. intros [<- <-]. split; exact I.
Qed.

Lemma example_live_good :
  Forall (good_request) [example_request "e-1"; example_request "e-2"].
Proof.
  repeat apply Forall_cons_2; try apply Forall_nil_2; (split; [|exact I]).
  all: apply Forall_cons_2; [|apply Forall_nil_2].
  all: apply example_good_document; vm_compute; reflexivity.
Qed.

Lemma example_kept : unlosable [example_request "e-1"; example_request "e-2"] example_conn.
Proof. left. constructor. Qed.

Definition disk_error : goerror := PlainError "disk I/O error".

(** The first request meets a statement that fails; the second is accepted. *)
Definition example_faulty : Conn := mkConn empty_tables [None; None; Some (Fails disk_error)].

(** A request alone whose insert makes SQLite roll back the transaction. *)
Definition example_rolled_back : Conn :=
  mkConn empty_tables [None; None; None; Some (RollsBack disk_error)].

Lemma flush_sound_witness :
  log_inv (c_tables example_after)
  ∧ (let '(r, c') := executeTransaction [example_request "e-1"; example_request "e-2"]
                       example_faulty in
     r = Ok [failed_save disk_error; mkSaveResult "1" 1 None] ∧ log_inv (c_tables c'))
  ∧ (let '(r, c') := executeTransaction [example_request "e-1"] example_rolled_back in
     r = Ok [failed_save (Errorf Internal "insert events: %v")] ∧ log_inv (c_tables c')).
Proof.
  split; [|split].
  - exact (proj1 (@flush_sound example_json example_json_laws example_sql_text example_sqlitex
             example_sqlitex_laws _ example_conn _ _ log_inv_empty example_live_good
             example_kept example_flush_outcomes)).
  - pose proof (@flush_sound example_json example_json_laws example_sql_text example_sqlitex
      example_sqlitex_laws [example_request "e-1"; example_request "e-2"] example_faulty) as H.
    assert ((executeTransaction [example_request "e-1"; example_request "e-2"] example_faulty).1
      = Ok [failed_save disk_error; mkSaveResult "1" 1 None]) as Hr by (vm_compute; reflexivity).
    destruct (executeTransaction _ _) as [r c']. split; [exact Hr|].
    apply (H r c' log_inv_empty example_live_good); [|reflexivity].
    left. repeat constructor.
  - pose proof (@flush_sound example_json example_json_laws example_sql_text example_sqlitex
      example_sqlitex_laws [example_request "e-1"] example_rolled_back) as H.
    assert ((executeTransaction [example_request "e-1"] example_rolled_back).1
      = Ok [failed_save (Errorf Internal "insert events: %v")]) as Hr by (vm_compute; reflexivity).
    destruct (executeTransaction _ _) as [r c']. split; [exact Hr|].
    apply (H r c' log_inv_empty); [|right; apply le_n|reflexivity].
    exact (Forall_take _ 1 _ example_live_good).
Defined.

(** A request that observes nothing. *)
Definition blind_request (id : string) : preparedSQLiteSave :=
  get_ok (mkSave None "" [] "" [])
    (prepareSQLiteSave None "2026-01-01T00:00:00Z" [example_event id] []).

(** What [unlosable] rules out: the insert of the second request makes SQLite roll back the
transaction, the deferred commit finds nothing to do, and the first request is reported as
accepted at position 1 although its event is not in the log. *)
Example accepted_request_rolled_back :
  let '(r, c') := executeTransaction [blind_request "e-1"; blind_request "e-2"]
    (mkConn empty_tables [None; None; None; None; Some (RollsBack disk_error)]) in
  r = Ok [mkSaveResult "1" 1 None; failed_save (Errorf Internal "insert events: %v")]
  ∧ t_events (c_tables c') = [] ∧ t_next_id (c_tables c') = 2%Z.
Proof. vm_compute. done. Qed.

Lemma flush_exact_witness :
  ∃ outcomes c' t n,
    executeTransaction
      [example_request "e-1"; example_request "e-2"] example_conn = (Ok outcomes, c')
    ∧ flushed refused empty_tables 1 [example_request "e-1"; example_request "e-2"] outcomes t n
    ∧ c_tables c' = commit_tables t n.
Proof.
  exact (@flush_exact example_json example_json_laws example_sql_text example_sqlitex
           example_sqlitex_laws [example_request "e-1"; example_request "e-2"] example_conn
           log_inv_empty example_live_good (conj eq_refl eq_refl)).
Defined.

Lemma accepted_is_serializable_witness :
  ∃ check, check ∈ ps_preparedChecks (example_request "e-1")
    ∧ is_context (log_prefix (c_tables example_after) 0)
        (λ doc, existsb (@query_holds example_sql_text doc) (pc_queries check)) (pc_position check).
Proof.
  eexists. assert (∀ A (x : A) l, x ∈ x :: l) as Hin by (intros; left).
  split; [apply Hin|].
  exact (@accepted_is_serializable example_json example_json_laws example_sql_text
           example_sqlitex example_sqlitex_laws _ example_conn _ _ 0 (example_request "e-1")
           (mkSaveResult "1" 1 None) _ log_inv_empty example_live_good example_kept example_flush_outcomes
           eq_refl eq_refl eq_refl (Hin _ _ _)).
Defined.

Lemma batch_is_sequential_witness :
  ∃ oa ca ob cb cab,
    executeTransaction
      [example_request "e-1"] example_conn = (Ok oa, ca)
    ∧ executeTransaction
        [example_request "e-2"] ca = (Ok ob, cb)
    ∧ executeTransaction
        ([example_request "e-1"] ++ [example_request "e-2"]) example_conn = (Ok (oa ++ ob), cab)
    ∧ c_tables cab = c_tables cb.
Proof.
  exact (@batch_is_sequential example_json example_json_laws example_sql_text example_sqlitex
           example_sqlitex_laws [example_request "e-1"] [example_request "e-2"] example_conn
           log_inv_empty example_live_good (conj eq_refl eq_refl)).
Defined.

Lemma prepared_check_context_witness :
  ∃ pc, prepareConsistencyChecks [example_check] = [pc]
    ∧ (check_ok empty_tables pc ↔
       is_context empty_tables (context_matches [example_order]) NotExistsPosition).
Proof.
  apply (prepared_check_context example_check).
  repeat constructor.
Defined.
