(* ===== verification/GroupCommit.v ===== *)
(** * The group-commit coordinator: [internal/groupcommit/coordinator.go]

The goroutines of the coordinator are a transition system. A state holds the
[Submit] calls (each with its program counter), one queue per boundary with the
worker goroutine that serves it, and the goroutine that runs [Close]. A label
names the goroutine that moves and, where the code has a [select] or calls the
executor, what happened; a goroutine moves from one access to shared state to
the next. The clients may start calls and cancel contexts at any time.

[q_sent] and [q_flushes] are history: the requests sent to a queue, and the
executions of its worker. *)

From stdpp Require Import options.
From S2P Require Import Prelude Status.

Definition ErrClosed : goerror := Sentinel "group commit coordinator is shut down".

Record Config := mkConfig {
  MaxBatchRequests : Z; MaxBatchEvents : Z; MaxPending : Z;
  MaxDelay : Z; FlushTimeout : Z }.

(** [New] panics ([None]) on bounds that are not normalized. *)
Definition New_ok (cfg : Config) : bool :=
  negb ((MaxBatchRequests cfg <=? 0)%Z || (MaxBatchEvents cfg <=? 0)%Z
        || (MaxPending cfg <=? 0)%Z || (FlushTimeout cfg <=? 0)%Z || (MaxDelay cfg <? 0)%Z).

Section Coordinator.
Context {P R : Type}.

(** The fields of a request that do not change. *)
Record request := mkRequest { rq_id : nat; rq_prepared : P; rq_events : Z }.

(** A completion with an error carries no value. *)
Notation completion := (result R).

(** What the executor does: it may panic, fail, or return outcomes. *)
Inductive executed :=
  | ExecPanic
  | ExecErr (e : goerror)
  | ExecOk (outcomes : list R).

(** Where a [Submit] call is. *)
Inductive submit_pc :=
  | SEnter                      (* before the checks without the lock *)
  | SLock                       (* at [enqueueMu.Lock()] *)
  | SLocked                     (* holds the lock, before its check *)
  | SAdmit                      (* holds the lock, about to register *)
  | SSend                       (* registered, at the first [select] *)
  | SSent                       (* sent, before [senders.Done()] *)
  | SAbort (e : goerror)        (* not sent, before [senders.Done()] *)
  | SWait                       (* at the second [select] *)
  | SReturn (r : completion).

Record call := mkCall {
  c_boundary : string; c_request : request;
  c_ctx : option goerror;             (* [ctx.Err()] *)
  c_pc : submit_pc;
  c_delivered : bool;
  c_result : option completion }.     (* the channel of capacity 1 *)

(** Where a worker is. *)
Inductive worker_pc :=
  | WIdle
  | WTake (req : request)
  | WDrain (batch : list request) (events : Z)
  | WBatch (batch : list request) (carry : option request)
  | WFilter (batch todo live : list request) (carry : option request)
  | WExecute (batch live : list request) (carry : option request)
  | WDeliver (todo : list (request * completion)) (carry : option request) (stop : bool)
  | WNext (carry : option request)
  | WFail
  | WDone.

Record queue := mkQueue {
  q_buf : list request; q_closed : bool; q_worker : worker_pc;
  q_sent : list request; q_flushes : list (list request * executed) }.

(** Where [Close] is. *)
Inductive close_pc :=
  | CIdle
  | CLock
  | CLocked
  | CWait (queues : list string)
  | CClose (queues : list string)
  | CJoin
  | CDone.

Inductive holder := Sender (id : nat) | Closer.

(** [senders] is the set of the calls between [Add] and [Done]. *)
Record state := mkState {
  st_closed : bool; st_lock : option holder; st_senders : gset nat;
  st_queues : gmap string queue; st_calls : gmap nat call; st_closer : close_pc }.

Definition initial : state := mkState false None ∅ ∅ ∅ CIdle.

(** The case of a [select], or [Go] where there is no choice. *)
Inductive choice :=
  | Go
  | OnQueue
  | OnClosed
  | OnDone
  | OnDelay
  | OnDefault
  | OnResult
  | Executed (r : executed).

Inductive label :=
  | LCall (id : nat) (boundary : string) (prepared : P) (events : Z)
  | LCancel (id : nat) (e : goerror)
  | LSubmit (id : nat) (ch : choice)
  | LWorker (boundary : string) (ch : choice)
  | LClose.

Inductive outcome := Blocked | Panics | Next (s : state).

(** ** Updates *)

Definition set_pc (c : call) (pc : submit_pc) : call :=
  mkCall (c_boundary c) (c_request c) (c_ctx c) pc (c_delivered c) (c_result c).

Definition set_call (s : state) (id : nat) (c : call) : state :=
  mkState (st_closed s) (st_lock s) (st_senders s) (st_queues s) (<[id := c]> (st_calls s))
    (st_closer s).

Definition set_lock (s : state) (l : option holder) : state :=
  mkState (st_closed s) l (st_senders s) (st_queues s) (st_calls s) (st_closer s).

Definition set_senders (s : state) (ids : gset nat) : state :=
  mkState (st_closed s) (st_lock s) ids (st_queues s) (st_calls s) (st_closer s).

Definition set_queue (s : state) (b : string) (q : queue) : state :=
  mkState (st_closed s) (st_lock s) (st_senders s) (<[b := q]> (st_queues s)) (st_calls s)
    (st_closer s).

Definition set_closer (s : state) (c : close_pc) : state :=
  mkState (st_closed s) (st_lock s) (st_senders s) (st_queues s) (st_calls s) c.

Definition set_worker (q : queue) (w : worker_pc) : queue :=
  mkQueue (q_buf q) (q_closed q) w (q_sent q) (q_flushes q).

Definition set_buf (q : queue) (buf : list request) : queue :=
  mkQueue buf (q_closed q) (q_worker q) (q_sent q) (q_flushes q).

(** [deliver]: a second delivery does nothing; sending to a full channel would
block. *)
Definition deliver (s : state) (id : nat) (r : completion) : option state :=
  match st_calls s !! id with
  | None => None
  | Some c =>
      if c_delivered c then Some s
      else match c_result c with
           | Some _ => None
           | None => Some (set_call s id
               (mkCall (c_boundary c) (c_request c) (c_ctx c) (c_pc c) true (Some r)))
           end
  end.

Context (cfg : Config).

(** ** [Submit] *)

(** The registry lookup of [Submit]: a queue is created with its worker. *)
Definition register (s : state) (b : string) : state :=
  match st_queues s !! b with
  | Some _ => s
  | None => set_queue s b (mkQueue [] false WIdle [] [])
  end.

Definition Submit (s : state) (id : nat) (c : call) (ch : choice) : outcome :=
  let goto pc := set_call s id (set_pc c pc) in
  match c_pc c, ch with
  | SEnter, Go =>
      Next (goto (if st_closed s then SReturn (Err ErrClosed)
                  else match c_ctx c with
                       | Some e => SReturn (Err e)
                       | None =>
                           if (rq_events (c_request c) <=? 0)%Z
                           then SReturn (Err (PlainError
                                  "groupcommit: request must contain events"))
                           else SLock
                       end))
  | SLock, Go =>
      match st_lock s with
      | Some _ => Blocked
      | None => Next (set_lock (goto SLocked) (Some (Sender id)))
      end
  | SLocked, Go =>
      if st_closed s then Next (set_lock (goto (SReturn (Err ErrClosed))) None)
      else Next (goto SAdmit)
  | SAdmit, Go =>
      let s' := register (goto SSend) (c_boundary c) in
      Next (set_lock (set_senders s' ({[ id ]} ∪ st_senders s')) None)
  | SSend, OnQueue =>
      match st_queues s !! c_boundary c with
      | None => Blocked
      | Some q =>
          if q_closed q then Panics
          else if (Z.of_nat (length (q_buf q)) <? MaxPending cfg)%Z
          then Next (set_queue (goto SSent) (c_boundary c)
                 (mkQueue (q_buf q ++ [c_request c]) (q_closed q) (q_worker q)
                    (q_sent q ++ [c_request c]) (q_flushes q)))
          else Blocked
      end
  | SSend, OnDone =>
      match c_ctx c with Some e => Next (goto (SAbort e)) | None => Blocked end
  | SSend, OnClosed =>
      if st_closed s then Next (goto (SAbort ErrClosed)) else Blocked
  | SSent, Go => Next (set_senders (goto SWait) (st_senders s ∖ {[ id ]}))
  | SAbort e, Go => Next (set_senders (goto (SReturn (Err e))) (st_senders s ∖ {[ id ]}))
  | SWait, OnResult =>
      match c_result c with
      | None => Blocked
      | Some r => Next (set_call s id
          (mkCall (c_boundary c) (c_request c) (c_ctx c) (SReturn r) (c_delivered c) None))
      end
  | SWait, OnDone =>
      match c_ctx c with Some e => Next (goto (SReturn (Err e))) | None => Blocked end
  | _, _ => Blocked
  end.

(** ** The worker *)

Definition fail (batch : list request) (e : goerror) : list (request * completion) :=
  (λ r, (r, Err e)) <$> batch.

(** Receiving from the queue: [None] blocks, [Some None] is a closed queue. *)
Definition receive (q : queue) : option (option (request * queue)) :=
  match q_buf q with
  | r :: buf => Some (Some (r, set_buf q buf))
  | [] => if q_closed q then Some None else None
  end.

(** One iteration of the loop of [drainBatch]. *)
Definition drainBatch (s : state) (q : queue) (batch : list request) (events : Z) (ch : choice)
  : option queue :=
  let stop := Some (set_worker q (WBatch batch None)) in
  let received :=
    match receive q with
    | None => None
    | Some None => stop
    | Some (Some (req, q')) =>
        Some (set_worker q'
          (if (MaxBatchEvents cfg <? events + rq_events req)%Z then WBatch batch (Some req)
           else WDrain (batch ++ [req]) (events + rq_events req)))
    end in
  if (Z.of_nat (length batch) <? MaxBatchRequests cfg)%Z && (events <? MaxBatchEvents cfg)%Z
  then if (0 <? MaxDelay cfg)%Z
       then match ch with
            | OnQueue => received
            | OnDelay => stop
            | OnClosed => if st_closed s then stop else None
            | _ => None
            end
       else match ch with
            | OnQueue => received
            | OnDefault => match receive q with None => stop | Some _ => None end
            | _ => None
            end
  else match ch with Go => stop | _ => None end.

(** The end of [runFlush]: what is delivered for what the executor did. *)
Definition completions (batch live : list request) (r : executed)
  : list (request * completion) :=
  match r with
  | ExecPanic => fail batch (PlainError "group commit flush panic: %v")
  | ExecErr e => fail live (Wrapped "group commit flush: %w" e)
  | ExecOk outcomes =>
      if bool_decide (length outcomes ≠ length live)
      then fail live (PlainError "group commit returned %d outcomes for %d requests")
      else zip live (Ok <$> outcomes)
  end.

(** One step of the loop of [runFlush] over the batch, and its execution. *)
Definition runFlush (s : state) (b : string) (q : queue) (ch : choice) : outcome :=
  match q_worker q, ch with
  | WFilter batch (req :: todo) live carry, Go =>
      match st_calls s !! rq_id req with
      | None => Blocked
      | Some c =>
          match c_ctx c with
          | Some e =>
              match deliver s (rq_id req) (Err e) with
              | None => Blocked
              | Some s' => Next (set_queue s' b (set_worker q (WFilter batch todo live carry)))
              end
          | None =>
              Next (set_queue s b (set_worker q (WFilter batch todo (live ++ [req]) carry)))
          end
      end
  | WFilter batch [] live carry, Go =>
      Next (set_queue s b (set_worker q
        (match live with [] => WNext carry | _ => WExecute batch live carry end)))
  | WExecute batch live carry, Executed r =>
      Next (set_queue s b
        (mkQueue (q_buf q) (q_closed q) (WDeliver (completions batch live r) carry false)
           (q_sent q) (q_flushes q ++ [(live, r)])))
  | _, _ => Blocked
  end.

Definition carry_list (carry : option request) : list request :=
  match carry with Some r => [r] | None => [] end.

(** [runWorker], with [failFast] as [WFail]. *)
Definition runWorker (s : state) (b : string) (q : queue) (ch : choice) : outcome :=
  let goto w := Next (set_queue s b (set_worker q w)) in
  match q_worker q, ch with
  | WIdle, OnClosed => if st_closed s then goto WFail else Blocked
  | WIdle, OnQueue =>
      match receive q with
      | None => Blocked
      | Some None => goto WDone
      | Some (Some (req, q')) => Next (set_queue s b (set_worker q' (WTake req)))
      end
  | WTake req, Go =>
      if st_closed s then goto (WDeliver (fail [req] ErrClosed) None true)
      else goto (WDrain [req] (rq_events req))
  | WDrain batch events, _ =>
      match drainBatch s q batch events ch with
      | None => Blocked
      | Some q' => Next (set_queue s b q')
      end
  | WBatch batch carry, Go =>
      if st_closed s then goto (WDeliver (fail (batch ++ carry_list carry) ErrClosed) None true)
      else goto (WFilter batch batch [] carry)
  | WFilter _ _ _ _, _ | WExecute _ _ _, _ => runFlush s b q ch
  | WDeliver ((req, r) :: todo) carry stop, Go =>
      match deliver s (rq_id req) r with
      | None => Blocked
      | Some s' => Next (set_queue s' b (set_worker q (WDeliver todo carry stop)))
      end
  | WDeliver [] carry stop, Go => goto (if stop then WFail else WNext carry)
  | WNext carry, Go =>
      if st_closed s then goto (WDeliver (fail (carry_list carry) ErrClosed) None true)
      else goto (match carry with Some req => WTake req | None => WIdle end)
  | WFail, OnQueue =>
      match receive q with
      | None => Blocked
      | Some None => goto WDone
      | Some (Some (req, q')) =>
          Next (set_queue s b (set_worker q' (WDeliver (fail [req] ErrClosed) None true)))
      end
  | _, _ => Blocked
  end.

(** ** [Close] *)

Definition is_done (w : worker_pc) : bool :=
  match w with WDone => true | _ => false end.

Definition Close (s : state) : outcome :=
  match st_closer s with
  | CIdle => Next (mkState true (st_lock s) (st_senders s) (st_queues s) (st_calls s) CLock)
  | CLock =>
      match st_lock s with
      | Some _ => Blocked
      | None => Next (set_lock (set_closer s CLocked) (Some Closer))
      end
  | CLocked =>
      Next (set_lock (set_closer s (CWait (elements (dom (st_queues s))))) None)
  | CWait qs => if bool_decide (st_senders s = ∅) then Next (set_closer s (CClose qs)) else Blocked
  | CClose (b :: qs) =>
      match st_queues s !! b with
      | None => Blocked
      | Some q =>
          if q_closed q then Panics
          else Next (set_closer (set_queue s b
                 (mkQueue (q_buf q) true (q_worker q) (q_sent q) (q_flushes q))) (CClose qs))
      end
  | CClose [] => Next (set_closer s CJoin)
  | CJoin =>
      if forallb (λ bq, is_done (q_worker bq.2)) (map_to_list (st_queues s))
      then Next (set_closer s CDone) else Blocked
  | CDone => Blocked
  end.

(** ** Steps *)

Definition step (s : state) (l : label) : outcome :=
  match l with
  | LCall id b p n =>
      match st_calls s !! id with
      | Some _ => Blocked
      | None => Next (set_call s id (mkCall b (mkRequest id p n) None SEnter false None))
      end
  | LCancel id e =>
      match st_calls s !! id with
      | None => Blocked
      | Some c => Next (set_call s id
          (mkCall (c_boundary c) (c_request c)
             (match c_ctx c with None => Some e | old => old end)
             (c_pc c) (c_delivered c) (c_result c)))
      end
  | LSubmit id ch =>
      match st_calls s !! id with None => Blocked | Some c => Submit s id c ch end
  | LWorker b ch =>
      match st_queues s !! b with None => Blocked | Some q => runWorker s b q ch end
  | LClose => Close s
  end.

Inductive reachable : state → Prop :=
  | reach_initial : reachable initial
  | reach_step s l s' : reachable s → step s l = Next s' → reachable s'.

(** [Pending]: the queued requests of a boundary. *)
Definition Pending (s : state) (b : string) : nat :=
  from_option (λ q, length (q_buf q)) 0 (st_queues s !! b).

(** ** The invariant *)

Definition total_events (batch : list request) : Z := foldr (λ r n, rq_events r + n)%Z 0%Z batch.

(** A batch respects both bounds, unless it is a single request. *)
Definition batch_ok (batch : list request) : Prop :=
  (Z.of_nat (length batch) <= MaxBatchRequests cfg)%Z
  ∧ (length batch = 1 ∨ (total_events batch <= MaxBatchEvents cfg)%Z).

(** The requests that a worker has taken and may still have to complete. *)
Definition held (w : worker_pc) : list request :=
  match w with
  | WIdle | WFail | WDone => []
  | WTake r => [r]
  | WDrain batch _ => batch
  | WBatch batch carry => batch ++ carry_list carry
  | WFilter _ todo live carry => live ++ todo ++ carry_list carry
  | WExecute _ live carry => live ++ carry_list carry
  | WDeliver todo carry _ => todo.*1 ++ carry_list carry
  | WNext carry => carry_list carry
  end.

(** Those that it may still execute. *)
Definition future (w : worker_pc) : list request :=
  match w with WDeliver _ carry _ => carry_list carry | _ => held w end.

Definition batch_of (w : worker_pc) : list request :=
  match w with WFilter batch _ _ _ | WExecute batch _ _ => batch | _ => [] end.

Definition worker_ok (w : worker_pc) : Prop :=
  match w with
  | WDrain batch events => batch ≠ [] ∧ batch_ok batch ∧ events = total_events batch
  | WBatch batch _ => batch_ok batch
  | WFilter batch todo live _ => batch_ok batch ∧ live ++ todo `sublist_of` batch
  | WExecute batch live _ => batch_ok batch ∧ live `sublist_of` batch ∧ live ≠ []
  | WDeliver _ carry stop => stop = true → carry = None
  | _ => True
  end.

(** [v] is what an execution of [q] returned for [r]. *)
Definition from_flush (q : queue) (r : request) (v : R) : Prop :=
  ∃ live outcomes j, (live, ExecOk outcomes) ∈ q_flushes q
    ∧ length outcomes = length live ∧ live !! j = Some r ∧ outcomes !! j = Some v.

Record queue_inv (calls : gmap nat call) (b : string) (q : queue) : Prop := {
  qi_nodup : NoDup (rq_id <$> q_sent q);
  qi_sent : ∀ r, r ∈ q_sent q → ∃ c, calls !! rq_id r = Some c ∧ c_boundary c = b
    ∧ c_request c = r ∧ (0 < rq_events r)%Z;
  qi_order : concat (q_flushes q).*1 ++ future (q_worker q) ++ q_buf q
    `sublist_of` q_sent q;
  qi_owed : ∀ r c, r ∈ q_sent q → calls !! rq_id r = Some c → c_delivered c = false →
    r ∈ held (q_worker q) ++ q_buf q;
  qi_held : ∀ r, r ∈ held (q_worker q) ++ batch_of (q_worker q) → r ∈ q_sent q;
  qi_bound : (Z.of_nat (length (q_buf q)) <= MaxPending cfg)%Z;
  qi_worker : worker_ok (q_worker q);
  qi_flushes : ∀ f, f ∈ q_flushes q → f.1 ≠ [] ∧ batch_ok f.1;
  qi_values : ∀ todo carry stop r v, q_worker q = WDeliver todo carry stop →
    (r, Ok v) ∈ todo → from_flush q r v;
  qi_done : q_worker q = WDone → q_closed q = true ∧ q_buf q = [] }.

Definition in_lock (pc : submit_pc) : bool :=
  match pc with SLocked | SAdmit => true | _ => false end.
Definition sending (pc : submit_pc) : bool :=
  match pc with SSend | SSent | SAbort _ => true | _ => false end.
Definition unsent (pc : submit_pc) : bool :=
  match pc with SEnter | SLock | SLocked | SAdmit | SSend => true | _ => false end.
Definition waiting (pc : submit_pc) : bool :=
  match pc with SSent | SWait => true | _ => false end.
Definition admitted (pc : submit_pc) : bool :=
  match pc with SLock | SLocked | SAdmit | SSend => true | _ => false end.

Record call_inv (s : state) (id : nat) (c : call) : Prop := {
  ci_id : rq_id (c_request c) = id;
  ci_lock : in_lock (c_pc c) = true ↔ st_lock s = Some (Sender id);
  ci_senders : sending (c_pc c) = true ↔ id ∈ st_senders s;
  ci_events : admitted (c_pc c) = true → (0 < rq_events (c_request c))%Z;
  ci_admit : c_pc c = SAdmit → st_closer s = CIdle ∨ st_closer s = CLock;
  ci_queue : c_pc c = SSend → is_Some (st_queues s !! c_boundary c);
  ci_unsent : unsent (c_pc c) = true → ∀ q, st_queues s !! c_boundary c = Some q →
    c_request c ∉ q_sent q;
  ci_sent : waiting (c_pc c) = true →
    ∃ q, st_queues s !! c_boundary c = Some q ∧ c_request c ∈ q_sent q;
  ci_fresh : unsent (c_pc c) = true → c_delivered c = false;
  ci_undelivered : c_delivered c = false → c_result c = None;
  ci_unread : waiting (c_pc c) = true → c_delivered c = true → c_result c ≠ None;
  ci_value : ∀ v, c_result c = Some (Ok v) ∨ c_pc c = SReturn (Ok v) →
    ∃ q, st_queues s !! c_boundary c = Some q ∧ from_flush q (c_request c) v }.

Definition all_queues (s : state) (F : string → queue → Prop) : Prop :=
  ∀ b q, st_queues s !! b = Some q → F b q.

Definition closer_inv (s : state) : Prop :=
  match st_closer s with
  | CIdle | CLock | CLocked => all_queues s (λ _ q, q_closed q = false)
  | CWait qs => all_queues s (λ _ q, q_closed q = false)
      ∧ NoDup qs ∧ (∀ b, b ∈ qs ↔ is_Some (st_queues s !! b))
  | CClose qs => st_senders s = ∅ ∧ NoDup qs ∧ (∀ b, b ∈ qs → is_Some (st_queues s !! b))
      ∧ all_queues s (λ b q, q_closed q = true ↔ b ∉ qs)
  | CJoin => st_senders s = ∅ ∧ all_queues s (λ _ q, q_closed q = true)
  | CDone => st_senders s = ∅
      ∧ all_queues s (λ _ q, q_closed q = true ∧ q_worker q = WDone)
  end.

Record inv (s : state) : Prop := {
  i_closed : st_closed s = true ↔ st_closer s ≠ CIdle;
  i_lock_closer : st_lock s = Some Closer ↔ st_closer s = CLocked;
  i_lock : ∀ id, st_lock s = Some (Sender id) → is_Some (st_calls s !! id);
  i_senders : ∀ id, id ∈ st_senders s → is_Some (st_calls s !! id);
  i_calls : ∀ id c, st_calls s !! id = Some c → call_inv s id c;
  i_queues : ∀ b q, st_queues s !! b = Some q → queue_inv (st_calls s) b q;
  i_closer : closer_inv s }.

(** ** Frames *)

(** Calls only change their progress; new ones may appear. *)
Definition calls_le (calls calls' : gmap nat call) : Prop :=
  ∀ id c, calls !! id = Some c → ∃ c', calls' !! id = Some c'
    ∧ c_boundary c' = c_boundary c ∧ c_request c' = c_request c
    ∧ (c_delivered c = true → c_delivered c' = true).

Lemma queue_inv_mono calls calls' b q :
  calls_le calls calls' → queue_inv calls b q → queue_inv calls' b q.
Proof.
  intros Hle [?? ? Ho ????? ?]. split; try done.
  - intros r Hr. destruct (qi_sent0 r Hr) as (c & Hc & Hb & Hq & ?).
    destruct (Hle _ _ Hc) as (c' & Hc' & Hb' & Hq' & _).
    exists c'. by rewrite Hb', Hq'.
  - intros r c' Hr Hc' Hd. destruct (qi_sent0 r Hr) as (c & Hc & _).
    destruct (Hle _ _ Hc) as (c'' & Hc'' & _ & _ & Hdl). simplify_eq.
    apply (Ho r c); [done..|]. destruct (c_delivered c); [|done].
    rewrite Hdl in Hd by done. done.
Qed.

Lemma calls_le_insert calls id c c' :
  calls !! id = Some c → c_boundary c' = c_boundary c → c_request c' = c_request c →
  (c_delivered c = true → c_delivered c' = true) → calls_le calls (<[id := c']> calls).
Proof.
  intros Hc ??? id0 c0 H0. destruct (decide (id0 = id)) as [->|].
  - rewrite lookup_insert_eq. eexists. split; [done|]. by simplify_eq.
  - rewrite lookup_insert_ne by done. by exists c0.
Qed.

Lemma calls_le_new calls id c : calls !! id = None → calls_le calls (<[id := c]> calls).
Proof.
  intros Hn id0 c0 H0. rewrite lookup_insert_ne by congruence. by exists c0.
Qed.

(** Queues only gain requests and executions; [id] is not among the new ones. *)
Definition queues_ext (id : nat) (qs qs' : gmap string queue) : Prop :=
  (∀ b q, qs !! b = Some q → ∃ q', qs' !! b = Some q'
     ∧ (∀ r, r ∈ q_sent q → r ∈ q_sent q') ∧ (∀ f, f ∈ q_flushes q → f ∈ q_flushes q'))
  ∧ (∀ b q' r, qs' !! b = Some q' → r ∈ q_sent q' → rq_id r = id →
     ∃ q, qs !! b = Some q ∧ r ∈ q_sent q).

Lemma from_flush_mono (q q' : queue) r v :
  (∀ f, f ∈ q_flushes q → f ∈ q_flushes q') → from_flush q r v → from_flush q' r v.
Proof. intros H (live & os & j & Hf & ?). exists live, os, j. auto. Qed.

Lemma call_inv_frame s s' id c :
  call_inv s id c →
  (st_lock s = Some (Sender id) ↔ st_lock s' = Some (Sender id)) →
  (id ∈ st_senders s ↔ id ∈ st_senders s') →
  (c_pc c = SAdmit → st_closer s' = CIdle ∨ st_closer s' = CLock) →
  queues_ext id (st_queues s) (st_queues s') → call_inv s' id c.
Proof.
  intros [?????????? ? Hv] Hl Hs Ha [Hle Hnew]. split; try done.
  - by rewrite ci_lock0.
  - by rewrite ci_senders0.
  - intros Hpc. destruct (ci_queue0 Hpc) as [q Hq].
    destruct (Hle _ _ Hq) as (q' & ? & _). eauto.
  - intros Hpc q' Hq' Hin. destruct (Hnew _ _ _ Hq' Hin ci_id0) as (q & Hq & Hin').
    by destruct (ci_unsent0 Hpc q Hq).
  - intros Hpc. destruct (ci_sent0 Hpc) as (q & Hq & Hin).
    destruct (Hle _ _ Hq) as (q' & ? & ? & _). eauto.
  - intros v H. destruct (Hv v H) as (q & Hq & Hf).
    destruct (Hle _ _ Hq) as (q' & ? & _ & ?). exists q'. split; [done|].
    by eapply from_flush_mono.
Qed.

Lemma queues_ext_refl id qs : queues_ext id qs qs.
Proof. split; naive_solver. Qed.

(** Replacing a queue by one with the same requests sent. *)
Lemma queues_ext_insert id qs b q q' :
  qs !! b = Some q → q_sent q' = q_sent q →
  (∀ f, f ∈ q_flushes q → f ∈ q_flushes q') → queues_ext id qs (<[b := q']> qs).
Proof.
  intros Hq Hs Hf. split.
  - intros b0 q0 H0. destruct (decide (b0 = b)) as [->|].
    + rewrite lookup_insert_eq. exists q'. simplify_eq. by rewrite Hs.
    + rewrite lookup_insert_ne by done. eauto.
  - intros b0 q0 r H0 Hr _. destruct (decide (b0 = b)) as [->|].
    + rewrite lookup_insert_eq in H0. simplify_eq. rewrite Hs in Hr. eauto.
    + rewrite lookup_insert_ne in H0 by done. eauto.
Qed.

Lemma initial_inv : inv initial.
Proof. split; done. Qed.

(** Replacing a queue by one that is closed, and done, at the same time. *)
Lemma closer_inv_queue s s' b q q' :
  closer_inv s → st_closer s' = st_closer s → st_senders s' = st_senders s →
  st_queues s !! b = Some q → st_queues s' = <[b := q']> (st_queues s) →
  q_closed q' = q_closed q → (q_worker q = WDone → q_worker q' = WDone) → closer_inv s'.
Proof.
  intros Hcl Hc Hs Hq Hqs Hqc Hw.
  assert (∀ F, all_queues s F → (F b q → F b q') → all_queues s' F) as Hall.
  { intros F HF HF' b0 q0. rewrite Hqs. destruct (decide (b0 = b)) as [->|].
    - rewrite lookup_insert_eq. intros [= <-]. auto.
    - rewrite lookup_insert_ne by done. auto. }
  assert (∀ b0, is_Some (st_queues s' !! b0) ↔ is_Some (st_queues s !! b0)) as Hsome.
  { intros b0. rewrite Hqs. rewrite lookup_insert_is_Some'. naive_solver. }
  unfold closer_inv in *. rewrite Hc, Hs. destruct (st_closer s).
  1-3: apply Hall; [done|]; by rewrite Hqc.
  - destruct Hcl as (? & ? & Hd). split_and!; [apply Hall; [done|]; by rewrite Hqc|done|].
    intros b0. by rewrite Hsome.
  - destruct Hcl as (? & ? & Hd & ?). split_and!; [done..| |apply Hall; [done|]; by rewrite Hqc].
    intros b0 ?. by apply Hsome, Hd.
  - destruct Hcl. split; [done|]. apply Hall; [done|]. by rewrite Hqc.
  - destruct Hcl. split; [done|]. apply Hall; [done|]. rewrite Hqc. naive_solver.
Qed.

(** A step of call [id]. *)
Lemma inv_update s id c c' l ids qs :
  let s' := mkState (st_closed s) l ids qs (<[id := c']> (st_calls s)) (st_closer s) in
  inv s → st_calls s !! id = Some c → call_inv s' id c' →
  (l = Some Closer ↔ st_lock s = Some Closer) →
  (∀ id', id' ≠ id → (st_lock s = Some (Sender id') ↔ l = Some (Sender id'))) →
  (∀ id', id' ≠ id → (id' ∈ st_senders s ↔ id' ∈ ids)) →
  (∀ id', id' ≠ id → queues_ext id' (st_queues s) qs) →
  (∀ b q, qs !! b = Some q → queue_inv (<[id := c']> (st_calls s)) b q) →
  closer_inv s' → inv s'.
Proof.
  intros s' Hi Hc Hci Hlc Hl Hs Hq Hqi Hcl.
  assert (∀ id', is_Some (st_calls s !! id') → is_Some (st_calls s' !! id')) as Hsome.
  { intros id' ?. unfold s'. simpl. rewrite lookup_insert_is_Some'. auto. }
  split; [apply Hi| | | | |exact Hqi|exact Hcl].
  - simpl. rewrite Hlc. apply Hi.
  - simpl. intros id' Hl'. destruct (decide (id' = id)) as [->|Hne]; [apply Hsome; eauto|].
    apply Hsome, (i_lock _ Hi). by apply Hl.
  - simpl. intros id' Hl'. destruct (decide (id' = id)) as [->|Hne]; [apply Hsome; eauto|].
    apply Hsome, (i_senders _ Hi). by apply Hs.
  - simpl. intros id' c0 H0. destruct (decide (id' = id)) as [->|Hne].
    + rewrite lookup_insert_eq in H0. by simplify_eq.
    + rewrite lookup_insert_ne in H0 by done. pose proof (i_calls _ Hi _ _ H0) as Hci0.
      apply (call_inv_frame s); auto; simpl; apply Hci0.
Qed.

(** The same, where the queues do not change. *)
Lemma inv_progress s id c c' l ids :
  let s' := mkState (st_closed s) l ids (st_queues s) (<[id := c']> (st_calls s))
              (st_closer s) in
  inv s → st_calls s !! id = Some c →
  c_boundary c' = c_boundary c → c_request c' = c_request c →
  (c_delivered c = true → c_delivered c' = true) → call_inv s' id c' →
  (l = Some Closer ↔ st_lock s = Some Closer) →
  (∀ id', id' ≠ id → (st_lock s = Some (Sender id') ↔ l = Some (Sender id'))) →
  (∀ id', id' ≠ id → (id' ∈ st_senders s ↔ id' ∈ ids)) → (st_senders s = ∅ → ids = ∅) →
  inv s'.
Proof.
  intros s' Hi Hc Hb Hr Hd Hci Hlc Hl Hs Hs'.
  eapply inv_update; try done.
  - intros. apply queues_ext_refl.
  - intros b q Hq. eapply queue_inv_mono; [by eapply calls_le_insert|]. by apply Hi.
  - pose proof (i_closer _ Hi) as Hcl. unfold closer_inv, all_queues in *. simpl.
    destruct (st_closer s); naive_solver.
Qed.

(** Moving a call to [pc] without sending and without a value. *)
Lemma call_inv_pc s s' id c pc :
  call_inv s id c → st_queues s' = st_queues s → st_closer s' = st_closer s →
  (in_lock pc = true ↔ st_lock s' = Some (Sender id)) →
  (sending pc = true ↔ id ∈ st_senders s') →
  (admitted pc = true → (0 < rq_events (c_request c))%Z) →
  (pc = SAdmit → st_closer s = CIdle ∨ st_closer s = CLock) → pc ≠ SSend →
  (unsent pc = true → unsent (c_pc c) = true) →
  (waiting pc = true → waiting (c_pc c) = true) →
  (∀ v, pc ≠ SReturn (Ok v)) → call_inv s' id (set_pc c pc).
Proof.
  intros [] Hq Hcl Hl Hs He Ha Hse Hun Hw Hv. split; simpl; rewrite ?Hq, ?Hcl; auto.
  - done.
  - intros v [H|H]; [auto|by destruct (Hv v)].
Qed.

(** How the lock and the registered senders change with the call. *)
Definition lock_moves (s : state) (id : nat) (pc pc' : submit_pc) (l : option holder) : Prop :=
  (l = st_lock s ∧ in_lock pc' = in_lock pc)
  ∨ (st_lock s = None ∧ l = Some (Sender id) ∧ in_lock pc' = true)
  ∨ (in_lock pc = true ∧ l = None ∧ in_lock pc' = false).

Definition senders_move (s : state) (id : nat) (pc pc' : submit_pc) (ids : gset nat) : Prop :=
  (ids = st_senders s ∧ sending pc' = sending pc)
  ∨ (ids = st_senders s ∖ {[ id ]} ∧ sending pc' = false).

Lemma lock_moves_spec s id c pc l :
  call_inv s id c → lock_moves s id (c_pc c) pc l →
  (in_lock pc = true ↔ l = Some (Sender id))
  ∧ (l = Some Closer ↔ st_lock s = Some Closer)
  ∧ (∀ id', id' ≠ id → (st_lock s = Some (Sender id') ↔ l = Some (Sender id'))).
Proof.
  intros Hci. pose proof (ci_lock _ _ _ Hci) as Hlk.
  intros [(-> & ->)|[(El & -> & ->)|(El & -> & ->)]].
  - done.
  - rewrite El. naive_solver.
  - apply Hlk in El. rewrite El. naive_solver.
Qed.

Lemma senders_move_spec s id c pc ids :
  call_inv s id c → senders_move s id (c_pc c) pc ids →
  (sending pc = true ↔ id ∈ ids)
  ∧ (∀ id', id' ≠ id → (id' ∈ st_senders s ↔ id' ∈ ids)) ∧ (st_senders s = ∅ → ids = ∅).
Proof.
  intros Hci. pose proof (ci_senders _ _ _ Hci) as Hsd.
  intros [(-> & ->)|(-> & ->)]; [done|]. split_and!; [set_solver..|].
  intros ->. set_solver.
Qed.

Lemma inv_pc s id c pc l ids :
  inv s → st_calls s !! id = Some c →
  lock_moves s id (c_pc c) pc l → senders_move s id (c_pc c) pc ids →
  (admitted pc = true → (0 < rq_events (c_request c))%Z) →
  (pc = SAdmit → st_closer s = CIdle ∨ st_closer s = CLock) → pc ≠ SSend →
  (unsent pc = true → unsent (c_pc c) = true) →
  (waiting pc = true → waiting (c_pc c) = true) →
  (∀ v, pc ≠ SReturn (Ok v)) →
  inv (mkState (st_closed s) l ids (st_queues s) (<[id := set_pc c pc]> (st_calls s))
         (st_closer s)).
Proof.
  intros Hi Hc Hl Hs. intros. pose proof (i_calls _ Hi _ _ Hc) as Hci.
  destruct (lock_moves_spec _ _ _ _ _ Hci Hl) as (? & ? & ?).
  destruct (senders_move_spec _ _ _ _ _ Hci Hs) as (? & ? & ?).
  eapply inv_progress; try done. by eapply call_inv_pc.
Qed.

Ltac call_goto Hi Hc Hpc :=
  unfold set_lock, set_senders, set_call in *; simpl;
  apply (inv_pc _ _ _ _ _ _ Hi Hc); unfold lock_moves, senders_move; rewrite ?Hpc; simpl; auto;
  try done.

Lemma inv_submit_simple s id c ch s' :
  inv s → st_calls s !! id = Some c → c_pc c ≠ SAdmit → ch ≠ OnQueue → ch ≠ OnResult →
  Submit s id c ch = Next s' → inv s'.
Proof.
  intros Hi Hc Hna Hnq Hnr H. pose proof (i_calls _ Hi _ _ Hc) as Hci.
  pose proof (ci_events _ _ _ Hci) as Hev.
  unfold Submit in H. destruct (c_pc c) eqn:Hpc, ch; try done; simpl in *.
  - injection H as <-. repeat case_match; bool_props; call_goto Hi Hc Hpc.
  - destruct (st_lock s) eqn:El; [done|]. injection H as <-. call_goto Hi Hc Hpc.
  - destruct (st_closed s) eqn:Ecl; injection H as <-; call_goto Hi Hc Hpc.
    intros _. pose proof (i_closed _ Hi) as Hcl. rewrite Ecl in Hcl.
    left. destruct (st_closer s); naive_solver.
  - destruct (st_closed s) eqn:Ecl; [|done]. injection H as <-. call_goto Hi Hc Hpc.
  - destruct (c_ctx c) eqn:E; [|done]. injection H as <-. call_goto Hi Hc Hpc.
  - injection H as <-. call_goto Hi Hc Hpc.
  - injection H as <-. call_goto Hi Hc Hpc.
  - destruct (c_ctx c) eqn:E; [|done]. injection H as <-. call_goto Hi Hc Hpc.
Qed.

(** A queue of a boundary that had none. *)
Lemma queue_inv_new calls b : (0 < MaxPending cfg)%Z → queue_inv calls b (mkQueue [] false WIdle [] []).
Proof. intros. split; simpl; try done; try set_solver; [constructor|lia]. Qed.

Lemma queues_ext_new id qs b q :
  qs !! b = None → q_sent q = [] → queues_ext id qs (<[b := q]> qs).
Proof.
  intros Hn Hs. split.
  - intros b0 q0 H0. rewrite lookup_insert_ne by congruence. eauto.
  - intros b0 q0 r H0 Hr _. destruct (decide (b0 = b)) as [->|].
    + rewrite lookup_insert_eq in H0. simplify_eq. rewrite Hs in Hr. by apply elem_of_nil in Hr.
    + rewrite lookup_insert_ne in H0 by done. eauto.
Qed.

Lemma register_queues s b :
  (0 < MaxPending cfg)%Z → inv s →
  let qs := st_queues (register s b) in
  is_Some (qs !! b) ∧ (∀ id, queues_ext id (st_queues s) qs)
  ∧ (∀ b' q, qs !! b' = Some q → st_queues s !! b' = Some q ∨ q = mkQueue [] false WIdle [] []).
Proof.
  intros Hp Hi. unfold register. destruct (st_queues s !! b) as [q|] eqn:E; simpl.
  - split_and!; [eauto|intros; apply queues_ext_refl|auto].
  - rewrite lookup_insert_eq. split_and!; [eauto|intros; by apply queues_ext_new|].
    intros b' q Hq. destruct (decide (b' = b)) as [->|].
    + rewrite lookup_insert_eq in Hq. simplify_eq. auto.
    + rewrite lookup_insert_ne in Hq by done. auto.
Qed.

Lemma inv_submit_admit s id c s' :
  (0 < MaxPending cfg)%Z → inv s → st_calls s !! id = Some c → c_pc c = SAdmit →
  Submit s id c Go = Next s' → inv s'.
Proof.
  intros Hp Hi Hc Hpc H. pose proof (i_calls _ Hi _ _ Hc) as Hci.
  unfold Submit in H. rewrite Hpc in H. injection H as <-.
  destruct (register_queues s (c_boundary c) Hp Hi) as (Hsome & Hext & Hqs).
  assert (st_queues (register (set_call s id (set_pc c SSend)) (c_boundary c))
    = st_queues (register s (c_boundary c))) as Hreg.
  { unfold register. simpl. by destruct (st_queues s !! c_boundary c). }
  assert (set_lock (set_senders (register (set_call s id (set_pc c SSend)) (c_boundary c))
    ({[ id ]} ∪ st_senders (register (set_call s id (set_pc c SSend)) (c_boundary c)))) None
    = mkState (st_closed s) None ({[ id ]} ∪ st_senders s)
        (st_queues (register s (c_boundary c))) (<[id := set_pc c SSend]> (st_calls s))
        (st_closer s)) as ->.
  { rewrite <-Hreg. unfold register, set_lock, set_senders. simpl.
    by destruct (st_queues s !! c_boundary c). }
  pose proof (ci_admit _ _ _ Hci Hpc) as Hcl.
  assert (st_lock s = Some (Sender id)) as Hlk.
  { apply (ci_lock _ _ _ Hci). by rewrite Hpc. }
  eapply inv_update; try done.
  - destruct Hci. split; simpl; rewrite ?Hpc in *; try done.
    + set_solver.
    + intros _ q Hq. destruct (Hqs _ _ Hq) as [Hq'| ->]; [by apply ci_unsent0|].
      simpl. apply not_elem_of_nil.
    + intros v [Hv|Hv]; [|done]. destruct (ci_value0 v (or_introl Hv)) as (q & Hq & Hf).
      destruct (proj1 (Hext id) _ _ Hq) as (q' & ? & _ & ?). exists q'. split; [done|].
      by eapply from_flush_mono.
  - rewrite Hlk. naive_solver.
  - rewrite Hlk. naive_solver.
  - set_solver.
  - intros b q Hq. destruct (Hqs _ _ Hq) as [Hq'| ->]; [|by apply queue_inv_new].
    eapply queue_inv_mono; [by eapply calls_le_insert|]. by apply Hi.
  - pose proof (i_closer _ Hi) as Hclo. unfold closer_inv, all_queues in *. simpl.
    assert (∀ b q, st_queues (register s (c_boundary c)) !! b = Some q → q_closed q = false).
    { intros b q Hq. destruct (Hqs _ _ Hq) as [Hq'| ->]; [|done].
      destruct Hcl as [Hcl|Hcl]; rewrite Hcl in Hclo; by eapply Hclo. }
    by destruct Hcl as [-> | ->].
Qed.

Lemma queues_ext_send id qs b q q' r :
  qs !! b = Some q → q_sent q' = q_sent q ++ [r] → q_flushes q' = q_flushes q →
  rq_id r ≠ id → queues_ext id qs (<[b := q']> qs).
Proof.
  intros Hq Hs Hf Hne. split.
  - intros b0 q0 H0. destruct (decide (b0 = b)) as [->|].
    + rewrite lookup_insert_eq. exists q'. simplify_eq. rewrite Hs, Hf. split; [done|].
      split; [|done]. intros. rewrite elem_of_app. auto.
    + rewrite lookup_insert_ne by done. eauto.
  - intros b0 q0 r0 H0 Hr Hid. destruct (decide (b0 = b)) as [->|].
    + rewrite lookup_insert_eq in H0. simplify_eq. rewrite Hs in Hr.
      apply elem_of_app in Hr as [Hr|Hr%list_elem_of_singleton]; [eauto|congruence].
    + rewrite lookup_insert_ne in H0 by done. eauto.
Qed.

(** A queue after a send. *)
Lemma queue_inv_send calls b q id c :
  queue_inv calls b q → calls !! id = Some c → c_boundary c = b →
  rq_id (c_request c) = id → (0 < rq_events (c_request c))%Z → c_request c ∉ q_sent q →
  (Z.of_nat (length (q_buf q)) < MaxPending cfg)%Z → q_worker q ≠ WDone →
  queue_inv calls b (mkQueue (q_buf q ++ [c_request c]) (q_closed q) (q_worker q)
                       (q_sent q ++ [c_request c]) (q_flushes q)).
Proof.
  intros [] Hc Hb Hid Hev Hn Hlen Hw. split; simpl; try done.
  - rewrite fmap_app. apply NoDup_app. split_and!; [done| |apply NoDup_singleton].
    intros i (r & -> & Hr)%list_elem_of_fmap Hi%list_elem_of_singleton.
    destruct (qi_sent0 r Hr) as (c' & Hc' & _ & Hr' & _). congruence.
  - intros r [Hr|Hr%list_elem_of_singleton]%elem_of_app; [auto|]. subst r.
    exists c. by rewrite Hid.
  - rewrite !(assoc_L (++)). apply sublist_app; [|done]. by rewrite <-(assoc_L (++)).
  - intros r c' [Hr|Hr%list_elem_of_singleton]%elem_of_app Hc' Hd.
    + rewrite (assoc_L (++)). apply elem_of_app. left. eauto.
    + subst r. rewrite !elem_of_app. right. right. by left.
  - intros r Hr. apply elem_of_app. auto.
  - rewrite length_app. simpl. lia.
Qed.

Lemma inv_submit_send s id c s' :
  inv s → st_calls s !! id = Some c → Submit s id c OnQueue = Next s' → inv s'.
Proof.
  intros Hi Hc H. pose proof (i_calls _ Hi _ _ Hc) as Hci.
  unfold Submit in H. destruct (c_pc c) eqn:Hpc; try done.
  destruct (st_queues s !! c_boundary c) as [q|] eqn:Hq; [|done].
  destruct (q_closed q) eqn:Hcl; [done|]. case_match eqn:Hlen; [|done]. bool_props.
  injection H as <-. unfold set_queue, set_call. simpl.
  pose proof (i_queues _ Hi _ _ Hq) as Hqi.
  eapply inv_update; try done.
  - destruct Hci. split; simpl; rewrite ?Hpc in *; try done.
    + intros _. rewrite lookup_insert_eq. eexists. split; [done|]. simpl.
      rewrite elem_of_app. right. by left.
    + intros _ Hd. by rewrite ci_fresh0 in Hd.
    + intros v [Hv|Hv]; [|done]. destruct (ci_value0 v (or_introl Hv)) as (q' & Hq' & Hf).
      rewrite lookup_insert_eq. simplify_eq. eauto.
  - intros id' Hne. eapply queues_ext_send; [done..|]. rewrite (ci_id _ _ _ Hci). done.
  - intros b q' Hq'. 
    assert (calls_le (st_calls s) (<[id := set_pc c SSent]> (st_calls s))) as Hle
      by (by eapply calls_le_insert).
    destruct (decide (b = c_boundary c)) as [->|].
    + rewrite lookup_insert_eq in Hq'. simplify_eq.
      eapply queue_inv_mono; [done|]. rewrite <-Hcl. eapply queue_inv_send; try done.
      * apply Hci.
      * apply (ci_events _ _ _ Hci). by rewrite Hpc.
      * apply (ci_unsent _ _ _ Hci); [by rewrite Hpc|done].
      * intros Hw. apply (qi_done _ _ _ Hqi) in Hw as [? _]. congruence.
    + rewrite lookup_insert_ne in Hq' by done. eapply queue_inv_mono; [done|]. by apply Hi.
  - by eapply closer_inv_queue; [apply Hi|..].
Qed.

Lemma inv_submit_result s id c s' :
  inv s → st_calls s !! id = Some c → Submit s id c OnResult = Next s' → inv s'.
Proof.
  intros Hi Hc H. pose proof (i_calls _ Hi _ _ Hc) as Hci.
  unfold Submit in H. destruct (c_pc c) eqn:Hpc; try done.
  destruct (c_result c) as [r|] eqn:Hr; [|done]. injection H as <-.
  unfold set_call. eapply inv_progress; try done.
  destruct Hci. split; simpl; rewrite ?Hpc in *; try done.
  intros v [Hv|Hv]; [done|]. injection Hv as ->. auto.
Qed.

Lemma inv_submit s id c ch s' :
  (0 < MaxPending cfg)%Z → inv s → st_calls s !! id = Some c →
  Submit s id c ch = Next s' → inv s'.
Proof.
  intros Hp Hi Hc H.
  assert (c_pc c = SAdmit ∨ c_pc c ≠ SAdmit) as [Hpc|Hpc] by (destruct (c_pc c); auto).
  - assert (ch = Go) as -> by (unfold Submit in H; rewrite Hpc in H; by destruct ch).
    by eapply inv_submit_admit.
  - destruct ch.
    2: by eapply inv_submit_send.
    6: by eapply inv_submit_result.
    all: eapply inv_submit_simple; [..|exact H]; done.
Qed.

(** ** Steps of the workers *)

Lemma inv_queue_closer s b q q' k :
  let s' := mkState (st_closed s) (st_lock s) (st_senders s) (<[b := q']> (st_queues s))
              (st_calls s) k in
  inv s → st_queues s !! b = Some q → queue_inv (st_calls s) b q' →
  q_sent q' = q_sent q → (∀ f, f ∈ q_flushes q → f ∈ q_flushes q') →
  (st_closed s = true ↔ k ≠ CIdle) → (st_lock s = Some Closer ↔ k = CLocked) →
  (∀ id c, st_calls s !! id = Some c → c_pc c = SAdmit → k = CIdle ∨ k = CLock) →
  closer_inv s' → inv s'.
Proof.
  intros s' Hi Hq Hqi Hs Hf Hc Hl Ha Hk. destruct Hi. split; simpl; try done.
  - intros id c Hcl. eapply call_inv_frame; [by apply i_calls0|done..| |].
    + by eapply Ha.
    + by eapply queues_ext_insert.
  - intros b0 q0 H0. destruct (decide (b0 = b)) as [->|].
    + rewrite lookup_insert_eq in H0. by simplify_eq.
    + rewrite lookup_insert_ne in H0 by done. auto.
Qed.

Lemma inv_queue s b q q' :
  inv s → st_queues s !! b = Some q → queue_inv (st_calls s) b q' →
  q_sent q' = q_sent q → q_closed q' = q_closed q →
  (∀ f, f ∈ q_flushes q → f ∈ q_flushes q') →
  (q_worker q = WDone → q_worker q' = WDone) → inv (set_queue s b q').
Proof.
  intros Hi Hq Hqi Hs Hc Hf Hw. eapply inv_queue_closer; try done.
  - apply (i_closed _ Hi).
  - apply (i_lock_closer _ Hi).
  - intros id c Hcl. by apply (ci_admit _ _ _ (i_calls _ Hi _ _ Hcl)).
  - eapply closer_inv_queue; [exact (i_closer _ Hi)|done|done|exact Hq|done|exact Hc|exact Hw].
Qed.

(** A completion of a request that was sent. *)
Lemma inv_deliver s b q r res s1 :
  inv s → st_queues s !! b = Some q → r ∈ q_sent q →
  (∀ v, res = Ok v → from_flush q r v) → deliver s (rq_id r) res = Some s1 →
  inv s1 ∧ st_queues s1 = st_queues s ∧ calls_le (st_calls s) (st_calls s1)
  ∧ ∃ c, st_calls s1 !! rq_id r = Some c ∧ c_delivered c = true.
Proof.
  intros Hi Hq Hr Hv H. unfold deliver in H.
  destruct (st_calls s !! rq_id r) as [c|] eqn:Hc; [|done].
  destruct (c_delivered c) eqn:Hd.
  { injection H as <-. split_and!; [done|done| |eauto]. intros id0 c0 ?. eauto. }
  destruct (c_result c) eqn:Hres; [done|]. injection H as <-. unfold set_call. simpl.
  pose proof (i_calls _ Hi _ _ Hc) as Hci.
  destruct (qi_sent _ _ _ (i_queues _ Hi _ _ Hq) _ Hr) as (c0 & Hc0 & Hb & Hreq & _).
  rewrite Hc in Hc0. injection Hc0 as <-. split_and!; [|done|by eapply calls_le_insert|].
  - eapply inv_progress; try done. destruct Hci. split; simpl; try done.
    + intros Hun. rewrite Hb in ci_unsent0. by destruct (ci_unsent0 Hun q Hq); rewrite Hreq.
    + intros v [Hv'|Hv']; [|auto]. injection Hv' as ->. rewrite Hb, Hreq. eauto.
  - rewrite lookup_insert_eq. eauto.
Qed.

(** Moving the worker of a queue, and taking from its buffer. *)
Lemma queue_inv_move calls b q w buf :
  queue_inv calls b q →
  future w ++ buf `sublist_of` future (q_worker q) ++ q_buf q →
  (∀ r c, r ∈ held (q_worker q) ++ q_buf q → calls !! rq_id r = Some c →
     c_delivered c = false → r ∈ held w ++ buf) →
  (∀ r, r ∈ held w ++ batch_of w → r ∈ q_sent q) → length buf <= length (q_buf q) →
  worker_ok w →
  (∀ todo carry stop r v, w = WDeliver todo carry stop → (r, Ok v) ∈ todo → from_flush q r v) →
  (w = WDone → q_closed q = true ∧ buf = []) →
  queue_inv calls b (mkQueue buf (q_closed q) w (q_sent q) (q_flushes q)).
Proof.
  intros [] Hsub Ho Hh Hlen Hw Hv Hd. split; simpl; try done.
  - etransitivity; [|exact qi_order0]. by apply sublist_app.
  - intros r c Hr Hc Hdl. eauto.
  - lia.
Qed.

(** Requests held or queued have been sent. *)
Lemma taken_sent calls b q r :
  queue_inv calls b q → r ∈ future (q_worker q) ++ q_buf q → r ∈ q_sent q.
Proof.
  intros [] Hr. eapply sublist_subseteq; [exact qi_order0|]. apply elem_of_app. by right.
Qed.

Lemma fail_fst batch e : (fail batch e).*1 = batch.
Proof.
  unfold fail. rewrite <-list_fmap_compose. induction batch; [done|]. simpl. by f_equal.
Qed.

Lemma fail_no_value batch e r v : (r, Ok v) ∉ fail batch e.
Proof. unfold fail. by intros (? & [=] & _)%list_elem_of_fmap. Qed.

Lemma inv_goto s b q w buf :
  inv s → st_queues s !! b = Some q → q_worker q ≠ WDone →
  future w ++ buf `sublist_of` future (q_worker q) ++ q_buf q →
  (∀ r c, r ∈ held (q_worker q) ++ q_buf q → st_calls s !! rq_id r = Some c →
     c_delivered c = false → r ∈ held w ++ buf) →
  (∀ r, r ∈ held w ++ batch_of w → r ∈ q_sent q) → length buf <= length (q_buf q) →
  worker_ok w →
  (∀ todo carry stop r v, w = WDeliver todo carry stop → (r, Ok v) ∈ todo → from_flush q r v) →
  (w = WDone → q_closed q = true ∧ buf = []) →
  inv (set_queue s b (mkQueue buf (q_closed q) w (q_sent q) (q_flushes q))).
Proof.
  intros Hi Hq Hnd. intros. eapply inv_queue; try done.
  apply queue_inv_move; try done. by apply Hi.
Qed.

(** The same where the worker holds what it held, in the same order. *)
Lemma inv_goto_same s b q w buf :
  inv s → st_queues s !! b = Some q → q_worker q ≠ WDone →
  held (q_worker q) = future (q_worker q) → held w ++ buf = held (q_worker q) ++ q_buf q →
  length buf <= length (q_buf q) → (∀ r, r ∈ batch_of w → r ∈ held w) → worker_ok w →
  (∀ todo carry stop r v, w = WDeliver todo carry stop → (r, Ok v) ∉ todo) →
  (w = WDone → q_closed q = true ∧ buf = []) →
  inv (set_queue s b (mkQueue buf (q_closed q) w (q_sent q) (q_flushes q))).
Proof.
  intros Hi Hq Hnd Hf He Hlen Hb Hw Hv Hd.
  pose proof (i_queues _ Hi _ _ Hq) as Hqi.
  eapply inv_goto; try done.
  - rewrite <-Hf, <-He. apply sublist_app; [|done]. destruct w; try done. simpl.
    by apply sublist_inserts_l.
  - intros r c Hr _ _. by rewrite He.
  - intros r Hr. eapply taken_sent; [done|]. rewrite <-Hf, <-He.
    rewrite elem_of_app in *. naive_solver.
  - intros todo carry stop r v Hw' Hin. by destruct (Hv _ _ _ _ _ Hw' Hin).
Qed.

#[local] Arguments fail : simpl never.

Ltac goto_same Hi Hq Hw :=
  eapply inv_goto_same; [exact Hi|exact Hq|..]; rewrite ?Hw; simpl; try done;
  rewrite ?fail_fst; simpl; rewrite ?app_nil_r; try done;
  try (by intros ? []%elem_of_nil).

Lemma batch_ok_single r : (0 < MaxBatchRequests cfg)%Z → batch_ok [r].
Proof. intros. split; simpl; [lia|by left]. Qed.

Lemma total_events_app xs ys :
  total_events (xs ++ ys) = (total_events xs + total_events ys)%Z.
Proof. induction xs as [|x xs IH]; simpl; [done|]. rewrite IH. lia. Qed.

Lemma inv_drain s b q batch events ch q' :
  inv s → st_queues s !! b = Some q → q_worker q = WDrain batch events →
  drainBatch s q batch events ch = Some q' → inv (set_queue s b q').
Proof.
  intros Hi Hq Hw H. pose proof (qi_worker _ _ _ (i_queues _ Hi _ _ Hq)) as Hok.
  rewrite Hw in Hok. destruct Hok as (Hne & Hb & Hev).
  assert (inv (set_queue s b (set_worker q (WBatch batch None)))) as Hstop.
  { unfold set_worker. goto_same Hi Hq Hw. }
  unfold drainBatch in H.
  destruct (_ && _)%bool eqn:Hroom; [|by destruct ch; simplify_eq]. bool_props.
  assert (∀ q0, match receive q with
    | None => None
    | Some None => Some (set_worker q (WBatch batch None))
    | Some (Some (req, q')) =>
        Some (set_worker q'
          (if (MaxBatchEvents cfg <? events + rq_events req)%Z then WBatch batch (Some req)
           else WDrain (batch ++ [req]) (events + rq_events req)))
    end = Some q0 → inv (set_queue s b q0)) as Hrec.
  { intros q0 Hr0. unfold receive in Hr0. destruct (q_buf q) as [|req buf] eqn:Ebuf.
    - destruct (q_closed q); [|done]. by injection Hr0 as <-.
    - injection Hr0 as <-. unfold set_worker, set_buf. simpl.
      destruct (Z.ltb_spec (MaxBatchEvents cfg) (events + rq_events req)).
      + goto_same Hi Hq Hw; rewrite ?Ebuf; simpl; [by rewrite <-(assoc_L (++))|lia].
      + goto_same Hi Hq Hw; rewrite ?Ebuf; simpl; [by rewrite <-(assoc_L (++))|lia|].
        destruct Hb as [Hb1 Hb2]. split_and!.
        * by destruct batch.
        * split; [rewrite length_app; simpl; lia|]. right. rewrite total_events_app. simpl. lia.
        * rewrite total_events_app. simpl. lia. }
  destruct (0 <? MaxDelay cfg)%Z, ch; try done; try (by auto).
  - destruct (st_closed s); [|done]. by injection H as <-.
  - by injection H as <-.
  - destruct (receive q); [done|]. by injection H as <-.
Qed.

(** A worker completes a request and goes on. *)
Lemma inv_deliver_goto s b q r res s1 w :
  inv s → st_queues s !! b = Some q → r ∈ q_sent q →
  (∀ v, res = Ok v → from_flush q r v) → deliver s (rq_id r) res = Some s1 →
  q_worker q ≠ WDone → w ≠ WDone →
  future w `sublist_of` future (q_worker q) →
  (∀ r', r' ∈ held (q_worker q) → r' ≠ r → r' ∈ held w) →
  (∀ r', r' ∈ held w ++ batch_of w → r' ∈ held (q_worker q) ++ batch_of (q_worker q)) →
  worker_ok w →
  (∀ todo carry stop r v, w = WDeliver todo carry stop → (r, Ok v) ∈ todo → from_flush q r v) →
  inv (set_queue s1 b (set_worker q w)).
Proof.
  intros Hi Hq Hr Hv H Hnd Hnw Hsub Hheld Hb Hw Hvals.
  destruct (inv_deliver _ _ _ _ _ _ Hi Hq Hr Hv H) as (Hi1 & Hqs & Hle & cd & Hcd & Hdl).
  rewrite <-Hqs in Hq. pose proof (i_queues _ Hi1 _ _ Hq) as Hqi. unfold set_worker.
  eapply inv_goto; try done.
  - by apply sublist_app.
  - intros r' c Hr' Hc Hd. rewrite elem_of_app in *. destruct Hr' as [Hr'|Hr']; [|by right].
    left. apply Hheld; [done|]. intros ->. congruence.
  - intros r' Hr'. apply (qi_held _ _ _ Hqi). auto.
Qed.

(** The executed requests respect the bounds of the batch they come from. *)
Lemma total_events_sublist live batch :
  live `sublist_of` batch → (∀ r, r ∈ batch → 0 < rq_events r)%Z →
  (total_events live <= total_events batch)%Z.
Proof.
  induction 1 as [|r live batch _ IH|r live batch _ IH]; intros Hpos; simpl; [done| |].
  - assert (total_events live <= total_events batch)%Z; [|lia]. apply IH.
    intros r' Hr'. apply Hpos. by right.
  - assert (total_events live <= total_events batch)%Z.
    { apply IH. intros r' Hr'. apply Hpos. by right. }
    assert (0 < rq_events r)%Z by (apply Hpos; by left). lia.
Qed.

Lemma batch_ok_sublist live batch :
  live `sublist_of` batch → live ≠ [] → (∀ r, r ∈ batch → 0 < rq_events r)%Z →
  batch_ok batch → batch_ok live.
Proof.
  intros Hs Hne Hpos [Hl He]. pose proof (sublist_length _ _ Hs) as Hlen. split; [lia|].
  destruct He as [He|He]; [left|right].
  - destruct live; [done|]. simpl in *. lia.
  - pose proof (total_events_sublist _ _ Hs Hpos). lia.
Qed.

Lemma completions_values batch live r req v :
  (req, Ok v) ∈ completions batch live r →
  ∃ outcomes j, r = ExecOk outcomes ∧ length outcomes = length live
    ∧ live !! j = Some req ∧ outcomes !! j = Some v.
Proof.
  unfold completions. destruct r as [|e|outcomes]; try (intros H; by apply fail_no_value in H).
  case_bool_decide as Hlen; [intros H; by apply fail_no_value in H|]. intros [j Hj]%list_elem_of_lookup.
  apply lookup_zip_Some in Hj as [Hl Ho].
  rewrite list_lookup_fmap_Some in Ho. destruct Ho as (v' & [= <-] & Ho). eauto 10.
Qed.

Lemma completions_fst batch live r req :
  (req ∈ live → live `sublist_of` batch → req ∈ (completions batch live r).*1)
  ∧ (req ∈ (completions batch live r).*1 → req ∈ batch ∨ req ∈ live).
Proof.
  unfold completions. destruct r as [|e|outcomes]; [rewrite fail_fst|rewrite fail_fst|].
  - split; [|auto]. intros Hin Hs. by eapply sublist_subseteq.
  - auto.
  - case_bool_decide as Hlen; [rewrite fail_fst; auto|].
    rewrite fst_zip; [auto|]. rewrite length_fmap. lia.
Qed.

Lemma inv_execute s b q batch live carry r :
  inv s → st_queues s !! b = Some q → q_worker q = WExecute batch live carry →
  inv (set_queue s b
    (mkQueue (q_buf q) (q_closed q) (WDeliver (completions batch live r) carry false)
       (q_sent q) (q_flushes q ++ [(live, r)]))).
Proof.
  intros Hi Hq Hw. pose proof (i_queues _ Hi _ _ Hq) as Hqi.
  eapply inv_queue; try done; simpl.
  2: { intros f Hf. apply elem_of_app. by left. }
  2: by rewrite Hw.
  destruct Hqi. rewrite Hw in *. simpl in *. destruct qi_worker0 as (Hb & Hs & Hne).
  split; simpl; try done.
  - rewrite fmap_app, concat_app. simpl. by rewrite app_nil_r, <-!(assoc_L (++)) in *.
  - intros r' c Hr' Hc Hd. specialize (qi_owed0 r' c Hr' Hc Hd).
    rewrite !elem_of_app in *. destruct qi_owed0 as [[Hl|Hc']|Hbuf]; [|by auto..].
    left. left. by apply completions_fst.
  - intros r' Hr'. apply qi_held0. rewrite !elem_of_app, elem_of_nil in *.
    destruct Hr' as [[Hr'|]|]; [|by auto..]. apply completions_fst in Hr'. naive_solver.
  - intros f [Hf|Hf%list_elem_of_singleton]%elem_of_app; [auto|]. subst f. simpl.
    split; [done|]. eapply batch_ok_sublist; try done. intros r' Hr'.
    destruct (qi_sent0 r') as (? & _ & _ & _ & ?); [|done].
    apply qi_held0. rewrite !elem_of_app. auto.
  - intros todo carry' stop req v [= <- <- <-] Hin.
    apply completions_values in Hin as (outcomes & j & -> & ? & ? & ?).
    exists live, outcomes, j. split_and!; [|done..]. apply elem_of_app. right. by left.
Qed.

Ltac app_norm := repeat (progress (rewrite <-?(assoc_L (++)); simpl)).

Lemma inv_flush s b q ch s' :
  inv s → st_queues s !! b = Some q → runFlush s b q ch = Next s' → inv s'.
Proof.
  intros Hi Hq H. pose proof (i_queues _ Hi _ _ Hq) as Hqi.
  pose proof (qi_worker _ _ _ Hqi) as Hok. unfold runFlush in H.
  destruct (q_worker q) as [| | | |batch todo live carry|batch live carry| | | |] eqn:Hw;
    try done.
  - destruct Hok as [Hb Hs]. destruct todo as [|req todo], ch; try done.
    + injection H as <-. rewrite app_nil_r in Hs. destruct live as [|l live].
      * unfold set_worker. goto_same Hi Hq Hw.
      * unfold set_worker.
        eapply inv_goto; [exact Hi|exact Hq|by rewrite Hw|..]; rewrite ?Hw; simpl; try done.
        intros r Hr. apply (qi_held _ _ _ Hqi). by rewrite Hw.
    + destruct (st_calls s !! rq_id req) as [c|] eqn:Hc; [|done].
      destruct (c_ctx c) as [e|].
      * destruct (deliver s (rq_id req) (Err e)) as [s1|] eqn:Hd; [|done].
        injection H as <-. eapply inv_deliver_goto; try done; rewrite ?Hw; simpl; try done.
        -- apply (qi_held _ _ _ Hqi). rewrite Hw. simpl.
           rewrite !elem_of_app, elem_of_cons. auto.
        -- apply sublist_app; [done|]. by apply sublist_cons.
        -- intros r'. rewrite !elem_of_app, elem_of_cons, !elem_of_app. clear. naive_solver.
        -- intros r'. rewrite !elem_of_app, elem_of_cons, !elem_of_app. clear. naive_solver.
        -- split; [done|]. etransitivity; [|exact Hs]. apply sublist_app; [done|].
           by apply sublist_cons.
      * injection H as <-. unfold set_worker.
        eapply inv_goto; [exact Hi|exact Hq|by rewrite Hw|..]; rewrite ?Hw; simpl; try done.
        -- by app_norm.
        -- intros r c0. by app_norm.
        -- intros r Hr. apply (qi_held _ _ _ Hqi). rewrite Hw. revert Hr. simpl.
           by app_norm.
        -- split; [done|]. by rewrite <-(assoc_L (++)).
  - destruct ch; try done. injection H as <-. by eapply inv_execute.
Qed.

Lemma inv_worker s b q ch s' :
  (0 < MaxBatchRequests cfg)%Z → inv s → st_queues s !! b = Some q →
  runWorker s b q ch = Next s' → inv s'.
Proof.
  intros Hp Hi Hq H. pose proof (i_queues _ Hi _ _ Hq) as Hqi.
  pose proof (qi_worker _ _ _ Hqi) as Hok. unfold runWorker in H.
  destruct (q_worker q) as [|req|batch events|batch carry|batch todo live carry
    |batch live carry|todo carry stop|carry| |] eqn:Hw.
  - destruct ch; try done.
    + unfold receive in H. destruct (q_buf q) as [|req buf] eqn:Ebuf.
      * destruct (q_closed q) eqn:Hcl; [|done]. injection H as <-. unfold set_worker.
        goto_same Hi Hq Hw.
      * injection H as <-. unfold set_worker, set_buf. simpl.
        goto_same Hi Hq Hw; rewrite ?Ebuf; simpl; lia.
    + destruct (st_closed s); [|done]. injection H as <-. unfold set_worker.
      goto_same Hi Hq Hw.
  - destruct ch; try done. destruct (st_closed s); injection H as <-; unfold set_worker.
    + goto_same Hi Hq Hw. intros ????? [= <- _ _]. apply fail_no_value.
    + goto_same Hi Hq Hw. split_and!; [done|by apply batch_ok_single|lia].
  - destruct (drainBatch s q batch events ch) as [q'|] eqn:Hd; [|done]. injection H as <-.
    by eapply inv_drain.
  - destruct ch; try done. destruct (st_closed s); injection H as <-; unfold set_worker.
    + goto_same Hi Hq Hw. intros ????? [= <- _ _]. apply fail_no_value.
    + goto_same Hi Hq Hw. intros r Hr. apply elem_of_app. by left.
  - by eapply inv_flush.
  - by eapply inv_flush.
  - simpl in Hok. destruct todo as [|[req r] todo], ch; try done.
    + injection H as <-. unfold set_worker. destruct stop.
      * rewrite Hok in Hw by done. goto_same Hi Hq Hw.
      * goto_same Hi Hq Hw.
    + destruct (deliver s (rq_id req) r) as [s1|] eqn:Hd; [|done]. injection H as <-.
      eapply inv_deliver_goto; try done; rewrite ?Hw; simpl; try done.
      * apply (qi_held _ _ _ Hqi). rewrite Hw. simpl. by left.
      * intros v ->. eapply (qi_values _ _ _ Hqi); [done|]. by left.
      * intros r'. rewrite elem_of_cons. naive_solver.
      * intros r' Hr'. by right.
      * intros ????? [= <- <- <-] Hin. eapply (qi_values _ _ _ Hqi); [done|]. by right.
  - destruct ch; try done. destruct (st_closed s); injection H as <-; unfold set_worker.
    + goto_same Hi Hq Hw. intros ????? [= <- _ _]. apply fail_no_value.
    + destruct carry; goto_same Hi Hq Hw.
  - destruct ch; try done. unfold receive in H. destruct (q_buf q) as [|req buf] eqn:Ebuf.
    + destruct (q_closed q) eqn:Hcl; [|done]. injection H as <-. unfold set_worker.
      goto_same Hi Hq Hw.
    + injection H as <-. unfold set_worker, set_buf. simpl.
      goto_same Hi Hq Hw; rewrite ?Ebuf; simpl; [lia|].
      intros ????? [= <- _ _]. apply fail_no_value.
  - done.
Qed.

(** ** Steps of [Close] *)

Lemma inv_closer s cl l k :
  let s' := mkState cl l (st_senders s) (st_queues s) (st_calls s) k in
  inv s → (cl = true ↔ k ≠ CIdle) → (l = Some Closer ↔ k = CLocked) →
  (∀ id, st_lock s = Some (Sender id) ↔ l = Some (Sender id)) →
  (∀ id c, st_calls s !! id = Some c → c_pc c = SAdmit → k = CIdle ∨ k = CLock) →
  closer_inv s' → inv s'.
Proof.
  intros s' [] Hc Hl Hid Ha Hk. split; simpl; try done.
  - intros id Hlk. by apply i_lock0, Hid.
  - intros id c Hcl. eapply call_inv_frame; [by apply i_calls0|done..| |apply queues_ext_refl].
    by eapply Ha.
Qed.

(** No call registers any more. *)
Lemma no_admit s id c :
  inv s → st_calls s !! id = Some c → c_pc c = SAdmit →
  st_closer s = CIdle ∨ st_closer s = CLock ∧ st_lock s ≠ None.
Proof.
  intros Hi Hc Hpc. pose proof (i_calls _ Hi _ _ Hc) as [].
  destruct (ci_admit0 Hpc) as [?|?]; [by left|right]. split; [done|].
  rewrite (proj1 ci_lock0); [done|by rewrite Hpc].
Qed.

Lemma forallb_done qs :
  forallb (λ bq : string * queue, is_done (q_worker bq.2)) (map_to_list qs) = true ↔
  ∀ b q, qs !! b = Some q → q_worker q = WDone.
Proof.
  rewrite forallb_forall. split.
  - intros H b q Hq. specialize (H (b, q)). simpl in H. rewrite <-list_elem_of_In in H.
    rewrite elem_of_map_to_list in H. specialize (H Hq). by destruct (q_worker q).
  - intros H [b q]. rewrite <-list_elem_of_In, elem_of_map_to_list. intros Hq. simpl.
    by rewrite (H _ _ Hq).
Qed.

Definition settling (k : close_pc) : bool :=
  match k with CIdle | CLock => false | _ => true end.

(** [Close] goes on after it has taken the lock. *)
Lemma inv_settling s l k :
  let s' := mkState (st_closed s) l (st_senders s) (st_queues s) (st_calls s) k in
  inv s → settling (st_closer s) = true → settling k = true → k ≠ CLocked →
  l ≠ Some Closer → (∀ id, st_lock s = Some (Sender id) ↔ l = Some (Sender id)) →
  closer_inv s' → inv s'.
Proof.
  intros s' Hi Hs Hk Hl Hlk Hc. apply inv_closer; try done.
  - rewrite (i_closed _ Hi). by destruct (st_closer s), k.
  - intros id c Hcl Hpc. destruct (no_admit _ _ _ Hi Hcl Hpc) as [H|[H _]];
      by rewrite H in Hs.
Qed.

Lemma inv_close_queue s b q qs :
  inv s → st_closer s = CClose (b :: qs) → st_queues s !! b = Some q → q_closed q = false →
  inv (set_closer (set_queue s b
         (mkQueue (q_buf q) true (q_worker q) (q_sent q) (q_flushes q))) (CClose qs)).
Proof.
  intros Hi Ec Hq Hqc. pose proof (i_closer _ Hi) as Hcl. unfold closer_inv in Hcl.
  rewrite Ec in Hcl. destruct Hcl as (Hs & [Hb Hnd]%NoDup_cons & Hd & Hall).
  unfold set_closer, set_queue. simpl. eapply inv_queue_closer; try done.
  - destruct (i_queues _ Hi _ _ Hq). split; try done. simpl. intros Hw. split; [done|].
    by destruct (qi_done0 Hw).
  - rewrite (i_closed _ Hi), Ec. naive_solver.
  - rewrite (i_lock_closer _ Hi), Ec. naive_solver.
  - intros id c Hc Hpc. destruct (no_admit _ _ _ Hi Hc Hpc) as [H|[H _]]; congruence.
  - unfold closer_inv, all_queues. simpl. split_and!; [done|done| |].
    + intros b' Hb'. rewrite lookup_insert_is_Some'. right. apply Hd. by right.
    + intros b' q'. destruct (decide (b' = b)) as [->|Hne].
      * rewrite lookup_insert_eq. intros [= <-]. done.
      * rewrite lookup_insert_ne by done. intros Hq'. rewrite (Hall _ _ Hq').
        rewrite elem_of_cons. naive_solver.
Qed.

Lemma inv_close s s' : inv s → Close s = Next s' → inv s'.
Proof.
  intros Hi H. pose proof (i_lock_closer _ Hi) as Hlc.
  pose proof (i_closer _ Hi) as Hcl. unfold closer_inv, all_queues in Hcl.
  unfold Close in H. destruct (st_closer s) as [| | |qs|[|b qs]| |] eqn:Ec; try done.
  - injection H as <-. apply inv_closer; try done; [naive_solver|]. auto.
  - destruct (st_lock s) eqn:El; [done|]. injection H as <-.
    unfold set_lock, set_closer. simpl. apply inv_closer; try done.
    + rewrite (i_closed _ Hi), Ec. naive_solver.
    + rewrite El. naive_solver.
    + intros id c Hc Hpc. destruct (no_admit _ _ _ Hi Hc Hpc) as [?|[_ ?]]; congruence.
  - injection H as <-. unfold set_lock, set_closer. simpl.
    assert (st_lock s = Some Closer) as El by (by apply Hlc).
    apply inv_settling; try done; [by rewrite Ec|rewrite El; naive_solver|].
    unfold closer_inv, all_queues. simpl. split_and!; [done|apply NoDup_elements|].
    intros b. by rewrite elem_of_elements, elem_of_dom.
  - case_bool_decide as Hs; [|done]. injection H as <-. unfold set_closer.
    destruct Hcl as (Hf & Hnd & Hd).
    apply inv_settling; try done; [by rewrite Ec|rewrite Hlc; naive_solver|].
    unfold closer_inv, all_queues. simpl. split_and!; [done|done|naive_solver|].
    intros b q Hq. rewrite (Hf _ _ Hq). split; [done|]. intros []. apply Hd. eauto.
  - injection H as <-. unfold set_closer. destruct Hcl as (Hs & _ & _ & Hq).
    apply inv_settling; try done; [by rewrite Ec|rewrite Hlc; naive_solver|].
    unfold closer_inv, all_queues. simpl. split; [done|].
    intros b q Hb. apply (Hq _ _ Hb). apply not_elem_of_nil.
  - destruct (st_queues s !! b) as [q|] eqn:Hq; [|done].
    destruct (q_closed q) eqn:Hqc; [done|]. injection H as <-. by apply inv_close_queue.
  - destruct (forallb _ _) eqn:Hdone; [|done]. injection H as <-. unfold set_closer.
    pose proof (proj1 (forallb_done _) Hdone) as Hd.
    apply inv_settling; try done; [by rewrite Ec|rewrite Hlc; naive_solver|].
    unfold closer_inv, all_queues. simpl. naive_solver.
Qed.

(** ** Reachable states *)

Lemma inv_call s id b p n :
  inv s → st_calls s !! id = None →
  inv (set_call s id (mkCall b (mkRequest id p n) None SEnter false None)).
Proof.
  intros Hi Hn. pose proof Hi as [].
  assert (∀ id', is_Some (st_calls s !! id') → id' ≠ id) as Hne.
  { intros id' [? ?] ->. congruence. }
  split; simpl; try done.
  - intros id' Hl. rewrite lookup_insert_is_Some'. auto.
  - intros id' Hl. rewrite lookup_insert_is_Some'. auto.
  - intros id' c. destruct (decide (id' = id)) as [->|].
    + rewrite lookup_insert_eq. intros [= <-]. split; simpl; try done.
      * split; [done|]. intros Hl. by destruct (Hne id (i_lock0 id Hl)).
      * split; [done|]. intros Hl. by destruct (Hne id (i_senders0 id Hl)).
      * intros _ q Hq Hin. destruct (qi_sent _ _ _ (i_queues0 _ _ Hq) _ Hin) as (c & Hc & _).
        simpl in Hc. congruence.
      * intros v [|]; done.
    + rewrite lookup_insert_ne by done. intros Hc.
      eapply call_inv_frame; [by apply i_calls0|done..| |apply queues_ext_refl].
      apply (ci_admit _ _ _ (i_calls0 _ _ Hc)).
  - intros b' q Hq. eapply queue_inv_mono; [by apply calls_le_new|]. auto.
Qed.

Lemma inv_cancel s id c e :
  inv s → st_calls s !! id = Some c →
  inv (set_call s id (mkCall (c_boundary c) (c_request c) e (c_pc c) (c_delivered c)
         (c_result c))).
Proof.
  intros Hi Hc. unfold set_call. eapply inv_progress; try done.
  destruct (i_calls _ Hi _ _ Hc). by split.
Qed.

Lemma inv_step s l s' : New_ok cfg = true → inv s → step s l = Next s' → inv s'.
Proof.
  intros Hcfg Hi H. unfold New_ok in Hcfg. bool_props. destruct l; simpl in H.
  - case_match; [done|]. injection H as <-. by apply inv_call.
  - case_match eqn:Hc; [|done]. injection H as <-. by apply inv_cancel.
  - case_match eqn:Hc; [|done]. by eapply inv_submit.
  - case_match eqn:Hc; [|done]. by eapply inv_worker.
  - by eapply inv_close.
Qed.

Lemma reachable_inv s : New_ok cfg = true → reachable s → inv s.
Proof. intros Hcfg. induction 1; [apply initial_inv|]. by eapply inv_step. Qed.

(** A queue is open while a call may send to it. *)
Lemma senders_open s b q :
  inv s → st_senders s ≠ ∅ → st_queues s !! b = Some q → q_closed q = false.
Proof.
  intros Hi Hs Hq. pose proof (i_closer _ Hi) as Hcl. unfold closer_inv, all_queues in Hcl.
  destruct (st_closer s); try (by eapply Hcl); by destruct Hcl.
Qed.

(** The coordinator never panics on a channel: no interleaving of callers,
workers and [Close] sends on a closed queue or closes a queue twice. *)
Theorem coordinator_no_panic s l : New_ok cfg = true → reachable s → step s l ≠ Panics.
Proof.
  intros Hcfg Hr. pose proof (reachable_inv _ Hcfg Hr) as Hi.
  assert (∀ id ch c, st_calls s !! id = Some c → Submit s id c ch ≠ Panics) as Hsub.
  { intros id ch c Hc H. unfold Submit in H. destruct (c_pc c) eqn:Hpc, ch; try done;
      repeat case_match; try done.
    assert (id ∈ st_senders s) as Hs.
    { apply (ci_senders _ _ _ (i_calls _ Hi _ _ Hc)). by rewrite Hpc. }
    rewrite (senders_open s (c_boundary c) q) in *; [done|done|set_solver|done]. }
  destruct l; simpl; try (by case_match); [case_match eqn:Hc; [by eauto|done]|..].
  - case_match; [|done]. unfold runWorker, runFlush. repeat case_match; done.
  - pose proof (i_closer _ Hi) as Hcl. unfold closer_inv, all_queues in Hcl.
    unfold Close. destruct (st_closer s) as [| | |?|[|b qs]| |] eqn:Ec; try (by repeat case_match).
    destruct Hcl as (_ & Hnd & _ & Hall). case_match eqn:Hq; [|done].
    case_match eqn:Hqc; [|done]. apply (Hall _ _ Hq) in Hqc. by destruct Hqc; left.
Qed.

(** Admission order is execution order. On every queue, what the executions
received is a subsequence of what was sent, in the order it was sent; no request
is sent, and so none is executed, twice; every execution is nonempty and
respects both bounds, except that a request larger than the bound on events is
executed alone; and a queue never exceeds its capacity. *)
Theorem executed_in_order s b q :
  New_ok cfg = true → reachable s → st_queues s !! b = Some q →
  concat (q_flushes q).*1 `sublist_of` q_sent q ∧ NoDup (rq_id <$> q_sent q)
  ∧ (∀ live r, (live, r) ∈ q_flushes q →
       live ≠ [] ∧ (Z.of_nat (length live) <= MaxBatchRequests cfg)%Z
       ∧ (length live = 1 ∨ (total_events live <= MaxBatchEvents cfg)%Z))
  ∧ (Z.of_nat (Pending s b) <= MaxPending cfg)%Z.
Proof.
  intros Hcfg Hr Hq. destruct (i_queues _ (reachable_inv _ Hcfg Hr) _ _ Hq).
  split_and!; [|done| |].
  - etransitivity; [|exact qi_order0]. by apply sublist_inserts_r.
  - intros live r Hf. by destruct (qi_flushes0 _ Hf) as [? [? ?]].
  - unfold Pending. by rewrite Hq.
Qed.

(** C20: a caller gets its own outcome. When [Submit] returns a value, the request
was executed and the value is the outcome at its own index of that execution. *)
Theorem submit_own_outcome s id c v :
  New_ok cfg = true → reachable s → st_calls s !! id = Some c → c_pc c = SReturn (Ok v) →
  rq_id (c_request c) = id
  ∧ ∃ q live outcomes j, st_queues s !! c_boundary c = Some q
      ∧ (live, ExecOk outcomes) ∈ q_flushes q ∧ length outcomes = length live
      ∧ live !! j = Some (c_request c) ∧ outcomes !! j = Some v.
Proof.
  intros Hcfg Hr Hc Hpc. destruct (i_calls _ (reachable_inv _ Hcfg Hr) _ _ Hc).
  split; [done|]. destruct (ci_value0 v (or_intror Hpc)) as (q & Hq & live & os & j & ?).
  by exists q, live, os, j.
Qed.

(** [Close] settles every request. When it has returned, all the workers have
ended, all the queues are closed and empty, every request that was ever sent has
been completed, a call that still waits has its result ready, and no call can
send any more. *)
Theorem close_settles s :
  New_ok cfg = true → reachable s → st_closer s = CDone →
  (∀ b q, st_queues s !! b = Some q →
     q_worker q = WDone ∧ q_closed q = true ∧ q_buf q = []
     ∧ ∀ r, r ∈ q_sent q → ∃ c, st_calls s !! rq_id r = Some c ∧ c_delivered c = true)
  ∧ (∀ id c, st_calls s !! id = Some c →
       (c_pc c = SWait → is_Some (c_result c)) ∧ c_pc c ≠ SSend ∧ c_pc c ≠ SAdmit).
Proof.
  intros Hcfg Hr Hd. pose proof (reachable_inv _ Hcfg Hr) as Hi.
  pose proof (i_closer _ Hi) as Hcl. unfold closer_inv in Hcl. rewrite Hd in Hcl.
  destruct Hcl as [Hs Hall].
  assert (∀ b q r, st_queues s !! b = Some q → r ∈ q_sent q →
    ∃ c, st_calls s !! rq_id r = Some c ∧ c_request c = r ∧ c_delivered c = true) as Hdel.
  { intros b q r Hq Hin. destruct (Hall _ _ Hq) as [_ Hw].
    destruct (i_queues _ Hi _ _ Hq). destruct (qi_sent0 _ Hin) as (c & Hc & _ & Hreq & _).
    exists c. split_and!; [done..|]. destruct (c_delivered c) eqn:E; [done|].
    pose proof (qi_owed0 _ _ Hin Hc E) as Ho. destruct (qi_done0 Hw) as [_ Hbuf].
    rewrite Hw, Hbuf in Ho. by apply elem_of_nil in Ho. }
  split.
  - intros b q Hq. destruct (Hall _ _ Hq) as [Hqc Hw].
    split_and!; [done|done|apply (qi_done _ _ _ (i_queues _ Hi _ _ Hq) Hw)|].
    intros r Hin. destruct (Hdel _ _ _ Hq Hin) as (c & ? & _ & ?). eauto.
  - intros id c Hc. pose proof (i_calls _ Hi _ _ Hc) as []. split_and!.
    + intros Hpc. rewrite Hpc in *. destruct (ci_sent0 eq_refl) as (q & Hq & Hin).
      destruct (Hdel _ _ _ Hq Hin) as (c' & Hc' & _ & Hdl).
      rewrite ci_id0 in Hc'. simplify_eq. apply not_eq_None_Some. auto.
    + intros Hpc. rewrite Hpc in *. assert (id ∈ st_senders s) by (by apply ci_senders0).
      set_solver.
    + intros Hpc. destruct (ci_admit0 Hpc); congruence.
Qed.

(** ** [Close] returns *)

(** A step of a goroutine of the coordinator, not of its environment. *)
Definition internal (l : label) : bool :=
  match l with LCall _ _ _ _ | LCancel _ _ => false | _ => true end.

Definition moves (s : state) : Prop := ∃ l s', internal l = true ∧ step s l = Next s'.

Lemma moves_submit s id c ch s' :
  st_calls s !! id = Some c → Submit s id c ch = Next s' → moves s.
Proof. intros Hc H. exists (LSubmit id ch), s'. simpl. by rewrite Hc. Qed.

Lemma moves_worker s b q ch s' :
  st_queues s !! b = Some q → runWorker s b q ch = Next s' → moves s.
Proof. intros Hq H. exists (LWorker b ch), s'. simpl. by rewrite Hq. Qed.

Lemma deliver_ready s b q r res :
  inv s → st_queues s !! b = Some q → r ∈ q_sent q →
  ∃ s', deliver s (rq_id r) res = Some s'.
Proof.
  intros Hi Hq Hr. destruct (qi_sent _ _ _ (i_queues _ Hi _ _ Hq) _ Hr) as (c & Hc & _).
  unfold deliver. rewrite Hc. destruct (c_delivered c) eqn:Hd; [eauto|].
  rewrite (ci_undelivered _ _ _ (i_calls _ Hi _ _ Hc) Hd). eauto.
Qed.

(** A worker that has not ended moves, once its queue is closed. *)
Lemma worker_moves s b q :
  inv s → st_closed s = true → st_queues s !! b = Some q → q_closed q = true →
  q_worker q ≠ WDone → moves s.
Proof.
  intros Hi Hcd Hq Hqc Hw. pose proof (i_queues _ Hi _ _ Hq) as Hqi.
  pose proof (qi_held _ _ _ Hqi) as Hheld.
  assert (∃ ch s', runWorker s b q ch = Next s') as (ch & s' & H); [|by eapply moves_worker].
  unfold runWorker, runFlush. destruct (q_worker q) as [|req|batch events|batch carry
    |batch todo live carry|batch live carry|todo carry stop|carry| |] eqn:Ew; try done;
    rewrite ?Hcd.
  - exists OnClosed. eauto.
  - exists Go. eauto.
  - assert (∃ ch q', drainBatch s q batch events ch = Some q') as (ch & q' & Hd);
      [|exists ch; rewrite Hd; eauto].
    unfold drainBatch. destruct (_ && _)%bool; [|exists Go; eauto].
    exists OnQueue. unfold receive. rewrite Hqc.
    destruct (0 <? MaxDelay cfg)%Z, (q_buf q); eauto.
  - exists Go. eauto.
  - exists Go. destruct todo as [|req todo]; [eauto|].
    assert (req ∈ q_sent q) as Hin.
    { apply Hheld. simpl. rewrite !elem_of_app, elem_of_cons. auto. }
    destruct (qi_sent _ _ _ Hqi _ Hin) as (c & -> & _). destruct (c_ctx c) as [e|]; [|eauto].
    destruct (deliver_ready _ _ _ _ (Err e) Hi Hq Hin) as [s' ->]. eauto.
  - exists (Executed ExecPanic). eauto.
  - exists Go. destruct todo as [|[req r] todo]; [eauto|].
    assert (req ∈ q_sent q) as Hin by (apply Hheld; by left).
    destruct (deliver_ready _ _ _ _ r Hi Hq Hin) as [s' ->]. eauto.
  - exists Go. eauto.
  - exists OnQueue. unfold receive. rewrite Hqc. destruct (q_buf q); eauto.
Qed.

(** [Close] never deadlocks. *)
Lemma close_moves s :
  inv s → st_closer s ≠ CIdle → st_closer s ≠ CDone → moves s.
Proof.
  intros Hi Hni Hnd. assert (st_closed s = true) as Hcd by (by apply (i_closed _ Hi)).
  assert (∀ s', Close s = Next s' → moves s) as Hclose by (intros s' H; by exists LClose, s').
  pose proof (i_closer _ Hi) as Hcl. unfold closer_inv, all_queues in Hcl.
  pose proof (i_lock_closer _ Hi) as Hlc. unfold Close in Hclose.
  destruct (st_closer s) as [| | |qs|[|b qs]| |] eqn:Ec; try done; eauto.
  - destruct (st_lock s) as [[id|]|] eqn:El; [|naive_solver|eauto].
    destruct (i_lock _ Hi _ El) as [c Hc].
    pose proof (proj2 (ci_lock _ _ _ (i_calls _ Hi _ _ Hc)) El) as Hpc.
    destruct (c_pc c) eqn:E; try done;
      (eapply (moves_submit _ _ _ Go); [done|]); unfold Submit; by rewrite E, ?Hcd.
  - destruct (decide (st_senders s = ∅)) as [Hs|Hs]; [by rewrite bool_decide_true in Hclose; eauto|].
    apply set_choose_L in Hs as [id Hid]. destruct (i_senders _ Hi _ Hid) as [c Hc].
    pose proof (proj2 (ci_senders _ _ _ (i_calls _ Hi _ _ Hc)) Hid) as Hpc.
    destruct (c_pc c) eqn:E; try done.
    + eapply (moves_submit _ _ _ OnClosed); [done|]. unfold Submit. by rewrite E, Hcd.
    + eapply (moves_submit _ _ _ Go); [done|]. unfold Submit. by rewrite E.
    + eapply (moves_submit _ _ _ Go); [done|]. unfold Submit. by rewrite E.
  - destruct Hcl as (_ & Hdup & Hsome & Hall). destruct (Hsome b) as [q Hq]; [by left|].
    rewrite Hq in Hclose. destruct (q_closed q) eqn:Hqc; [|eauto].
    apply (Hall _ _ Hq) in Hqc. by destruct Hqc; left.
  - destruct (forallb _ _) eqn:Hdone; [eauto|]. destruct Hcl as [_ Hall].
    destruct (decide (map_Forall (λ (_ : string) q, is_done (q_worker q) = true) (st_queues s)))
      as [Hf|Hf].
    + rewrite (proj2 (forallb_done _)) in Hdone; [done|]. intros b q Hq.
      specialize (Hf _ _ Hq). simpl in Hf. destruct (q_worker q); try done.
    + apply map_not_Forall in Hf as (b & q & Hq & Hw); [|intros; apply _].
      eapply worker_moves; try done; [by eapply Hall|]. by intros Ew; rewrite Ew in Hw.
Qed.

(** What remains to be done once [Close] has begun. *)
Definition carry_size (carry : option request) : nat := length (carry_list carry).

Definition worker_rank (w : worker_pc) : nat :=
  match w with
  | WDone => 0
  | WFail => 1
  | WIdle => 3
  | WTake _ => 5
  | WDrain batch _ => 6 + length batch
  | WBatch batch carry => 4 + length batch + carry_size carry
  | WFilter batch todo live carry =>
      8 + length batch + 2 * length todo + length live + carry_size carry
  | WExecute batch live carry => 7 + length batch + length live + carry_size carry
  | WDeliver todo carry true => 2 + length todo
  | WDeliver todo carry false => 6 + length todo + carry_size carry
  | WNext carry => 4 + carry_size carry
  end.

Definition queue_rank (q : queue) : nat := 8 * length (q_buf q) + worker_rank (q_worker q).

Definition call_rank (c : call) : nat :=
  match c_pc c with
  | SReturn _ => 0
  | SWait => 1
  | SSent | SAbort _ => 2
  | SSend => 12
  | SAdmit => 18
  | SLocked => 19
  | SLock => 20
  | SEnter => 21
  end.

Definition closer_rank (s : state) : nat :=
  match st_closer s with
  | CIdle => 7 + size (st_queues s)
  | CLock => 6 + size (st_queues s)
  | CLocked => 5 + size (st_queues s)
  | CWait qs => 4 + length qs
  | CClose qs => 3 + length qs
  | CJoin => 1
  | CDone => 0
  end.

Definition remaining (s : state) : nat :=
  map_sum call_rank (st_calls s) + map_sum queue_rank (st_queues s) + closer_rank s.

Lemma remaining_queue s b q q' :
  st_queues s !! b = Some q → queue_rank q' < queue_rank q →
  remaining (set_queue s b q') < remaining s.
Proof.
  intros Hq Hlt. pose proof (map_sum_insert queue_rank _ _ _ q' Hq).
  assert (closer_rank (set_queue s b q') = closer_rank s).
  { unfold closer_rank. simpl. by rewrite map_size_insert_Some by eauto. }
  unfold remaining. simpl. lia.
Qed.

Lemma remaining_call s id c c' l ids :
  st_calls s !! id = Some c → call_rank c' < call_rank c →
  remaining (mkState (st_closed s) l ids (st_queues s) (<[id := c']> (st_calls s))
               (st_closer s)) < remaining s.
Proof.
  intros Hc Hlt. pose proof (map_sum_insert call_rank _ _ _ c' Hc).
  unfold remaining, closer_rank. simpl. lia.
Qed.

Lemma remaining_deliver s id r s' :
  deliver s id r = Some s' → remaining s' = remaining s ∧ st_queues s' = st_queues s.
Proof.
  unfold deliver. destruct (st_calls s !! id) as [c|] eqn:Hc; [|done].
  destruct (c_delivered c); [by intros [= <-]|]. destruct (c_result c); [done|].
  intros [= <-]. split; [|done].
  match goal with |- remaining (set_call _ _ ?c') = _ =>
    pose proof (map_sum_insert call_rank _ _ _ c' Hc) end.
  unfold remaining, closer_rank. simpl. unfold call_rank in *. simpl in *. lia.
Qed.

Ltac call_done Hpc :=
  unfold set_lock, set_senders, set_call; simpl; eapply remaining_call; [done|];
  unfold call_rank; rewrite Hpc; simpl; lia.

Lemma remaining_submit s id c ch s' :
  st_closed s = true → st_calls s !! id = Some c → Submit s id c ch = Next s' →
  remaining s' < remaining s.
Proof.
  intros Hcd Hc H. unfold Submit in H. rewrite Hcd in H. destruct (c_pc c) eqn:Hpc, ch; try done.
  - injection H as <-. call_done Hpc.
  - destruct (st_lock s); [done|]. injection H as <-.
    call_done Hpc.
  - injection H as <-. call_done Hpc.
  - injection H as <-. pose proof (map_sum_insert call_rank _ _ _ (set_pc c SSend) Hc) as Hsum.
    unfold call_rank at 2 4 in Hsum. rewrite Hpc in Hsum. simpl in Hsum.
    unfold register. simpl. destruct (st_queues s !! c_boundary c) as [q|] eqn:Hq.
    + unfold remaining, closer_rank. simpl. lia.
    + unfold remaining, closer_rank. simpl. rewrite (map_sum_insert_new queue_rank) by exact Hq.
      rewrite map_size_insert_None by exact Hq. unfold queue_rank at 1. simpl.
      destruct (st_closer s); lia.
  - destruct (st_queues s !! c_boundary c) as [q|] eqn:Hq; [|done].
    destruct (q_closed q); [done|]. case_match; [|done]. injection H as <-.
    pose proof (map_sum_insert call_rank _ _ _ (set_pc c SSent) Hc) as Hsum.
    unfold call_rank at 2 4 in Hsum. rewrite Hpc in Hsum. simpl in Hsum.
    pose proof (map_sum_insert queue_rank _ _ _ (mkQueue (q_buf q ++ [c_request c]) false
      (q_worker q) (q_sent q ++ [c_request c]) (q_flushes q)) Hq) as Hqs.
    unfold queue_rank at 2 4 in Hqs. simpl in Hqs. rewrite length_app in Hqs. simpl in Hqs.
    unfold remaining, closer_rank. simpl. rewrite map_size_insert_Some by eauto. lia.
  - injection H as <-. call_done Hpc.
  - destruct (c_ctx c); [|done]. injection H as <-.
    call_done Hpc.
  - injection H as <-. call_done Hpc.
  - injection H as <-. call_done Hpc.
  - destruct (c_ctx c); [|done]. injection H as <-.
    call_done Hpc.
  - destruct (c_result c); [|done]. injection H as <-.
    call_done Hpc.
Qed.

Lemma completions_length batch live r :
  length (completions batch live r) <= length batch + length live.
Proof.
  unfold completions, fail. destruct r as [| |outcomes]; rewrite ?length_fmap; try lia.
  case_bool_decide; [rewrite length_fmap; lia|]. rewrite length_zip, length_fmap. lia.
Qed.

Lemma remaining_worker s b q ch s' :
  st_closed s = true → st_queues s !! b = Some q → runWorker s b q ch = Next s' →
  remaining s' < remaining s.
Proof.
  intros Hcd Hq H. unfold runWorker, runFlush in H. rewrite Hcd in H.
  assert (∀ q', queue_rank q' < queue_rank q → remaining (set_queue s b q') < remaining s)
    as Hstep by (intros; by eapply remaining_queue).
  assert (∀ s1 id r q', deliver s id r = Some s1 → queue_rank q' < queue_rank q →
    remaining (set_queue s1 b q') < remaining s) as Hdel.
  { intros s1 id r q' Hd Hlt. apply remaining_deliver in Hd as [<- Hqs].
    eapply remaining_queue; [by rewrite Hqs|done]. }
  assert (∀ batch e, length (fail batch e) = length batch) as Hfail
    by (intros; unfold fail; by rewrite length_fmap).
  unfold queue_rank in Hstep, Hdel.
  destruct (q_worker q) as [|req|batch events|batch carry|batch todo live carry
    |batch live carry|todo carry stop|carry| |] eqn:Hw; simpl in Hstep, Hdel.
  - destruct ch; try done; [|injection H as <-; apply Hstep; simpl; lia].
    unfold receive in H. destruct (q_buf q) as [|r buf] eqn:Eb; [destruct (q_closed q); [|done]|];
      injection H as <-; apply Hstep; simpl; rewrite ?Eb; simpl; lia.
  - destruct ch; try done. injection H as <-. apply Hstep. simpl. lia.
  - destruct (drainBatch s q batch events ch) as [q'|] eqn:Hd; [|done]. injection H as <-.
    apply Hstep. unfold drainBatch, receive in Hd.
    repeat case_match; simplify_eq; simpl; unfold carry_size; rewrite ?length_app; simpl;
      repeat match goal with E : q_buf q = _ |- _ => rewrite E end; simpl; lia.
  - destruct ch; try done. injection H as <-. apply Hstep. simpl.
    rewrite Hfail, length_app. unfold carry_size. lia.
  - destruct todo as [|req todo], ch; try done.
    + injection H as <-. apply Hstep. destruct live; simpl; lia.
    + destruct (st_calls s !! rq_id req) as [c|]; [|done]. destruct (c_ctx c) as [e|].
      * destruct (deliver s (rq_id req) (Err e)) as [s1|] eqn:Hd; [|done]. injection H as <-.
        eapply Hdel; [done|]. simpl. lia.
      * injection H as <-. apply Hstep. simpl. rewrite length_app. simpl. lia.
  - destruct ch; try done. injection H as <-. apply Hstep. simpl.
    pose proof (completions_length batch live r). lia.
  - destruct todo as [|[req r] todo], ch; try done.
    + injection H as <-. apply Hstep. destruct stop; simpl; lia.
    + destruct (deliver s (rq_id req) r) as [s1|] eqn:Hd; [|done]. injection H as <-.
      eapply Hdel; [done|]. destruct stop; simpl; lia.
  - destruct ch; try done. injection H as <-. apply Hstep. simpl. rewrite Hfail.
    unfold carry_size. lia.
  - destruct ch; try done. unfold receive in H.
    destruct (q_buf q) as [|r buf] eqn:Eb; [destruct (q_closed q); [|done]|];
      injection H as <-; apply Hstep; simpl; rewrite ?Eb, ?Hfail; simpl; lia.
  - done.
Qed.

Lemma remaining_close s s' :
  st_closed s = true → inv s → Close s = Next s' → remaining s' < remaining s.
Proof.
  intros Hcd Hi H. apply (i_closed _ Hi) in Hcd. unfold Close in H.
  destruct (st_closer s) as [| | |qs|[|b qs]| |] eqn:Ec; try done.
  - destruct (st_lock s); [done|]. injection H as <-.
    unfold remaining, closer_rank. simpl. rewrite Ec. lia.
  - injection H as <-. unfold remaining, closer_rank. simpl. rewrite Ec.
    assert (length (elements (dom (st_queues s))) = size (st_queues s)) as ->
      by (rewrite <-size_dom; reflexivity). lia.
  - case_bool_decide; [|done]. injection H as <-.
    unfold remaining, closer_rank. simpl. rewrite Ec. lia.
  - injection H as <-. unfold remaining, closer_rank. simpl. rewrite Ec. simpl. lia.
  - destruct (st_queues s !! b) as [q|] eqn:Hq; [|done]. destruct (q_closed q); [done|].
    injection H as <-.
    pose proof (map_sum_insert queue_rank _ _ _ (mkQueue (q_buf q) true (q_worker q) (q_sent q)
      (q_flushes q)) Hq) as Hs. unfold queue_rank at 2 4 in Hs. simpl in Hs.
    unfold remaining, closer_rank. simpl. rewrite Ec. simpl. lia.
  - destruct (forallb _ _); [|done]. injection H as <-.
    unfold remaining, closer_rank. simpl. rewrite Ec. lia.
Qed.

Lemma deliver_closed s id r s' : deliver s id r = Some s' → st_closed s' = st_closed s.
Proof. unfold deliver. intros. by repeat case_match; simplify_eq. Qed.

Lemma step_closed s l s' : st_closed s = true → step s l = Next s' → st_closed s' = true.
Proof.
  intros Hcd H. destruct l; simpl in H; repeat case_match; simplify_eq; try done.
  - unfold Submit, register in H. repeat case_match; simplify_eq; done.
  - unfold runWorker, runFlush in H. repeat case_match; simplify_eq; try done;
      match goal with D : deliver _ _ _ = _ |- _ => apply deliver_closed in D end;
      simpl in *; congruence.
  - unfold Close in H. repeat case_match; simplify_eq; done.
Qed.

(** Every run of the goroutines from [s] reaches a state where [Close] returned. *)
Inductive close_returns : state → Prop :=
  | returned s : st_closer s = CDone → close_returns s
  | will_return s :
      moves s →
      (∀ l s', internal l = true → step s l = Next s' → close_returns s') → close_returns s.

(** C19: [Close] terminates. Once it has signalled, whatever the state of callers
and workers, the goroutines of the coordinator always have a step to take until
[Close] returns, and every sequence of their steps reaches its return. *)
Theorem close_terminates s :
  New_ok cfg = true → reachable s → st_closed s = true → close_returns s.
Proof.
  intros Hcfg Hr Hcd. remember (remaining s) as n eqn:Hn. revert s Hr Hcd Hn.
  induction (lt_wf n) as [n _ IH]. intros s Hr Hcd ->.
  pose proof (reachable_inv _ Hcfg Hr) as Hi.
  assert (st_closer s = CDone ∨ st_closer s ≠ CDone) as [Hd|Hd]
    by (destruct (st_closer s); auto); [by left|right].
  { apply close_moves; [done| |done]. by apply (i_closed _ Hi). }
  intros l s' Hl Hs. assert (remaining s' < remaining s) as Hlt.
  { destruct l; try done; simpl in Hs.
    - case_match eqn:Hc; [|done]. by eapply remaining_submit.
    - case_match eqn:Hq; [|done]. by eapply remaining_worker.
    - by eapply remaining_close. }
  eapply IH; [done|by eapply reach_step| |done].
  by eapply step_closed.
Qed.

(** Runs, to evaluate the coordinator on a schedule. *)
Fixpoint run (s : state) (ls : list label) : option state :=
  match ls with
  | [] => Some s
  | l :: ls => match step s l with Next s' => run s' ls | _ => None end
  end.

Lemma run_reachable s ls s' : reachable s → run s ls = Some s' → reachable s'.
Proof.
  revert s. induction ls as [|l ls IH]; simpl; intros s Hr H; [by simplify_eq|].
  case_match; try done. eapply IH; [|done]. by eapply reach_step.
Qed.

End Coordinator.

(** ** Configuration: [sqlite/group_commit.go], [postgres/group_commit.go] *)

Definition check_config (backend : string) (cfg : Config) : result Config :=
  if (MaxBatchRequests cfg <? 0)%Z
  then Err (PlainError (backend +:+ " group commit maxBatchRequests must be >= 0, got %d"))
  else if (MaxBatchEvents cfg <? 0)%Z
  then Err (PlainError (backend +:+ " group commit maxBatchEvents must be >= 0, got %d"))
  else if (MaxDelay cfg <? 0)%Z
  then Err (PlainError (backend +:+ " group commit maxDelay must be >= 0, got %s"))
  else if (MaxPending cfg <? 0)%Z
  then Err (PlainError (backend +:+ " group commit maxPending must be >= 0, got %d"))
  else if (FlushTimeout cfg <? 0)%Z
  then Err (PlainError (backend +:+ " group commit flushTimeout must be >= 0, got %s"))
  else Ok cfg.

Definition or_default (z d : Z) : Z := if (z =? 0)%Z then d else z.

(** Durations are nanoseconds. *)
Definition seconds (n : Z) : Z := n * 1000000000.

Definition normalizeGroupCommitConfig (cfg : Config) : result Config :=
  check_config "sqlite"
    (mkConfig (or_default (MaxBatchRequests cfg) 128) (or_default (MaxBatchEvents cfg) 1024)
       (or_default (MaxPending cfg) 4096) (MaxDelay cfg)
       (or_default (FlushTimeout cfg) (seconds 30))).

Definition normalizePostgresGroupCommitConfig (cfg : Config) : result Config :=
  check_config "postgres"
    (mkConfig (or_default (MaxBatchRequests cfg) 512) (or_default (MaxBatchEvents cfg) 1024)
       (or_default (MaxPending cfg) 4096) (MaxDelay cfg)
       (or_default (FlushTimeout cfg) (seconds 30))).

Lemma check_config_ok backend cfg cfg' :
  (MaxBatchRequests cfg ≠ 0 ∧ MaxBatchEvents cfg ≠ 0 ∧ MaxPending cfg ≠ 0
   ∧ FlushTimeout cfg ≠ 0)%Z →
  check_config backend cfg = Ok cfg' → New_ok cfg' = true ∧ cfg' = cfg.
Proof.
  intros Hnz H. unfold check_config in H. repeat case_match; try done. simplify_eq.
  split; [|done]. unfold New_ok. apply negb_true_iff. bool_props.
  rewrite !orb_false_iff, !Z.leb_gt, Z.ltb_ge. lia.
Qed.

Lemma or_default_nz z d : d ≠ 0%Z → or_default z d ≠ 0%Z.
Proof. unfold or_default. case_match; bool_props; lia. Qed.

(** A configuration that either backend accepts is one that the coordinator
accepts: [New] never panics on it, the bounds given are kept and the others get
their defaults; only negative settings are refused. *)
Theorem normalized_config_accepted cfg :
  (∀ cfg', normalizeGroupCommitConfig cfg = Ok cfg'
           ∨ normalizePostgresGroupCommitConfig cfg = Ok cfg' →
     New_ok cfg' = true ∧ MaxDelay cfg' = MaxDelay cfg
     ∧ (MaxBatchRequests cfg ≠ 0 → MaxBatchRequests cfg' = MaxBatchRequests cfg)%Z
     ∧ (MaxBatchEvents cfg ≠ 0 → MaxBatchEvents cfg' = MaxBatchEvents cfg)%Z
     ∧ (MaxPending cfg ≠ 0 → MaxPending cfg' = MaxPending cfg)%Z)
  ∧ ((0 <= MaxBatchRequests cfg ∧ 0 <= MaxBatchEvents cfg ∧ 0 <= MaxDelay cfg
      ∧ 0 <= MaxPending cfg ∧ 0 <= FlushTimeout cfg)%Z ↔
     ∃ cfg', normalizeGroupCommitConfig cfg = Ok cfg').
Proof.
  split.
  - intros cfg' [H|H].
    all: apply check_config_ok in H as [Hok ->];
      [|simpl; split_and!; apply or_default_nz; unfold seconds; lia].
    all: split_and!; [done|done|..]; simpl; unfold or_default; intros; case_match; bool_props; lia.
  - unfold normalizeGroupCommitConfig, check_config. simpl. split.
    + intros H. unfold or_default, seconds. repeat case_match; bool_props; try lia; eauto.
    + intros [cfg' H]. unfold or_default in H. repeat case_match; bool_props; try done; lia.
Qed.

(** ** Witnesses *)

Definition example_config : Config := mkConfig 2 10 4 0 (seconds 30).

(** One caller is served while another waits; then [Close] runs to its end. *)
Definition example_serve : list (@label string nat) :=
  [LCall 1 "orders" "p1" 3; LCall 2 "orders" "p2" 4]
  ++ (LSubmit 1 <$> [Go; Go; Go; Go; OnQueue; Go])
  ++ (LSubmit 2 <$> [Go; Go; Go; Go; OnQueue; Go])
  ++ (LWorker "orders" <$> [OnQueue; Go; OnQueue; Go; Go; Go; Go; Go;
                            Executed (ExecOk [7; 8]); Go; Go])
  ++ [LSubmit 1 OnResult].

Definition example_shutdown : list (@label string nat) :=
  example_serve ++ [LClose; LClose; LClose; LClose; LClose; LClose]
  ++ (LWorker "orders" <$> [Go; Go; Go; OnQueue]) ++ [LClose].

Definition example_state (ls : list (@label string nat)) : @state string nat :=
  default initial (run example_config initial ls).

Definition example_served : @state string nat :=
  Eval vm_compute in example_state example_serve.
Definition example_closed : @state string nat :=
  Eval vm_compute in example_state example_shutdown.

Lemma example_served_reachable : reachable example_config example_served.
Proof.
  apply (run_reachable example_config initial example_serve); [constructor|].
  vm_compute. reflexivity.
Qed.

Lemma example_closed_reachable : reachable example_config example_closed.
Proof.
  apply (run_reachable example_config initial example_shutdown); [constructor|].
  vm_compute. reflexivity.
Qed.

Lemma coordinator_no_panic_witness : step example_config example_closed LClose ≠ Panics.
Proof.
  apply coordinator_no_panic; [vm_compute; reflexivity|exact example_closed_reachable].
Defined.

Definition example_queue (s : @state string nat) : @queue string nat :=
  default (mkQueue [] false WIdle [] []) (st_queues s !! "orders").
Definition example_call : @call string nat :=
  default (mkCall "" (mkRequest 0 "" 0) None SEnter false None) (st_calls example_served !! 1).

Lemma executed_in_order_witness :
  concat (q_flushes (example_queue example_served)).*1
    `sublist_of` q_sent (example_queue example_served).
Proof.
  apply (executed_in_order example_config example_served "orders");
    [vm_compute; reflexivity|exact example_served_reachable|vm_compute; reflexivity].
Defined.

Lemma submit_own_outcome_witness : rq_id (c_request example_call) = 1.
Proof.
  apply (submit_own_outcome example_config example_served 1 example_call 7);
    [vm_compute; reflexivity|exact example_served_reachable|vm_compute; reflexivity..].
Defined.

Lemma close_settles_witness : q_buf (example_queue example_closed) = [].
Proof.
  apply (proj1 (close_settles example_config example_closed eq_refl example_closed_reachable
           eq_refl) "orders").
  vm_compute. reflexivity.
Defined.

Lemma close_terminates_witness :
  ∃ s, step example_config example_served LClose = Next s ∧ close_returns example_config s.
Proof.
  eexists. split; [reflexivity|]. apply close_terminates; [vm_compute; reflexivity| |reflexivity].
  apply (reach_step _ _ LClose _ example_served_reachable). reflexivity.
Defined.

Lemma normalized_config_accepted_witness :
  New_ok (mkConfig 128 1024 4096 0 (seconds 30)) = true.
Proof.
  apply (normalized_config_accepted (mkConfig 0 0 0 0 0)). left. vm_compute. reflexivity.
Defined.
