(* ===== verification/SqliteRead.v ===== *)
(** * Reads of the SQLite backend and its write entry points:
[SqliteGetEvents], [SqliteSaveEvents] of [sqlite/sqlite_eventstore.go],
[sqlite/write_context.go], [sqlite/group_commit.go],
[sqlite/group_commit_executor.go]

A boundary's database is the connection that the registry holds for it. *)

From stdpp Require Import options.
From S2P Require Import Prelude Status Model Number Json Predicates Consistency EventData.
From S2P Require Import WriteContext SqlPredicates Sql SqliteStore SqliteLog GroupCommit.

Set Default Proof Using "Type*".

(** [time.Parse] with a layout; instants are nanoseconds. Calendar arithmetic is
not modelled. *)
Class GoTime := { time_Parse : string → string → option Z }.

Definition RFC3339Nano : string := "2006-01-02T15:04:05.999999999Z07:00".

(** The connection of each boundary's database. *)
Notation Registry := (gmap string Conn).

Section Read.
Context `{J : GoJson, S : !GoJsonStored, T : SqlText, G : GoTime}.

Definition parseSQLiteEventTime (created : string) : result Z :=
  match time_Parse RFC3339Nano created with
  | Some t => Ok t
  | None =>
      match time_Parse "2006-01-02T15:04:05.000Z" created with
      | Some t => Ok t
      | None => Err (PlainError "unparseable date_created %q: %w")
      end
  end.

(** The columns of the read queries; [ColumnText] of NULL is empty. *)
Definition scanReadEventRow (r : Row) : result ReadEvent :=
  created ← parseSQLiteEventTime (default "" (row_date_created r));
  mret {| RE_WriteId := default "" (text_field (row_doc r) "__writeId");
          RE_EventId := default "" (text_field (row_doc r) "__eventId");
          RE_EventType := default "" (text_field (row_doc r) "__eventType");
          RE_Data := WithoutStorageEnvelope (row_data r);
          RE_Metadata := from_option arrow_text "" (row_doc r !! "__metadata");
          RE_CommitPosition := CommitPosition (row_pos r);
          RE_PreparePosition := PreparePosition (row_pos r);
          RE_DateCreated := created |}.

(** ** [GetBatch] *)

Definition row_le (r s : Row) : Prop := pos_le (row_pos r) (row_pos s).
#[export] Instance row_le_dec : RelDecision row_le.
Proof. intros r s. unfold row_le. apply _. Defined.

(** [SELECT ... WHERE w AND position op from ORDER BY position dir LIMIT n]. *)
Definition in_range (dir : Direction) (from : option Position) (r : Row) : bool :=
  match from with
  | None => true
  | Some p => match dir with
              | Direction_ASC => bool_decide (pos_le p (row_pos r))
              | Direction_DESC => bool_decide (pos_le (row_pos r) p)
              end
  end.

Definition select_rows (w : where_clause) (from : option Position) (dir : Direction)
    (limit : nat) (t : Tables) : result (list Row * Tables) :=
  let found := filter (λ r, where_holds (row_doc r) w && in_range dir from r = true)
                 (t_events t) in
  let sorted := match dir with
                | Direction_ASC => merge_sort row_le found
                | Direction_DESC => merge_sort row_ge found
                end in
  Ok (take limit sorted, t).

(** [ResultFunc] is called for each row; its first error ends the query. *)
Definition query_rows (w : where_clause) (from : option Position) (dir : Direction)
    (limit : nat) : stm (list ReadEvent) :=
  rows ← Execute (select_rows w from dir limit);
  stm_lift (mapM scanReadEventRow rows).

Definition batch_count (count : Z) : Z :=
  let count := if (count =? 0)%Z then DefaultReadBatchSize else count in
  if (MaxReadBatchSize <? count)%Z then MaxReadBatchSize else count.


(** The clause of the request; [None] dereferences a nil pointer. *)
Definition request_where (query : option Query) : option (result where_clause) :=
  match query with
  | Some q => if bool_decide (Query_Criteria q = []) then Some (Ok [])
              else buildCriteriaSQL <$> EncodeQueryCriteria (Some q)
  | None => Some (Ok [])
  end.

(** [take] is the error of [pool.Read.Take], if any. *)
Definition GetBatch (pools : Registry) (take : option goerror)
    (req : option GetEventsRequest) : result (list ReadEvent) :=
  match req with
  | None => Err (New InvalidArgument "get events request is required")
  | Some req =>
      _ ← ValidateQuery (GE_Query req);
      match pools !! GE_Boundary req, take with
      | None, _ => Err (Errorf InvalidArgument "unknown boundary: %s")
      | _, Some _ => Err (Errorf Internal "take read conn: %v")
      | Some conn, None =>
          match request_where (GE_Query req) with
          | None => Err (PlainError "nil pointer dereference")
          | Some (Err _) => Err (Errorf InvalidArgument "invalid criteria: %v")
          | Some (Ok w) =>
              match query_rows w (GE_FromPosition req) (GE_Direction req)
                      (Z.to_nat (batch_count (GE_Count req))) conn with
              | (Err _, _) => Err (Errorf Internal "query events: %v")
              | (Ok batch, _) => Ok batch
              end
          end
      end
  end.

(** ** [GetLatestByCriteria] *)

(** The loop over the criteria, inside one read transaction. *)
Fixpoint latest_loop (criteria : list ReadCriterion) (found : bool) (context : Position)
  : stm (list (option ReadEvent) * Position) :=
  match criteria with
  | [] => mret ([], context)
  | criterion :: criteria =>
      let anded := EncodeCriterion (Tags criterion) in
      if decide (anded = ∅)
      then stm_fail (Errorf InvalidArgument "criterion has no tags")
      else match buildCriteriaSQL [anded] with
           | Err _ => stm_fail (Errorf InvalidArgument "invalid criteria: %v")
           | Ok w =>
               rows ← map_err (λ _, Errorf Internal "query latest by criteria: %v")
                        (query_rows w None Direction_DESC 1);
               match rows with
               | event :: _ =>
                   let '(found, context) :=
                     if negb found
                        || (CommitPosition context <? RE_CommitPosition event)%Z
                        || ((RE_CommitPosition event =? CommitPosition context)%Z
                            && (PreparePosition context <? RE_PreparePosition event)%Z)
                     then (true, RE_Position event) else (found, context) in
                   '(rest, context) ← latest_loop criteria found context;
                   mret (Some event :: rest, context)
               | [] =>
                   '(rest, context) ← latest_loop criteria found context;
                   mret (None :: rest, context)
               end
           end
  end.

Definition GetLatestByCriteria (pools : Registry) (take begin : option goerror)
    (query : LatestByCriteriaQuery) : result LatestByCriteriaBatch :=
  _ ← ValidateReadCriteria (LQ_Criteria query);
  match pools !! LQ_Boundary query with
  | None => Err (Errorf InvalidArgument "unknown boundary: %s")
  | Some conn =>
      if bool_decide (LQ_Criteria query = [])
      then Err (Errorf InvalidArgument "at least one criterion is required")
      else match take, begin with
           | Some _, _ => Err (Errorf Internal "take read conn: %v")
           | _, Some _ => Err (Errorf Internal "begin read tx: %v")
           | None, None =>
               '(matches, context) ←
                 (latest_loop (LQ_Criteria query) false NotExistsPosition conn).1;
               mret (mkLatestByCriteriaBatch matches
                       (CommitPosition context) (PreparePosition context))
           end
  end.

(** ** [GetWriteContext] *)

Definition select_write (id : Position) (t : Tables) : result (option string * Tables) :=
  Ok (match t_writes t !! PreparePosition id with
      | Some consistency =>
          if existsb (λ r, bool_decide (row_global_id r = Some (PreparePosition id)
                                        ∧ row_transaction_id r = Some (CommitPosition id)))
               (t_events t)
          then Some consistency else None
      | None => None
      end, t).

Definition GetWriteContext (pools : Registry) (take : option goerror)
    (req : option GetWriteContextRequest) : result WriteContext :=
  id ← ValidateWriteContextRequest req;
  match req with
  | None => Err invalid_write_id
  | Some req =>
      match pools !! GWC_Boundary req, take with
      | None, _ => Err (Errorf InvalidArgument "unknown boundary: %s")
      | _, Some e => Err e
      | Some conn, None =>
          match Execute (select_write id) conn with
          | (Err _, _) => Err (Errorf Internal "read write context: %v")
          | (Ok None, _) => Err (New NotFound "write context not found")
          | (Ok (Some consistency), _) =>
              match DecodeWriteContext (GWC_WriteId req) consistency with
              | Err _ => Err (Errorf Internal "read write context: %v")
              | Ok context => Ok context
              end
          end
      end
  end.

(** ** Writes *)

Context `{X : Sqlitex}.

(** [executeBatch]: the outcomes, the registry after the flush, and whether the
notifier is called. *)
Definition executeBatch (pools : Registry) (take : option goerror) (boundary : string)
    (live : list preparedSQLiteSave)
  : result (list sqliteSaveResult) * Registry * bool :=
  match pools !! boundary with
  | None => (Err (Errorf InvalidArgument "unknown boundary: %s"), pools, false)
  | Some conn =>
      if bool_decide (live = []) then (Ok [], pools, false)
      else match take with
           | Some e => (Err (Wrapped "take write conn: %w" e), pools, false)
           | None =>
               match executeTransaction live conn with
               | (Err e, conn') => (Err e, <[boundary := conn']> pools, false)
               | (Ok outcomes, conn') =>
                   let accepted :=
                     length (filter (λ o, sr_err o = None) outcomes) in
                   (Ok outcomes, <[boundary := conn']> pools, bool_decide (0 < accepted))
               end
           end
  end.

Definition errSaverClosed : goerror := New Unavailable "sqlite event saver is shut down".

(** [enqueue]: [submit] is what the coordinator's [Submit] returns for the prepared
request, [ctxErr] what [ctx.Err()] returns afterwards. *)
Definition enqueue (ctx : option goerror) (now : string) (inserts : list PreparedEvent)
    (consistency : list ConsistencyCheck)
    (submit : preparedSQLiteSave → Z → result sqliteSaveResult) (ctxErr : option goerror)
  : result (string * Z) :=
  prepared ← prepareSQLiteSave ctx now inserts consistency;
  match submit prepared (Z.of_nat (length (ps_inserts prepared))) with
  | Err e =>
      if errors_Is e ErrClosed then Err errSaverClosed
      else match ctxErr with
           | Some ce => Err (FromContextError ce)
           | None => Err (Errorf Internal "%v")
           end
  | Ok res =>
      match sr_err res with
      | Some e => Err e
      | None => Ok (sr_transactionID res, sr_globalID res)
      end
  end.

Definition SavePrepared (pools : Registry) (ctx : option goerror) (now : string)
    (events : list PreparedEvent) (boundary : string) (consistency : list ConsistencyCheck)
    (submit : preparedSQLiteSave → Z → result sqliteSaveResult) (ctxErr : option goerror)
  : result (string * Z) :=
  if bool_decide (events = []) then Err (Errorf InvalidArgument "events cannot be empty")
  else match pools !! boundary with
       | None => Err (Errorf InvalidArgument "unknown boundary: %s")
       | Some _ => enqueue ctx now events consistency submit ctxErr
       end.

End Read.

(** ** Order of the rows that a query returns *)

Definition row_lt (r s : Row) : Prop := pos_lt (row_pos r) (row_pos s).

#[export] Instance row_le_total : Total row_le.
Proof. intros r s. unfold row_le. apply total, _. Qed.
#[export] Instance row_le_trans : Transitive row_le.
Proof. intros r s u Hrs Hsu. unfold row_le in *. by transitivity (row_pos s). Qed.

Lemma log_sorted t n : log_at t n → StronglySorted row_lt (t_events t).
Proof. intros Hl. apply StronglySorted_lookup. intros. by eapply log_pos_increasing. Qed.

Lemma row_lt_member l r s :
  StronglySorted row_lt l → r ∈ l → s ∈ l → row_pos r = row_pos s → r = s.
Proof.
  induction 1 as [|x l Hs IH Hf]; intros Hr Hsl He; [by apply elem_of_nil in Hr|].
  rewrite Forall_forall in Hf.
  assert (∀ y, y ∈ l → row_pos x ≠ row_pos y) as Hne.
  { intros y Hy E. apply Hf in Hy. unfold row_lt in Hy. rewrite E in Hy.
    by apply pos_lt_irrefl in Hy. }
  apply elem_of_cons in Hr as [->|Hr], Hsl as [->|Hsl]; [done| | |auto].
  - by destruct (Hne s Hsl).
  - by destruct (Hne r Hr).
Qed.

(** Rows already in log order are returned in that order, or in its reverse. *)
Lemma sort_log_asc l : StronglySorted row_lt l → merge_sort row_le l = l.
Proof.
  intros Hs. apply (StronglySorted_unique_strong row_le).
  - intros x y Hx Hy Hxy Hyx. rewrite merge_sort_Permutation in Hx.
    apply (row_lt_member l); [done..|]. by apply (anti_symm pos_le).
  - apply (StronglySorted_merge_sort _).
  - eapply StronglySorted_mono; [|done]. intros. by left.
  - apply merge_sort_Permutation.
Qed.

Lemma sort_log_desc l : StronglySorted row_lt l → merge_sort row_ge l = reverse l.
Proof.
  intros Hs. apply (StronglySorted_unique_strong row_ge).
  - intros x y Hx Hy Hxy Hyx. rewrite merge_sort_Permutation in Hx.
    rewrite elem_of_reverse in Hy.
    apply (row_lt_member l); [done..|]. by apply (anti_symm pos_le).
  - apply (StronglySorted_merge_sort _).
  - eapply StronglySorted_mono; [|by apply StronglySorted_reverse]. intros x y H. by left.
  - by rewrite merge_sort_Permutation, reverse_Permutation.
Qed.

Section ReadFacts.
Context `{J : GoJson, S : !GoJsonStored, T : SqlText, G : GoTime}.

(** What a query returns from the log: the matching events in the order asked. *)
Definition ordered (dir : Direction) (l : list Row) : list Row :=
  match dir with Direction_ASC => l | Direction_DESC => reverse l end.

Definition matching (P : gmap string json → bool) (dir : Direction)
    (from : option Position) (t : Tables) : list Row :=
  filter (λ r, P (row_doc r) && in_range dir from r = true) (t_events t).

Lemma select_rows_log w P from dir limit t n :
  log_at t n → (∀ doc, where_holds doc w = P doc) →
  select_rows w from dir limit t = Ok (take limit (ordered dir (matching P dir from t)), t).
Proof.
  intros Hl Hw. unfold select_rows, ordered, matching.
  assert (filter (λ r, where_holds (row_doc r) w && in_range dir from r = true) (t_events t)
    = filter (λ r, P (row_doc r) && in_range dir from r = true) (t_events t)) as ->.
  { apply list_filter_iff. intros r. by rewrite Hw. }
  pose proof (log_sorted t n Hl) as Hs.
  destruct dir; [rewrite sort_log_asc|rewrite sort_log_desc]; try done;
    by apply StronglySorted_filter.
Qed.

(** ** Validated requests *)

Lemma validate_tags_valid tags ts :
  validate_tags tags = Ok tt → mapM (λ t, t) tags = Some ts →
  Forall valid_tag (read_tag <$> ts).
Proof.
  revert ts. induction tags as [|[t|] tags IH]; intros ts Hv Hm; simpl in *; [|inv_ok|done].
  - injection Hm as <-. constructor.
  - destruct x. destruct (mapM (λ t, t) tags) as [us|] eqn:E; [|done].
    injection Hm as <-. rewrite fmap_cons. constructor; [done|]. by apply IH.
Qed.

Lemma validate_tags_present tags :
  validate_tags tags = Ok tt → ∃ ts, mapM (λ t, t) tags = Some ts.
Proof.
  induction tags as [|[t|] tags IH]; intros Hv; simpl in *; [by eexists|inv_ok|done].
  destruct IH as [ts ->]; [done|]. by eexists.
Qed.

(** The criteria of a validated query, with its pointers followed. *)
Definition query_criteria (query : option Query) : option (list ReadCriterion) :=
  match query with
  | None => Some []
  | Some q => mapM read_criterion (Query_Criteria q)
  end.

Lemma ValidateQuery_criteria query :
  ValidateQuery query = Ok tt →
  ∃ cs, query_criteria query = Some cs ∧ Forall (λ c, Forall valid_tag (Tags c)) cs.
Proof.
  destruct query as [[criteria]|]; simpl; [|by eexists].
  induction criteria as [|[c|] criteria IH]; intros Hv; simpl in *; [by eexists|inv_ok|done].
  destruct x. destruct (validate_tags_present _ H) as [ts Hts].
  destruct (IH Hv) as (cs & Hcs & Hf). rewrite Hts. simpl. rewrite Hcs. simpl.
  eexists. split; [done|]. constructor; [|done]. simpl. by eapply validate_tags_valid.
Qed.

(** The clause of several criteria is their disjunction. *)
Lemma criterion_sql_total tags :
  Forall valid_tag tags →
  ∃ ps, criterion_sql (EncodeCriterion tags) = Ok ps
    ∧ (ps = [] ↔ tags = [])
    ∧ ∀ doc, forallb (predicate_holds doc) ps = forallb (tag_sql_holds doc) tags.
Proof.
  intros Hv. destruct (buildCriteriaSQL_total tags Hv) as [w Hw].
  unfold buildCriteriaSQL in Hw. simpl in Hw.
  destruct (criterion_sql (EncodeCriterion tags)) as [ps|] eqn:E; [|done].
  exists ps. split; [done|]. unfold criterion_sql in E. split.
  - destruct (mapM_render_holds ∅ _ _ E) as [_ Hlen].
    rewrite <-EncodeCriterion_empty, <-map_to_list_empty_iff.
    rewrite <-!length_zero_iff_nil, Hlen. by rewrite sorted_entries_Permutation.
  - intros doc. destruct (mapM_render_holds doc _ _ E) as [-> _].
    rewrite <-(fields_hold_encoded doc tags Hv). unfold fields_hold.
    apply forallb_ext_elem. intros kv. by rewrite sorted_entries_Permutation.
Qed.

Lemma buildCriteriaSQL_context criteria :
  Forall (λ c, Forall valid_tag (Tags c)) criteria →
  ∃ w, buildCriteriaSQL (EncodeReadCriteria criteria) = Ok w
    ∧ ∀ doc, where_holds doc w = context_matches criteria doc.
Proof.
  intros Hv. unfold buildCriteriaSQL, EncodeReadCriteria. rewrite mapM_fmap_l.
  assert (∃ pss, mapM (λ c, criterion_sql (EncodeCriterion (Tags c))) criteria = Ok pss
    ∧ (∀ doc, existsb (forallb (predicate_holds doc)) (filter (λ ps, ps ≠ []) pss)
        = existsb (λ c, forallb (tag_sql_holds doc) (Tags c))
            (filter (λ c, Tags c ≠ []) criteria))
    ∧ (filter (λ ps, ps ≠ []) pss = [] ↔ filter (λ c, Tags c ≠ []) criteria = []))
    as (pss & -> & Hh & Hn).
  { induction Hv as [|c cs Hc _ (pss & Hp & Hh & Hn)]; [by exists []|].
    destruct (criterion_sql_total (Tags c) Hc) as (ps & Hps & He & Hd).
    exists (ps :: pss). rewrite mapM_cons, Hps. cbn [mbind result_bind]. rewrite Hp.
    split; [done|]. rewrite !filter_cons.
    destruct (decide (Tags c ≠ [])) as [Hne|Hnil].
    - rewrite decide_True by naive_solver. split; [|done].
      intros doc. simpl. by rewrite Hd, Hh.
    - rewrite decide_False by naive_solver. done. }
  eexists. split; [done|]. intros doc. unfold where_holds, context_matches.
  specialize (Hh doc). destruct (filter (λ ps, ps ≠ []) pss) as [|p ps] eqn:E1,
    (filter (λ c, Tags c ≠ []) criteria) as [|c cs] eqn:E2; [done| | |done].
  - by destruct Hn as [? _]; naive_solver.
  - by destruct Hn as [_ ?]; naive_solver.
Qed.

(** The clause that a validated request reads with. *)
Lemma request_where_ok query :
  ValidateQuery query = Ok tt →
  ∃ cs w, query_criteria query = Some cs ∧ request_where query = Some (Ok w)
    ∧ ∀ doc, where_holds doc w = context_matches cs doc.
Proof.
  intros (cs & Hcs & Hv)%ValidateQuery_criteria. exists cs.
  destruct query as [q|]; simpl in *.
  2:{ injection Hcs as <-. exists []. split_and!; done. }
  case_bool_decide as Hq.
  - rewrite Hq in *. injection Hcs as <-. exists []. split_and!; done.
  - destruct (buildCriteriaSQL_context cs Hv) as (w & Hw & Hh).
    exists w. rewrite Hcs. simpl. by rewrite Hw.
Qed.

Lemma GetBatch_sound pools conn req batch :
  pools !! GE_Boundary req = Some conn → log_inv (c_tables conn) →
  GetBatch pools None (Some req) = Ok batch →
  ∃ cs, query_criteria (GE_Query req) = Some cs
    ∧ mapM scanReadEventRow
        (take (Z.to_nat (batch_count (GE_Count req)))
           (ordered (GE_Direction req)
              (matching (context_matches cs) (GE_Direction req) (GE_FromPosition req)
                 (c_tables conn)))) = Ok batch.
Proof.
  intros Hp Hl H. unfold GetBatch in H. rewrite Hp in H.
  apply result_bind_ok in H as ([] & Hv & H).
  destruct (request_where_ok _ Hv) as (cs & w & Hcs & Hw & Hh). rewrite Hw in H.
  exists cs. split; [done|].
  destruct (query_rows _ _ _ _ conn) as [[b|] c'] eqn:E; [|done]. injection H as <-.
  unfold query_rows in E. apply stm_bind_ok in E as (rows & c1 & He & E). apply Execute_ok in He.
  rewrite (select_rows_log _ _ _ _ _ _ _ Hl Hh) in He. injection He as <- _.
  by injection E.
Qed.

Lemma GetBatch_total pools conn req :
  pools !! GE_Boundary req = Some conn → log_inv (c_tables conn) →
  clean conn → ValidateQuery (GE_Query req) = Ok tt →
  (∀ r, r ∈ t_events (c_tables conn) → ∃ e, scanReadEventRow r = Ok e) →
  ∃ batch, GetBatch pools None (Some req) = Ok batch.
Proof.
  intros Hp Hl Hc Hv Hscan. unfold GetBatch. rewrite Hp, Hv. cbn [mbind result_bind].
  destruct (request_where_ok _ Hv) as (cs & w & Hcs & Hw & Hh). rewrite Hw.
  unfold query_rows. rewrite stm_bind_eq, Execute_clean by apply Hc.
  rewrite (select_rows_log _ _ _ _ _ _ _ Hl Hh). unfold stm_lift.
  assert (∀ l, (∀ r, r ∈ l → r ∈ t_events (c_tables conn)) →
    ∃ es, mapM scanReadEventRow l = Ok es) as Hm.
  { induction l as [|r l IH]; intros Hin; [by eexists|]. rewrite mapM_cons.
    destruct (Hscan r) as [e ->]; [apply Hin; left|].
    destruct IH as [es ->]; [intros; apply Hin; by right|]. by eexists. }
  destruct (Hm (take (Z.to_nat (batch_count (GE_Count req)))
    (ordered (GE_Direction req) (matching (context_matches cs) (GE_Direction req)
       (GE_FromPosition req) (c_tables conn))))) as [es ->]; [|by eexists].
  intros r Hr. apply elem_of_take in Hr as (i & Hi & _).
  apply list_elem_of_lookup_2 in Hi. unfold ordered, matching in Hi.
  destruct (GE_Direction req); [|rewrite elem_of_reverse in Hi];
    by apply list_elem_of_filter in Hi as [_ ?].
Qed.

(** A batch read is exact. On a log that satisfies its invariant, what
[GetBatch] returns are the first events, in the direction asked and up to the
bounded count, among those from the position given on which some criterion of
the query holds; none is skipped, repeated or reordered. On a working database
every valid request over rows with readable dates is answered. *)
Theorem GetBatch_exact pools conn req :
  pools !! GE_Boundary req = Some conn → log_inv (c_tables conn) →
  (∀ batch, GetBatch pools None (Some req) = Ok batch →
     ∃ cs, query_criteria (GE_Query req) = Some cs
       ∧ mapM scanReadEventRow
           (take (Z.to_nat (batch_count (GE_Count req)))
              (ordered (GE_Direction req)
                 (matching (context_matches cs) (GE_Direction req) (GE_FromPosition req)
                    (c_tables conn)))) = Ok batch)
  ∧ (clean conn → ValidateQuery (GE_Query req) = Ok tt →
     (∀ r, r ∈ t_events (c_tables conn) → ∃ e, scanReadEventRow r = Ok e) →
     ∃ batch, GetBatch pools None (Some req) = Ok batch).
Proof.
  intros Hp Hl. split.
  - intros batch H. by apply (GetBatch_sound _ conn) in H.
  - intros Hc Hv Hscan. by eapply GetBatch_total.
Qed.

(** ** The latest event of each criterion *)

(** [e] is what is read from the last event that satisfies [P], if there is one. *)
Definition latest_match (t : Tables) (P : gmap string json → bool) (e : option ReadEvent)
  : Prop :=
  match e with
  | None => ∀ r, r ∈ t_events t → P (row_doc r) = false
  | Some e => ∃ r, r ∈ t_events t ∧ P (row_doc r) = true ∧ scanReadEventRow r = Ok e
      ∧ ∀ s, s ∈ t_events t → P (row_doc s) = true → pos_le (row_pos s) (row_pos r)
  end.

Lemma scan_position r e : scanReadEventRow r = Ok e → RE_Position e = row_pos r.
Proof.
  unfold scanReadEventRow. intros H. inv_ok. unfold mret, result_ret in H.
  injection H as <-. reflexivity.
Qed.

Lemma latest_query_match w P conn rows c' n :
  log_at (c_tables conn) n → (∀ doc, where_holds doc w = P doc) →
  query_rows w None Direction_DESC 1 conn = (Ok rows, c') →
  c_tables c' = c_tables conn
  ∧ match rows with
    | [] => latest_match (c_tables conn) P None
    | e :: _ => latest_match (c_tables conn) P (Some e)
    end.
Proof.
  intros Hl Hw H. unfold query_rows in H. apply stm_bind_ok in H as (rs & c1 & He & H).
  apply Execute_ok in He. rewrite (select_rows_log _ _ _ _ _ _ _ Hl Hw) in He.
  injection He as Hrs Ht. unfold stm_lift in H. injection H as H <-. split; [done|].
  set (l := matching P Direction_DESC None (c_tables conn)) in Hrs.
  assert (∀ r, r ∈ l ↔ P (row_doc r) = true ∧ r ∈ t_events (c_tables conn)) as Hin.
  { intros r. unfold l, matching. rewrite list_elem_of_filter. simpl.
    by rewrite andb_true_r. }
  assert (StronglySorted row_lt l) as Hs by (by eapply StronglySorted_filter, log_sorted).
  apply StronglySorted_reverse in Hs. unfold ordered in Hrs.
  assert (∀ r, r ∈ reverse l ↔ P (row_doc r) = true ∧ r ∈ t_events (c_tables conn)) as Hin'
    by (intros r; by rewrite elem_of_reverse).
  destruct (reverse l) as [|r rest]; simpl in Hrs; subst rs.
  - injection H as <-. intros r Hr. destruct (P (row_doc r)) eqn:E; [|done].
    assert (r ∈ ([] : list Row)) as Hnil by (by apply Hin'). by apply elem_of_nil in Hnil.
  - destruct (scanReadEventRow r) as [e|] eqn:Hscan; [|by rewrite mapM_cons, Hscan in H].
    rewrite mapM_cons, Hscan in H. injection H as <-.
    destruct (Hin' r) as [Hr _]. destruct Hr as [HP Hr]; [left|].
    exists r. split_and!; [done..|]. intros s Hs1 Hs2.
    assert (s ∈ r :: rest) as [->|Hsr]%elem_of_cons by (by apply Hin'); [by right|].
    apply StronglySorted_inv in Hs as [_ Hall]. rewrite Forall_forall in Hall.
    left. by apply Hall.
Qed.

(** A latest match moves the context position as [is_context] asks. *)
Lemma latest_match_context t n P Q p e :
  log_at t n → is_context t P p → latest_match t Q e →
  is_context t (λ doc, P doc || Q doc)
    match e with
    | Some e => if bool_decide (pos_lt p (RE_Position e)) then RE_Position e else p
    | None => p
    end.
Proof.
  intros Hl Hp Hm. destruct e as [e|].
  - destruct Hm as (r & Hr & HQ & Hscan & Hmax). rewrite (scan_position _ _ Hscan).
    case_bool_decide as Hlt.
    + right. exists r. rewrite HQ, orb_true_r. split_and!; [done..|].
      intros s Hs [HP|HQs]%orb_true_iff; [|by apply Hmax].
      apply (is_context_ge _ _ _ _ _ Hl Hp Hs) in HP. transitivity p; [done|by left].
    + apply pos_not_lt in Hlt. destruct Hp as [[-> Hn]|(s & Hs & HP & <- & Hm)].
      * exfalso. pose proof (log_pos_positive _ _ _ Hl Hr) as Hpos.
        by apply (pos_not_lt NotExistsPosition) in Hlt.
      * right. exists s. rewrite HP. split_and!; [done..|].
        intros u Hu [HPu|HQu]%orb_true_iff; [by apply Hm|].
        transitivity (row_pos r); [by apply Hmax|done].
  - destruct Hp as [[-> Hn]|(s & Hs & HP & <- & Hmx)].
    + left. split; [done|]. intros r Hr. by rewrite Hn, Hm.
    + right. exists s. rewrite HP. split_and!; [done..|].
      intros u Hu [HPu|HQu]%orb_true_iff; [by apply Hmx|]. by rewrite Hm in HQu.
Qed.

Definition tags_hold (c : ReadCriterion) (doc : gmap string json) : bool :=
  forallb (tag_sql_holds doc) (Tags c).

Lemma latest_loop_sound criteria found context conn matches p c' n P :
  log_at (c_tables conn) n → Forall (λ c, Forall valid_tag (Tags c)) criteria →
  is_context (c_tables conn) P context → (found = false → context = NotExistsPosition) →
  latest_loop criteria found context conn = (Ok (matches, p), c') →
  Forall2 (λ c e, Tags c ≠ [] ∧ latest_match (c_tables conn) (tags_hold c) e) criteria matches
  ∧ is_context (c_tables conn) (λ doc, P doc || existsb (λ c, tags_hold c doc) criteria) p.
Proof.
  intros Hl Hv. revert found context conn matches c' P Hl.
  induction Hv as [|c cs Hc _ IH]; intros found context conn matches c' P Hl Hp Hf H;
    cbn [latest_loop] in H.
  - injection H as <- <- <-. split; [constructor|]. eapply is_context_ext; [|exact Hp].
    intros doc. simpl. by rewrite orb_false_r.
  - case_decide as Hemp; [done|]. destruct (buildCriteriaSQL_total (Tags c) Hc) as [w Hw].
    rewrite Hw in H. destruct (buildCriteriaSQL_one _ _ Hemp Hw) as [_ Hh].
    assert (∀ doc, where_holds doc w = tags_hold c doc) as Hh'.
    { intros doc. rewrite Hh. by apply fields_hold_encoded. }
    apply stm_bind_ok in H as (rows & c1 & Hq & H). unfold map_err in Hq.
    destruct (query_rows w None Direction_DESC 1 conn) as [[rows'|] c2] eqn:E; [|done].
    injection Hq as -> ->. destruct (latest_query_match _ _ _ _ _ _ Hl Hh' E) as [Ht Hm].
    assert (Tags c ≠ []) as Hne by (by rewrite <-EncodeCriterion_empty).
    assert (∀ (e : option ReadEvent) p', latest_match (c_tables conn) (tags_hold c) e →
      p' = match e with
           | Some e => if bool_decide (pos_lt context (RE_Position e)) then RE_Position e
                       else context
           | None => context
           end →
      ∀ found' rest c3, latest_loop cs found' p' c1 = (Ok (rest, p), c3) →
      (found' = false → p' = NotExistsPosition) →
      Forall2 (λ c e, Tags c ≠ [] ∧ latest_match (c_tables conn) (tags_hold c) e)
        (c :: cs) (e :: rest)
      ∧ is_context (c_tables conn)
          (λ doc, P doc || existsb (λ c, tags_hold c doc) (c :: cs)) p) as Hstep.
    { intros e p' Hme -> found' rest c3 Hloop Hf'.
      pose proof (latest_match_context _ _ _ _ _ _ Hl Hp Hme) as Hctx.
      rewrite <-Ht in Hl, Hctx.
      destruct (IH _ _ c1 _ _ (λ doc, P doc || tags_hold c doc) Hl Hctx Hf' Hloop)
        as [Hms Hfin].
      rewrite Ht in Hms, Hfin. split; [by constructor|].
      eapply is_context_ext; [|exact Hfin]. intros doc. simpl. by rewrite orb_assoc. }
    destruct rows as [|e rest].
    + apply stm_bind_ok in H as ([rest p'] & c3 & Hloop & H). injection H as <- <- <-.
      by eapply (Hstep None).
    + assert ((negb found
        || (CommitPosition context <? RE_CommitPosition e)%Z
        || ((RE_CommitPosition e =? CommitPosition context)%Z
            && (PreparePosition context <? RE_PreparePosition e)%Z))
        = bool_decide (pos_lt context (RE_Position e))) as Hb.
      { apply eq_iff_eq_true. rewrite bool_decide_eq_true.
        pose proof (positionValuesAfter_spec (RE_CommitPosition e) (RE_PreparePosition e)
          (CommitPosition context) (PreparePosition context)) as Ha.
        destruct found; simpl.
        - unfold positionValuesAfter in Ha. rewrite Ha. by destruct context.
        - split; [intros _|done]. rewrite (Hf eq_refl). destruct Hm as (r & Hr & _ & Hs & _).
          rewrite (scan_position _ _ Hs). by eapply log_pos_positive. }
      rewrite Hb in H. case_bool_decide as Hlt;
        apply stm_bind_ok in H as ([rest' p'] & c3 & Hloop & H); injection H as <- <- <-.
      * eapply (Hstep (Some e)); [done| |done|done]. by rewrite bool_decide_true.
      * eapply (Hstep (Some e)); [done| |done|done]. by rewrite bool_decide_false.
Qed.

Lemma validate_read_tags_valid tags :
  validate_read_tags tags = Ok tt → Forall valid_tag tags.
Proof.
  induction tags as [|t ts IH]; intros H; simpl in H; [constructor|].
  inv_ok. destruct x. constructor; [done|]. by apply IH.
Qed.

Lemma ValidateReadCriteria_tags criteria :
  ValidateReadCriteria criteria = Ok tt → Forall (λ c, Forall valid_tag (Tags c)) criteria.
Proof.
  induction criteria as [|c cs IH]; intros H; simpl in H; [constructor|].
  inv_ok. destruct x. constructor; [by apply validate_read_tags_valid|]. by apply IH.
Qed.

Lemma GetLatestByCriteria_sound pools conn query b :
  pools !! LQ_Boundary query = Some conn → log_inv (c_tables conn) →
  GetLatestByCriteria pools None None query = Ok b →
  Forall (λ c, Forall valid_tag (Tags c)) (LQ_Criteria query)
  ∧ Forall2 (λ c e, latest_match (c_tables conn) (tags_hold c) e)
      (LQ_Criteria query) (LB_Matches b)
  ∧ is_context (c_tables conn) (context_matches (LQ_Criteria query)) (LB_ContextPosition b).
Proof.
  intros Hp Hl H. unfold GetLatestByCriteria in H.
  apply result_bind_ok in H as ([] & Hv%ValidateReadCriteria_tags & H). rewrite Hp in H.
  case_bool_decide as Hne; [done|]. apply result_bind_ok in H as ([ms p] & Hloop & H).
  injection H as <-. unfold LB_ContextPosition. simpl.
  destruct (latest_loop _ _ _ conn) as [r c'] eqn:E. simpl in Hloop. subst r.
  apply (latest_loop_sound _ _ _ _ _ _ _ _ (λ _, false) Hl Hv (context_empty _)) in E
    as [Hms Hctx]; [|done].
  split_and!; [done| |].
  - clear -Hms. induction Hms as [|c e cs es [_ Hc] _ IH]; constructor; done.
  - replace (mkPosition (CommitPosition p) (PreparePosition p)) with p by (by destruct p).
    eapply is_context_ext; [|exact Hctx]. intros doc. unfold context_matches. simpl.
    assert (filter (λ c, Tags c ≠ []) (LQ_Criteria query) = LQ_Criteria query) as ->;
      [|by destruct (LQ_Criteria query)].
    clear -Hms. induction Hms as [|c e cs es [Hc _] _ IH]; [done|].
    rewrite filter_cons_True by done. by f_equal.
Qed.

(** What [GetLatestByCriteria] returns is what a later save has to expect. Each
match is the last event on which all the tags of its criterion hold; and the
context position is the position of the whole query's context, so a save that
observes the same criteria at that position passes its check on the same log. *)
Theorem GetLatestByCriteria_context pools conn query b :
  pools !! LQ_Boundary query = Some conn → log_inv (c_tables conn) →
  GetLatestByCriteria pools None None query = Ok b →
  Forall2 (λ c e, latest_match (c_tables conn) (tags_hold c) e)
    (LQ_Criteria query) (LB_Matches b)
  ∧ is_context (c_tables conn) (context_matches (LQ_Criteria query)) (LB_ContextPosition b)
  ∧ Forall (check_ok (c_tables conn))
      (prepareConsistencyChecks
         [mkConsistencyCheck (LQ_Criteria query) (LB_ContextPosition b)]).
Proof.
  intros Hp Hl H.
  destruct (GetLatestByCriteria_sound _ _ _ _ Hp Hl H) as (Hv & Hms & Hc).
  split_and!; [done..|]. destruct (latestCriteriaQueries_ok _ Hv) as (qs & Hqs & _ & Hh).
  unfold prepareConsistencyChecks. simpl. rewrite Hqs. constructor; [|constructor].
  split; [done|]. simpl. by rewrite (is_context_ext _ _ _ _ Hh).
Qed.

End ReadFacts.

(** ** What was written is what is read *)

Section ReadBack.
Context `{J : GoJson, L : !GoJsonLaws, S : !GoJsonStored, SL : !GoJsonStoredLaws, T : SqlText,
  G : GoTime, X : Sqlitex, XL : !SqlitexLaws}.

(** [e] is the prepared event [pe] at its position in save [tid]. *)
Definition reads_as (pe : PreparedEvent) (tid gid : Z) (now : string) (e : ReadEvent) : Prop :=
  RE_EventId e = PE_EventId pe ∧ RE_EventType e = PE_EventType pe
  ∧ RE_Data e = PE_DataJSON pe
  ∧ (∃ m, field_json (MetadataValue (PE_MetadataJSON pe)) = Ok m ∧ RE_Metadata e = arrow_text m)
  ∧ RE_WriteId e = WriteID tid tid ∧ RE_Position e = mkPosition tid gid
  ∧ parseSQLiteEventTime now = Ok (RE_DateCreated e).

Lemma stored_event_reads pe value tid gid now r e :
  prepareEventDataJSON value = Ok (PE_DataJSON pe) →
  stored_event (prepareEventDocument pe) tid gid now r →
  scanReadEventRow r = Ok e → reads_as pe tid gid now e.
Proof.
  intros (o & _ & Hnr & _ & Hm & Hp)%prepareEventDataJSON_ok Hs Hscan.
  unfold prepareEventDocument in Hs. rewrite Hp in Hs.
  pose proof (scan_position _ _ Hscan) as Hpos.
  destruct Hs as [_ Hdoc Hne Htid Hgid Hnow Hw _ Hid Htype Hmeta Happ]. simpl in *.
  unfold scanReadEventRow in Hscan. apply result_bind_ok in Hscan as (created & Ht & Hscan).
  injection Hscan as <-. rewrite Hnow in Ht. unfold reads_as. simpl in *.
  rewrite Hid, Htype, Hw. split_and!; [done|done| | |done| |done].
  - eapply strip_envelope; [done|done|exact Happ| |done|done].
    unfold text_field in Hid. destruct (row_doc r !! "__eventId") as [v|] eqn:E; [|done].
    by exists "__eventId", v.
  - destruct Hmeta as (m & Hm' & Hf). exists m. split; [exact Hf|]. by rewrite Hm'.
  - unfold RE_Position. simpl. by rewrite Htid, Hgid.
Qed.

Lemma flushed_rows R t n reqs os t' n' j req o :
  flushed R t n reqs os t' n' → log_at t n →
  reqs !! j = Some req → os !! j = Some o → sr_err o = None →
  ∃ rows k, rows_stored (ps_inserts req) (sr_globalID o)
      (sr_globalID o - Z.of_nat (length (ps_inserts req)) + 1) (ps_now req) rows
    ∧ t_events t' = take (Z.to_nat (sr_globalID o - Z.of_nat (length (ps_inserts req))))
        (t_events t') ++ rows ++ k
    ∧ (Z.of_nat (length (ps_inserts req)) <= sr_globalID o)%Z
    ∧ length rows = length (ps_inserts req) ∧ ps_inserts req ≠ [].
Proof.
  intros Hf Hl Hj Ho He.
  destruct (flushed_lookup _ _ _ _ _ _ _ _ _ _ Hf Hl Hj Ho He)
    as (tj & nj & tj' & Hlj & Ha & [k Hk] & Hgid).
  destruct (ac_rows _ _ _ _ Ha) as (rows & Hr & Hst). exists rows, k.
  pose proof (la_length _ _ Hlj). pose proof (la_next _ _ Hlj).
  rewrite Hgid. unfold last_id.
  replace (nj + Z.of_nat (length (ps_inserts req)) - 1
    - Z.of_nat (length (ps_inserts req)) + 1)%Z with nj by lia.
  split_and!; [done| |lia|by eapply rows_stored_length|apply (ac_nonempty _ _ _ _ Ha)].
  replace (Z.to_nat _) with (length (t_events tj)) by lia.
  rewrite Hk, Hr. rewrite <-!(assoc_L (++)). by rewrite take_app_length.
Qed.

(** C21: an accepted event is read back as it was given. After a flush, in
which no failing statement rolled back the whole transaction if it has several requests, the
events of an accepted request are in the log, at the positions reported to the caller,
and reading one of them gives its identifier, its type, its data byte for byte,
its metadata and the identifier of its save. *)
Theorem accepted_events_read_back live c outcomes c' j req o events i pe value :
  log_inv (c_tables c) → Forall good_request live → unlosable live c →
  executeTransaction live c = (Ok outcomes, c') →
  live !! j = Some req → outcomes !! j = Some o → sr_err o = None →
  ps_inserts req = prepareEventDocuments events → events !! i = Some pe →
  prepareEventDataJSON value = Ok (PE_DataJSON pe) →
  let gid := (sr_globalID o - Z.of_nat (length events) + 1 + Z.of_nat i)%Z in
  ∃ r, t_events (c_tables c') !! Z.to_nat (gid - 1) = Some r
    ∧ ∀ e, scanReadEventRow r = Ok e → reads_as pe (sr_globalID o) gid (ps_now req) e.
Proof.
  intros Hl Hg Hu H Hj Ho He Hins Hi Hv gid.
  apply executeTransaction_outcome in H as (t & n & Hf & Ht'); [|done..].
  destruct (flushed_rows _ _ _ _ _ _ _ _ _ _ Hf Hl Hj Ho He)
    as (rows & k & Hst & Hev & Hle & Hlen & _).
  assert (length (ps_inserts req) = length events) as Hle'.
  { rewrite Hins. unfold prepareEventDocuments. by rewrite length_fmap. }
  rewrite Hle' in *. pose proof (lookup_lt_Some _ _ _ Hi) as Hlt.
  destruct (lookup_lt_is_Some_2 rows i) as [r Hr]; [lia|].
  destruct (rows_stored_lookup _ _ _ _ _ _ _ Hst Hr) as (d & Hd & Hs).
  rewrite Hins in Hd. unfold prepareEventDocuments in Hd.
  rewrite list_lookup_fmap, Hi in Hd. injection Hd as <-.
  exists r. split.
  - rewrite Ht'. simpl. rewrite Hev. set (m := Z.to_nat _) in Hev |- * at 2.
    assert (length (take m (t_events t)) = m) as Hm.
    { rewrite length_take. apply (f_equal length) in Hev.
      rewrite !length_app, length_take in Hev. lia. }
    rewrite lookup_app_r by (rewrite Hm; unfold gid, m; lia).
    rewrite Hm. replace (Z.to_nat (gid - 1) - m) with i by (unfold gid, m; lia).
    apply lookup_app_l_Some. exact Hr.
  - intros e Hscan. by eapply stored_event_reads.
Qed.

Lemma flushed_writes R t n reqs os t' n' :
  flushed R t n reqs os t' n' → log_at t n → t_writes t ⊆ t_writes t'.
Proof.
  induction 1 as [t n|t n req e reqs os t' n' _ _ IH|t n req t1 reqs os t' n' Ha _ IH];
    intros Hl; [done|auto|].
  transitivity (t_writes t1); [|by eapply IH, accepts_log_at].
  rewrite (ac_writes _ _ _ _ Ha). apply insert_subseteq.
  destruct (t_writes t !! last_id n req) eqn:E; [|done]. exfalso.
  assert (1 <= last_id n req < n)%Z by (apply (la_writes _ _ Hl); eauto).
  pose proof (ac_nonempty _ _ _ _ Ha). unfold last_id in *.
  destruct (ps_inserts req); [done|]. simpl in *. lia.
Qed.

Lemma flushed_context R t n reqs os t' n' j req o :
  flushed R t n reqs os t' n' → log_at t n →
  reqs !! j = Some req → os !! j = Some o → sr_err o = None →
  t_writes t' !! sr_globalID o = Some (ps_consistencyJSON req).
Proof.
  intros Hf. revert j.
  induction Hf as [t n|t n rq e reqs os t' n' _ Hf IH|t n rq t1 reqs os t' n' Ha Hf IH];
    intros j Hl Hj Ho He; [done| |].
  - destruct j as [|j]; simpl in *; [by simplify_eq|]. by eapply IH.
  - pose proof (accepts_log_at _ _ _ _ Hl Ha) as Hl1.
    destruct j as [|j]; simpl in *; [|by eapply IH]. simplify_eq. simpl.
    eapply lookup_weaken; [|by eapply flushed_writes].
    rewrite (ac_writes _ _ _ _ Ha). by rewrite lookup_insert_eq.
Qed.

(** The context of a save can be read back. After a flush, asking a working
database for the write identifier of an accepted request returns exactly the
observations that were checked for it, query by query, with their positions. *)
Theorem write_context_read_back pools boundary live c outcomes c' j ctx now events obs checks
    req o :
  log_inv (c_tables c) → Forall good_request live → unlosable live c →
  executeTransaction live c = (Ok outcomes, c') →
  live !! j = Some req → outcomes !! j = Some o → sr_err o = None →
  ConsistencyChecksFromObservations obs = Ok checks →
  Forall (λ check, Forall text_criterion (Criteria check)
    ∧ is_int64 (CommitPosition (CheckPosition check))
    ∧ is_int64 (PreparePosition (CheckPosition check))) checks →
  prepareSQLiteSave ctx now events checks = Ok req →
  boundary ≠ "" → pools !! boundary = Some (mkConn (c_tables c') []) →
  let id := WriteID (sr_globalID o) (sr_globalID o) in
  GetWriteContext pools None (Some (mkGetWriteContextRequest boundary id))
  = Ok (mkWriteContext id (observation_of_check <$> checks)).
Proof.
  intros Hl Hg Hu H Hj Ho He Hobs Hck Hprep Hb Hpool id.
  apply executeTransaction_outcome in H as (t & n & Hf & Ht'); [|done..].
  pose proof (flushed_context _ _ _ _ _ _ _ _ _ _ Hf Hl Hj Ho He) as Hw.
  destruct (flushed_lookup _ _ _ _ _ _ _ _ _ _ Hf Hl Hj Ho He)
    as (tj & nj & tj' & Hlj & Ha & Hp & Hgid).
  pose proof (accepts_log_at _ _ _ _ Hlj Ha) as Hlj'.
  pose proof (la_next _ _ Hlj) as Hn. pose proof (la_next _ _ Hlj') as Hn'.
  pose proof (ac_nonempty _ _ _ _ Ha) as Hne. unfold next_after, last_id in *.
  assert (0 < length (ps_inserts req)) by (destruct (ps_inserts req); simpl; [done|lia]).
  assert (ValidateWriteContextRequest (Some (mkGetWriteContextRequest boundary id))
    = Ok (mkPosition (sr_globalID o) (sr_globalID o))) as Hval.
  { apply write_id_accepted; [done|lia|lia]. }
  unfold GetWriteContext. rewrite Hval. cbn [mbind result_bind GWC_Boundary GWC_WriteId].
  rewrite Hpool, Execute_clean by done. unfold select_write. cbn [PreparePosition CommitPosition].
  rewrite Ht'. cbn [c_tables commit_tables t_writes t_events]. rewrite Hw.
  assert (existsb (λ r, bool_decide (row_global_id r = Some (sr_globalID o)
    ∧ row_transaction_id r = Some (sr_globalID o))) (t_events t) = true) as ->.
  { destruct (ac_rows _ _ _ _ Ha) as (rows & Hr & Hst).
    pose proof (rows_stored_length _ _ _ _ _ Hst) as Hlen.
    destruct (lookup_lt_is_Some_2 rows (length rows - 1)) as [r Hlast]; [lia|].
    destruct (rows_stored_lookup _ _ _ _ _ _ _ Hst Hlast) as (d & _ & Hs).
    apply existsb_exists. exists r. rewrite <-list_elem_of_In. split.
    - destruct Hp as [k ->]. rewrite Hr. rewrite !elem_of_app. left. right.
      by eapply list_elem_of_lookup_2.
    - apply bool_decide_eq_true. split.
      + rewrite (se_gid _ _ _ _ _ Hs). f_equal. lia.
      + rewrite (se_tid _ _ _ _ _ Hs). f_equal. unfold last_id. lia. }
  destruct (marshal_decode_checks obs checks id Hobs Hck) as (data & Hm & Hd & _).
  unfold prepareSQLiteSave in Hprep. rewrite Hm in Hprep. injection Hprep as <-.
  cbn [ps_consistencyJSON]. by rewrite Hd.
Qed.

End ReadBack.

(** ** Witnesses *)

#[local] Existing Instances example_json example_stored_json example_sql_text example_sqlitex.

(** One instant of the calendar. *)
Definition example_time : GoTime := {|
  time_Parse := λ _ s,
    if decide (s = "2026-01-01T00:00:00Z") then Some 1767225600000000000%Z else None |}.
#[local] Existing Instance example_time.

Definition example_pools : Registry := {[ "orders" := example_after ]}.

Definition example_read : ReadEvent :=
  mkReadEvent "1:1" "e-1" "OrderPlaced" (PE_DataJSON (example_event "e-1"))
    (arrow_text JNull) 1 1 1767225600000000000.

Lemma example_after_inv : log_inv (c_tables example_after).
Proof.
  exact (proj1 (@executeTransaction_inv example_json example_json_laws example_sql_text
    example_sqlitex example_sqlitex_laws _ example_conn _ _ log_inv_empty example_live_good
    example_kept example_flush_outcomes)).
Qed.

Lemma GetBatch_exact_witness :
  ∃ cs, query_criteria None = Some cs
    ∧ mapM scanReadEventRow
        (take (Z.to_nat (batch_count 10))
           (ordered Direction_DESC
              (matching (context_matches cs) Direction_DESC None (c_tables example_after))))
      = Ok [example_read].
Proof.
  apply (GetBatch_exact example_pools example_after
           (mkGetEventsRequest None None 10 Direction_DESC "orders"));
    [reflexivity|exact example_after_inv|vm_compute; reflexivity].
Defined.

Lemma GetLatestByCriteria_context_witness :
  is_context (c_tables example_after) (context_matches [example_order]) (mkPosition 1 1).
Proof.
  apply (GetLatestByCriteria_context example_pools example_after
           (mkLatestByCriteriaQuery "orders" [example_order])
           (mkLatestByCriteriaBatch [Some example_read] 1 1));
    [reflexivity|exact example_after_inv|vm_compute; reflexivity].
Defined.

Lemma accepted_events_read_back_witness :
  ∃ r, t_events (c_tables example_after) !! 0 = Some r
    ∧ ∀ e, scanReadEventRow r = Ok e →
        reads_as (example_event "e-1") 1 1 "2026-01-01T00:00:00Z" e.
Proof.
  apply (@accepted_events_read_back example_json example_json_laws example_stored_json
           example_stored_laws example_sql_text example_time example_sqlitex
           example_sqlitex_laws
           [example_request "e-1"; example_request "e-2"] example_conn
           [mkSaveResult "1" 1 None; failed_save version_conflict] example_after 0
           (example_request "e-1") (mkSaveResult "1" 1 None) [example_event "e-1"] 0
           (example_event "e-1") (DString (PE_DataJSON (example_event "e-1"))));
    [exact log_inv_empty|exact example_live_good|exact example_kept|exact example_flush_outcomes
    |vm_compute; reflexivity..].
Defined.

Definition example_observed : list (option ConsistencyObservation) :=
  [Some (mkObservation
     (Some (mkQuery [Some (mkCriterion [Some (mkTag "order" "o-1" "")])]))
     (Some NotExistsPosition))].

Lemma write_context_read_back_witness :
  GetWriteContext example_pools None (Some (mkGetWriteContextRequest "orders" "1:1"))
  = Ok (mkWriteContext "1:1" (observation_of_check <$> [example_check])).
Proof.
  apply (@write_context_read_back example_json example_json_laws example_stored_json
           example_stored_laws example_sql_text example_sqlitex
           example_sqlitex_laws example_pools "orders" [example_request "e-1"; example_request "e-2"] example_conn
           [mkSaveResult "1" 1 None; failed_save version_conflict] example_after 0
           None "2026-01-01T00:00:00Z" [example_event "e-1"] example_observed [example_check]
           (example_request "e-1") (mkSaveResult "1" 1 None)).
  - exact log_inv_empty.
  - exact example_live_good.
  - exact example_kept.
  - exact example_flush_outcomes.
  - reflexivity.
  - reflexivity.
  - reflexivity.
  - vm_compute; reflexivity.
  - repeat constructor; simpl; try exact I; discriminate.
  - vm_compute; reflexivity.
  - discriminate.
  - vm_compute; reflexivity.
Defined.
