(* ===== verification/SqliteIndex.v ===== *)
(** * Caller-defined indexes of the SQLite backend: [orisun/indexes.go],
[sqlite/index_registry.go], [sqlite/index_definition.go] and the index operations
of [sqlite/sqlite_eventstore.go]

The tables are the catalog of definitions and SQLite's own [sqlite_schema],
where object names are compared without regard to ASCII case. *)

From stdpp Require Import options.
From S2P Require Import Prelude Status Model Json SqlPredicates Sql.

Set Default Proof Using "Type*".

Record BoundaryIndexField := mkIndexField { BF_JsonKey : string; BF_ValueType : string }.
Record BoundaryIndexCondition := mkIndexCondition {
  BC_Key : string; BC_Operator : string; BC_Value : string }.
Record BoundaryIndex := mkIndex {
  BI_Name : string; BI_Fields : list BoundaryIndexField;
  BI_Conditions : list BoundaryIndexCondition; BI_Combinator : string; BI_State : string }.

#[export] Instance BoundaryIndexField_eq_dec : EqDecision BoundaryIndexField.
Proof. solve_decision. Defined.
#[export] Instance BoundaryIndexCondition_eq_dec : EqDecision BoundaryIndexCondition.
Proof. solve_decision. Defined.

Definition IndexCombinatorAND : string := "AND".
Definition IndexCombinatorOR : string := "OR".
Definition BoundaryIndexStateReady : string := "ready".

(** ** Case *)

Definition lower_ascii (c : ascii) : ascii :=
  let n := N_of_ascii c in
  if (65 <=? n)%N && (n <=? 90)%N then ascii_of_N (n + 32) else c.

Fixpoint fold_ascii (s : string) : string :=
  match s with
  | EmptyString => ""
  | String c s => String (lower_ascii c) (fold_ascii s)
  end.

(** [strings.ToLower], exact for comparison with ASCII words: the only other
characters with an ASCII lower case are U+0130 and U+212A. *)
Fixpoint ToLower (s : string) : string :=
  match s with
  | EmptyString => ""
  | String c rest =>
      match rest with
      | String d rest' =>
          if String.eqb (String c (String d "")) (bytes [196; 176]%N)
          then String "i" (ToLower rest')
          else match rest' with
               | String e rest'' =>
                   if String.eqb (String c (String d (String e ""))) (bytes [226; 132; 170]%N)
                   then String "k" (ToLower rest'')
                   else String (lower_ascii c) (ToLower rest)
               | EmptyString => String (lower_ascii c) (ToLower rest)
               end
      | EmptyString => String (lower_ascii c) (ToLower rest)
      end
  end.

Definition normalizeIndexValueType (valueType : string) : string :=
  let v := ToLower (TrimSpace valueType) in
  if String.eqb v "numeric" then "numeric"
  else if String.eqb v "boolean" then "boolean"
  else if String.eqb v "timestamptz" then "timestamptz"
  else "text".

(** [sqliteBooleanArg] of a string: [None] when it is left as it is. *)
Definition sqliteBooleanArg (value : string) : option Z :=
  let v := ToLower (TrimSpace value) in
  if String.eqb v "true" || String.eqb v "1" then Some 1%Z
  else if String.eqb v "false" || String.eqb v "0" then Some 0%Z
  else None.

(** [strconv.ParseFloat(s, 64)] to a finite number, rendered back by
[strconv.FormatFloat(f, 'g', -1, 64)]; [None] for an error, an infinity or NaN. *)
Class GoFloat := { finite_float : string → option string }.

(** ** Tables *)

Record IndexRow := mkIndexRow {
  ir_fields : string; ir_conditions : string; ir_combinator : string }.
Record SchemaEntry := mkEntry { sch_name : string; sch_table : string; sch_sql : string }.

(** [ix_schema] is keyed by the folded name. *)
Record IndexTables := mkIndexTables {
  ix_rows : gmap string IndexRow; ix_schema : gmap string SchemaEntry }.

Notation istm := (statement IndexTables).
Notation IndexRegistry := (gmap string (Connection IndexTables)).

(** ** The statement that creates an index *)

Section Index.
Context `{J : GoJson, F : GoFloat}.

Definition criterionFiniteFloat (value : string) : option string :=
  finite_float (TrimSpace value).

Definition json_extract (key : string) : string :=
  "json_extract(data, " +:+ jsonPathLiteral key +:+ ")".

Definition index_expr (key valueType : string) : string :=
  if String.eqb valueType "numeric" then "CAST(" +:+ json_extract key +:+ " AS REAL)"
  else if String.eqb valueType "boolean" then "CAST(" +:+ json_extract key +:+ " AS INTEGER)"
  else if String.eqb valueType "timestamptz" then json_extract key
  else sqliteJSONScalarTextExpr key.

Definition normalize_field (f : BoundaryIndexField) : BoundaryIndexField :=
  mkIndexField (BF_JsonKey f) (normalizeIndexValueType (BF_ValueType f)).

(** [typeByKey]: the last field of a key wins; a missing key reads as empty. *)
Definition type_by_key (fields : list BoundaryIndexField) (key : string) : string :=
  foldl (λ v f, if String.eqb (BF_JsonKey f) key then BF_ValueType f else v) "" fields.

Definition buildIndexConditionPredicate (c : BoundaryIndexCondition)
    (typeByKey : string → string) : result string :=
  let valueType := normalizeIndexValueType (typeByKey (BC_Key c)) in
  let base := json_extract (BC_Key c) in
  if String.eqb valueType "numeric"
  then match criterionFiniteFloat (BC_Value c) with
       | None => Err (PlainError "condition on numeric field %q requires a finite numeric value, got %q")
       | Some f => Ok ("CAST(" +:+ base +:+ " AS REAL) " +:+ BC_Operator c +:+ " " +:+ f)
       end
  else if String.eqb valueType "boolean"
  then match sqliteBooleanArg (BC_Value c) with
       | None => Err (PlainError "condition on boolean field %q requires true/false, got %q")
       | Some b => Ok ("CAST(" +:+ base +:+ " AS INTEGER) " +:+ BC_Operator c +:+ " "
                       +:+ FormatInt b)
       end
  else match sqlValueLiteral (BC_Value c) with
       | Err e => Err (Wrapped "condition on field %q: %w" e)
       | Ok v => Ok (sqliteJSONScalarTextExpr (BC_Key c) +:+ " " +:+ BC_Operator c +:+ " "
                     +:+ sqlEscapeLiteral v)
       end.

Definition valid_index_operator (op : string) : bool :=
  existsb (String.eqb op) ["="; ">"; "<"; ">="; "<="].

Definition index_condition (typeByKey : string → string) (c : BoundaryIndexCondition)
  : result string :=
  if valid_index_operator (BC_Operator c) then buildIndexConditionPredicate c typeByKey
  else Err (PlainError "invalid operator %q").

Definition or_and (combinator : string) : string :=
  if String.eqb combinator "" then IndexCombinatorAND else combinator.

Definition create_prefix : string := "CREATE INDEX IF NOT EXISTS ".

Definition buildSQLiteBoundaryIndexDDL (name : string) (fields : list BoundaryIndexField)
    (conditions : list BoundaryIndexCondition) (combinator : string)
  : result (string * list BoundaryIndexField) :=
  match validateIdentifier name with
  | Err e => Err (Wrapped "invalid index name %s: %w" e)
  | Ok _ =>
      if bool_decide (fields = []) then Err (PlainError "at least one field is required")
      else
        let combinator := or_and combinator in
        let normalizedFields := normalize_field <$> fields in
        let exprs := ((λ f, index_expr (BF_JsonKey f) (BF_ValueType f)) <$> normalizedFields)
                     ++ ["transaction_id DESC"; "global_id DESC"] in
        whereClause ←
          match conditions with
          | [] => Ok ""
          | _ =>
              if String.eqb combinator IndexCombinatorAND
                 || String.eqb combinator IndexCombinatorOR
              then predicates ← mapM (index_condition (type_by_key normalizedFields)) conditions;
                   Ok (" WHERE " +:+ Join predicates (" " +:+ combinator +:+ " "))
              else Err (PlainError "invalid combinator %q: must be AND or OR")
          end;
        Ok (create_prefix +:+ quoteIdent (name +:+ "_idx") +:+ " ON orisun_es_event ("
            +:+ Join exprs ", " +:+ ")" +:+ whereClause, normalizedFields)
  end.

(** ** Definitions as JSON *)

Definition field_value (f : BoundaryIndexField) : json :=
  JObject [("JsonKey", JString (BF_JsonKey f)); ("ValueType", JString (BF_ValueType f))].
Definition condition_value (c : BoundaryIndexCondition) : json :=
  JObject [("Key", JString (BC_Key c)); ("Operator", JString (BC_Operator c));
           ("Value", JString (BC_Value c))].

(** Decoding into a struct: a missing or null field keeps its zero value. *)
Definition string_member (m : gmap string json) (key : string) : result string :=
  match m !! key with
  | None | Some JNull => Ok ""
  | Some (JString s) => Ok s
  | Some _ => Err (PlainError "cannot unmarshal into a string")
  end.

Definition struct_of {A} (f : gmap string json → result A) (v : json) : result A :=
  match v with
  | JObject fields => f (map_of_fields fields)
  | JNull => f ∅
  | _ => Err (PlainError "cannot unmarshal into a struct")
  end.

Definition field_of_value : json → result BoundaryIndexField :=
  struct_of (λ m, key ← string_member m "JsonKey"; type ← string_member m "ValueType";
                  mret (mkIndexField key type)).
Definition condition_of_value : json → result BoundaryIndexCondition :=
  struct_of (λ m, key ← string_member m "Key"; op ← string_member m "Operator";
                  value ← string_member m "Value"; mret (mkIndexCondition key op value)).

Definition list_of_text {A} (f : json → result A) (text : string) : result (list A) :=
  v ← json_Unmarshal text;
  match v with
  | JArray l => mapM f l
  | JNull => Ok []
  | _ => Err (PlainError "cannot unmarshal into a slice")
  end.

Definition sqliteBoundaryIndexFromRow (name fieldsJSON conditionsJSON combinator : string)
  : result BoundaryIndex :=
  match list_of_text field_of_value fieldsJSON with
  | Err e => Err (Wrapped "decode index %s fields: %w" e)
  | Ok fields =>
      match list_of_text condition_of_value conditionsJSON with
      | Err e => Err (Wrapped "decode index %s conditions: %w" e)
      | Ok conditions =>
          Ok (mkIndex name fields conditions combinator BoundaryIndexStateReady)
      end
  end.

(** ** Statements *)

(** [sqlite_schema] keeps the text of the statement without IF NOT EXISTS; the
code drops the same words from the text it compares with. *)
Definition stored_sql (ddl : string) : string :=
  match strip_prefix create_prefix ddl with
  | Some rest => "CREATE INDEX " +:+ rest
  | None => ddl
  end.

Definition select_index (name : string) (t : IndexTables)
  : result (option IndexRow * IndexTables) := Ok (ix_rows t !! name, t).

Definition select_indexes (t : IndexTables)
  : result (list (string * IndexRow) * IndexTables) := Ok (sorted_entries (ix_rows t), t).

Definition select_schema (name : string) (t : IndexTables)
  : result (option SchemaEntry * IndexTables) :=
  Ok (match ix_schema t !! fold_ascii name with
      | Some e => if String.eqb (sch_name e) name then Some e else None
      | None => None
      end, t).

Definition create_index (name ddl : string) (t : IndexTables) : result (unit * IndexTables) :=
  match ix_schema t !! fold_ascii name with
  | Some _ => Ok (tt, t)
  | None => Ok (tt, mkIndexTables (ix_rows t)
      (<[fold_ascii name := mkEntry name "orisun_es_event" (stored_sql ddl)]> (ix_schema t)))
  end.

Definition insert_index (name : string) (row : IndexRow) (t : IndexTables)
  : result (unit * IndexTables) :=
  Ok (tt, match ix_rows t !! name with
          | Some _ => t
          | None => mkIndexTables (<[name := row]> (ix_rows t)) (ix_schema t)
          end).

Definition drop_index (name : string) (t : IndexTables) : result (unit * IndexTables) :=
  Ok (tt, mkIndexTables (ix_rows t) (delete (fold_ascii name) (ix_schema t))).

Definition delete_index (name : string) (t : IndexTables) : result (unit * IndexTables) :=
  Ok (tt, mkIndexTables (delete name (ix_rows t)) (ix_schema t)).

(** ** Operations *)

Definition different_definition : goerror := Errorf AlreadyExists
  "index %q already exists with a different definition; drop it before replacing it".
Definition different_physical : goerror := Errorf AlreadyExists
  "index %q already exists with a different physical definition; drop it before replacing it".

Definition check_row (name ddl : string) (row : IndexRow) : result unit :=
  existing ← sqliteBoundaryIndexFromRow name (ir_fields row) (ir_conditions row)
               (ir_combinator row);
  '(existingDDL, _) ← buildSQLiteBoundaryIndexDDL name (BI_Fields existing)
                        (BI_Conditions existing) (BI_Combinator existing);
  if String.eqb existingDDL ddl then Ok tt else Err different_definition.

Definition check_schema (ddl : string) (e : SchemaEntry) : result unit :=
  if String.eqb (sch_table e) "orisun_es_event" && String.eqb (sch_sql e) (stored_sql ddl)
  then Ok tt else Err different_physical.

Definition verifyBoundaryIndexDefinition (name ddl : string) : istm unit :=
  row ← Execute (select_index name);
  _ ← stm_lift (from_option (check_row name ddl) (Ok tt) row);
  entry ← Execute (select_schema (name +:+ "_idx"));
  stm_lift (from_option (check_schema ddl) (Ok tt) entry).

Context `{X : !Transactions IndexTables}.

Definition create_body (name ddl : string) (normalizedFields : list BoundaryIndexField)
    (conditions : list BoundaryIndexCondition) (combinator : string) : istm unit :=
  _ ← verifyBoundaryIndexDefinition name ddl;
  _ ← Execute (create_index (name +:+ "_idx") ddl);
  fieldsJSON ← stm_lift (json_Marshal (JArray (field_value <$> normalizedFields)));
  conditionsJSON ← stm_lift (json_Marshal (JArray (condition_value <$> conditions)));
  Execute (insert_index name (mkIndexRow fieldsJSON conditionsJSON combinator)).

(** [take] is the error of [pool.Write.Take], if any. *)
Definition CreateBoundaryIndex (pools : IndexRegistry) (take : option goerror)
    (boundary name : string) (fields : list BoundaryIndexField)
    (conditions : list BoundaryIndexCondition) (combinator : string)
  : result unit * IndexRegistry :=
  match pools !! boundary with
  | None => (Err (PlainError "unknown boundary: %s"), pools)
  | Some conn =>
      match buildSQLiteBoundaryIndexDDL name fields conditions combinator, take with
      | Err e, _ => (Err e, pools)
      | Ok _, Some e => (Err e, pools)
      | Ok (ddl, normalizedFields), None =>
          let '(r, conn') := sqlitex_Immediate
            (create_body name ddl normalizedFields conditions (or_and combinator)) conn in
          (r, <[boundary := conn']> pools)
      end
  end.

Definition drop_body (name : string) : istm unit :=
  _ ← Execute (drop_index (name +:+ "_idx"));
  Execute (delete_index name).

Definition DropBoundaryIndex (pools : IndexRegistry) (take : option goerror)
    (boundary name : string) : result unit * IndexRegistry :=
  match pools !! boundary with
  | None => (Err (PlainError "unknown boundary: %s"), pools)
  | Some conn =>
      match validateIdentifier name, take with
      | Err e, _ => (Err (Wrapped "invalid index name %s: %w" e), pools)
      | Ok _, Some e => (Err e, pools)
      | Ok _, None =>
          let '(r, conn') := sqlitex_Immediate (drop_body name) conn in
          (r, <[boundary := conn']> pools)
      end
  end.

Definition index_of_row (name : string) (row : IndexRow) : result BoundaryIndex :=
  sqliteBoundaryIndexFromRow name (ir_fields row) (ir_conditions row) (ir_combinator row).

Definition ListBoundaryIndexes (pools : IndexRegistry) (take : option goerror)
    (boundary : string) : result (list BoundaryIndex) :=
  match pools !! boundary, take with
  | None, _ => Err (Errorf InvalidArgument "unknown boundary: %s")
  | Some _, Some e => Err e
  | Some conn, None =>
      ((rows ← Execute select_indexes;
       stm_lift (mapM (λ nr, index_of_row nr.1 nr.2) rows)) conn).1
  end.

Definition GetBoundaryIndex (pools : IndexRegistry) (take : option goerror)
    (boundary name : string) : result BoundaryIndex :=
  match pools !! boundary with
  | None => Err (Errorf InvalidArgument "unknown boundary: %s")
  | Some conn =>
      match validateIdentifier name, take with
      | Err _, _ => Err (Errorf InvalidArgument "invalid index name %s: %v")
      | Ok _, Some e => Err e
      | Ok _, None =>
          match Execute (select_index name) conn with
          | (Err e, _) => Err e
          | (Ok None, _) => Err (Errorf NotFound "index %q does not exist in boundary %q")
          | (Ok (Some row), _) => index_of_row name row
          end
      end
  end.

End Index.

(** ** Names *)

Lemma strip_prefix_app p s : strip_prefix p (p +:+ s) = Some s.
Proof.
  induction p as [|c p IH]; [done|]. rewrite string_app_cons. simpl.
  by rewrite Ascii.eqb_refl.
Qed.

Lemma fold_ascii_app a b : fold_ascii (a +:+ b) = fold_ascii a +:+ fold_ascii b.
Proof.
  induction a as [|c a IH]; [done|]. rewrite string_app_cons. simpl.
  by rewrite IH, string_app_cons.
Qed.

Lemma fold_ascii_length s : String.length (fold_ascii s) = String.length s.
Proof. induction s as [|c s IH]; simpl; congruence. Qed.

Lemma fold_idx_inj a b :
  fold_ascii (a +:+ "_idx") = fold_ascii (b +:+ "_idx") → fold_ascii a = fold_ascii b.
Proof.
  rewrite !fold_ascii_app. intros H.
  apply (string_app_inj_length _ _ (fold_ascii "_idx") (fold_ascii "_idx")) in H as [? _];
    [done|].
  apply (f_equal String.length) in H. rewrite !string_length_app in H. lia.
Qed.

Lemma normalizeIndexValueType_idem v :
  normalizeIndexValueType (normalizeIndexValueType v) = normalizeIndexValueType v.
Proof.
  unfold normalizeIndexValueType at 2 3.
  repeat case_match; vm_compute; reflexivity.
Qed.

Lemma normalize_field_idem (fields : list BoundaryIndexField) :
  normalize_field <$> (normalize_field <$> fields) = normalize_field <$> fields.
Proof.
  rewrite <-list_fmap_compose. apply list_fmap_ext. intros i f _. unfold normalize_field.
  simpl. by rewrite normalizeIndexValueType_idem.
Qed.

Lemma or_and_idem c : or_and (or_and c) = or_and c.
Proof. unfold or_and. destruct (String.eqb c "") eqn:E; [done|]. by rewrite E. Qed.

Section IndexFacts.
Context `{J : GoJson, F : GoFloat}.

(** The normalized definition has the same statement. *)
Lemma build_normalized name fields conditions combinator ddl nf :
  buildSQLiteBoundaryIndexDDL name fields conditions combinator = Ok (ddl, nf) →
  nf = normalize_field <$> fields
  ∧ buildSQLiteBoundaryIndexDDL name nf conditions (or_and combinator) = Ok (ddl, nf)
  ∧ validateIdentifier name = Ok tt.
Proof.
  unfold buildSQLiteBoundaryIndexDDL. intros H.
  destruct (validateIdentifier name) as [[]|] eqn:Hn; [|done].
  case_bool_decide as Hf; [done|]. apply result_bind_ok in H as (w & Hw & H).
  injection H as <- <-. split; [done|].
  rewrite bool_decide_false by (by destruct fields).
  rewrite or_and_idem, normalize_field_idem. split; [|done].
  by rewrite Hw.
Qed.

(** The index of a row, and the physical index with the statement of its definition. *)
Definition index_ok (t : IndexTables) (name : string) (row : IndexRow) : Prop :=
  ∃ idx ddl nf, index_of_row name row = Ok idx
    ∧ buildSQLiteBoundaryIndexDDL name (BI_Fields idx) (BI_Conditions idx) (BI_Combinator idx)
      = Ok (ddl, nf)
    ∧ ix_schema t !! fold_ascii (name +:+ "_idx")
      = Some (mkEntry (name +:+ "_idx") "orisun_es_event" (stored_sql ddl)).

Record catalog_inv (t : IndexTables) : Prop := {
  cat_rows : ∀ name row, ix_rows t !! name = Some row → index_ok t name row;
  cat_schema : ∀ name, validateIdentifier name = Ok tt →
    is_Some (ix_schema t !! fold_ascii (name +:+ "_idx")) →
    ∃ name', is_Some (ix_rows t !! name') ∧ fold_ascii name' = fold_ascii name }.

(** No defined index has a name that differs from [name] only in case. *)
Definition no_variant (t : IndexTables) (name : string) : Prop :=
  ∀ name', is_Some (ix_rows t !! name') → fold_ascii name' = fold_ascii name → name' = name.

Definition text_index (fields : list BoundaryIndexField)
    (conditions : list BoundaryIndexCondition) : Prop :=
  (∀ f, f ∈ fields → text_ok (BF_JsonKey f))
  ∧ (∀ c, c ∈ conditions → text_ok (BC_Key c) ∧ text_ok (BC_Operator c) ∧ text_ok (BC_Value c)).

Context `{L : !GoJsonLaws}.

Lemma struct_members {A} (f : gmap string json → result A) fs :
  struct_of f (JObject fs) = f (map_of_fields fs).
Proof. done. Qed.

Lemma list_of_text_roundtrip {A} (f : json → result A) (g : A → json) (l : list A) text :
  (∀ x, x ∈ l → json_faithful (g x)) → (∀ x, f (g x) = Ok x) →
  json_Marshal (JArray (g <$> l)) = Ok text → list_of_text f text = Ok l.
Proof.
  intros Hf Hg Hm. destruct (json_roundtrip (JArray (g <$> l))) as (s & Hs & _ & Hu).
  { apply json_faithful_array. intros v (x & -> & Hx)%list_elem_of_fmap. auto. }
  rewrite Hm in Hs. injection Hs as <-. unfold list_of_text. rewrite Hu. simpl.
  rewrite mapM_fmap_l. rewrite (mapM_ok _ id); [by rewrite list_fmap_id|]. intros x _. apply Hg.
Qed.

Lemma ascii_text s : string_forallb (λ c, (N_of_ascii c <? 128)%N) s = true → text_ok s.
Proof. apply text_ok_ascii. Qed.

Lemma normalized_type_text v : text_ok (normalizeIndexValueType v).
Proof.
  apply ascii_text. unfold normalizeIndexValueType. repeat case_match; vm_compute; reflexivity.
Qed.

Lemma index_row_roundtrip name fields conditions combinator fj cj :
  text_index fields conditions →
  json_Marshal (JArray (field_value <$> (normalize_field <$> fields))) = Ok fj →
  json_Marshal (JArray (condition_value <$> conditions)) = Ok cj →
  index_of_row name (mkIndexRow fj cj combinator)
  = Ok (mkIndex name (normalize_field <$> fields) conditions combinator
          BoundaryIndexStateReady).
Proof.
  intros [Hf Hc] Hfj Hcj. unfold index_of_row, sqliteBoundaryIndexFromRow. simpl.
  rewrite (list_of_text_roundtrip field_of_value field_value _ _) with (3 := Hfj).
  - rewrite (list_of_text_roundtrip condition_of_value condition_value _ _) with (3 := Hcj);
      [done| |intros []; vm_compute; reflexivity].
    intros c Hin. destruct (Hc c Hin) as (? & ? & ?).
    apply json_faithful_object. intros k v. rewrite !elem_of_cons, elem_of_nil.
    intros Hkv. destruct_or! Hkv; simplify_eq; (split; [by apply ascii_text|done]).
  - intros f' (f & -> & Hin)%list_elem_of_fmap.
    apply json_faithful_object. intros k v. rewrite !elem_of_cons, elem_of_nil.
    intros Hkv. destruct_or! Hkv; simplify_eq; (split; [by apply ascii_text|]).
    + exact (Hf f Hin).
    + apply normalized_type_text.
  - intros []. vm_compute. reflexivity.
Qed.

(** ** Creating *)

(** What the checks of [verifyBoundaryIndexDefinition] leave. *)
Lemma create_body_ok name ddl nf conditions combinator c c' :
  create_body name ddl nf conditions combinator c = (Ok tt, c') →
  (∀ row, ix_rows (c_tables c) !! name = Some row → check_row name ddl row = Ok tt)
  ∧ (∀ e, ix_schema (c_tables c) !! fold_ascii (name +:+ "_idx") = Some e →
       sch_name e = name +:+ "_idx" → check_schema ddl e = Ok tt)
  ∧ ∃ fj cj, json_Marshal (JArray (field_value <$> nf)) = Ok fj
      ∧ json_Marshal (JArray (condition_value <$> conditions)) = Ok cj
      ∧ ∃ t1, create_index (name +:+ "_idx") ddl (c_tables c) = Ok (tt, t1)
          ∧ insert_index name (mkIndexRow fj cj combinator) t1 = Ok (tt, c_tables c').
Proof.
  unfold create_body, verifyBoundaryIndexDefinition. intros H.
  apply stm_bind_ok in H as ([] & c1 & Hv & H).
  apply stm_bind_ok in Hv as (row & c2 & Hr%Execute_ok & Hv).
  apply stm_bind_ok in Hv as ([] & c3 & Hcr & Hv).
  apply stm_bind_ok in Hv as (e & c4 & He%Execute_ok & Hcs).
  apply stm_bind_ok in H as ([] & c5 & Hci%Execute_ok & H).
  apply stm_bind_ok in H as (fj & c6 & Hfj & H).
  apply stm_bind_ok in H as (cj & c7 & Hcj & Hin%Execute_ok).
  injection Hr as <- Ht2. injection Hcr as Hcr <-. injection He as <- Ht4.
  injection Hcs as Hcs <-. injection Hfj as Hfj <-. injection Hcj as Hcj <-.
  rewrite <-Ht4, <-Ht2 in *. split_and!.
  - intros row Hrow. by rewrite Hrow in Hcr.
  - intros e Hent Hname. rewrite Hent in Hcs. rewrite Hname, String.eqb_refl in Hcs. done.
  - exists fj, cj. split_and!; [done..|]. eauto.
Qed.

Lemma index_ok_schema t t' name row :
  index_ok t name row →
  ix_schema t' !! fold_ascii (name +:+ "_idx") = ix_schema t !! fold_ascii (name +:+ "_idx") →
  index_ok t' name row.
Proof. intros (idx & ddl & nf & H1 & H2 & H3) E. exists idx, ddl, nf. by rewrite E. Qed.

Lemma check_row_ddl name ddl row idx ddl' nf :
  check_row name ddl row = Ok tt → index_of_row name row = Ok idx →
  buildSQLiteBoundaryIndexDDL name (BI_Fields idx) (BI_Conditions idx) (BI_Combinator idx)
    = Ok (ddl', nf) → ddl' = ddl.
Proof.
  unfold check_row, index_of_row. intros H Hi Hb. rewrite Hi in H. simpl in H.
  rewrite Hb in H. simpl in H.
  case_match; [|done]. by bool_props.
Qed.

(** A new definition and its physical index. *)
Lemma catalog_insert t name row ddl nf idx :
  catalog_inv t → ix_schema t !! fold_ascii (name +:+ "_idx") = None →
  index_of_row name row = Ok idx →
  buildSQLiteBoundaryIndexDDL name (BI_Fields idx) (BI_Conditions idx) (BI_Combinator idx)
    = Ok (ddl, nf) →
  catalog_inv (mkIndexTables (<[name := row]> (ix_rows t))
    (<[fold_ascii (name +:+ "_idx")
       := mkEntry (name +:+ "_idx") "orisun_es_event" (stored_sql ddl)]> (ix_schema t))).
Proof.
  intros [Hrows Hsch] Hnone Hidx Hb. split; simpl.
  - intros name2 row2. destruct (decide (name2 = name)) as [->|Hne].
    + rewrite lookup_insert_eq. intros [= <-]. exists idx, ddl, nf. simpl.
      by rewrite lookup_insert_eq.
    + rewrite lookup_insert_ne by done. intros Hr. pose proof (Hrows _ _ Hr) as Hok.
      eapply index_ok_schema; [exact Hok|]. simpl. rewrite lookup_insert_ne; [done|].
      intros E. destruct Hok as (? & ? & ? & _ & _ & Hs). rewrite <-E in Hs. congruence.
  - intros name2 Hv2. destruct (decide (fold_ascii (name +:+ "_idx") = fold_ascii (name2 +:+ "_idx")))
      as [E|Hne].
    + intros _. exists name. rewrite lookup_insert_eq. split; [eauto|]. by apply fold_idx_inj.
    + rewrite lookup_insert_ne by done. intros Hs.
      destruct (Hsch name2 Hv2 Hs) as (name' & Hn' & Ef). exists name'. split; [|done].
      rewrite lookup_insert_is_Some'. auto.
Qed.

Lemma create_body_inv name ddl fields conditions combinator nf c c' :
  catalog_inv (c_tables c) → no_variant (c_tables c) name → text_index fields conditions →
  buildSQLiteBoundaryIndexDDL name fields conditions combinator = Ok (ddl, nf) →
  create_body name ddl nf conditions (or_and combinator) c = (Ok tt, c') →
  catalog_inv (c_tables c')
  ∧ ix_schema (c_tables c') !! fold_ascii (name +:+ "_idx")
    = Some (mkEntry (name +:+ "_idx") "orisun_es_event" (stored_sql ddl))
  ∧ (ix_rows (c_tables c) !! name = None →
     ∃ row, ix_rows (c_tables c') !! name = Some row
       ∧ index_of_row name row
         = Ok (mkIndex name nf conditions (or_and combinator) BoundaryIndexStateReady)).
Proof.
  intros Hinv Hnv Htext Hb Hbody. destruct (build_normalized _ _ _ _ _ _ Hb) as (-> & Hb' & Hname).
  apply create_body_ok in Hbody as (Hrow & _ & fj & cj & Hfj & Hcj & t1 & Hci & Hins).
  unfold create_index in Hci. unfold insert_index in Hins. injection Hins as Hins.
  destruct (ix_schema (c_tables c) !! _) as [e|] eqn:Hsch.
  - injection Hci as <-. destruct (cat_schema _ Hinv name Hname) as (name' & [row Hr] & Ef);
      [rewrite Hsch; eauto|].
    assert (name' = name) as -> by (by eapply Hnv; [eauto|]).
    rewrite Hr in Hins. rewrite <-Hins.
    destruct (cat_rows _ Hinv _ _ Hr) as (idx & ddl' & nf & Hidx & Hb2 & Hent).
    assert (ddl' = ddl) as -> by (by eapply check_row_ddl; [apply Hrow|..]).
    split_and!; [done|done|]. by rewrite Hr.
  - injection Hci as <-. simpl in Hins.
    assert (ix_rows (c_tables c) !! name = None) as Hn.
    { destruct (ix_rows (c_tables c) !! name) eqn:E; [|done].
      destruct (cat_rows _ Hinv _ _ E) as (? & ? & ? & _ & _ & Hs). congruence. }
    rewrite Hn in Hins. rewrite <-Hins.
    pose proof (index_row_roundtrip name fields conditions (or_and combinator) fj cj
      Htext Hfj Hcj) as Hidx.
    split_and!.
    + by eapply catalog_insert.
    + simpl. by rewrite lookup_insert_eq.
    + intros _. simpl. rewrite lookup_insert_eq. eauto.
Qed.

Context `{X : !Transactions IndexTables, XL : !TransactionLaws IndexTables}.

Lemma create_body_steady name ddl nf conditions combinator :
  steady (create_body name ddl nf conditions combinator).
Proof using Type.
  unfold create_body, verifyBoundaryIndexDefinition.
  repeat (apply steady_bind; [|intros ?]); auto using steady_Execute, steady_lift.
Qed.

Lemma drop_body_steady name : steady (drop_body name).
Proof using Type. apply steady_bind; [|intros _]; apply steady_Execute. Qed.

(** Creating an index keeps the catalog and the database in agreement. When
it succeeds, the physical index under the name has exactly the statement of the
requested definition, every definition of the catalog still has its physical
index, and a definition that is new reads back as given, with its value types
normalized. The hypothesis rules out names that differ only in case. *)
Theorem create_index_sound (pools pools' : IndexRegistry) boundary conn name fields conditions
    combinator :
  pools !! boundary = Some conn → catalog_inv (c_tables conn) →
  no_variant (c_tables conn) name → text_index fields conditions →
  CreateBoundaryIndex pools None boundary name fields conditions combinator = (Ok tt, pools') →
  ∃ conn' ddl nf, pools' = <[boundary := conn']> pools ∧ catalog_inv (c_tables conn')
    ∧ buildSQLiteBoundaryIndexDDL name fields conditions combinator = Ok (ddl, nf)
    ∧ ix_schema (c_tables conn') !! fold_ascii (name +:+ "_idx")
      = Some (mkEntry (name +:+ "_idx") "orisun_es_event" (stored_sql ddl))
    ∧ (ix_rows (c_tables conn) !! name = None → clean conn' →
       GetBoundaryIndex pools' None boundary name
       = Ok (mkIndex name nf conditions (or_and combinator) BoundaryIndexStateReady)).
Proof.
  intros Hp Hinv Hnv Htext H. unfold CreateBoundaryIndex in H. rewrite Hp in H.
  destruct (buildSQLiteBoundaryIndexDDL name fields conditions combinator) as [[ddl nf]|]
    eqn:Hb; [|done].
  destruct (sqlitex_Immediate _ conn) as [r conn'] eqn:E. injection H as -> <-.
  apply (Immediate_steady _ _ _ _ (create_body_steady _ _ _ _ _)) in E as [(e & ? & _)|([] & c0 & c1 & _ & Ht0 & Hbody & Ht1)];
    [done|].
  rewrite <-Ht0 in Hinv, Hnv.
  destruct (create_body_inv _ _ _ _ _ _ _ _ Hinv Hnv Htext Hb Hbody) as (Hinv' & Hent & Hnew).
  rewrite <-Ht1 in Hinv', Hent, Hnew.
  exists conn', ddl, nf. split_and!; [done..|]. intros Hnone Hclean.
  rewrite <-Ht0 in Hnone. destruct (Hnew Hnone) as (row & Hrow & Hidx).
  unfold GetBoundaryIndex. rewrite lookup_insert_eq.
  destruct (build_normalized _ _ _ _ _ _ Hb) as (_ & _ & ->).
  rewrite Execute_clean by apply Hclean. unfold select_index. by rewrite Hrow.
Qed.

(** A definition is immutable until it is dropped. On a working database,
creating an index under a name that is defined with another statement fails with
[AlreadyExists] and changes nothing. *)
Theorem create_index_immutable (pools : IndexRegistry) boundary conn name fields conditions
    combinator ddl nf row idx ddl' nf' :
  pools !! boundary = Some conn → clean conn → ix_rows (c_tables conn) !! name = Some row →
  index_of_row name row = Ok idx →
  buildSQLiteBoundaryIndexDDL name (BI_Fields idx) (BI_Conditions idx) (BI_Combinator idx)
    = Ok (ddl', nf') →
  buildSQLiteBoundaryIndexDDL name fields conditions combinator = Ok (ddl, nf) → ddl' ≠ ddl →
  ∃ conn', CreateBoundaryIndex pools None boundary name fields conditions combinator
      = (Err different_definition, <[boundary := conn']> pools)
    ∧ c_tables conn' = c_tables conn ∧ CodeOf (Some different_definition) = AlreadyExists.
Proof.
  intros Hp Hc Hr Hidx Hb' Hb Hne. unfold CreateBoundaryIndex. rewrite Hp, Hb.
  destruct (create_body name ddl nf conditions (or_and combinator) (opened conn)) as [r c1] eqn:Hbody.
  destruct (steady_fault_free _ _ _ _ (create_body_steady _ _ _ _ _) Hbody (proj1 Hc)) as [Hc1 Ho1].
  assert (check_row name ddl row = Err different_definition) as Hck.
  { unfold check_row. fold (index_of_row name row). rewrite Hidx. simpl. rewrite Hb'. simpl.
    by rewrite (proj2 (String.eqb_neq _ _)). }
  assert (r = Err different_definition) as ->.
  { unfold create_body, verifyBoundaryIndexDefinition in Hbody.
    rewrite !stm_bind_eq, Execute_clean in Hbody by apply Hc. unfold select_index in Hbody.
    cbn [c_tables opened] in Hbody.
    rewrite Hr in Hbody. rewrite stm_bind_eq in Hbody. unfold stm_lift in Hbody.
    simpl in Hbody. rewrite Hck in Hbody. by injection Hbody as <- _. }
  destruct (Immediate_clean _ _ _ _ (proj1 Hc) (or_intror (proj2 Hc)) Hbody Hc1 Ho1)
    as (c2 & -> & _ & _ & Ht).
  exists c2. by split_and!.
Qed.

(** Dropping an index removes its definition and its physical index, and
leaves every other definition with its own. *)
Theorem drop_index_sound (pools pools' : IndexRegistry) boundary conn name :
  pools !! boundary = Some conn → catalog_inv (c_tables conn) →
  no_variant (c_tables conn) name →
  DropBoundaryIndex pools None boundary name = (Ok tt, pools') →
  ∃ conn', pools' = <[boundary := conn']> pools ∧ catalog_inv (c_tables conn')
    ∧ ix_rows (c_tables conn') = delete name (ix_rows (c_tables conn))
    ∧ ix_schema (c_tables conn') !! fold_ascii (name +:+ "_idx") = None.
Proof.
  intros Hp [Hrows Hsch] Hnv H. unfold DropBoundaryIndex in H. rewrite Hp in H.
  destruct (validateIdentifier name) as [[]|] eqn:Hv; [|done].
  destruct (sqlitex_Immediate _ conn) as [r conn'] eqn:E. injection H as -> <-.
  apply (Immediate_steady _ _ _ _ (drop_body_steady _)) in E as [(e & ? & _)|([] & c0 & c1 & _ & Ht0 & Hbody & Ht1)];
    [done|].
  unfold drop_body in Hbody. apply stm_bind_ok in Hbody as ([] & c2 & H1%Execute_ok & H2%Execute_ok).
  unfold drop_index in H1. injection H1 as H1. unfold delete_index in H2. injection H2 as H2.
  rewrite Ht0 in H1. rewrite <-H1 in H2. simpl in H2. rewrite <-H2 in Ht1.
  exists conn'. rewrite Ht1. simpl. split_and!; [done| |done|by rewrite lookup_delete_eq].
  split; simpl.
  - intros name2 row2 [Hne Hr]%lookup_delete_Some. eapply index_ok_schema; [by apply Hrows|].
    simpl. rewrite lookup_delete_ne; [done|]. intros Ef%fold_idx_inj.
    apply Hne. symmetry. apply Hnv; [eauto|done].
  - intros name2 Hv2 [e Hs]. apply lookup_delete_Some in Hs as [Hne Hs].
    destruct (Hsch name2 Hv2) as (name' & Hn' & Ef); [eauto|]. exists name'.
    split; [|done]. rewrite lookup_delete_ne; [done|]. intros ->.
    apply Hne. by rewrite !fold_ascii_app, Ef.
Qed.

End IndexFacts.

(** ** Names that differ only in case, and witnesses *)

(** A reader of decimal digits, standing for the float conversions. *)
Definition example_float : GoFloat := {|
  finite_float := λ s, if (String.eqb s "") then None else FormatInt <$> ParseInt s |}.
#[local] Existing Instances example_json example_float example_sqlitex.

(** A fresh database: the built-in index of the event table. *)
Definition example_catalog : IndexTables :=
  mkIndexTables ∅ {[ "idx_global_order_covering" :=
    mkEntry "idx_global_order_covering" "orisun_es_event"
      "CREATE INDEX idx_global_order_covering ON orisun_es_event(transaction_id DESC, global_id DESC)" ]}.

Definition example_databases : IndexRegistry := {[ "orders" := mkConn example_catalog [] ]}.

Definition create_example (pools : IndexRegistry) (name key : string)
  : result unit * IndexRegistry :=
  CreateBoundaryIndex pools None "orders" name [mkIndexField key "text"]
    [mkIndexCondition key ">" "a"] "".

Definition example_created : IndexRegistry :=
  (create_example example_databases "Customer" "customer_id").2.
Definition example_collided : IndexRegistry :=
  (create_example example_created "customer" "region").2.
Definition example_dropped : result unit * IndexRegistry :=
  DropBoundaryIndex example_collided None "orders" "customer".

Definition physical (pools : IndexRegistry) : list string :=
  match pools !! "orders" with
  | Some conn => (λ e : string * SchemaEntry, sch_name e.2) <$> map_to_list (ix_schema (c_tables conn))
  | None => []
  end.

Definition listed (pools : IndexRegistry) : list string :=
  match ListBoundaryIndexes pools None "orders" with Ok l => BI_Name <$> l | Err _ => [] end.

(** Index names are compared with case by the catalog and without case by
SQLite. After an index [Customer] is created, creating [customer] over another
field succeeds and is listed as ready, but no physical index is made for it; and
dropping [customer] removes the physical index of [Customer], which is still
listed as ready. *)
Theorem index_names_collide :
  (create_example example_databases "Customer" "customer_id").1 = Ok tt
  ∧ (create_example example_created "customer" "region").1 = Ok tt
  ∧ listed example_collided = ["Customer"; "customer"]
  ∧ physical example_collided = ["Customer_idx"; "idx_global_order_covering"]
  ∧ example_dropped.1 = Ok tt
  ∧ listed example_dropped.2 = ["Customer"]
  ∧ physical example_dropped.2 = ["idx_global_order_covering"].
Proof. vm_compute. done. Qed.

(** No caller-defined index can have the name of the built-in one. *)
Lemma builtin_not_idx name : fold_ascii (name +:+ "_idx") ≠ "idx_global_order_covering".
Proof.
  rewrite fold_ascii_app. intros H.
  change "idx_global_order_covering" with ("idx_global_order_cove" +:+ "ring") in H.
  apply string_app_inj_length in H as [_ H]; [done|].
  apply (f_equal String.length) in H. rewrite !string_length_app in H. simpl in *. lia.
Qed.

Lemma example_catalog_inv : catalog_inv example_catalog.
Proof.
  split; simpl; [intros name row; by rewrite lookup_empty|].
  intros name _ [e He]. apply lookup_singleton_Some in He as [He _].
  by destruct (builtin_not_idx name).
Qed.

Definition example_conn_created : Connection IndexTables :=
  default (mkConn example_catalog []) (example_created !! "orders").

Lemma example_text : text_index [mkIndexField "customer_id" "text"]
  [mkIndexCondition "customer_id" ">" "a"].
Proof. split; repeat constructor. Qed.

Lemma create_index_sound_witness :
  GetBoundaryIndex example_created None "orders" "Customer"
  = Ok (mkIndex "Customer" [mkIndexField "customer_id" "text"]
          [mkIndexCondition "customer_id" ">" "a"] "AND" "ready").
Proof.
  destruct (@create_index_sound example_json example_float example_json_laws example_sqlitex
    example_sqlitex_laws example_databases example_created "orders" (mkConn example_catalog [])
    "Customer" [mkIndexField "customer_id" "text"] [mkIndexCondition "customer_id" ">" "a"] "")
    as (conn' & ddl & nf & Hp & _ & Hb & _ & Hget).
  - reflexivity.
  - exact example_catalog_inv.
  - intros name' [row H]. discriminate H.
  - exact example_text.
  - vm_compute. reflexivity.
  - vm_compute in Hb. injection Hb as _ <-. apply Hget; [reflexivity|].
    apply (f_equal (lookup "orders")) in Hp. rewrite lookup_insert_eq in Hp.
    vm_compute in Hp. injection Hp as <-. split; reflexivity.
Defined.

Definition example_ddl (key : string) : string :=
  match buildSQLiteBoundaryIndexDDL "Customer" [mkIndexField key "text"]
          [mkIndexCondition key ">" "a"] "" with
  | Ok (ddl, _) => ddl
  | Err _ => ""
  end.

Definition example_row : IndexRow :=
  default (mkIndexRow "" "" "") (ix_rows (c_tables example_conn_created) !! "Customer").

Lemma create_index_immutable_witness :
  ∃ conn', create_example example_created "Customer" "region"
    = (Err different_definition, <["orders" := conn']> example_created).
Proof.
  destruct (@create_index_immutable example_json example_float example_json_laws
    example_sqlitex example_sqlitex_laws example_created "orders" example_conn_created
    "Customer" [mkIndexField "region" "text"] [mkIndexCondition "region" ">" "a"] ""
    (example_ddl "region") [mkIndexField "region" "text"] example_row
    (mkIndex "Customer" [mkIndexField "customer_id" "text"]
       [mkIndexCondition "customer_id" ">" "a"] "AND" "ready")
    (example_ddl "customer_id") [mkIndexField "customer_id" "text"]) as (conn' & H & _).
  1-6: vm_compute; try split; reflexivity.
  - intros E. apply (f_equal String.length) in E. vm_compute in E. discriminate E.
  - exists conn'. exact H.
Defined.

Definition example_after_drop : result unit * IndexRegistry :=
  DropBoundaryIndex example_databases None "orders" "Customer".

Lemma drop_index_sound_witness :
  ∃ conn', example_after_drop.2 = <["orders" := conn']> example_databases
    ∧ catalog_inv (c_tables conn').
Proof.
  destruct (@drop_index_sound example_json example_float example_json_laws
    example_sqlitex example_sqlitex_laws example_databases example_after_drop.2 "orders"
    (mkConn example_catalog []) "Customer") as (conn' & Hp & Hinv & _).
  - reflexivity.
  - exact example_catalog_inv.
  - intros name' [row H]. discriminate H.
  - vm_compute. reflexivity.
  - exists conn'. split; [exact Hp|exact Hinv].
Defined.
