(* ===== verification/EventStore.v ===== *)
(** * The event store API: [orisun/eventstore.go], [orisun/eventstore_metrics.go]

The handlers of the [EventStore] over the interfaces of its backend: who may call
them, which boundaries they expose, what they check before the backend is reached
and how they report what it returns. The backend is a record of operations on its
own state; [SqliteBackend] builds it from the SQLite store. *)

From stdpp Require Import options.
From S2P Require Import Prelude Status Model Number Json Predicates Consistency EventData.
From S2P Require Import WriteContext SqlPredicates Sql SqliteStore SqliteLog GroupCommit.
From S2P Require Import SqliteRead SqliteIndex.

Set Default Proof Using "Type*".

(** ** Callers: [orisun/common.go] *)

Notation Role := string (only parsing).
Definition RoleAdmin : Role := "ADMIN".
Definition RoleOperations : Role := "OPERATIONS".
Definition Roles : list Role := [RoleAdmin; RoleOperations].

Record User := mkUser {
  User_Id : string; User_Name : string; User_Username : string;
  User_HashedPassword : string; User_Roles : list Role }.
#[export] Instance User_eq_dec : EqDecision User.
Proof. solve_decision. Defined.

(** What the program reads of a [context.Context]: the authenticated user, and the
reason why it has ended. *)
Record Ctx := mkCtx { ctx_User : option User; ctx_Err : option goerror }.

Definition authorizeRequest (ctx : Ctx) (roles : list Role) : result unit :=
  match ctx_User ctx with
  | None => Ok tt
  | Some user =>
      if bool_decide (roles = []) then Ok tt
      else if existsb (λ required, bool_decide (required ∈ User_Roles user)) roles then Ok tt
      else Err (Errorf PermissionDenied "user does not have any of the required roles")
  end.

(** ** Messages: [orisun/eventstore_messages.go] *)

Record SaveEventsV2Request := mkSaveRequest {
  SR_Boundary : string; SR_Events : list (option EventToSave);
  SR_Consistency : list (option ConsistencyObservation) }.

Record GetLatestByCriteriaRequest := mkLatestRequest {
  LR_Boundary : string; LR_Criteria : list (option Criterion) }.

Record LatestCriterionResult := mkLatestResult {
  LCR_Criterion : option Criterion; LCR_Event : option Event }.

Record GetLatestByCriteriaResponse := mkLatestResponse {
  LRS_Results : list LatestCriterionResult; LRS_ContextPosition : Position }.

Inductive ValueType :=
  ValueType_TEXT | ValueType_NUMERIC | ValueType_BOOLEAN | ValueType_TIMESTAMPTZ
  | ValueType_other (n : Z).

Definition ValueType_String (v : ValueType) : string :=
  match v with
  | ValueType_NUMERIC => "NUMERIC"
  | ValueType_BOOLEAN => "BOOLEAN"
  | ValueType_TIMESTAMPTZ => "TIMESTAMPTZ"
  | _ => "TEXT"
  end.

Inductive ConditionCombinator := ConditionCombinator_AND | ConditionCombinator_OR.
#[export] Instance ConditionCombinator_eq_dec : EqDecision ConditionCombinator.
Proof. solve_decision. Defined.

Record IndexField := mkIndexFieldMsg { IF_JsonKey : string; IF_ValueType : ValueType }.
Record IndexCondition := mkIndexConditionMsg {
  IC_Key : string; IC_Operator : string; IC_Value : string }.

Record CreateIndexRequest := mkCreateIndexRequest {
  CI_Boundary : string; CI_Name : string; CI_Fields : list (option IndexField);
  CI_Conditions : list (option IndexCondition); CI_Combinator : ConditionCombinator }.
Record DropIndexRequest := mkDropIndexRequest { DI_Boundary : string; DI_Name : string }.
Record ListIndexesRequest := mkListIndexesRequest { LI_Boundary : string }.
Record GetIndexRequest := mkGetIndexRequest { GI_Boundary : string; GI_Name : string }.

(** ** The interfaces of a backend: [orisun/eventstore_core.go], [orisun/indexes.go] *)

Section Interfaces.
Context {B : Type}.

(** Operations of a backend whose state is [B]. Saving may panic ([None]); reads do
not change the state that the API can observe. *)
Record EventsSaver := mkSaver {
  saver_SavePrepared : Ctx → list PreparedEvent → string → list ConsistencyCheck →
    B → option (result (string * Z)) * B }.

Record EventsRetriever := mkRetriever {
  retriever_GetBatch : Ctx → GetEventsRequest → B → result (list ReadEvent);
  retriever_GetLatestByCriteria : Ctx → LatestByCriteriaQuery → B →
    result LatestByCriteriaBatch;
  (* whether the retriever is a [WriteContextRetriever] *)
  retriever_GetWriteContext : option (Ctx → GetWriteContextRequest → B → result WriteContext) }.

Record BoundaryIndexManager := mkIndexManager {
  manager_Create : Ctx → string → string → list BoundaryIndexField →
    list BoundaryIndexCondition → string → B → result unit * B;
  manager_Drop : Ctx → string → string → B → result unit * B;
  manager_List : Ctx → string → B → result (list BoundaryIndex);
  manager_Get : Ctx → string → string → B → result BoundaryIndex }.

(** The [EventStore], with the fields that its requests depend on. *)
Record EventStore := mkEventStore {
  saveEventsFn : EventsSaver;
  getEventsFn : EventsRetriever;
  indexManager : option BoundaryIndexManager;
  metrics : bool;
  js : bool;
  enforceBoundaryActivation : bool;
  activeBoundaries : gset string }.

End Interfaces.
Arguments EventsSaver : clear implicits.
Arguments EventsRetriever : clear implicits.
Arguments BoundaryIndexManager : clear implicits.
Arguments EventStore : clear implicits.

(** ** The activation gate *)

Section Gate.
Context {B : Type}.

Definition NewEventStoreServer (js : bool) (saver : EventsSaver B) (retriever : EventsRetriever B)
    (manager : option (BoundaryIndexManager B)) : EventStore B :=
  mkEventStore saver retriever manager false js false ∅.

Definition not_configured : goerror := PlainError "event store is not configured".

Definition set_gate (s : EventStore B) (enforce : bool) (active : gset string) : EventStore B :=
  mkEventStore (saveEventsFn s) (getEventsFn s) (indexManager s) (metrics s) (js s) enforce active.

Definition invalid_active (name : string) : result unit :=
  match ValidateName name with
  | Ok tt => Ok tt
  | Err e => Err (Wrapped "invalid active boundary %q: %w" e)
  end.

Fixpoint validate_active (names : list string) : result unit :=
  match names with
  | [] => Ok tt
  | name :: names => _ ← invalid_active name; validate_active names
  end.

Definition EnableBoundaryActivationGate (s : option (EventStore B)) (initiallyActive : list string)
  : result (EventStore B) :=
  match s with
  | None => Err not_configured
  | Some s =>
      _ ← validate_active initiallyActive;
      mret (set_gate s true (activeBoundaries s ∪ list_to_set initiallyActive))
  end.

Definition ActivateBoundary (s : option (EventStore B)) (boundary : string)
  : result (EventStore B) :=
  match s with
  | None => Err not_configured
  | Some s =>
      _ ← invalid_active boundary;
      mret (set_gate s (enforceBoundaryActivation s) (activeBoundaries s ∪ {[boundary]}))
  end.

Definition RequireBoundaryActive (s : option (EventStore B)) (boundary : string) : result unit :=
  match s with
  | None => Err (New Internal "event store is not configured")
  | Some s =>
      if negb (enforceBoundaryActivation s) then Ok tt
      else match ValidateName boundary with
           | Err _ => Err (Errorf InvalidArgument "invalid boundary %q: %v")
           | Ok _ =>
               if bool_decide (boundary ∈ activeBoundaries s) then Ok tt
               else Err (Errorf FailedPrecondition "boundary %q is not active")
           end
  end.

Definition EnsureBoundary (s : option (EventStore B)) (ctx : Ctx) (boundary : string)
  : result unit :=
  match s with
  | None => Err not_configured
  | Some s =>
      if negb (js s) then Err not_configured
      else match ValidateName boundary with
           | Err e => Err (Wrapped "invalid boundary %q: %w" e)
           | Ok _ => match ctx_Err ctx with Some e => Err e | None => Ok tt end
           end
  end.

End Gate.

(** ** Measurements: [orisun/eventstore_metrics.go] *)

Definition preparedPayloadBytes (events : list PreparedEvent) : Z :=
  foldl (λ size event,
    wrap64 (size + (go_len (PE_DataJSON event) + go_len (PE_MetadataJSON event)))) 0%Z events.

Definition cccCriterionShape (consistency : list ConsistencyCheck) : string :=
  match consistency with
  | [] => "unscoped"
  | _ :: _ :: _ => "multiple_queries"
  | [check] =>
      match Criteria check with
      | _ :: _ :: _ => "multiple_criteria"
      | [] => "empty_criterion"
      | [c] => match Tags c with
               | [] => "empty_criterion"
               | [_] => "single_criterion_single_tag"
               | _ => "single_criterion_multiple_tags"
               end
      end
  end.

Definition commitStatus (err : option goerror) : string :=
  match err with
  | None => "OK"
  | Some e =>
      if errors_Is e ContextCanceled then "CANCELLED"
      else if errors_Is e ContextDeadlineExceeded then "DEADLINE_EXCEEDED"
      else match CodeOf (Some e) with
           | Canceled => "CANCELLED"
           | InvalidArgument => "INVALID_ARGUMENT"
           | DeadlineExceeded => "DEADLINE_EXCEEDED"
           | NotFound => "NOT_FOUND"
           | AlreadyExists => "ALREADY_EXISTS"
           | PermissionDenied => "PERMISSION_DENIED"
           | Unauthenticated => "UNAUTHENTICATED"
           | Unavailable => "UNAVAILABLE"
           | Unimplemented => "UNIMPLEMENTED"
           | FailedPrecondition => "FAILED_PRECONDITION"
           | _ => "INTERNAL"
           end
  end.

(** What one commit attempt adds to the instruments, by boundary: its status on the
duration histogram, and the counters. *)
Record Measurement := mkMeasurement {
  m_boundary : string; m_status : string;
  m_commits : Z; m_events : Z; m_bytes : Z;
  m_conflict : option string }.

Definition recordCommitAttempt (boundary : string) (events : list PreparedEvent)
    (consistency : list ConsistencyCheck) (err : option goerror) : Measurement :=
  let status := commitStatus err in
  match err with
  | None => mkMeasurement boundary status 1 (Z.of_nat (length events))
              (preparedPayloadBytes events) None
  | Some _ =>
      mkMeasurement boundary status 0 0 0
        (if decide (status = "ALREADY_EXISTS") then Some (cccCriterionShape consistency)
         else None)
  end.

(** [strings.Contains]. *)
Fixpoint Contains (s sub : string) : bool :=
  HasPrefix s sub || match s with EmptyString => false | String _ s => Contains s sub end.

(** Whether [statuscode.FromError] finds a code other than [Unknown]. *)
Definition coded (e : goerror) : bool :=
  match FromError e with
  | (c, _, true) => negb (bool_decide (c = Unknown))
  | (_, _, false) => false
  end.

Definition normalizeSaveError (err : option goerror) : option goerror :=
  match err with
  | None => None
  | Some e =>
      if coded e then Some e
      else if Contains (Error_text e) "OptimisticConcurrencyException"
      then Some (New AlreadyExists (Error_text e))
      else Some e
  end.

(** ** [parseInt64]: [fmt.Sscanf(s, "%d", &i)] *)

(** Leading spaces are skipped, but not a newline. *)
Fixpoint scan_skip (fuel : nat) (s : string) : option string :=
  match fuel with
  | 0 => None
  | S fuel =>
      if HasPrefix s (bytes [10%N]) then None
      else match first_strip unicode_spaces s with
           | Some s => scan_skip fuel s
           | None => Some s
           end
  end.

(** The longest prefix of digits. *)
Fixpoint scan_digits (s : string) : string :=
  match s with
  | String c s => if is_digit c then String c (scan_digits s) else ""
  | EmptyString => ""
  end.

(** The token after an optional sign; what follows it is not read. *)
Definition Sscanf_d (s : string) : option Z :=
  match scan_skip (S (String.length s)) s with
  | None => None
  | Some s =>
      ParseInt (match s with
                | String "-" s => String "-" (scan_digits s)
                | String "+" s => scan_digits s
                | _ => scan_digits s
                end)
  end.

Definition parseInt64 (s : string) : result Z :=
  match Sscanf_d s with
  | Some i => Ok i
  | None => Err (Wrapped "failed to parse int64: %w" (PlainError "expected integer"))
  end.

(** ** The handlers *)

Section Handlers.
Context `{J : GoJson} {B : Type}.

(** The backend and what the instruments have received. *)
Record World := mkWorld { backend : B; measurements : list Measurement }.

Definition result_err {A} (r : result A) : option goerror :=
  match r with Ok _ => None | Err e => Some e end.

(** [if err != nil { err = normalizeSaveError(err) }]. *)
Definition normalize_result {A} (r : result A) : result A :=
  match r with
  | Ok a => Ok a
  | Err e => Err (default e (normalizeSaveError (Some e)))
  end.

(** [None] is a panic of the backend; nothing is recorded for it. *)
Definition savePreparedWithMetrics (s : EventStore B) (ctx : Ctx) (saver : EventsSaver B)
    (events : list PreparedEvent) (boundary : string) (consistency : list ConsistencyCheck)
    (w : World) : option (result (string * Z)) * World :=
  match saver_SavePrepared saver ctx events boundary consistency (backend w) with
  | (None, b) => (None, mkWorld b (measurements w))
  | (Some r, b) =>
      let r := normalize_result r in
      (Some r,
       mkWorld b (if metrics s
                  then measurements w
                       ++ [recordCommitAttempt boundary events consistency (result_err r)]
                  else measurements w))
  end.

Definition saveEvents (s : EventStore B) (ctx : Ctx) (boundary : string)
    (events : list (option EventToSave)) (checks : list ConsistencyCheck) (w : World)
  : result WriteResult * World :=
  match RequireBoundaryActive (Some s) boundary with
  | Err e => (Err e, w)
  | Ok _ =>
      match prepareRequestedEventsForSave events with
      | Err _ => (Err (Errorf InvalidArgument "invalid event JSON: %v"), w)
      | Ok prepared =>
          match savePreparedWithMetrics s ctx (saveEventsFn s) prepared boundary checks w with
          | (None, w) => (Err (Errorf Internal "Internal server error"), w)
          | (Some (Err e), w) => (Err (coded_or_internal "failed to save events: %v" e), w)
          | (Some (Ok (transactionID, globalID)), w) =>
              match parseInt64 transactionID with
              | Err _ => (Err (Errorf Internal "failed to save events: %v"), w)
              | Ok tranId =>
                  (Ok (mkWriteResult (WriteID tranId globalID) (mkPosition tranId globalID)), w)
              end
          end
      end
  end.

Definition validateSaveEventsV2Request (req : option SaveEventsV2Request)
  : result SaveEventsV2Request :=
  match req with
  | None => Err (New InvalidArgument "Invalid request: missing request body")
  | Some req =>
      if bool_decide (SR_Events req = [])
      then Err (New InvalidArgument "Invalid request: no events provided")
      else Ok req
  end.

Definition saveEventsV2Request (s : EventStore B) (ctx : Ctx) (req : option SaveEventsV2Request)
    (w : World) : result WriteResult * World :=
  match validateSaveEventsV2Request req with
  | Err e => (Err e, w)
  | Ok req =>
      match ConsistencyChecksFromObservations (SR_Consistency req) with
      | Err e => (Err e, w)
      | Ok checks => saveEvents s ctx (SR_Boundary req) (SR_Events req) checks w
      end
  end.

Definition SaveEventsV2 (s : EventStore B) (ctx : Ctx) (req : option SaveEventsV2Request)
    (w : World) : result WriteResult * World :=
  match authorizeRequest ctx [RoleAdmin; RoleOperations] with
  | Err e => (Err e, w)
  | Ok _ => saveEventsV2Request s ctx req w
  end.

Definition GetEvents (s : EventStore B) (ctx : Ctx) (req : option GetEventsRequest) (b : B)
  : result (list Event) :=
  match req with
  | None => Err (Errorf InvalidArgument "get events request is required")
  | Some req =>
      if (GE_Count req =? 0)%Z then Err (Errorf InvalidArgument "Count cannot be 0")
      else if (MaxReadBatchSize <? GE_Count req)%Z
      then Err (Errorf InvalidArgument "Count cannot exceed %d")
      else
        _ ← ValidateQuery (GE_Query req);
        _ ← RequireBoundaryActive (Some s) (GE_Boundary req);
        batch ← retriever_GetBatch (getEventsFn s) ctx req b;
        mret (Response batch)
  end.

Fixpoint require_tags (criteria : list (option Criterion)) : result unit :=
  match criteria with
  | [] => Ok tt
  | c :: criteria =>
      match c with
      | Some (mkCriterion (t :: tags)) =>
          if existsb (λ t : option Tag, bool_decide (t = None)) (t :: tags)
          then Err (Errorf InvalidArgument "criterion %d tag %d is nil")
          else require_tags criteria
      | _ => Err (Errorf InvalidArgument "criterion %d has no tags")
      end
  end.

(** A nil criterion or tag does not reach this function. *)
Definition latestQueryFromRequest (req : GetLatestByCriteriaRequest) : LatestByCriteriaQuery :=
  let read_tag t := mkReadTag (Tag_Key t) (Tag_Value t) (Tag_Operator t) in
  let read (c : option Criterion) :=
    match c with
    | Some c => mkReadCriterion (read_tag <$> omap id (Criterion_Tags c))
    | None => mkReadCriterion []
    end in
  mkLatestByCriteriaQuery (LR_Boundary req) (read <$> LR_Criteria req).

Definition latestBatchResponse (batch : LatestByCriteriaBatch)
    (criteria : list (option Criterion)) : GetLatestByCriteriaResponse :=
  mkLatestResponse
    (imap (λ i criterion,
       mkLatestResult criterion (fillEvent <$> mjoin (LB_Matches batch !! i))) criteria)
    (mkPosition (LB_ContextCommitPosition batch) (LB_ContextPreparePosition batch)).

Definition EventStore_GetLatestByCriteria (s : EventStore B) (ctx : Ctx)
    (req : option GetLatestByCriteriaRequest) (b : B) : result GetLatestByCriteriaResponse :=
  match req with
  | None => Err (Errorf InvalidArgument "get latest by criteria request is required")
  | Some req =>
      if bool_decide (LR_Boundary req = "") then Err (Errorf InvalidArgument "boundary is required")
      else
        _ ← RequireBoundaryActive (Some s) (LR_Boundary req);
        if bool_decide (LR_Criteria req = [])
        then Err (Errorf InvalidArgument "at least one criterion is required")
        else
          _ ← ValidateQuery (Some (mkQuery (LR_Criteria req)));
          _ ← require_tags (LR_Criteria req);
          batch ← retriever_GetLatestByCriteria (getEventsFn s) ctx (latestQueryFromRequest req) b;
          if bool_decide (length (LB_Matches batch) = length (LR_Criteria req))
          then Ok (latestBatchResponse batch (LR_Criteria req))
          else Err (Errorf Internal "latest result count %d does not match criterion count %d")
  end.

Definition EventStore_GetWriteContext (s : EventStore B) (ctx : Ctx) (req : option GetWriteContextRequest)
    (b : B) : result WriteContext :=
  _ ← ValidateWriteContextRequest req;
  match req with
  | None => Err invalid_write_id
  | Some req =>
      _ ← RequireBoundaryActive (Some s) (GWC_Boundary req);
      match retriever_GetWriteContext (getEventsFn s) with
      | None => Err (New Unimplemented "backend does not expose write contexts")
      | Some get => get ctx req b
      end
  end.

(** *** Indexes *)

Definition no_index_manager : goerror :=
  Errorf Unimplemented "index management is not configured".

Fixpoint index_fields (fields : list (option IndexField)) : result (list BoundaryIndexField) :=
  match fields with
  | [] => Ok []
  | None :: _ => Err (Errorf InvalidArgument "field %d is nil")
  | Some f :: fields =>
      if bool_decide (IF_JsonKey f = "")
      then Err (Errorf InvalidArgument "each field must have a json_key")
      else
        rest ← index_fields fields;
        mret (mkIndexField (IF_JsonKey f) (ToLower (ValueType_String (IF_ValueType f))) :: rest)
  end.

Fixpoint index_conditions (conditions : list (option IndexCondition))
  : result (list BoundaryIndexCondition) :=
  match conditions with
  | [] => Ok []
  | None :: _ => Err (Errorf InvalidArgument "condition %d is nil")
  | Some c :: conditions =>
      if bool_decide (IC_Key c = "")
      then Err (Errorf InvalidArgument "each condition must have a key")
      else
        rest ← index_conditions conditions;
        mret (mkIndexCondition (IC_Key c) (IC_Operator c) (IC_Value c) :: rest)
  end.

(** A call that changes the backend, with its errors classified. *)
Definition call_backend (format : string) (r : result unit * B) (w : World)
  : result unit * World :=
  (match r.1 with Ok _ => Ok tt | Err e => Err (coded_or_internal format e) end,
   mkWorld r.2 (measurements w)).

Definition classify {A} (format : string) (r : result A) : result A :=
  match r with Ok a => Ok a | Err e => Err (coded_or_internal format e) end.

Definition CreateIndex (s : EventStore B) (ctx : Ctx) (req : option CreateIndexRequest)
    (w : World) : result unit * World :=
  match authorizeRequest ctx [RoleAdmin], indexManager s, req with
  | Err e, _, _ => (Err e, w)
  | _, None, _ => (Err no_index_manager, w)
  | _, _, None => (Err (Errorf InvalidArgument "create index request is required"), w)
  | Ok _, Some manager, Some req =>
      if bool_decide (CI_Boundary req = "" ∨ CI_Name req = "") || bool_decide (length (CI_Fields req) = 0)
      then (Err (Errorf InvalidArgument "boundary, name, and at least one field are required"), w)
      else match RequireBoundaryActive (Some s) (CI_Boundary req) with
           | Err e => (Err e, w)
           | Ok _ =>
               match index_fields (CI_Fields req) with
               | Err e => (Err e, w)
               | Ok fields =>
                   match index_conditions (CI_Conditions req) with
                   | Err e => (Err e, w)
                   | Ok conditions =>
                       let combinator :=
                         if decide (CI_Combinator req = ConditionCombinator_OR)
                         then IndexCombinatorOR else IndexCombinatorAND in
                       call_backend "failed to create index: %v"
                         (manager_Create manager ctx (CI_Boundary req) (CI_Name req)
                            fields conditions combinator (backend w)) w
                   end
               end
           end
  end.

Definition DropIndex (s : EventStore B) (ctx : Ctx) (req : option DropIndexRequest) (w : World)
  : result unit * World :=
  match authorizeRequest ctx [RoleAdmin], indexManager s, req with
  | Err e, _, _ => (Err e, w)
  | _, None, _ => (Err no_index_manager, w)
  | _, _, None => (Err (Errorf InvalidArgument "drop index request is required"), w)
  | Ok _, Some manager, Some req =>
      if bool_decide (DI_Boundary req = "" ∨ DI_Name req = "")
      then (Err (Errorf InvalidArgument "boundary and name are required"), w)
      else match RequireBoundaryActive (Some s) (DI_Boundary req) with
           | Err e => (Err e, w)
           | Ok _ => call_backend "failed to drop index: %v"
                       (manager_Drop manager ctx (DI_Boundary req) (DI_Name req) (backend w)) w
           end
  end.

Definition ListIndexes (s : EventStore B) (ctx : Ctx) (req : option ListIndexesRequest) (b : B)
  : result (list BoundaryIndex) :=
  _ ← authorizeRequest ctx [RoleAdmin; RoleOperations];
  match indexManager s, req with
  | None, _ => Err no_index_manager
  | _, None => Err (Errorf InvalidArgument "boundary is required")
  | Some manager, Some req =>
      if bool_decide (LI_Boundary req = "") then Err (Errorf InvalidArgument "boundary is required")
      else
        _ ← RequireBoundaryActive (Some s) (LI_Boundary req);
        classify "failed to list indexes: %v" (manager_List manager ctx (LI_Boundary req) b)
  end.

Definition GetIndex (s : EventStore B) (ctx : Ctx) (req : option GetIndexRequest) (b : B)
  : result BoundaryIndex :=
  _ ← authorizeRequest ctx [RoleAdmin; RoleOperations];
  match indexManager s, req with
  | None, _ => Err no_index_manager
  | _, None => Err (Errorf InvalidArgument "boundary and name are required")
  | Some manager, Some req =>
      if bool_decide (GI_Boundary req = "" ∨ GI_Name req = "")
      then Err (Errorf InvalidArgument "boundary and name are required")
      else
        _ ← RequireBoundaryActive (Some s) (GI_Boundary req);
        classify "failed to get index: %v" (manager_Get manager ctx (GI_Boundary req) (GI_Name req) b)
  end.

(** ** A request to the store *)

Inductive Request :=
  | RSave (req : SaveEventsV2Request)
  | RGetEvents (req : GetEventsRequest)
  | RLatest (req : GetLatestByCriteriaRequest)
  | RWriteContext (req : GetWriteContextRequest)
  | RCreateIndex (req : CreateIndexRequest)
  | RDropIndex (req : DropIndexRequest)
  | RListIndexes (req : ListIndexesRequest)
  | RGetIndex (req : GetIndexRequest).

Inductive Reply :=
  | PWritten (r : WriteResult)
  | PEvents (r : list Event)
  | PLatest (r : GetLatestByCriteriaResponse)
  | PContext (r : WriteContext)
  | PDone
  | PIndexes (r : list BoundaryIndex)
  | PIndex (r : BoundaryIndex).

Definition request_boundary (req : Request) : string :=
  match req with
  | RSave req => SR_Boundary req
  | RGetEvents req => GE_Boundary req
  | RLatest req => LR_Boundary req
  | RWriteContext req => GWC_Boundary req
  | RCreateIndex req => CI_Boundary req
  | RDropIndex req => DI_Boundary req
  | RListIndexes req => LI_Boundary req
  | RGetIndex req => GI_Boundary req
  end.

(** The roles one of which a request needs, when its caller is authenticated. *)
Definition request_roles (req : Request) : list Role :=
  match req with
  | RSave _ | RListIndexes _ | RGetIndex _ => [RoleAdmin; RoleOperations]
  | RCreateIndex _ | RDropIndex _ => [RoleAdmin]
  | RGetEvents _ | RLatest _ | RWriteContext _ => []
  end.

Definition handle (s : EventStore B) (ctx : Ctx) (req : Request) (w : World)
  : result Reply * World :=
  match req with
  | RSave req => let '(r, w) := SaveEventsV2 s ctx (Some req) w in (PWritten <$> r, w)
  | RGetEvents req => (PEvents <$> GetEvents s ctx (Some req) (backend w), w)
  | RLatest req => (PLatest <$> EventStore_GetLatestByCriteria s ctx (Some req) (backend w), w)
  | RWriteContext req => (PContext <$> EventStore_GetWriteContext s ctx (Some req) (backend w), w)
  | RCreateIndex req => let '(r, w) := CreateIndex s ctx (Some req) w in ((λ _, PDone) <$> r, w)
  | RDropIndex req => let '(r, w) := DropIndex s ctx (Some req) w in ((λ _, PDone) <$> r, w)
  | RListIndexes req => (PIndexes <$> ListIndexes s ctx (Some req) (backend w), w)
  | RGetIndex req => (PIndex <$> GetIndex s ctx (Some req) (backend w), w)
  end.

End Handlers.
Arguments World : clear implicits.

(** ** What the gate lets through *)

(** The calls that change the gate; one that fails leaves the store as it was. *)
Inductive gate_op := OpEnable (initiallyActive : list string) | OpActivate (boundary : string).

Definition op_names (op : gate_op) : list string :=
  match op with OpEnable names => names | OpActivate name => [name] end.

(** A call is accepted when all the names it gives are valid. *)
Definition op_valid (op : gate_op) : bool :=
  forallb (λ name, is_ok (ValidateName name)) (op_names op).

Definition is_enable (op : gate_op) : bool :=
  match op with OpEnable _ => true | OpActivate _ => false end.

Section GateFacts.
Context `{J : GoJson} {B : Type}.
Implicit Types s : EventStore B.

Definition apply_op s (op : gate_op) : EventStore B :=
  match (match op with
         | OpEnable names => EnableBoundaryActivationGate (Some s) names
         | OpActivate name => ActivateBoundary (Some s) name
         end) with
  | Ok s' => s'
  | Err _ => s
  end.

Lemma validate_active_ok names :
  validate_active names = Ok tt ↔ forallb (λ name, is_ok (ValidateName name)) names = true.
Proof.
  induction names as [|name names IH]; simpl; [done|]. unfold invalid_active.
  destruct (ValidateName name) as [[]|]; simpl; [done|]. split; [|done]. by intros.
Qed.

Lemma apply_op_spec s op :
  apply_op s op =
    if op_valid op
    then set_gate s (is_enable op || enforceBoundaryActivation s)
           (activeBoundaries s ∪ list_to_set (op_names op))
    else s.
Proof.
  unfold apply_op, op_valid. destruct op as [names|name]; simpl.
  - destruct (forallb _ names) eqn:E.
    + apply validate_active_ok in E. by rewrite E.
    + destruct (validate_active names) as [[]|] eqn:E'; [|done].
      apply validate_active_ok in E'. congruence.
  - unfold invalid_active. destruct (ValidateName name) as [[]|]; simpl; [|done].
    by rewrite union_empty_r_L.
Qed.

(** The gate after a history of calls. *)
Lemma gate_history s ops :
  let s' := foldl apply_op s ops in
  saveEventsFn s' = saveEventsFn s ∧ getEventsFn s' = getEventsFn s
  ∧ indexManager s' = indexManager s
  ∧ enforceBoundaryActivation s' =
      enforceBoundaryActivation s || existsb (λ op, op_valid op && is_enable op) ops
  ∧ ∀ b, b ∈ activeBoundaries s' ↔ b ∈ activeBoundaries s
       ∨ Exists (λ op, op_valid op = true ∧ b ∈ op_names op) ops.
Proof.
  revert s. induction ops as [|op ops IH]; intros s; simpl.
  { rewrite orb_false_r. setoid_rewrite Exists_nil. split_and!; try done. tauto. }
  destruct (IH (apply_op s op)) as (H1 & H2 & H3 & H4 & H5). rewrite H1, H2, H3, H4.
  setoid_rewrite H5. setoid_rewrite Exists_cons. rewrite apply_op_spec.
  destruct (op_valid op); simpl.
  - split_and!; [done..| |].
    + by destruct (is_enable op), (enforceBoundaryActivation s).
    + intros b. rewrite elem_of_union, elem_of_list_to_set. tauto.
  - split_and!; [done..|]. intros b. split; [tauto|].
    intros [?|[[? ?]|?]]; [by left|done|by right].
Qed.

Lemma RequireBoundaryActive_ok s b :
  RequireBoundaryActive (Some s) b = Ok tt ↔
    enforceBoundaryActivation s = false
    ∨ (ValidateName b = Ok tt ∧ b ∈ activeBoundaries s).
Proof.
  simpl. destruct (enforceBoundaryActivation s); simpl; [|naive_solver].
  destruct (ValidateName b) as [[]|]; [|naive_solver]. case_bool_decide; naive_solver.
Qed.

Lemma RequireBoundaryActive_err s b e :
  RequireBoundaryActive (Some s) b = Err e →
  as_status e = Some (InvalidArgument, "invalid boundary %q: %v")
  ∨ as_status e = Some (FailedPrecondition, "boundary %q is not active").
Proof. simpl. intros H. repeat case_match; naive_solver. Qed.

(** A request that the gate refuses gets the same error whatever the backend holds,
and changes nothing. *)
Lemma handle_gated s ctx (req : Request) e :
  RequireBoundaryActive (Some s) (request_boundary req) = Err e →
  ∃ e', ∀ w : World B, handle s ctx req w = (Err e', w).
Proof.
  intros H. destruct req as [req|req|req|req|req|req|req|req]; cbn [request_boundary] in H;
    cbn [handle].
  - unfold SaveEventsV2, saveEventsV2Request.
    destruct (authorizeRequest _ _); [|by eexists].
    destruct (validateSaveEventsV2Request (Some req)) as [req'|] eqn:E; [|by eexists].
    assert (req' = req) as -> by (unfold validateSaveEventsV2Request in E; by case_bool_decide; inv_ok).
    destruct (ConsistencyChecksFromObservations _); [|by eexists].
    unfold saveEvents. rewrite H. by eexists.
  - unfold GetEvents. rewrite H. do 2 (case_match; [by eexists|]).
    destruct (ValidateQuery _); by eexists.
  - unfold EventStore_GetLatestByCriteria. rewrite H. case_match; by eexists.
  - unfold EventStore_GetWriteContext. destruct (ValidateWriteContextRequest _); [|by eexists].
    cbn [mbind result_bind]. rewrite H. by eexists.
  - unfold CreateIndex. destruct (authorizeRequest _ _); [|by eexists].
    destruct (indexManager s); [|by eexists]. case_match; [by eexists|]. rewrite H. by eexists.
  - unfold DropIndex. destruct (authorizeRequest _ _); [|by eexists].
    destruct (indexManager s); [|by eexists]. case_match; [by eexists|]. rewrite H. by eexists.
  - unfold ListIndexes. destruct (authorizeRequest _ _); [|by eexists].
    cbn [mbind result_bind]. destruct (indexManager s); [|by eexists]. case_match; [by eexists|]. rewrite H. by eexists.
  - unfold GetIndex. destruct (authorizeRequest _ _); [|by eexists].
    cbn [mbind result_bind]. destruct (indexManager s); [|by eexists]. case_match; [by eexists|]. rewrite H. by eexists.
Qed.

(** The gate exposes exactly the activated boundaries. After any history of calls
to [EnableBoundaryActivationGate] and [ActivateBoundary] in which the gate was once
enabled, a request, of any kind and by anyone, on a boundary that no accepted call
named fails with the same error whatever the backend holds and changes nothing; on
a boundary that one named, the gate lets every request through. *)
Theorem gate_exposes_activated js saver retriever manager ops ctx (req : Request) :
  existsb (λ op, op_valid op && is_enable op) ops = true →
  let s := foldl apply_op (NewEventStoreServer (B := B) js saver retriever manager) ops in
  let b := request_boundary req in
  if decide (Exists (λ op, op_valid op = true ∧ b ∈ op_names op) ops)
  then RequireBoundaryActive (Some s) b = Ok tt
  else ∃ e, ∀ w : World B, handle s ctx req w = (Err e, w).
Proof.
  intros Hen s b. destruct (gate_history (NewEventStoreServer js saver retriever manager) ops)
    as (_ & _ & _ & Henf & Hact). fold s in Henf, Hact. simpl in Henf. rewrite Hen in Henf.
  case_decide as Hop.
  - apply RequireBoundaryActive_ok. right. split; [|apply Hact; by right].
    apply Exists_exists in Hop as (op & _ & Hv & Hb).
    unfold op_valid in Hv. rewrite forallb_forall in Hv.
    specialize (Hv b (proj1 (list_elem_of_In _ _) Hb)).
    by destruct (ValidateName b) as [[]|].
  - destruct (RequireBoundaryActive (Some s) b) as [[]|e] eqn:E; [|by eapply handle_gated].
    apply RequireBoundaryActive_ok in E as [E|[_ [E|E]%Hact]]; [congruence| |done].
    simpl in E. set_solver.
Qed.

Lemma authorize_spec ctx roles :
  authorizeRequest ctx roles = Ok tt ↔
    roles = [] ∨ ∀ u, ctx_User ctx = Some u → ∃ r, r ∈ roles ∧ r ∈ User_Roles u.
Proof.
  unfold authorizeRequest. destruct (ctx_User ctx) as [u|]; [|naive_solver].
  case_bool_decide as He; [naive_solver|].
  destruct (existsb _ _) eqn:E.
  - split; [intros _|done]. right. intros u' [= <-].
    apply existsb_exists in E as (r & Hr & Hu%bool_decide_eq_true). exists r.
    by rewrite list_elem_of_In.
  - split; [done|]. intros [?|H]; [done|]. destruct (H u eq_refl) as (r & Hr & Hu). exfalso.
    rewrite <-not_true_iff_false in E. apply E, existsb_exists. exists r.
    rewrite <-list_elem_of_In. split; [done|]. by apply bool_decide_eq_true.
Qed.

(** Authorization. A request of an authenticated user who has none of the roles
it needs fails with [PermissionDenied], whatever the store and its backend hold, and
changes nothing; and any reply to an authenticated user is to one who has such a
role. *)
Theorem unauthorized_denied s ctx (req : Request) user :
  ctx_User ctx = Some user → request_roles req ≠ [] →
  (Forall (λ r, r ∉ User_Roles user) (request_roles req) →
   ∃ e, CodeOf (Some e) = PermissionDenied ∧ ∀ w : World B, handle s ctx req w = (Err e, w))
  ∧ ∀ (w : World B) reply w', handle s ctx req w = (Ok reply, w') →
      ∃ r, r ∈ request_roles req ∧ r ∈ User_Roles user.
Proof.
  intros Hu Hne.
  assert (∀ e, authorizeRequest ctx (request_roles req) = Err e →
    CodeOf (Some e) = PermissionDenied ∧ ∀ w : World B, handle s ctx req w = (Err e, w)) as Hden.
  { intros e H. split.
    - unfold authorizeRequest in H. repeat case_match; naive_solver.
    - intros w. destruct req as [req|req|req|req|req|req|req|req];
        cbn [request_roles] in H; try done; cbn [handle];
        unfold SaveEventsV2, CreateIndex, DropIndex, ListIndexes, GetIndex; by rewrite H. }
  destruct (authorizeRequest ctx (request_roles req)) as [[]|e] eqn:E.
  - apply authorize_spec in E as [?|E]; [done|]. destruct (E _ Hu) as (r & Hr & Hru).
    split; [|by eauto]. intros HF. rewrite Forall_forall in HF. by destruct (HF r Hr).
  - destruct (Hden e eq_refl) as [Hc Hh]. split; [by eauto|].
    intros w reply w' H. by rewrite Hh in H.
Qed.

(** Every error of a save carries a status code that a client can act on. *)
Lemma coded_or_internal_coded format e : coded (coded_or_internal format e) = true.
Proof.
  unfold coded_or_internal, coded. destruct (FromError e) as [[c m] []] eqn:E; [|done].
  case_decide; [done|]. rewrite E. by rewrite bool_decide_false.
Qed.

End GateFacts.

(** ** Witnesses *)

Definition example_saver : EventsSaver unit :=
  mkSaver (λ _ _ _ _ b, (Some (Err (PlainError "no database")), b)).
Definition example_retriever : EventsRetriever unit :=
  mkRetriever (λ _ _ _, Ok []) (λ _ _ _, Err (PlainError "no database")) None.

Definition example_gate : list gate_op := [OpEnable ["admin"]; OpActivate "9"; OpActivate "orders"].

Definition example_read_request (b : string) : Request :=
  RGetEvents (mkGetEventsRequest None None 10 Direction_ASC b).

Lemma gate_exposes_activated_witness :
  let s := foldl apply_op (NewEventStoreServer true example_saver example_retriever None)
             example_gate in
  ∃ e, ∀ w : World unit,
    @handle example_json _ s (mkCtx None None) (example_read_request "billing") w = (Err e, w).
Proof.
  exact (@gate_exposes_activated example_json unit true example_saver example_retriever None
           example_gate (mkCtx None None) (example_read_request "billing") eq_refl).
Defined.

Definition example_reader : User := mkUser "u-1" "Reader" "reader" "" ["READER"].

Lemma unauthorized_denied_witness :
  let s := NewEventStoreServer true example_saver example_retriever None in
  ∃ e, CodeOf (Some e) = PermissionDenied
    ∧ ∀ w : World unit, @handle example_json _ s (mkCtx (Some example_reader) None)
        (RSave (mkSaveRequest "orders" [] [])) w = (Err e, w).
Proof.
  intros s. apply (@unauthorized_denied example_json unit s (mkCtx (Some example_reader) None)
                     (RSave (mkSaveRequest "orders" [] [])) example_reader);
    [reflexivity|discriminate|].
  apply Forall_cons_2; [|apply Forall_cons_2; [|apply Forall_nil_2]];
    intros [=]%list_elem_of_singleton.
Defined.
