(* ===== verification/Api.v ===== *)
(** * The event store over SQLite

The API of [orisun/eventstore.go] with the SQLite backend behind its interfaces: a
save is a compare-and-append on the log of its boundary. *)

From stdpp Require Import options.
From S2P Require Import Prelude Status Model Number Json Predicates Consistency EventData.
From S2P Require Import WriteContext SqlPredicates Sql SqliteStore SqliteLog GroupCommit.
From S2P Require Import SqliteRead SqliteIndex EventStore.

Set Default Proof Using "Type*".

(** ** The transaction identifier of a save is its decimal number *)

Lemma scan_digits_all s : string_forallb is_digit s = true → scan_digits s = s.
Proof.
  induction s as [|c s IH]; [done|]. simpl. intros H. bool_props. rewrite H.
  by rewrite IH.
Qed.

Lemma digit_not_space c s :
  is_digit c = true → HasPrefix (String c s) (bytes [10%N]) = false
    ∧ first_strip unicode_spaces (String c s) = None.
Proof.
  intros H. destruct c as [[] [] [] [] [] [] [] []]; try discriminate H; split; reflexivity.
Qed.

Lemma parseInt64_FormatInt z : (0 <= z <= MaxInt64)%Z → parseInt64 (FormatInt z) = Ok z.
Proof.
  intros Hz. assert (is_int64 z) as Hi by (unfold is_int64, MinInt64, MaxInt64 in *; lia).
  pose proof (ParseInt_FormatInt z Hi) as Hp. unfold parseInt64, Sscanf_d.
  assert (∃ n : N, z = Z.of_N n ∧ FormatInt z = pretty n) as (n & -> & En).
  { destruct z as [|p|p]; [by exists 0%N|by exists (N.pos p)|lia]. }
  pose proof (pretty_N_digits n) as Hd. rewrite En in *.
  destruct (pretty_N_head n) as (c & s & Hs & Hc). rewrite Hs in *.
  destruct (digit_not_space c s Hc) as [H1 H2].
  assert (scan_skip (S (String.length (String c s))) (String c s) = Some (String c s)) as ->.
  { cbn [scan_skip]. by rewrite H1, H2. }
  rewrite (scan_digits_all _ Hd).
  assert (match String c s with
          | String "-" s' => String "-" (scan_digits s')
          | String "+" s' => scan_digits s'
          | _ => String c s
          end = String c s) as Hm.
  { destruct c as [[] [] [] [] [] [] [] []]; try discriminate Hc; reflexivity. }
  by rewrite Hm, Hp.
Qed.

Section SqliteBackend.
Context `{J : GoJson, L : !GoJsonLaws, SJ : !GoJsonStored, SL : !GoJsonStoredLaws, T : SqlText,
  G : GoTime, X : Sqlitex, XL : !SqlitexLaws}.

(** A caller alone in its batch: what the coordinator completes its request with. *)
Definition submit_alone (pools : Registry) (boundary : string) (p : preparedSQLiteSave) (n : Z)
  : result sqliteSaveResult :=
  let rq := mkRequest 0 p n in
  match completions [rq] [rq]
          (match (executeBatch pools None boundary [p]).1.1 with
           | Ok outcomes => ExecOk outcomes
           | Err e => ExecErr e
           end) with
  | (_, r) :: _ => r
  | [] => Err ErrClosed
  end.

Definition sqlite_saver (now : string) : EventsSaver Registry :=
  mkSaver (λ ctx events boundary checks pools,
    (Some (SavePrepared pools (ctx_Err ctx) now events boundary checks
             (submit_alone pools boundary) (ctx_Err ctx)),
     match prepareSQLiteSave (ctx_Err ctx) now events checks with
     | Ok p => if bool_decide (events = []) then pools
               else (executeBatch pools None boundary [p]).1.2
     | Err _ => pools
     end)).

Definition sqlite_retriever : EventsRetriever Registry :=
  mkRetriever (λ _ req pools, GetBatch pools None (Some req))
    (λ _ query pools, GetLatestByCriteria pools None None query)
    (Some (λ _ req pools, GetWriteContext pools None (Some req))).

(** A store whose backend is SQLite, at instant [now]. *)
Definition sqlite_store (s : EventStore Registry) (now : string) : Prop :=
  saveEventsFn s = sqlite_saver now ∧ getEventsFn s = sqlite_retriever.

(** Strings that the JSON encoder writes as they are, as protobuf strings are. *)
Definition text_events (events : list (option EventToSave)) : Prop :=
  Forall (λ o, ∀ e, o = Some e → text_ok (ETS_EventId e) ∧ text_ok (ETS_EventType e)) events.

(** ** Prepared events *)

Definition prepared_from (o : option EventToSave) (pe : PreparedEvent) : Prop :=
  ∃ e, o = Some e ∧ PE_EventId pe = ETS_EventId e ∧ PE_EventType pe = ETS_EventType e
    ∧ prepareEventDataJSON (DString (ETS_Data e)) = Ok (PE_DataJSON pe)
    ∧ prepareJSONObjectJSON (DString (ETS_Metadata e)) false = Ok (PE_MetadataJSON pe).

Lemma prepared_events events prepared :
  prepareRequestedEventsForSave events = Ok prepared → Forall2 prepared_from events prepared.
Proof.
  revert prepared. induction events as [|o events IH]; intros prepared H; simpl in H.
  - injection H as <-. constructor.
  - destruct o as [e|]; [|done].
    destruct (prepareEventDataJSON _) as [d|] eqn:Hd; [|done].
    destruct (prepareJSONObjectJSON _ _) as [m|] eqn:Hm; [|done].
    apply result_bind_ok in H as (rest & Hr & H). injection H as <-.
    constructor; [|by apply IH]. by exists e.
Qed.

Lemma prepared_good events prepared :
  prepareRequestedEventsForSave events = Ok prepared → text_events events →
  Forall good_document (prepareEventDocuments prepared).
Proof.
  intros H Ht. apply prepared_events in H. unfold prepareEventDocuments. apply Forall_fmap.
  induction H as [|o pe events prepared (e & -> & Hid & Hty & Hd & _) _ IH]; [constructor|].
  apply Forall_cons in Ht as [He Ht]. constructor; [|by apply IH].
  destruct (He e eq_refl) as [Hi Htx]. apply prepareEventDataJSON_ok in Hd
    as (o & _ & _ & Hf & _ & Hp). unfold compose, prepareEventDocument. rewrite Hp.
  intros _. exists (default ∅ o). simpl. by rewrite Hid, Hty.
Qed.

Lemma prepared_document_text o pe tid gid now :
  prepared_from o pe → text_ok now →
  (∀ e, o = Some e → text_ok (ETS_EventId e) ∧ text_ok (ETS_EventType e)) →
  ∃ text, document_text (prepareEventDocument pe) tid gid now = Ok text.
Proof.
  intros (e & -> & Hid & Hty & Hd & Hm) Hnow Ht. destruct (Ht e eq_refl) as [Hi Htx].
  apply prepareEventDataJSON_ok in Hd as (ob & _ & _ & Hf & _ & Hp).
  unfold document_text, prepareEventDocument. rewrite Hp. cbn [doc_err doc_object].
  set (d := mkDocument _ _ _ _ _).
  destruct (fields_json_total (event_fields d tid gid now)) as [vs Hvs].
  { intros k f Hk. pose proof Hk as Hin%event_fields_lookup.
    destruct f as [v|t]; [by eexists|]. rewrite !elem_of_cons, elem_of_nil in Hin.
    destruct_or! Hin; try discriminate Hin. injection Hin as -> Hmeta.
    unfold MetadataValue in Hmeta. destruct (String.eqb _ _); [done|]. injection Hmeta as ->.
    simpl. unfold prepareJSONObjectJSON in Hm.
    apply result_bind_ok in Hm as (mo & Hmo & Hm). simpl in Hm.
    apply prepare_object_faithful in Hmo.
    destruct (json_roundtrip _ Hmo) as (text & Hmar & _ & Hu).
    unfold marshal_object in Hm. rewrite Hmar in Hm. injection Hm as <-. rewrite Hu. by eexists. }
  destruct (Object_WithFields_ok (default ∅ ob) (event_fields d tid gid now) Hf)
    with (vs := vs) as (text & Hw & _); [|done|by eauto].
  intros k f Hk. apply (event_fields_faithful d tid gid now k f); [done| | |exact Hk];
    simpl; congruence.
Qed.

Lemma prepared_documents_text events prepared tid gid now :
  Forall2 prepared_from events prepared → text_ok now → text_events events →
  ∃ texts, documents_text (prepareEventDocuments prepared) tid gid now = Ok texts.
Proof.
  intros H Hnow Ht. revert gid. unfold prepareEventDocuments.
  induction H as [|o pe events prepared Hp _ IH]; intros gid; [by eexists|].
  apply Forall_cons in Ht as [He Ht]. rewrite fmap_cons. cbn [documents_text].
  destruct (prepared_document_text o pe tid gid now Hp Hnow He) as [text ->].
  destruct (IH Ht (gid + 1)%Z) as [texts ->]. by eexists.
Qed.

(** ** One request through the coordinator *)

Lemma flushed_one R t n p os t' n' :
  flushed R t n [p] os t' n' →
  (∃ e, os = [failed_save e] ∧ R t n p e ∧ t' = t ∧ n' = n)
  ∨ (accepts t n p t' ∧ n' = next_after n p
     ∧ os = [mkSaveResult (FormatInt (last_id n p)) (last_id n p) None]).
Proof.
  intros H. inversion H as [|? ? ? e ? ? ? ? HR Hf|? ? ? t1 ? ? ? ? Ha Hf]; subst;
    inversion Hf; subst; [left|right]; eauto.
Qed.

(** What a save leaves: the boundary's connection, and the outcome of the request. *)
Definition saved (R : Tables → Z → preparedSQLiteSave → goerror → Prop) (t : Tables)
    (p : preparedSQLiteSave) (r : result sqliteSaveResult) (t' : Tables) : Prop :=
  match r with
  | Ok o =>
      match sr_err o with
      | Some e => R t (t_next_id t) p e ∧ t' = t
      | None => ∃ t1, accepts t (t_next_id t) p t1
          ∧ t' = commit_tables t1 (next_after (t_next_id t) p)
          ∧ o = mkSaveResult (FormatInt (last_id (t_next_id t) p)) (last_id (t_next_id t) p) None
      end
  | Err _ => t' = t
  end.

Lemma saved_flushed R t p os t' n' n :
  flushed R t (t_next_id t) [p] os t' n' →
  ∃ o, os = [o] ∧ saved R t p (Ok o) (commit_tables t' n')
    ∧ completions [mkRequest 0 p n] [mkRequest 0 p n] (ExecOk os)
      = [(mkRequest 0 p n, Ok o)].
Proof.
  intros [(e & -> & HR & -> & ->)|(Ha & -> & ->)]%flushed_one.
  - exists (failed_save e). split_and!; [done| |done]. simpl. split; [done|].
    by destruct t.
  - eexists. split_and!; [done| |done]. simpl. eauto.
Qed.

Lemma submit_alone_saved pools b conn p n :
  pools !! b = Some conn → log_inv (c_tables conn) → good_request p →
  ∃ conn', (executeBatch pools None b [p]).1.2 = <[b := conn']> pools
    ∧ saved (λ _ _ _ _, True) (c_tables conn) p (submit_alone pools b p n) (c_tables conn').
Proof.
  intros Hb Hl Hg. unfold submit_alone, executeBatch. rewrite Hb. simpl.
  destruct (executeTransaction [p] conn) as [r conn'] eqn:E.
  apply executeTransaction_outcome in E; [|done|by constructor|by right].
  exists conn'. destruct r as [os|e]; simpl; [|done]. split; [done|].
  destruct E as (t & n' & Hf & ->).
  destruct (saved_flushed _ _ _ _ _ _ n Hf) as (o & -> & Hs & Hc). exact Hs.
Qed.

Lemma submit_alone_clean pools b conn p n :
  pools !! b = Some conn → log_inv (c_tables conn) → good_request p → clean conn →
  ∃ conn' o, (executeBatch pools None b [p]).1.2 = <[b := conn']> pools
    ∧ submit_alone pools b p n = Ok o
    ∧ saved refused (c_tables conn) p (Ok o) (c_tables conn').
Proof.
  intros Hb Hl Hg Hc. unfold submit_alone, executeBatch. rewrite Hb. simpl.
  destruct (flush_exact [p] conn Hl) as (os & c2 & t & n1 & E & Hf & Ht2);
    [by constructor|done|]. rewrite E. simpl.
  destruct (saved_flushed _ _ _ _ _ _ n Hf) as (o & -> & Hs & Hcm).
  exists c2, o. split_and!; [done|done|]. by rewrite Ht2.
Qed.

(** ** A save through the API *)

(** A request that passed every check made before the backend is called. *)
Record admitted_save (s : EventStore Registry) (ctx : Ctx) (req : SaveEventsV2Request)
    (now : string) (checks : list ConsistencyCheck) (prepared : list PreparedEvent)
    (p : preparedSQLiteSave) : Prop := {
  as_authorized : authorizeRequest ctx [RoleAdmin; RoleOperations] = Ok tt;
  as_events : SR_Events req ≠ [];
  as_checks : ConsistencyChecksFromObservations (SR_Consistency req) = Ok checks;
  as_active : RequireBoundaryActive (Some s) (SR_Boundary req) = Ok tt;
  as_prepared : prepareRequestedEventsForSave (SR_Events req) = Ok prepared;
  as_save : prepareSQLiteSave (ctx_Err ctx) now prepared checks = Ok p }.

Lemma prepared_nonempty events prepared :
  prepareRequestedEventsForSave events = Ok prepared → events ≠ [] → prepared ≠ [].
Proof. intros H%prepared_events Hne. by destruct H. Qed.

(** What the client is told, from what the coordinator completed the request with. *)
Definition save_reply (r : result sqliteSaveResult) (res : result WriteResult) : Prop :=
  match r with
  | Ok o =>
      match sr_err o with
      | Some e => res = Err (coded_or_internal "failed to save events: %v"
                               (default e (normalizeSaveError (Some e))))
      | None => match parseInt64 (sr_transactionID o) with
                | Ok tranId => res = Ok (mkWriteResult (WriteID tranId (sr_globalID o))
                                          (mkPosition tranId (sr_globalID o)))
                | Err _ => is_ok res = false
                end
      end
  | Err _ => is_ok res = false
  end.

Lemma SaveEventsV2_sqlite s now ctx req checks prepared p (w : World Registry) :
  sqlite_store s now → admitted_save s ctx req now checks prepared p →
  is_Some (backend w !! SR_Boundary req) →
  ∃ n res w', SaveEventsV2 s ctx (Some req) w = (res, w')
    ∧ backend w' = (executeBatch (backend w) None (SR_Boundary req) [p]).1.2
    ∧ save_reply (submit_alone (backend w) (SR_Boundary req) p n) res.
Proof.
  intros [Hs _] [Ha Hne Hc Hr Hp Hps] [conn Hb].
  pose proof (prepared_nonempty _ _ Hp Hne) as Hpne.
  unfold SaveEventsV2, saveEventsV2Request, validateSaveEventsV2Request. rewrite Ha.
  rewrite bool_decide_false by done. rewrite Hc. unfold saveEvents. rewrite Hr, Hp, Hs.
  unfold savePreparedWithMetrics. cbn [sqlite_saver saver_SavePrepared].
  unfold SavePrepared, enqueue. rewrite Hps, Hb, !bool_decide_false by done.
  cbn [mbind result_bind]. exists (Z.of_nat (length (ps_inserts p))).
  destruct (submit_alone _ _ _ _) as [o|e] eqn:E.
  - destruct (sr_err o) as [e|] eqn:Ee; cbn [normalize_result save_reply].
    + eexists _, _. rewrite Ee. split; [done|]. split; done.
    + rewrite Ee. destruct (parseInt64 _); eexists _, _; done.
  - destruct (errors_Is e ErrClosed), (ctx_Err ctx); eexists _, _; done.
Qed.

Lemma SaveEventsV2_admitted s now ctx req (w : World Registry) r w' :
  sqlite_store s now → SaveEventsV2 s ctx (Some req) w = (Ok r, w') →
  ∃ checks prepared p, admitted_save s ctx req now checks prepared p
    ∧ is_Some (backend w !! SR_Boundary req).
Proof.
  intros [Hs _] H.
  unfold SaveEventsV2, saveEventsV2Request, validateSaveEventsV2Request in H.
  destruct (authorizeRequest _ _) as [[]|] eqn:Ha; [|done].
  case_bool_decide as Hne; [done|].
  destruct (ConsistencyChecksFromObservations _) as [checks|] eqn:Hc; [|done].
  unfold saveEvents in H. destruct (RequireBoundaryActive _ _) as [[]|] eqn:Hr; [|done].
  destruct (prepareRequestedEventsForSave _) as [prepared|] eqn:Hp; [|done].
  rewrite Hs in H. unfold savePreparedWithMetrics in H.
  cbn [sqlite_saver saver_SavePrepared] in H. unfold SavePrepared in H.
  case_bool_decide; [done|]. destruct (backend w !! SR_Boundary req) eqn:Hb; [|done].
  unfold enqueue in H. destruct (prepareSQLiteSave _ _ _ _) as [p|] eqn:Hps; [|done].
  exists checks, prepared, p. split; [by constructor|by eexists].
Qed.

Lemma admitted_good s ctx req now checks prepared p :
  admitted_save s ctx req now checks prepared p → text_ok now → text_events (SR_Events req) →
  good_request p ∧ ps_now p = now ∧ ps_inserts p = prepareEventDocuments prepared
  ∧ length (ps_inserts p) = length (SR_Events req)
  ∧ ps_preparedChecks p = prepareConsistencyChecks checks ∧ ps_ctx p = ctx_Err ctx.
Proof.
  intros [_ Hne _ _ Hp Hps] Hnow Ht. unfold prepareSQLiteSave in Hps.
  apply result_bind_ok in Hps as (data & _ & Hps). injection Hps as <-. simpl.
  pose proof (Forall2_length _ _ _ (prepared_events _ _ Hp)) as Hlen.
  split_and!; try done.
  - split; [by eapply prepared_good|done].
  - unfold prepareEventDocuments. rewrite length_fmap. by symmetry.
Qed.

(** The checks of an accepted save, as conditions on the log. *)
Definition current (t : Tables) (checks : list ConsistencyCheck) : Prop :=
  Forall (λ c, is_context t (context_matches (Criteria c)) (CheckPosition c)) checks.

Lemma prepared_checks_current t obs checks :
  ConsistencyChecksFromObservations obs = Ok checks →
  Forall (λ pc, pc_err pc = None) (prepareConsistencyChecks checks)
  ∧ (Forall (check_ok t) (prepareConsistencyChecks checks) ↔ current t checks).
Proof.
  intros Hobs.
  assert (Forall (λ c, Forall (λ r, Forall valid_tag (Tags r)) (Criteria c)) checks) as Hv.
  { apply Forall_forall. intros c Hc. apply Forall_forall. intros r Hr.
    destruct (accepted_checks_canonical _ _ _ _ Hobs Hc Hr) as [H _].
    eapply Forall_impl; [exact H|]. by intros t' [? _]. }
  clear Hobs. unfold current, prepareConsistencyChecks.
  induction Hv as [|c checks Hc _ IH]; [by rewrite !Forall_nil|].
  rewrite !fmap_cons, !Forall_cons. destruct IH as [IH1 IH2]. rewrite IH2.
  destruct (latestCriteriaQueries_ok _ Hc) as (qs & Hqs & _ & Hh). rewrite Hqs.
  split; [done|]. unfold check_ok. simpl. rewrite (is_context_ext _ _ _ _ Hh). naive_solver.
Qed.

(** The position of the last event of a save that starts on [t]. *)
Definition save_position (t : Tables) (req : SaveEventsV2Request) : Z :=
  (Z.of_nat (length (t_events t)) + Z.of_nat (length (SR_Events req)))%Z.

Lemma last_id_position t req p :
  log_inv t → length (ps_inserts p) = length (SR_Events req) →
  last_id (t_next_id t) p = save_position t req.
Proof. intros Hl Hlen. pose proof (la_length _ _ Hl). unfold last_id, save_position. lia. Qed.

Lemma save_accepted s now ctx req (w : World Registry) r w' conn :
  sqlite_store s now → text_ok now → text_events (SR_Events req) →
  backend w !! SR_Boundary req = Some conn → log_inv (c_tables conn) →
  SaveEventsV2 s ctx (Some req) w = (Ok r, w') →
  let gid := save_position (c_tables conn) req in
  r = mkWriteResult (WriteID gid gid) (mkPosition gid gid)
  ∧ ∃ checks prepared p conn' t1, admitted_save s ctx req now checks prepared p
      ∧ accepts (c_tables conn) (t_next_id (c_tables conn)) p t1
      ∧ last_id (t_next_id (c_tables conn)) p = gid
      ∧ backend w' = <[SR_Boundary req := conn']> (backend w)
      ∧ c_tables conn' = commit_tables t1 (next_after (t_next_id (c_tables conn)) p)
      ∧ log_inv (c_tables conn').
Proof.
  intros Hs Hnow Ht Hb Hl H gid.
  destruct (SaveEventsV2_admitted _ _ _ _ _ _ _ Hs H) as (checks & prepared & p & Had & Hsome).
  destruct (SaveEventsV2_sqlite _ _ _ _ _ _ _ _ Hs Had Hsome) as (n & res & w1 & H1 & Hw & Hr).
  rewrite H in H1. injection H1 as <- <-.
  destruct (admitted_good _ _ _ _ _ _ _ Had Hnow Ht) as (Hg & _ & _ & Hlen & _ & _).
  destruct (submit_alone_saved _ _ _ p n Hb Hl Hg) as (conn' & Hx & Hsv).
  rewrite Hx in Hw. unfold save_reply in Hr. destruct (submit_alone _ _ _ _) as [o|]; [|done].
  simpl in Hsv. destruct (sr_err o); [done|]. destruct Hsv as (t1 & Ha & Htb & ->). simpl in Hr.
  pose proof (accepts_log_at _ _ _ _ Hl Ha) as Hl1. pose proof (la_next _ _ Hl) as Hnx.
  pose proof (last_id_position _ req _ Hl Hlen) as Hid. fold gid in Hid. rewrite Hid in Hr.
  assert (0 <= gid <= MaxInt64)%Z as Hgid.
  { pose proof (la_next _ _ Hl1) as Hm. unfold next_after in Hm. pose proof (la_length _ _ Hl).
    unfold gid, save_position. lia. }
  rewrite parseInt64_FormatInt in Hr by done. injection Hr as ->. split; [done|].
  exists checks, prepared, p, conn', t1. split_and!; try done. rewrite Htb. by apply log_at_next.
Qed.


(** Observations whose strings can be recorded. *)
Definition text_checks (checks : list ConsistencyCheck) : Prop :=
  Forall (λ check, Forall text_criterion (Criteria check)
    ∧ is_int64 (CommitPosition (CheckPosition check))
    ∧ is_int64 (PreparePosition (CheckPosition check))) checks.

(** What the client may expect to be accepted: allowed, well formed, on an exposed
boundary, with room in the log. *)
Record acceptable (s : EventStore Registry) (ctx : Ctx) (req : SaveEventsV2Request)
    (t : Tables) (checks : list ConsistencyCheck) : Prop := {
  ok_authorized : authorizeRequest ctx [RoleAdmin; RoleOperations] = Ok tt;
  ok_live : ctx_Err ctx = None;
  ok_active : RequireBoundaryActive (Some s) (SR_Boundary req) = Ok tt;
  ok_events : SR_Events req ≠ [];
  ok_prepared : is_ok (prepareRequestedEventsForSave (SR_Events req)) = true;
  ok_text : text_events (SR_Events req);
  ok_checks : ConsistencyChecksFromObservations (SR_Consistency req) = Ok checks;
  ok_record : text_checks checks;
  ok_room : (t_next_id t + Z.of_nat (length (SR_Events req)) <= MaxInt64)%Z }.

Lemma acceptable_admitted s ctx req t checks now :
  acceptable s ctx req t checks →
  ∃ prepared p, admitted_save s ctx req now checks prepared p
    ∧ ∃ l, json_Unmarshal (ps_consistencyJSON p) = Ok (JArray l).
Proof.
  intros [Ha Hctx Hact Hne Hp _ Hc Htc _].
  destruct (prepareRequestedEventsForSave (SR_Events req)) as [prepared|] eqn:E; [|done].
  destruct (marshal_decode_checks _ _ "" Hc Htc) as (data & Hm & _ & l & Hd).
  exists prepared, (mkSave (ctx_Err ctx) now (prepareEventDocuments prepared) data
    (prepareConsistencyChecks checks)). split; [|by exists l].
  constructor; try done. unfold prepareSQLiteSave. by rewrite Hm.
Qed.

Lemma save_outcome s now ctx req (w : World Registry) conn checks :
  sqlite_store s now → text_ok now →
  backend w !! SR_Boundary req = Some conn → log_inv (c_tables conn) → clean conn →
  acceptable s ctx req (c_tables conn) checks →
  ∃ res w' conn', SaveEventsV2 s ctx (Some req) w = (res, w')
    ∧ backend w' = <[SR_Boundary req := conn']> (backend w)
    ∧ ((is_ok res = true ∧ current (c_tables conn) checks)
       ∨ (res = Err version_conflict ∧ ¬ current (c_tables conn) checks
          ∧ c_tables conn' = c_tables conn)).
Proof.
  intros Hs Hnow Hb Hl Hc Hok.
  destruct (acceptable_admitted _ _ _ _ _ now Hok) as (prepared & p & Had & l & Hj).
  destruct (SaveEventsV2_sqlite _ _ _ _ _ _ _ w Hs Had) as (n & res & w' & H & Hw & Hr);
    [by eexists|].
  destruct (admitted_good _ _ _ _ _ _ _ Had Hnow (ok_text _ _ _ _ _ Hok))
    as (Hg & Hn & Hins & Hlen & Hck & Hctx).
  destruct (submit_alone_clean _ _ _ p n Hb Hl Hg Hc) as (conn' & o & Hx & Hsub & Hsv).
  rewrite Hsub in Hr. rewrite Hx in Hw. simpl in Hsv, Hr.
  exists res, w', conn'. split_and!; [done..|].
  destruct (prepared_checks_current (c_tables conn) _ _ (ok_checks _ _ _ _ _ Hok)) as [Hev Hcur].
  rewrite <-Hck in Hev, Hcur.
  destruct (sr_err o) as [e|] eqn:Ee.
  - destruct Hsv as [Href Hsame].
    destruct Href as [(ce & Hce & _)|[[_ (pc & Hin & Hnok & Hwhy)]|(_ & Hcs & Hns)]].
    + rewrite Hctx, (ok_live _ _ _ _ _ Hok) in Hce. done.
    + rewrite Forall_forall in Hev.
      destruct Hwhy as [[_ ->]|[He _]]; [|by rewrite Hev in He].
      right. split_and!; [by rewrite Hr| |done].
      intros Hall%Hcur. rewrite Forall_forall in Hall. by destruct (Hnok (Hall _ Hin)).
    + destruct Hns. split_and!.
      * intros Hnil. rewrite Hnil in Hlen. destruct (SR_Events req) eqn:E; [|done].
        by destruct (ok_events _ _ _ _ _ Hok).
      * rewrite Hlen. apply (ok_room _ _ _ _ _ Hok).
      * rewrite Hins, Hn. eapply prepared_documents_text; [|done|apply (ok_text _ _ _ _ _ Hok)].
        apply prepared_events, (as_prepared _ _ _ _ _ _ _ Had).
      * by exists l.
  - destruct Hsv as (t1 & Ha & _ & ->). simpl in Hr.
    pose proof (la_next _ _ Hl). pose proof (la_next _ _ (accepts_log_at _ _ _ _ Hl Ha)) as Hm.
    unfold next_after in Hm. rewrite parseInt64_FormatInt in Hr by (unfold last_id; lia).
    left. split; [by rewrite Hr|]. apply Hcur, (ac_checks _ _ _ _ Ha).
Qed.

(** C1: a save is a compare-and-append. On a working database, a request that may be
accepted is accepted exactly when all its observations are current; otherwise it is
refused with the version conflict ([AlreadyExists]) and the log is unchanged. *)
Theorem save_compare_and_append s now ctx req (w : World Registry) conn checks :
  sqlite_store s now → text_ok now →
  backend w !! SR_Boundary req = Some conn → log_inv (c_tables conn) → clean conn →
  acceptable s ctx req (c_tables conn) checks →
  (current (c_tables conn) checks →
     is_ok (SaveEventsV2 s ctx (Some req) w).1 = true)
  ∧ (¬ current (c_tables conn) checks →
     ∃ w' conn', SaveEventsV2 s ctx (Some req) w = (Err version_conflict, w')
       ∧ backend w' = <[SR_Boundary req := conn']> (backend w)
       ∧ c_tables conn' = c_tables conn).
Proof.
  intros Hs Hnow Hb Hl Hc Hok.
  destruct (save_outcome _ _ _ _ _ _ _ Hs Hnow Hb Hl Hc Hok)
    as (res & w' & conn' & -> & Hw & [[Hr Hcur]|(-> & Hncur & Ht)]); split; intros H; try done.
  by exists w', conn'.
Qed.

(** ** Reading a context and saving on it *)

Lemma tag_sql_holds_canonical doc (t : Tag) :
  tag_sql_holds doc (canonical_tag t)
  = tag_sql_holds doc (mkReadTag (Tag_Key t) (Tag_Value t) (Tag_Operator t)).
Proof.
  unfold tag_sql_holds. simpl.
  assert (TagSQLOperator (canonical_operator (Tag_Operator t)) = TagSQLOperator (Tag_Operator t))
    as ->; [|done].
  unfold canonical_operator. by destruct (String.eqb_spec (Tag_Operator t) "eq") as [->|].
Qed.

Definition read_criteria (criteria : list (option Criterion)) : list ReadCriterion :=
  LQ_Criteria (latestQueryFromRequest (mkLatestRequest "" criteria)).

Definition present_criterion (d : Criterion) : ReadCriterion :=
  mkReadCriterion ((λ t, mkReadTag (Tag_Key t) (Tag_Value t) (Tag_Operator t)) <$> present_tags d).

Lemma read_criteria_present q :
  Forall valid_criterion (Query_Criteria q) →
  read_criteria (Query_Criteria q) = present_criterion <$> present_criteria q.
Proof.
  unfold read_criteria, latestQueryFromRequest, present_criteria. simpl.
  induction 1 as [|o l (d & -> & _) _ IH]; [done|]. rewrite fmap_cons. simpl. by rewrite IH.
Qed.

Lemma present_tags_nonempty q d :
  Forall valid_criterion (Query_Criteria q) → d ∈ present_criteria q → present_tags d ≠ [].
Proof.
  intros Hv (o & Ho & ->)%list_elem_of_omap. rewrite Forall_forall in Hv.
  destruct (Hv _ Ho) as (d' & [= <-] & Hne & Htags). unfold present_tags.
  destruct (Criterion_Tags d) as [|t ts]; [done|].
  by apply Forall_cons in Htags as [(u & -> & _) _].
Qed.

Lemma normal_criterion_sql doc d :
  forallb (tag_sql_holds doc) (Tags (normal_criterion d))
  = forallb (tag_sql_holds doc) (Tags (present_criterion d)).
Proof.
  rewrite (forallb_ext_elem _ _ (canonical_tags d))
    by (intros t; apply (normal_criterion_spec d)).
  unfold canonical_tags, present_criterion. simpl. induction (present_tags d) as [|t ts IH]; [done|].
  rewrite !fmap_cons. simpl. by rewrite IH, tag_sql_holds_canonical.
Qed.

Lemma normal_criterion_nonempty d : present_tags d ≠ [] → Tags (normal_criterion d) ≠ [].
Proof.
  intros Hne Hnil. destruct (normal_criterion_spec d) as [Hs _]. unfold canonical_tags in Hs.
  destruct (present_tags d) as [|t ts]; [done|]. specialize (Hs (canonical_tag t)).
  rewrite Hnil, fmap_cons in Hs. by apply (not_elem_of_nil (canonical_tag t)), Hs; left.
Qed.

Lemma context_matches_some cs doc :
  cs ≠ [] → (∀ c, c ∈ cs → Tags c ≠ []) →
  context_matches cs doc = existsb (λ c, forallb (tag_sql_holds doc) (Tags c)) cs.
Proof. intros Hne Ht. unfold context_matches. rewrite list_filter_all by done. by destruct cs. Qed.

(** Normalizing a query does not change which stored documents are in its context. *)
Lemma normalize_context q cs key doc :
  normalizeConsistencyQuery (Some q) = Ok (cs, key) →
  context_matches cs doc = context_matches (read_criteria (Query_Criteria q)) doc.
Proof.
  intros (Hne & Hv & Hm & _)%normalizeConsistencyQuery_ok.
  rewrite (read_criteria_present _ Hv).
  assert (∃ d, d ∈ present_criteria q) as [d0 Hd0].
  { unfold present_criteria. destruct (Query_Criteria q) as [|o l]; [done|].
    apply Forall_cons in Hv as [(d & -> & _) _]. exists d. simpl. left. }
  rewrite !context_matches_some.
  - apply existsb_ext_elem.
    + intros c (d & -> & Hd)%Hm%list_elem_of_fmap Hc. exists (present_criterion d).
      rewrite <-normal_criterion_sql. split; [|done]. apply list_elem_of_fmap. eauto.
    + intros c (d & -> & Hd)%list_elem_of_fmap Hc. exists (normal_criterion d).
      rewrite normal_criterion_sql. split; [|done]. apply Hm, list_elem_of_fmap. eauto.
  - by destruct (present_criteria q); [apply not_elem_of_nil in Hd0|].
  - intros c (d & -> & Hd)%list_elem_of_fmap.
    pose proof (present_tags_nonempty _ _ Hv Hd). simpl. by destruct (present_tags d).
  - intros ->. by apply (not_elem_of_nil (normal_criterion d0)), Hm, list_elem_of_fmap; eauto.
  - intros c (d & -> & Hd)%Hm%list_elem_of_fmap.
    by eapply normal_criterion_nonempty, present_tags_nonempty.
Qed.

(** The checks of a save with a single observation. *)
Lemma single_observation q pos checks t :
  ConsistencyChecksFromObservations [Some (mkObservation (Some q) (Some pos))] = Ok checks →
  current t checks ↔ is_context t (context_matches (read_criteria (Query_Criteria q))) pos.
Proof.
  unfold ConsistencyChecksFromObservations. intros H. case_match; [done|].
  destruct (check_observations _ _) as [st|] eqn:E; [|done]. injection H as <-.
  apply (check_observations_inv _ _ []) in E as [Hobs Hfrom _ _]; [|apply checks_inv_nil].
  simpl in *. unfold current. rewrite Forall_forall. split.
  - intros Hall. destruct (Hobs (Some (mkObservation (Some q) (Some pos))))
      as (q' & cs & key & pos' & ([= <- <-] & Hn & _) & Hin); [left|].
    specialize (Hall _ Hin). simpl in Hall. eapply is_context_ext; [|exact Hall].
    intros doc. symmetry. by eapply normalize_context.
  - intros Hc c Hin. destruct (Hfrom c Hin) as (o & q' & key & ->%list_elem_of_singleton & Ho & _).
    destruct Ho as ([= <- <-] & Hn & _). eapply is_context_ext; [|exact Hc].
    intros doc. by eapply normalize_context.
Qed.

(** A context moves exactly when an event in it is appended. *)
Lemma is_context_append t n t' n' P p rows :
  log_at t n → log_at t' n' → t_events t' = t_events t ++ rows → is_context t P p →
  is_context t' P p ↔ existsb (λ r, P (row_doc r)) rows = false.
Proof.
  intros Hl Hl' He Hp. rewrite <-not_true_iff_false, existsb_exists. split.
  - intros Hp' (r & [i Hi]%list_elem_of_In%list_elem_of_lookup & HP).
    assert (t_events t' !! (length (t_events t) + i) = Some r) as Hr.
    { rewrite He, lookup_app_r by lia. by replace (_ + i - _) with i by lia. }
    assert (pos_le (row_pos r) p) as Hle.
    { eapply is_context_ge; [exact Hl'|done| |done]. by eapply list_elem_of_lookup_2. }
    apply pos_not_lt in Hle. destruct Hle.
    destruct Hp as [[-> _]|(s & [j Hj]%list_elem_of_lookup & _ & <- & _)].
    + eapply log_pos_positive; [exact Hl'|]. by eapply list_elem_of_lookup_2.
    + eapply (log_pos_increasing _ _ j); [exact Hl'| | |exact Hr].
      * apply lookup_lt_Some in Hj. lia.
      * rewrite He. by apply lookup_app_l_Some.
  - intros Hno.
    assert (∀ r, r ∈ rows → P (row_doc r) = false) as Hf.
    { intros r Hr. destruct (P (row_doc r)) eqn:E; [|done]. destruct Hno. exists r.
      by rewrite <-list_elem_of_In. }
    destruct Hp as [[-> Hn]|(s & Hs & HPs & <- & Hm)].
    + left. split; [done|]. intros r. rewrite He, elem_of_app. intros [?|?]; auto.
    + right. exists s. rewrite He. setoid_rewrite elem_of_app. split_and!; [by left|done|done|].
      intros u [Hu|Hu] HPu; [by auto|]. by rewrite Hf in HPu.
Qed.

Lemma latest_context s now ctx lreq resp pools conn :
  sqlite_store s now → pools !! LR_Boundary lreq = Some conn → log_inv (c_tables conn) →
  EventStore_GetLatestByCriteria s ctx (Some lreq) pools = Ok resp →
  is_context (c_tables conn) (context_matches (read_criteria (LR_Criteria lreq)))
    (LRS_ContextPosition resp).
Proof.
  intros [_ Hs] Hb Hl H. unfold EventStore_GetLatestByCriteria in H.
  case_bool_decide; [done|]. apply result_bind_ok in H as ([] & _ & H).
  case_bool_decide; [done|]. apply result_bind_ok in H as ([] & _ & H).
  apply result_bind_ok in H as ([] & _ & H). rewrite Hs in H. simpl in H.
  apply result_bind_ok in H as (batch & Hg & H). case_bool_decide; [|done]. injection H as <-.
  apply (GetLatestByCriteria_sound _ conn) in Hg as (_ & _ & Hc); [|done..]. exact Hc.
Qed.

(** A save that observes a context at a position, after another save succeeded. *)
Lemma save_on_context s now b criteria pos ctxA reqA rA ctxB reqB conn connA checks
    (w wA : World Registry) :
  sqlite_store s now → text_ok now → backend w !! b = Some conn → log_inv (c_tables conn) →
  is_context (c_tables conn) (context_matches (read_criteria criteria)) pos →
  SR_Boundary reqA = b → text_events (SR_Events reqA) →
  SaveEventsV2 s ctxA (Some reqA) w = (Ok rA, wA) →
  backend wA !! b = Some connA → clean connA → SR_Boundary reqB = b →
  SR_Consistency reqB = [Some (mkObservation (Some (mkQuery criteria)) (Some pos))] →
  acceptable s ctxB reqB (c_tables connA) checks →
  let added := drop (length (t_events (c_tables conn))) (t_events (c_tables connA)) in
  if existsb (λ r, context_matches (read_criteria criteria) (row_doc r)) added
  then ∃ wB connB, SaveEventsV2 s ctxB (Some reqB) wA = (Err version_conflict, wB)
         ∧ backend wB = <[b := connB]> (backend wA) ∧ c_tables connB = c_tables connA
  else is_ok (SaveEventsV2 s ctxB (Some reqB) wA).1 = true.
Proof.
  intros Hs Hnow Hb Hl Hctx HbA HtA HA HbcA Hclean HbB HobsB Hok added.
  rewrite <-HbA in Hb.
  destruct (save_accepted _ _ _ _ _ _ _ _ Hs Hnow HtA Hb Hl HA)
    as (_ & _ & _ & p & conn' & t1 & _ & Hacc & _ & Hw & Htb & HlA).
  rewrite Hw, HbA, lookup_insert_eq in HbcA. injection HbcA as ->.
  destruct (ac_rows _ _ _ _ Hacc) as (rows & Hrows & _).
  assert (t_events (c_tables connA) = t_events (c_tables conn) ++ rows) as Hev by (by rewrite Htb).
  assert (added = rows) as -> by (unfold added; rewrite Hev; by rewrite drop_app_length).
  pose proof (is_context_append _ _ _ _ _ _ _ Hl HlA Hev Hctx) as Hmove.
  pose proof (ok_checks _ _ _ _ _ Hok) as Hck. rewrite HobsB in Hck.
  pose proof (single_observation _ _ _ (c_tables connA) Hck) as Hcur. simpl in Hcur.
  destruct (save_outcome s now ctxB reqB wA connA checks)
    as (res & wB & connB & -> & HwB & Hout); [done|done| |done|done|done|].
  { rewrite Hw, HbA, HbB. by rewrite lookup_insert_eq. }
  rewrite HbB in HwB. destruct (existsb _ rows) eqn:E.
  - destruct Hout as [[_ Hc]|(-> & _ & Ht)]; [|by exists wB, connB].
    by apply Hcur, Hmove in Hc.
  - destruct Hout as [[Hr _]|(_ & Hc & _)]; [done|]. destruct Hc. by apply Hcur, Hmove.
Qed.

(** C2: the context position is the lock of its query. A client reads the context of
a query; another client's save succeeds; then the first saves with the query
observed at the position it read. On a working database it is accepted exactly when
no event of the other save is in the context; otherwise it gets the version conflict
and the log stays as the other client left it. *)
Theorem context_position_is_lock s now ctxR lreq resp ctxA reqA rA ctxB reqB conn connA checks
    (w wA : World Registry) :
  sqlite_store s now → text_ok now →
  backend w !! LR_Boundary lreq = Some conn → log_inv (c_tables conn) →
  EventStore_GetLatestByCriteria s ctxR (Some lreq) (backend w) = Ok resp →
  SR_Boundary reqA = LR_Boundary lreq → text_events (SR_Events reqA) →
  SaveEventsV2 s ctxA (Some reqA) w = (Ok rA, wA) →
  backend wA !! LR_Boundary lreq = Some connA → clean connA →
  SR_Boundary reqB = LR_Boundary lreq →
  SR_Consistency reqB = [Some (mkObservation (Some (mkQuery (LR_Criteria lreq)))
                                             (Some (LRS_ContextPosition resp)))] →
  acceptable s ctxB reqB (c_tables connA) checks →
  let added := drop (length (t_events (c_tables conn))) (t_events (c_tables connA)) in
  if existsb (λ r, context_matches (read_criteria (LR_Criteria lreq)) (row_doc r)) added
  then ∃ wB connB, SaveEventsV2 s ctxB (Some reqB) wA = (Err version_conflict, wB)
         ∧ backend wB = <[LR_Boundary lreq := connB]> (backend wA)
         ∧ c_tables connB = c_tables connA
  else is_ok (SaveEventsV2 s ctxB (Some reqB) wA).1 = true.
Proof.
  intros Hs Hnow Hb Hl Hread HbA HtA HA HbcA Hclean HbB HobsB Hok.
  pose proof (latest_context _ _ _ _ _ _ _ Hs Hb Hl Hread) as Hctx.
  exact (save_on_context _ _ _ _ _ _ _ _ _ _ _ _ _ _ _ Hs Hnow Hb Hl Hctx HbA HtA HA HbcA Hclean HbB
           HobsB Hok).
Qed.

End SqliteBackend.

(** ** Witnesses *)

#[local] Existing Instances example_json example_stored_json example_sql_text example_sqlitex
  example_time.

Definition example_now : string := "2026-01-01T00:00:00Z".

Definition example_store : EventStore Registry :=
  mkEventStore (sqlite_saver example_now) sqlite_retriever None true true true {["orders"]}.

Definition example_caller : Ctx :=
  mkCtx (Some (mkUser "u-1" "Operator" "operator" "" [RoleOperations])) None.

Definition example_save (id : string) : SaveEventsV2Request :=
  mkSaveRequest "orders"
    [Some (mkEventToSave id "OrderPlaced" (PE_DataJSON (example_event id)) "")] example_observed.

Definition example_world : World Registry := mkWorld {[ "orders" := example_conn ]} [].

Definition example_saved : result WriteResult * World Registry :=
  Eval vm_compute in SaveEventsV2 example_store example_caller (Some (example_save "e-1"))
    example_world.

Definition example_written : WriteResult := mkWriteResult "1:1" (mkPosition 1 1).

Lemma example_saved_eq :
  SaveEventsV2 example_store example_caller (Some (example_save "e-1")) example_world
  = (Ok example_written, example_saved.2).
Proof. vm_compute. reflexivity. Qed.

Lemma example_save_text id : text_events (SR_Events (example_save id)).
Proof. constructor; [|constructor]. intros e _. split; exact I. Qed.

Lemma example_sqlite_store : sqlite_store example_store example_now.
Proof. split; reflexivity. Qed.


Lemma example_acceptable t :
  (t_next_id t + 1 <= MaxInt64)%Z →
  acceptable example_store example_caller (example_save "e-2") t [example_check].
Proof.
  intros Hroom. split.
  - reflexivity.
  - reflexivity.
  - vm_compute. reflexivity.
  - discriminate.
  - vm_compute. reflexivity.
  - apply example_save_text.
  - vm_compute. reflexivity.
  - repeat constructor; simpl; try exact I; discriminate.
  - exact Hroom.
Qed.

Lemma save_compare_and_append_witness :
  is_ok (SaveEventsV2 example_store example_caller (Some (example_save "e-2")) example_world).1
  = true.
Proof.
  apply (@save_compare_and_append example_json example_json_laws example_stored_json
    example_stored_laws example_sql_text example_time example_sqlitex example_sqlitex_laws
    example_store example_now example_caller (example_save "e-2") example_world example_conn
    [example_check] example_sqlite_store I eq_refl log_inv_empty (conj eq_refl eq_refl)).
  - apply example_acceptable. discriminate.
  - constructor; [|constructor]. left. split; [reflexivity|]. intros r Hr.
    destruct (not_elem_of_nil r Hr).
Defined.

Definition example_latest : GetLatestByCriteriaRequest :=
  mkLatestRequest "orders" [Some (mkCriterion [Some (mkTag "order" "o-1" "")])].

Definition example_connA : Conn :=
  Eval vm_compute in default example_conn (example_saved.2.(backend) !! "orders").

(** Of two clients that read the same empty context, the second gets the conflict. *)
Lemma context_position_is_lock_witness :
  ∃ wB connB, SaveEventsV2 example_store example_caller (Some (example_save "e-2"))
                example_saved.2 = (Err version_conflict, wB)
    ∧ backend wB = <["orders" := connB]> (backend example_saved.2)
    ∧ c_tables connB = c_tables example_connA.
Proof.
  refine (@context_position_is_lock example_json example_json_laws example_stored_json
    example_stored_laws example_sql_text example_time example_sqlitex example_sqlitex_laws
    example_store example_now example_caller example_latest
    (mkLatestResponse [mkLatestResult (Some (mkCriterion [Some (mkTag "order" "o-1" "")])) None]
       NotExistsPosition) example_caller (example_save "e-1") example_written
    example_caller (example_save "e-2") example_conn example_connA [example_check] example_world
    example_saved.2 example_sqlite_store I eq_refl log_inv_empty _ eq_refl (example_save_text "e-1")
    example_saved_eq _ (conj eq_refl eq_refl) eq_refl eq_refl _).
  - vm_compute. reflexivity.
  - vm_compute. reflexivity.
  - apply example_acceptable. discriminate.
Defined.
