(* ===== verification/Subscription.v ===== *)
(** * Subscriptions: [orisun/subscription_drain.go], [orisun/subscription_notifications.go]

The reader of a subscription: it is woken by coalesced hints and reads the log
forward from its cursor until it has caught up. Time passes at every effect of the
reader, and between two of them the log may grow, the context may end, the lease
may be lost and hints may arrive. The theorems are proved against what the reader
needs of a retriever ([lawful_retriever]), which the SQLite store provides. *)

From stdpp Require Import options.
From S2P Require Import Prelude Status Model Number Json Predicates Consistency EventData.
From S2P Require Import WriteContext SqlPredicates Sql SqliteStore SqliteLog GroupCommit.
From S2P Require Import SqliteRead SqliteIndex EventStore Api.

Set Default Proof Using "Type*".

(** [eventstore.Tag], [eventstore.Criterion], [eventstore.Query],
[eventstore.SubscribeRequest]. *)
Record SubscribeRequest := mkSubscribe {
  Sub_Boundary : string; Sub_SubscriberName : string;
  Sub_AfterPosition : option Position; Sub_Query : list ReadCriterion }.

Definition subscriptionQuery (query : list ReadCriterion) : option Query :=
  match query with
  | [] => None
  | _ => Some (mkQuery ((λ c, Some (mkCriterion
           ((λ t, Some (mkTag (Key t) (Value t) (Operator t))) <$> Tags c))) <$> query))
  end.

Definition lock_name (boundary subscriber : string) : string := boundary +:+ "__" +:+ subscriber.

Section Drain.
Context {B : Type}.

(** What the reader meets at each instant: the backend, the error of its context and
of its check, the answer of the handler, and whether a hint is received. *)
Record Env := mkEnv {
  env_backend : nat → B;
  env_ctx : nat → option goerror;
  env_check : nat → option goerror;
  env_handler : nat → ReadEvent → option goerror;
  env_wake : nat → bool }.

(** [subscriptionDrain], with the instant and the events that the handler accepted. *)
Record subscriptionDrain := mkDrain {
  d_cursor : option Position; d_initialized : bool; d_pending : bool;
  d_clock : nat; d_delivered : list ReadEvent }.

Definition newSubscriptionDrain (after : option Position) : subscriptionDrain :=
  mkDrain after (bool_decide (is_Some after)) false 0 [].

(** [wake]: a hint is recorded; a second one before it is consumed is the same. *)
Definition wake (d : subscriptionDrain) : subscriptionDrain :=
  mkDrain (d_cursor d) (d_initialized d) true (d_clock d) (d_delivered d).

Context (env : Env) (retriever : EventsRetriever B) (boundary : string) (query : option Query).

(** An effect takes place and time passes. *)
Definition tick (d : subscriptionDrain) : subscriptionDrain :=
  let d' := if env_wake env (d_clock d) then wake d else d in
  mkDrain (d_cursor d') (d_initialized d') (d_pending d') (S (d_clock d)) (d_delivered d').

Definition checkActive (d : subscriptionDrain) : result unit * subscriptionDrain :=
  (match env_ctx env (d_clock d) with
   | Some e => Err e
   | None => match env_check env (d_clock d) with Some e => Err e | None => Ok tt end
   end, tick d).

Fixpoint validate_from (previous : option Position) (first : bool) (batch : list ReadEvent)
  : result unit :=
  match batch with
  | [] => Ok tt
  | event :: batch =>
      let same p := (RE_CommitPosition event =? CommitPosition p)%Z
                    && (RE_PreparePosition event =? PreparePosition p)%Z in
      let advances := match previous with
        | None => true
        | Some p => positionValuesAfter (RE_CommitPosition event) (RE_PreparePosition event)
                      (CommitPosition p) (PreparePosition p) || (first && same p)
        end in
      if advances then validate_from (Some (RE_Position event)) false batch
      else Err (PlainError "non-advancing position at batch index %d")
  end.

Definition validate (d : subscriptionDrain) (batch : list ReadEvent) (count : Z) : result unit :=
  if (count <? Z.of_nat (length batch))%Z
  then Err (PlainError "backend returned %d events for limit %d")
  else validate_from (d_cursor d) true batch.

Definition set_cursor (d : subscriptionDrain) (event : ReadEvent) : subscriptionDrain :=
  mkDrain (Some (RE_Position event)) (d_initialized d) (d_pending d) (d_clock d)
    (d_delivered d ++ [event]).

(** The loop over a batch. *)
Fixpoint deliver_batch (batch : list ReadEvent) (d : subscriptionDrain)
  : result unit * subscriptionDrain :=
  match batch with
  | [] => (Ok tt, d)
  | event :: batch =>
      if bool_decide (d_cursor d = Some (RE_Position event)) then deliver_batch batch d
      else match checkActive d with
           | (Err e, d) => (Err e, d)
           | (Ok _, d) =>
               match env_handler env (d_clock d) event with
               | Some _ => (Err (Errorf Internal "subscription event handler failed: %v"), tick d)
               | None => deliver_batch batch (tick (set_cursor d event))
               end
           end
  end.

Definition batchSize : Z := 100.

Definition drain_request (d : subscriptionDrain) : GetEventsRequest :=
  if d_initialized d
  then mkGetEventsRequest query (d_cursor d) batchSize Direction_ASC boundary
  else mkGetEventsRequest query None 1 Direction_DESC boundary.

(** One turn of the loop of [drain]; [true] when it has caught up. *)
Definition drain_turn (d : subscriptionDrain) : result bool * subscriptionDrain :=
  match checkActive d with
  | (Err e, d) => (Err e, d)
  | (Ok _, d) =>
      let req := drain_request d in
      match retriever_GetBatch retriever (mkCtx None (env_ctx env (d_clock d))) req
              (env_backend env (d_clock d)) with
      | Err _ =>
          (Err (match env_ctx env (S (d_clock d)) with
                | Some e => e
                | None => Errorf Internal "failed to get subscription events: %v"
                end), tick d)
      | Ok batch =>
          let initial := negb (d_initialized d) in
          match validate d batch (GE_Count req) with
          | Err _ => (Err (Errorf Internal "invalid subscription batch: %v"), tick d)
          | Ok _ =>
              match deliver_batch batch (tick d) with
              | (Err e, d) => (Err e, d)
              | (Ok _, d) =>
                  (Ok (bool_decide (batch = [])
                       || (negb initial && (Z.of_nat (length batch) <? batchSize)%Z)),
                   mkDrain (d_cursor d) true (d_pending d) (d_clock d) (d_delivered d))
              end
          end
      end
  end.

(** [drain]; [None] when the fuel has run out. *)
Fixpoint drain (fuel : nat) (d : subscriptionDrain) : option (result unit * subscriptionDrain) :=
  match fuel with
  | 0 => None
  | S fuel =>
      match drain_turn d with
      | (Err e, d) => Some (Err e, d)
      | (Ok true, d) => Some (Ok tt, d)
      | (Ok false, d) => drain fuel d
      end
  end.

(** Taking the hint: [<-d.pending]. *)
Definition consume (d : subscriptionDrain) : subscriptionDrain :=
  mkDrain (d_cursor d) (d_initialized d) false (d_clock d) (d_delivered d).

(** The loop of [run] while it goes on: it waits for a hint, or takes it and drains. *)
Inductive run_step : subscriptionDrain → subscriptionDrain → Prop :=
  | run_wait d : d_pending d = false → run_step d (tick d)
  | run_drain d fuel d' : d_pending d = true →
      drain fuel (consume d) = Some (Ok tt, d') → run_step d d'.

(** How [run] ends. *)
Inductive run_ends : subscriptionDrain → goerror → subscriptionDrain → Prop :=
  | end_ctx d e : env_ctx env (d_clock d) = Some e → run_ends d e d
  | end_drain d fuel e d' : d_pending d = true →
      drain fuel (consume d) = Some (Err e, d') → run_ends d e d'.

End Drain.
Arguments Env : clear implicits.

(** [SubscribeToAllEvents] up to the reader: what it runs, or why it does not. The lock
provider answers [lease] for the lock name; [store] is the store at each instant. *)
Definition SubscribeToAllEvents {B} (s : EventStore B) (request : SubscribeRequest)
    (handler connected : bool) (acquire : string → option goerror)
  : result (option Query * subscriptionDrain) :=
  if negb handler then Err (New InvalidArgument "event handler is required")
  else
    _ ← RequireBoundaryActive (Some s) (Sub_Boundary request);
    let query := subscriptionQuery (Sub_Query request) in
    _ ← ValidateQuery query;
    if negb (js s && connected)
    then Err (New FailedPrecondition "subscription notification connection is required")
    else match acquire (lock_name (Sub_Boundary request) (Sub_SubscriberName request)) with
         | Some _ => Err (Errorf AlreadyExists "failed to acquire lock: %v")
         | None => Ok (query, newSubscriptionDrain (Sub_AfterPosition request))
         end.

(** The check that the reader makes before every effect. *)
Definition subscription_check {B} (store : nat → EventStore B) (lease : nat → option goerror)
    (boundary : string) (t : nat) : option goerror :=
  match RequireBoundaryActive (Some (store t)) boundary with
  | Err e => Some e
  | Ok _ => lease t
  end.

(** ** What the reader needs of a retriever *)

Definition from_cursor (from : option Position) (e : ReadEvent) : bool :=
  match from with None => true | Some p => bool_decide (pos_le p (RE_Position e)) end.

(** The events of a subscription that starts after [start]. *)
Definition after_start (start : option Position) (e : ReadEvent) : bool :=
  match start with None => true | Some p => bool_decide (pos_lt p (RE_Position e)) end.

Definition target (start : option Position) (events : list ReadEvent) : list ReadEvent :=
  filter (λ e, after_start start e = true) events.

Definition event_lt (e f : ReadEvent) : Prop := pos_lt (RE_Position e) (RE_Position f).

(** On a good backend, [visible] lists the events of the query in strict order of
position; a forward read returns the first of them from the cursor on, the
backward read of one event the last of them. *)
Record lawful_retriever {B} (retriever : EventsRetriever B) (boundary : string)
    (query : option Query) (good : B → Prop) (visible : B → list ReadEvent) : Prop := {
  lr_sorted b : good b → StronglySorted event_lt (visible b);
  lr_forward b ctx from batch : good b →
    retriever_GetBatch retriever ctx
      (mkGetEventsRequest query from batchSize Direction_ASC boundary) b = Ok batch →
    batch = take (Z.to_nat batchSize) (filter (λ e, from_cursor from e = true) (visible b));
  lr_latest b ctx batch : good b →
    retriever_GetBatch retriever ctx
      (mkGetEventsRequest query None 1 Direction_DESC boundary) b = Ok batch →
    batch = take 1 (reverse (visible b)) }.

(** The cursor after the handler accepted [delivered] from [start]. *)
Definition cursor_of (start : option Position) (delivered : list ReadEvent) : option Position :=
  match last delivered with Some e => Some (RE_Position e) | None => start end.

Lemma cursor_of_app start a b : cursor_of start (a ++ b) = cursor_of (cursor_of start a) b.
Proof. unfold cursor_of. rewrite last_app. by destruct (last b). Qed.

Lemma cursor_of_cons start e l : cursor_of start (e :: l) = cursor_of (Some (RE_Position e)) l.
Proof. exact (cursor_of_app start [e] l). Qed.

Lemma filter_ge_split p l :
  StronglySorted event_lt l →
  ∃ x, filter (λ e, from_cursor (Some p) e = true) l = x ++ target (Some p) l
       ∧ length x ≤ 1 ∧ ∀ e, e ∈ x → RE_Position e = p.
Proof.
  unfold target. induction l as [|e l IH]; intros Hs.
  { exists []. split_and!; simpl; [done|lia|]. by intros ? ?%elem_of_nil. }
  apply StronglySorted_inv in Hs as [Hs Hf]. rewrite Forall_forall in Hf.
  destruct (decide (pos_le p (RE_Position e))) as [Hle|Hgt].
  - assert (∀ y, y ∈ l → pos_lt p (RE_Position y)) as Hl.
    { intros y Hy. destruct Hle as [Hlt| ->]; [|exact (Hf y Hy)].
      exact (transitivity Hlt (Hf y Hy)). }
    assert (filter (λ f, from_cursor (Some p) f = true) l = l) as Hge.
    { apply list_filter_all. intros y Hy. apply bool_decide_eq_true. left. by apply Hl. }
    assert (filter (λ f, after_start (Some p) f = true) l = l) as Hgt.
    { apply list_filter_all. intros y Hy. apply bool_decide_eq_true. by apply Hl. }
    rewrite filter_cons_True, Hge by (by apply bool_decide_eq_true).
    destruct (decide (pos_lt p (RE_Position e))) as [Hlt|Hn].
    + rewrite filter_cons_True, Hgt by (by apply bool_decide_eq_true). exists [].
      split_and!; simpl; [done|lia|]. by intros ? ?%elem_of_nil.
    + rewrite filter_cons_False, Hgt by (by intros ?%bool_decide_eq_true). exists [e].
      split_and!; simpl; [done|lia|]. intros f ->%list_elem_of_singleton.
      by destruct Hle as [|].
  - destruct (IH Hs) as (x & Hx & Hlen & Hpos). exists x. rewrite !filter_cons_False; [done|..];
      unfold from_cursor, after_start; rewrite bool_decide_eq_true; [|done].
    intros ?. destruct Hgt. by left.
Qed.

(** What is left to deliver, seen from the cursor. *)
Lemma target_split start delivered rest l :
  StronglySorted event_lt l → target start l = delivered ++ rest →
  rest = target (cursor_of start delivered) l.
Proof.
  intros Hs Ht. destruct (last delivered) as [e|] eqn:He.
  - unfold cursor_of. rewrite He. apply last_Some in He as (d & ->).
    assert (StronglySorted event_lt ((d ++ [e]) ++ rest)) as Hs'.
    { rewrite <-Ht. by apply StronglySorted_filter. }
    assert (after_start start e = true) as Hae.
    { assert (e ∈ target start l) as Hin
        by (rewrite Ht, !elem_of_app, list_elem_of_singleton; auto).
      by apply list_elem_of_filter in Hin as [? _]. }
    assert (target (Some (RE_Position e)) l = target (Some (RE_Position e)) (target start l)) as ->.
    { unfold target. rewrite list_filter_filter. apply list_filter_iff. intros f.
      split; [|by intros [? _]]. intros Hf. split; [done|]. unfold after_start in *.
      destruct start as [q|]; [|done]. rewrite bool_decide_eq_true in *.
      by transitivity (RE_Position e). }
    rewrite Ht. unfold target. rewrite filter_app. rewrite list_filter_none, list_filter_all; [done|..].
    + intros f Hf. apply bool_decide_eq_true.
      apply (StronglySorted_app_1_elem_of event_lt (d ++ [e]) rest); [done| |done].
      rewrite elem_of_app, list_elem_of_singleton. by right.
    + intros f Hf. unfold after_start. rewrite bool_decide_eq_true. intros Hlt.
      apply StronglySorted_app_1_l in Hs'. apply elem_of_app in Hf as [Hf| ->%list_elem_of_singleton].
      * assert (event_lt f e) as Hfe
          by (apply (StronglySorted_app_1_elem_of event_lt d [e]); [done|done|left]).
        apply (pos_lt_irrefl (RE_Position e)). by transitivity (RE_Position f).
      * by apply pos_lt_irrefl in Hlt.
  - unfold cursor_of. rewrite He. apply last_None in He as ->. by symmetry.
Qed.

Lemma target_prefix start l k : l `prefix_of` k → target start l `prefix_of` target start k.
Proof. intros [m ->]. unfold target. rewrite filter_app. by eexists. Qed.

(** ** The reader on a lawful retriever *)

Section DrainFacts.
Context {B : Type} (env : Env B) (retriever : EventsRetriever B) (boundary : string)
  (query : option Query) (good : B → Prop) (visible : B → list ReadEvent).
Hypothesis Hlaw : lawful_retriever retriever boundary query good visible.
Hypothesis Hgood : ∀ t, good (env_backend env t).
Hypothesis Hgrows : ∀ t, visible (env_backend env t) `prefix_of` visible (env_backend env (S t)).

Notation V t := (visible (env_backend env t)).
Notation drain := (drain env retriever boundary query).
Notation drain_turn := (drain_turn env retriever boundary query).

Lemma grows s t : s ≤ t → V s `prefix_of` V t.
Proof. induction 1 as [|t _ IH]; [done|]. by transitivity (V t). Qed.

Lemma target_grows start s t : s ≤ t → target start (V s) `prefix_of` target start (V t).
Proof. intros. by apply target_prefix, grows. Qed.

(** Time went on, and exactly the hints of that time were recorded. *)
Record later (d d' : subscriptionDrain) : Prop := {
  later_clock : d_clock d ≤ d_clock d';
  later_pending : d_pending d' = true ↔ d_pending d = true
       ∨ ∃ t, d_clock d ≤ t < d_clock d' ∧ env_wake env t = true }.

Lemma later_refl d : later d d.
Proof. split; [done|]. split; [by left|]. intros [?|(t & ? & _)]; [done|lia]. Qed.

Lemma later_trans d1 d2 d3 : later d1 d2 → later d2 d3 → later d1 d3.
Proof.
  intros [H1 P1] [H2 P2]. split; [lia|]. rewrite P2, P1. split.
  - intros [[?|(t & ? & ?)]|(t & ? & ?)]; [by left|right; exists t; split; [lia|done]..].
  - intros [?|(t & ? & ?)]; [by left; left|]. destruct (decide (t < d_clock d2)).
    + left. right. exists t. split; [lia|done].
    + right. exists t. split; [lia|done].
Qed.

Lemma later_tick d : later d (tick env d).
Proof.
  unfold tick. split; simpl; [lia|]. destruct (env_wake env (d_clock d)) eqn:E; simpl.
  - split; [|done]. intros _. right. exists (d_clock d). split; [lia|done].
  - split; [by left|]. intros [?|(t & ? & Ht)]; [done|].
    replace t with (d_clock d) in Ht by lia. congruence.
Qed.

Lemma tick_fields d :
  d_cursor (tick env d) = d_cursor d ∧ d_initialized (tick env d) = d_initialized d
  ∧ d_delivered (tick env d) = d_delivered d ∧ d_clock (tick env d) = S (d_clock d).
Proof. unfold tick. by destruct (env_wake env (d_clock d)). Qed.

Lemma deliver_batch_skip x l d :
  (∀ e, e ∈ x → d_cursor d = Some (RE_Position e)) →
  deliver_batch env (x ++ l) d = deliver_batch env l d.
Proof.
  induction x as [|e x IH]; intros Hx; [done|]. simpl.
  rewrite bool_decide_true by (apply Hx; left). apply IH. intros f Hf. apply Hx. by right.
Qed.

(** What the handler accepted of a batch beyond the cursor. *)
Definition accepted_of (batch : list ReadEvent) (d : subscriptionDrain) (r : result unit)
    (d' : subscriptionDrain) : Prop :=
  ∃ a b, batch = a ++ b ∧ d_delivered d' = d_delivered d ++ a
    ∧ d_cursor d' = cursor_of (d_cursor d) a ∧ d_initialized d' = d_initialized d
    ∧ later d d' ∧ (r = Ok tt ↔ b = []).

Lemma deliver_batch_spec batch d r d' :
  StronglySorted event_lt batch → (∀ e, e ∈ batch → after_start (d_cursor d) e = true) →
  deliver_batch env batch d = (r, d') → accepted_of batch d r d'.
Proof.
  revert d. induction batch as [|e batch IH]; intros d Hs Hafter H; cbn [deliver_batch] in H.
  { injection H as <- <-. exists [], []. rewrite !app_nil_r. split_and!; try done.
    apply later_refl. }
  apply StronglySorted_inv in Hs as [Hs Hf]. rewrite Forall_forall in Hf.
  assert (after_start (d_cursor d) e = true) as He by (apply Hafter; left).
  rewrite bool_decide_false in H.
  2:{ intros Hc. rewrite Hc in He. by apply bool_decide_eq_true, pos_lt_irrefl in He. }
  destruct (tick_fields d) as (Hc & Hi & Hdl & _).
  assert (∀ r' d1, d_cursor d1 = d_cursor d → d_initialized d1 = d_initialized d →
    d_delivered d1 = d_delivered d → later d d1 → r' ≠ Ok tt →
    accepted_of (e :: batch) d r' d1) as Hstop.
  { intros r' d1 H1 H2 H3 H4 H5. exists [], (e :: batch). rewrite app_nil_r. by split_and!. }
  unfold checkActive in H. set (d1 := tick env d) in *.
  destruct (match env_ctx env (d_clock d) with Some _ => _ | None => _ end) as [[]|e1].
  2:{ injection H as <- <-. apply Hstop; [done..|apply later_tick|done]. }
  destruct (tick_fields d1) as (Hc1 & Hi1 & Hdl1 & _).
  destruct (env_handler env (d_clock d1) e).
  { injection H as <- <-. apply Hstop; [congruence..| |done].
    eapply later_trans; apply later_tick. }
  destruct (tick_fields (set_cursor d1 e)) as (Hc2 & Hi2 & Hdl2 & _).
  apply IH in H as (a & b & -> & Hdel & Hcur & Hini & Hlat & Hok); [|done|].
  - exists (e :: a), b. rewrite Hdel, Hdl2, Hcur, Hc2, Hini, Hi2, cursor_of_cons. simpl.
    rewrite <-Hdl, <-(assoc_L (++)). split_and!; try done.
    eapply later_trans; [apply later_tick|]. eapply later_trans; [|exact Hlat].
    destruct (later_tick (set_cursor d1 e)) as [H1 H2]. by split.
  - intros f Hin. rewrite Hc2. simpl. apply bool_decide_eq_true. by apply Hf.
Qed.

(** The handler has accepted the first events of [target start], and the cursor is
behind the last of them. *)
Record progress (start : option Position) (d : subscriptionDrain) : Prop := {
  pr_initialized : d_initialized d = true;
  pr_delivered : d_delivered d `prefix_of` target start (V (d_clock d));
  pr_cursor : d_cursor d = cursor_of start (d_delivered d) }.

Lemma progress_later start d d' :
  progress start d → d_cursor d' = d_cursor d → d_delivered d' = d_delivered d →
  d_initialized d' = d_initialized d → d_clock d ≤ d_clock d' → progress start d'.
Proof.
  intros [Hi Hd Hc] H1 H2 H3 Hle. split; [congruence| |congruence].
  rewrite H2. etrans; [exact Hd|]. by apply target_grows.
Qed.

Lemma progress_tick start d : progress start d → progress start (tick env d).
Proof.
  intros H. destruct (tick_fields d) as (? & ? & ? & ?).
  by eapply progress_later; [exact H|..]; [done..|lia].
Qed.

(** The rows of a forward read, seen from the cursor. *)
Lemma forward_rows start d t :
  progress start d → d_clock d ≤ t →
  ∃ x rest, target start (V t) = d_delivered d ++ rest
    ∧ rest = target (d_cursor d) (V t)
    ∧ filter (λ e, from_cursor (d_cursor d) e = true) (V t) = x ++ rest
    ∧ length x ≤ 1 ∧ (∀ e, e ∈ x → d_cursor d = Some (RE_Position e))
    ∧ StronglySorted event_lt rest ∧ (∀ e, e ∈ rest → after_start (d_cursor d) e = true).
Proof.
  intros [_ Hd Hc] Hle. pose proof (lr_sorted _ _ _ _ _ Hlaw _ (Hgood t)) as Hs.
  assert (d_delivered d `prefix_of` target start (V t)) as [rest Hr].
  { etrans; [exact Hd|]. by apply target_grows. }
  pose proof (target_split _ _ _ _ Hs Hr) as Hrest. rewrite <-Hc in Hrest.
  assert (StronglySorted event_lt rest ∧ ∀ e, e ∈ rest → after_start (d_cursor d) e = true)
    as [Hsr Har].
  { rewrite Hrest. split; [by apply StronglySorted_filter|]. by intros e [? _]%list_elem_of_filter. }
  destruct (d_cursor d) as [p|] eqn:Ep.
  - destruct (filter_ge_split p (V t) Hs) as (x & Hx & Hlen & Hpos). exists x, rest.
    rewrite Hx, <-Hrest. split_and!; try done. intros e He. f_equal. by symmetry; apply Hpos.
  - exists [], rest. split_and!; try done; [simpl; lia|]. by intros e ?%elem_of_nil.
Qed.

(** How far a turn got: it caught up with the log of its start when it says so. *)
Definition advanced (start : option Position) (d : subscriptionDrain) (caught : bool)
    (d' : subscriptionDrain) : Prop :=
  progress start d' ∧ later d d' ∧ d_delivered d `prefix_of` d_delivered d'
  ∧ (caught = true → target start (V (d_clock d)) `prefix_of` d_delivered d').

(** A full batch advances by at least one event, a shorter one catches up. *)
Lemma forward_batch start d batch r d' :
  progress start d →
  batch = take (Z.to_nat batchSize) (filter (λ e, from_cursor (d_cursor d) e = true) (V (d_clock d))) →
  deliver_batch env batch (tick env d) = (r, d') →
  advanced start d (bool_decide (r = Ok tt) && (Z.of_nat (length batch) <? batchSize)%Z) d'
  ∧ (r = Ok tt → (batchSize <= Z.of_nat (length batch))%Z →
     length (d_delivered d) < length (d_delivered d')).
Proof.
  intros Hp Hb E.
  destruct (forward_rows start d (d_clock d) Hp) as (x & rest & Ht & Hr & Hf & Hx1 & Hx & Hs & Ha);
    [done|].
  rewrite Hf, take_app in Hb. set (k := Z.to_nat batchSize - length x) in *.
  destruct (tick_fields d) as (Hc2 & Hi2 & Hd2 & Hck2).
  assert (accepted_of (take k rest) (tick env d) r d')
    as (a & b & Hab & Hdel & Hcur & Hini & Hlat & Hok).
  { rewrite Hb, deliver_batch_skip in E.
    - eapply deliver_batch_spec; [| |exact E].
      + rewrite <-(take_drop k rest) in Hs. by apply StronglySorted_app_1_l in Hs.
      + intros e He. rewrite Hc2. apply Ha. apply elem_of_take in He as (i & Hi & _).
        by eapply list_elem_of_lookup_2.
    - intros e He. rewrite Hc2. apply Hx. apply elem_of_take in He as (i & Hi & _).
      by eapply list_elem_of_lookup_2. }
  rewrite Hd2 in Hdel. rewrite Hc2, (pr_cursor _ _ Hp), <-cursor_of_app, <-Hdel in Hcur.
  rewrite Hi2, (pr_initialized _ _ Hp) in Hini.
  assert (length batch = length (take (Z.to_nat batchSize) x) + length (take k rest)) as Hlen
    by (by rewrite Hb, length_app).
  assert (r = Ok tt → a = take k rest) as Hall.
  { intros ->. by rewrite Hab, (proj1 Hok eq_refl), app_nil_r. }
  split; [split_and!|].
  - split; [done| |done]. etrans; [|apply (target_grows start (d_clock d)),
      (later_clock _ _ (later_trans _ _ _ (later_tick d) Hlat))].
    rewrite Hdel, Ht. apply prefix_app. exists (b ++ drop k rest).
    by rewrite (assoc_L (++)), <-Hab, take_drop.
  - by eapply later_trans; [apply later_tick|].
  - rewrite Hdel. by eexists.
  - intros [Hrok%bool_decide_eq_true Hlt%Z.ltb_lt]%andb_true_iff.
    rewrite Hdel, (Hall Hrok), Ht. apply prefix_app.
    rewrite take_ge; [done|]. rewrite !length_take in Hlen. unfold k, batchSize in *. lia.
  - intros Hrok Hge. rewrite Hdel, (Hall Hrok), length_app.
    rewrite (length_take x) in Hlen. unfold batchSize in *. lia.
Qed.

Lemma turn_progress start d r d' :
  progress start d → drain_turn d = (r, d') →
  advanced start d (bool_decide (r = Ok true)) d'
  ∧ (r = Ok false → length (d_delivered d) < length (d_delivered d')).
Proof.
  intros Hp H. unfold Subscription.drain_turn, checkActive in H.
  pose proof (progress_tick _ _ Hp) as Hp1. pose proof (later_tick d) as Hl1.
  destruct (tick_fields d) as (_ & _ & Hd1 & Hck1). set (d1 := tick env d) in *.
  assert (∀ d2 e, d2 = d1 ∨ d2 = tick env d1 →
    advanced start d (bool_decide (@Err bool e = Ok true)) d2
    ∧ (@Err bool e = Ok false → length (d_delivered d) < length (d_delivered d2))) as Hstop.
  { intros d2 e Hd2. rewrite bool_decide_false by done. split; [|done]. split_and!; [| | |done].
    - destruct Hd2 as [-> | ->]; [done|by apply progress_tick].
    - destruct Hd2 as [-> | ->]; [done|]. eapply later_trans; [done|apply later_tick].
    - destruct Hd2 as [-> | ->]; [|rewrite (proj1 (proj2 (proj2 (tick_fields d1))))];
        by rewrite Hd1. }
  destruct (match env_ctx env (d_clock d) with Some _ => _ | None => _ end) as [[]|e1].
  2:{ injection H as <- <-. apply Hstop. by left. }
  unfold drain_request in H. rewrite (pr_initialized _ _ Hp1) in H.
  destruct (retriever_GetBatch _ _ _ _) as [batch|] eqn:Hb.
  2:{ injection H as <- <-. apply Hstop. by right. }
  destruct (validate _ _ _) as [[]|]; [|injection H as <- <-; apply Hstop; by right].
  apply (lr_forward _ _ _ _ _ Hlaw _ _ _ _ (Hgood _)) in Hb.
  destruct (deliver_batch env batch (tick env d1)) as [rd d3] eqn:E.
  destruct (forward_batch start d1 batch rd d3 Hp1 Hb E) as [(Hp3 & Hl3 & Hpd & Hc) Hlt].
  rewrite Hd1 in Hpd, Hlt. pose proof (later_trans _ _ _ Hl1 Hl3) as Hl'.
  destruct rd as [[]|e].
  2:{ injection H as <- <-. split; [|done]. rewrite bool_decide_false by done. by split_and!. }
  injection H as <- <-. simpl.
  assert (bool_decide (batch = []) || (Z.of_nat (length batch) <? batchSize)%Z
    = (Z.of_nat (length batch) <? batchSize)%Z) as Hb'.
  { by destruct batch. }
  rewrite Hb'. split; [split_and!; [by destruct Hp3|by destruct Hl'|done|]|].
  - intros [= Hsmall]%bool_decide_eq_true. etrans; [|apply Hc; apply andb_true_iff; split; [by apply bool_decide_eq_true|exact Hsmall]].
    apply target_grows. lia.
  - intros [= Hbig]. apply Hlt; [done|]. by apply Z.ltb_ge.
Qed.

(** A subscription with no position given that has not read yet. *)
Record fresh (d : subscriptionDrain) : Prop := {
  fr_initialized : d_initialized d = false;
  fr_cursor : d_cursor d = None;
  fr_delivered : d_delivered d = [] }.

(** Where a subscription starts: after the position given, or else with the latest
event, if any, of its first read. *)
Definition starts (after start : option Position) (d : subscriptionDrain) : Prop :=
  match after with
  | Some _ => start = after
  | None => ∃ t, t < d_clock d ∧ target start (V t) = take 1 (reverse (V t))
  end.

Lemma starts_later after start d d' : starts after start d → later d d' → starts after start d'.
Proof.
  unfold starts. destruct after; [done|]. intros (t & Ht & H) Hl. exists t.
  pose proof (later_clock _ _ Hl). split; [lia|done].
Qed.

Lemma fresh_tick d : fresh d → fresh (tick env d).
Proof. intros []. destruct (tick_fields d) as (? & ? & ? & ?). split; congruence. Qed.

(** The position before the last event. *)
Lemma latest_start l :
  StronglySorted event_lt l →
  ∃ start, target start l = take 1 (reverse l) ∧ (l = [] → start = None).
Proof.
  intros Hs. destruct l as [|e l _] using rev_ind; [by exists None|].
  rewrite reverse_app. change (take 1 (reverse [e] ++ reverse l)) with [e].
  destruct l as [|f l _] using rev_ind; [exists None; split; [done|]; by intros|].
  exists (Some (RE_Position f)). split; [|by intros [? ?]%app_nil].
  unfold target. rewrite filter_app, list_filter_none.
  - simpl. rewrite filter_cons_True; [done|]. apply bool_decide_eq_true.
    apply (StronglySorted_app_1_elem_of event_lt (l ++ [f]) [e]); [done| |left].
    rewrite elem_of_app, list_elem_of_singleton. by right.
  - intros g Hg. unfold after_start. rewrite bool_decide_eq_true. intros Hlt.
    apply StronglySorted_app_1_l in Hs. apply elem_of_app in Hg as [Hg| ->%list_elem_of_singleton].
    + assert (event_lt g f) as Hgf
        by (apply (StronglySorted_app_1_elem_of event_lt l [f]); [done|done|left]).
      apply (pos_lt_irrefl (RE_Position f)). by transitivity (RE_Position g).
    + by apply pos_lt_irrefl in Hlt.
Qed.

Lemma turn_fresh d r d' :
  fresh d → drain_turn d = (r, d') →
  later d d' ∧ ((fresh d' ∧ is_ok r = false)
    ∨ ∃ start, starts None start d' ∧ progress start d'
        ∧ (r = Ok true → target start (V (d_clock d)) `prefix_of` d_delivered d')).
Proof.
  intros Hf H. unfold Subscription.drain_turn, checkActive in H.
  pose proof (later_tick d) as Hl1. pose proof (fresh_tick d Hf) as Hf1.
  destruct (tick_fields d) as (_ & _ & _ & Hck1). set (d1 := tick env d) in *.
  pose proof (later_tick d1) as Hl2. pose proof (fresh_tick d1 Hf1) as Hf2.
  assert (later d (tick env d1)) as Hl by (by eapply later_trans).
  destruct (match env_ctx env (d_clock d) with Some _ => _ | None => _ end) as [[]|e1].
  2:{ injection H as <- <-. split; [done|]. by left. }
  unfold drain_request in H. rewrite (fr_initialized _ Hf1) in H.
  destruct (retriever_GetBatch _ _ _ _) as [batch|] eqn:Hb.
  2:{ injection H as <- <-. split; [done|]. by left. }
  destruct (validate _ _ _) as [[]|]; [|injection H as <- <-; split; [done|by left]].
  apply (lr_latest _ _ _ _ _ Hlaw _ _ _ (Hgood _)) in Hb.
  pose proof (lr_sorted _ _ _ _ _ Hlaw _ (Hgood (d_clock d1))) as Hs.
  destruct (latest_start _ Hs) as (start & Hst & Hnone).
  destruct (deliver_batch env batch (tick env d1)) as [rd d3] eqn:E.
  destruct (tick_fields d1) as (_ & _ & _ & Hck2).
  assert (batch = [] ∨ ∃ e, batch = [e]) as Hone.
  { rewrite Hb. destruct (reverse _); [by left|right; by eexists]. }
  apply deliver_batch_spec in E as (a & b & Hab & Hdel & Hcur & Hini & Hlat & Hok).
  2:{ destruct Hone as [-> |[e ->]]; repeat constructor. }
  2:{ intros e _. by rewrite (fr_cursor _ Hf2). }
  rewrite (fr_delivered _ Hf2) in Hdel. rewrite (fr_cursor _ Hf2) in Hcur. simpl in Hdel.
  pose proof (later_trans _ _ _ Hl Hlat) as Hl3. pose proof (later_clock _ _ Hlat) as Hle.
  destruct rd as [[]|e].
  - injection H as <- <-. split; [by destruct Hl3|]. right. exists start.
    rewrite (proj1 Hok eq_refl), app_nil_r in Hab. subst a. simpl. rewrite <-Hb in Hst.
    split_and!.
    + exists (d_clock d1). simpl. split; [lia|]. congruence.
    + split; simpl; [done| |].
      * rewrite Hdel, <-Hst. apply target_grows. lia.
      * rewrite Hcur, Hdel. destruct Hone as [Hz|[e ->]]; [|done].
        rewrite Hz. symmetry. apply Hnone. rewrite Hb in Hz.
        destruct (V (d_clock d1)) as [|f l _] using rev_ind; [done|]. by rewrite reverse_app in Hz.
    + intros [= Hc]. rewrite orb_false_r in Hc. apply bool_decide_eq_true in Hc.
      rewrite Hdel, <-Hst. apply target_grows. lia.
  - injection H as <- <-. split; [done|]. left. split; [|done].
    assert (a = []) as ->.
    { destruct a as [|x a]; [done|]. destruct Hone as [-> |[e' ->]]; [done|].
      injection Hab as _ Hab. symmetry in Hab. apply app_nil in Hab as [_ Hb'].
      by apply Hok in Hb'. }
    split; [by rewrite Hini, (fr_initialized _ Hf2)|done|done].
Qed.

(** The reader before or after its first read. *)
Definition following (after : option Position) (d : subscriptionDrain) : Prop :=
  (after = None ∧ fresh d) ∨ ∃ start, starts after start d ∧ progress start d.

Lemma drain_progress fuel start d r d' :
  progress start d → drain fuel d = Some (r, d') →
  advanced start d (bool_decide (r = Ok tt)) d'.
Proof.
  revert d. induction fuel as [|fuel IH]; intros d Hp H; cbn [Subscription.drain] in H; [done|].
  destruct (drain_turn d) as [rt d1] eqn:E.
  destruct (turn_progress _ _ _ _ Hp E) as [(Hp1 & Hl1 & Hd1 & Hc1) _].
  destruct rt as [[]|e]; [injection H as <- <-; by split_and!| |injection H as <- <-; by split_and!].
  destruct (IH _ Hp1 H) as (Hp' & Hl' & Hd' & Hc'). split_and!; [done| | |].
  - by eapply later_trans.
  - by transitivity (d_delivered d1).
  - intros Hr. etrans; [|by apply Hc']. apply target_grows, (later_clock _ _ Hl1).
Qed.

Lemma drain_fresh fuel d r d' :
  fresh d → drain fuel d = Some (r, d') →
  later d d' ∧ ((fresh d' ∧ is_ok r = false)
    ∨ ∃ start, starts None start d' ∧ progress start d'
        ∧ (r = Ok tt → target start (V (d_clock d)) `prefix_of` d_delivered d')).
Proof.
  destruct fuel as [|fuel]; intros Hf H; cbn [Subscription.drain] in H; [done|].
  destruct (drain_turn d) as [rt d1] eqn:E. pose proof E as Et.
  apply turn_fresh in Et as [Hl1 Hcase]; [|done]. destruct rt as [[]|e].
  - injection H as <- <-. split; [done|]. right.
    destruct Hcase as [[_ ?]|(start & ? & ? & Hc)]; [done|]. exists start. split_and!; auto.
  - destruct Hcase as [[_ ?]|(start & Hs & Hp & _)]; [done|].
    destruct (drain_progress _ _ _ _ _ Hp H) as (Hp' & Hl' & _ & Hc').
    split; [by eapply later_trans|]. right. exists start. split_and!; [|done|].
    + by eapply starts_later.
    + intros ->. etrans; [|apply Hc'; by apply bool_decide_eq_true].
      apply target_grows, (later_clock _ _ Hl1).
  - injection H as <- <-. split; [done|].
    destruct Hcase as [[? _]|(start & ? & ? & _)]; [by left|right]. by exists start.
Qed.

(** The invariant of a subscription that runs: where it is, and that every hint it
received is recorded or has been acted upon. *)
Definition acted (start : option Position) (d : subscriptionDrain) : Prop :=
  ∀ t, t < d_clock d → env_wake env t = true →
    d_pending d = true ∨ target start (V t) `prefix_of` d_delivered d.

Definition run_inv (after : option Position) (d : subscriptionDrain) : Prop :=
  (after = None ∧ fresh d ∧ ∀ t, t < d_clock d → env_wake env t = true → d_pending d = true)
  ∨ ∃ start, starts after start d ∧ progress start d ∧ acted start d.

Lemma run_inv_new after : run_inv after (newSubscriptionDrain after).
Proof.
  destruct after as [p|].
  - right. exists (Some p). split_and!; [done| |intros t Ht; simpl in Ht; lia].
    split; [done|simpl; apply prefix_nil|done].
  - left. split_and!; [done|done|]. intros t Ht. simpl in Ht. lia.
Qed.

Lemma run_inv_step after d d' :
  run_inv after d → run_step env retriever boundary query d d' → run_inv after d'.
Proof.
  intros Hi Hstep. destruct Hstep as [d Hp|d fuel d' Hp H].
  - pose proof (later_tick d) as Hl. destruct (tick_fields d) as (_ & _ & Hd & Hck).
    assert (∀ t, t < d_clock (tick env d) → env_wake env t = true →
      t < d_clock d ∨ d_pending (tick env d) = true) as Ht.
    { intros t Hlt Hw. destruct (decide (t < d_clock d)); [by left|right].
      apply (later_pending _ _ Hl). right. exists t. split; [lia|done]. }
    destruct Hi as [(-> & Hf & Hw)|(start & Hs & Hpr & Ha)].
    + left. split_and!; [done|by apply fresh_tick|]. intros t Hlt Hwk.
      destruct (Ht t Hlt Hwk) as [?|?]; [|done]. apply (later_pending _ _ Hl). left. by eapply Hw.
    + right. exists start. split_and!; [by eapply starts_later|by apply progress_tick|].
      intros t Hlt Hwk. destruct (Ht t Hlt Hwk) as [Hlt'|?]; [|by left].
      destruct (Ha t Hlt' Hwk) as [?|?]; [congruence|]. right. by rewrite Hd.
  - assert (∀ start, target start (V (d_clock d)) `prefix_of` d_delivered d' →
      later (consume d) d' → acted start d') as Hact.
    { intros start Hc Hl t Hlt Hwk. destruct (decide (t < d_clock d)).
      - right. etrans; [|exact Hc]. apply target_grows. lia.
      - left. apply (later_pending _ _ Hl). right. exists t. simpl. split; [lia|done]. }
    destruct Hi as [(-> & Hf & Hw)|(start & Hs & Hpr & Ha)].
    + assert (fresh (consume d)) as Hf' by (by destruct Hf).
      destruct (drain_fresh _ _ _ _ Hf' H) as [Hl [[_ ?]|(start & Hs & Hpr & Hc)]]; [done|].
      right. exists start. split_and!; [done|done|]. apply Hact; [|done]. by apply Hc.
    + assert (progress start (consume d)) as Hpr' by (by destruct Hpr).
      destruct (drain_progress _ _ _ _ _ Hpr' H) as (Hp' & Hl & _ & Hc).
      right. exists start. split_and!; [|done|].
      * eapply (starts_later _ _ (consume d)); done.
      * apply Hact; [|done]. apply Hc. by apply bool_decide_eq_true.
Qed.

Lemma run_inv_reachable after d :
  rtc (run_step env retriever boundary query) (newSubscriptionDrain after) d → run_inv after d.
Proof.
  assert (∀ d0, rtc (run_step env retriever boundary query) d0 d →
    run_inv after d0 → run_inv after d) as Hr by (induction 1; eauto using run_inv_step).
  intros H. eapply Hr; [done|apply run_inv_new].
Qed.

(** C15: a subscription delivers its events in order, once, and none is missed. Whatever
fails and whenever hints arrive while the log grows, the events that the handler
accepted are the first ones after the subscription's start, in the order of the log;
and when the reader waits with no hint recorded, every event that was committed before
a received hint has been delivered. The start is the position given, or else the
latest event of the first read. *)
Theorem subscription_delivery after d :
  rtc (run_step env retriever boundary query) (newSubscriptionDrain after) d →
  (∀ e d', run_ends env retriever boundary query d e d' →
     (d_delivered d' = [] ∧ d_initialized d' = false) ∨ ∃ start, starts after start d'
       ∧ d_delivered d' `prefix_of` target start (V (d_clock d')))
  ∧ ((d_delivered d = [] ∧ d_initialized d = false) ∨ ∃ start, starts after start d
       ∧ d_delivered d `prefix_of` target start (V (d_clock d))
       ∧ (d_pending d = false → ∀ t, t < d_clock d → env_wake env t = true →
            target start (V t) `prefix_of` d_delivered d)).
Proof.
  intros Hrun.
  pose proof (run_inv_reachable _ _ Hrun) as Hi.
  assert (following after d) as Hf.
  { destruct Hi as [(? & ? & _)|(start & ? & ? & _)]; [by left|right; eauto]. }
  split.
  - assert (∀ d', following after d' → (d_delivered d' = [] ∧ d_initialized d' = false)
      ∨ ∃ start, starts after start d' ∧ d_delivered d' `prefix_of` target start (V (d_clock d')))
      as Hfin by (intros d' [[_ []]|(start & ? & [])]; [by left|right; eauto]).
    intros e d' He. inversion He as [? ? _|? fuel ? ? _ Hd]; subst; apply Hfin; [done|].
    destruct Hf as [[-> Hfr]|(start & Hs & Hp)].
    + destruct (drain_fresh _ (consume d) _ _ ltac:(by destruct Hfr) Hd)
        as [_ [[? _]|(start & ? & ? & _)]]; [by left|right; eauto].
    + destruct (drain_progress _ start (consume d) _ _ ltac:(by destruct Hp) Hd) as (? & Hl & _).
      right. exists start. split; [|done]. by eapply (starts_later _ _ (consume d)).
  - destruct Hi as [(_ & [] & _)|(start & ? & [] & Ha)]; [by left|]. right. exists start.
    split_and!; [done|done|]. intros Hq t Ht Hw. destruct (Ha t Ht Hw); [congruence|done].
Qed.

(** ** Termination *)

Lemma drain_returns fuel start d N :
  progress start d → (∀ t, length (V t) ≤ N) → N < fuel + length (d_delivered d) →
  is_Some (drain fuel d).
Proof.
  revert d. induction fuel as [|fuel IH]; intros d Hp HN Hlt.
  - exfalso. pose proof (prefix_length _ _ (pr_delivered _ _ Hp)) as Hle. unfold target in Hle.
    rewrite length_filter in Hle. specialize (HN (d_clock d)). lia.
  - cbn [Subscription.drain]. destruct (drain_turn d) as [rt d1] eqn:E.
    destruct (turn_progress _ _ _ _ Hp E) as [(Hp1 & _) Hadv].
    destruct rt as [[]|e]; [by eexists| |by eexists]. apply IH; [done|done|].
    specialize (Hadv eq_refl). lia.
Qed.

(** Nothing fails: the context lives, the lease is kept, the handler accepts, and the
backend answers. *)
Record no_failures : Prop := {
  nf_ctx t : env_ctx env t = None;
  nf_check t : env_check env t = None;
  nf_handler t e : env_handler env t e = None;
  nf_backend t ctx req : GE_Query req = query → GE_Boundary req = boundary →
    is_ok (retriever_GetBatch retriever ctx req (env_backend env t)) = true }.

Lemma validate_from_sorted previous first batch :
  StronglySorted event_lt batch → (∀ e, e ∈ batch → after_start previous e = true) →
  validate_from previous first batch = Ok tt.
Proof.
  revert previous first. induction batch as [|e batch IH]; intros previous first Hs Ha; [done|].
  apply StronglySorted_inv in Hs as [Hs Hf]. rewrite Forall_forall in Hf. cbn [validate_from].
  assert (after_start previous e = true) as He by (apply Ha; left).
  assert (validate_from (Some (RE_Position e)) false batch = Ok tt) as Hrest.
  { apply IH; [done|]. intros f Hin. apply bool_decide_eq_true. by apply Hf. }
  destruct previous as [p|]; [|done]. apply bool_decide_eq_true in He.
  assert (positionValuesAfter (RE_CommitPosition e) (RE_PreparePosition e)
    (CommitPosition p) (PreparePosition p) = true) as ->; [|done].
  apply positionValuesAfter_spec. by destruct p.
Qed.

Lemma validate_rows previous x rest :
  length x ≤ 1 → (∀ e, e ∈ x → previous = Some (RE_Position e)) →
  StronglySorted event_lt rest → (∀ e, e ∈ rest → after_start previous e = true) →
  validate_from previous true (x ++ rest) = Ok tt.
Proof.
  intros Hx Hp Hs Ha. destruct x as [|e [|]]; simpl in Hx; [|simpl|lia].
  - by apply validate_from_sorted.
  - assert (previous = Some (RE_Position e)) as -> by (apply Hp; left). simpl.
    rewrite !Z.eqb_refl, orb_true_r. by apply validate_from_sorted.
Qed.

Lemma sorted_take l k : StronglySorted event_lt l → StronglySorted event_lt (take k l).
Proof. intros H. rewrite <-(take_drop k l) in H. by apply StronglySorted_app_1_l in H. Qed.

Lemma deliver_ok batch d : no_failures → ∃ d', deliver_batch env batch d = (Ok tt, d').
Proof.
  intros Hn. revert d. induction batch as [|e batch IH]; intros d; [by eexists|]. simpl.
  case_bool_decide; [done|]. by rewrite (nf_ctx Hn), (nf_check Hn), (nf_handler Hn).
Qed.

Lemma turn_ok after d :
  following after d → no_failures → ∃ b d', drain_turn d = (Ok b, d').
Proof.
  intros Hf Hn. unfold Subscription.drain_turn, checkActive.
  rewrite (nf_ctx Hn), (nf_check Hn). set (d1 := tick env d).
  pose proof (nf_backend Hn (d_clock d1) (mkCtx None (env_ctx env (d_clock d1)))
    (drain_request boundary query d1)) as Hb.
  destruct (retriever_GetBatch _ _ _ _) as [batch|] eqn:E.
  2:{ exfalso. assert (false = true) by (apply Hb; unfold drain_request; by case_match). done. }
  assert (validate d1 batch (GE_Count (drain_request boundary query d1)) = Ok tt) as ->.
  2:{ destruct (deliver_ok batch (tick env d1) Hn) as [d2 ->]. by eexists _, _. }
  destruct Hf as [[_ Hfr]|(start & _ & Hp)].
  - pose proof (fresh_tick d Hfr) as Hf1. fold d1 in Hf1. unfold drain_request in *.
    rewrite (fr_initialized _ Hf1) in *. simpl.
    apply (lr_latest _ _ _ _ _ Hlaw _ _ _ (Hgood _)) in E.
    unfold validate. rewrite (fr_cursor _ Hf1). subst batch.
    destruct (reverse _) as [|e l]; [done|]. simpl. done.
  - pose proof (progress_tick _ _ Hp) as Hp1. fold d1 in Hp1. unfold drain_request in *.
    rewrite (pr_initialized _ _ Hp1) in *. simpl.
    apply (lr_forward _ _ _ _ _ Hlaw _ _ _ _ (Hgood _)) in E.
    destruct (forward_rows start d1 (d_clock d1) Hp1) as (x & rest & _ & _ & Hr & Hx1 & Hx & Hs & Ha);
      [done|].
    rewrite Hr, take_app in E. unfold validate. rewrite (proj2 (Z.ltb_ge _ _)).
    + rewrite E. apply validate_rows; [rewrite length_take; lia| | |].
      * intros e (i & Hi & _)%elem_of_take. apply Hx. by eapply list_elem_of_lookup_2.
      * by apply sorted_take.
      * intros e (i & Hi & _)%elem_of_take. apply Ha. by eapply list_elem_of_lookup_2.
    + rewrite E, length_app, !length_take. unfold batchSize. lia.
Qed.

Lemma drain_not_err fuel after d r d' :
  following after d → no_failures → drain fuel d = Some (r, d') → r = Ok tt.
Proof.
  intros Hf Hn. revert d Hf. induction fuel as [|fuel IH]; intros d Hf H;
    cbn [Subscription.drain] in H; [done|].
  destruct (turn_ok _ _ Hf Hn) as (b & d1 & E). rewrite E in H.
  destruct b; [by injection H|]. apply (IH d1); [|done].
  destruct Hf as [[-> Hfr]|(start & Hs & Hp)].
  - destruct (turn_fresh _ _ _ Hfr E) as [_ [[_ ?]|(start & ? & ? & _)]]; [done|].
    right. by exists start.
  - destruct (turn_progress _ _ _ _ Hp E) as [(Hp1 & Hl & _) _]. right. exists start.
    split; [by eapply starts_later|done].
Qed.

(** Catching up terminates. While the subscription has at most [N] events to see, a
drain of the reader returns within [N + 2] reads, whatever fails; and it returns no
error when nothing fails: the reader never takes a batch of a lawful backend for an
invalid one. *)
Theorem drain_terminates after d N :
  rtc (run_step env retriever boundary query) (newSubscriptionDrain after) d →
  (∀ t, length (V t) ≤ N) →
  ∃ r d', drain (N + 2) (consume d) = Some (r, d') ∧ (no_failures → r = Ok tt).
Proof.
  intros Hrun HN.
  pose proof (run_inv_reachable _ _ Hrun) as Hi.
  assert (following after (consume d)) as Hf.
  { destruct Hi as [(? & [] & _)|(start & Hs & [] & _)]; [by left|right].
    exists start. by split. }
  assert (is_Some (drain (N + 2) (consume d))) as [[r d'] H].
  { destruct Hf as [[-> Hfr]|(start & _ & Hp)].
    - replace (N + 2) with (S (S N)) by lia. cbn [Subscription.drain].
      destruct (drain_turn (consume d)) as [rt d1] eqn:E.
      destruct (turn_fresh _ _ _ Hfr E) as [_ [[_ ?]|(start & _ & Hp & _)]];
        destruct rt as [[]|e]; try done; try by eexists.
      apply (drain_returns (S N) start d1 N); [done|done|lia].
    - apply (drain_returns _ start _ N); [done|done|lia]. }
  exists r, d'. split; [done|]. intros Hn. by eapply drain_not_err.
Qed.

End DrainFacts.

(** ** The SQLite store is a lawful retriever *)

Section SqliteSubscription.
Context `{J : GoJson, S : !GoJsonStored, T : SqlText, G : GoTime}.

Definition scanned (r : Row) : ReadEvent :=
  match scanReadEventRow r with Ok e => e | Err _ => mkReadEvent "" "" "" "" "" 0 0 0 end.

Definition sqlite_visible (boundary : string) (query : option Query) (pools : Registry)
  : list ReadEvent :=
  match pools !! boundary with
  | Some conn => scanned <$> matching (context_matches (default [] (query_criteria query)))
                               Direction_ASC None (c_tables conn)
  | None => []
  end.

Definition sqlite_good (boundary : string) (pools : Registry) : Prop :=
  ∃ conn, pools !! boundary = Some conn ∧ log_inv (c_tables conn)
    ∧ ∀ r, r ∈ t_events (c_tables conn) → ∃ e, scanReadEventRow r = Ok e.

Lemma matching_elem P dir from t r : r ∈ matching P dir from t → r ∈ t_events t.
Proof. unfold matching. by intros [_ ?]%list_elem_of_filter. Qed.

Lemma scanned_position (t : Tables) r :
  (∀ r, r ∈ t_events t → ∃ e, scanReadEventRow r = Ok e) → r ∈ t_events t →
  scanReadEventRow r = Ok (scanned r) ∧ RE_Position (scanned r) = row_pos r.
Proof.
  intros Hscan Hr. destruct (Hscan r Hr) as [e He]. unfold scanned. rewrite He.
  split; [done|]. by eapply scan_position.
Qed.

Lemma scanned_filter (t : Tables) P from (l : list Row) :
  (∀ r, r ∈ t_events t → ∃ e, scanReadEventRow r = Ok e) → (∀ r, r ∈ l → r ∈ t_events t) →
  scanned <$> filter (λ r, P (row_doc r) && in_range Direction_ASC from r = true) l
  = filter (λ e, from_cursor from e = true)
      (scanned <$> filter (λ r, P (row_doc r) && in_range Direction_ASC None r = true) l).
Proof.
  intros Hscan. induction l as [|r l IH]; intros Hin; [done|].
  destruct (scanned_position _ r Hscan) as [_ Hp]; [apply Hin; left|].
  assert (from_cursor from (scanned r) = in_range Direction_ASC from r) as Hr.
  { destruct from as [p|]; [|done]. simpl. by rewrite Hp. }
  specialize (IH (λ r' Hr', Hin r' (list_elem_of_further _ _ _ Hr'))).
  rewrite !filter_cons. change (in_range Direction_ASC None r) with true.
  destruct (P (row_doc r)), (in_range Direction_ASC from r) eqn:Ei; cbn [andb];
    repeat (case_decide; try done); rewrite ?fmap_cons, ?filter_cons, ?Hr, ?Ei;
    repeat (case_decide; try done); by rewrite ?fmap_cons, IH.
Qed.

Lemma sqlite_lawful boundary query :
  lawful_retriever (@sqlite_retriever J S T G) boundary query (sqlite_good boundary)
    (sqlite_visible boundary query).
Proof.
  assert (∀ (t : Tables) l, (∀ r, r ∈ t_events t → ∃ e, scanReadEventRow r = Ok e) →
    (∀ r, r ∈ l → r ∈ t_events t) → mapM scanReadEventRow l = Ok (scanned <$> l)) as Hmap.
  { intros t l Hscan Hl. apply mapM_ok. intros r Hr. by apply (scanned_position t), Hl. }
  split.
  - intros pools (conn & Hb & Hl & Hscan). unfold sqlite_visible. rewrite Hb.
    set (rows := matching _ _ _ _).
    assert (StronglySorted row_lt rows) as Hs
      by (apply StronglySorted_filter; by eapply log_sorted).
    assert (∀ r, r ∈ rows → r ∈ t_events (c_tables conn)) as Hin by (intros r; apply matching_elem).
    clearbody rows. induction Hs as [|r rows _ IH Hf]; [constructor|].
    rewrite fmap_cons. constructor; [apply IH; intros; apply Hin; by right|].
    rewrite Forall_fmap. rewrite Forall_forall in Hf |- *. intros r' Hr'. unfold compose, event_lt.
    destruct (scanned_position _ r Hscan) as [_ ->]; [apply Hin; left|].
    destruct (scanned_position _ r' Hscan) as [_ ->]; [apply Hin; by right|]. by apply Hf.
  - intros pools ctx from batch (conn & Hb & Hl & Hscan) H.
    apply (GetBatch_sound _ conn) in H as (cs & Hcs & H); [|done..]. cbn in Hcs, H.
    rewrite (Hmap (c_tables conn)) in H; [|done|].
    2:{ intros r (i & Hi & _)%elem_of_take. by eapply matching_elem, list_elem_of_lookup_2. }
    injection H as <-. unfold sqlite_visible. rewrite Hb, Hcs. simpl.
    rewrite fmap_take. f_equal. unfold matching.
    by apply (scanned_filter (c_tables conn)).
  - intros pools ctx batch (conn & Hb & Hl & Hscan) H.
    apply (GetBatch_sound _ conn) in H as (cs & Hcs & H); [|done..]. cbn in Hcs, H.
    rewrite (Hmap (c_tables conn)) in H; [|done|].
    2:{ intros r (i & Hi & _)%elem_of_take. apply list_elem_of_lookup_2 in Hi.
        rewrite elem_of_reverse in Hi. by eapply matching_elem. }
    injection H as <-. unfold sqlite_visible. rewrite Hb, Hcs. simpl.
    rewrite fmap_take, fmap_reverse. f_equal.
Qed.

End SqliteSubscription.

(** ** Witnesses *)

#[local] Existing Instances example_json example_stored_json example_sql_text example_sqlitex
  example_time.

(** A hint arrives at the first instant; nothing fails. *)
Definition example_env : Env Registry :=
  mkEnv (λ _, example_pools) (λ _, None) (λ _, None) (λ _ _, None) (λ t, Nat.eqb t 0).

Definition example_after_zero : option Position := Some (mkPosition 0 0).

Definition example_drained : subscriptionDrain :=
  mkDrain (Some (mkPosition 1 1)) true false 5 [example_read].

Lemma example_good_pools : sqlite_good "orders" example_pools.
Proof.
  exists example_after. split; [reflexivity|]. split; [exact example_after_inv|].
  intros r Hr. apply list_elem_of_singleton in Hr as ->. eexists. vm_compute. reflexivity.
Qed.

Lemma example_run :
  rtc (run_step example_env sqlite_retriever "orders" None)
    (newSubscriptionDrain example_after_zero) example_drained.
Proof.
  eapply rtc_l; [by apply run_wait|].
  eapply rtc_l; [|apply rtc_refl].
  apply (run_drain _ _ _ _ _ 2); [reflexivity|]. vm_compute. reflexivity.
Qed.

Lemma subscription_delivery_witness :
  ∃ start, starts example_env (sqlite_visible "orders" None) example_after_zero start example_drained
    ∧ target start (sqlite_visible "orders" None example_pools) `prefix_of` [example_read].
Proof.
  destruct (subscription_delivery example_env sqlite_retriever "orders" None
    (sqlite_good "orders") (sqlite_visible "orders" None) (sqlite_lawful _ _)
    (λ _, example_good_pools) (λ _, reflexivity _) example_after_zero example_drained example_run)
    as [_ [[[=] _]|(start & Hs & _ & Hq)]].
  exists start. split; [exact Hs|]. refine (Hq eq_refl 0 _ eq_refl). repeat constructor.
Defined.

Lemma drain_terminates_witness :
  ∃ r d', drain example_env sqlite_retriever "orders" None 3 (consume example_drained)
            = Some (r, d').
Proof.
  destruct (drain_terminates example_env sqlite_retriever "orders" None
    (sqlite_good "orders") (sqlite_visible "orders" None) (sqlite_lawful _ _)
    (λ _, example_good_pools) (λ _, reflexivity _) example_after_zero example_drained 1 example_run)
    as (r & d' & H & _); [intros t; vm_compute; lia|].
  exists r, d'. exact H.
Defined.

(** Two subscriptions to different boundaries can ask for the same lock. *)
Lemma lock_names_collide :
  lock_name "orders" "eu__billing" = lock_name "orders__eu" "billing"
  ∧ ValidateName "orders" = Ok tt ∧ ValidateName "orders__eu" = Ok tt.
Proof. vm_compute. done. Qed.
