(* ===== verification/Auth.v ===== *)
(** * Sessions: [admin/auth.go]

The session table of the [Authenticator]: issuing, renewing, expiring, limiting and
revoking session tokens, and the projector that revokes them. Passwords are compared
by bcrypt, tokens are UUIDs and time is read from a clock: all three are parameters. *)

From stdpp Require Import options.
From S2P Require Import Prelude Status Model Number Json SqlPredicates Sql SqliteIndex EventStore.

Set Default Proof Using "Type*".

Definition DefaultSessionTTL : Z := 24 * 3600 * 1000000000.
Definition DefaultMaxSessionsPerUser : Z := 16.

Record authenticatedSession := mkSession { s_user : User; s_expiresAt : Z }.

Record Authenticator := mkAuthenticator {
  sessionTTL : Z; maxUserSessions : Z; sessions : gmap string authenticatedSession }.

Definition NewAuthenticator (ttl : option Z) : Authenticator :=
  mkAuthenticator
    (match ttl with Some t => if (0 <? t)%Z then t else DefaultSessionTTL
                  | None => DefaultSessionTTL end)
    DefaultMaxSessionsPerUser ∅.

Definition set_sessions (a : Authenticator) (m : gmap string authenticatedSession)
  : Authenticator := mkAuthenticator (sessionTTL a) (maxUserSessions a) m.

(** [now.Before(session.expiresAt)]. *)
Definition alive (now : Z) (s : authenticatedSession) : bool := (now <? s_expiresAt s)%Z.

Definition invalid_credentials : goerror := PlainError "invalid or expired credentials".

Definition ValidateToken (a : Authenticator) (ctx : Ctx) (now : Z) (token : string)
  : result User * Authenticator :=
  match ctx_Err ctx with
  | Some e => (Err e, a)
  | None =>
      match sessions a !! token with
      | Some s =>
          if alive now s
          then (Ok (s_user s),
                set_sessions a (<[token := mkSession (s_user s) (now + sessionTTL a)]> (sessions a)))
          else (Err invalid_credentials, set_sessions a (delete token (sessions a)))
      | None => (Err invalid_credentials, set_sessions a (delete token (sessions a)))
      end
  end.

(** [getUser] is the lookup by name, [compare] is bcrypt's comparison of a hash and a
password. *)
Definition VerifyCredentials (getUser : string → result User) (compare : string → string → bool)
    (username password : string) : result User :=
  match getUser username with
  | Err _ => Err (PlainError "invalid credentials")
  | Ok user =>
      if compare (User_HashedPassword user) password then Ok user
      else Err (PlainError "invalid password")
  end.

Definition of_user (userID : string) (s : authenticatedSession) : bool :=
  bool_decide (User_Id (s_user s) = userID).

Definition RevokeUserSessions (a : Authenticator) (userID : string) : nat * Authenticator :=
  let kept := filter (λ kv, of_user userID kv.2 = false) (sessions a) in
  (size (sessions a) - size kept, set_sessions a kept).

Definition deleteExpiredSessionsLocked (now : Z) (m : gmap string authenticatedSession)
  : gmap string authenticatedSession := filter (λ kv, alive now kv.2 = true) m.

Section Limit.
(** The order in which [range] visits the sessions. *)
Context (iterate : gmap string authenticatedSession → list (string * authenticatedSession)).

(** One pass over the sessions: how many are the user's, and the oldest of them. *)
Definition scan_session (userID : string) (st : Z * string * Z)
    (kv : string * authenticatedSession) : Z * string * Z :=
  let '(count, oldestToken, oldestExpiry) := st in
  if of_user userID kv.2
  then let '(oldestToken, oldestExpiry) :=
         if bool_decide (oldestToken = "") || (s_expiresAt kv.2 <? oldestExpiry)%Z
         then (kv.1, s_expiresAt kv.2) else (oldestToken, oldestExpiry) in
       ((count + 1)%Z, oldestToken, oldestExpiry)
  else st.

Definition scan_sessions (userID : string) (l : list (string * authenticatedSession))
  : Z * string * Z := foldl (scan_session userID) (0%Z, "", 0%Z) l.

(** The loop; [None] when the fuel has run out. *)
Fixpoint limit_loop (fuel : nat) (max : Z) (userID : string)
    (m : gmap string authenticatedSession) : option (gmap string authenticatedSession) :=
  match fuel with
  | 0 => None
  | S fuel =>
      let '(count, oldestToken, _) := scan_sessions userID (iterate m) in
      if (count <? max)%Z then Some m else limit_loop fuel max userID (delete oldestToken m)
  end.

Definition enforceUserSessionLimitLocked (max : Z) (userID : string)
    (m : gmap string authenticatedSession) : option (gmap string authenticatedSession) :=
  if (max <=? 0)%Z then Some m else limit_loop (S (size m)) max userID m.

(** The end of [ValidateCredentials]: a session for a user that was verified. *)
Definition issue_session (a : Authenticator) (now : Z) (user : User) (token : string)
  : option Authenticator :=
  m ← enforceUserSessionLimitLocked (maxUserSessions a) (User_Id user)
        (deleteExpiredSessionsLocked now (sessions a));
  Some (set_sessions a (<[token := mkSession user (now + sessionTTL a)]> m)).

Definition ValidateCredentials (a : Authenticator) (getUser : string → result User)
    (compare : string → string → bool) (username password : string) (now : Z) (token : string)
  : option (result (User * string) * Authenticator) :=
  match VerifyCredentials getUser compare username password with
  | Err e => Some (Err e, a)
  | Ok user => a ← issue_session a now user token; Some (Ok (user, token), a)
  end.

End Limit.

(** ** The projector of revocations *)

Definition EventTypeUserCreated : string := "$UserCreated".
Definition EventTypeUserDeleted : string := "$UserDeleted".
Definition EventTypeRolesChanged : string := "$RolesChanged".
Definition EventTypeUserPasswordChanged : string := "$UserPasswordChanged".

Section Projector.
Context `{J : GoJson}.

(** [json.Unmarshal] of the event types into their structs. *)
Definition decode_event {A} (f : gmap string json → result A) (data : string) : result A :=
  v ← json_Unmarshal data; struct_of f v.

Definition decode_user_id : string → result string :=
  decode_event (λ m, string_member m "user_id").

Definition decode_password_changed : string → result (string * string) :=
  decode_event (λ m, id ← string_member m "user_id";
                     hash ← string_member m "password_hash"; mret (id, hash)).

Definition revokeUserSessions (a : Authenticator) (userID : string) : Authenticator :=
  if String.eqb userID "" then a else (RevokeUserSessions a userID).2.

Definition AuthUserProjector_handleEvent (a : Authenticator) (event : ReadEvent)
  : result unit * Authenticator :=
  let revoke (r : result string) :=
    match r with
    | Err e => (Err e, a)
    | Ok id => (Ok tt, revokeUserSessions a id)
    end in
  if decide (RE_EventType event = EventTypeUserPasswordChanged)
  then revoke (fst <$> decode_password_changed (RE_Data event))
  else if decide (RE_EventType event = EventTypeUserDeleted)
  then revoke (decode_user_id (RE_Data event))
  else if decide (RE_EventType event = EventTypeRolesChanged)
  then revoke (decode_user_id (RE_Data event))
  else (Ok tt, a).

End Projector.

(** ** What the sessions promise *)

(** The sessions of one user. *)
Definition user_sessions (userID : string) (m : gmap string authenticatedSession)
  : gmap string authenticatedSession := filter (λ kv, of_user userID kv.2 = true) m.

Definition session_count (userID : string) (m : gmap string authenticatedSession) : Z :=
  Z.of_nat (size (user_sessions userID m)).

(** No session is stored under the empty token, which the scan uses for "none yet". *)
Definition named_tokens (m : gmap string authenticatedSession) : Prop := m !! "" = None.

(** *** The scan *)

Lemma scan_step userID c t e kv :
  scan_session userID (c, t, e) kv =
    if of_user userID kv.2
    then ((c + 1)%Z,
          if bool_decide (t = "") || (s_expiresAt kv.2 <? e)%Z then kv.1 else t,
          if bool_decide (t = "") || (s_expiresAt kv.2 <? e)%Z then s_expiresAt kv.2 else e)
    else (c, t, e).
Proof. unfold scan_session. by repeat case_match; simplify_eq. Qed.

(** What the scan has found after a list of sessions. *)
Record scanned (userID : string) (l : list (string * authenticatedSession))
    (c : Z) (t : string) (e : Z) : Prop := mkScanned {
  sc_count : c = Z.of_nat (length (filter (λ kv, of_user userID kv.2 = true) l));
  sc_none : t = "" → c = 0%Z;
  sc_found : t ≠ "" → ∃ s, (t, s) ∈ l ∧ of_user userID s = true ∧ s_expiresAt s = e;
  sc_least : ∀ kv, kv ∈ l → of_user userID kv.2 = true → (e <= s_expiresAt kv.2)%Z }.

Lemma scan_spec userID l :
  (∀ kv, kv ∈ l → kv.1 ≠ "") →
  ∃ c t e, scan_sessions userID l = (c, t, e) ∧ scanned userID l c t e.
Proof.
  unfold scan_sessions. induction l as [|kv l IH] using rev_ind; intros Hn.
  - eexists _, _, _. split; [done|]. constructor; simpl; try done. intros ? Hin.
    by apply elem_of_nil in Hin.
  - destruct IH as (c & t & e & Heq & H).
    { intros kv' Hin. apply Hn. apply elem_of_app. by left. }
    rewrite foldl_app, Heq. cbn [foldl]. rewrite scan_step.
    assert (Hkv : kv.1 ≠ "") by (apply Hn; apply elem_of_app; right; by apply list_elem_of_singleton).
    destruct H as [H1 H2 H3 H4]. destruct (of_user userID kv.2) eqn:Hof.
    + eexists _, _, _. split; [done|]. case_bool_decide as Ht; cbn [orb].
      * constructor; try done.
        -- rewrite filter_app, length_app, filter_cons_True by done. simpl. rewrite H1. lia.
        -- intros _. exists kv.2. destruct kv; set_solver.
        -- intros kv' [Hin| ->%list_elem_of_singleton]%elem_of_app Hu; [|done].
           specialize (H2 Ht). rewrite H1 in H2.
           assert (kv' ∈ filter (λ kv, of_user userID kv.2 = true) l) as Hf
             by by apply list_elem_of_filter.
           destruct (filter _ l); [by apply elem_of_nil in Hf|simpl in H2; lia].
      * destruct (Z.ltb_spec (s_expiresAt kv.2) e) as [Hlt|Hge]; constructor; try done.
        -- rewrite filter_app, length_app, filter_cons_True by done. simpl. rewrite H1. lia.
        -- intros _. exists kv.2. destruct kv; set_solver.
        -- intros kv' [Hin| ->%list_elem_of_singleton]%elem_of_app Hu; [|done].
           specialize (H4 _ Hin Hu). lia.
        -- rewrite filter_app, length_app, filter_cons_True by done. simpl. rewrite H1. lia.
        -- intros _. destruct (H3 Ht) as (s & Hs & ?). exists s. split; [|done].
           apply elem_of_app. by left.
        -- intros kv' [Hin| ->%list_elem_of_singleton]%elem_of_app Hu; [|done].
           by apply H4.
    + eexists _, _, _. split; [done|]. constructor; try done.
      * rewrite filter_app, length_app, filter_cons_False by (by rewrite Hof).
        rewrite filter_nil. simpl. by rewrite Nat.add_0_r.
      * intros Ht. destruct (H3 Ht) as (s & Hs & ?). exists s. split; [|done].
        apply elem_of_app. by left.
      * intros kv' [Hin| ->%list_elem_of_singleton]%elem_of_app Hu; [by apply H4|congruence].
Qed.

Section Sessions.
Context `{J : GoJson}.
Context (iterate : gmap string authenticatedSession → list (string * authenticatedSession)).
Context (compare : string → string → bool).
(** [range] over a map visits every entry once, in some order. *)
Context (iterate_perm : ∀ m, iterate m ≡ₚ map_to_list m).

(** *** Eviction *)

Lemma iterate_elem m kv : kv ∈ iterate m ↔ m !! kv.1 = Some kv.2.
Proof using iterate_perm. rewrite iterate_perm. destruct kv. by rewrite elem_of_map_to_list. Qed.

Lemma iterate_count userID m :
  length (filter (λ kv, of_user userID kv.2 = true) (iterate m)) = size (user_sessions userID m).
Proof using iterate_perm.
  rewrite iterate_perm. unfold user_sessions. rewrite map_filter_alt.
  rewrite map_size_list_to_map; [done|].
  apply NoDup_fmap_fst; [|apply NoDup_filter, NoDup_map_to_list].
  intros k s1 s2 [_ H1]%list_elem_of_filter [_ H2]%list_elem_of_filter.
  apply elem_of_map_to_list in H1, H2. congruence.
Qed.

Lemma scan_map userID m :
  named_tokens m →
  ∃ t e, scan_sessions userID (iterate m) = (session_count userID m, t, e) ∧
    ((session_count userID m = 0%Z ∧ t = "") ∨
     ∃ s, m !! t = Some s ∧ of_user userID s = true ∧
       (∀ t' s', m !! t' = Some s' → of_user userID s' = true →
          (s_expiresAt s <= s_expiresAt s')%Z)).
Proof using iterate_perm.
  intros Hn. destruct (scan_spec userID (iterate m)) as (c & t & e & Heq & [H1 H2 H3 H4]).
  { intros [k s] Hin%iterate_elem Hk. simpl in *. subst. by rewrite Hn in Hin. }
  rewrite iterate_count in H1. subst c. exists t, e. split; [done|].
  destruct (decide (t = "")) as [Ht|Ht]; [left; split; [by apply H2|done]|right].
  destruct (H3 Ht) as (s & Hin%iterate_elem & Hu & He). exists s. split_and!; try done.
  intros t' s' Hl Hu'. rewrite He. apply (H4 (t', s')); [by apply iterate_elem|done].
Qed.

Lemma user_sessions_delete userID m t s :
  m !! t = Some s → of_user userID s = true →
  size (user_sessions userID m) = S (size (user_sessions userID (delete t m))).
Proof.
  intros Hl Hu. unfold user_sessions. rewrite map_filter_delete.
  rewrite map_size_delete_Some by (exists s; by apply map_lookup_filter_Some).
  assert (size (filter (λ kv, of_user userID kv.2 = true) m) ≠ 0); [|lia].
  apply (map_size_ne_0_lookup_2 _ t). exists s. by apply map_lookup_filter_Some.
Qed.

(** What making room for one more session of a user does to the sessions: it removes
sessions of that user, oldest first, and no more than needed. *)
Record evicted (max : Z) (userID : string) (m m' : gmap string authenticatedSession) : Prop :=
  mkEvicted {
  ev_sub : m' ⊆ m;
  ev_count : session_count userID m' = Z.min (session_count userID m) (max - 1);
  ev_oldest : ∀ t s, m !! t = Some s → m' !! t = None →
    of_user userID s = true ∧ (max <= session_count userID m)%Z ∧
    ∀ t' s', m' !! t' = Some s' → of_user userID s' = true →
      (s_expiresAt s <= s_expiresAt s')%Z }.

Lemma limit_loop_spec fuel max userID m :
  named_tokens m → (0 < max)%Z → size (user_sessions userID m) < fuel →
  ∃ m', limit_loop iterate fuel max userID m = Some m' ∧ evicted max userID m m'.
Proof using iterate_perm.
  revert m. induction fuel as [|fuel IH]; intros m Hn Hmax Hf; [lia|].
  cbn [limit_loop]. destruct (scan_map userID m Hn) as (t & e & -> & Ht).
  destruct (Z.ltb_spec (session_count userID m) max) as [Hlt|Hge].
  - exists m. split; [done|]. constructor; [done|lia|]. intros. congruence.
  - destruct Ht as [[? _]|(s & Hs & Hu & Hleast)]; [lia|].
    pose proof (user_sessions_delete userID m t s Hs Hu) as Hsize.
    destruct (IH (delete t m)) as (m' & -> & [H1 H2 H3]);
      [by apply lookup_delete_None; right|done|lia|].
    exists m'. split; [done|].
    assert (Hsub : m' ⊆ m) by (etrans; [done|apply delete_subseteq]).
    constructor; [done| |].
    + rewrite H2. unfold session_count in *. lia.
    + intros t0 s0 Hl Hl'. destruct (decide (t0 = t)) as [->|Hne].
      * assert (s0 = s) as -> by congruence. split_and!; [done..|]. intros t' s' Hl2.
        apply Hleast with t'. by eapply lookup_weaken.
      * destruct (H3 t0 s0) as (? & _ & ?); [by rewrite lookup_delete_ne|done|].
        by split_and!.
Qed.

Lemma enforce_spec max userID m :
  named_tokens m → (0 < max)%Z →
  ∃ m', enforceUserSessionLimitLocked iterate max userID m = Some m' ∧
    evicted max userID m m'.
Proof using iterate_perm.
  intros Hn Hmax. unfold enforceUserSessionLimitLocked. rewrite (proj2 (Z.leb_gt max 0)) by done.
  apply limit_loop_spec; [done..|]. unfold user_sessions. apply Nat.lt_succ_r, map_size_filter.
Qed.

(** *** Histories of an authenticator *)

(** What happens to an authenticator: a token is presented, a user logs in with the
users table of that moment, sessions are revoked by the password change handler or by
the projector. *)
Inductive session_op :=
  | OValidate (ctx : Ctx) (now : Z) (token : string)
  | OLogin (getUser : string → result User) (username password : string) (now : Z)
      (token : string)
  | ORevoke (userID : string)
  | OProject (event : ReadEvent).

Definition apply_op (a : Authenticator) (o : session_op) : option Authenticator :=
  match o with
  | OValidate ctx now token => Some (ValidateToken a ctx now token).2
  | OLogin getUser username password now token =>
      snd <$> ValidateCredentials iterate a getUser compare username password now token
  | ORevoke userID => Some (RevokeUserSessions a userID).2
  | OProject event => Some (AuthUserProjector_handleEvent a event).2
  end.

Definition apply_ops (a : Authenticator) (ops : list session_op) : option Authenticator :=
  foldl (λ oa o, a ← oa; apply_op a o) (Some a) ops.

Lemma apply_ops_snoc a ops o :
  apply_ops a (ops ++ [o]) = a' ← apply_ops a ops; apply_op a' o.
Proof. unfold apply_ops. by rewrite foldl_app. Qed.

(** Tokens are UUIDs, never empty. *)
Definition op_named (o : session_op) : Prop :=
  match o with OLogin _ _ _ _ token => token ≠ "" | _ => True end.

(** The value of a result that is not an error. *)
Definition ok_value {A} (r : result A) : option A :=
  match r with Ok x => Some x | Err _ => None end.

(** The user whose sessions an event revokes. *)
Definition event_revokes (event : ReadEvent) : option string :=
  id ← (if decide (RE_EventType event = EventTypeUserPasswordChanged)
        then ok_value (fst <$> decode_password_changed (RE_Data event))
        else if decide (RE_EventType event ∈ [EventTypeUserDeleted; EventTypeRolesChanged])
        then ok_value (decode_user_id (RE_Data event)) else None);
  guard (id ≠ "");; Some id.

Lemma revokeUserSessions_guard a id :
  revokeUserSessions a id =
    match (guard (id ≠ "");; Some id) with
    | Some id => (RevokeUserSessions a id).2
    | None => a
    end.
Proof.
  unfold revokeUserSessions. destruct (String.eqb_spec id "") as [->|Hne]; [done|].
  by rewrite option_guard_True by done.
Qed.

Lemma handleEvent_revokes a event :
  (AuthUserProjector_handleEvent a event).2 =
    match event_revokes event with
    | Some id => (RevokeUserSessions a id).2
    | None => a
    end.
Proof.
  clear iterate_perm. unfold AuthUserProjector_handleEvent, event_revokes. set (pc := fst <$> decode_password_changed _).
  set (du := decode_user_id _). destruct (decide (_ = EventTypeUserPasswordChanged)) as [_|Hp].
  { destruct pc as [id|]; [apply revokeUserSessions_guard|done]. }
  destruct (decide (_ = EventTypeUserDeleted)) as [Hd|Hd].
  { rewrite decide_True by (rewrite Hd; set_solver).
    destruct du as [id|]; [apply revokeUserSessions_guard|done]. }
  destruct (decide (_ = EventTypeRolesChanged)) as [Hr|Hr].
  { rewrite decide_True by (rewrite Hr; set_solver).
    destruct du as [id|]; [apply revokeUserSessions_guard|done]. }
  by rewrite decide_False by set_solver.
Qed.

(** *** The bound on the sessions of a user *)

Lemma session_count_mono userID m m' :
  m' ⊆ m → (session_count userID m' <= session_count userID m)%Z.
Proof.
  intros H. apply inj_le, map_subseteq_size. by apply map_filter_subseteq_mono.
Qed.

Lemma session_count_insert userID t s m :
  session_count userID (<[t := s]> m) =
    ((if of_user userID s then 1 else 0) + session_count userID (delete t m))%Z.
Proof.
  unfold session_count, user_sessions. rewrite <- insert_delete_eq.
  destruct (of_user userID s) eqn:Hs.
  - rewrite map_filter_insert_True by done. rewrite map_size_insert_None; [lia|].
    rewrite map_filter_delete. apply lookup_delete_eq.
  - rewrite map_filter_insert_False by (simpl; congruence). by rewrite delete_delete_eq.
Qed.

Record bounded_sessions (a : Authenticator) : Prop := mkBounded {
  bs_max : (0 < maxUserSessions a)%Z;
  bs_named : named_tokens (sessions a);
  bs_count : ∀ userID, (session_count userID (sessions a) <= maxUserSessions a)%Z }.

Lemma bounded_sub a m :
  bounded_sessions a → m ⊆ sessions a → bounded_sessions (set_sessions a m).
Proof.
  intros [H1 H2 H3] Hsub. constructor; simpl; [done| |].
  - by eapply lookup_weaken_None.
  - intros userID. etrans; [by apply session_count_mono|done].
Qed.

Lemma bounded_issue a now user token :
  bounded_sessions a → token ≠ "" →
  ∃ m, enforceUserSessionLimitLocked iterate (maxUserSessions a) (User_Id user)
         (deleteExpiredSessionsLocked now (sessions a)) = Some m ∧
    evicted (maxUserSessions a) (User_Id user)
      (deleteExpiredSessionsLocked now (sessions a)) m ∧
    bounded_sessions
      (set_sessions a (<[token := mkSession user (now + sessionTTL a)]> m)).
Proof using iterate_perm.
  intros [H1 H2 H3] Htok.
  assert (Hlive : deleteExpiredSessionsLocked now (sessions a) ⊆ sessions a)
    by apply map_filter_subseteq.
  destruct (enforce_spec (maxUserSessions a) (User_Id user)
              (deleteExpiredSessionsLocked now (sessions a))) as (m & Hm & Hev);
    [by eapply lookup_weaken_None|done|].
  exists m. split_and!; [done..|]. destruct Hev as [E1 E2 E3].
  constructor; simpl; [done| |].
  - unfold named_tokens. rewrite lookup_insert_ne by done.
    eapply lookup_weaken_None; [done|]. by etrans.
  - intros userID. rewrite session_count_insert. unfold of_user at 1. simpl.
    pose proof (session_count_mono userID m (delete token m) (delete_subseteq _ _)) as Hd.
    pose proof (session_count_mono userID (sessions a) m ltac:(by etrans)) as Hm'.
    specialize (H3 userID). case_bool_decide as Hid; [subst userID|]; lia.
Qed.

Lemma RevokeUserSessions_sub a userID : sessions (RevokeUserSessions a userID).2 ⊆ sessions a.
Proof. apply map_filter_subseteq. Qed.

(** Every operation succeeds, keeps the settings of the authenticator and the bound. *)
Lemma apply_op_bounded a o :
  bounded_sessions a → op_named o →
  ∃ a', apply_op a o = Some a' ∧ bounded_sessions a' ∧
    sessionTTL a' = sessionTTL a ∧ maxUserSessions a' = maxUserSessions a.
Proof using iterate_perm.
  intros Hb Hn. destruct o as [ctx now token|getUser name pw now token|userID|event]; simpl.
  - eexists. split; [done|]. unfold ValidateToken. destruct (ctx_Err ctx); [done|].
    pose proof Hb as [H1 H2 H3].
    destruct (sessions a !! token) as [s|] eqn:Hs;
      [destruct (alive now s)|]; simpl; split_and!; try done;
      try (apply bounded_sub; [done|apply delete_subseteq]).
    constructor; simpl; [done| |].
    + unfold named_tokens. rewrite lookup_insert_ne; [done|]. intros ->. by rewrite H2 in Hs.
    + intros userID. rewrite <- (insert_delete_id (sessions a) token s Hs) in H3 |- * at 1.
      specialize (H3 userID). rewrite session_count_insert in *.
      rewrite delete_insert_eq, delete_delete_eq in *. done.
  - unfold ValidateCredentials, issue_session.
    destruct (VerifyCredentials getUser compare name pw) as [user|]; [|by eexists].
    destruct (bounded_issue a now user token Hb Hn) as (m & -> & _ & Hb'). simpl.
    by eexists.
  - eexists. split; [done|]. split; [|done]. by apply bounded_sub, RevokeUserSessions_sub.
  - eexists. split; [done|]. rewrite handleEvent_revokes.
    destruct (event_revokes event); [|done]. split; [|done].
    by apply bounded_sub, RevokeUserSessions_sub.
Qed.

Lemma apply_ops_bounded a ops :
  bounded_sessions a → Forall op_named ops →
  ∃ a', apply_ops a ops = Some a' ∧ bounded_sessions a' ∧
    sessionTTL a' = sessionTTL a ∧ maxUserSessions a' = maxUserSessions a.
Proof using iterate_perm.
  intros Hb. induction ops as [|o ops IH] using rev_ind; intros Hn; [by exists a|].
  apply Forall_app in Hn as [Hn [Ho _]%Forall_cons_1].
  destruct (IH Hn) as (a1 & Ha1 & Hb1 & Ht1 & Hm1).
  destruct (apply_op_bounded a1 o Hb1 Ho) as (a2 & Ha2 & Hb2 & Ht2 & Hm2).
  exists a2. rewrite apply_ops_snoc, Ha1. simpl. split_and!; [done..|congruence|congruence].
Qed.

Lemma NewAuthenticator_bounded ttl : bounded_sessions (NewAuthenticator ttl).
Proof.
  constructor; [done|apply lookup_empty|]. intros userID. unfold session_count, user_sessions.
  simpl. by rewrite map_filter_empty, map_size_empty.
Qed.

(** *** Where a session comes from *)

(** [o] is a login of [user] at time [t0] with a password that compares with the stored
hash, and it issued [token]. *)
Definition login_of (token : string) (user : User) (t0 : Z) (o : session_op) : Prop :=
  match o with
  | OLogin getUser username password now token' =>
      token' = token ∧ now = t0 ∧ VerifyCredentials getUser compare username password = Ok user
  | _ => False
  end.

(** [o] ends the session [token] of [userID]: it issues the token anew or revokes the
sessions of the user. *)
Definition ends_session (token userID : string) (o : session_op) : Prop :=
  match o with
  | OValidate _ _ _ => False
  | OLogin getUser username password _ token' =>
      token' = token ∧ ∃ user, VerifyCredentials getUser compare username password = Ok user
  | ORevoke userID' => userID' = userID
  | OProject event => event_revokes event = Some userID
  end.

(** When [o] presents [token]. *)
Definition presents (token : string) (o : session_op) : option Z :=
  match o with
  | OValidate ctx now token' =>
      if decide (token' = token ∧ ctx_Err ctx = None) then Some now else None
  | _ => None
  end.

(** The last time the token was used, issued at [t0]. *)
Fixpoint last_use (token : string) (t0 : Z) (ops : list session_op) : Z :=
  match ops with
  | [] => t0
  | o :: ops => last_use token (default t0 (presents token o)) ops
  end.

(** Every use came within [ttl] of the one before. *)
Fixpoint in_time (ttl : Z) (token : string) (t0 : Z) (ops : list session_op) : Prop :=
  match ops with
  | [] => True
  | o :: ops =>
      match presents token o with
      | Some now => (now < t0 + ttl)%Z ∧ in_time ttl token now ops
      | None => in_time ttl token t0 ops
      end
  end.

Lemma last_use_snoc token t0 ops o :
  last_use token t0 (ops ++ [o]) = default (last_use token t0 ops) (presents token o).
Proof. revert t0. induction ops; intros t0; simpl; [done|auto]. Qed.

Lemma in_time_snoc ttl token t0 ops o :
  in_time ttl token t0 (ops ++ [o]) ↔
    in_time ttl token t0 ops ∧
    ∀ now, presents token o = Some now → (now < last_use token t0 ops + ttl)%Z.
Proof.
  clear iterate_perm iterate compare. revert t0.
  induction ops as [|o' ops IH]; intros t0; simpl.
  - destruct (presents token o); naive_solver.
  - destruct (presents token o'); rewrite IH; simpl; tauto.
Qed.

(** The history of a live session: a login that issued it, nothing that ended it since,
and uses that each came in time. *)
Record session_history (ttl : Z) (ops : list session_op) (token : string) (user : User)
    (last : Z) : Prop := mkHistory {
  sh_history : ∃ before login t0 since,
    ops = before ++ login :: since ∧ login_of token user t0 login ∧
    Forall (λ o, ¬ ends_session token (User_Id user) o) since ∧
    in_time ttl token t0 since ∧ last = last_use token t0 since }.

Lemma session_history_snoc ttl ops token user last o :
  session_history ttl ops token user last →
  ¬ ends_session token (User_Id user) o →
  (∀ now, presents token o = Some now → (now < last + ttl)%Z) →
  session_history ttl (ops ++ [o]) token user (default last (presents token o)).
Proof.
  intros [(before & login & t0 & since & -> & Hl & Hs & Ht & ->)] Ho Hp.
  constructor. exists before, login, t0, (since ++ [o]). split_and!.
  - by rewrite <- app_assoc.
  - done.
  - apply Forall_app. split; [done|]. by apply Forall_singleton.
  - by apply in_time_snoc.
  - by rewrite last_use_snoc.
Qed.

(** Every stored session has a history, and expires [ttl] after its last use. *)
Definition sessions_have_history (ttl : Z) (ops : list session_op) (a : Authenticator) : Prop :=
  ∀ token s, sessions a !! token = Some s →
    ∃ last, session_history ttl ops token (s_user s) last ∧ s_expiresAt s = (last + ttl)%Z.

Lemma history_kept ttl ops a o m :
  sessions_have_history ttl ops a → m ⊆ sessions a →
  (∀ token s, m !! token = Some s →
     ¬ ends_session token (User_Id (s_user s)) o ∧ presents token o = None) →
  sessions_have_history ttl (ops ++ [o]) (set_sessions a m).
Proof.
  intros H Hsub Ho token s Hs. destruct (Ho token s Hs) as [Hends Hp].
  destruct (H token s) as (last & Hh & He); [by eapply lookup_weaken|].
  exists last. split; [|done].
  apply (session_history_snoc _ _ _ _ _ o) in Hh; [by rewrite Hp in Hh|done|].
  by rewrite Hp.
Qed.

Lemma history_same ttl ops a o :
  sessions_have_history ttl ops a →
  (∀ token s, sessions a !! token = Some s →
     ¬ ends_session token (User_Id (s_user s)) o ∧ presents token o = None) →
  sessions_have_history ttl (ops ++ [o]) a.
Proof. intros H Ho. exact (history_kept ttl ops a o (sessions a) H (reflexivity _) Ho). Qed.

Lemma history_revoke ttl ops a o userID :
  sessions_have_history ttl ops a →
  (∀ token id, ends_session token id o → id = userID) → (∀ token, presents token o = None) →
  sessions_have_history ttl (ops ++ [o]) (RevokeUserSessions a userID).2.
Proof.
  intros H Ho Hp. apply history_kept; [done|apply map_filter_subseteq|].
  intros token s [_ Hs]%map_lookup_filter_Some. split; [|done].
  intros Hends%Ho. simpl in Hs. unfold of_user in Hs. by case_bool_decide.
Qed.

Lemma history_validate ops a ctx now token :
  sessions_have_history (sessionTTL a) ops a →
  sessions_have_history (sessionTTL a) (ops ++ [OValidate ctx now token])
    (ValidateToken a ctx now token).2.
Proof.
  intros H. unfold ValidateToken. destruct (ctx_Err ctx) as [e|] eqn:Hc.
  { apply history_same; [done|]. intros token' s Hs. split; [by intros []|]. simpl. rewrite decide_False; [done|].
    intros [_ ?]. congruence. }
  assert (Hdel : sessions_have_history (sessionTTL a) (ops ++ [OValidate ctx now token])
                   (set_sessions a (delete token (sessions a)))).
  { apply history_kept; [done|apply delete_subseteq|]. intros token' s Hs. split; [by intros []|].
    simpl. rewrite decide_False; [done|]. intros [-> _]. by rewrite lookup_delete_eq in Hs. }
  destruct (sessions a !! token) as [s|] eqn:Hs; [|done].
  destruct (alive now s) eqn:Ha; [|done]. apply Z.ltb_lt in Ha.
  intros token' s' Hl. simpl in Hl. destruct (decide (token' = token)) as [->|Hne].
  - rewrite lookup_insert_eq in Hl. inv Hl. destruct (H token s Hs) as (last & Hh & He).
    exists now. split; [|done]. simpl.
    apply (session_history_snoc _ _ _ _ _ (OValidate ctx now token)) in Hh; simpl in *.
    + by rewrite decide_True in Hh by done.
    + tauto.
    + rewrite decide_True by done. intros ? [= <-]. lia.
  - rewrite lookup_insert_ne in Hl by done. apply (Hdel token' s'). simpl.
    by rewrite lookup_delete_ne.
Qed.

Lemma history_step ops a o a' :
  sessions_have_history (sessionTTL a) ops a → op_named o → bounded_sessions a →
  apply_op a o = Some a' →
  sessions_have_history (sessionTTL a) (ops ++ [o]) a'.
Proof using iterate_perm.
  intros H Hn Hb Ha. destruct o as [ctx now token|getUser name pw now token|userID|event];
    simpl in Ha.
  - inv Ha. by apply history_validate.
  - unfold ValidateCredentials, issue_session in Ha.
    destruct (VerifyCredentials getUser compare name pw) as [user|e] eqn:Hv.
    + destruct (bounded_issue a now user token Hb Hn) as (m & Hm & [Hsub _ _] & _).
      rewrite Hm in Ha. simpl in Ha. inv Ha. intros token' s Hl. simpl in Hl.
      destruct (decide (token' = token)) as [->|Hne].
      * rewrite lookup_insert_eq in Hl. inv Hl. exists now. split; [|done].
        constructor. by exists ops, (OLogin getUser name pw now token), now, [].
      * rewrite lookup_insert_ne in Hl by done.
        apply (history_kept _ ops a _ (delete token m)); [done| | |].
        -- etrans; [apply delete_subseteq|]. etrans; [done|]. apply map_filter_subseteq.
        -- intros t' s' [? _]%lookup_delete_Some. simpl. split; [|done]. by intros [? _].
        -- simpl. by rewrite lookup_delete_ne.
    + inv Ha. apply history_same; [done|].
      intros t' s' _. split; [|done]. simpl. rewrite Hv. by intros (_ & ? & ?).
  - inv Ha. apply history_revoke; [done| |done]. by intros token id.
  - inv Ha. rewrite handleEvent_revokes. destruct (event_revokes event) as [id|] eqn:Hr.
    + apply history_revoke; [done| |done]. simpl. congruence.
    + apply history_same; [done|].
      intros t' s' _. split; [|done]. simpl. by rewrite Hr.
Qed.

Lemma apply_ops_history ttl ops a :
  Forall op_named ops → apply_ops (NewAuthenticator ttl) ops = Some a →
  sessions_have_history (sessionTTL (NewAuthenticator ttl)) ops a.
Proof using iterate_perm.
  revert a. induction ops as [|o ops IH] using rev_ind; intros a Hn Ha.
  { inv Ha. intros token s Hs. simpl in Hs. by rewrite lookup_empty in Hs. }
  apply Forall_app in Hn as [Hn [Ho _]%Forall_cons_1].
  destruct (apply_ops_bounded (NewAuthenticator ttl) ops) as (a1 & Ha1 & Hb1 & Ht1 & Hm1);
    [apply NewAuthenticator_bounded|done|].
  rewrite apply_ops_snoc, Ha1 in Ha. simpl in Ha. rewrite <- Ht1.
  eapply history_step; [|done..]. rewrite Ht1. by apply IH.
Qed.

(** C28: no user ever has more than [DefaultMaxSessionsPerUser] sessions. Every history of
logins, presented tokens, revocations and projected events leads to a state (the loop
that evicts sessions always ends) in which the bound holds; and a login from that state
stores its own session and removes another one only if it has expired, or if the user is
at the limit and all the user's other remaining sessions expire no earlier. *)
Theorem session_limit ttl ops :
  Forall op_named ops →
  ∃ a, apply_ops (NewAuthenticator ttl) ops = Some a ∧
    (∀ userID, (session_count userID (sessions a) <= DefaultMaxSessionsPerUser)%Z) ∧
    ∀ getUser username password now token user,
      token ≠ "" → VerifyCredentials getUser compare username password = Ok user →
      ∃ a', ValidateCredentials iterate a getUser compare username password now token =
              Some (Ok (user, token), a') ∧
        sessions a' !! token = Some (mkSession user (now + sessionTTL a)) ∧
        ∀ token' s, token' ≠ token → sessions a !! token' = Some s →
          sessions a' !! token' = Some s ∨
          (sessions a' !! token' = None ∧ (s_expiresAt s <= now)%Z) ∨
          (sessions a' !! token' = None ∧ User_Id (s_user s) = User_Id user ∧
           session_count (User_Id user) (deleteExpiredSessionsLocked now (sessions a)) =
             DefaultMaxSessionsPerUser ∧
           ∀ t s', t ≠ token → sessions a' !! t = Some s' → User_Id (s_user s') = User_Id user →
             (s_expiresAt s <= s_expiresAt s')%Z).
Proof using iterate_perm.
  intros Hn. destruct (apply_ops_bounded (NewAuthenticator ttl) ops) as (a & Ha & Hb & Ht & Hm);
    [apply NewAuthenticator_bounded|done|].
  exists a. split; [done|]. change DefaultMaxSessionsPerUser with
    (maxUserSessions (NewAuthenticator ttl)). rewrite <- Hm. split; [apply Hb|].
  intros getUser username password now token user Htok Hv.
  destruct (bounded_issue a now user token Hb Htok) as (m & Hiss & [E1 E2 E3] & _).
  unfold ValidateCredentials, issue_session. rewrite Hv, Hiss. simpl. eexists. split; [done|].
  simpl. split; [by rewrite lookup_insert_eq|]. intros token' s Hne Hs.
  rewrite lookup_insert_ne by done. destruct (m !! token') as [s'|] eqn:Hl.
  - left. apply (lookup_weaken _ _ _ _ Hl) in E1. apply map_lookup_filter_Some in E1 as [E1 _].
    congruence.
  - right. destruct (Z.ltb_spec now (s_expiresAt s)) as [Hlt|]; [right|by left].
    assert (Hlive : deleteExpiredSessionsLocked now (sessions a) !! token' = Some s).
    { apply map_lookup_filter_Some. split; [done|]. by apply Z.ltb_lt. }
    destruct (E3 _ _ Hlive Hl) as (Hu & Hfull & Hold). apply bool_decide_eq_true in Hu.
    split_and!; [done..| |].
    + pose proof (bs_count _ Hb (User_Id user)) as Hc.
      pose proof (session_count_mono (User_Id user) (sessions a)
        (deleteExpiredSessionsLocked now (sessions a)) (map_filter_subseteq _ _)).
      lia.
    + intros t s' Hne' Hl' Hid. rewrite lookup_insert_ne in Hl' by done.
      apply (Hold t s' Hl'). by apply bool_decide_eq_true.
Qed.

(** C25: a token is accepted only for a session that a login created and nothing has ended.
If, after any history of an authenticator, presenting a token returns a user, then that
user's record was returned by a login whose password compared with the stored hash and
which issued this token; since that login the token was not issued again, no password
change, deletion, role change or direct revocation ended the sessions of the user, every
use of the token came less than the time to live after the one before, and so does this
one, which renews it. *)
Theorem sessions_sound ttl ops a ctx now token user a' :
  Forall op_named ops → apply_ops (NewAuthenticator ttl) ops = Some a →
  ValidateToken a ctx now token = (Ok user, a') →
  ∃ last, session_history (sessionTTL (NewAuthenticator ttl)) ops token user last ∧
    (now < last + sessionTTL (NewAuthenticator ttl))%Z ∧
    sessions a' !! token = Some (mkSession user (now + sessionTTL (NewAuthenticator ttl))).
Proof using iterate_perm.
  intros Hn Ha Hv. pose proof (apply_ops_history ttl ops a Hn Ha) as Hh.
  assert (Ht : sessionTTL a = sessionTTL (NewAuthenticator ttl)).
  { destruct (apply_ops_bounded (NewAuthenticator ttl) ops) as (a1 & Ha1 & _ & Ht & _);
      [apply NewAuthenticator_bounded|done|]. congruence. }
  unfold ValidateToken in Hv. destruct (ctx_Err ctx); [done|].
  destruct (sessions a !! token) as [s|] eqn:Hs; [|done].
  destruct (alive now s) eqn:Hal; [|done]. inv Hv.
  destruct (Hh token s Hs) as (last & Hlast & He). exists last. split; [done|]. split.
  - apply Z.ltb_lt in Hal. lia.
  - simpl. rewrite lookup_insert_eq. by rewrite Ht.
Qed.

End Sessions.

(** *** Concrete histories *)

Section Witnesses.
#[local] Existing Instance example_json.

Definition example_user : User := mkUser "u1" "Ada" "ada" "hash" [RoleAdmin].
Definition example_users (username : string) : result User :=
  if String.eqb username "ada" then Ok example_user else Err (PlainError "not found").
Definition example_bg : Ctx := mkCtx None None.
Definition example_ops : list session_op :=
  [OLogin example_users "ada" "pw" 10 "t1"; OValidate example_bg 20 "t1"; ORevoke "u2"].
Definition example_auth : option Authenticator :=
  apply_ops map_to_list (λ h _, String.eqb h "hash") (NewAuthenticator (Some 100%Z)) example_ops.

Lemma session_limit_witness :
  ∃ a, example_auth = Some a ∧
    (session_count "u1" (sessions a) <= DefaultMaxSessionsPerUser)%Z.
Proof.
  destruct (session_limit map_to_list (λ h _, String.eqb h "hash") (λ m, reflexivity _)
              (Some 100%Z) example_ops) as (a & Ha & Hc & _).
  - by repeat constructor.
  - exists a. split; [exact Ha|apply Hc].
Defined.

Lemma sessions_sound_witness :
  ∃ a a' last, example_auth = Some a ∧
    ValidateToken a example_bg 30 "t1" = (Ok example_user, a') ∧
    session_history (λ h _, String.eqb h "hash") 100 example_ops "t1" example_user last.
Proof.
  destruct example_auth as [a|] eqn:Ha; [|by vm_compute in Ha].
  destruct (ValidateToken a example_bg 30 "t1") as [r a'] eqn:Hv.
  assert (Hr : r = Ok example_user).
  { change r with (r, a').1. rewrite <- Hv. revert Ha. clear. intros Ha.
    assert (Heq : Some (ValidateToken a example_bg 30 "t1").1 = Some (Ok example_user)); [|congruence].
    change (Some (ValidateToken a example_bg 30 "t1").1) with
      ((λ a, (ValidateToken a example_bg 30 "t1").1) <$> Some a).
    rewrite <- Ha. by vm_compute. }
  subst r.
  destruct (sessions_sound map_to_list (λ h _, String.eqb h "hash") (λ m, reflexivity _)
              (Some 100%Z) example_ops a example_bg 30 "t1" example_user a')
    as (last & Hl & _); [by repeat constructor|exact Ha|exact Hv|].
  by exists a, a', last.
Defined.

End Witnesses.
