(* ===== verification/Users.v ===== *)
(** * User commands: [admin/slices/create_user], [change_password], [delete_user]

The command handlers of the admin slices over the API of the event store: what they
read, what they decide and what they save. A decision and the save that follows it are
separate, as other writers may act in between. UUIDs and the bcrypt functions are
arguments. *)

From stdpp Require Import options.
From S2P Require Import Prelude Status Model Number Json Predicates Consistency EventData.
From S2P Require Import WriteContext SqlPredicates Sql SqliteStore SqliteLog GroupCommit.
From S2P Require Import SqliteRead SqliteIndex EventStore Api Auth.

Set Default Proof Using "Type*".

(** ** Events: [admin/events/events.go] *)

Record UserCreated := mkUserCreated {
  UC_Name : string; UC_UserId : string; UC_Username : string;
  UC_Roles : list Role; UC_PasswordHash : string }.
Record UserDeleted := mkUserDeleted { UD_UserId : string }.
Record UserPasswordChanged := mkUserPasswordChanged {
  UPC_UserId : string; UPC_PasswordHash : string }.

(** The members of a struct that [omitempty] leaves. *)
Definition omit_empty (key s : string) : list (string * json) :=
  if String.eqb s "" then [] else [(key, JString s)].

Definition created_fields (u : UserCreated) : list (string * json) :=
  [("name", JString (UC_Name u)); ("user_id", JString (UC_UserId u));
   ("username", JString (UC_Username u))]
  ++ (match UC_Roles u with [] => [] | rs => [("roles", JArray (JString <$> rs))] end)
  ++ omit_empty "password_hash" (UC_PasswordHash u).
Definition deleted_fields (u : UserDeleted) : list (string * json) :=
  [("user_id", JString (UD_UserId u))].
Definition password_fields (u : UserPasswordChanged) : list (string * json) :=
  [("user_id", JString (UPC_UserId u))] ++ omit_empty "password_hash" (UPC_PasswordHash u).

(** The data of an [ev.Event] of [createUserCommandHandler]. *)
Inductive user_data := DataCreated (u : UserCreated) | DataDeleted (u : UserDeleted).
Record AdminEvent := mkAdminEvent { AE_EventType : string; AE_Data : user_data }.

Definition user_fields (d : user_data) : list (string * json) :=
  match d with DataCreated u => created_fields u | DataDeleted u => deleted_fields u end.

Definition user_exists (username : string) : goerror :=
  PlainError ("username " +:+ username +:+ " already exists").

(** ** Requests *)

Definition eq_tag (key value : string) : option Tag := Some (mkTag key value "").
Definition all_tags (tags : list (option Tag)) : option Criterion := Some (mkCriterion tags).

Definition latest_request (boundary : string) (count : Z) (criteria : list (option Criterion))
  : GetEventsRequest :=
  mkGetEventsRequest (Some (mkQuery criteria)) None count Direction_DESC boundary.

Definition username_criterion (username : string) : option Criterion :=
  all_tags [eq_tag "username" username; eq_tag "__eventType" EventTypeUserCreated].
Definition deleted_camel_criterion (userId : string) : option Criterion :=
  all_tags [eq_tag "__eventType" EventTypeUserDeleted; eq_tag "userId" userId].
Definition user_criterion (userId eventType : string) : option Criterion :=
  all_tags [eq_tag "user_id" userId; eq_tag "__eventType" eventType].

Definition observe (criteria : list (option Criterion)) (position : option Position)
  : list (option ConsistencyObservation) :=
  [Some (mkObservation (Some (mkQuery criteria)) position)].

(** The double quote. *)
Definition dq : string := bytes [34%N].

(** The metadata of the events: the schema and a second identifier, spliced as they are. *)
Definition schema_metadata (boundary createdBy : string) : string :=
  "{" +:+ dq +:+ "schema" +:+ dq +:+ ":" +:+ dq +:+ boundary +:+ dq +:+ ","
  +:+ dq +:+ "createdBy" +:+ dq +:+ ":" +:+ dq +:+ createdBy +:+ dq +:+ "}".

(** ** The handlers *)

Section Commands.
Context `{J : GoJson} {B : Type}.

Definition roles_member (m : gmap string json) : result (list Role) :=
  match m !! "roles" with
  | None | Some JNull => Ok []
  | Some (JArray l) =>
      mapM (λ v, match v with
                 | JString s => Ok s
                 | JNull => Ok ""
                 | _ => Err (PlainError "cannot unmarshal into a string")
                 end) l
  | Some _ => Err (PlainError "cannot unmarshal into a slice")
  end.

Definition decode_user_created : string → result UserCreated :=
  decode_event (λ m,
    name ← string_member m "name"; id ← string_member m "user_id";
    username ← string_member m "username"; roles ← roles_member m;
    hash ← string_member m "password_hash"; mret (mkUserCreated name id username roles hash)).

Definition decode_user_deleted (data : string) : result UserDeleted :=
  mkUserDeleted <$> decode_user_id data.

Definition createUserCommandHandler (hash : string → result string)
    (userId username password name : string) (roles : list Role) (events : list AdminEvent)
  : result (list AdminEvent) :=
  let has ty := existsb (λ e, bool_decide (AE_EventType e = ty)) events in
  if has EventTypeUserCreated && negb (has EventTypeUserDeleted)
  then Err (user_exists username)
  else
    h ← hash password;
    mret [mkAdminEvent EventTypeUserCreated
            (DataCreated (mkUserCreated name userId username roles h))].

(** The events of a response with their data decoded. *)
Definition decode_events {A} (decode : string → result A) (f : A → user_data)
    (events : list Event) : result (list AdminEvent) :=
  mapM (λ e, d ← decode (Event_Data e); mret (mkAdminEvent (Event_EventType e) (f d))) events.

(** The second lookup of [CreateUser], when the username was found. *)
Definition lookup_deleted (s : EventStore B) (ctx : Ctx) (boundary : string)
    (events : list AdminEvent) (b : B) : result (list AdminEvent) :=
  match events with
  | mkAdminEvent _ (DataCreated u) :: _ =>
      found ← GetEvents s ctx
        (Some (latest_request boundary 1 [deleted_camel_criterion (UC_UserId u)])) b;
      decode_events decode_user_deleted DataDeleted found
  | _ => Ok []
  end.

(** The loop that encodes the new events; [eventId] is the outcome of [uuid.NewV7]. *)
Definition encode_events (boundary : string) (currentUserId : option string)
    (eventId : result string) (events : list AdminEvent) : result (list (option EventToSave)) :=
  mapM (λ e,
    data ← json_Marshal (JObject (user_fields (AE_Data e)));
    id ← eventId;
    mret (Some (mkEventToSave id (AE_EventType e) data
                  (schema_metadata boundary (default "SYSTEM" currentUserId))))) events.

(** [CreateUser] up to its save: the event that it creates and the request. *)
Definition CreateUser_decide (hash : string → result string) (newUserId eventId : result string)
    (s : EventStore B) (ctx : Ctx) (name username password : string) (roles : list Role)
    (boundary : string) (currentUserId : option string) (b : B)
  : result (UserCreated * SaveEventsV2Request) :=
  let username := TrimSpace username in
  found ← GetEvents s ctx (Some (latest_request boundary 1 [username_criterion username])) b;
  created ← decode_events decode_user_created DataCreated found;
  deleted ← lookup_deleted s ctx boundary created b;
  userId ← newUserId;
  newEvents ← createUserCommandHandler hash userId username password name roles
                (created ++ deleted);
  eventsToSave ← encode_events boundary currentUserId eventId newEvents;
  match newEvents with
  | mkAdminEvent _ (DataCreated u) :: _ =>
      mret (u, mkSaveRequest boundary eventsToSave
                 (observe [username_criterion username; deleted_camel_criterion userId]
                    (Some NotExistsPosition)))
  | _ => Err (PlainError "unexpected event data type")
  end.

Definition CreateUser (hash : string → result string) (newUserId eventId : result string)
    (s : EventStore B) (ctx : Ctx) (name username password : string) (roles : list Role)
    (boundary : string) (currentUserId : option string) (w : World B)
  : result UserCreated * World B :=
  match CreateUser_decide hash newUserId eventId s ctx name username password roles boundary
          currentUserId (backend w) with
  | Err e => (Err e, w)
  | Ok (u, req) =>
      match SaveEventsV2 s ctx (Some req) w with
      | (Err e, w) => (Err e, w)
      | (Ok _, w) => (Ok u, w)
      end
  end.

Definition ErrInvalidCurrentPassword : goerror := PlainError "invalid current password".
Definition user_not_found : goerror := PlainError "user not found".

(** The hash of the last password change, or else of the creation. *)
Definition current_hash (created : Event) (changed : list Event) : result string :=
  match changed with
  | e :: _ => snd <$> decode_password_changed (Event_Data e)
  | [] => UC_PasswordHash <$> decode_user_created (Event_Data created)
  end.

(** The position that the save of a password change expects. *)
Definition password_position (created : Event) (changed : list Event) : option Position :=
  match match changed with e :: _ => Event_Position e | [] => None end with
  | Some p => Some p
  | None => Event_Position created
  end.

(** [ChangePassword] up to its save. The two lookups of the error group run at the same
time; when both fail, the error of the first is returned here. *)
Definition ChangePassword_decide (compare : string → string → bool)
    (hash : string → result string) (eventId : string)
    (s : EventStore B) (ctx : Ctx) (currentPassword newPassword boundary currentUserId : string)
    (b : B) : result SaveEventsV2Request :=
  let newUserEventRequest eventType :=
    Some (latest_request boundary 1 [user_criterion currentUserId eventType]) in
  userCreated ← GetEvents s ctx (newUserEventRequest EventTypeUserCreated) b;
  userDeleted ← GetEvents s ctx (newUserEventRequest EventTypeUserDeleted) b;
  passwordChanged ← GetEvents s ctx (newUserEventRequest EventTypeUserPasswordChanged) b;
  match userCreated, userDeleted with
  | created :: _, [] =>
      currentHash ← current_hash created passwordChanged;
      if compare currentHash currentPassword
      then
        h ← hash newPassword;
        payload ← json_Marshal (JObject (password_fields (mkUserPasswordChanged currentUserId h)));
        mret (mkSaveRequest boundary
          [Some (mkEventToSave eventId EventTypeUserPasswordChanged payload "")]
          (observe [all_tags [eq_tag "__eventType" EventTypeUserPasswordChanged;
                              eq_tag "user_id" currentUserId]]
             (password_position created passwordChanged)))
      else Err ErrInvalidCurrentPassword
  | _, _ => Err user_not_found
  end.

Definition save_only (s : EventStore B) (ctx : Ctx) (r : result SaveEventsV2Request) (w : World B)
  : result unit * World B :=
  match r with
  | Err e => (Err e, w)
  | Ok req =>
      match SaveEventsV2 s ctx (Some req) w with
      | (Err e, w) => (Err e, w)
      | (Ok _, w) => (Ok tt, w)
      end
  end.

Definition ChangePassword (compare : string → string → bool) (hash : string → result string)
    (eventId : string) (s : EventStore B) (ctx : Ctx)
    (currentPassword newPassword boundary currentUserId : string) (w : World B)
  : result unit * World B :=
  save_only s ctx (ChangePassword_decide compare hash eventId s ctx currentPassword newPassword
                     boundary currentUserId (backend w)) w.

Definition user_lifetime (userId : string) : list (option Criterion) :=
  [user_criterion userId EventTypeUserCreated; user_criterion userId EventTypeUserDeleted].

(** [DeleteUser] up to its save; [eventId] is the outcome of [uuid.NewV7]. *)
Definition DeleteUser_decide (eventId : result string) (s : EventStore B) (ctx : Ctx)
    (userId currentUserId boundary : string) (b : B) : result SaveEventsV2Request :=
  let userId := TrimSpace userId in
  let currentUserId := TrimSpace currentUserId in
  if String.eqb userId currentUserId
  then Err (PlainError "you cannot delete your own account")
  else
    evts ← GetEvents s ctx (Some (latest_request boundary 2 (user_lifetime userId))) b;
    match last evts with
    | None => Err (PlainError "error: user not found")
    | Some oldest =>
        if existsb (λ e, bool_decide (Event_EventType e = EventTypeUserDeleted)) evts
        then Err (PlainError "error: user already deleted")
        else
          eventData ← json_Marshal (JObject (deleted_fields (mkUserDeleted userId)));
          id ← eventId;
          mret (mkSaveRequest boundary
            [Some (mkEventToSave id EventTypeUserDeleted eventData (schema_metadata boundary id))]
            (observe (user_lifetime userId) (Event_Position oldest)))
    end.

Definition DeleteUser (eventId : result string) (s : EventStore B) (ctx : Ctx)
    (userId currentUserId boundary : string) (w : World B) : result unit * World B :=
  save_only s ctx (DeleteUser_decide eventId s ctx userId currentUserId boundary (backend w)) w.

End Commands.

(** ** One event of a user saved with one observation *)

Section Laws.
Context `{J : GoJson, L : !GoJsonLaws, SJ : !GoJsonStored, SL : !GoJsonStoredLaws, T : SqlText,
  G : GoTime, X : Sqlitex, XL : !SqlitexLaws}.

(** A save that does not succeed leaves the tables of every boundary. *)
Lemma save_refused s now ctx req (w : World Registry) e w' conn :
  sqlite_store s now → text_ok now → text_events (SR_Events req) →
  backend w !! SR_Boundary req = Some conn → log_inv (c_tables conn) →
  SaveEventsV2 s ctx (Some req) w = (Err e, w') →
  ∃ conn', backend w' = <[SR_Boundary req := conn']> (backend w)
    ∧ c_tables conn' = c_tables conn.
Proof.
  intros Hs Hnow Ht Hb Hl H.
  assert ((∃ checks prepared p, admitted_save s ctx req now checks prepared p)
          ∨ backend w' = backend w) as [(checks & prepared & p & Had)|Hw].
  - destruct Hs as [Hs _].
    unfold SaveEventsV2, saveEventsV2Request, validateSaveEventsV2Request in H.
    destruct (authorizeRequest _ _) as [[]|] eqn:Ha; [|right; by injection H as _ <-].
    case_bool_decide as Hne; [right; by injection H as _ <-|].
    destruct (ConsistencyChecksFromObservations _) as [checks|] eqn:Hc;
      [|right; by injection H as _ <-].
    unfold saveEvents in H. destruct (RequireBoundaryActive _ _) as [[]|] eqn:Hr;
      [|right; by injection H as _ <-].
    destruct (prepareRequestedEventsForSave _) as [prepared|] eqn:Hp;
      [|right; by injection H as _ <-].
    destruct (prepareSQLiteSave (ctx_Err ctx) now prepared checks) as [p|] eqn:Hps.
    + left. exists checks, prepared, p. by constructor.
    + right. rewrite Hs in H. unfold savePreparedWithMetrics in H.
      cbn [sqlite_saver saver_SavePrepared] in H. rewrite Hps in H.
      by destruct (SavePrepared _ _ _ _ _ _ _ _) as [[]|];
        cbn [normalize_result] in H; repeat case_match; simplify_eq/=.
  - destruct (SaveEventsV2_sqlite _ _ _ _ _ _ _ w Hs Had) as (n & res & w1 & H1 & Hw & Hr);
      [by eexists|]. rewrite H in H1. injection H1 as <- <-.
    destruct (admitted_good _ _ _ _ _ _ _ Had Hnow Ht) as (Hg & _ & _ & Hlen & _ & _).
    destruct (submit_alone_saved _ _ _ p n Hb Hl Hg) as (conn' & Hx & Hsv).
    rewrite Hx in Hw. exists conn'. split; [done|]. unfold save_reply in Hr.
    destruct (submit_alone _ _ _ _) as [o|]; [|done]. simpl in Hsv.
    destruct (sr_err o); [by destruct Hsv|]. destruct Hsv as (t1 & Ha & _ & ->). simpl in Hr.
    exfalso. pose proof (la_next _ _ Hl).
    pose proof (la_next _ _ (accepts_log_at _ _ _ _ Hl Ha)) as Hm. unfold next_after in Hm.
    by rewrite parseInt64_FormatInt in Hr by (unfold last_id; lia).
  - exists conn. rewrite Hw. split; [|done]. by rewrite insert_id.
Qed.

(** The document of a stored user event. *)
Definition user_doc (ty : string) (fs : list (string * json)) (doc : gmap string json) : Prop :=
  doc !! "__eventType" = Some (JString ty)
  ∧ ∀ k, IsReservedKey k = false → doc !! k = map_of_fields fs !! k.

(** A request with one event of type [ty] and data [fs], observing [criteria] at [pos]. *)
Record user_request (boundary ty : string) (fs : list (string * json))
    (criteria : list (option Criterion)) (pos : Position) (req : SaveEventsV2Request) : Prop := {
  ur_event : ∃ id data meta, SR_Events req = [Some (mkEventToSave id ty data meta)]
    ∧ json_Marshal (JObject fs) = Ok data ∧ text_ok id;
  ur_type : text_ok ty;
  ur_fields : json_faithful (JObject fs);
  ur_boundary : SR_Boundary req = boundary;
  ur_observed : SR_Consistency req = observe criteria (Some pos) }.

Lemma user_request_text boundary ty fs criteria pos req :
  user_request boundary ty fs criteria pos req → text_events (SR_Events req).
Proof.
  intros [(id & data & meta & -> & _ & Hid) Hty _ _ _]. constructor; [|constructor].
  by intros e [= <-].
Qed.

Lemma text_field_string doc k s : text_field doc k = Some s → doc !! k = Some (JString s).
Proof. unfold text_field. intros H. repeat case_match; naive_solver. Qed.

(** What an accepted user event means: the observation was current, and the document is
the new last row of the log. *)
Lemma user_save_accepted s now ctx req (w : World Registry) r w' conn boundary ty fs criteria pos :
  sqlite_store s now → text_ok now → user_request boundary ty fs criteria pos req →
  backend w !! boundary = Some conn → log_inv (c_tables conn) →
  SaveEventsV2 s ctx (Some req) w = (Ok r, w') →
  is_context (c_tables conn) (context_matches (read_criteria criteria)) pos
  ∧ ∃ conn' row, backend w' = <[boundary := conn']> (backend w)
      ∧ log_inv (c_tables conn')
      ∧ t_events (c_tables conn') = t_events (c_tables conn) ++ [row]
      ∧ user_doc ty fs (row_doc row).
Proof.
  intros Hs Hnow Hu Hb Hl H. pose proof (user_request_text _ _ _ _ _ _ Hu) as Ht.
  destruct Hu as [(id & data & meta & Hev & Hm & Hid) Hty Hf Hbd Hobs]. subst boundary.
  destruct (save_accepted _ _ _ _ _ _ _ _ Hs Hnow Ht Hb Hl H)
    as (_ & checks & prepared & p & conn' & t1 & Had & Ha & _ & Hw & Htb & Hl').
  destruct (admitted_good _ _ _ _ _ _ _ Had Hnow Ht) as (_ & _ & Hins & _ & Hck & _).
  destruct Had as [_ _ Hc _ Hp _]. split.
  - rewrite Hobs in Hc. apply (single_observation _ _ _ _ Hc).
    apply (prepared_checks_current _ _ _ Hc). rewrite <-Hck. apply (ac_checks _ _ _ _ Ha).
  - destruct (ac_rows _ _ _ _ Ha) as (rows & Hrows & Hst). rewrite Hins in Hst.
    apply prepared_events in Hp. rewrite Hev in Hp.
    apply Forall2_cons_inv_l in Hp as (pe & pes & (e & [= <-] & _ & Hpt & Hd & _) & Hnil & ->).
    apply Forall2_nil_inv_l in Hnil as ->. unfold prepareEventDocuments in Hst.
    destruct rows as [|row [|]]; simpl in Hst; [done| |by destruct Hst].
    destruct Hst as [Hse _]. exists conn', row. split_and!; [done|done|by rewrite Htb|].
    apply prepareEventDataJSON_ok in Hd as (ob & Hob & _ & _ & _ & Hpo).
    unfold prepareEventDocument in Hse. rewrite Hpo in Hse. simpl in Hpt, Hob. split.
    + apply text_field_string. rewrite (se_type _ _ _ _ _ Hse). simpl. by rewrite Hpt.
    + intros k Hk. rewrite (se_app _ _ _ _ _ Hse k Hk). simpl.
      destruct (json_roundtrip _ Hf) as (text & Hmar & Hne & Hun).
      rewrite Hm in Hmar. injection Hmar as <-. destruct (String.eqb_spec data ""); [done|].
      unfold unmarshal_object in Hob. rewrite Hun in Hob. by injection Hob as <-.
Qed.

(** ** Which documents a criterion of these handlers matches *)

Definition field_is (doc : gmap string json) (key value : string) : bool :=
  tag_sql_holds doc (mkReadTag key value "").

Lemma field_is_eq doc key value :
  field_is doc key value =
    match scalar_text doc key with
    | Some text => compare_holds "=" (strings_Compare text value)
    | None => false
    end.
Proof. done. Qed.

Lemma field_is_string doc key s value :
  plain_key key = true → doc !! key = Some (JString s) →
  field_is doc key value = bool_decide (s = value).
Proof.
  intros Hp Hd. rewrite field_is_eq. unfold scalar_text, path_value. rewrite Hp, Hd.
  unfold compare_holds. simpl. rewrite strings_Compare_zero.
  by destruct (String.eqb_spec s value); [rewrite bool_decide_true|rewrite bool_decide_false].
Qed.

Lemma field_is_missing doc key value :
  plain_key key = true → doc !! key = None → field_is doc key value = false.
Proof.
  intros Hp Hd. rewrite field_is_eq. unfold scalar_text, path_value. by rewrite Hp, Hd.
Qed.

(** A [$UserCreated] event of a username; an event of a user. *)
Definition created_as (username : string) (doc : gmap string json) : bool :=
  field_is doc "username" username && field_is doc "__eventType" EventTypeUserCreated.
Definition user_event (userId ty : string) (doc : gmap string json) : bool :=
  field_is doc "user_id" userId && field_is doc "__eventType" ty.

Lemma username_observed username userId doc :
  context_matches
    (read_criteria [username_criterion username; deleted_camel_criterion userId]) doc = false →
  created_as username doc = false.
Proof.
  unfold context_matches. simpl. unfold created_as, field_is. rewrite !andb_true_r, orb_false_r.
  by intros [? _]%orb_false_iff.
Qed.

Lemma password_observed userId doc :
  context_matches
    (read_criteria [all_tags [eq_tag "__eventType" EventTypeUserPasswordChanged;
                              eq_tag "user_id" userId]]) doc =
  user_event userId EventTypeUserPasswordChanged doc.
Proof.
  unfold context_matches. simpl. unfold user_event, field_is.
  rewrite andb_true_r, orb_false_r. apply andb_comm.
Qed.

Lemma lifetime_observed userId doc :
  context_matches (read_criteria (user_lifetime userId)) doc =
  user_event userId EventTypeUserCreated doc || user_event userId EventTypeUserDeleted doc.
Proof.
  unfold context_matches. simpl. unfold user_event, field_is.
  by rewrite !andb_true_r, orb_false_r.
Qed.

(** The documents of the three events. *)
Lemma map_of_fields_lookup fs k v :
  NoDup fs.*1 → (k, v) ∈ fs → map_of_fields fs !! k = Some v.
Proof.
  intros Hn Hin. unfold map_of_fields. apply elem_of_list_to_map_1.
  - by rewrite fmap_reverse, reverse_Permutation.
  - by apply elem_of_reverse.
Qed.

Lemma created_fields_nodup u : NoDup (created_fields u).*1.
Proof.
  unfold created_fields, omit_empty.
  destruct (UC_Roles u), (String.eqb _ _); by apply (bool_decide_unpack _).
Qed.

Lemma user_doc_type ty fs doc ty' :
  user_doc ty fs doc → field_is doc "__eventType" ty' = bool_decide (ty = ty').
Proof. intros [H _]. by apply field_is_string. Qed.

Lemma created_doc u doc username :
  user_doc EventTypeUserCreated (created_fields u) doc →
  created_as username doc = bool_decide (UC_Username u = username).
Proof.
  intros Hd. unfold created_as. rewrite (user_doc_type _ _ _ _ Hd), bool_decide_true by done.
  rewrite andb_true_r. apply field_is_string; [done|]. destruct Hd as [_ Hd]. rewrite Hd by done.
  apply map_of_fields_lookup; [apply created_fields_nodup|]. do 2 right. left.
Qed.

Lemma other_doc ty fs doc username :
  user_doc ty fs doc → ty ≠ EventTypeUserCreated → created_as username doc = false.
Proof.
  intros Hd Hne. unfold created_as. rewrite (user_doc_type _ _ _ _ Hd).
  by rewrite bool_decide_false, andb_false_r.
Qed.

Lemma deleted_doc userId doc id :
  user_doc EventTypeUserDeleted (deleted_fields (mkUserDeleted userId)) doc →
  user_event id EventTypeUserDeleted doc = bool_decide (userId = id).
Proof.
  intros Hd. unfold user_event. rewrite (user_doc_type _ _ _ _ Hd), bool_decide_true by done.
  rewrite andb_true_r. apply field_is_string; [done|]. destruct Hd as [_ Hd]. rewrite Hd by done.
  apply map_of_fields_lookup; [by apply (bool_decide_unpack _)|left].
Qed.

(** ** What the handlers ask to save *)

(** The strings of a command, which the JSON encoder writes as they are. *)
Definition text_result (r : result string) : Prop := ∀ s, r = Ok s → text_ok s.

Lemma created_faithful u :
  text_ok (UC_Name u) → text_ok (UC_UserId u) → text_ok (UC_Username u) →
  Forall text_ok (UC_Roles u) → text_ok (UC_PasswordHash u) →
  json_faithful (JObject (created_fields u)).
Proof.
  intros Hn Hi Hu Hr Hp. apply json_faithful_object.
  assert (∀ k, string_forallb (λ c, (N_of_ascii c <? 128)%N) k = true → text_ok k) as Ha
    by apply text_ok_ascii.
  intros k v. unfold created_fields, omit_empty. rewrite !elem_of_app, !elem_of_cons, elem_of_nil.
  intros [[[= -> ->]|[[= -> ->]|[[= -> ->]|[]]]]|[Hin|Hin]]; try (split; [by apply Ha|done]).
  - destruct (UC_Roles u) as [|r rs]; [by apply elem_of_nil in Hin|].
    apply list_elem_of_singleton in Hin as [= -> ->]. split; [by apply Ha|].
    apply json_faithful_array. intros v Hv. change (v ∈ JString <$> (r :: rs)) in Hv.
    apply list_elem_of_fmap in Hv as (x & -> & Hx). rewrite Forall_forall in Hr. by apply Hr.
  - destruct (String.eqb _ _); [by apply elem_of_nil in Hin|].
    apply list_elem_of_singleton in Hin as [= -> ->]. split; [by apply Ha|done].
Qed.

Lemma password_faithful u :
  text_ok (UPC_UserId u) → text_ok (UPC_PasswordHash u) →
  json_faithful (JObject (password_fields u)).
Proof.
  intros Hi Hp. apply json_faithful_object. intros k v. unfold password_fields, omit_empty.
  rewrite elem_of_app, list_elem_of_singleton. intros [[= -> ->]|Hin].
  - split; [by apply text_ok_ascii|done].
  - destruct (String.eqb _ _); [by apply elem_of_nil in Hin|].
    apply list_elem_of_singleton in Hin as [= -> ->]. split; [by apply text_ok_ascii|done].
Qed.

Lemma deleted_faithful u : text_ok (UD_UserId u) → json_faithful (JObject (deleted_fields u)).
Proof.
  intros Hi. apply json_faithful_object. intros k v [= -> ->]%list_elem_of_singleton.
  split; [by apply text_ok_ascii|done].
Qed.

(** The arguments of a command are texts that the encoder writes as they are. *)
Definition text_hash (hash : string → result string) : Prop := ∀ p, text_result (hash p).

Lemma CreateUser_request hash newUserId eventId (s : EventStore Registry) ctx name username
    password roles boundary currentUserId b u req :
  CreateUser_decide hash newUserId eventId s ctx name username password roles boundary
    currentUserId b = Ok (u, req) →
  text_hash hash → text_result newUserId → text_result eventId →
  text_ok name → text_ok (TrimSpace username) → Forall text_ok roles →
  UC_Username u = TrimSpace username ∧
  user_request boundary EventTypeUserCreated (created_fields u)
    [username_criterion (TrimSpace username); deleted_camel_criterion (UC_UserId u)]
    NotExistsPosition req.
Proof.
  unfold CreateUser_decide. intros H Hh Hi He Hn Hu Hr.
  apply result_bind_ok in H as (found & _ & H). apply result_bind_ok in H as (created & _ & H).
  apply result_bind_ok in H as (deleted & _ & H). apply result_bind_ok in H as (userId & Hid & H).
  apply result_bind_ok in H as (newEvents & Hc & H).
  apply result_bind_ok in H as (toSave & Henc & H).
  unfold createUserCommandHandler in Hc. destruct (_ && negb _); [done|].
  apply result_bind_ok in Hc as (h & Hhash & [= <-]). injection H as <- <-. simpl.
  split; [done|]. unfold encode_events in Henc. simpl in Henc.
  apply result_bind_ok in Henc as (x & Hx & Henc). injection Henc as <-.
  apply result_bind_ok in Hx as (data & Hm & Hx). apply result_bind_ok in Hx as (id & Hev & Hx).
  injection Hx as <-. constructor; [| | |done|].
  - eexists id, data, _. split_and!; [done|done|by apply He].
  - by apply text_ok_ascii.
  - apply created_faithful; simpl; [done|by apply Hi|done..|by eapply Hh].
  - done.
Qed.

Lemma DeleteUser_request eventId (s : EventStore Registry) ctx userId currentUserId boundary b
    req :
  DeleteUser_decide eventId s ctx userId currentUserId boundary b = Ok req →
  text_result eventId → text_ok (TrimSpace userId) →
  ∃ evts oldest pos,
    GetEvents s ctx (Some (latest_request boundary 2 (user_lifetime (TrimSpace userId)))) b = Ok evts
    ∧ last evts = Some oldest ∧ Event_Position oldest = pos
    ∧ (∀ e, e ∈ evts → Event_EventType e ≠ EventTypeUserDeleted)
    ∧ (∀ p, pos = Some p →
       user_request boundary EventTypeUserDeleted (deleted_fields (mkUserDeleted (TrimSpace userId)))
         (user_lifetime (TrimSpace userId)) p req).
Proof.
  unfold DeleteUser_decide. intros H He Hu. destruct (String.eqb _ _); [done|].
  apply result_bind_ok in H as (evts & Hg & H). destruct (last evts) as [oldest|] eqn:Hl; [|done].
  destruct (existsb _ evts) eqn:Hx; [done|]. apply result_bind_ok in H as (data & Hm & H).
  apply result_bind_ok in H as (id & Hid & [= <-]).
  exists evts, oldest, (Event_Position oldest). split_and!; try done.
  - intros e He' Hty. apply not_true_iff_false in Hx. apply Hx, existsb_exists.
    exists e. rewrite <- list_elem_of_In. split; [done|]. by apply bool_decide_eq_true.
  - intros p Hp. constructor; [| | |done|].
    + eexists id, data, _. split_and!; [done|done|by apply He].
    + by apply text_ok_ascii.
    + by apply deleted_faithful.
    + simpl. by rewrite Hp.
Qed.

Lemma ChangePassword_request compare hash eventId (s : EventStore Registry) ctx cur new boundary
    userId b req :
  ChangePassword_decide compare hash eventId s ctx cur new boundary userId b = Ok req →
  text_hash hash → text_ok eventId → text_ok userId →
  ∃ created rest changed h pos,
    GetEvents s ctx
      (Some (latest_request boundary 1 [user_criterion userId EventTypeUserCreated])) b
    = Ok (created :: rest)
    ∧ GetEvents s ctx
        (Some (latest_request boundary 1 [user_criterion userId EventTypeUserPasswordChanged])) b
      = Ok changed
    ∧ password_position created changed = pos
    ∧ (∀ p, pos = Some p →
       user_request boundary EventTypeUserPasswordChanged
         (password_fields (mkUserPasswordChanged userId h))
         [all_tags [eq_tag "__eventType" EventTypeUserPasswordChanged; eq_tag "user_id" userId]]
         p req).
Proof.
  unfold ChangePassword_decide. intros H Hh He Hu.
  apply result_bind_ok in H as (uc & Hc & H). apply result_bind_ok in H as (ud & Hd & H).
  apply result_bind_ok in H as (pc & Hp & H). destruct uc as [|created rest]; [done|].
  destruct ud; [|done]. apply result_bind_ok in H as (ch & _ & H).
  destruct (compare _ _); [|done]. apply result_bind_ok in H as (h & Hhash & H).
  apply result_bind_ok in H as (payload & Hm & [= <-]).
  exists created, rest, pc, h, (password_position created pc). split_and!; try done.
  intros p Hpos. constructor; [| | |done|].
  - eexists eventId, payload, _. split_and!; done.
  - by apply text_ok_ascii.
  - apply password_faithful; [done|by eapply Hh].
  - simpl. by rewrite Hpos.
Qed.

(** ** Reading the latest events of a user *)

(** The rows of a log that satisfy a predicate on documents. *)
Definition rows_where (P : gmap string json → bool) (t : Tables) : list Row :=
  filter (λ r, P (row_doc r) = true) (t_events t).

Lemma rows_where_elem P t r :
  r ∈ rows_where P t ↔ P (row_doc r) = true ∧ r ∈ t_events t.
Proof. unfold rows_where. by rewrite list_elem_of_filter. Qed.

Lemma rows_where_snoc P t t' row :
  t_events t' = t_events t ++ [row] →
  rows_where P t' = rows_where P t ++ (if P (row_doc row) then [row] else []).
Proof.
  intros He. unfold rows_where. rewrite He, filter_app. f_equal.
  destruct (P (row_doc row)) eqn:E; [by rewrite filter_cons_True|].
  rewrite filter_cons_False; [done|congruence].
Qed.

(** The last [n] events that match are read, newest first. *)
Lemma GetEvents_latest s now ctx boundary n criteria cs (b : Registry) conn evts :
  sqlite_store s now → b !! boundary = Some conn → log_inv (c_tables conn) →
  (0 < n <= MaxReadBatchSize)%Z → mapM read_criterion criteria = Some cs →
  GetEvents s ctx (Some (latest_request boundary n criteria)) b = Ok evts →
  Forall2 (λ r e, Event_Position e = Some (row_pos r)
                  ∧ Event_EventType e = default "" (text_field (row_doc r) "__eventType"))
    (take (Z.to_nat n) (reverse (rows_where (context_matches cs) (c_tables conn)))) evts.
Proof.
  intros [_ Hs] Hb Hl Hn Hcs H. unfold GetEvents in H. simpl in H.
  rewrite (proj2 (Z.eqb_neq n 0)) in H by lia.
  rewrite (proj2 (Z.ltb_ge MaxReadBatchSize n)) in H by lia.
  apply result_bind_ok in H as ([] & _ & H). apply result_bind_ok in H as ([] & _ & H).
  rewrite Hs in H. cbn [sqlite_retriever retriever_GetBatch] in H.
  apply result_bind_ok in H as (batch & Hg & [= <-]).
  apply (GetBatch_sound _ conn) in Hg as (cs' & Hcs' & Hm); [|done..].
  simpl in Hcs'. rewrite Hcs in Hcs'. injection Hcs' as <-.
  assert (batch_count n = n) as Hc.
  { unfold batch_count. rewrite (proj2 (Z.eqb_neq n 0)) by lia.
    by rewrite (proj2 (Z.ltb_ge MaxReadBatchSize n)) by lia. }
  simpl in Hm. rewrite Hc in Hm. unfold ordered, matching in Hm. unfold rows_where.
  assert (filter (λ r, context_matches cs (row_doc r) && in_range Direction_DESC None r = true)
            (t_events (c_tables conn))
          = filter (λ r, context_matches cs (row_doc r) = true) (t_events (c_tables conn)))
    as Heq by (apply list_filter_iff; intros r; simpl; by rewrite andb_true_r).
  rewrite Heq in Hm. apply result_mapM_Forall2 in Hm. unfold Response.
  apply Forall2_fmap_r. eapply Forall2_impl; [exact Hm|]. intros r e Hr.
  unfold scanReadEventRow in Hr. by apply result_bind_ok in Hr as (d & _ & [= <-]).
Qed.

(** What the lookups of the handlers read. *)
Definition reads_latest (n : nat) (P : gmap string json → bool) (t : Tables) (evts : list Event)
  : Prop :=
  Forall2 (λ r e, Event_Position e = Some (row_pos r)
                  ∧ Event_EventType e = default "" (text_field (row_doc r) "__eventType"))
    (take n (reverse (rows_where P t))) evts.

Lemma rows_where_ext P Q t :
  (∀ r, r ∈ t_events t → P (row_doc r) = Q (row_doc r)) → rows_where P t = rows_where Q t.
Proof.
  unfold rows_where. induction (t_events t) as [|r l IH]; intros H; [done|].
  rewrite !filter_cons, IH by (intros; apply H; by right). by rewrite (H r) by left.
Qed.

Lemma GetEvents_user s now ctx boundary userId ty (b : Registry) conn evts :
  sqlite_store s now → b !! boundary = Some conn → log_inv (c_tables conn) →
  GetEvents s ctx (Some (latest_request boundary 1 [user_criterion userId ty])) b = Ok evts →
  reads_latest 1 (user_event userId ty) (c_tables conn) evts.
Proof.
  intros Hs Hb Hl H. unfold reads_latest.
  rewrite <- (rows_where_ext (context_matches [mkReadCriterion
    [mkReadTag "user_id" userId ""; mkReadTag "__eventType" ty ""]])).
  - by eapply (GetEvents_latest s now ctx boundary 1) in H.
  - intros r _. unfold context_matches. simpl. unfold user_event, field_is.
    by rewrite andb_true_r, orb_false_r.
Qed.

Definition lifetime_event (userId : string) (doc : gmap string json) : bool :=
  user_event userId EventTypeUserCreated doc || user_event userId EventTypeUserDeleted doc.

Lemma GetEvents_lifetime s now ctx boundary userId (b : Registry) conn evts :
  sqlite_store s now → b !! boundary = Some conn → log_inv (c_tables conn) →
  GetEvents s ctx (Some (latest_request boundary 2 (user_lifetime userId))) b = Ok evts →
  reads_latest 2 (lifetime_event userId) (c_tables conn) evts.
Proof.
  intros Hs Hb Hl H. unfold reads_latest.
  rewrite <- (rows_where_ext (context_matches (read_criteria (user_lifetime userId))))
    by (intros; apply lifetime_observed).
  by eapply (GetEvents_latest s now ctx boundary 2) in H.
Qed.

Lemma reads_latest_row n P t evts e :
  reads_latest n P t evts → e ∈ evts →
  ∃ r, r ∈ t_events t ∧ P (row_doc r) = true ∧ Event_Position e = Some (row_pos r)
    ∧ Event_EventType e = default "" (text_field (row_doc r) "__eventType").
Proof.
  intros H [i Hi]%list_elem_of_lookup. destruct (Forall2_lookup_r _ _ _ _ _ H Hi)
    as (r & Hr%list_elem_of_lookup_2 & Hp & Ht).
  apply elem_of_take in Hr as (j & Hj%list_elem_of_lookup_2 & _).
  rewrite elem_of_reverse in Hj. apply rows_where_elem in Hj as [HP Hin]. by exists r.
Qed.

(** ** Theorems *)

(** One write of the user handlers: what some command decided, on whatever it had read,
is saved on the log as it is now. *)
Inductive user_write (s : EventStore Registry) (boundary : string) (w : World Registry)
  : World Registry → Prop :=
  | write_created hash newUserId eventId ctx name username password roles currentUserId b u req
      r w' :
      CreateUser_decide hash newUserId eventId s ctx name username password roles boundary
        currentUserId b = Ok (u, req) →
      text_hash hash → text_result newUserId → text_result eventId →
      text_ok name → text_ok (TrimSpace username) → Forall text_ok roles →
      SaveEventsV2 s ctx (Some req) w = (r, w') → user_write s boundary w w'
  | write_password compare hash eventId ctx current new userId b req r w' :
      ChangePassword_decide compare hash eventId s ctx current new boundary userId b = Ok req →
      text_hash hash → text_ok eventId → text_ok userId →
      SaveEventsV2 s ctx (Some req) w = (r, w') → user_write s boundary w w'
  | write_deleted eventId ctx userId currentUserId b req r w' :
      DeleteUser_decide eventId s ctx userId currentUserId boundary b = Ok req →
      text_result eventId → text_ok (TrimSpace userId) →
      SaveEventsV2 s ctx (Some req) w = (r, w') → user_write s boundary w w'.

Lemma GetEvents_positions (s : EventStore Registry) ctx req b evts e :
  GetEvents s ctx req b = Ok evts → e ∈ evts → is_Some (Event_Position e).
Proof.
  unfold GetEvents. intros H He. destruct req as [req|]; [|done].
  destruct (_ =? _)%Z; [done|]. destruct (_ <? _)%Z; [done|].
  apply result_bind_ok in H as ([] & _ & H). apply result_bind_ok in H as ([] & _ & H).
  apply result_bind_ok in H as (batch & _ & [= <-]).
  by apply list_elem_of_fmap in He as (x & -> & _).
Qed.

(** Every write of the handlers saves one event, and the creation of a user observes that
its username was never used. *)
Lemma user_write_request s boundary w w' :
  user_write s boundary w w' →
  ∃ ctx ty fs criteria pos req r, user_request boundary ty fs criteria pos req
    ∧ SaveEventsV2 s ctx (Some req) w = (r, w')
    ∧ (ty = EventTypeUserCreated → ∃ u id, fs = created_fields u ∧ pos = NotExistsPosition
         ∧ criteria = [username_criterion (UC_Username u); deleted_camel_criterion id]).
Proof.
  intros [hash newUserId eventId ctx name username password roles currentUserId b u req r w1
            H Hh Hi He Hn Hu Hr Hs
         |compare hash eventId ctx current new userId b req r w1 H Hh He Hu Hs
         |eventId ctx userId currentUserId b req r w1 H He Hu Hs].
  - eapply CreateUser_request in H as [Hun Hreq]; [|done..].
    eexists _, _, _, _, _, _, _. split_and!; [exact Hreq|exact Hs|]. intros _.
    exists u, (UC_UserId u). by rewrite Hun.
  - eapply ChangePassword_request in H
      as (created & rest & changed & h & pos & Hc & Hch & Hpos & Hreq); [|done..].
    assert (is_Some pos) as [p ->].
    { subst pos. unfold password_position. destruct changed as [|e changed].
      - eapply GetEvents_positions; [exact Hc|left].
      - destruct (GetEvents_positions _ _ _ _ _ e Hch) as [q ->]; [left|by eexists]. }
    eexists _, _, _, _, _, _, _. split_and!; [by apply Hreq|exact Hs|done].
  - eapply DeleteUser_request in H as (evts & oldest & pos & Hg & Hl & Hpos & _ & Hreq); [|done..].
    assert (is_Some pos) as [p ->].
    { subst pos. eapply GetEvents_positions; [exact Hg|].
      apply last_Some in Hl as [l ->]. apply elem_of_app. right. left. }
    eexists _, _, _, _, _, _, _. split_and!; [by apply Hreq|exact Hs|done].
Qed.

(** A boundary with a log in which no username was created twice. *)
Record users_inv (boundary : string) (w : World Registry) : Prop := {
  ui_log : ∃ conn, backend w !! boundary = Some conn ∧ log_inv (c_tables conn)
    ∧ ∀ username, length (rows_where (created_as username) (c_tables conn)) ≤ 1 }.

Lemma user_write_inv s now boundary w w' :
  sqlite_store s now → text_ok now →
  users_inv boundary w → user_write s boundary w w' → users_inv boundary w'.
Proof.
  intros Hs Hnow [(conn & Hb & Hl & Hone)]
    (ctx & ty & fs & criteria & pos & req & r & Hreq & Hsave & Hcr)%user_write_request.
  constructor. destruct r as [r|e].
  - destruct (user_save_accepted _ _ _ _ _ _ _ _ _ _ _ _ _ Hs Hnow Hreq Hb Hl Hsave)
      as (Hctx & conn' & row & -> & Hl' & Hev & Hdoc).
    exists conn'. rewrite lookup_insert_eq. split_and!; [done..|]. intros username.
    rewrite (rows_where_snoc _ _ _ _ Hev), length_app. specialize (Hone username).
    destruct (decide (ty = EventTypeUserCreated)) as [Heq|Hne];
      [|rewrite (other_doc _ _ _ _ Hdoc Hne); simpl; lia].
    destruct (Hcr Heq) as (u & id & -> & -> & ->). subst ty.
    rewrite (created_doc _ _ _ Hdoc). case_bool_decide as Hu; [|simpl; lia]. subst username.
    destruct (rows_where (created_as (UC_Username u)) (c_tables conn)) as [|r0 l] eqn:E; [done|].
    exfalso. assert (r0 ∈ rows_where (created_as (UC_Username u)) (c_tables conn)) as Hr0
      by (rewrite E; left).
    apply rows_where_elem in Hr0 as [Hc Hin]. destruct Hctx as [[_ Hnone]|(r1 & Hr1 & _ & Hp & _)].
    + specialize (Hnone _ Hin). apply username_observed in Hnone. congruence.
    + pose proof (log_pos_positive _ _ _ Hl Hr1) as Hpos. rewrite Hp in Hpos.
      by apply pos_lt_irrefl in Hpos.
  - pose proof (user_request_text _ _ _ _ _ _ Hreq) as Ht. rewrite <- (ur_boundary _ _ _ _ _ _ Hreq) in *.
    destruct (save_refused _ _ _ _ _ _ _ _ Hs Hnow Ht Hb Hl Hsave) as (conn' & -> & Hsame).
    exists conn'. rewrite lookup_insert_eq, Hsame. by split_and!.
Qed.

(** C29: a username belongs to at most one user. Whatever commands create users, change
passwords and delete users, however their reads and saves interleave and whatever fails
in the database, the log of the admin boundary never holds two [$UserCreated] events
with the same username: the save observes that there is none. *)
Theorem username_unique s now boundary w w' :
  sqlite_store s now → text_ok now →
  users_inv boundary w → rtc (user_write s boundary) w w' → users_inv boundary w'.
Proof. intros Hs Hnow Hi H. induction H; [done|]. by eauto using user_write_inv. Qed.

(** The username of a user can never be used again. When the log holds a
[$UserCreated] event with the username, creating a user with it does not succeed, also
when the user that had it has been deleted: the handler looks for the deletion by a key
that no event has, and observes that the username was never created. *)
Theorem username_never_reused hash newUserId eventId s now ctx name username password roles
    boundary currentUserId (w : World Registry) conn :
  sqlite_store s now → text_ok now →
  text_hash hash → text_result newUserId → text_result eventId →
  text_ok name → text_ok (TrimSpace username) → Forall text_ok roles →
  backend w !! boundary = Some conn → log_inv (c_tables conn) →
  rows_where (created_as (TrimSpace username)) (c_tables conn) ≠ [] →
  is_ok (CreateUser hash newUserId eventId s ctx name username password roles boundary
           currentUserId w).1 = false.
Proof.
  intros Hs Hnow Hh Hi He Hn Hu Hr Hb Hl Hused. unfold CreateUser.
  destruct (CreateUser_decide _ _ _ _ _ _ _ _ _ _ _ _) as [[u req]|e] eqn:Hd; [|done].
  eapply CreateUser_request in Hd as [Hun Hreq]; [|done..].
  destruct (SaveEventsV2 s ctx (Some req) w) as [[r|e] w'] eqn:Hsave; [|done].
  destruct (user_save_accepted _ _ _ _ _ _ _ _ _ _ _ _ _ Hs Hnow Hreq Hb Hl Hsave)
    as (Hctx & _).
  destruct (rows_where _ _) as [|r0 l] eqn:E; [done|].
  assert (r0 ∈ rows_where (created_as (TrimSpace username)) (c_tables conn)) as Hr0
    by (rewrite E; left).
  apply rows_where_elem in Hr0 as [Hc Hin]. destruct Hctx as [[_ Hnone]|(r1 & Hr1 & _ & Hp & _)].
  - specialize (Hnone _ Hin). apply username_observed in Hnone. congruence.
  - pose proof (log_pos_positive _ _ _ Hl Hr1) as Hpos. rewrite Hp in Hpos.
    by apply pos_lt_irrefl in Hpos.
Qed.

(** C30: the first change of a password does not succeed. While no [$UserPasswordChanged]
event of the user is in the log, [ChangePassword] expects the position of the
[$UserCreated] event on a context that does not contain it, so the save is refused. *)
Theorem first_password_change_refused compare hash eventId s now ctx current new boundary userId
    (w : World Registry) conn :
  sqlite_store s now → text_ok now → text_hash hash → text_ok eventId → text_ok userId →
  backend w !! boundary = Some conn → log_inv (c_tables conn) →
  rows_where (user_event userId EventTypeUserPasswordChanged) (c_tables conn) = [] →
  is_ok (ChangePassword compare hash eventId s ctx current new boundary userId w).1 = false.
Proof.
  intros Hs Hnow Hh He Hu Hb Hl Hnone. unfold ChangePassword, save_only.
  destruct (ChangePassword_decide _ _ _ _ _ _ _ _ _ _) as [req|e] eqn:Hd; [|done].
  eapply ChangePassword_request in Hd
    as (created & rest & changed & h & pos & Hc & Hch & Hpos & Hreq); [|done..].
  eapply GetEvents_user in Hc; [|done..]. eapply GetEvents_user in Hch; [|done..].
  unfold reads_latest in Hch. rewrite Hnone in Hch. apply Forall2_nil_inv_l in Hch as ->.
  destruct (reads_latest_row _ _ _ _ created Hc) as (r0 & Hr0 & _ & Hp0 & _); [left|].
  unfold password_position in Hpos. rewrite Hp0 in Hpos. specialize (Hreq (row_pos r0) (eq_sym Hpos)).
  destruct (SaveEventsV2 s ctx (Some req) w) as [[r|e] w'] eqn:Hsave; [|done].
  destruct (user_save_accepted _ _ _ _ _ _ _ _ _ _ _ _ _ Hs Hnow Hreq Hb Hl Hsave)
    as ([[Heq _]|(r1 & Hr1 & HP & _)] & _); exfalso.
  - pose proof (log_pos_positive _ _ _ Hl Hr0) as Hlt. rewrite Heq in Hlt.
    by apply pos_lt_irrefl in Hlt.
  - rewrite password_observed in HP.
    assert (r1 ∈ rows_where (user_event userId EventTypeUserPasswordChanged) (c_tables conn))
      as Hin by by apply rows_where_elem.
    rewrite Hnone in Hin. by apply elem_of_nil in Hin.
Qed.

Lemma rows_where_sorted P t n :
  log_at t n → StronglySorted row_lt (rows_where P t).
Proof. intros Hl. by eapply StronglySorted_filter, log_sorted. Qed.

(** If the context of a predicate is at the position of the last of the two newest
matching rows that were read, then it is the only matching row. *)
Lemma latest_is_only P t tw n n' evts oldest p :
  log_at t n → log_at tw n' → t_events t `prefix_of` t_events tw →
  reads_latest 2 P t evts → last evts = Some oldest → Event_Position oldest = Some p →
  is_context tw P p →
  ∃ r, rows_where P tw = [r] ∧ row_pos r = p ∧ evts = [oldest]
    ∧ Event_EventType oldest = default "" (text_field (row_doc r) "__eventType").
Proof.
  intros Hl Hlw [rest Hpre] Hr Hlast Hp Hctx. unfold reads_latest in Hr.
  assert (rows_where P tw = rows_where P t ++ filter (λ r, P (row_doc r) = true) rest) as Hsplit
    by (unfold rows_where; by rewrite Hpre, filter_app).
  destruct (rows_where P t) as [|a M _] eqn:EM using rev_ind; [by apply Forall2_nil_inv_l in Hr as ->|].
  pose proof (rows_where_sorted P tw n' Hlw) as Hsort.
  assert (∀ r, r ∈ rows_where P tw → pos_le (row_pos r) p) as Hle.
  { intros r [HP Hin]%rows_where_elem. by eapply is_context_ge. }
  destruct M as [|c M _] using rev_ind.
  - simpl in Hr. apply Forall2_cons_inv_l in Hr as (e & es & [He Ht] & Hnil & ->).
    apply Forall2_nil_inv_l in Hnil as ->. injection Hlast as ->.
    assert (row_pos a = p) as <- by congruence. exists a. split_and!; try done.
    rewrite Hsplit. destruct (filter _ rest) as [|x l] eqn:Ef; [done|]. exfalso.
    rewrite Hsplit in Hsort, Hle. simpl in Hsort, Hle.
    apply StronglySorted_inv in Hsort as [_ Hf]. apply Forall_cons in Hf as [Hlt _].
    specialize (Hle x). apply pos_not_lt in Hle; [done|]. right. left.
  - exfalso. rewrite !reverse_app in Hr. simpl in Hr.
    apply Forall2_cons_inv_l in Hr as (e1 & es & _ & Hr & ->).
    apply Forall2_cons_inv_l in Hr as (e2 & es' & [He _] & Hnil & ->).
    apply Forall2_nil_inv_l in Hnil as ->. injection Hlast as ->.
    assert (row_pos c = p) as <- by congruence.
    assert (pos_le (row_pos a) (row_pos c)) as Hac.
    { apply Hle. rewrite Hsplit, !elem_of_app. left. right. left. }
    apply pos_not_lt in Hac. apply Hac. rewrite Hsplit in Hsort.
    apply StronglySorted_app_1_l in Hsort.
    eapply (StronglySorted_app_1_elem_of row_lt (M ++ [c]) [a]); [done| |left].
    apply elem_of_app. right. left.
Qed.

(** The rows of the store have a type: [stored_event] gives them one. *)
Definition typed (t : Tables) : Prop :=
  ∀ r, r ∈ t_events t → is_Some (text_field (row_doc r) "__eventType").

(** A user is deleted once, and only after it was created. [DeleteUser] decides on the
log as it was at some moment and saves later; when the save succeeds, the log held one
[$UserCreated] event of the user and no [$UserDeleted] event of it, although others may
have written in between, and the deletion is now the last event. *)
Theorem delete_user_once eventId s now ctx userId currentUserId boundary (b : Registry) connb req
    (w : World Registry) conn r w' :
  sqlite_store s now → text_ok now → text_result eventId → text_ok (TrimSpace userId) →
  b !! boundary = Some connb → log_inv (c_tables connb) →
  DeleteUser_decide eventId s ctx userId currentUserId boundary b = Ok req →
  backend w !! boundary = Some conn → log_inv (c_tables conn) → typed (c_tables conn) →
  t_events (c_tables connb) `prefix_of` t_events (c_tables conn) →
  SaveEventsV2 s ctx (Some req) w = (Ok r, w') →
  let id := TrimSpace userId in
  length (rows_where (user_event id EventTypeUserCreated) (c_tables conn)) = 1
  ∧ rows_where (user_event id EventTypeUserDeleted) (c_tables conn) = []
  ∧ ∃ conn' row, backend w' = <[boundary := conn']> (backend w)
      ∧ t_events (c_tables conn') = t_events (c_tables conn) ++ [row]
      ∧ rows_where (user_event id EventTypeUserDeleted) (c_tables conn') = [row].
Proof.
  intros Hs Hnow He Hu Hb Hlb Hd Hbw Hl Hty Hpre Hsave id.
  eapply DeleteUser_request in Hd as (evts & oldest & pos & Hg & Hlast & Hpos & Hnd & Hreq);
    [|done..]. fold id in Hg, Hreq.
  eapply GetEvents_lifetime in Hg; [|done..].
  destruct (reads_latest_row _ _ _ _ oldest Hg) as (r0 & Hr0 & _ & Hp0 & Ht0).
  { apply last_Some in Hlast as [l ->]. apply elem_of_app. right. left. }
  rewrite Hp0 in Hpos. subst pos. specialize (Hreq _ eq_refl).
  destruct (user_save_accepted _ _ _ _ _ _ _ _ _ _ _ _ _ Hs Hnow Hreq Hbw Hl Hsave)
    as (Hctx & conn' & row & Hw & _ & Hev & Hdoc).
  rewrite (is_context_ext _ _ (lifetime_event id)) in Hctx by apply lifetime_observed.
  destruct (latest_is_only _ _ _ _ _ _ _ _ Hlb Hl Hpre Hg Hlast Hp0 Hctx)
    as (r1 & Hrows & Hp1 & -> & Ht1).
  assert (r1 ∈ rows_where (lifetime_event id) (c_tables conn)) as Hr1 by (rewrite Hrows; left).
  apply rows_where_elem in Hr1 as [HP1 Hin1]. destruct (Hty _ Hin1) as [ty1 Htf].
  rewrite Htf in Ht1. simpl in Ht1.
  assert (ty1 ≠ EventTypeUserDeleted) as Hne by (rewrite <- Ht1; apply Hnd; left).
  assert (∀ ty, field_is (row_doc r1) "__eventType" ty = bool_decide (ty1 = ty)) as Hft
    by (intros ty; apply field_is_string; [done|]; by apply text_field_string).
  assert (rows_where (user_event id EventTypeUserDeleted) (c_tables conn) = []) as Hnodel.
  { apply elem_of_nil_inv. intros x [HPx Hinx]%rows_where_elem.
    assert (x ∈ rows_where (lifetime_event id) (c_tables conn)) as Hx.
    { apply rows_where_elem. split; [|done]. unfold lifetime_event. rewrite HPx.
      apply orb_true_r. }
    rewrite Hrows in Hx. apply list_elem_of_singleton in Hx as ->. unfold user_event in HPx.
    rewrite Hft, bool_decide_false, andb_false_r in HPx; done. }
  split_and!; [|done|].
  - unfold lifetime_event in HP1. unfold user_event at 2 in HP1.
    rewrite Hft, (bool_decide_false _ Hne), andb_false_r, orb_false_r in HP1.
    assert (rows_where (user_event id EventTypeUserCreated) (c_tables conn) = [r1]) as ->; [|done].
    rewrite <- Hrows. apply rows_where_ext. intros x Hx. unfold lifetime_event.
    destruct (user_event id EventTypeUserDeleted (row_doc x)) eqn:E; [|by rewrite orb_false_r].
    assert (x ∈ rows_where (user_event id EventTypeUserDeleted) (c_tables conn)) as Hdel
      by by apply rows_where_elem.
    rewrite Hnodel in Hdel. by apply elem_of_nil in Hdel.
  - exists conn', row. split_and!; [done..|].
    rewrite (rows_where_snoc _ _ _ _ Hev), Hnodel, (deleted_doc _ _ _ Hdoc).
    by rewrite bool_decide_true.
Qed.

End Laws.

(** ** Witnesses *)

Section Witnesses.
#[local] Existing Instances example_json example_stored_json example_sql_text example_sqlitex
  example_time.

Definition admin_store : EventStore Registry :=
  mkEventStore (sqlite_saver example_now) sqlite_retriever None true true true {["admin"]}.
Definition admin_ctx : Ctx := mkCtx None None.
Definition admin_hash (p : string) : result string := Ok ("#" +:+ p).
Definition admin_compare (h p : string) : bool := String.eqb h ("#" +:+ p).
Definition admin_world : World Registry := mkWorld {[ "admin" := example_conn ]} [].

Definition create_ada (w : World Registry) : result UserCreated * World Registry :=
  CreateUser admin_hash (Ok "u-1") (Ok "e-1") admin_store admin_ctx "Ada" " ada " "pw"
    [RoleAdmin] "admin" None w.

Definition world_created : World Registry := Eval vm_compute in (create_ada admin_world).2.
Definition conn_created : Conn :=
  Eval vm_compute in default example_conn (backend world_created !! "admin").

(** Creating the user works once. *)
Lemma create_ada_ok :
  create_ada admin_world =
    (Ok (mkUserCreated "Ada" "u-1" "ada" [RoleAdmin] "#pw"), world_created).
Proof. vm_compute. reflexivity. Qed.

Lemma admin_sqlite : sqlite_store admin_store example_now.
Proof. split; reflexivity. Qed.

Lemma admin_text (r : result string) : text_result r.
Proof. intros s _. exact I. Qed.

Lemma admin_start : users_inv "admin" admin_world.
Proof.
  constructor. exists example_conn. split; [reflexivity|]. split; [apply log_inv_empty|].
  intros username. simpl. lia.
Qed.

Definition create_ada_request : UserCreated * SaveEventsV2Request :=
  Eval vm_compute in
    get_ok (mkUserCreated "" "" "" [] "", mkSaveRequest "" [] [])
      (CreateUser_decide admin_hash (Ok "u-1") (Ok "e-1") admin_store admin_ctx "Ada" " ada " "pw"
         [RoleAdmin] "admin" None (backend admin_world)).

Lemma create_ada_write : user_write admin_store "admin" admin_world world_created.
Proof.
  eapply (write_created _ _ _ admin_hash (Ok "u-1") (Ok "e-1") admin_ctx "Ada" " ada " "pw"
    [RoleAdmin] None (backend admin_world) create_ada_request.1 create_ada_request.2
    (SaveEventsV2 admin_store admin_ctx (Some create_ada_request.2) admin_world).1).
  - vm_compute. reflexivity.
  - intros p. apply admin_text.
  - apply admin_text.
  - apply admin_text.
  - exact I.
  - exact I.
  - repeat constructor.
  - vm_compute. reflexivity.
Qed.

Lemma username_unique_witness : users_inv "admin" world_created.
Proof.
  apply (@username_unique example_json example_json_laws example_stored_json example_stored_laws
    example_sql_text example_time example_sqlitex example_sqlitex_laws admin_store example_now
    "admin" admin_world world_created admin_sqlite I admin_start).
  apply rtc_once, create_ada_write.
Defined.

Lemma conn_created_inv : log_inv (c_tables conn_created).
Proof.
  destruct (@user_write_inv example_json example_json_laws example_stored_json
    example_stored_laws example_sql_text example_time example_sqlitex example_sqlitex_laws
    admin_store example_now "admin" admin_world world_created admin_sqlite I admin_start
    create_ada_write) as [(conn & Hb & Hl & _)].
  assert (Some conn = Some conn_created) as [= ->]; [|exact Hl].
  rewrite <- Hb. vm_compute. reflexivity.
Qed.

Definition delete_ada (w : World Registry) : result unit * World Registry :=
  DeleteUser (Ok "e-2") admin_store admin_ctx "u-1" "u-9" "admin" w.

Definition world_deleted : World Registry := Eval vm_compute in (delete_ada world_created).2.
Definition conn_deleted : Conn :=
  Eval vm_compute in default example_conn (backend world_deleted !! "admin").

Definition delete_ada_request : SaveEventsV2Request :=
  Eval vm_compute in
    get_ok (mkSaveRequest "" [] [])
      (DeleteUser_decide (Ok "e-2") admin_store admin_ctx "u-1" "u-9" "admin"
         (backend world_created)).

Lemma delete_user_once_witness :
  ∃ conn' row, backend world_deleted = <["admin" := conn']> (backend world_created)
    ∧ t_events (c_tables conn') = t_events (c_tables conn_created) ++ [row]
    ∧ rows_where (user_event "u-1" EventTypeUserDeleted) (c_tables conn') = [row].
Proof.
  apply (@delete_user_once example_json example_json_laws example_stored_json
    example_stored_laws example_sql_text example_time example_sqlitex example_sqlitex_laws
    (Ok "e-2") admin_store example_now admin_ctx "u-1" "u-9" "admin" (backend world_created)
    conn_created delete_ada_request world_created conn_created
    (mkWriteResult "2:2" (mkPosition 2 2)) world_deleted admin_sqlite I (admin_text _) I).
  - vm_compute. reflexivity.
  - apply conn_created_inv.
  - vm_compute. reflexivity.
  - vm_compute. reflexivity.
  - apply conn_created_inv.
  - intros r Hr. apply list_elem_of_singleton in Hr as ->. vm_compute. by eexists.
  - done.
  - vm_compute. reflexivity.
Defined.

Lemma delete_ada_write : user_write admin_store "admin" world_created world_deleted.
Proof.
  eapply (write_deleted _ _ _ (Ok "e-2") admin_ctx "u-1" "u-9" (backend world_created)
    delete_ada_request
    (SaveEventsV2 admin_store admin_ctx (Some delete_ada_request) world_created).1).
  - vm_compute. reflexivity.
  - apply admin_text.
  - exact I.
  - vm_compute. reflexivity.
Qed.

Lemma conn_deleted_inv : log_inv (c_tables conn_deleted).
Proof.
  pose proof (@user_write_inv example_json example_json_laws example_stored_json
    example_stored_laws example_sql_text example_time example_sqlitex example_sqlitex_laws
    admin_store example_now "admin") as Hstep.
  destruct (Hstep world_created world_deleted admin_sqlite I
    (Hstep _ _ admin_sqlite I admin_start create_ada_write) delete_ada_write)
    as [(conn & Hb & Hl & _)].
  assert (Some conn = Some conn_deleted) as [= ->]; [|exact Hl].
  rewrite <- Hb. vm_compute. reflexivity.
Qed.

(** After the deletion the name cannot be used again. *)
Lemma username_never_reused_witness : is_ok (create_ada world_deleted).1 = false.
Proof.
  apply (@username_never_reused example_json example_json_laws example_stored_json
    example_stored_laws example_sql_text example_time example_sqlitex example_sqlitex_laws
    admin_hash (Ok "u-1") (Ok "e-1") admin_store example_now admin_ctx "Ada" " ada " "pw"
    [RoleAdmin] "admin" None world_deleted conn_deleted admin_sqlite I
    (λ p, admin_text _) (admin_text _) (admin_text _) I I).
  - repeat constructor.
  - vm_compute. reflexivity.
  - apply conn_deleted_inv.
  - vm_compute. discriminate.
Defined.

Definition change_ada (w : World Registry) : result unit * World Registry :=
  ChangePassword admin_compare admin_hash "e-3" admin_store admin_ctx "pw" "pw2" "admin" "u-1" w.

(** The right current password does not help: the save is refused as a conflict. *)
Lemma change_ada_conflict : (change_ada world_created).1 = Err version_conflict.
Proof. vm_compute. reflexivity. Qed.

Lemma first_password_change_refused_witness : is_ok (change_ada world_created).1 = false.
Proof.
  apply (@first_password_change_refused example_json example_json_laws example_stored_json
    example_stored_laws example_sql_text example_time example_sqlitex example_sqlitex_laws
    admin_compare admin_hash "e-3" admin_store example_now admin_ctx "pw" "pw2" "admin" "u-1"
    world_created conn_created admin_sqlite I (λ p, admin_text _) I I).
  - vm_compute. reflexivity.
  - apply conn_created_inv.
  - vm_compute. reflexivity.
Defined.

End Witnesses.
