(* ===== verification/SqliteAdmin.v ===== *)
(** * The admin tables: [SqliteAdminDB] of [sqlite/sqlite_eventstore.go]

The users table with its cache, the checkpoints of the projectors and the counters.
Every operation takes the error that its connection or its statement meets, if any. *)

From stdpp Require Import options.
From S2P Require Import Prelude Status Model Number Json Predicates Consistency EventData.
From S2P Require Import WriteContext SqlPredicates Sql SqliteStore SqliteLog GroupCommit.
From S2P Require Import SqliteRead SqliteIndex EventStore.

Set Default Proof Using "Type*".

(** ** Tables: [sqlite/migration.go] *)

(** A row of [users], without its dates. *)
Record UserRow := mkUserRow {
  ur_name : string; ur_username : string; ur_password_hash : string; ur_roles : string }.
#[export] Instance UserRow_eq_dec : EqDecision UserRow.
Proof. solve_decision. Defined.

(** The metadata database of a boundary; rows by their primary key. *)
Record MetaTables := mkMetaTables {
  mt_users : gmap string UserRow;
  mt_checkpoints : gmap string Position;
  mt_users_count : gmap string Z;
  mt_events_count : gmap string Z }.

Definition empty_meta : MetaTables := mkMetaTables ∅ ∅ ∅ ∅.

(** The event databases, the metadata databases and the cache of users by username. *)
Record SqliteAdminDB := mkAdminDB {
  adm_pools : Registry;
  adm_metadata : gmap string MetaTables;
  adminBoundary : string;
  userCache : gmap string User }.

Definition set_meta (a : SqliteAdminDB) (boundary : string) (m : MetaTables) : SqliteAdminDB :=
  mkAdminDB (adm_pools a) (<[boundary := m]> (adm_metadata a)) (adminBoundary a) (userCache a).
Definition set_cache (a : SqliteAdminDB) (c : gmap string User) : SqliteAdminDB :=
  mkAdminDB (adm_pools a) (adm_metadata a) (adminBoundary a) c.

Definition newSqliteAdminDBWithRegistry (pools : Registry) (metadata : gmap string MetaTables)
    (adminBoundary : string) : SqliteAdminDB :=
  mkAdminDB pools metadata adminBoundary ∅.

(** Without a metadata database the tables are looked for in the event database, which
does not have them; without either the pool is nil. *)
Definition no_tables (a : SqliteAdminDB) (boundary : string) : goerror :=
  match adm_pools a !! boundary with
  | Some _ => PlainError "no such table"
  | None => PlainError "runtime error: invalid memory address or nil pointer dereference"
  end.

(** One statement on the tables of a boundary. *)
Definition meta_statement {A} (a : SqliteAdminDB) (boundary : string) (fault : option goerror)
    (f : MetaTables → result (A * MetaTables)) : result A * SqliteAdminDB :=
  match adm_metadata a !! boundary with
  | None => (Err (no_tables a boundary), a)
  | Some m =>
      match fault with
      | Some e => (Err e, a)
      | None => match f m with
                | Ok (x, m) => (Ok x, set_meta a boundary m)
                | Err e => (Err e, a)
                end
      end
  end.

Definition meta_query {A} (a : SqliteAdminDB) (boundary : string) (fault : option goerror)
    (f : MetaTables → A) : result A :=
  match adm_metadata a !! boundary with
  | None => Err (no_tables a boundary)
  | Some m => match fault with Some e => Err e | None => Ok (f m) end
  end.

(** [strings.CutPrefix]. *)
Fixpoint CutPrefix (s prefix : string) : option string :=
  match prefix, s with
  | EmptyString, s => Some s
  | String c p, String d s => if Ascii.eqb c d then CutPrefix s p else None
  | String _ _, EmptyString => None
  end.

(** The boundary whose metadata database holds the checkpoint of a projector. *)
Definition poolForProjectorName (a : SqliteAdminDB) (projectorName : string) : string :=
  match CutPrefix projectorName "Event_Count_Projection__" with
  | Some boundary =>
      if bool_decide (is_Some (adm_metadata a !! boundary) ∨ is_Some (adm_pools a !! boundary))
      then boundary else adminBoundary a
  | None => adminBoundary a
  end.

(** ** Roles *)

Definition rolesToCSV (roles : list Role) : string := Join roles ",".

Definition csvToRoles (s : string) : list Role :=
  if String.eqb s "" then []
  else filter (λ p, p ≠ "") (TrimSpace <$> Split s ",").

Definition row_of_user (u : User) : UserRow :=
  mkUserRow (User_Name u) (User_Username u) (User_HashedPassword u) (rolesToCSV (User_Roles u)).
Definition user_of_row (id : string) (r : UserRow) : User :=
  mkUser id (ur_name r) (ur_username r) (ur_password_hash r) (csvToRoles (ur_roles r)).

(** ** Users *)

(** The row with a username; the column is UNIQUE. *)
Definition row_by_username (m : MetaTables) (username : string) : option (string * UserRow) :=
  head (filter (λ kv, ur_username kv.2 = username) (map_to_list (mt_users m))).

Definition set_users (m : MetaTables) (us : gmap string UserRow) : MetaTables :=
  mkMetaTables us (mt_checkpoints m) (mt_users_count m) (mt_events_count m).

(** [INSERT ... ON CONFLICT(id) DO UPDATE]: a row of another user with the username
violates the UNIQUE constraint. *)
Definition upsert_user (u : User) (m : MetaTables) : result (unit * MetaTables) :=
  match row_by_username m (User_Username u) with
  | Some (id, _) =>
      if bool_decide (id = User_Id u)
      then Ok (tt, set_users m (<[User_Id u := row_of_user u]> (mt_users m)))
      else Err constraint_failed
  | None => Ok (tt, set_users m (<[User_Id u := row_of_user u]> (mt_users m)))
  end.

Definition UpsertUser (fault : option goerror) (user : User) (a : SqliteAdminDB)
  : result unit * SqliteAdminDB :=
  match meta_statement a (adminBoundary a) fault (upsert_user user) with
  | (Err e, a) => (Err e, a)
  | (Ok _, a) => (Ok tt, set_cache a {[ User_Username user := user ]})
  end.

Definition AdminDB_DeleteUser (fault : option goerror) (id : string) (a : SqliteAdminDB)
  : result unit * SqliteAdminDB :=
  match meta_statement a (adminBoundary a) fault
          (λ m, Ok (tt, set_users m (delete id (mt_users m)))) with
  | (Err e, a) => (Err e, a)
  | (Ok _, a) => (Ok tt, set_cache a ∅)
  end.

(** [GetUserByUsername] takes the cache lock twice: to look, and to store what it read.
[lookup_cached] is the first part, [lookup_row] the query, [lookup_fill] the last part. *)
Definition lookup_cached (username : string) (a : SqliteAdminDB) : option User :=
  userCache a !! username.
Definition lookup_row (fault : option goerror) (username : string) (a : SqliteAdminDB)
  : result User :=
  r ← meta_query a (adminBoundary a) fault (λ m, row_by_username m username);
  match r with
  | Some (id, row) => Ok (user_of_row id row)
  | None => Err (PlainError "user not found")
  end.
Definition lookup_fill (username : string) (u : User) (a : SqliteAdminDB) : SqliteAdminDB :=
  set_cache a (<[username := u]> (userCache a)).

Definition GetUserByUsername (fault : option goerror) (username : string) (a : SqliteAdminDB)
  : result User * SqliteAdminDB :=
  match lookup_cached username a with
  | Some u => (Ok u, a)
  | None =>
      match lookup_row fault username a with
      | Ok u => (Ok u, lookup_fill username u a)
      | Err e => (Err e, a)
      end
  end.

Definition GetUserById (fault : option goerror) (id : string) (a : SqliteAdminDB) : result User :=
  r ← meta_query a (adminBoundary a) fault (λ m, mt_users m !! id);
  match r with
  | Some row => Ok (user_of_row id row)
  | None => Err (PlainError "user not found with id: %s")
  end.

(** [ORDER BY id]. *)
Definition ListAdminUsers (fault : option goerror) (a : SqliteAdminDB) : result (list User) :=
  meta_query a (adminBoundary a) fault
    (λ m, (λ kv, user_of_row kv.1 kv.2) <$> sorted_entries (mt_users m)).

(** ** Checkpoints and counters *)

Definition GetProjectorLastPosition (fault : option goerror) (name : string) (a : SqliteAdminDB)
  : result Position :=
  meta_query a (poolForProjectorName a name) fault
    (λ m, default NotExistsPosition (mt_checkpoints m !! name)).

Definition UpdateProjectorPosition (fault : option goerror) (name : string) (position : Position)
    (a : SqliteAdminDB) : result unit * SqliteAdminDB :=
  meta_statement a (poolForProjectorName a name) fault
    (λ m, Ok (tt, mkMetaTables (mt_users m) (<[name := position]> (mt_checkpoints m))
                    (mt_users_count m) (mt_events_count m))).

(** [uint32(z)]. *)
Definition wrap32 (z : Z) : Z := z mod 2 ^ 32.

Definition userCountID : string := "0195c053-57e7-7a6d-8e17-a2a695f67d1f".

(** [SELECT user_count FROM users_count LIMIT 1]; 0 without a row. *)
Definition GetUsersCount (fault : option goerror) (a : SqliteAdminDB) : result Z :=
  meta_query a (adminBoundary a) fault
    (λ m, from_option (λ kv, wrap32 kv.2) 0%Z (head (map_to_list (mt_users_count m)))).

Definition SaveUsersCount (fault : option goerror) (count : Z) (a : SqliteAdminDB)
  : result unit * SqliteAdminDB :=
  meta_statement a (adminBoundary a) fault
    (λ m, Ok (tt, mkMetaTables (mt_users m) (mt_checkpoints m)
                    (<[userCountID := count]> (mt_users_count m)) (mt_events_count m))).

(** [cacheFault] is met by the read of the saved count, after which the events are
counted; [fault] by that. *)
Definition GetEventsCount (take cacheFault fault : option goerror) (boundary : string)
    (a : SqliteAdminDB) : result Z :=
  match adm_pools a !! boundary with
  | None => Err (PlainError "unknown boundary: %s")
  | Some conn =>
      match take with
      | Some e => Err e
      | None =>
          match meta_query a boundary cacheFault (λ m, mt_events_count m !! boundary) with
          | Ok (Some count) => Ok count
          | _ => match fault with
                 | Some e => Err e
                 | None => Ok (Z.of_nat (length (t_events (c_tables conn))))
                 end
          end
      end
  end.

Definition SaveEventCount (fault : option goerror) (count : Z) (boundary : string)
    (a : SqliteAdminDB) : result unit * SqliteAdminDB :=
  match adm_pools a !! boundary with
  | None => (Err (PlainError "unknown boundary: %s"), a)
  | Some _ =>
      meta_statement a boundary fault
        (λ m, Ok (tt, mkMetaTables (mt_users m) (mt_checkpoints m) (mt_users_count m)
                        (<[boundary := count]> (mt_events_count m))))
  end.

(** ** Roles are read back *)

(** A role that a comma-separated list can hold. *)
Definition plain_role (r : Role) : Prop :=
  r ≠ "" ∧ TrimSpace r = r ∧ string_forallb (λ c, negb (Ascii.eqb c ",")) r = true.

Definition no_comma (r : string) : Prop :=
  string_forallb (λ c, negb (Ascii.eqb c ",")) r = true.

Lemma Split_Join (l : list string) :
  l ≠ [] → Forall no_comma l → Split (Join l ",") "," = l.
Proof.
  intros Hne H. induction H as [|r l Hr Hl IH]; [done|]. destruct l as [|r' l].
  - simpl. by apply Split_no_sep.
  - change (Join (r :: r' :: l) ",") with (r +:+ String "," (Join (r' :: l) ",")).
    rewrite Split_app by done. f_equal. by apply IH.
Qed.

Lemma roles_roundtrip (roles : list Role) :
  Forall plain_role roles → csvToRoles (rolesToCSV roles) = roles.
Proof.
  intros H. unfold csvToRoles, rolesToCSV. destruct roles as [|r l]; [done|].
  destruct (String.eqb_spec (Join (r :: l) ",") "") as [He|_].
  - exfalso. apply Forall_cons in H as [(Hne & _) _]. apply Hne. destruct r as [|c r]; [done|].
    destruct l as [|r' l]; [done|].
    change (Join (String c r :: r' :: l) ",") with (String c r +:+ String "," (Join (r' :: l) ","))
      in He. by rewrite string_app_cons in He.
  - rewrite Split_Join; [|done|by eapply Forall_impl; [exact H|]; intros ? (_ & _ & ?)].
    assert (TrimSpace <$> (r :: l) = r :: l) as ->.
    { rewrite <-(list_fmap_id (r :: l)) at 2. apply list_fmap_ext. intros i x Hx.
      rewrite Forall_lookup in H. by destruct (H i x Hx) as (_ & ? & _). }
    apply list_filter_all. intros x Hx. rewrite Forall_forall in H. by destruct (H x Hx).
Qed.

(** ** The cache of users *)

(** What the UNIQUE column guarantees. *)
Definition unique_usernames (us : gmap string UserRow) : Prop :=
  ∀ id1 id2 r1 r2, us !! id1 = Some r1 → us !! id2 = Some r2 →
    ur_username r1 = ur_username r2 → id1 = id2.

Lemma row_by_username_spec m username id row :
  unique_usernames (mt_users m) →
  row_by_username m username = Some (id, row) ↔
    mt_users m !! id = Some row ∧ ur_username row = username.
Proof.
  intros Hu. unfold row_by_username. set (l := filter _ _).
  assert (∀ kv, kv ∈ l ↔ mt_users m !! kv.1 = Some kv.2 ∧ ur_username kv.2 = username) as Hl.
  { intros [k v]. unfold l. rewrite list_elem_of_filter, elem_of_map_to_list. naive_solver. }
  split.
  - intros Hh. apply (Hl (id, row)). destruct l; [done|]. injection Hh as ->. left.
  - intros [Hr He]. assert ((id, row) ∈ l) as Hin by by apply Hl.
    destruct l as [|[k v] l']; [by apply elem_of_nil in Hin|]. simpl.
    destruct (proj1 (Hl (k, v)) ltac:(left)) as [Hk Hv]. simpl in *.
    assert (k = id) as -> by (eapply Hu; eauto; congruence). congruence.
Qed.

Lemma row_by_username_None m username :
  row_by_username m username = None ↔
    ∀ id row, mt_users m !! id = Some row → ur_username row ≠ username.
Proof.
  unfold row_by_username. set (l := filter _ _).
  assert (∀ kv, kv ∈ l ↔ mt_users m !! kv.1 = Some kv.2 ∧ ur_username kv.2 = username) as Hl.
  { intros [k v]. unfold l. rewrite list_elem_of_filter, elem_of_map_to_list. naive_solver. }
  destruct l as [|[k v] l'] eqn:E; simpl.
  - split; [|done]. intros _ id row Hr He. assert ((id, row) ∈ @nil (string * UserRow)) as Hin
      by by apply Hl. by apply elem_of_nil in Hin.
  - split; [done|]. intros Hn. destruct (proj1 (Hl (k, v)) ltac:(left)) as [Hk Hv].
    by destruct (Hn k v).
Qed.

Lemma upsert_user_ok u m m' :
  unique_usernames (mt_users m) → upsert_user u m = Ok (tt, m') →
  m' = set_users m (<[User_Id u := row_of_user u]> (mt_users m))
  ∧ unique_usernames (mt_users m').
Proof.
  intros Hu H. unfold upsert_user in H.
  assert (m' = set_users m (<[User_Id u := row_of_user u]> (mt_users m))
    ∧ ∀ id row, mt_users m !! id = Some row → ur_username row = User_Username u → id = User_Id u)
    as [-> Hone].
  { destruct (row_by_username m (User_Username u)) as [[id row]|] eqn:E.
    - case_bool_decide as Hid; [|done]. injection H as <-. split; [done|]. subst.
      apply row_by_username_spec in E as [Hr He]; [|done].
      intros id' row' Hr' He'. eapply Hu; [done..|congruence].
    - injection H as <-. split; [done|]. intros id row Hr He.
      by destruct (proj1 (row_by_username_None m (User_Username u)) E id row Hr). }
  split; [done|]. intros id1 id2 r1 r2. simpl.
  rewrite !lookup_insert_Some. intros [[<- <-]|[Hne1 H1]] [[<- <-]|[Hne2 H2]] He; try done.
  - simpl in He. symmetry. by eapply Hone.
  - simpl in He. by eapply Hone.
  - by eapply Hu.
Qed.

(** The cache agrees with the table. *)
Record cache_coherent (a : SqliteAdminDB) (m : MetaTables) : Prop := {
  cc_tables : adm_metadata a !! adminBoundary a = Some m;
  cc_unique : unique_usernames (mt_users m);
  cc_cached : ∀ username u, userCache a !! username = Some u →
    ∃ row, mt_users m !! User_Id u = Some row ∧ user_of_row (User_Id u) row = u
      ∧ User_Username u = username }.

(** The operations on users; each meets the failure given. *)
Inductive user_op :=
  | OpUpsert (fault : option goerror) (u : User)
  | OpDelete (fault : option goerror) (id : string)
  | OpLookup (fault : option goerror) (username : string).

Definition run_user_op (a : SqliteAdminDB) (o : user_op) : SqliteAdminDB :=
  match o with
  | OpUpsert fault u => (UpsertUser fault u a).2
  | OpDelete fault id => (AdminDB_DeleteUser fault id a).2
  | OpLookup fault username => (GetUserByUsername fault username a).2
  end.

Definition op_plain (o : user_op) : Prop :=
  match o with OpUpsert _ u => Forall plain_role (User_Roles u) | _ => True end.

Lemma user_row_roundtrip u :
  Forall plain_role (User_Roles u) → user_of_row (User_Id u) (row_of_user u) = u.
Proof.
  intros H. unfold user_of_row. simpl. rewrite roles_roundtrip by done. by destruct u.
Qed.

Lemma UpsertUser_coherent fault u a m :
  cache_coherent a m → Forall plain_role (User_Roles u) →
  ∃ m', cache_coherent (UpsertUser fault u a).2 m'.
Proof.
  intros [Ht Hu Hc] Hr. unfold UpsertUser, meta_statement. rewrite Ht.
  destruct fault as [e|]; [by exists m|].
  destruct (upsert_user u m) as [[[] m']|e] eqn:E; [|by exists m].
  apply upsert_user_ok in E as [-> Hu']; [|done]. eexists. constructor; simpl.
  - apply lookup_insert_eq.
  - done.
  - intros username u' [<- <-]%lookup_singleton_Some. exists (row_of_user u).
    split_and!; [apply lookup_insert_eq|by apply user_row_roundtrip|done].
Qed.

Lemma DeleteUser_coherent fault id a m :
  cache_coherent a m → ∃ m', cache_coherent (AdminDB_DeleteUser fault id a).2 m'.
Proof.
  intros [Ht Hu Hc]. unfold AdminDB_DeleteUser, meta_statement. rewrite Ht.
  destruct fault as [e|]; [by exists m|]. eexists. constructor; simpl.
  - apply lookup_insert_eq.
  - intros id1 id2 r1 r2. simpl. rewrite !lookup_delete_Some. intros [_ H1] [_ H2].
    by eapply Hu.
  - intros username u Hl. by rewrite lookup_empty in Hl.
Qed.

Lemma GetUserByUsername_coherent fault username a m :
  cache_coherent a m → cache_coherent (GetUserByUsername fault username a).2 m.
Proof.
  intros [Ht Hu Hc]. unfold GetUserByUsername, lookup_cached.
  destruct (userCache a !! username) eqn:E; [done|].
  destruct (lookup_row fault username a) as [u|e] eqn:El; [|done].
  constructor; simpl; [done|done|]. intros name u'.
  rewrite lookup_insert_Some. intros [[<- <-]|[_ Hl]]; [|by apply Hc].
  unfold lookup_row, meta_query in El. rewrite Ht in El. destruct fault; [done|].
  cbn [mbind result_bind] in El.
  destruct (row_by_username m username) as [[id row]|] eqn:Er; [|done]. injection El as <-.
  apply row_by_username_spec in Er as [Hr He]; [|done]. by exists row.
Qed.

Lemma user_ops_coherent ops a m :
  cache_coherent a m → Forall op_plain ops → ∃ m', cache_coherent (foldl run_user_op a ops) m'.
Proof.
  intros Hc Hp. revert a m Hc. induction Hp as [|o ops Ho _ IH]; intros a m Hc; [by exists m|].
  simpl. destruct o as [fault u|fault id|fault username]; simpl in *.
  - destruct (UpsertUser_coherent fault u a m Hc Ho) as [m' Hm']. by eapply IH.
  - destruct (DeleteUser_coherent fault id a m Hc) as [m' Hm']. by eapply IH.
  - eapply IH, GetUserByUsername_coherent, Hc.
Qed.

(** The cache of users never changes an answer. After any sequence of upserts,
deletions and lookups, whatever of them failed, looking a username up answers what the
users table holds for it at that moment. *)
Theorem user_lookup_coherent ops a m username :
  cache_coherent a m → Forall op_plain ops →
  let a' := foldl run_user_op a ops in
  (GetUserByUsername None username a').1 = lookup_row None username a'.
Proof.
  intros Hc Hp a'. destruct (user_ops_coherent ops a m Hc Hp) as (m' & [Ht Hu Hca]).
  fold a' in Ht, Hca. unfold GetUserByUsername, lookup_cached.
  destruct (userCache a' !! username) as [u|] eqn:E.
  - destruct (Hca _ _ E) as (row & Hr & Heq & Hn). unfold lookup_row, meta_query. rewrite Ht.
    cbn [mbind result_bind].
    assert (row_by_username m' username = Some (User_Id u, row)) as ->.
    { apply row_by_username_spec; [done|]. split; [done|]. rewrite <- Hn, <- Heq. done. }
    simpl. by rewrite Heq.
  - by destruct (lookup_row None username a').
Qed.

(** A lookup that overlaps an update brings the old record back: it reads the row, the
update writes the row and resets the cache, and the lookup stores what it had read. From
then on lookups answer with the old record, not with the one in the table. *)
Lemma overlapping_lookup_stale a m a1 username (u u' : User) :
  cache_coherent a m → Forall plain_role (User_Roles u') →
  lookup_row None username a = Ok u → User_Username u' = username →
  UpsertUser None u' a = (Ok tt, a1) →
  let a2 := lookup_fill username u a1 in
  (GetUserByUsername None username a2).1 = Ok u ∧ lookup_row None username a2 = Ok u'.
Proof.
  intros Hc Hp _ Hn Hup a2. split.
  - unfold GetUserByUsername, lookup_cached, a2, lookup_fill. simpl. by rewrite lookup_insert_eq.
  - destruct Hc as [Ht Hu _]. unfold UpsertUser, meta_statement in Hup. rewrite Ht in Hup.
    destruct (upsert_user u' m) as [[[] m']|e] eqn:E; [|done]. injection Hup as <-.
    apply upsert_user_ok in E as [-> Hu']; [|done].
    unfold lookup_row, meta_query, a2. simpl. rewrite lookup_insert_eq. cbn [mbind result_bind].
    assert (row_by_username (set_users m (<[User_Id u' := row_of_user u']> (mt_users m))) username
      = Some (User_Id u', row_of_user u')) as ->.
    { apply row_by_username_spec; [done|]. split; [apply lookup_insert_eq|done]. }
    by rewrite user_row_roundtrip.
Qed.

Section Witnesses.

Definition example_admin : SqliteAdminDB :=
  newSqliteAdminDBWithRegistry ∅ {[ "admin" := empty_meta ]} "admin".
Definition example_ada (hash : string) : User := mkUser "u-1" "Ada" "ada" hash [RoleAdmin].
Definition example_user_ops : list user_op :=
  [OpUpsert None (example_ada "h1"); OpLookup None "ada"; OpUpsert None (example_ada "h2");
   OpDelete (Some (PlainError "busy")) "u-1"].

Lemma example_admin_coherent : cache_coherent example_admin empty_meta.
Proof.
  constructor.
  - reflexivity.
  - intros id1 id2 r1 r2 H. simpl in H. by rewrite lookup_empty in H.
  - intros username u H. simpl in H. by rewrite lookup_empty in H.
Qed.

Lemma user_lookup_coherent_witness :
  (GetUserByUsername None "ada" (foldl run_user_op example_admin example_user_ops)).1
  = Ok (example_ada "h2").
Proof.
  rewrite (user_lookup_coherent example_user_ops example_admin empty_meta "ada"
    example_admin_coherent).
  - vm_compute. reflexivity.
  - repeat constructor; discriminate.
Defined.

End Witnesses.
