(* ===== verification/Projections.v ===== *)
(** * Projections of the admin events: [admin/slices/users_projection],
[admin/slices/dashboard/user_count], [admin/slices/dashboard/event_count]

The handlers that turn events into rows of the admin tables, and the loop that feeds
them: an event is handled until it succeeds, then the checkpoint is saved; when that
fails the event is handled again; a restart continues after the saved checkpoint. *)

From stdpp Require Import options.
From S2P Require Import Prelude Status Model Number Json Predicates Consistency EventData.
From S2P Require Import WriteContext SqlPredicates Sql SqliteStore SqliteLog GroupCommit.
From S2P Require Import SqliteRead SqliteIndex EventStore Api Auth Users SqliteAdmin.

Set Default Proof Using "Type*".

(** ** The handlers *)

Section Handlers.
Context `{J : GoJson}.

Definition user_projector_name : string := "user-projector".

(** [UserProjector.handleEvent] over the admin database; [f1] and [f2] are met by its
first and second access. *)
Definition UserProjector_handleEvent (f1 f2 : option goerror) (event : ReadEvent)
    (a : SqliteAdminDB) : result unit * SqliteAdminDB :=
  if decide (RE_EventType event = EventTypeUserCreated)
  then match decode_user_created (RE_Data event) with
       | Err e => (Err e, a)
       | Ok u => UpsertUser f1 (mkUser (UC_UserId u) (UC_Name u) (UC_Username u)
                                  (UC_PasswordHash u) (UC_Roles u)) a
       end
  else if decide (RE_EventType event = EventTypeUserDeleted)
  then match decode_user_deleted (RE_Data event) with
       | Err e => (Err e, a)
       | Ok u => AdminDB_DeleteUser f1 (UD_UserId u) a
       end
  else if decide (RE_EventType event = EventTypeUserPasswordChanged)
  then match decode_password_changed (RE_Data event) with
       | Err e => (Err e, a)
       | Ok (id, hash) =>
           match GetUserById f1 id a with
           | Err e => (Err e, a)
           | Ok user => UpsertUser f2 (mkUser (User_Id user) (User_Name user) (User_Username user)
                                         hash (User_Roles user)) a
           end
       end
  else (Ok tt, a).

(** [UserCountEventHandler.Project]: the error of [saveUserCount] is not looked at. [id]
is met by [uuid.NewV7] after the save; the publication does not change the tables. *)
Definition UserCount_Project (get save id : option goerror) (event : ReadEvent)
    (a : SqliteAdminDB) : result unit * SqliteAdminDB :=
  let update (f : Z → Z) :=
    match GetUsersCount get a with
    | Err e => (Err e, a)
    | Ok count => (match id with Some e => Err e | None => Ok tt end,
                   (SaveUsersCount save (wrap32 (f count)) a).2)
    end in
  if decide (RE_EventType event = EventTypeUserCreated) then update (λ c, c + 1)%Z
  else if decide (RE_EventType event = EventTypeUserDeleted) then update (λ c, c - 1)%Z
  else (Ok tt, a).

(** [EventCountEventHandler.Project]; the error of [saveEventCount] is not looked at. *)
Definition EventCount_Project (take cacheFault fault save id : option goerror) (boundary : string)
    (a : SqliteAdminDB) : result unit * SqliteAdminDB :=
  match GetEventsCount take cacheFault fault boundary a with
  | Err e => (Err e, a)
  | Ok count => (match id with Some e => Err e | None => Ok tt end,
                 (SaveEventCount save (wrap64 (count + 1)) boundary a).2)
  end.

(** ** The loop of [UserProjector.Start] *)

(** Not running; waiting for the event after a position; handled an event but not saved
its position. *)
Inductive projector_pc :=
  | PDown
  | PReady (after : Position)
  | PHandled (after : Position) (event : ReadEvent).

Record projector := mkProjector { pr_db : SqliteAdminDB; pr_pc : projector_pc }.

(** What the subscription delivers next. *)
Definition next_event (log : list ReadEvent) (after : Position) : option ReadEvent :=
  head (filter (λ e, pos_lt after (RE_Position e)) log).

(** The roles of an event can be stored in the users table. *)
Definition plain_event (event : ReadEvent) : Prop :=
  ∀ u, RE_EventType event = EventTypeUserCreated →
    decode_user_created (RE_Data event) = Ok u → Forall plain_role (UC_Roles u).

(** A log in the order of its positions. *)
Record good_log (log : list ReadEvent) : Prop := {
  gl_sorted : StronglySorted (λ e e', pos_lt (RE_Position e) (RE_Position e')) log;
  gl_exists : Forall (λ e, pos_lt NotExistsPosition (RE_Position e)) log;
  gl_plain : Forall plain_event log }.

Inductive projector_step : list ReadEvent * projector → list ReadEvent * projector → Prop :=
  | step_start log db fault after :
      GetProjectorLastPosition fault user_projector_name db = Ok after →
      projector_step (log, mkProjector db PDown) (log, mkProjector db (PReady after))
  | step_handle log db f1 f2 after event r db' :
      next_event log after = Some event →
      UserProjector_handleEvent f1 f2 event db = (r, db') →
      projector_step (log, mkProjector db (PReady after))
        (log, mkProjector db' (match r with Ok _ => PHandled after event
                                          | Err _ => PReady after end))
  | step_checkpoint log db fault after event r db' :
      UpdateProjectorPosition fault user_projector_name (RE_Position event) db = (r, db') →
      projector_step (log, mkProjector db (PHandled after event))
        (log, mkProjector db' (PReady (match r with Ok _ => RE_Position event
                                                 | Err _ => after end)))
  | step_stop log db pc :
      projector_step (log, mkProjector db pc) (log, mkProjector db PDown)
  | step_crash log db pc :
      projector_step (log, mkProjector db pc) (log, mkProjector (set_cache db ∅) PDown)
  | step_lookup log db pc fault username :
      projector_step (log, mkProjector db pc)
        (log, mkProjector (GetUserByUsername fault username db).2 pc)
  | step_grow log events s :
      good_log (log ++ events) → projector_step (log, s) (log ++ events, s).

(** ** The reference: the users of a log *)

Definition upsert_row (id : string) (row : UserRow) (us : gmap string UserRow)
  : option (gmap string UserRow) :=
  if bool_decide (map_Forall (λ id' r, ur_username r = ur_username row → id' = id) us)
  then Some (<[id := row]> us) else None.

(** [None]: the event cannot be applied. *)
Definition user_row_event (us : gmap string UserRow) (event : ReadEvent)
  : option (gmap string UserRow) :=
  if decide (RE_EventType event = EventTypeUserCreated)
  then u ← ok_value (decode_user_created (RE_Data event));
       upsert_row (UC_UserId u) (mkUserRow (UC_Name u) (UC_Username u) (UC_PasswordHash u)
                                   (rolesToCSV (UC_Roles u))) us
  else if decide (RE_EventType event = EventTypeUserDeleted)
  then u ← ok_value (decode_user_deleted (RE_Data event)); Some (delete (UD_UserId u) us)
  else if decide (RE_EventType event = EventTypeUserPasswordChanged)
  then '(id, hash) ← ok_value (decode_password_changed (RE_Data event));
       row ← us !! id;
       upsert_row id (mkUserRow (ur_name row) (ur_username row) hash (ur_roles row)) us
  else Some us.

Definition users_of_log (log : list ReadEvent) : option (gmap string UserRow) :=
  foldl (λ ous e, us ← ous; user_row_event us e) (Some ∅) log.

End Handlers.

Section Facts.
Context `{J : GoJson}.

(** ** The statements compute the reference *)

Lemma upsert_user_row u m :
  unique_usernames (mt_users m) →
  upsert_user u m = match upsert_row (User_Id u) (row_of_user u) (mt_users m) with
                    | Some us => Ok (tt, set_users m us)
                    | None => Err constraint_failed
                    end.
Proof.
  intros Hu. unfold upsert_user, upsert_row.
  destruct (row_by_username m (User_Username u)) as [[id row]|] eqn:E.
  - apply row_by_username_spec in E as [Hr He]; [|done]. case_bool_decide as Hid.
    + rewrite bool_decide_true; [done|]. intros id' r' Hr' He'. simpl in He'. subst id.
      by eapply Hu; [..|rewrite He'].
    + rewrite bool_decide_false; [done|]. intros Hall. by apply Hid, (Hall id row Hr).
  - rewrite row_by_username_None in E. rewrite bool_decide_true; [done|].
    intros id' r' Hr' He'. by destruct (E id' r' Hr').
Qed.

Lemma upsert_row_unique id row us us' :
  unique_usernames us → upsert_row id row us = Some us' → unique_usernames us'.
Proof.
  unfold upsert_row. intros Hu H. case_bool_decide as Hall; [|done]. injection H as <-.
  intros id1 id2 r1 r2. rewrite !lookup_insert_Some.
  intros [[<- <-]|[_ H1]] [[<- <-]|[_ H2]] He; [done| | |by eapply Hu].
  - symmetry. by eapply (Hall id2 r2).
  - by eapply (Hall id1 r1).
Qed.

Lemma upsert_row_again id row us us' :
  upsert_row id row us = Some us' → us' !! id = Some row ∧ upsert_row id row us' = Some us'.
Proof.
  unfold upsert_row. intros H. case_bool_decide as Hall; [|done]. injection H as <-.
  split; [apply lookup_insert_eq|]. rewrite bool_decide_true.
  - by rewrite insert_insert_eq.
  - intros id' r'. rewrite lookup_insert_Some. intros [[<- <-]|[_ Hr]]; [done|]. by apply Hall.
Qed.

(** Applying an event again changes nothing. *)
Lemma user_row_event_again us e us' :
  user_row_event us e = Some us' → user_row_event us' e = Some us'.
Proof.
  unfold user_row_event. destruct (decide _) as [_|_].
  { destruct (ok_value _) as [u|]; [|done]. simpl. by intros [_ H]%upsert_row_again. }
  destruct (decide _) as [_|_].
  { destruct (ok_value _) as [u|]; [|done]. simpl. intros [= <-]. by rewrite delete_delete_eq. }
  destruct (decide _) as [_|_]; [|by intros [= <-]].
  destruct (ok_value _) as [[id hash]|]; [|done]. simpl.
  destruct (us !! id) as [row|]; [|done]. simpl. by intros [-> H]%upsert_row_again.
Qed.

(** The roles in the table can be read back. *)
Definition plain_rows (us : gmap string UserRow) : Prop :=
  map_Forall (λ _ r, rolesToCSV (csvToRoles (ur_roles r)) = ur_roles r) us.

Record good_rows (us : gmap string UserRow) : Prop := {
  gr_unique : unique_usernames us;
  gr_plain : plain_rows us }.

Lemma upsert_row_good id row us us' :
  good_rows us → rolesToCSV (csvToRoles (ur_roles row)) = ur_roles row →
  upsert_row id row us = Some us' → good_rows us'.
Proof.
  intros [Hu Hp] Hr H. split; [by eapply upsert_row_unique|]. unfold upsert_row in H.
  case_bool_decide; [|done]. injection H as <-. by apply map_Forall_insert_2.
Qed.

Lemma user_row_event_good us e us' :
  good_rows us → plain_event e → user_row_event us e = Some us' → good_rows us'.
Proof.
  intros Hg Hpl. unfold user_row_event. destruct (decide _) as [Ht|_].
  { destruct (decode_user_created _) as [u|] eqn:Hd; [|done]. simpl.
    apply upsert_row_good; [done|]. simpl. by rewrite (roles_roundtrip _ (Hpl u Ht Hd)). }
  destruct (decide _) as [_|_].
  { destruct (decode_user_deleted _) as [u|]; [|done]. simpl. intros [= <-].
    destruct Hg as [Hu Hp]. split; [|by apply map_Forall_delete].
    intros id1 id2 r1 r2 [_ H1]%lookup_delete_Some [_ H2]%lookup_delete_Some. by eapply Hu. }
  destruct (decide _) as [_|_]; [|by intros [= <-]].
  destruct (decode_password_changed _) as [[id hash]|]; [|done]. simpl.
  destruct (us !! id) as [row|] eqn:Hr; [|done]. simpl. apply upsert_row_good; [done|].
  simpl. by apply (gr_plain _ Hg id).
Qed.

(** The admin tables of a database. *)
Definition admin_tables (a : SqliteAdminDB) : option MetaTables :=
  adm_metadata a !! adminBoundary a.

(** An upsert either fails and changes nothing, or does what the reference does. *)
Lemma UpsertUser_rows fault u a m :
  admin_tables a = Some m → unique_usernames (mt_users m) →
  match UpsertUser fault u a with
  | (Ok _, a') => ∃ us, upsert_row (User_Id u) (row_of_user u) (mt_users m) = Some us
                    ∧ admin_tables a' = Some (set_users m us)
  | (Err _, a') => a' = a
                    ∧ (fault = None → upsert_row (User_Id u) (row_of_user u) (mt_users m) = None)
  end.
Proof.
  intros Ht Hu. unfold UpsertUser, meta_statement. unfold admin_tables in Ht. rewrite Ht.
  destruct fault as [e|]; [by split|]. rewrite upsert_user_row by done.
  destruct (upsert_row _ _ _) as [us|]; [|by split]. exists us. split; [done|].
  apply lookup_insert_eq.
Qed.

Lemma DeleteUser_rows fault id a m :
  admin_tables a = Some m →
  match AdminDB_DeleteUser fault id a with
  | (Ok _, a') => admin_tables a' = Some (set_users m (delete id (mt_users m)))
  | (Err _, a') => a' = a ∧ fault ≠ None
  end.
Proof.
  intros Ht. unfold AdminDB_DeleteUser, meta_statement. unfold admin_tables in Ht. rewrite Ht.
  destruct fault as [e|]; [by split|]. apply lookup_insert_eq.
Qed.

(** One handling of an event: it fails and changes nothing, or it applies the event; and
it fails without a failure of the database only if the event cannot be applied. *)
Lemma handleEvent_rows f1 f2 event a m :
  admin_tables a = Some m → good_rows (mt_users m) →
  match UserProjector_handleEvent f1 f2 event a with
  | (Ok _, a') => ∃ us, user_row_event (mt_users m) event = Some us
                    ∧ admin_tables a' = Some (set_users m us)
  | (Err _, a') => a' = a
                    ∧ (f1 = None → f2 = None → user_row_event (mt_users m) event = None)
  end.
Proof.
  intros Ht [Hu Hp]. unfold UserProjector_handleEvent, user_row_event.
  destruct (decide _) as [_|_].
  { destruct (decode_user_created _) as [u|]; [|by split]. simpl.
    pose proof (UpsertUser_rows f1 (mkUser (UC_UserId u) (UC_Name u) (UC_Username u)
      (UC_PasswordHash u) (UC_Roles u)) a m Ht Hu) as H.
    destruct (UpsertUser f1 _ a) as [[|] a']; [exact H|]. destruct H as [-> H].
    split; [done|]. intros Hf _. by apply H. }
  destruct (decide _) as [_|_].
  { destruct (decode_user_deleted _) as [u|]; [|by split]. simpl.
    pose proof (DeleteUser_rows f1 (UD_UserId u) a m Ht) as H.
    destruct (AdminDB_DeleteUser f1 _ a) as [[|] a']; [by eexists|].
    destruct H as [-> H]. split; [done|]. by intros ->. }
  destruct (decide _) as [_|_];
    [|exists (mt_users m); split; [done|]; rewrite Ht; by destruct m].
  destruct (decode_password_changed _) as [[id hash]|]; [|by split]. simpl.
  unfold GetUserById, meta_query. unfold admin_tables in Ht. rewrite Ht.
  destruct f1 as [e|]; [by split|]. cbn [mbind result_bind].
  destruct (mt_users m !! id) as [row|] eqn:Hr; [|by split]. simpl.
  pose proof (UpsertUser_rows f2 (mkUser id (ur_name row) (ur_username row) hash
    (csvToRoles (ur_roles row))) a m Ht Hu) as H.
  unfold row_of_user in H. simpl in H. rewrite (Hp id row Hr) in H.
  destruct (UpsertUser f2 _ a) as [[|] a']; [exact H|]. destruct H as [-> H].
  split; [done|]. intros _ Hf. by apply H.
Qed.

(** ** Positions in the log *)

(** The position of the last of the first [k] events. *)
Definition position_at (log : list ReadEvent) (k : nat) : Position :=
  match k with
  | 0 => NotExistsPosition
  | S k => from_option RE_Position NotExistsPosition (log !! k)
  end.

Lemma StronglySorted_lt {A} (R : relation A) (l : list A) i j x y :
  StronglySorted R l → i < j → l !! i = Some x → l !! j = Some y → R x y.
Proof.
  intros Hs. revert i j. induction Hs as [|z l Hs IH Hf]; intros i j Hij Hi Hj; [done|].
  destruct j as [|j]; [lia|]. destruct i as [|i].
  - injection Hi as <-. rewrite Forall_lookup in Hf. by eapply Hf.
  - by apply (IH i j); [lia|..].
Qed.

Lemma next_event_at log k :
  good_log log → k ≤ length log → next_event log (position_at log k) = log !! k.
Proof.
  intros [Hs Hx _] Hk. unfold next_event.
  assert (∀ i e, log !! i = Some e → pos_lt (position_at log k) (RE_Position e) ↔ k ≤ i) as Hpos.
  { intros i e Hi. destruct k as [|k]; simpl.
    - rewrite Forall_lookup in Hx. specialize (Hx i e Hi). split; [lia|done].
    - destruct (log !! k) as [e0|] eqn:Hk0; [|apply lookup_ge_None in Hk0; lia]. simpl.
      destruct (decide (k < i)) as [Hlt|Hge].
      + split; [lia|]. intros _. by apply (StronglySorted_lt _ log k i e0 e Hs).
      + split; [|lia]. intros Hlt. exfalso. destruct (decide (i = k)) as [->|Hne].
        * replace e0 with e in Hlt by congruence. by apply pos_lt_irrefl in Hlt.
        * assert (pos_lt (RE_Position e) (RE_Position e0)) as Hlt'
            by (apply (StronglySorted_lt _ log i k e e0 Hs); [lia|done..]).
          apply (pos_lt_irrefl (RE_Position e)). by transitivity (RE_Position e0). }
  rewrite <- (take_drop k log) at 1. rewrite filter_app.
  assert (filter (λ e, pos_lt (position_at log k) (RE_Position e)) (take k log) = []) as ->.
  { apply elem_of_nil_inv. intros e [Hlt [i Hi]%list_elem_of_lookup]%list_elem_of_filter.
    apply lookup_take_Some in Hi as [Hi Hik]. apply (Hpos i e Hi) in Hlt. lia. }
  rewrite list_filter_all.
  - simpl. rewrite head_lookup, lookup_drop. by rewrite Nat.add_0_r.
  - intros e [i Hi]%list_elem_of_lookup. rewrite lookup_drop in Hi. apply (Hpos _ _ Hi). lia.
Qed.

(** ** The projector follows the log *)

Lemma users_of_log_S log k e :
  log !! k = Some e →
  users_of_log (take (S k) log) = us ← users_of_log (take k log); user_row_event us e.
Proof.
  intros He. rewrite (take_S_r _ _ _ He). unfold users_of_log. by rewrite foldl_app.
Qed.

(** The first [k] events are checkpointed, and the users table is that of the first [k]
events or of the first [k + 1]. *)
Record projected (log : list ReadEvent) (k : nat) (m : MetaTables) : Prop := {
  pj_rows : good_rows (mt_users m);
  pj_length : k ≤ length log;
  pj_checkpoint :
    default NotExistsPosition (mt_checkpoints m !! user_projector_name) = position_at log k;
  pj_users : users_of_log (take k log) = Some (mt_users m)
    ∨ (k < length log ∧ users_of_log (take (S k) log) = Some (mt_users m)) }.

Definition pc_at (log : list ReadEvent) (k : nat) (m : MetaTables) (pc : projector_pc) : Prop :=
  match pc with
  | PDown => True
  | PReady after => after = position_at log k
  | PHandled after event =>
      after = position_at log k ∧ log !! k = Some event
      ∧ users_of_log (take (S k) log) = Some (mt_users m)
  end.

Record projector_inv (log : list ReadEvent) (s : projector) : Prop := {
  pi_log : good_log log;
  pi_state : ∃ m k, admin_tables (pr_db s) = Some m ∧ projected log k m
    ∧ pc_at log k m (pr_pc s) }.

(** The event after the checkpoint, applied to the table or found there already. *)
Lemma projected_event log k m e us :
  projected log k m → log !! k = Some e →
  user_row_event (mt_users m) e = Some us → users_of_log (take (S k) log) = Some us.
Proof.
  intros [_ _ _ [Hu|[_ Hu]]] He Hev.
  - rewrite (users_of_log_S _ _ _ He), Hu. exact Hev.
  - rewrite (users_of_log_S _ _ _ He) in Hu.
    destruct (users_of_log (take k log)) as [us0|] eqn:E; [|done]. simpl in Hu.
    apply user_row_event_again in Hu as Hag. rewrite (users_of_log_S _ _ _ He), E. simpl.
    congruence.
Qed.

Lemma projected_progress log k m e :
  projected log k m → log !! k = Some e → is_Some (users_of_log (take (S k) log)) →
  is_Some (user_row_event (mt_users m) e).
Proof.
  intros [_ _ _ [Hu|[_ Hu]]] He Hs.
  - by rewrite (users_of_log_S _ _ _ He), Hu in Hs.
  - rewrite (users_of_log_S _ _ _ He) in Hu.
    destruct (users_of_log (take k log)) as [us0|]; [|done]. simpl in Hu.
    apply user_row_event_again in Hu. by eexists.
Qed.

Lemma projected_grow log events k m :
  projected log k m → projected (log ++ events) k m.
Proof.
  intros [H1 H2 H3 H4]. split; [done|rewrite length_app; lia| |].
  - rewrite H3. destruct k as [|k]; [done|]. simpl. by rewrite lookup_app_l by lia.
  - rewrite take_app_le by lia. destruct H4 as [?|[Hlt H4]]; [by left|right].
    split; [rewrite length_app; lia|]. by rewrite take_app_le by lia.
Qed.

Lemma GetUserByUsername_tables fault username a :
  admin_tables (GetUserByUsername fault username a).2 = admin_tables a.
Proof. unfold GetUserByUsername. by repeat case_match. Qed.

Lemma checkpoint_pool a : poolForProjectorName a user_projector_name = adminBoundary a.
Proof. done. Qed.

Lemma projector_start log s a fault after :
  projector_inv log s → pr_db s = a →
  GetProjectorLastPosition fault user_projector_name a = Ok after →
  projector_inv log (mkProjector a (PReady after)).
Proof.
  intros [Hg (m & k & Ht & Hp & _)] <- H. split; [done|]. exists m, k. split_and!; [done..|].
  unfold GetProjectorLastPosition, meta_query in H. rewrite checkpoint_pool in H.
  unfold admin_tables in Ht. rewrite Ht in H. destruct fault; [done|]. injection H as <-.
  apply (pj_checkpoint _ _ _ Hp).
Qed.

Lemma projector_handle log a f1 f2 after event r a' :
  projector_inv log (mkProjector a (PReady after)) → next_event log after = Some event →
  UserProjector_handleEvent f1 f2 event a = (r, a') →
  projector_inv log (mkProjector a' (match r with Ok _ => PHandled after event
                                                | Err _ => PReady after end)).
Proof.
  intros [Hg (m & k & Ht & Hp & Hpc)] Hn Hh. simpl in *. subst after.
  pose proof Hp as [Hrows Hlen Hcp Hus]. rewrite next_event_at in Hn by done.
  pose proof (handleEvent_rows f1 f2 event a m Ht Hrows) as H. rewrite Hh in H.
  split; [done|]. destruct r as [|e].
  - destruct H as (us & Hev & Ht'). exists (set_users m us), k.
    pose proof (projected_event _ _ _ _ _ Hp Hn Hev) as Hus'. split_and!; [done| |done..].
    apply lookup_lt_Some in Hn as Hlt. split; simpl; [|done|done|by right].
    eapply user_row_event_good; [done| |done]. pose proof (gl_plain _ Hg) as Hpl.
    rewrite Forall_lookup in Hpl. by eapply Hpl.
  - destruct H as [-> _]. by exists m, k.
Qed.

Lemma projector_checkpoint log a fault after event r a' :
  projector_inv log (mkProjector a (PHandled after event)) →
  UpdateProjectorPosition fault user_projector_name (RE_Position event) a = (r, a') →
  projector_inv log (mkProjector a' (PReady (match r with Ok _ => RE_Position event
                                                       | Err _ => after end))).
Proof.
  intros [Hg (m & k & Ht & Hp & Hpc)] H. simpl in *. destruct Hpc as (-> & He & Hus).
  pose proof Hp as [Hrows Hlen Hcp _]. split; [done|].
  unfold UpdateProjectorPosition, meta_statement in H. rewrite checkpoint_pool in H.
  unfold admin_tables in Ht. rewrite Ht in H. destruct fault as [e|]; injection H as <- <-.
  - by exists m, k.
  - eexists _, (S k). split; [apply lookup_insert_eq|]. simpl. apply lookup_lt_Some in He as Hlt.
    split; [|by rewrite He]. split; [done|simpl; lia| |by left].
    simpl. rewrite lookup_insert_eq. by rewrite He.
Qed.

Lemma projector_step_inv log s log' s' :
  projector_inv log s → projector_step (log, s) (log', s') → projector_inv log' s'.
Proof.
  intros Hi H. inversion H; subst.
  - by eapply projector_start.
  - by eapply projector_handle.
  - by eapply projector_checkpoint.
  - destruct Hi as [Hg (m & k & Ht & Hp & _)]. split; [done|]. by exists m, k.
  - destruct Hi as [Hg (m & k & Ht & Hp & _)]. split; [done|]. by exists m, k.
  - destruct Hi as [Hg (m & k & Ht & Hp & Hpc)]. split; [done|]. exists m, k.
    simpl in *. by rewrite GetUserByUsername_tables.
  - destruct Hi as [Hg (m & k & Ht & Hp & Hpc)]. split; [done|]. exists m, k.
    split_and!; [done|by apply projected_grow|]. destruct (pr_pc s') as [|after|after e].
    + done.
    + simpl in *. rewrite <- (pj_checkpoint _ _ _ (projected_grow _ _ _ _ Hp)).
      by rewrite (pj_checkpoint _ _ _ Hp).
    + simpl in *. destruct Hpc as (-> & He & Hus). apply lookup_lt_Some in He as Hlt.
      rewrite <- (pj_checkpoint _ _ _ (projected_grow _ _ _ _ Hp)), (pj_checkpoint _ _ _ Hp).
      split_and!; [done|by apply lookup_app_l_Some|by rewrite take_app_le by lia].
Qed.

Lemma projector_steps_inv x y :
  rtc projector_step x y → projector_inv x.1 x.2 → projector_inv y.1 y.2.
Proof.
  induction 1 as [|[l1 s1] [l2 s2] [l3 s3] Hs _ IH]; [done|].
  intros Hi. apply IH. by eapply projector_step_inv.
Qed.

(** A database that has projected nothing. *)
Definition fresh_admin (a : SqliteAdminDB) : Prop :=
  ∃ m, admin_tables a = Some m ∧ mt_users m = ∅ ∧ mt_checkpoints m = ∅.

(** C37: the users table follows the log. Whatever fails, however often the projector is
stopped, crashes and restarts, and however the log grows meanwhile, the table is what the
events up to the saved checkpoint give, or those and the next one: no event is skipped,
and handling one again does not change the result. And when the next event can be
applied at all, a working database applies it: the projector is not stuck. *)
Theorem user_projection_refines log0 a0 log s :
  good_log log0 → fresh_admin a0 →
  rtc projector_step (log0, mkProjector a0 PDown) (log, s) →
  ∃ m k, admin_tables (pr_db s) = Some m ∧ k ≤ length log
    ∧ default NotExistsPosition (mt_checkpoints m !! user_projector_name) = position_at log k
    ∧ (users_of_log (take k log) = Some (mt_users m)
       ∨ users_of_log (take (S k) log) = Some (mt_users m))
    ∧ ∀ after event, pr_pc s = PReady after → next_event log after = Some event →
        is_Some (users_of_log (take (S k) log)) →
        (UserProjector_handleEvent None None event (pr_db s)).1 = Ok tt.
Proof.
  intros Hg (m0 & Ht0 & Hu0 & Hc0) Hrun.
  assert (projector_inv log s) as [Hgl (m & k & Ht & Hp & Hpc)].
  { assert (projector_inv log0 (mkProjector a0 PDown)) as Hi.
    { split; [done|]. exists m0, 0. split_and!; [done| |done]. split.
      - rewrite Hu0. split; [by intros ? ? ? ? ?%lookup_empty_Some|apply map_Forall_empty].
      - lia.
      - by rewrite Hc0, lookup_empty.
      - left. by rewrite Hu0. }
    exact (projector_steps_inv _ _ Hrun Hi). }
  exists m, k. pose proof Hp as [Hrows Hlen Hcp Hus]. split_and!; try done; [naive_solver|].
  intros after event Hr Hn Hs. rewrite Hr in Hpc. simpl in Hpc. subst after.
  rewrite next_event_at in Hn by done.
  destruct (projected_progress _ _ _ _ Hp Hn Hs) as [us Hev].
  pose proof (handleEvent_rows None None event _ m Ht Hrows) as H.
  destruct (UserProjector_handleEvent None None event (pr_db s)) as [[[]|e] a']; [done|].
  destruct H as [_ H]. by rewrite H in Hev.
Qed.

(** ** The counters *)

(** A boundary with its event log and its metadata. *)
Record counted (a : SqliteAdminDB) (boundary : string) (conn : Conn) (m : MetaTables) : Prop := {
  ct_events : adm_pools a !! boundary = Some conn;
  ct_meta : adm_metadata a !! boundary = Some m }.

Lemma EventCount_Project_step a boundary conn m :
  counted a boundary conn m →
  let n := default (Z.of_nat (length (t_events (c_tables conn)))) (mt_events_count m !! boundary) in
  GetEventsCount None None None boundary a = Ok n
  ∧ ∃ m', counted (EventCount_Project None None None None None boundary a).2 boundary conn m'
      ∧ mt_events_count m' !! boundary = Some (wrap64 (n + 1)).
Proof.
  intros [He Hm] n.
  assert (GetEventsCount None None None boundary a = Ok n) as Hget.
  { unfold GetEventsCount, meta_query. rewrite He, Hm. unfold n.
    by destruct (mt_events_count m !! boundary). }
  split; [done|]. unfold EventCount_Project. rewrite Hget. unfold SaveEventCount, meta_statement.
  rewrite He, Hm. eexists. split; [split; simpl; [done|apply lookup_insert_eq]|].
  simpl. apply lookup_insert_eq.
Qed.

(** The count of events is too high. When the first event of a boundary is projected,
no count has been saved, and the handler adds one to the number of rows of the log, in
which that event is already counted: after [k] events have been projected, from a log
that held [n] of them at that moment, the count is [n + k]. *)
Theorem event_count_overcounts a boundary conn m k :
  counted a boundary conn m → mt_events_count m !! boundary = None →
  let n := length (t_events (c_tables conn)) in
  0 < k → (Z.of_nat (n + k) <= MaxInt64)%Z →
  GetEventsCount None None None boundary
    (Nat.iter k (λ a, (EventCount_Project None None None None None boundary a).2) a)
  = Ok (Z.of_nat (n + k)).
Proof.
  intros Hc Hnone n Hk Hmax.
  assert (∀ j, 0 < j → j ≤ k → ∃ m', counted
    (Nat.iter j (λ a, (EventCount_Project None None None None None boundary a).2) a)
    boundary conn m' ∧ mt_events_count m' !! boundary = Some (Z.of_nat (n + j))) as Hall.
  { induction j as [|j IH]; intros Hj Hjk; [lia|]. simpl. destruct j as [|j].
    - destruct (EventCount_Project_step _ _ _ _ Hc) as (_ & m' & Hc' & Hm').
      exists m'. split; [done|]. rewrite Hm', Hnone. simpl. fold n. rewrite wrap64_id; [f_equal; lia|].
      unfold is_int64, MinInt64, MaxInt64 in *. lia.
    - destruct IH as (m1 & Hc1 & Hm1); [lia..|].
      destruct (EventCount_Project_step _ _ _ _ Hc1) as (_ & m' & Hc' & Hm').
      exists m'. split; [done|]. rewrite Hm', Hm1. simpl. rewrite wrap64_id; [f_equal; lia|].
      unfold is_int64, MinInt64, MaxInt64 in *. lia. }
  destruct (Hall k Hk ltac:(lia)) as (m' & Hc' & Hm').
  destruct (EventCount_Project_step _ _ _ _ Hc') as [-> _]. by rewrite Hm'.
Qed.

(** The count of users after a failure to save it: the failure is not noticed, the event
is not handled again, and deleting the user later counts below zero. *)
Lemma lost_user_count a m created deleted e :
  admin_tables a = Some m → mt_users_count m = ∅ →
  RE_EventType created = EventTypeUserCreated → RE_EventType deleted = EventTypeUserDeleted →
  UserCount_Project None (Some e) None created a = (Ok tt, a)
  ∧ (UserCount_Project None None None deleted a).1 = Ok tt
  ∧ GetUsersCount None (UserCount_Project None None None deleted a).2 = Ok (2 ^ 32 - 1)%Z.
Proof.
  intros Ht Hm Hc Hd. unfold admin_tables in Ht.
  assert (GetUsersCount None a = Ok 0%Z) as Hg.
  { unfold GetUsersCount, meta_query. rewrite Ht, Hm. by rewrite map_to_list_empty. }
  unfold UserCount_Project. rewrite Hc, Hd, Hg. simpl.
  unfold SaveUsersCount, meta_statement. rewrite Ht. split_and!; [done..|].
  unfold GetUsersCount, meta_query. simpl. rewrite lookup_insert_eq. simpl. rewrite Hm.
  rewrite insert_empty, map_to_list_singleton. done.
Qed.

End Facts.

Section Witnesses.
#[local] Existing Instances example_json.

(** Two users are created and one of them is deleted. *)
Definition example_read_event (ty : string) (fs : list (string * json)) (pos : Z) : ReadEvent :=
  mkReadEvent "" "" ty (write_json (JObject fs)) "" pos pos 0.
Definition example_admin_log : list ReadEvent :=
  [example_read_event EventTypeUserCreated
     (created_fields (mkUserCreated "Ada" "u-1" "ada" [RoleAdmin] "h1")) 1;
   example_read_event EventTypeUserCreated
     (created_fields (mkUserCreated "Bob" "u-2" "bob" [RoleOperations] "h2")) 2;
   example_read_event EventTypeUserDeleted (deleted_fields (mkUserDeleted "u-1")) 3].

Lemma example_admin_log_good : good_log example_admin_log.
Proof.
  constructor.
  - repeat constructor; left; simpl; lia.
  - repeat constructor; left; simpl; lia.
  - repeat constructor; intros u _ Hd; vm_compute in Hd; try discriminate Hd;
      injection Hd as <-; repeat constructor; discriminate.
Qed.

(** The first event is handled, its checkpoint fails, it is to be handled again. *)
Definition example_first : ReadEvent :=
  example_read_event EventTypeUserCreated
    (created_fields (mkUserCreated "Ada" "u-1" "ada" [RoleAdmin] "h1")) 1.
Definition example_handled : SqliteAdminDB :=
  Eval vm_compute in (UserProjector_handleEvent None None example_first example_admin).2.

Lemma example_handled_eq :
  UserProjector_handleEvent None None example_first example_admin = (Ok tt, example_handled).
Proof. vm_compute. reflexivity. Qed.

Lemma example_next : next_event example_admin_log NotExistsPosition = Some example_first.
Proof. vm_compute. reflexivity. Qed.

Lemma example_busy :
  UpdateProjectorPosition (Some (PlainError "busy")) user_projector_name
    (RE_Position example_first) example_handled = (Err (PlainError "busy"), example_handled).
Proof. vm_compute. reflexivity. Qed.

Lemma example_projection_run :
  rtc projector_step (example_admin_log, mkProjector example_admin PDown)
    (example_admin_log, mkProjector example_handled (PReady NotExistsPosition)).
Proof.
  eapply rtc_l; [exact (step_start example_admin_log example_admin None NotExistsPosition eq_refl)|].
  eapply rtc_l; [exact (step_handle _ _ _ _ _ _ _ _ example_next example_handled_eq)|].
  eapply rtc_l; [exact (step_checkpoint _ _ _ NotExistsPosition _ _ _ example_busy)|].
  apply rtc_refl.
Qed.

Lemma user_projection_refines_witness :
  ∃ m k, admin_tables example_handled = Some m ∧ k ≤ 3
    ∧ (users_of_log (take k example_admin_log) = Some (mt_users m)
       ∨ users_of_log (take (S k) example_admin_log) = Some (mt_users m)).
Proof.
  destruct (@user_projection_refines example_json example_admin_log example_admin
    example_admin_log (mkProjector example_handled (PReady NotExistsPosition))
    example_admin_log_good) as (m & k & Ht & Hk & _ & Hu & _).
  - by exists empty_meta.
  - exact example_projection_run.
  - by exists m, k.
Defined.

Definition example_counting : SqliteAdminDB :=
  newSqliteAdminDBWithRegistry {[ "orders" := example_connA ]}
    {[ "orders" := empty_meta ]} "orders".

(** One event in the log, projected once, is counted as two. *)
Lemma event_count_overcounts_witness :
  GetEventsCount None None None "orders"
    (Nat.iter 1 (λ a, (EventCount_Project None None None None None "orders" a).2) example_counting)
  = Ok 2%Z.
Proof.
  apply (event_count_overcounts example_counting "orders" example_connA empty_meta 1).
  - by constructor.
  - reflexivity.
  - lia.
  - vm_compute. discriminate.
Defined.

End Witnesses.
