(* ===== verification/Neutral.v ===== *)
(** * The neutral event store: [eventstore/types.go], [internal/eventstoreadapter/adapter.go]

The transport-neutral types, in the module [coreeventstore] after the name under which the
code imports them; the ports that the boundary slices declare, as records of operations
over a backend of any type; the adapter that implements the ports over a saver and a
retriever; and the contract of the ports, the class [EventLog], against which the slices
are verified. The adapter over the SQLite backend satisfies the contract. *)

From stdpp Require Import options.
From S2P Require Import Prelude Status Model Number Json Predicates Consistency EventData.
From S2P Require Import WriteContext SqlPredicates Sql SqliteStore SqliteLog GroupCommit.
From S2P Require Import SqliteRead EventStore Api.

Set Default Proof Using "Type*".

(** ** Types *)

Module coreeventstore.

Record Tag := mkTag { Tag_Key : string; Tag_Value : string; Tag_Operator : string }.
Record Criterion := mkCriterion { Criterion_Tags : list Tag }.
Record Query := mkQuery { Query_Criteria : list Criterion }.

(** [Direction] is a [uint8]. *)
Definition Direction : Type := Z.
Definition DirectionAscending : Direction := 0%Z.
Definition DirectionDescending : Direction := 1%Z.

Record ReadRequest := mkReadRequest {
  RR_Boundary : string; RR_FromPosition : option Position; RR_Count : Z;
  RR_Direction : Direction; RR_Query : Query }.

Record ReadEvent := mkReadEvent {
  WriteID : string; EventID : string; EventType : string; Data : string; Metadata : string;
  Pos : Position; DateCreated : Z }.

Record LatestByCriteriaRequest := mkLatestRequest {
  LC_Boundary : string; LC_Criteria : list Criterion }.

(** A match that was not found is [None]. *)
Record LatestByCriteriaResult := mkLatestResult {
  Matches : list (option ReadEvent); ContextPosition : Position }.

Record EventToAppend := mkEventToAppend {
  EA_EventID : string; EA_EventType : string; EA_Data : string; EA_Metadata : string }.

Record ConsistencyObservation := mkObservation {
  CO_Query : Query; CO_Position : Position }.

Record AppendRequest := mkAppendRequest {
  AR_Boundary : string; AR_Events : list EventToAppend;
  AR_Consistency : list ConsistencyObservation }.

Record SubscribeRequest := mkSubscribeRequest {
  SR_Boundary : string; SR_SubscriberName : string; SR_AfterPosition : option Position;
  SR_Query : Query }.

End coreeventstore.
Module core := coreeventstore.

(** ** Ports *)

Section Ports.
Context {B : Type}.

(** Appending may panic ([None]); reads do not change the backend. *)
Record EventAppender := mkAppender {
  Append : Ctx → core.AppendRequest → B → option (result Position) * B }.

Record LatestByCriteriaRetriever := mkLatestRetriever {
  LatestByCriteria : Ctx → core.LatestByCriteriaRequest → B →
    result core.LatestByCriteriaResult }.

(** [boundary_catalog.EventsRetriever], [DefinitionEventsRetriever]. *)
Record DefinitionEventsRetriever := mkDefinitionRetriever {
  Read : Ctx → core.ReadRequest → B → result (list core.ReadEvent) }.

End Ports.
Arguments EventAppender : clear implicits.
Arguments LatestByCriteriaRetriever : clear implicits.
Arguments DefinitionEventsRetriever : clear implicits.

(** ** The adapter *)

Definition storagePosition (position : option Position) : option Position :=
  match position with
  | None => None
  | Some p => Some (mkPosition (CommitPosition p) (PreparePosition p))
  end.

Definition storageTag (tag : core.Tag) : option Tag :=
  Some (mkTag (core.Tag_Key tag) (core.Tag_Value tag) (core.Tag_Operator tag)).

Definition storageQuery (query : core.Query) : option Query :=
  match core.Query_Criteria query with
  | [] => None
  | criteria =>
      Some (mkQuery ((λ c, Some (mkCriterion (storageTag <$> core.Criterion_Tags c)))
                     <$> criteria))
  end.

Definition storageDirection (direction : core.Direction) : Direction :=
  if (direction =? core.DirectionDescending)%Z then Direction_DESC else Direction_ASC.

Definition neutralReadEvent (event : ReadEvent) : core.ReadEvent :=
  {| core.EventID := RE_EventId event;
     core.WriteID := RE_WriteId event;
     core.EventType := RE_EventType event;
     core.Data := RE_Data event;
     core.Metadata := RE_Metadata event;
     core.Pos := mkPosition (RE_CommitPosition event) (RE_PreparePosition event);
     core.DateCreated := RE_DateCreated event |}.

Definition readCriteria (criteria : list core.Criterion) : list ReadCriterion :=
  (λ c, mkReadCriterion
          ((λ t, mkReadTag (core.Tag_Key t) (core.Tag_Value t) (core.Tag_Operator t))
           <$> core.Criterion_Tags c)) <$> criteria.

Section Adapter.
Context `{J : GoJson} {B : Type}.

(** [a.subscribe]: the subscription runs until it is stopped, with the error that ends it. *)
Record Adapter := mkAdapter {
  adapter_saver : option (EventsSaver B);
  adapter_retriever : option (EventsRetriever B);
  adapter_subscribe : option (core.SubscribeRequest → option goerror) }.

Definition New_Adapter (saver : option (EventsSaver B)) (retriever : option (EventsRetriever B))
    (subscribe : option (core.SubscribeRequest → option goerror)) : Adapter :=
  mkAdapter saver retriever subscribe.

(** The request of [Append] as the arguments of [SavePrepared]. *)
Definition append_arguments (request : core.AppendRequest)
  : result (list PreparedEvent * list ConsistencyCheck) :=
  prepared ← PrepareEventsForSave
    ((λ e, mkEventWithMapTags (core.EA_EventID e) (core.EA_EventType e)
             (DString (core.EA_Data e)) (DString (core.EA_Metadata e)))
     <$> core.AR_Events request);
  consistency ← ConsistencyChecksFromObservations
    ((λ o, Some (mkObservation (storageQuery (core.CO_Query o))
                   (storagePosition (Some (core.CO_Position o)))))
     <$> core.AR_Consistency request);
  mret (prepared, consistency).

Definition append_result (r : result (string * Z)) : result Position :=
  '(transactionID, globalID) ← r;
  match ParseInt transactionID with
  | None => Err (Wrapped "parse transaction id %q: %w" (PlainError "invalid syntax"))
  | Some commitPosition => Ok (mkPosition commitPosition globalID)
  end.

Definition Adapter_Append (a : option Adapter) (ctx : Ctx) (request : core.AppendRequest) (b : B)
  : option (result Position) * B :=
  match a ≫= adapter_saver with
  | None => (Some (Err (PlainError "event-store append adapter is not configured")), b)
  | Some saver =>
      match append_arguments request with
      | Err e => (Some (Err e), b)
      | Ok (prepared, consistency) =>
          let '(r, b) := saver_SavePrepared saver ctx prepared (core.AR_Boundary request)
                           consistency b in
          (append_result <$> r, b)
      end
  end.

Definition Adapter_Read (a : option Adapter) (ctx : Ctx) (request : core.ReadRequest) (b : B)
  : result (list core.ReadEvent) :=
  match a ≫= adapter_retriever with
  | None => Err (PlainError "event-store read adapter is not configured")
  | Some retriever =>
      batch ← retriever_GetBatch retriever ctx
        (mkGetEventsRequest (storageQuery (core.RR_Query request))
           (storagePosition (core.RR_FromPosition request)) (core.RR_Count request)
           (storageDirection (core.RR_Direction request)) (core.RR_Boundary request)) b;
      Ok (fmap (M := list) neutralReadEvent batch)
  end.

Definition Adapter_LatestByCriteria (a : option Adapter) (ctx : Ctx)
    (request : core.LatestByCriteriaRequest) (b : B) : result core.LatestByCriteriaResult :=
  match a ≫= adapter_retriever with
  | None => Err (PlainError "event-store latest-by-criteria adapter is not configured")
  | Some retriever =>
      batch ← retriever_GetLatestByCriteria retriever ctx
        (mkLatestByCriteriaQuery (core.LC_Boundary request)
           (readCriteria (core.LC_Criteria request))) b;
      Ok (core.mkLatestResult (fmap (M := option) neutralReadEvent <$> LB_Matches batch)
              (mkPosition (LB_ContextCommitPosition batch) (LB_ContextPreparePosition batch)))
  end.

(** [handle] is whether a handler is given. *)
Definition Adapter_Subscribe (a : option Adapter) (request : core.SubscribeRequest)
    (handle : bool) : option goerror :=
  match a ≫= adapter_subscribe, handle with
  | Some subscribe, true => subscribe request
  | _, _ => Some (PlainError "event-store subscription adapter is not configured")
  end.

Definition adapter_appender (a : Adapter) : EventAppender B :=
  mkAppender (Adapter_Append (Some a)).
Definition adapter_latest (a : Adapter) : LatestByCriteriaRetriever B :=
  mkLatestRetriever (Adapter_LatestByCriteria (Some a)).
Definition adapter_reader (a : Adapter) : DefinitionEventsRetriever B :=
  mkDefinitionRetriever (Adapter_Read (Some a)).

End Adapter.
Arguments Adapter : clear implicits.

(** ** The contract of the ports *)

(** One event of a log: its position and its document, the application data together with
the reserved members. *)
Record entry := mkEntry { en_pos : Position; en_doc : gmap string json }.

Definition entry_type (e : entry) : string := default "" (text_field (en_doc e) "__eventType").
Definition entry_lt (e f : entry) : Prop := pos_lt (en_pos e) (en_pos f).

(** [o] has the application data of [doc]. *)
Definition same_data (o doc : gmap string json) : Prop :=
  ∀ k, IsReservedKey k = false → o !! k = doc !! k.

(** [p] is the position of the last entry that satisfies [P], or "not exists". *)
Definition context_at (l : list entry) (P : gmap string json → bool) (p : Position) : Prop :=
  (p = NotExistsPosition ∧ ∀ e, e ∈ l → P (en_doc e) = false)
  ∨ (∃ e, e ∈ l ∧ P (en_doc e) = true ∧ en_pos e = p
       ∧ ∀ f, f ∈ l → P (en_doc f) = true → pos_le (en_pos f) p).

Section Contract.
Context `{J : GoJson, T : SqlText}.

(** What a criterion and a query of the neutral model mean on a document. *)
Definition criterion_sees (c : core.Criterion) (doc : gmap string json) : bool :=
  forallb (λ t, tag_sql_holds doc
    (mkReadTag (core.Tag_Key t) (core.Tag_Value t) (core.Tag_Operator t))) (core.Criterion_Tags c).
Definition query_sees (criteria : list core.Criterion) (doc : gmap string json) : bool :=
  context_matches (readCriteria criteria) doc.

(** The page that an ascending read asks for. *)
Definition in_page (request : core.ReadRequest) (e : entry) : bool :=
  query_sees (core.Query_Criteria (core.RR_Query request)) (en_doc e)
  && from_option (λ p, bool_decide (pos_le p (en_pos e))) true (core.RR_FromPosition request).
Definition page (request : core.ReadRequest) (l : list entry) : list entry :=
  take (Z.to_nat (batch_count (core.RR_Count request)))
    (filter (λ e, in_page request e = true) l).

(** Event [ev] is what is read of entry [e]. *)
Record event_of (e : entry) (ev : core.ReadEvent) : Prop := {
  eo_pos : core.Pos ev = en_pos e;
  eo_type : core.EventType ev = entry_type e;
  eo_data : ∃ o, unmarshal_object (core.Data ev) = Ok (Some o) ∧ same_data o (en_doc e) }.

(** [m] is the last entry of [l] that satisfies [P], read. *)
Definition latest_of (l : list entry) (P : gmap string json → bool) (m : option core.ReadEvent)
  : Prop :=
  match m with
  | None => ∀ e, e ∈ l → P (en_doc e) = false
  | Some ev => ∃ e, e ∈ l ∧ P (en_doc e) = true ∧ event_of e ev
      ∧ ∀ f, f ∈ l → P (en_doc f) = true → pos_le (en_pos f) (en_pos e)
  end.

Lemma latest_of_ext l P Q m :
  (∀ doc, P doc = Q doc) → latest_of l P m → latest_of l Q m.
Proof using J. intros H. unfold latest_of. destruct m; by setoid_rewrite H. Qed.

(** Entry [e] is what appending [ev] stores. *)
Record stored_as (ev : core.EventToAppend) (e : entry) : Prop := {
  sa_type : text_field (en_doc e) "__eventType" = Some (core.EA_EventType ev);
  sa_data : ∃ o, prepare_object (DString (core.EA_Data ev)) = Ok o
    ∧ same_data (default ∅ o) (en_doc e) }.

Definition text_appended (request : core.AppendRequest) : Prop :=
  Forall (λ e, text_ok (core.EA_EventID e) ∧ text_ok (core.EA_EventType e))
    (core.AR_Events request).

(** What the ports promise on one boundary: the backend holds a log in the order of its
positions; reads return pages of it and latest events with the position of their context;
an append either leaves the log or, when all its observations are current, adds its events
at the end and reports the position of the last of them. *)
Class EventLog {B : Type} (boundary : string) (appender : EventAppender B)
    (latest : LatestByCriteriaRetriever B) (reader : DefinitionEventsRetriever B) := {
  log_of : B → list entry;
  log_good : B → Prop;
  el_sorted b : log_good b → StronglySorted entry_lt (log_of b);
  el_real b e : log_good b → e ∈ log_of b → pos_lt NotExistsPosition (en_pos e);
  el_typed b e : log_good b → e ∈ log_of b → is_Some (text_field (en_doc e) "__eventType");
  el_read ctx request b batch :
    log_good b → core.RR_Boundary request = boundary →
    core.RR_Direction request = core.DirectionAscending →
    Read reader ctx request b = Ok batch →
    Forall2 event_of (page request (log_of b)) batch;
  el_latest ctx request b res :
    log_good b → core.LC_Boundary request = boundary →
    LatestByCriteria latest ctx request b = Ok res →
    Forall2 (λ c m, latest_of (log_of b) (criterion_sees c) m)
      (core.LC_Criteria request) (core.Matches res)
    ∧ context_at (log_of b) (query_sees (core.LC_Criteria request)) (core.ContextPosition res);
  el_append ctx request b r b' :
    log_good b → core.AR_Boundary request = boundary → text_appended request →
    Append appender ctx request b = (r, b') →
    log_good b' ∧
    match r with
    | Some (Ok p) =>
        Forall (λ o, context_at (log_of b) (query_sees (core.Query_Criteria (core.CO_Query o)))
                       (core.CO_Position o)) (core.AR_Consistency request)
        ∧ ∃ es, log_of b' = log_of b ++ es ∧ Forall2 stored_as (core.AR_Events request) es
            ∧ en_pos <$> last es = Some p
    | _ => log_of b' = log_of b
    end }.

End Contract.

(** ** The adapter over SQLite *)

Definition entry_of (r : Row) : entry := mkEntry (row_pos r) (row_doc r).

Definition storage_criteria (criteria : list core.Criterion) : list (option Criterion) :=
  (λ c, Some (mkCriterion (storageTag <$> core.Criterion_Tags c))) <$> criteria.

Definition storage_tag (t : core.Tag) : Tag :=
  mkTag (core.Tag_Key t) (core.Tag_Value t) (core.Tag_Operator t).

Lemma storage_tags_omap (ts : list core.Tag) : omap id (storageTag <$> ts) = storage_tag <$> ts.
Proof. induction ts as [|t ts IH]; [done|]. rewrite !fmap_cons. simpl. by f_equal. Qed.

Lemma storage_tags_mapM (ts : list core.Tag) : mapM (λ t, t) (storageTag <$> ts) = Some (storage_tag <$> ts).
Proof. induction ts as [|t ts IH]; [done|]. rewrite !fmap_cons. cbn [mapM]. by rewrite IH. Qed.

Lemma storage_criteria_read criteria :
  read_criteria (storage_criteria criteria) = readCriteria criteria
  ∧ mapM read_criterion (storage_criteria criteria) = Some (readCriteria criteria).
Proof.
  unfold read_criteria, latestQueryFromRequest, readCriteria, storage_criteria. simpl. split.
  - rewrite <-list_fmap_compose. apply list_fmap_ext. intros i c _. simpl.
    by rewrite storage_tags_omap, <-list_fmap_compose.
  - induction criteria as [|c cs IH]; [done|]. rewrite !fmap_cons. cbn [mapM]. rewrite IH.
    unfold read_criterion. simpl. rewrite storage_tags_mapM. simpl.
    by rewrite <-list_fmap_compose.
Qed.

Lemma storageQuery_Some query q :
  storageQuery query = Some q → q = mkQuery (storage_criteria (core.Query_Criteria query)).
Proof. unfold storageQuery. by destruct (core.Query_Criteria query); intros [= <-]. Qed.

Lemma storageQuery_criteria query :
  query_criteria (storageQuery query) = Some (readCriteria (core.Query_Criteria query)).
Proof.
  destruct (storageQuery query) as [q|] eqn:E.
  - apply storageQuery_Some in E as ->. simpl. apply storage_criteria_read.
  - unfold storageQuery in E. by destruct (core.Query_Criteria query).
Qed.

(** Each observation of an accepted save was current. *)
Lemma observation_current `{J : GoJson, T : SqlText} t obs checks q pos :
  ConsistencyChecksFromObservations obs = Ok checks → current t checks →
  Some (mkObservation q (Some pos)) ∈ obs →
  ∃ q', q = Some q' ∧ is_context t (context_matches (read_criteria (Query_Criteria q'))) pos.
Proof.
  unfold ConsistencyChecksFromObservations, current. intros H Hall Hin. case_match; [done|].
  destruct (check_observations _ _) as [st|] eqn:E; [|done]. injection H as <-.
  apply (check_observations_inv _ _ []) in E as [Hobs _ _ _]; [|apply checks_inv_nil].
  destruct (Hobs _ Hin) as (q' & cs & key & pos' & (Hq & Hn & _) & Hc).
  simplify_eq/=. exists q'. split; [done|]. rewrite Forall_forall in Hall.
  specialize (Hall _ Hc). simpl in Hall. eapply is_context_ext; [|exact Hall].
  intros doc. symmetry. by eapply normalize_context.
Qed.

Section SqliteAdapter.
Context `{J : GoJson, L : !GoJsonLaws, SJ : !GoJsonStored, SL : !GoJsonStoredLaws, T : SqlText,
  G : GoTime, X : Sqlitex, XL : !SqlitexLaws}.

(** The adapter that the SQLite server composes. *)
Definition sqlite_adapter (now : string) : Adapter Registry :=
  New_Adapter (Some (sqlite_saver now)) (Some sqlite_retriever) None.

(** The document of a row is what its text decodes to, and it has a type. *)
Record row_ok (r : Row) : Prop := {
  ro_text : row_data r ≠ "";
  ro_doc : unmarshal_object (row_data r) = Ok (Some (row_doc r));
  ro_type : is_Some (text_field (row_doc r) "__eventType") }.

Lemma row_ok_public r :
  row_ok r →
  ∃ o, unmarshal_object (WithoutStorageEnvelope (row_data r)) = Ok (Some o)
    ∧ same_data o (row_doc r).
Proof.
  intros [Hne Hu _]. unfold WithoutStorageEnvelope.
  rewrite (proj2 (String.eqb_neq _ _) Hne), Hu.
  case_decide as Hp; [by exists (row_doc r)|].
  destruct (marshal_object _) as [text|] eqn:Hm; [|by exists (row_doc r)].
  assert (json_faithful (json_of_map (without_reserved (row_doc r)))) as Hf.
  { apply unmarshal_object_faithful in Hu. rewrite json_faithful_map in Hu |- *.
    intros k v [Hk _]%map_lookup_filter_Some. eauto. }
  destruct (unmarshal_marshal_object _ Hf) as (text' & Hm' & _ & Hu').
  rewrite Hm' in Hm. injection Hm as ->. eexists. split; [done|]. intros k Hk.
  unfold without_reserved. rewrite map_lookup_filter. destruct (row_doc r !! k); simpl; [|done].
  by rewrite option_guard_True.
Qed.

Lemma scan_event_of r ev :
  row_ok r → scanReadEventRow r = Ok ev → event_of (entry_of r) (neutralReadEvent ev).
Proof.
  intros (o & Ho & Hs)%row_ok_public H. unfold scanReadEventRow in H.
  apply result_bind_ok in H as (created & _ & [= <-]).
  constructor; cbn [core.Pos core.EventType core.Data neutralReadEvent RE_Data RE_EventType
    RE_CommitPosition RE_PreparePosition entry_of en_pos en_doc].
  - done.
  - done.
  - by exists o.
Qed.

Lemma stored_event_row_ok d tid gid now r : stored_event d tid gid now r → row_ok r.
Proof.
  intros H. split; [apply (se_nonempty _ _ _ _ _ H)|apply (se_doc _ _ _ _ _ H)|].
  by rewrite (se_type _ _ _ _ _ H).
Qed.

(** The log of a boundary, and when it is one. *)
Definition sqlite_log (boundary : string) (b : Registry) : list entry :=
  from_option (λ conn, entry_of <$> t_events (c_tables conn)) [] (b !! boundary).

Definition sqlite_good (boundary : string) (b : Registry) : Prop :=
  ∃ conn, b !! boundary = Some conn ∧ log_inv (c_tables conn)
    ∧ ∀ r, r ∈ t_events (c_tables conn) → row_ok r.

Lemma sqlite_log_eq boundary b conn :
  b !! boundary = Some conn → sqlite_log boundary b = entry_of <$> t_events (c_tables conn).
Proof. unfold sqlite_log. by intros ->. Qed.

Lemma sqlite_log_sorted boundary b :
  sqlite_good boundary b → StronglySorted entry_lt (sqlite_log boundary b).
Proof.
  intros (conn & Hb & Hl & _). rewrite (sqlite_log_eq _ _ _ Hb).
  apply log_sorted in Hl. induction Hl as [|r l _ IH Hf]; [constructor|].
  rewrite fmap_cons. constructor; [done|]. by apply Forall_fmap.
Qed.

Lemma sqlite_log_real boundary b e :
  sqlite_good boundary b → e ∈ sqlite_log boundary b → pos_lt NotExistsPosition (en_pos e).
Proof.
  intros (conn & Hb & Hl & _). rewrite (sqlite_log_eq _ _ _ Hb).
  intros (r & -> & Hr)%list_elem_of_fmap. by eapply log_pos_positive.
Qed.

Lemma sqlite_log_typed boundary b e :
  sqlite_good boundary b → e ∈ sqlite_log boundary b →
  is_Some (text_field (en_doc e) "__eventType").
Proof.
  intros (conn & Hb & _ & Hok). rewrite (sqlite_log_eq _ _ _ Hb).
  intros (r & -> & Hr)%list_elem_of_fmap. by apply ro_type, Hok.
Qed.

Lemma context_at_rows t P p :
  context_at (entry_of <$> t_events t) P p ↔ is_context t P p.
Proof.
  unfold context_at, is_context. split.
  - intros [[-> H]|(e & (r & -> & Hr)%list_elem_of_fmap & HP & Hp & H)].
    + left. split; [done|]. intros r Hr. apply (H (entry_of r)), list_elem_of_fmap; eauto.
    + right. exists r. split_and!; [done..|]. intros s Hs.
      apply (H (entry_of s)), list_elem_of_fmap; eauto.
  - intros [[-> H]|(r & Hr & HP & Hp & H)].
    + left. split; [done|]. intros e (r & -> & Hr)%list_elem_of_fmap. by apply H.
    + right. exists (entry_of r). split_and!; [apply list_elem_of_fmap; eauto|done..|].
      intros e (s & -> & Hs)%list_elem_of_fmap. by apply H.
Qed.

Lemma sqlite_read boundary now ctx request b batch :
  sqlite_good boundary b → core.RR_Boundary request = boundary →
  core.RR_Direction request = core.DirectionAscending →
  Adapter_Read (Some (sqlite_adapter now)) ctx request b = Ok batch →
  Forall2 event_of (page request (sqlite_log boundary b)) batch.
Proof.
  intros (conn & Hb & Hl & Hok) Hbd Hdir H. rewrite (sqlite_log_eq _ _ _ Hb).
  unfold Adapter_Read in H.
  cbn [mbind option_bind sqlite_adapter New_Adapter adapter_retriever sqlite_retriever
    retriever_GetBatch] in H. apply result_bind_ok in H as (evs & Hg & [= <-]).
  apply (GetBatch_sound _ conn) in Hg as (cs & Hcs & Hm); [|by subst|done].
  cbn [GE_Query GE_Count GE_Direction GE_FromPosition] in Hcs, Hm.
  rewrite storageQuery_criteria in Hcs. injection Hcs as <-. rewrite Hdir in Hm.
  cbn [storageDirection ordered] in Hm. unfold matching in Hm. unfold page.
  assert (∀ l, filter (λ e, in_page request e = true) (entry_of <$> l)
    = entry_of <$> filter (λ r, context_matches (readCriteria
        (core.Query_Criteria (core.RR_Query request))) (row_doc r)
        && in_range Direction_ASC (storagePosition (core.RR_FromPosition request)) r = true) l)
    as ->.
  { intros l. induction l as [|r l IH]; [done|]. rewrite fmap_cons, !filter_cons, IH.
    assert (in_page request (entry_of r) = context_matches (readCriteria
      (core.Query_Criteria (core.RR_Query request))) (row_doc r)
      && in_range Direction_ASC (storagePosition (core.RR_FromPosition request)) r) as Hr.
    { unfold in_page, query_sees. by destruct (core.RR_FromPosition request) as [[c p]|]. }
    rewrite Hr. by case_decide. }
  rewrite <-fmap_take. apply result_mapM_Forall2 in Hm. apply Forall2_fmap_2.
  eapply Forall2_impl_elem; [exact Hm|]. intros r ev Hr Hs. apply scan_event_of; [|done].
  apply Hok. apply elem_of_take in Hr as (i & Hi%list_elem_of_lookup_2 & _).
  by apply list_elem_of_filter in Hi as [_ Hi].
Qed.

Lemma latest_match_entry t P m :
  (∀ r, r ∈ t_events t → row_ok r) → latest_match t P m →
  latest_of (entry_of <$> t_events t) P (neutralReadEvent <$> m).
Proof.
  intros Hok. destruct m as [ev|]; simpl.
  - intros (r & Hr & HP & Hs & Hmax). exists (entry_of r). split_and!.
    + apply list_elem_of_fmap. eauto.
    + done.
    + by apply scan_event_of; [apply Hok|].
    + intros f (s & -> & Hs')%list_elem_of_fmap. by apply Hmax.
  - intros H e (r & -> & Hr)%list_elem_of_fmap. by apply H.
Qed.

Lemma tags_hold_criterion c : ∀ doc,
  tags_hold (mkReadCriterion ((λ t, mkReadTag (core.Tag_Key t) (core.Tag_Value t)
    (core.Tag_Operator t)) <$> core.Criterion_Tags c)) doc = criterion_sees c doc.
Proof.
  intros doc. unfold tags_hold, criterion_sees. simpl.
  induction (core.Criterion_Tags c) as [|t ts IH]; [done|]. rewrite fmap_cons. simpl.
  by rewrite IH.
Qed.

Lemma sqlite_latest boundary now ctx request b res :
  sqlite_good boundary b → core.LC_Boundary request = boundary →
  Adapter_LatestByCriteria (Some (sqlite_adapter now)) ctx request b = Ok res →
  Forall2 (λ c m, latest_of (sqlite_log boundary b) (criterion_sees c) m)
    (core.LC_Criteria request) (core.Matches res)
  ∧ context_at (sqlite_log boundary b) (query_sees (core.LC_Criteria request))
      (core.ContextPosition res).
Proof.
  intros (conn & Hb & Hl & Hok) Hbd H. rewrite (sqlite_log_eq _ _ _ Hb).
  unfold Adapter_LatestByCriteria in H.
  cbn [mbind option_bind sqlite_adapter New_Adapter adapter_retriever sqlite_retriever
    retriever_GetLatestByCriteria] in H.
  apply result_bind_ok in H as (batch & Hg & [= <-]).
  apply (GetLatestByCriteria_sound _ conn) in Hg as (_ & Hm & Hc); [|by subst|done].
  simpl in Hm, Hc. split; [|by apply context_at_rows].
  simpl. unfold readCriteria in Hm. rewrite Forall2_fmap_l in Hm. apply Forall2_fmap_r.
  eapply Forall2_impl; [exact Hm|]. intros c m Hcm. apply latest_match_entry in Hcm; [|done].
  eapply latest_of_ext; [|exact Hcm]. apply tags_hold_criterion.
Qed.

(** The events of an append, prepared. *)
Lemma append_prepared events prepared :
  PrepareEventsForSave
    ((λ e, mkEventWithMapTags (core.EA_EventID e) (core.EA_EventType e)
             (DString (core.EA_Data e)) (DString (core.EA_Metadata e))) <$> events) = Ok prepared →
  Forall2 (λ ev pe, PE_EventId pe = core.EA_EventID ev ∧ PE_EventType pe = core.EA_EventType ev
             ∧ prepareEventDataJSON (DString (core.EA_Data ev)) = Ok (PE_DataJSON pe))
    events prepared.
Proof.
  revert prepared. induction events as [|e events IH]; intros prepared H.
  - injection H as <-. constructor.
  - rewrite fmap_cons in H. cbn [PrepareEventsForSave EM_Data EM_Metadata] in H.
    destruct (prepareEventDataJSON _) as [d|] eqn:Hd; [|done].
    destruct (prepareJSONValue _) as [m|]; [|done].
    apply result_bind_ok in H as (rest & Hr & [= <-]). constructor; [done|]. by apply IH.
Qed.

Lemma prepared_document_good ev pe :
  prepareEventDataJSON (DString (core.EA_Data ev)) = Ok (PE_DataJSON pe) →
  PE_EventId pe = core.EA_EventID ev → PE_EventType pe = core.EA_EventType ev →
  text_ok (core.EA_EventID ev) → text_ok (core.EA_EventType ev) →
  good_document (prepareEventDocument pe).
Proof.
  intros (o & _ & _ & Hf & _ & Hp)%prepareEventDataJSON_ok Hid Hty Hi Ht.
  unfold prepareEventDocument. rewrite Hp. intros _. exists (default ∅ o). simpl.
  by rewrite Hid, Hty.
Qed.

Lemma stored_event_entry ev pe tid gid now r :
  prepareEventDataJSON (DString (core.EA_Data ev)) = Ok (PE_DataJSON pe) →
  PE_EventType pe = core.EA_EventType ev →
  stored_event (prepareEventDocument pe) tid gid now r → stored_as ev (entry_of r).
Proof.
  intros (o & Ho & _ & _ & _ & Hp)%prepareEventDataJSON_ok Hty Hs.
  unfold prepareEventDocument in Hs. rewrite Hp in Hs. constructor.
  - rewrite <-Hty. apply (se_type _ _ _ _ _ Hs).
  - exists o. split; [done|]. intros k Hk. simpl. by rewrite (se_app _ _ _ _ _ Hs k Hk).
Qed.

Lemma rows_stored_entries events prepared tid gid now rows :
  Forall2 (λ ev pe, PE_EventId pe = core.EA_EventID ev ∧ PE_EventType pe = core.EA_EventType ev
             ∧ prepareEventDataJSON (DString (core.EA_Data ev)) = Ok (PE_DataJSON pe))
    events prepared →
  rows_stored (prepareEventDocuments prepared) tid gid now rows →
  Forall2 stored_as events (entry_of <$> rows) ∧ Forall row_ok rows.
Proof.
  intros H. revert gid rows. induction H as [|ev pe events prepared (_ & Hty & Hd) _ IH];
    intros gid [|r rows] Hr; try done.
  destruct Hr as [Hr Hrs]. destruct (IH _ _ Hrs) as [Hes Hrow]. rewrite fmap_cons. split.
  - constructor; [by eapply stored_event_entry|done].
  - constructor; [by eapply stored_event_row_ok|done].
Qed.

Lemma append_arguments_ok request prepared checks :
  append_arguments request = Ok (prepared, checks) → text_appended request →
  Forall2 (λ ev pe, PE_EventId pe = core.EA_EventID ev ∧ PE_EventType pe = core.EA_EventType ev
             ∧ prepareEventDataJSON (DString (core.EA_Data ev)) = Ok (PE_DataJSON pe))
    (core.AR_Events request) prepared
  ∧ Forall good_document (prepareEventDocuments prepared)
  ∧ ∀ t, Forall (check_ok t) (prepareConsistencyChecks checks) →
      Forall (λ o, is_context t (query_sees (core.Query_Criteria (core.CO_Query o)))
                     (core.CO_Position o)) (core.AR_Consistency request).
Proof.
  unfold append_arguments. intros H Ht. apply result_bind_ok in H as (pes & Hp & H).
  apply result_bind_ok in H as (cs & Hc & [= -> ->]). apply append_prepared in Hp.
  split_and!; [done| |].
  - apply Forall_fmap. clear Hc. unfold text_appended in Ht.
    induction Hp as [|ev pe evs pes (Hi & Hty & Hd) _ IH]; [constructor|].
    apply Forall_cons in Ht as [[Hti Htt] Ht]. constructor; [|by apply IH].
    by eapply prepared_document_good.
  - intros t Hck. apply Forall_forall. intros [q [c p]] Ho.
    eapply prepared_checks_current in Hck; [|done].
    destruct (observation_current t _ _ (storageQuery q) (mkPosition c p) Hc Hck)
      as (q' & Hq & Hctx).
    { apply list_elem_of_fmap. by exists (core.mkObservation q (mkPosition c p)). }
    apply storageQuery_Some in Hq as ->. simpl in *. unfold query_sees.
    by rewrite (proj1 (storage_criteria_read _)) in Hctx.
Qed.

(** What a save by the SQLite saver leaves, and what it reports. *)
Lemma sqlite_saver_outcome now ctx prepared boundary checks b conn r b' :
  b !! boundary = Some conn → log_inv (c_tables conn) → text_ok now →
  Forall good_document (prepareEventDocuments prepared) →
  saver_SavePrepared (sqlite_saver now) ctx prepared boundary checks b = (r, b') →
  ∃ res conn', r = Some res ∧ b' = <[boundary := conn']> b ∧ log_inv (c_tables conn')
    ∧ match res with
      | Err _ => c_tables conn' = c_tables conn
      | Ok (tid, gid) => Forall (check_ok (c_tables conn)) (prepareConsistencyChecks checks)
          ∧ tid = FormatInt gid ∧ (0 <= gid <= MaxInt64)%Z
          ∧ ∃ rows, t_events (c_tables conn') = t_events (c_tables conn) ++ rows
              ∧ rows_stored (prepareEventDocuments prepared) gid (t_next_id (c_tables conn)) now
                  rows
              ∧ rows ≠ [] ∧ gid = Z.of_nat (length (t_events (c_tables conn')))
      end.
Proof.
  intros Hb Hl Hnow Hgood H. cbn [sqlite_saver saver_SavePrepared] in H.
  injection H as <- Hb'. unfold SavePrepared. case_bool_decide as Hne.
  { eexists _, conn. split; [done|]. rewrite insert_id by done.
    destruct (prepareSQLiteSave _ _ _ _); by subst. }
  rewrite Hb. unfold enqueue. destruct (prepareSQLiteSave _ _ _ _) as [p|e] eqn:Hp; cycle 1.
  { eexists _, conn. split; [done|]. rewrite insert_id by done. by subst. }
  unfold prepareSQLiteSave in Hp. apply result_bind_ok in Hp as (data & _ & [= <-]).
  cbn [mbind result_bind] in *. set (p := mkSave _ _ _ _ _) in *.
  set (n := Z.of_nat _).
  destruct (submit_alone_saved _ _ _ p n Hb Hl) as (conn' & Hx & Hsv); [done|].
  rewrite Hx in Hb'. subst b'. eexists _, conn'. split; [done|]. split; [done|].
  destruct (submit_alone b boundary p n) as [o|e]; simpl in Hsv.
  2:{ rewrite Hsv. split; [done|]. by repeat case_match. }
  destruct (sr_err o) eqn:Ho; [destruct Hsv as [_ ->]; done|].
  destruct Hsv as (t1 & Ha & Htb & ->).
  pose proof (accepts_log_at _ _ _ _ Hl Ha) as Hl1.
  destruct (ac_rows _ _ _ _ Ha) as (rows & Hev & Hst).
  pose proof (rows_stored_length _ _ _ _ _ Hst) as Hlen.
  pose proof (la_next _ _ Hl) as Hn. pose proof (la_next _ _ Hl1) as Hn1.
  pose proof (la_length _ _ Hl) as Hln. unfold next_after in Hn1.
  split; [rewrite Htb; by apply log_at_next|]. simpl. split_and!.
  - apply (ac_checks _ _ _ _ Ha).
  - done.
  - unfold last_id. lia.
  - unfold last_id. lia.
  - exists rows. rewrite Htb. split_and!; [done|done| |].
    + intros ->. simpl in Hlen. apply (ac_nonempty _ _ _ _ Ha).
      by destruct (ps_inserts p).
    + cbn [commit_tables t_events]. rewrite Hev, length_app, Hlen. unfold last_id. lia.
Qed.

Lemma sqlite_append boundary now ctx request b r b' :
  text_ok now → sqlite_good boundary b → core.AR_Boundary request = boundary →
  text_appended request →
  Adapter_Append (Some (sqlite_adapter now)) ctx request b = (r, b') →
  sqlite_good boundary b' ∧
  match r with
  | Some (Ok p) =>
      Forall (λ o, context_at (sqlite_log boundary b)
                     (query_sees (core.Query_Criteria (core.CO_Query o))) (core.CO_Position o))
        (core.AR_Consistency request)
      ∧ ∃ es, sqlite_log boundary b' = sqlite_log boundary b ++ es
          ∧ Forall2 stored_as (core.AR_Events request) es ∧ en_pos <$> last es = Some p
  | _ => sqlite_log boundary b' = sqlite_log boundary b
  end.
Proof.
  intros Hnow Hg Hbd Ht H. pose proof Hg as (conn & Hb & Hl & Hok). unfold Adapter_Append in H.
  cbn [mbind option_bind sqlite_adapter New_Adapter adapter_saver] in H.
  destruct (append_arguments request) as [[prepared checks]|e] eqn:Ha; [|by injection H as <- <-].
  destruct (append_arguments_ok _ _ _ Ha Ht) as (Hp & Hgood & Hchk). rewrite Hbd in H.
  destruct (saver_SavePrepared _ _ _ _ _ _) as [sr b1] eqn:Hs. injection H as <- <-.
  destruct (sqlite_saver_outcome _ _ _ _ _ _ _ _ _ Hb Hl Hnow Hgood Hs)
    as (res & conn' & -> & -> & Hl' & Hres).
  rewrite (sqlite_log_eq boundary (<[boundary:=conn']> b) conn') by apply lookup_insert_eq.
  rewrite (sqlite_log_eq _ _ _ Hb).
  destruct res as [[tid gid]|e]; simpl in Hres |- *; cycle 1.
  { rewrite Hres. split; [|done]. exists conn'. rewrite lookup_insert_eq, Hres. by rewrite Hres in Hl'. }
  destruct Hres as (Hck & -> & Hgid & rows & Hev & Hst & Hne & Hlast).
  destruct (rows_stored_entries _ _ _ _ _ _ Hp Hst) as [Hes Hrows]. split.
  - exists conn'. rewrite lookup_insert_eq. split_and!; [done..|]. intros r.
    rewrite Hev, elem_of_app. intros [Hr|Hr]; [by apply Hok|].
    rewrite Forall_forall in Hrows. by apply Hrows.
  - unfold append_result. cbn [mbind result_bind].
    rewrite ParseInt_FormatInt by (unfold is_int64, MinInt64; lia). split.
    + eapply Forall_impl; [apply Hchk, Hck|]. intros o Ho. by apply context_at_rows.
    + exists (entry_of <$> rows). rewrite Hev, fmap_app. split_and!; [done..|].
      destruct rows as [|r rows _] using rev_ind; [done|]. rewrite fmap_app, last_app.
      simpl. f_equal. rewrite Hev in Hlast.
      pose proof (rows_stored_lookup _ _ _ _ _ (length rows) r Hst) as (d & _ & Hd).
      { by rewrite lookup_app_r, Nat.sub_diag by lia. }
      unfold row_pos. rewrite (se_tid _ _ _ _ _ Hd), (se_gid _ _ _ _ _ Hd). simpl. f_equal.
      pose proof (la_length _ _ Hl) as Hln. rewrite !length_app in Hlast. simpl in Hlast. lia.
Qed.

(** The adapter over SQLite keeps the contract of the ports. *)
Definition sqlite_EventLog (boundary now : string) (Hnow : text_ok now) :
  EventLog boundary (adapter_appender (sqlite_adapter now)) (adapter_latest (sqlite_adapter now))
    (adapter_reader (sqlite_adapter now)) :=
  @Build_EventLog _ _ Registry boundary (adapter_appender (sqlite_adapter now))
    (adapter_latest (sqlite_adapter now)) (adapter_reader (sqlite_adapter now))
    (sqlite_log boundary) (sqlite_good boundary) (sqlite_log_sorted boundary)
    (sqlite_log_real boundary) (sqlite_log_typed boundary) (sqlite_read boundary now)
    (sqlite_latest boundary now)
    (λ ctx request b r b', sqlite_append boundary now ctx request b r b' Hnow).

End SqliteAdapter.
