(* ===== verification/Catalog.v ===== *)
(** * The boundary catalog: [admin/slices/boundary_catalog], [boundary/events]

The catalog folds the lifecycle events of boundaries into a read model. The query handlers
rebuild it from pages of the log while others append to it: before each read, any log that
extends the last one may be found. *)

From stdpp Require Import options.
From S2P Require Import Prelude Status Model Number Json Predicates Consistency EventData.
From S2P Require Import WriteContext SqlPredicates Sql SqliteStore SqliteLog GroupCommit.
From S2P Require Import SqliteRead SqliteIndex EventStore Api Auth Users Neutral.

Set Default Proof Using "Type*".

(** ** Events: [boundary/events/events.go] *)

Definition EventTypeBoundaryCreated : string := "$BoundaryCreated".
Definition EventTypeBoundaryActivated : string := "$BoundaryActivated".
Definition EventTypeBoundaryFailed : string := "$BoundaryProvisioningFailed".

Record BoundaryCreated := mkBoundaryCreated {
  BC_Boundary : string; BC_Description : string; BC_Placement : Placement }.
Record BoundaryActivated := mkBoundaryActivated { BA_Boundary : string }.
Record BoundaryProvisioningFailed := mkBoundaryFailed { BF_Boundary : string; BF_Error : string }.

(** The members of the events, decoded from an object into their structs. *)
Definition placement_member (m : gmap string json) : result Placement :=
  match m !! "placement" with
  | None => Ok (mkPlacement "" "")
  | Some v => struct_of (λ m, backend ← string_member m "backend";
                              namespace ← string_member m "namespace";
                              mret (mkPlacement backend namespace)) v
  end.
Definition created_members (m : gmap string json) : result BoundaryCreated :=
  boundary ← string_member m "boundary"; description ← string_member m "description";
  placement ← placement_member m; mret (mkBoundaryCreated boundary description placement).
Definition activated_members (m : gmap string json) : result BoundaryActivated :=
  boundary ← string_member m "boundary"; mret (mkBoundaryActivated boundary).
Definition failed_members (m : gmap string json) : result BoundaryProvisioningFailed :=
  boundary ← string_member m "boundary"; error ← string_member m "error";
  mret (mkBoundaryFailed boundary error).

(** ** The catalog *)

Notation Catalog := (gmap string Boundary).
Definition NewCatalog : Catalog := ∅.

Definition clonePosition (position : option Position) : option Position :=
  match position with
  | None => None
  | Some p => Some (mkPosition (CommitPosition p) (PreparePosition p))
  end.

Definition cloneBoundary (b : Boundary) : Boundary :=
  mkBoundary (B_Name b) (B_Description b) (B_Placement b) (B_Status b) (B_LastError b)
    (clonePosition (B_DefinitionPosition b)) (clonePosition (B_StatusPosition b)).

Definition define (c : Catalog) (name description : string) (placement : Placement)
    (position : option Position) : result Catalog :=
  if String.eqb name "" then Err (PlainError "boundary catalog: boundary name is required")
  else if String.eqb (Backend placement) ""
  then Err (PlainError "boundary catalog: boundary %q has no placement backend")
  else if String.eqb (Namespace placement) ""
  then Err (PlainError "boundary catalog: boundary %q has no placement namespace")
  else match c !! name with
       | Some _ => Err (PlainError "boundary catalog: boundary %q is already defined")
       | None =>
           Ok (<[name := mkBoundary name description placement StatusProvisioning ""
                           (clonePosition position) (clonePosition position)]> c)
       end.

(** [Apply], with its three decodings given: whether the event is one of the lifecycle, and
the catalog after it. *)
Definition Apply_decoded (c : Catalog) (eventType : string) (position : Position)
    (created : result BoundaryCreated) (activated : result BoundaryActivated)
    (failed : result BoundaryProvisioningFailed) : result (bool * Catalog) :=
  let decoded {A} (r : result A) : result A :=
    match r with
    | Err e => Err (Wrapped "boundary catalog: decode %s: %w" e)
    | Ok a => Ok a
    end in
  if String.eqb eventType EventTypeBoundaryCreated then
    data ← decoded created;
    c ← define c (BC_Boundary data) (BC_Description data) (BC_Placement data) (Some position);
    mret (true, c)
  else if String.eqb eventType EventTypeBoundaryActivated then
    data ← decoded activated;
    if String.eqb (BA_Boundary data) ""
    then Err (PlainError "boundary catalog: %s has no boundary")
    else match c !! BA_Boundary data with
         | None => Ok (true, c)
         | Some b =>
             Ok (true, <[BA_Boundary data :=
                    mkBoundary (B_Name b) (B_Description b) (B_Placement b) StatusActive ""
                      (B_DefinitionPosition b) (clonePosition (Some position))]> c)
         end
  else if String.eqb eventType EventTypeBoundaryFailed then
    data ← decoded failed;
    if String.eqb (BF_Boundary data) ""
    then Err (PlainError "boundary catalog: %s has no boundary")
    else match c !! BF_Boundary data with
         | None => Ok (true, c)
         | Some b =>
             if String.eqb (BF_Error data) ""
             then Err (PlainError "boundary catalog: %s has empty error")
             else if decide (B_Status b = StatusActive) then Ok (true, c)
             else Ok (true, <[BF_Boundary data :=
                    mkBoundary (B_Name b) (B_Description b) (B_Placement b) StatusFailed
                      (BF_Error data) (B_DefinitionPosition b)
                      (clonePosition (Some position))]> c)
         end
  else Ok (false, c).

Definition Catalog_Get (c : Catalog) (name : string) : option Boundary :=
  cloneBoundary <$> c !! name.

(** [sort.Slice] by name; the names of the map are distinct. *)
Definition name_le (a b : Boundary) : Prop := String.le (B_Name a) (B_Name b).
#[export] Instance name_le_dec : RelDecision name_le.
Proof. intros a b. unfold name_le. apply _. Defined.

Definition Catalog_List (c : Catalog) : list Boundary :=
  merge_sort name_le (cloneBoundary <$> (map_to_list c).*2).

Section Events.
Context `{J : GoJson}.

Definition Catalog_Apply (c : Catalog) (event : core.ReadEvent) : result (bool * Catalog) :=
  Apply_decoded c (core.EventType event) (core.Pos event)
    (decode_event created_members (core.Data event))
    (decode_event activated_members (core.Data event))
    (decode_event failed_members (core.Data event)).

End Events.

(** ** Runs of a handler among other writers *)

(** The backend as a handler finds it, and the operations it has made on it. *)
Record Run (B : Type) := mkRun { store : B; operations : nat }.
Arguments mkRun {_} _ _.
Arguments store {_} _.
Arguments operations {_} _.

Section Runs.
Context {B : Type} (env : nat → B → B).

(** What others did before the next operation is [env]. *)
Definition arrive (r : Run B) : B := env (operations r) (store r).
Definition reading {A} (f : B → A) (r : Run B) : A * Run B :=
  (f (arrive r), mkRun (arrive r) (S (operations r))).
Definition writing {A} (f : B → A * B) (r : Run B) : A * Run B :=
  let '(a, b) := f (arrive r) in (a, mkRun b (S (operations r))).

End Runs.

(** ** Query handlers *)

Definition catalogReadBatchSize : Z := 1000.

Definition lifecycle_types : list string :=
  [EventTypeBoundaryCreated; EventTypeBoundaryActivated; EventTypeBoundaryFailed].

Definition lifecycleQuery (name : string) : core.Query :=
  core.mkQuery
    ((λ eventType, core.mkCriterion
        (core.mkTag "__eventType" eventType ""
         :: (if String.eqb name "" then [] else [core.mkTag "boundary" name ""])))
     <$> lifecycle_types).

Section Queries.
Context `{J : GoJson} {B : Type} (env : nat → B → B).

(** The loop over one batch: the catalog, the cursor and whether it advanced. *)
Fixpoint replay_batch (c : Catalog) (cursor : Position) (advanced : bool)
    (batch : list core.ReadEvent) : result (Catalog * Position * bool) :=
  match batch with
  | [] => Ok (c, cursor, advanced)
  | event :: batch =>
      if decide (core.Pos event = cursor) then replay_batch c cursor advanced batch
      else match Catalog_Apply c event with
           | Err _ => Err (Errorf Internal "rebuild boundary catalog at %d/%d: %v")
           | Ok (false, _) =>
               Err (Errorf Internal "boundary catalog query returned unrelated event %q")
           | Ok (true, c) => replay_batch c (core.Pos event) true batch
           end
  end.

(** [None] when the fuel runs out. *)
Fixpoint replay_loop (fuel : nat) (ctx : Ctx) (adminBoundary name : string)
    (retriever : DefinitionEventsRetriever B) (c : Catalog) (cursor : Position) (r : Run B)
  : option (result Catalog) * Run B :=
  match fuel with
  | O => (None, r)
  | S fuel =>
      let '(batch, r) := reading env
        (Read retriever ctx (core.mkReadRequest adminBoundary (Some cursor) catalogReadBatchSize
                               core.DirectionAscending (lifecycleQuery name))) r in
      match batch with
      | Err e => (Some (Err e), r)
      | Ok batch =>
          match replay_batch c cursor false batch with
          | Err e => (Some (Err e), r)
          | Ok (c, cursor, advanced) =>
              if (Z.of_nat (length batch) <? catalogReadBatchSize)%Z || negb advanced
              then (Some (Ok c), r)
              else replay_loop fuel ctx adminBoundary name retriever c cursor r
          end
      end
  end.

Definition replayCatalog (fuel : nat) (ctx : Ctx) (adminBoundary name : string)
    (retriever : option (DefinitionEventsRetriever B)) (r : Run B)
  : option (result Catalog) * Run B :=
  match retriever with
  | Some retriever =>
      if String.eqb adminBoundary ""
      then (Some (Err (New Internal "boundary catalog query handler is not configured")), r)
      else replay_loop fuel ctx adminBoundary name retriever NewCatalog NotExistsPosition r
  | None => (Some (Err (New Internal "boundary catalog query handler is not configured")), r)
  end.

Definition ListBoundariesQueryHandler (fuel : nat) (ctx : Ctx) (adminBoundary : string)
    (retriever : option (DefinitionEventsRetriever B)) (r : Run B)
  : option (result (list Boundary)) * Run B :=
  let '(res, r) := replayCatalog fuel ctx adminBoundary "" retriever r in
  (fmap (M := result) Catalog_List <$> res, r).

Definition GetBoundaryQueryHandler (fuel : nat) (ctx : Ctx) (name adminBoundary : string)
    (retriever : option (DefinitionEventsRetriever B)) (r : Run B)
  : option (result Boundary) * Run B :=
  let name := TrimSpace name in
  match ValidateName name with
  | Err _ => (Some (Err (Errorf InvalidArgument "invalid boundary %q: %v")), r)
  | Ok _ =>
      let '(res, r) := replayCatalog fuel ctx adminBoundary name retriever r in
      (res ≫= λ res, Some (c ← res;
         match Catalog_Get c name with
         | None => Err (Errorf NotFound "boundary %q was not found")
         | Some b => Ok b
         end), r)
  end.

End Queries.

(** ** The catalog of a log *)

Definition apply_entry (c : Catalog) (e : entry) : result (bool * Catalog) :=
  Apply_decoded c (entry_type e) (en_pos e) (created_members (en_doc e))
    (activated_members (en_doc e)) (failed_members (en_doc e)).

Fixpoint catalog_of (c : Catalog) (es : list entry) : result Catalog :=
  match es with
  | [] => Ok c
  | e :: es => x ← apply_entry c e; catalog_of x.2 es
  end.

Lemma catalog_of_app c es fs :
  catalog_of c (es ++ fs) = c' ← catalog_of c es; catalog_of c' fs.
Proof.
  revert c. induction es as [|e es IH]; intros c; [done|]. simpl.
  destruct (apply_entry c e) as [x|]; [|done]. cbn [mbind result_bind]. apply IH.
Qed.

Section Reads.
Context `{J : GoJson, T : SqlText}.

Lemma same_data_member o doc k :
  same_data o doc → IsReservedKey k = false → string_member o k = string_member doc k.
Proof. intros H Hk. unfold string_member. by rewrite H. Qed.

Lemma decode_event_data {A} (f : gmap string json → result A) data o :
  unmarshal_object data = Ok (Some o) → decode_event f data = f o.
Proof.
  unfold unmarshal_object, decode_event. intros H. apply result_bind_ok in H as (v & -> & H).
  destruct v; simplify_eq/=; done.
Qed.

Lemma Catalog_Apply_entry c e ev : event_of e ev → Catalog_Apply c ev = apply_entry c e.
Proof.
  intros [Hp Ht (o & Ho & Hs)]. unfold Catalog_Apply, apply_entry. rewrite Hp, Ht.
  rewrite !(decode_event_data _ _ _ Ho).
  unfold created_members, activated_members, failed_members, placement_member.
  by rewrite !(same_data_member _ _ _ Hs), Hs by done.
Qed.

(** The lifecycle entries of a boundary, or of all when [name] is empty. *)
Definition lifecycle (name : string) (e : entry) : bool :=
  query_sees (core.Query_Criteria (lifecycleQuery name)) (en_doc e).
Definition lifecycle_log (name : string) (l : list entry) : list entry :=
  filter (λ e, lifecycle name e = true) l.

Lemma lifecycle_eq name e :
  lifecycle name e =
    existsb (λ ty, field_is (en_doc e) "__eventType" ty
                   && (String.eqb name "" || field_is (en_doc e) "boundary" name)) lifecycle_types.
Proof.
  unfold lifecycle, query_sees, lifecycleQuery, context_matches. simpl.
  unfold field_is.
  by destruct (String.eqb name ""); simpl; rewrite ?andb_true_r.
Qed.

Lemma lifecycle_type name e ty :
  text_field (en_doc e) "__eventType" = Some ty → lifecycle name e = true →
  entry_type e = ty ∧ ty ∈ lifecycle_types.
Proof.
  intros Ht Hl. split; [unfold entry_type; by rewrite Ht|].
  rewrite lifecycle_eq in Hl. apply existsb_exists in Hl as (ty' & Hin & Hf).
  apply andb_true_iff in Hf as [Hf _].
  rewrite (field_is_string _ _ ty) in Hf by (done || by apply text_field_string).
  apply bool_decide_eq_true in Hf as ->. by apply list_elem_of_In.
Qed.

(** Every lifecycle entry is applied or refused. *)
Lemma apply_entry_applied c e x :
  entry_type e ∈ lifecycle_types → apply_entry c e = Ok x → x.1 = true.
Proof.
  unfold apply_entry, Apply_decoded, lifecycle_types.
  rewrite !elem_of_cons, elem_of_nil. intros [->|[->|[->|[]]]] H.
  - change (String.eqb EventTypeBoundaryCreated EventTypeBoundaryCreated) with true in H.
    apply result_bind_ok in H as (d & _ & H). by apply result_bind_ok in H as (c' & _ & [= <-]).
  - change (String.eqb EventTypeBoundaryActivated EventTypeBoundaryCreated) with false in H.
    change (String.eqb EventTypeBoundaryActivated EventTypeBoundaryActivated) with true in H.
    apply result_bind_ok in H as (d & _ & H). by split_matches.
  - change (String.eqb EventTypeBoundaryFailed EventTypeBoundaryCreated) with false in H.
    change (String.eqb EventTypeBoundaryFailed EventTypeBoundaryActivated) with false in H.
    change (String.eqb EventTypeBoundaryFailed EventTypeBoundaryFailed) with true in H.
    apply result_bind_ok in H as (d & _ & H). by split_matches.
Qed.

Definition cursor_of (start : Position) (es : list entry) : Position :=
  from_option en_pos start (last es).

Lemma cursor_of_snoc start es e : cursor_of start (es ++ [e]) = en_pos e.
Proof. unfold cursor_of. by rewrite last_snoc. Qed.

Lemma cursor_after_cons start e es : cursor_of start (e :: es) = cursor_of (en_pos e) es.
Proof.
  unfold cursor_of. destruct es as [|f es _] using rev_ind; [done|].
  by rewrite app_comm_cons, !last_snoc.
Qed.

Lemma replay_batch_spec c cursor adv es batch :
  Forall2 event_of es batch → StronglySorted entry_lt es →
  Forall (λ e, entry_type e ∈ lifecycle_types) es →
  Forall (λ e, pos_lt cursor (en_pos e)) es →
  match catalog_of c es with
  | Ok c' => replay_batch c cursor adv batch
             = Ok (c', cursor_of cursor es, adv || bool_decide (es ≠ []))
  | Err _ => ∃ e, replay_batch c cursor adv batch = Err e
  end.
Proof.
  intros H. revert c cursor adv. induction H as [|e ev es batch He _ IH]; intros c cursor adv.
  { intros _ _ _. simpl. by rewrite orb_false_r. }
  intros [Hs Hlt]%StronglySorted_inv [Ht Hts]%Forall_cons [Hc _]%Forall_cons. simpl.
  rewrite (eo_pos _ _ He). rewrite decide_False by (intros E; rewrite E in Hc; by apply pos_lt_irrefl in Hc).
  rewrite (Catalog_Apply_entry _ _ _ He).
  destruct (apply_entry c e) as [x|err] eqn:Ha; cbn [mbind result_bind]; [|by eexists].
  pose proof (apply_entry_applied _ _ _ Ht Ha) as Hx. destruct x as [b c']. simpl in Hx. subst b.
  simpl. specialize (IH c' (en_pos e) true Hs Hts Hlt).
  destruct (catalog_of c' es); [|done]. rewrite IH, cursor_after_cons.
  by rewrite orb_true_r.
Qed.

(** *** Pages *)

Lemma lifecycle_page name admin cursor l :
  page (core.mkReadRequest admin (Some cursor) catalogReadBatchSize core.DirectionAscending
          (lifecycleQuery name)) l
  = take 1000 (filter (λ e, pos_le cursor (en_pos e)) (lifecycle_log name l)).
Proof.
  unfold page, lifecycle_log. change (Z.to_nat _) with 1000. f_equal. rewrite list_filter_filter.
  apply list_filter_iff. intros e. unfold in_page. simpl.
  rewrite andb_true_iff, bool_decide_eq_true. unfold lifecycle. simpl. tauto.
Qed.

(** The entries from the cursor on: the one at the cursor, and those that were not seen. *)
Lemma filter_from_cursor seen rest :
  StronglySorted entry_lt (seen ++ rest) →
  (∀ e, e ∈ seen ++ rest → pos_lt NotExistsPosition (en_pos e)) →
  filter (λ e, pos_le (cursor_of NotExistsPosition seen) (en_pos e)) (seen ++ rest)
  = option_list (last seen) ++ rest
  ∧ Forall (λ e, pos_lt (cursor_of NotExistsPosition seen) (en_pos e)) rest.
Proof.
  intros Hs Hreal.
  assert (Forall (λ e, pos_lt (cursor_of NotExistsPosition seen) (en_pos e)) rest) as Hrest.
  { apply Forall_forall. intros e He. destruct seen as [|f seen _] using rev_ind.
    - apply Hreal. done.
    - rewrite cursor_of_snoc.
      eapply (StronglySorted_app_1_elem_of entry_lt (seen ++ [f]) rest); [done| |done].
      apply elem_of_app. right. left. }
  split; [|done]. rewrite filter_app.
  rewrite (list_filter_all _ rest)
    by (rewrite Forall_forall in Hrest; intros e He; left; by apply Hrest).
  f_equal. destruct seen as [|f seen _] using rev_ind; [done|].
  rewrite cursor_of_snoc, filter_app, last_snoc. simpl.
  rewrite filter_cons_True by by right. rewrite filter_nil.
  apply StronglySorted_app_1_l in Hs.
  assert (filter (λ e, pos_le (en_pos f) (en_pos e)) seen = []) as ->; [|done].
  apply list_filter_none. intros e He Hle. apply pos_not_lt in Hle. apply Hle.
  eapply (StronglySorted_app_1_elem_of entry_lt seen [f]); [done|done|left].
Qed.

End Reads.

(** ** Replay *)

Section Replay.
Context `{J : GoJson, T : SqlText} {B : Type}.
Context (admin : string) (appender : EventAppender B) (latest : LatestByCriteriaRetriever B)
  (retriever : DefinitionEventsRetriever B) `{E : !EventLog admin appender latest retriever}.

(** The log only grows. *)
Definition extends (b b' : B) : Prop := log_good b' ∧ log_of b `prefix_of` log_of b'.
Definition growing (env : nat → B → B) : Prop := ∀ k b, log_good b → extends b (env k b).

Lemma extends_trans b1 b2 b3 : extends b1 b2 → extends b2 b3 → extends b1 b3.
Proof. intros [_ H1] [? H2]. split; [done|]. by trans (log_of b2). Qed.

Lemma lifecycle_log_prefix name l l' :
  l `prefix_of` l' → lifecycle_log name l `prefix_of` lifecycle_log name l'.
Proof. intros [k ->]. unfold lifecycle_log. rewrite filter_app. by eexists. Qed.

Lemma lifecycle_log_facts name b :
  log_good b →
  StronglySorted entry_lt (lifecycle_log name (log_of b))
  ∧ (∀ e, e ∈ lifecycle_log name (log_of b) → pos_lt NotExistsPosition (en_pos e))
  ∧ Forall (λ e, entry_type e ∈ lifecycle_types) (lifecycle_log name (log_of b)).
Proof.
  intros Hg. unfold lifecycle_log. split_and!.
  - apply StronglySorted_filter. by apply el_sorted.
  - intros e [_ He]%list_elem_of_filter. by eapply el_real.
  - apply Forall_forall. intros e [Hl He]%list_elem_of_filter.
    destruct (el_typed b e Hg He) as [ty Hty].
    destruct (lifecycle_type name e ty Hty Hl) as [-> ?]. done.
Qed.

Context (env : nat → B → B) (Henv : growing env).

Definition next_run (r : Run B) : Run B := mkRun (arrive env r) (S (operations r)).

(** One round: the page holds what was seen last and the first of what was not. *)
Lemma replay_round ctx name c seen rest r batch :
  log_good (store r) → lifecycle_log name (log_of (arrive env r)) = seen ++ rest →
  Read retriever ctx (core.mkReadRequest admin (Some (cursor_of NotExistsPosition seen))
    catalogReadBatchSize core.DirectionAscending (lifecycleQuery name)) (arrive env r) = Ok batch →
  ∃ n, 999 ≤ n ∧ ((length batch < 1000)%nat → take n rest = rest) ∧
  match catalog_of c (take n rest) with
  | Ok c' => replay_batch c (cursor_of NotExistsPosition seen) false batch
             = Ok (c', cursor_of NotExistsPosition (seen ++ take n rest),
                   bool_decide (take n rest ≠ []))
  | Err _ => ∃ e, replay_batch c (cursor_of NotExistsPosition seen) false batch = Err e
  end.
Proof.
  intros Hg HF Hr. destruct (Henv (operations r) _ Hg) as [Hga _].
  change (log_good (arrive env r)) in Hga.
  destruct (lifecycle_log_facts name _ Hga) as (Hs & Hreal & Hty). rewrite HF in Hs, Hreal, Hty.
  apply el_read in Hr; [|done..]. rewrite lifecycle_page, HF in Hr.
  destruct (filter_from_cursor _ _ Hs Hreal) as [Hf Hlt]. rewrite Hf, take_app in Hr.
  assert (length (option_list (last seen)) ≤ 1) as Ho by (destruct (last seen); simpl; lia).
  rewrite (take_ge (option_list (last seen))) in Hr by lia.
  exists (1000 - length (option_list (last seen))). split; [lia|]. split.
  { intros Hlen. apply take_ge. apply Forall2_length in Hr. rewrite length_app, length_take in Hr.
    lia. }
  set (n := 1000 - _) in *.
  assert (StronglySorted entry_lt (take n rest)
    ∧ Forall (λ e, entry_type e ∈ lifecycle_types) (take n rest)
    ∧ Forall (λ e, pos_lt (cursor_of NotExistsPosition seen) (en_pos e)) (take n rest))
    as (Hs' & Hty' & Hlt').
  { apply Forall_app in Hty as [_ Hty]. split_and!; [|by apply Forall_take..].
    apply StronglySorted_app_1_r in Hs. rewrite <-(take_drop n rest) in Hs.
    by apply StronglySorted_app_1_l in Hs. }
  assert (∃ batch', Forall2 event_of (take n rest) batch' ∧
    replay_batch c (cursor_of NotExistsPosition seen) false batch
    = replay_batch c (cursor_of NotExistsPosition seen) false batch') as (batch' & Hb & ->).
  { unfold cursor_of. destruct (last seen) as [e|]; simpl in Hr |- *; [|by exists batch].
    apply Forall2_cons_inv_l in Hr as (ev & batch' & He & Hb & ->). exists batch'.
    split; [done|]. simpl. by rewrite decide_True by apply (eo_pos _ _ He). }
  pose proof (replay_batch_spec c (cursor_of NotExistsPosition seen) false _ _ Hb Hs' Hty' Hlt')
    as Hspec. destruct (catalog_of c (take n rest)); [|done]. rewrite Hspec. f_equal. f_equal.
  f_equal. unfold cursor_of. rewrite last_app. by destruct (last (take n rest)).
Qed.

Lemma replay_loop_spec fuel ctx name c seen r res r' :
  log_good (store r) → catalog_of NewCatalog seen = Ok c →
  seen `prefix_of` lifecycle_log name (log_of (store r)) →
  replay_loop env fuel ctx admin name retriever c (cursor_of NotExistsPosition seen) r
  = (res, r') →
  extends (store r) (store r') ∧ (∃ j, r' = Nat.iter j next_run r)
  ∧ match res with
    | Some (Ok c') => catalog_of NewCatalog (lifecycle_log name (log_of (store r'))) = Ok c'
    | Some (Err e) =>
        (∃ request b, Read retriever ctx request b = Err e)
        ∨ ∃ e', catalog_of NewCatalog (lifecycle_log name (log_of (store r'))) = Err e'
    | None => length seen + fuel ≤ length (lifecycle_log name (log_of (store r')))
    end.
Proof using Henv.
  revert c seen r. induction fuel as [|fuel IH]; intros c seen r Hg Hc Hp H; simpl in H.
  { injection H as <- <-. split_and!.
    - by split.
    - by exists 0.
    - apply prefix_length in Hp. lia. }
  pose proof (Henv (operations r) _ Hg) as Hext. change (extends (store r) (arrive env r)) in Hext.
  pose proof Hext as [Hga Hpre].
  assert (seen `prefix_of` lifecycle_log name (log_of (arrive env r))) as [rest HF].
  { trans (lifecycle_log name (log_of (store r))); [done|]. by apply lifecycle_log_prefix. }
  assert (∃ j, next_run r = Nat.iter j next_run r) as Hone by by exists 1.
  destruct (Read _ _ _ _) as [batch|e] eqn:Hr; cycle 1.
  { injection H as <- <-. split_and!; [done..|]. left. by eexists _, _. }
  destruct (replay_round _ _ c _ _ _ _ Hg HF Hr) as (n & Hn & Hall & Hround).
  destruct (catalog_of c (take n rest)) as [c'|e'] eqn:Hc'; cycle 1.
  { destruct Hround as [e Hb]. rewrite Hb in H. injection H as <- <-. split_and!; [done..|].
    right. simpl. rewrite HF, <-(take_drop n rest), catalog_of_app, Hc. cbn [mbind result_bind].
    rewrite catalog_of_app, Hc'. by eexists. }
  rewrite Hround in H.
  assert (catalog_of NewCatalog (seen ++ take n rest) = Ok c') as Hseen
    by by rewrite catalog_of_app, Hc.
  destruct (_ || _) eqn:Hend.
  - injection H as <- <-. split_and!; [done..|]. simpl. rewrite HF.
    assert (take n rest = rest) as Heq; [|by rewrite Heq in Hseen].
    apply orb_true_iff in Hend as [Hlen%Z.ltb_lt|Hadv%negb_true_iff].
    + apply Hall. unfold catalogReadBatchSize in Hlen. lia.
    + apply bool_decide_eq_false in Hadv. apply dec_stable in Hadv. rewrite Hadv.
      destruct rest as [|e rest]; [done|]. by destruct n as [|n]; [lia|].
  - apply orb_false_iff in Hend as [_ Hadv%negb_false_iff].
    apply bool_decide_eq_true in Hadv.
    apply IH in H as (Hx & (j & Hj) & Hres); [|done|done|].
    2:{ simpl. rewrite HF. apply prefix_app. apply prefix_take. }
    simpl in Hx. split_and!; [by eapply extends_trans| |].
    { exists (S j). rewrite Hj. by rewrite Nat.iter_succ_r. }
    destruct res as [[?|?]|]; [done..|]. rewrite length_app in Hres.
    assert (length (take n rest) ≠ 0) by by destruct (take n rest). lia.
Qed.

(** What the replay of a catalog returns, whatever is appended meanwhile. *)
Lemma replayCatalog_spec fuel ctx name r res r' :
  log_good (store r) → admin ≠ "" →
  replayCatalog env fuel ctx admin name (Some retriever) r = (res, r') →
  extends (store r) (store r') ∧ (∃ j, r' = Nat.iter j next_run r)
  ∧ match res with
    | Some (Ok c) => catalog_of NewCatalog (lifecycle_log name (log_of (store r'))) = Ok c
    | Some (Err e) =>
        (∃ request b, Read retriever ctx request b = Err e)
        ∨ ∃ e', catalog_of NewCatalog (lifecycle_log name (log_of (store r'))) = Err e'
    | None => fuel ≤ length (lifecycle_log name (log_of (store r')))
    end.
Proof using Henv.
  intros Hg Hne H. unfold replayCatalog in H. rewrite (proj2 (String.eqb_neq _ _) Hne) in H.
  by apply (replay_loop_spec fuel ctx name _ [] _ _ _ Hg eq_refl (prefix_nil _)) in H.
Qed.

(** C35: the catalog is rebuilt exactly and the replay ends. The handlers read the lifecycle
events page by page while other writers append. With one round more than there are events
in the log whenever a page is read, the replay returns; a catalog that it returns is the
fold of all the lifecycle events of the log as it stood at the last read, none skipped or
applied twice; and it fails only if a read failed or if the events do not fold. *)
Theorem catalog_replay fuel ctx name r :
  log_good (store r) → admin ≠ "" →
  (∀ j, length (log_of (store (Nat.iter j next_run r))) < fuel) →
  ∃ res r', replayCatalog env fuel ctx admin name (Some retriever) r = (Some res, r')
    ∧ extends (store r) (store r')
    ∧ match res with
      | Ok c => catalog_of NewCatalog (lifecycle_log name (log_of (store r'))) = Ok c
      | Err e =>
          (∃ request b, Read retriever ctx request b = Err e)
          ∨ ∃ e', catalog_of NewCatalog (lifecycle_log name (log_of (store r'))) = Err e'
      end.
Proof using Henv.
  intros Hg Hne Hb.
  destruct (replayCatalog env fuel ctx admin name (Some retriever) r) as [res r'] eqn:H.
  apply replayCatalog_spec in H as (Hx & [j ->] & Hres); [|done..].
  destruct res as [res|]; [by eauto|]. exfalso. specialize (Hb j).
  unfold lifecycle_log in Hres.
  pose proof (length_filter (λ e, lifecycle name e = true)
    (log_of (store (Nat.iter j next_run r)))). lia.
Qed.

End Replay.
