(* ===== verification/Boundaries.v ===== *)
(** * Boundary commands: [admin/slices/create_boundary], [admin/slices/boundary_provisioning]

Defining a boundary, provisioning it and recording the outcome, and installing active
boundaries into a process. The handlers are runs over the ports of [Neutral]: before each
operation other nodes may have acted. UUIDs, provisioners and installers are arguments. *)

From stdpp Require Import options.
From S2P Require Import Prelude Status Model Number Json Predicates Consistency EventData.
From S2P Require Import WriteContext SqlPredicates Sql SqliteStore SqliteLog GroupCommit.
From S2P Require Import SqliteRead SqliteIndex EventStore Api Auth Users Neutral Catalog.

Set Default Proof Using "Type*".

(** ** Encoding of the events and of their metadata *)

Definition created_boundary_fields (d : BoundaryCreated) : list (string * json) :=
  [("boundary", JString (BC_Boundary d))]
  ++ omit_empty "description" (BC_Description d)
  ++ [("placement", JObject [("backend", JString (Backend (BC_Placement d)));
                             ("namespace", JString (Namespace (BC_Placement d)))])].
Definition activated_boundary_fields (d : BoundaryActivated) : list (string * json) :=
  [("boundary", JString (BA_Boundary d))].
Definition failed_boundary_fields (d : BoundaryProvisioningFailed) : list (string * json) :=
  [("boundary", JString (BF_Boundary d)); ("error", JString (BF_Error d))].

Definition tag_value (t : core.Tag) : json :=
  JObject ([("key", JString (core.Tag_Key t)); ("value", JString (core.Tag_Value t))]
           ++ omit_empty "operator" (core.Tag_Operator t)).
Definition query_value (q : core.Query) : json :=
  JObject [("criteria", JArray ((λ c, JObject [("tags", JArray (tag_value <$> core.Criterion_Tags c))])
                                <$> core.Query_Criteria q))].

Definition subsetQuery (criteria : list core.Criterion) : core.Query := core.mkQuery criteria.

Definition boundary_criterion (name eventType : string) : core.Criterion :=
  core.mkCriterion [core.mkTag "boundary" name ""; core.mkTag "__eventType" eventType ""].
Definition definitionCriteria (name : string) : list core.Criterion :=
  [boundary_criterion name EventTypeBoundaryCreated].
Definition lifecycleCriteria (name : string) : list core.Criterion :=
  boundary_criterion name <$> lifecycle_types.

Section Encode.
Context `{J : GoJson}.

Definition metadataWithQuery (metadata : gmap string json) (query : core.Query)
  : gmap string json :=
  match json_Marshal (query_value query) with
  | Ok encoded => <["query" := JString encoded]> metadata
  | Err _ => metadata
  end.

Definition eventData (fields : list (string * json)) : result string :=
  json_Marshal (JObject fields).

(** The append of one event, observing [query] at [position]; [idFormat] is the text of the
error when no identifier is made. *)
Definition event_request (idFormat adminBoundary eventType : string) (eventID : result string)
    (fields : list (string * json)) (metadata : gmap string json) (query : core.Query)
    (position : Position) : result core.AppendRequest :=
  match eventID with
  | Err _ => Err (Errorf Internal idFormat)
  | Ok id =>
      match eventData fields with
      | Err _ => Err (Errorf Internal "prepare %s data: %v")
      | Ok data =>
          match marshal_object (metadataWithQuery metadata query) with
          | Err _ => Err (Errorf Internal "prepare %s metadata: %v")
          | Ok metadata =>
              Ok (core.mkAppendRequest adminBoundary
                    [core.mkEventToAppend id eventType data metadata]
                    [core.mkObservation query position])
          end
      end
  end.

End Encode.

(** ** Creating a boundary: [create_boundary/command_handler.go] *)

Record CreateBoundaryCommand := mkCreateBoundary {
  CB_Name : string; CB_Description : string; CB_Placement : Placement;
  CB_Metadata : gmap string json }.

Definition normalize (command : CreateBoundaryCommand) : result Definition_ :=
  let definition := mkDefinition (TrimSpace (CB_Name command)) (TrimSpace (CB_Description command))
    (mkPlacement (TrimSpace (Backend (CB_Placement command)))
                 (TrimSpace (Namespace (CB_Placement command)))) in
  match ValidateName (Def_Name definition) with
  | Err _ => Err (Errorf InvalidArgument "invalid boundary %q: %v")
  | Ok _ =>
      if String.eqb (Backend (Def_Placement definition)) ""
         || String.eqb (Namespace (Def_Placement definition)) ""
      then Err (New InvalidArgument "boundary placement backend and namespace are required")
      else Ok definition
  end.

Record createContext := mkCreateContext {
  cc_existing : option core.ReadEvent; cc_position : Position; cc_query : core.Query }.

(** The loop over the matches: at most one definition. *)
Fixpoint find_existing (matches : list (option core.ReadEvent)) (existing : option core.ReadEvent)
  : result (option core.ReadEvent) :=
  match matches with
  | [] => Ok existing
  | None :: matches => find_existing matches existing
  | Some event :: matches =>
      match existing with
      | Some _ => Err (Errorf Internal "boundary %q has multiple definition events")
      | None => find_existing matches (Some event)
      end
  end.

Definition created_of (d : Definition_) : BoundaryCreated :=
  mkBoundaryCreated (Def_Name d) (Def_Description d) (Def_Placement d).

(** The boundary that the handler returns for the position of the definition. *)
Definition created_boundary (d : Definition_) (position : Position) : Boundary :=
  mkBoundary (Def_Name d) (Def_Description d) (Def_Placement d) StatusProvisioning ""
    (Some position)
    (Some (mkPosition (CommitPosition position) (PreparePosition position))).

Section Create.
Context `{J : GoJson} {B : Type} (env : nat → B → B).

Definition create_loadContext (ctx : Ctx) (adminBoundary name : string)
    (retriever : LatestByCriteriaRetriever B) (b : B) : result createContext :=
  let criteria := definitionCriteria name in
  latest ← LatestByCriteria retriever ctx (core.mkLatestRequest adminBoundary criteria) b;
  if decide (length (core.Matches latest) = length criteria)
  then
    existing ← find_existing (core.Matches latest) None;
    mret (mkCreateContext existing (core.ContextPosition latest) (subsetQuery criteria))
  else Err (Errorf Internal "boundary definition query returned %d matches, expected %d").

(** The handler from the context to the append. *)
Definition create_request (ctx : Ctx) (adminBoundary : string)
    (retriever : LatestByCriteriaRetriever B) (definition : Definition_)
    (metadata : gmap string json) (eventID : result string) (b : B)
  : result core.AppendRequest :=
  model ← create_loadContext ctx adminBoundary (Def_Name definition) retriever b;
  match cc_existing model with
  | Some _ => Err (Errorf AlreadyExists "boundary %q already exists")
  | None =>
      event_request "create boundary event id: %v" adminBoundary EventTypeBoundaryCreated eventID
        (created_boundary_fields (created_of definition)) metadata (cc_query model)
        (cc_position model)
  end.

Definition CreateBoundaryCommandHandler (eventID : result string) (ctx : Ctx)
    (command : CreateBoundaryCommand) (adminBoundary : string)
    (appender : option (EventAppender B)) (retriever : option (LatestByCriteriaRetriever B))
    (r : Run B) : option (result Boundary) * Run B :=
  match normalize command with
  | Err e => (Some (Err e), r)
  | Ok definition =>
      match appender, retriever with
      | Some appender, Some retriever =>
          if String.eqb adminBoundary ""
          then (Some (Err (New Internal "create boundary handler is not configured")), r)
          else
            let '(request, r) := reading env
              (create_request ctx adminBoundary retriever definition (CB_Metadata command)
                 eventID) r in
            match request with
            | Err e => (Some (Err e), r)
            | Ok request =>
                let '(res, r) := writing env (Append appender ctx request) r in
                (fmap (M := result) (created_boundary definition) <$> res, r)
            end
      | _, _ => (Some (Err (New Internal "create boundary handler is not configured")), r)
      end
  end.

(** *** [bootstrap.go] *)

Definition definitionFromEvent (event : core.ReadEvent) : result Definition_ :=
  if String.eqb (core.EventType event) EventTypeBoundaryCreated
  then
    data ← decode_event created_members (core.Data event);
    mret (mkDefinition (BC_Boundary data) (BC_Description data) (BC_Placement data))
  else Err (PlainError "unsupported definition event %q").

End Create.

(** [strings.EqualFold] on texts of which one is ASCII: letters without case, and the two
other characters that fold to ASCII letters, the Kelvin sign and the long s. *)
Fixpoint fold_text (s : string) : string :=
  match s with
  | EmptyString => ""
  | String c rest =>
      match N_of_ascii c, rest with
      | 197%N, String d rest' =>
          if (N_of_ascii d =? 191)%N then String "s" (fold_text rest')
          else String c (fold_text rest)
      | 226%N, String d (String e rest') =>
          if ((N_of_ascii d =? 132) && (N_of_ascii e =? 170))%N
          then String "k" (fold_text rest')
          else String c (fold_text rest)
      | _, _ => String (lower_ascii c) (fold_text rest)
      end
  end.
Definition EqualFold (s t : string) : bool := String.eqb (fold_text s) (fold_text t).

Definition samePlacement (left right : Placement) : bool :=
  EqualFold (TrimSpace (Backend left)) (TrimSpace (Backend right))
  && String.eqb (TrimSpace (Namespace left)) (TrimSpace (Namespace right)).

Section Bootstrap.
Context `{J : GoJson} {B : Type} (env : nat → B → B).

Definition verifyBootstrapDefinition (ctx : Ctx) (adminBoundary : string)
    (expected : Definition_) (retriever : LatestByCriteriaRetriever B) (b : B) : result unit :=
  match create_loadContext ctx adminBoundary (Def_Name expected) retriever b with
  | Err e => Err (Wrapped "load bootstrap boundary %q: %w" e)
  | Ok model =>
      match cc_existing model with
      | None => Err (PlainError "bootstrap boundary %q reported as existing but its definition event was not found")
      | Some event =>
          match definitionFromEvent event with
          | Err e => Err (Wrapped "decode bootstrap boundary %q: %w" e)
          | Ok actual =>
              if samePlacement (Def_Placement actual) (Def_Placement expected) then Ok tt
              else Err (PlainError "bootstrap boundary %q placement conflicts with catalog: configured %s/%s, catalog %s/%s")
          end
      end
  end.

Definition bootstrap_metadata : gmap string json :=
  {[ "source" := JString "startup_bootstrap"; "operation" := JString "create_boundary" ]}.

(** Whether the definition was created. *)
Definition EnsureBootstrapBoundary (eventID : result string) (ctx : Ctx) (definition : Definition_)
    (adminBoundary : string) (appender : option (EventAppender B))
    (retriever : option (LatestByCriteriaRetriever B)) (r : Run B)
  : option (result bool) * Run B :=
  let '(res, r) := CreateBoundaryCommandHandler env eventID ctx
    (mkCreateBoundary (Def_Name definition) (Def_Description definition)
       (Def_Placement definition) bootstrap_metadata) adminBoundary appender retriever r in
  match res with
  | None => (None, r)
  | Some (Ok _) => (Some (Ok true), r)
  | Some (Err e) =>
      match CodeOf (Some e), retriever with
      | AlreadyExists, Some retriever =>
          let '(verified, r) := reading env
            (verifyBootstrapDefinition ctx adminBoundary definition retriever) r in
          (Some (_ ← verified; mret false), r)
      | _, _ => (Some (Err (Wrapped "bootstrap boundary %q: %w" e)), r)
      end
  end.

End Bootstrap.

(** ** Provisioning: [boundary_provisioning/command_handler.go] *)

Record ProvisionBoundaryCommand := mkProvisionBoundary {
  PB_Definition : Definition_; PB_Metadata : gmap string json }.

Record provisionContext := mkProvisionContext {
  pc_boundary : Boundary; pc_position : Position; pc_query : core.Query }.

(** The data of an outcome event. *)
Inductive outcome :=
  | Activated (d : BoundaryActivated)
  | Failed (d : BoundaryProvisioningFailed).

Definition outcome_type (o : outcome) : string :=
  match o with Activated _ => EventTypeBoundaryActivated | Failed _ => EventTypeBoundaryFailed end.
Definition outcome_fields (o : outcome) : list (string * json) :=
  match o with
  | Activated d => activated_boundary_fields d
  | Failed d => failed_boundary_fields d
  end.

(** The boundary after an outcome was recorded at [position]. *)
Definition outcome_boundary (b : Boundary) (o : outcome) (position : Position) : Boundary :=
  match o with
  | Activated _ =>
      mkBoundary (B_Name b) (B_Description b) (B_Placement b) StatusActive ""
        (B_DefinitionPosition b) (Some position)
  | Failed d =>
      mkBoundary (B_Name b) (B_Description b) (B_Placement b) StatusFailed (BF_Error d)
        (B_DefinitionPosition b) (Some position)
  end.

Definition validateDefinition (definition : Definition_) : result unit :=
  match ValidateName (Def_Name definition) with
  | Err _ => Err (Errorf InvalidArgument "invalid boundary %q: %v")
  | Ok _ =>
      if String.eqb (Backend (Def_Placement definition)) ""
         || String.eqb (Namespace (Def_Placement definition)) ""
      then Err (New InvalidArgument "boundary placement backend and namespace are required")
      else Ok tt
  end.

Definition event_le (a b : core.ReadEvent) : Prop := pos_le (core.Pos a) (core.Pos b).
#[export] Instance event_le_dec : RelDecision event_le.
Proof. intros a b. unfold event_le. apply _. Defined.

Definition is_created (event : core.ReadEvent) : bool :=
  String.eqb (core.EventType event) EventTypeBoundaryCreated.

(** The events that the context is rebuilt from: the definition and the outcomes after it. *)
Definition context_events (definition : core.ReadEvent) (found : list core.ReadEvent)
  : list core.ReadEvent :=
  merge_sort event_le
    (definition :: filter (λ e, negb (is_created e)
                                && Position_After (core.Pos e) (core.Pos definition) = true) found).

Section Provision.
Context `{J : GoJson} {B : Type} (env : nat → B → B).

Fixpoint apply_events (c : Catalog) (events : list core.ReadEvent) : result Catalog :=
  match events with
  | [] => Ok c
  | event :: events =>
      match Catalog_Apply c event with
      | Err _ => Err (Errorf Internal "rebuild boundary %q lifecycle: %v")
      | Ok (false, _) => Err (Errorf Internal "unexpected event %q in boundary lifecycle")
      | Ok (true, c) => apply_events c events
      end
  end.

Definition provision_loadContext (ctx : Ctx) (adminBoundary name : string)
    (retriever : LatestByCriteriaRetriever B) (b : B) : result provisionContext :=
  let criteria := lifecycleCriteria name in
  latest ← LatestByCriteria retriever ctx (core.mkLatestRequest adminBoundary criteria) b;
  if decide (length (core.Matches latest) = length criteria)
  then
    let found := omap id (core.Matches latest) in
    match filter (λ e, is_created e = true) found with
    | [] => Err (Errorf FailedPrecondition "boundary %q has no definition event")
    | definition :: _ =>
        catalog ← apply_events NewCatalog (context_events definition found);
        match Catalog_Get catalog name with
        | None => Err (Errorf Internal "boundary definition event does not describe %q")
        | Some boundary =>
            Ok (mkProvisionContext boundary (core.ContextPosition latest) (subsetQuery criteria))
        end
    end
  else Err (Errorf Internal "boundary lifecycle query returned %d matches, expected %d").

Definition outcome_request (adminBoundary : string) (eventID : result string)
    (metadata : gmap string json) (model : provisionContext) (o : outcome)
  : result core.AppendRequest :=
  event_request "create %s event id: %v" adminBoundary (outcome_type o) eventID
    (outcome_fields o) metadata (pc_query model) (pc_position model).

Definition appendOutcome (eventID : result string) (ctx : Ctx) (adminBoundary : string)
    (appender : EventAppender B) (metadata : gmap string json) (model : provisionContext)
    (o : outcome) (r : Run B) : option (result Boundary) * Run B :=
  match outcome_request adminBoundary eventID metadata model o with
  | Err e => (Some (Err e), r)
  | Ok request =>
      let '(res, r) := writing env (Append appender ctx request) r in
      (fmap (M := result) (outcome_boundary (pc_boundary model) o) <$> res, r)
  end.

Definition already_active : goerror := Errorf AlreadyExists "boundary %q is already active".

(** The loop that records an activation: it ends unless the context changed. [newID] gives
the identifiers by the operations made so far; [None] is a panic or the end of the fuel. *)
Fixpoint activate_loop (fuel : nat) (newID : nat → result string) (ctx : Ctx)
    (adminBoundary : string) (appender : EventAppender B)
    (retriever : LatestByCriteriaRetriever B) (command : ProvisionBoundaryCommand)
    (model : provisionContext) (r : Run B) : option (result Boundary) * Run B :=
  match fuel with
  | O => (None, r)
  | S fuel =>
      let name := Def_Name (PB_Definition command) in
      match appendOutcome (newID (operations r)) ctx adminBoundary appender
              (PB_Metadata command) model (Activated (mkBoundaryActivated name)) r with
      | (None, r) => (None, r)
      | (Some (Ok b), r) => (Some (Ok b), r)
      | (Some (Err e), r) =>
          if decide (CodeOf (Some e) = AlreadyExists)
          then
            let '(loaded, r) := reading env
              (provision_loadContext ctx adminBoundary name retriever) r in
            match loaded with
            | Err e => (Some (Err e), r)
            | Ok model =>
                if decide (B_Status (pc_boundary model) = StatusActive)
                then (Some (Err already_active), r)
                else activate_loop fuel newID ctx adminBoundary appender retriever command model r
            end
          else (Some (Err e), r)
      end
  end.

Definition not_configured_handler : goerror :=
  New Internal "provision boundary handler is not configured".

(** [provision] acts on the backend, as the provisioner of a store does. *)
Definition ProvisionBoundaryCommandHandler (fuel : nat) (newID : nat → result string) (ctx : Ctx)
    (command : ProvisionBoundaryCommand) (adminBoundary : string)
    (appender : option (EventAppender B)) (retriever : option (LatestByCriteriaRetriever B))
    (provision : option (Ctx → Definition_ → B → result unit * B)) (r : Run B)
  : option (result Boundary) * Run B :=
  match validateDefinition (PB_Definition command) with
  | Err e => (Some (Err e), r)
  | Ok _ =>
      match appender, retriever, provision with
      | Some appender, Some retriever, Some provision =>
          if String.eqb adminBoundary "" then (Some (Err not_configured_handler), r)
          else
            let name := Def_Name (PB_Definition command) in
            let '(loaded, r) := reading env
              (provision_loadContext ctx adminBoundary name retriever) r in
            match loaded with
            | Err e => (Some (Err e), r)
            | Ok model =>
                if decide (B_Status (pc_boundary model) = StatusActive)
                then (Some (Err already_active), r)
                else
                  let '(provisioned, r) :=
                    writing env (provision ctx (PB_Definition command)) r in
                  match provisioned with
                  | Ok _ =>
                      activate_loop fuel newID ctx adminBoundary appender retriever command
                        model r
                  | Err provisionErr =>
                      if decide (B_Status (pc_boundary model) = StatusFailed)
                      then (Some (Err provisionErr), r)
                      else
                        match appendOutcome (newID (operations r)) ctx adminBoundary appender
                                (PB_Metadata command) model
                                (Failed (mkBoundaryFailed name (Error_text provisionErr))) r with
                        | (None, r) => (None, r)
                        | (Some (Ok _), r) => (Some (Err provisionErr), r)
                        | (Some (Err e), r) =>
                            (Some (Err (if decide (CodeOf (Some e) = AlreadyExists)
                                        then provisionErr
                                        else Wrapped "provision boundary %q: %v; record failure: %w" e)), r)
                        end
                  end
            end
      | _, _, _ => (Some (Err not_configured_handler), r)
      end
  end.

End Provision.

(** ** The event handlers: [event_handler.go], [runtime_event_handler.go] *)

Section Handlers.
Context `{J : GoJson} {B : Type} (env : nat → B → B).

Record BoundaryProvisioningEventHandler := mkProvisioningHandler {
  PH_adminBoundary : string;
  PH_appender : option (EventAppender B);
  PH_retriever : option (LatestByCriteriaRetriever B);
  PH_provision : option (Ctx → Definition_ → B → result unit * B);
  PH_ensureGlobal : option (Ctx → string → B → result unit * B) }.

(** [definitionFromEvent] of this slice. *)
Definition provisioning_definition (event : core.ReadEvent) : result Definition_ :=
  if is_created event
  then
    match decode_event created_members (core.Data event) with
    | Err _ => Err (Errorf Internal "decode %s: %v")
    | Ok data =>
        Ok (mkDefinition (BC_Boundary data) (BC_Description data) (BC_Placement data))
    end
  else Err (Errorf InvalidArgument "unsupported boundary provisioning event %q").

(** The metadata of the outcome: [capturedAt] is the clock. *)
Definition reaction_metadata (capturedAt : string) (event : core.ReadEvent) : gmap string json :=
  {[ "source" := JString "event_handler"; "handler" := JString "boundary_provisioning";
     "capturedAt" := JString capturedAt;
     "reactedTo" := JObject
       [("eventId", JString (core.EventID event)); ("eventType", JString (core.EventType event));
        ("position", JObject
           [("commit", JNumber (FormatInt (CommitPosition (core.Pos event))));
            ("prepare", JNumber (FormatInt (PreparePosition (core.Pos event))))])] ]}.

(** Provisioning, then the shared resources: both in one step of the run. *)
Definition provision_and_ensure (provision : Ctx → Definition_ → B → result unit * B)
    (ensureGlobal : Ctx → string → B → result unit * B) (ctx : Ctx) (definition : Definition_)
    (b : B) : result unit * B :=
  match provision ctx definition b with
  | (Err e, b) => (Err e, b)
  | (Ok _, b) => ensureGlobal ctx (Def_Name definition) b
  end.

Definition Provisioning_Handle (fuel : nat) (newID : nat → result string) (capturedAt : string)
    (h : option BoundaryProvisioningEventHandler) (ctx : Ctx) (event : core.ReadEvent) (r : Run B)
  : option (result unit) * Run B :=
  match h, h ≫= PH_provision, h ≫= PH_ensureGlobal with
  | Some h, Some provision, Some ensureGlobal =>
      match provisioning_definition event with
      | Err e => (Some (Err e), r)
      | Ok definition =>
          match ProvisionBoundaryCommandHandler env fuel newID ctx
                  (mkProvisionBoundary definition (reaction_metadata capturedAt event))
                  (PH_adminBoundary h) (PH_appender h) (PH_retriever h)
                  (Some (provision_and_ensure provision ensureGlobal)) r with
          | (None, r) => (None, r)
          | (Some (Ok _), r) => (Some (Ok tt), r)
          | (Some (Err e), r) =>
              if decide (CodeOf (Some e) = AlreadyExists)
              then let '(res, r) := writing env (ensureGlobal ctx (Def_Name definition)) r in
                   (Some res, r)
              else (Some (Err e), r)
          end
      end
  | _, _, _ =>
      (Some (Err (New Internal "boundary provisioning event handler is not configured")), r)
  end.

End Handlers.
Arguments BoundaryProvisioningEventHandler : clear implicits.

Section Runtime.
Context `{J : GoJson} {B R : Type} (env : nat → B → B).

(** [R] is what a process holds: its registry, publishers, projectors and gate. *)
Record BoundaryRuntimeEventHandler := mkRuntimeHandler {
  RH_adminBoundary : string;
  RH_retriever : option (DefinitionEventsRetriever B);
  RH_install : option (Definition_ → R → result unit * R);
  RH_activate : option (string → R → result unit * R) }.

Definition runtime_not_configured : goerror :=
  New Internal "boundary runtime event handler is not configured".

(** The boundary that an activation event exposes: [Ok None] when it is ignored. *)
Definition runtime_boundary (event : core.ReadEvent) (found : result Boundary)
  : result (option Boundary) :=
  match found with
  | Err e => if decide (CodeOf (Some e) = NotFound) then Ok None else Err e
  | Ok boundary =>
      if from_option (λ p, negb (Position_After (core.Pos event) p)) false
           (B_DefinitionPosition boundary)
      then Ok None
      else if decide (B_Status boundary = StatusActive) then Ok (Some boundary)
      else Err (Errorf FailedPrecondition "boundary %q is not active")
  end.

Definition Runtime_Handle (fuel : nat) (h : option BoundaryRuntimeEventHandler) (ctx : Ctx)
    (event : core.ReadEvent) (r : Run B) (rt : R) : option (result unit) * Run B * R :=
  match h, h ≫= RH_retriever, h ≫= RH_install, h ≫= RH_activate with
  | Some h, Some retriever, Some install, Some activate =>
      if String.eqb (RH_adminBoundary h) "" then (Some (Err runtime_not_configured), r, rt)
      else if negb (String.eqb (core.EventType event) EventTypeBoundaryActivated)
      then (Some (Err (Errorf InvalidArgument "unsupported boundary runtime event %q")), r, rt)
      else
        match decode_event activated_members (core.Data event) with
        | Err _ => (Some (Err (Errorf Internal "decode %s: %v")), r, rt)
        | Ok activated =>
            let '(found, r) := GetBoundaryQueryHandler env fuel ctx (BA_Boundary activated)
              (RH_adminBoundary h) (Some retriever) r in
            match found with
            | None => (None, r, rt)
            | Some found =>
                match runtime_boundary event found with
                | Err e => (Some (Err e), r, rt)
                | Ok None => (Some (Ok tt), r, rt)
                | Ok (Some boundary) =>
                    match install (mkDefinition (B_Name boundary) (B_Description boundary)
                                     (B_Placement boundary)) rt with
                    | (Err e, rt) => (Some (Err e), r, rt)
                    | (Ok _, rt) =>
                        let '(res, rt) := activate (B_Name boundary) rt in
                        (Some res, r, rt)
                    end
                end
            end
        end
  | _, _, _, _ => (Some (Err runtime_not_configured), r, rt)
  end.

End Runtime.
