(* ===== verification/Lifecycle.v ===== *)
(** * The lifecycle of boundaries

What the handlers of [Boundaries] and the catalog of [Catalog] promise together, proved
against the contract of the ports ([Neutral.EventLog]) and then used over SQLite. *)

From stdpp Require Import options.
From S2P Require Import Prelude Status Model Number Json Predicates Consistency EventData.
From S2P Require Import WriteContext SqlPredicates Sql SqliteStore SqliteLog GroupCommit.
From S2P Require Import SqliteRead SqliteIndex EventStore Api Auth Users Neutral Catalog Boundaries.

Set Default Proof Using "Type*".

(** ** What an entry says about a boundary *)

Inductive lifecycle_event :=
  | LCreated (d : BoundaryCreated)
  | LActivated
  | LFailed (error : string).

Definition says (name : string) (e : entry) (v : lifecycle_event) : Prop :=
  match v with
  | LCreated d => entry_type e = EventTypeBoundaryCreated
      ∧ created_members (en_doc e) = Ok d ∧ BC_Boundary d = name
  | LActivated => entry_type e = EventTypeBoundaryActivated
      ∧ activated_members (en_doc e) = Ok (mkBoundaryActivated name)
  | LFailed error => entry_type e = EventTypeBoundaryFailed
      ∧ failed_members (en_doc e) = Ok (mkBoundaryFailed name error)
  end.

Definition placed (p : Placement) : Prop := Backend p ≠ "" ∧ Namespace p ≠ "".
#[export] Instance placed_dec p : Decision (placed p).
Proof. unfold placed. apply _. Defined.

(** What an entry at [p] makes of the boundary that the catalog holds under its name. *)
Definition step (o : option Boundary) (p : Position) (v : lifecycle_event)
  : option (option Boundary) :=
  match v, o with
  | LCreated _, Some _ => None
  | LCreated d, None =>
      guard (placed (BC_Placement d));;
      Some (Some (mkBoundary (BC_Boundary d) (BC_Description d) (BC_Placement d)
                    StatusProvisioning "" (Some p) (Some p)))
  | _, None => Some None
  | LActivated, Some b =>
      Some (Some (mkBoundary (B_Name b) (B_Description b) (B_Placement b) StatusActive ""
                    (B_DefinitionPosition b) (Some p)))
  | LFailed error, Some b =>
      guard (error ≠ "");;
      Some (Some (if decide (B_Status b = StatusActive) then b
                  else mkBoundary (B_Name b) (B_Description b) (B_Placement b) StatusFailed error
                         (B_DefinitionPosition b) (Some p)))
  end.

Fixpoint steps (o : option Boundary) (l : list (entry * lifecycle_event))
  : option (option Boundary) :=
  match l with
  | [] => Some o
  | (e, v) :: l => o' ← step o (en_pos e) v; steps o' l
  end.

Lemma steps_app o k l : steps o (k ++ l) = o' ← steps o k; steps o' l.
Proof.
  revert o. induction k as [|[e v] k IH]; intros o; [done|]. simpl.
  destruct (step o (en_pos e) v); [|done]. simpl. apply IH.
Qed.

Lemma clonePosition_id p : clonePosition p = p.
Proof. by destruct p as [[c q]|]. Qed.
Lemma cloneBoundary_id b : cloneBoundary b = b.
Proof. destruct b. unfold cloneBoundary. simpl. by rewrite !clonePosition_id. Qed.
Lemma Catalog_Get_lookup c name : Catalog_Get c name = c !! name.
Proof. unfold Catalog_Get. destruct (c !! name); simpl; [|done]. by rewrite cloneBoundary_id. Qed.

(** The catalog with the boundary [name] replaced. *)
Definition set_boundary (c : Catalog) (name : string) (o : option Boundary) : Catalog :=
  match o with Some b => <[name := b]> c | None => c end.

Ltac lifecycle_branch ty :=
  unfold apply_entry, Apply_decoded; rewrite ty;
  repeat match goal with
  | |- context [String.eqb ?a ?b] =>
      first [change (String.eqb a b) with true | change (String.eqb a b) with false]
  end.

Lemma apply_says c name e v :
  name ≠ "" → says name e v →
  match step (c !! name) (en_pos e) v with
  | Some o => apply_entry c e = Ok (true, set_boundary c name o)
  | None => ∃ err, apply_entry c e = Err err
  end.
Proof.
  intros Hne Hs. apply String.eqb_neq in Hne. destruct v as [d| |error]; simpl in Hs.
  - destruct Hs as (Hty & Hd & <-). lifecycle_branch Hty. rewrite Hd. cbn [mbind result_bind].
    unfold define. rewrite Hne. simpl. unfold step.
    destruct (c !! BC_Boundary d) as [b|] eqn:E.
    { destruct (String.eqb (Backend (BC_Placement d)) ""); [by eexists|].
      destruct (String.eqb (Namespace (BC_Placement d)) ""); by eexists. }
    unfold placed. destruct (String.eqb_spec (Backend (BC_Placement d)) "") as [Hb|Hb].
    { rewrite option_guard_False by naive_solver. by eexists. }
    destruct (String.eqb_spec (Namespace (BC_Placement d)) "") as [Hn|Hn].
    { rewrite option_guard_False by naive_solver. by eexists. }
    rewrite option_guard_True by done. simpl. by destruct (en_pos e).
  - destruct Hs as (Hty & Hd). lifecycle_branch Hty. rewrite Hd. cbn [mbind result_bind]. simpl.
    rewrite Hne. destruct (c !! name); simpl; by destruct (en_pos e).
  - destruct Hs as (Hty & Hd). lifecycle_branch Hty. rewrite Hd. cbn [mbind result_bind]. simpl.
    rewrite Hne. destruct (c !! name) as [b|] eqn:E; simpl; [|done].
    destruct (String.eqb_spec error "") as [->|Hn]; [by eexists|].
    rewrite option_guard_True by done. simpl. case_decide; simpl.
    + by rewrite insert_id.
    + by destruct (en_pos e).
Qed.

Lemma set_boundary_lookup c name o name' :
  (o = None → c !! name = None) →
  set_boundary c name o !! name' = if decide (name' = name) then o else c !! name'.
Proof.
  intros Ho. unfold set_boundary. destruct o as [b|]; case_decide; subst.
  - by rewrite lookup_insert_eq.
  - by rewrite lookup_insert_ne.
  - by apply Ho.
  - done.
Qed.

Lemma step_None o p v : step o p v = Some None → o = None.
Proof.
  destruct v as [d| |error], o as [b|]; simpl; intros H; try done.
  by destruct (decide (error ≠ "")); [rewrite option_guard_True in H|rewrite option_guard_False in H].
Qed.

(** The fold over what entries say about one boundary. *)
Lemma catalog_says c name l :
  name ≠ "" → Forall (λ ev, says name ev.1 ev.2) l →
  match steps (c !! name) l with
  | Some o => ∃ c', catalog_of c l.*1 = Ok c'
      ∧ ∀ name', c' !! name' = if decide (name' = name) then o else c !! name'
  | None => ∃ err, catalog_of c l.*1 = Err err
  end.
Proof.
  intros Hne H. revert c. induction H as [|[e v] l Hs _ IH]; intros c; simpl.
  { exists c. split; [done|]. intros name'. by case_decide; subst. }
  pose proof (apply_says c name e v Hne Hs) as Ha.
  destruct (step (c !! name) (en_pos e) v) as [o|] eqn:Hst; simpl.
  2:{ destruct Ha as [err ->]. by eexists. }
  rewrite Ha. cbn [mbind result_bind]. simpl.
  assert (o = None → c !! name = None) as Ho by (intros ->; by eapply step_None).
  specialize (IH (set_boundary c name o)).
  rewrite (set_boundary_lookup _ _ _ name Ho), decide_True in IH by done.
  destruct (steps o l) as [o'|]; [|done]. destruct IH as (c' & Hc & Hl). exists c'.
  split; [done|]. intros name'. rewrite Hl. case_decide; [done|].
  by rewrite set_boundary_lookup, decide_False.
Qed.

(** ** The catalog of one boundary, from its last events *)

Definition is_LCreated (v : lifecycle_event) : bool :=
  match v with LCreated _ => true | _ => false end.
Definition is_LActivated (v : lifecycle_event) : bool :=
  match v with LActivated => true | _ => false end.
Definition is_LFailed (v : lifecycle_event) : bool :=
  match v with LFailed _ => true | _ => false end.
Definition failure (v : lifecycle_event) : option string :=
  match v with LFailed error => Some error | _ => None end.

(** The last event of a kind, the last activation and the last failure of a list. *)
Definition last_where (K : lifecycle_event → bool) (l : list (entry * lifecycle_event))
  : option (entry * lifecycle_event) := last (filter (λ ev, K ev.2 = true) l).
Definition last_active (l : list (entry * lifecycle_event)) : option entry :=
  fst <$> last_where is_LActivated l.
Definition last_failed (l : list (entry * lifecycle_event)) : option (entry * string) :=
  ev ← last_where is_LFailed l; (λ error, (ev.1, error)) <$> failure ev.2.

Lemma last_where_snoc K l ev :
  last_where K (l ++ [ev]) = if K ev.2 then Some ev else last_where K l.
Proof.
  unfold last_where. rewrite filter_app. destruct (K ev.2) eqn:E.
  - by rewrite filter_cons_True, filter_nil, last_snoc.
  - rewrite filter_cons_False by congruence. by rewrite filter_nil, app_nil_r.
Qed.

(** The boundary defined at [p] with the outcomes of [post]. *)
Definition summary (d : BoundaryCreated) (p : Position) (active : option entry)
    (failed : option (entry * string)) : Boundary :=
  let at_status status error q :=
    mkBoundary (BC_Boundary d) (BC_Description d) (BC_Placement d) status error (Some p) (Some q) in
  match active, failed with
  | Some a, _ => at_status StatusActive "" (en_pos a)
  | None, Some (f, error) => at_status StatusFailed error (en_pos f)
  | None, None => at_status StatusProvisioning "" p
  end.

Record defined (l : list (entry * lifecycle_event)) (b : Boundary)
    (pre : list (entry * lifecycle_event)) (e : entry) (d : BoundaryCreated)
    (post : list (entry * lifecycle_event)) : Prop := {
  df_split : l = pre ++ (e, LCreated d) :: post;
  df_only : Forall (λ ev, is_LCreated ev.2 = false) (pre ++ post);
  df_placed : placed (BC_Placement d);
  df_errors : Forall (λ ev, failure ev.2 ≠ Some "") post;
  df_boundary : b = summary d (en_pos e) (last_active post) (last_failed post) }.

Lemma steps_None l :
  steps None l = Some None → Forall (λ ev, is_LCreated ev.2 = false) l.
Proof.
  induction l as [|[e v] l IH]; [by constructor|]. simpl.
  destruct (step None (en_pos e) v) as [o|] eqn:E; [|done]. simpl. intros H.
  destruct v as [d| |error]; simpl in E.
  - destruct (decide (placed (BC_Placement d))) as [Hp|Hp];
      [rewrite option_guard_True in E by done|by rewrite option_guard_False in E].
    injection E as <-. exfalso. clear IH. revert H. generalize (mkBoundary (BC_Boundary d)
      (BC_Description d) (BC_Placement d) StatusProvisioning "" (Some (en_pos e))
      (Some (en_pos e))). induction l as [|[f w] l IH]; intros b H; [done|]. simpl in H.
    destruct (step (Some b) (en_pos f) w) as [[b'|]|] eqn:E; [by eapply IH| |done].
    by apply step_None in E.
  - injection E as <-. constructor; [done|]. by apply IH.
  - injection E as <-. constructor; [done|]. by apply IH.
Qed.

Lemma steps_defined l b :
  steps None l = Some (Some b) → ∃ pre e d post, defined l b pre e d post.
Proof.
  revert b. induction l as [|[f w] l IH] using rev_ind; intros b H; [done|].
  rewrite steps_app in H. destruct (steps None l) as [[b0|]|] eqn:E; [| |done]; simpl in H.
  - destruct (IH _ eq_refl) as (pre & e & d & post & [-> Ho Hp He Hb]).
    exists pre, e, d, (post ++ [(f, w)]).
    destruct (step (Some b0) (en_pos f) w) as [[b1|]|] eqn:Es; simplify_eq/=.
    assert (is_LCreated w = false ∧ failure w ≠ Some "" ∧
      b = summary d (en_pos e) (last_active (post ++ [(f, w)])) (last_failed (post ++ [(f, w)])))
      as (Hw & Hf & Hsum).
    { unfold last_active, last_failed. rewrite !last_where_snoc.
      destruct w as [d'| |error]; simpl in Es; [done| |].
      - injection Es as <-. split_and!; [done..|]. simpl.
        unfold summary. by repeat case_match.
      - destruct (decide (error ≠ "")) as [Hne|Hne];
          [rewrite option_guard_True in Es by done|by rewrite option_guard_False in Es].
        injection Es as <-. split_and!; [done|simpl; congruence|]. simpl.
        unfold summary. fold (last_active post).
        fold (last_failed post). destruct (last_active post); [done|].
        destruct (last_failed post) as [[]|]; done. }
    constructor.
    + by rewrite <-app_assoc.
    + rewrite app_assoc. apply Forall_app. split; [done|]. by constructor.
    + done.
    + apply Forall_app. split; [done|]. by constructor.
    + done.
  - apply steps_None in E. destruct w as [d| |error]; simpl in H; [|done|done].
    destruct (decide (placed (BC_Placement d))) as [Hp|Hp];
      [rewrite option_guard_True in H by done|by rewrite option_guard_False in H].
    injection H as <-. exists l, f, d, []. constructor; [done| |done|constructor|done].
    by rewrite app_nil_r.
Qed.

(** ** Reading what entries say *)

Definition about (name ty : string) `{T : SqlText} (doc : gmap string json) : bool :=
  field_is doc "boundary" name && field_is doc "__eventType" ty.

Section Says.
Context `{J : GoJson, T : SqlText}.

Lemma lifecycle_about name e :
  name ≠ "" → lifecycle name e = existsb (λ ty, about name ty (en_doc e)) lifecycle_types.
Proof.
  intros Hne%String.eqb_neq. rewrite lifecycle_eq, Hne. unfold about. simpl.
  by rewrite !(andb_comm (field_is (en_doc e) "boundary" name)).
Qed.

Lemma string_member_is doc key s value :
  plain_key key = true → field_is doc key value = true → string_member doc key = Ok s → s = value.
Proof.
  intros Hp. rewrite field_is_eq. unfold scalar_text, path_value, string_member. rewrite Hp.
  destruct (doc !! key) as [v|]; [|done].
  destruct v as [| | |t| |]; try done. unfold compare_holds. simpl.
  rewrite strings_Compare_zero. intros ->%String.eqb_eq. by intros [= ->].
Qed.

Lemma applied_says c name e x :
  name ≠ "" → lifecycle name e = true → is_Some (text_field (en_doc e) "__eventType") →
  apply_entry c e = Ok x → ∃ v, says name e v.
Proof.
  intros Hne Hl [ty Hty] Ha. destruct (lifecycle_type _ _ _ Hty Hl) as [He Hin].
  assert (field_is (en_doc e) "boundary" name = true) as Hb.
  { rewrite lifecycle_about in Hl by done. apply existsb_exists in Hl as (ty' & _ & Hf).
    by apply andb_true_iff in Hf as [? _]. }
  subst ty. unfold lifecycle_types in Hin. rewrite !elem_of_cons, elem_of_nil in Hin.
  destruct Hin as [Ht|[Ht|[Ht|[]]]]; revert Ha; lifecycle_branch Ht; intros Ha;
    apply result_bind_ok in Ha as (d & Hd & _).
  - destruct (created_members (en_doc e)) as [d'|] eqn:Hm; [|done]. exists (LCreated d').
    split_and!; [done..|]. unfold created_members in Hm.
    apply result_bind_ok in Hm as (s & Hs & Hm). inv_ok.
    unfold mret, result_ret in Hm. injection Hm as <-. simpl. by eapply (string_member_is _ "boundary").
  - destruct (activated_members (en_doc e)) as [d'|] eqn:Hm; [|done]. exists LActivated.
    split; [done|]. rewrite Hm. unfold activated_members in Hm.
    apply result_bind_ok in Hm as (s & Hs & [= <-]). f_equal. f_equal. by eapply (string_member_is _ "boundary").
  - destruct (failed_members (en_doc e)) as [[s' err]|] eqn:Hm; [|done]. exists (LFailed err).
    split; [done|]. rewrite Hm. unfold failed_members in Hm.
    apply result_bind_ok in Hm as (s & Hs & Hm). apply result_bind_ok in Hm as (er & _ & [= <- <-]).
    f_equal. f_equal. by eapply (string_member_is _ "boundary").
Qed.

Lemma catalog_ok_says c name es c' :
  name ≠ "" → Forall (λ e, lifecycle name e = true ∧ is_Some (text_field (en_doc e) "__eventType")) es →
  catalog_of c es = Ok c' → ∃ l, es = l.*1 ∧ Forall (λ ev, says name ev.1 ev.2) l.
Proof.
  intros Hne H. revert c. induction H as [|e es [Hl Ht] _ IH]; intros c Hc.
  { exists []. by split. }
  simpl in Hc. apply result_bind_ok in Hc as (x & Hx & Hc).
  destruct (applied_says _ _ _ _ Hne Hl Ht Hx) as [v Hv].
  destruct (IH _ Hc) as (l & -> & Hf). exists ((e, v) :: l). split; [done|]. by constructor.
Qed.

End Says.

(** ** The context of a provisioning command *)

Lemma entry_lt_same l e f :
  StronglySorted entry_lt l → e ∈ l → f ∈ l → en_pos e = en_pos f → e = f.
Proof.
  intros Hs. induction Hs as [|g l _ IH Hg]; [by intros ?%elem_of_nil|].
  rewrite Forall_forall in Hg. unfold entry_lt in Hg.
  rewrite !elem_of_cons. intros [->|He] [->|Hf] Hp; [done| | |by apply IH].
  - apply Hg in Hf. rewrite Hp in Hf. by apply pos_lt_irrefl in Hf.
  - apply Hg in He. rewrite Hp in He. by apply pos_lt_irrefl in He.
Qed.

(** The last of a kind is the greatest of it. *)
Lemma last_where_max K l a v :
  StronglySorted entry_lt l.*1 → last_where K l = Some (a, v) →
  (a, v) ∈ l ∧ K v = true ∧ ∀ f w, (f, w) ∈ l → K w = true → pos_le (en_pos f) (en_pos a).
Proof.
  intros Hs. induction l as [|ev l IH] using rev_ind; [done|].
  rewrite fmap_app in Hs. rewrite last_where_snoc. destruct (K ev.2) eqn:E.
  - intros [= ->]. split_and!; [apply elem_of_app; right; left|done|].
    intros f w [Hf|Hf]%elem_of_app _; [|apply list_elem_of_singleton in Hf as [= -> ->]; by right].
    left. eapply (StronglySorted_app_1_elem_of entry_lt); [exact Hs| |left].
    apply list_elem_of_fmap. by exists (f, w).
  - intros H. apply StronglySorted_app_1_l in Hs. destruct (IH Hs H) as (Hin & Hk & Hm).
    split_and!; [apply elem_of_app; by left|done|]. intros f w [Hf|Hf]%elem_of_app Hw; [by eapply Hm|].
    apply list_elem_of_singleton in Hf as <-. simpl in E. congruence.
Qed.

Lemma last_where_elem K l a v :
  last_where K l = Some (a, v) → (a, v) ∈ l ∧ K v = true.
Proof.
  unfold last_where. intros [k Hk]%last_Some.
  assert ((a, v) ∈ filter (λ ev : entry * lifecycle_event, K ev.2 = true) l) as Hin.
  { rewrite Hk. apply elem_of_app. right. left. }
  by apply list_elem_of_filter in Hin as [? ?].
Qed.

Lemma last_where_None K l f w : last_where K l = None → (f, w) ∈ l → K w = false.
Proof.
  unfold last_where. intros H%last_None Hin. destruct (K w) eqn:E; [|done].
  assert ((f, w) ∈ filter (λ ev : entry * lifecycle_event, K ev.2 = true) l) as Hf
    by by apply list_elem_of_filter.
  rewrite H in Hf. by apply elem_of_nil in Hf.
Qed.

Section Latest.
Context `{J : GoJson, T : SqlText}.

(** The entries of a log and what they say about [name]. *)
Record reads_lifecycle (name : string) (log : list entry) (l : list (entry * lifecycle_event))
  : Prop := {
  rl_name : name ≠ "";
  rl_log : lifecycle_log name log = l.*1;
  rl_says : Forall (λ ev, says name ev.1 ev.2) l;
  rl_sorted : StronglySorted entry_lt l.*1;
  rl_typed : ∀ e, e ∈ log → is_Some (text_field (en_doc e) "__eventType") }.

Lemma about_type name ty e :
  is_Some (text_field (en_doc e) "__eventType") → about name ty (en_doc e) = true →
  entry_type e = ty.
Proof.
  intros [ty' Hty] [_ Hf]%andb_true_iff. unfold entry_type. rewrite Hty. simpl.
  rewrite (field_is_string _ _ ty') in Hf by (done || by apply text_field_string).
  by apply bool_decide_eq_true in Hf.
Qed.

(** The entries about [name] of a kind are those of the list of that kind. *)
Lemma about_reads name log l K ty e :
  reads_lifecycle name log l → ty ∈ lifecycle_types →
  (∀ f w, says name f w → K w = true ↔ entry_type f = ty) →
  (e ∈ log ∧ about name ty (en_doc e) = true ↔ ∃ v, (e, v) ∈ l ∧ K v = true).
Proof.
  intros [Hne Hlog Hsays _ Hty] Hin HK. rewrite Forall_forall in Hsays. split.
  - intros [He Ha]. assert (e ∈ l.*1) as Hel.
    { rewrite <-Hlog. apply list_elem_of_filter. split; [|done].
      rewrite lifecycle_about by done. apply existsb_exists. exists ty.
      by rewrite <-list_elem_of_In. }
    apply list_elem_of_fmap in Hel as ([f v] & Heq & Hv). simpl in Heq. subst f.
    exists v. split; [done|]. apply (HK e v); [by apply (Hsays (e, v))|].
    by eapply about_type; [apply Hty|].
  - intros (v & Hv & Hk). assert (e ∈ lifecycle_log name log) as He.
    { rewrite Hlog. apply list_elem_of_fmap. by exists (e, v). }
    apply list_elem_of_filter in He as [Hl He]. split; [done|].
    apply (HK e v (Hsays (e, v) Hv)) in Hk. rewrite lifecycle_about in Hl by done.
    apply existsb_exists in Hl as (ty' & _ & Ha). rewrite <-Hk.
    by rewrite (about_type _ _ _ (Hty _ He) Ha).
Qed.

(** What the latest event of a kind is, seen from the definition at [e]. *)
Lemma latest_after name log l b pre e d post K ty m :
  reads_lifecycle name log l → defined l b pre e d post → ty ∈ lifecycle_types →
  (∀ f w, says name f w → K w = true ↔ entry_type f = ty) → K (LCreated d) = false →
  latest_of log (about name ty) m →
  match last_where K post with
  | Some (a, v) => ∃ ev, m = Some ev ∧ event_of a ev ∧ pos_lt (en_pos e) (en_pos a)
  | None => ∀ ev, m = Some ev → core.EventType ev = ty ∧ ¬ pos_lt (en_pos e) (core.Pos ev)
  end.
Proof.
  intros Hr Hd Hin HK Hkc Hm. pose proof (df_split _ _ _ _ _ _ Hd) as Hl.
  pose proof (rl_sorted _ _ _ Hr) as Hs. rewrite Hl, fmap_app, fmap_cons in Hs. simpl in Hs.
  assert (∀ f w, (f, w) ∈ post → pos_lt (en_pos e) (en_pos f)) as Hafter.
  { intros f w Hf. apply StronglySorted_app_1_r, StronglySorted_inv in Hs as [_ Hs].
    rewrite Forall_forall in Hs. apply Hs, list_elem_of_fmap. by exists (f, w). }
  assert (∀ f w, (f, w) ∈ pre → pos_lt (en_pos f) (en_pos e)) as Hbefore.
  { intros f w Hf. eapply (StronglySorted_app_1_elem_of entry_lt); [exact Hs| |left].
    apply list_elem_of_fmap. by exists (f, w). }
  assert (StronglySorted entry_lt post.*1) as Hsp
    by by apply StronglySorted_app_1_r, StronglySorted_inv in Hs as [Hs _].
  destruct m as [ev|]; simpl in Hm.
  - destruct Hm as (a0 & Ha0 & Hab & Hev & Hmax).
    destruct (proj1 (about_reads _ _ _ K ty a0 Hr Hin HK) (conj Ha0 Hab)) as (v0 & Hv0 & Hk0).
    rewrite Hl, elem_of_app, elem_of_cons in Hv0.
    destruct (last_where K post) as [[a v]|] eqn:E.
    + destruct (last_where_max _ _ _ _ Hsp E) as (Hav & Hkv & Hamax).
      destruct (proj2 (about_reads _ _ _ K ty a Hr Hin HK)) as [Hal Haa].
      { exists v. split; [|done]. rewrite Hl, elem_of_app, elem_of_cons. auto. }
      pose proof (Hmax a Hal Haa) as Hle. exists ev. split; [done|].
      destruct Hv0 as [Hp|[[= -> ->]|Hp]]; [| by rewrite Hkc in Hk0|].
      * exfalso. apply pos_not_lt in Hle. apply Hle.
        etransitivity; [by eapply Hbefore|by eapply Hafter].
      * assert (a0 = a) as ->; [|by eauto].
        eapply (entry_lt_same post.*1); [done|apply list_elem_of_fmap; by exists (a0, v0)|
          apply list_elem_of_fmap; by exists (a, v)|].
        apply (anti_symm pos_le); [by eapply Hamax|done].
    + intros ev' [= <-]. rewrite (eo_type _ _ Hev), (eo_pos _ _ Hev). split.
      { eapply about_type; [by apply (rl_typed _ _ _ Hr)|done]. }
      destruct Hv0 as [Hp|[[= -> ->]|Hp]].
      * intros Hlt. apply (pos_lt_irrefl (en_pos e)). etransitivity; [done|by eapply Hbefore].
      * by rewrite Hkc in Hk0.
      * by rewrite (last_where_None _ _ _ _ E Hp) in Hk0.
  - destruct (last_where K post) as [[a v]|] eqn:E; [|done]. exfalso.
    destruct (last_where_max _ _ _ _ Hsp E) as (Hav & Hkv & _).
    destruct (proj2 (about_reads _ _ _ K ty a Hr Hin HK)) as [Hal Haa].
    { exists v. split; [|done]. rewrite Hl, elem_of_app, elem_of_cons. auto. }
    by rewrite (Hm a Hal) in Haa.
Qed.

End Latest.

(** Sorting events by position. *)
Definition event_lt (a b : core.ReadEvent) : Prop := pos_lt (core.Pos a) (core.Pos b).

Lemma sorted_events_unique l k :
  StronglySorted event_lt l → StronglySorted event_le k → l ≡ₚ k → l = k.
Proof.
  intros Hl. revert k. induction Hl as [|x l Hl IH Hx]; intros k Hk Hp.
  { by apply Permutation_nil_l in Hp. }
  destruct Hk as [|y k Hk Hy]; [by apply Permutation_nil_r in Hp|].
  assert (x = y) as <-.
  { assert (y ∈ x :: l) as Hyl by (rewrite Hp; left).
    apply elem_of_cons in Hyl as [->|Hyl]; [done|]. exfalso.
    assert (x ∈ y :: k) as Hxk by (rewrite <-Hp; left).
    rewrite Forall_forall in Hx. specialize (Hx _ Hyl). unfold event_lt in Hx.
    apply elem_of_cons in Hxk as [->|Hxk]; [by apply pos_lt_irrefl in Hx|].
    rewrite Forall_forall in Hy. specialize (Hy _ Hxk). unfold event_le in Hy.
    by apply pos_not_lt in Hy. }
  f_equal. apply IH; [done|]. by apply Permutation_cons_inv in Hp.
Qed.

#[export] Instance event_le_total : Total event_le.
Proof. intros a b. unfold event_le. apply total, _. Qed.
#[export] Instance event_le_trans : Transitive event_le.
Proof. intros a b c. unfold event_le. apply transitivity. Qed.

Lemma sort_events l k : StronglySorted event_lt l → l ≡ₚ k → merge_sort event_le k = l.
Proof.
  intros Hl Hp. symmetry. apply sorted_events_unique; [done| |].
  - by apply (StronglySorted_merge_sort event_le).
  - by rewrite merge_sort_Permutation.
Qed.

Section Context.
Context `{J : GoJson, T : SqlText}.

Lemma apply_events_says c name l evs :
  name ≠ "" → Forall (λ ev, says name ev.1 ev.2) l → Forall2 event_of l.*1 evs →
  ∀ o, steps (c !! name) l = Some o → ∃ c', apply_events c evs = Ok c' ∧ c' !! name = o.
Proof.
  intros Hne Hs. revert c evs. induction Hs as [|[e v] l Hev _ IH]; intros c evs He o Ho.
  { apply Forall2_nil_inv_l in He as ->. injection Ho as <-. by exists c. }
  rewrite fmap_cons in He. apply Forall2_cons_inv_l in He as (ev & evs' & Heo & He & ->).
  simpl in Ho, Hev, Heo. pose proof (apply_says c name e v Hne Hev) as Ha. simpl.
  destruct (step (c !! name) (en_pos e) v) as [o1|] eqn:Hst; [|done]. simpl in Ho.
  rewrite (Catalog_Apply_entry _ _ _ Heo), Ha. apply IH; [done|].
  rewrite set_boundary_lookup, decide_True by (done || (intros ->; by eapply step_None)). done.
Qed.

(** The events of one kind that the context keeps. *)
Definition after_definition (definition : core.ReadEvent) (m : option core.ReadEvent)
  : list core.ReadEvent :=
  filter (λ e, negb (is_created e) && Position_After (core.Pos e) (core.Pos definition) = true)
    (option_list m).

Lemma after_definition_spec name log l b pre e d post K ty m ev1 :
  reads_lifecycle name log l → defined l b pre e d post → ty ∈ lifecycle_types →
  ty ≠ EventTypeBoundaryCreated →
  (∀ f w, says name f w → K w = true ↔ entry_type f = ty) → K (LCreated d) = false →
  latest_of log (about name ty) m → event_of e ev1 →
  match last_where K post with
  | Some (a, v) => ∃ ev, after_definition ev1 m = [ev] ∧ event_of a ev
      ∧ pos_lt (en_pos e) (en_pos a) ∧ (a, v) ∈ l ∧ K v = true
  | None => after_definition ev1 m = []
  end.
Proof.
  intros Hr Hd Hin Hty HK Hkc Hm He1.
  pose proof (latest_after _ _ _ _ _ _ _ _ _ _ _ Hr Hd Hin HK Hkc Hm) as Hl.
  unfold after_definition. destruct (last_where K post) as [[a v]|] eqn:E.
  - destruct Hl as (ev & -> & Ha & Hlt). apply last_where_elem in E as [Hav Hkv].
    assert ((a, v) ∈ l) as Hal
      by (rewrite (df_split _ _ _ _ _ _ Hd), elem_of_app, elem_of_cons; auto).
    pose proof (rl_says _ _ _ Hr) as Hsay. rewrite Forall_forall in Hsay.
    exists ev. simpl. rewrite filter_cons_True; [by split_and!|].
    apply andb_true_iff. split.
    + apply negb_true_iff. unfold is_created. apply String.eqb_neq. rewrite (eo_type _ _ Ha).
      by rewrite (proj1 (HK a v (Hsay (a, v) Hal))).
    + apply Position_After_spec. by rewrite (eo_pos _ _ Ha), (eo_pos _ _ He1).
  - destruct m as [ev|]; [|done]. simpl. rewrite filter_cons_False; [done|].
    destruct (Hl ev eq_refl) as [_ Hn]. intros [_ Ha]%andb_true_iff.
    apply Position_After_spec in Ha. by rewrite (eo_pos _ _ He1) in Ha.
Qed.

Lemma context_events_eq ev1 m2 m3 :
  is_created ev1 = true →
  context_events ev1 (omap id [Some ev1; m2; m3])
  = merge_sort event_le (ev1 :: after_definition ev1 m2 ++ after_definition ev1 m3).
Proof.
  intros Hc. unfold context_events, after_definition. do 2 f_equal.
  change (omap id [Some ev1; m2; m3]) with (ev1 :: omap id [m2; m3]).
  rewrite filter_cons_False by by rewrite Hc. rewrite <-filter_app. f_equal.
  by destruct m2, m3.
Qed.

(** The kinds of the outcomes, by their types. *)
Lemma says_kinds name e v :
  says name e v →
  (is_LCreated v = true ↔ entry_type e = EventTypeBoundaryCreated)
  ∧ (is_LActivated v = true ↔ entry_type e = EventTypeBoundaryActivated)
  ∧ (is_LFailed v = true ↔ entry_type e = EventTypeBoundaryFailed).
Proof. destruct v; intros [-> _]; done. Qed.

Lemma steps_created name e d q :
  says name e (LCreated d) → placed (BC_Placement d) →
  steps None ((e, LCreated d) :: q)
  = steps (Some (summary d (en_pos e) None None)) q.
Proof. intros _ Hp. simpl. by rewrite option_guard_True by done. Qed.

(** A context rebuilt from events in their order. *)
Lemma sorted_context name q evs k b :
  Forall (λ ev, says name ev.1 ev.2) q → Forall2 event_of q.*1 evs →
  StronglySorted entry_lt q.*1 → evs ≡ₚ k → steps None q = Some (Some b) →
  ∃ q, Forall (λ ev, says name ev.1 ev.2) q ∧ Forall2 event_of q.*1 (merge_sort event_le k)
    ∧ steps None q = Some (Some b).
Proof.
  intros Hs He Hq Hp Hst. exists q. split_and!; [done| |done]. rewrite (sort_events evs); [done| |done].
  clear Hs Hp Hst. revert evs He. induction Hq as [|e l Hl IH Hf]; intros evs He.
  { apply Forall2_nil_inv_l in He as ->. constructor. }
  apply Forall2_cons_inv_l in He as (ev & evs' & Hev & He & ->). constructor; [by apply IH|].
  clear IH Hl. induction He as [|f fv l evs Hfv _ IH]; [constructor|].
  apply Forall_cons in Hf as [Hef Hf]. constructor; [|by apply IH].
  unfold event_lt. by rewrite (eo_pos _ _ Hev), (eo_pos _ _ Hfv).
Qed.

Lemma failed_nonempty l b pre e d post f error :
  defined l b pre e d post → last_where is_LFailed post = Some (f, LFailed error) → error ≠ "".
Proof.
  intros Hd [Hin _]%last_where_elem. pose proof (df_errors _ _ _ _ _ _ Hd) as H.
  rewrite Forall_forall in H. specialize (H _ Hin). simpl in H. congruence.
Qed.

Ltac context_lists :=
  rewrite ?fmap_cons, ?fmap_nil;
  repeat first [apply Forall_cons; split; [done|] | apply Forall_nil; done
    | apply Forall2_cons; split; [done|] | apply Forall2_nil; done
    | apply SSorted_cons | apply SSorted_nil].

(** The definition and the outcomes that are kept, in order, give the summary. *)
Lemma context_steps name log l b pre e d post m2 m3 ev1 :
  reads_lifecycle name log l → defined l b pre e d post → event_of e ev1 →
  latest_of log (about name EventTypeBoundaryActivated) m2 →
  latest_of log (about name EventTypeBoundaryFailed) m3 →
  ∃ q, Forall (λ ev, says name ev.1 ev.2) q
    ∧ Forall2 event_of q.*1 (context_events ev1 (omap id [Some ev1; m2; m3]))
    ∧ steps None q = Some (Some b).
Proof.
  intros Hr Hd He Hm2 Hm3. pose proof (rl_says _ _ _ Hr) as Hsays. rewrite Forall_forall in Hsays.
  assert (says name e (LCreated d)) as Hse.
  { apply (Hsays (e, LCreated d)). rewrite (df_split _ _ _ _ _ _ Hd), elem_of_app, elem_of_cons.
    auto. }
  rewrite context_events_eq.
  2:{ unfold is_created. rewrite (eo_type _ _ He). destruct Hse as [-> _]. done. }
  pose proof (after_definition_spec name log l b pre e d post is_LActivated
    EventTypeBoundaryActivated m2 ev1 Hr Hd ltac:(set_solver) ltac:(done)
    (λ f w Hf, proj1 (proj2 (says_kinds _ _ _ Hf))) eq_refl Hm2 He) as H2.
  pose proof (after_definition_spec name log l b pre e d post is_LFailed
    EventTypeBoundaryFailed m3 ev1 Hr Hd ltac:(set_solver) ltac:(done)
    (λ f w Hf, proj2 (proj2 (says_kinds _ _ _ Hf))) eq_refl Hm3 He) as H3.
  pose proof (df_placed _ _ _ _ _ _ Hd) as Hpl. rewrite (df_boundary _ _ _ _ _ _ Hd).
  unfold last_active, last_failed.
  destruct (last_where is_LActivated post) as [[a va]|] eqn:EA;
    [destruct H2 as (eva & -> & Ha & Hla & Hal & Hka); destruct va; try done;
     pose proof (Hsays _ Hal) as Hsa|rewrite H2];
    (destruct (last_where is_LFailed post) as [[f vf]|] eqn:EF;
    [destruct H3 as (evf & -> & Hf & Hlf & Hfl & Hkf); destruct vf as [| |error]; try done;
     pose proof (Hsays _ Hfl) as Hsf; pose proof (failed_nonempty _ _ _ _ _ _ _ _ Hd EF)
    |rewrite H3]).
  - destruct (trichotomy pos_lt (en_pos a) (en_pos f)) as [Hlt|[Heq|Hlt]].
    + apply (sorted_context name [(e, LCreated d); (a, LActivated); (f, LFailed error)]
        [ev1; eva; evf]); [context_lists..|done|].
      rewrite (steps_created name) by done. simpl. by rewrite option_guard_True.
    + exfalso. assert (a = f) as ->.
      { eapply (entry_lt_same l.*1); [apply (rl_sorted _ _ _ Hr)| | |done];
          apply list_elem_of_fmap; [by eexists (a, _)|by eexists (f, _)]. }
      destruct Hsa as [Ht1 _], Hsf as [Ht2 _]. simpl in Ht1, Ht2. by rewrite Ht1 in Ht2.
    + apply (sorted_context name [(e, LCreated d); (f, LFailed error); (a, LActivated)]
        [ev1; evf; eva]); [context_lists..|apply perm_skip, perm_swap|].
      rewrite (steps_created name) by done. simpl. by rewrite option_guard_True.
  - apply (sorted_context name [(e, LCreated d); (a, LActivated)] [ev1; eva]);
      [context_lists..|done|]. by rewrite (steps_created name).
  - apply (sorted_context name [(e, LCreated d); (f, LFailed error)] [ev1; evf]);
      [context_lists..|done|]. rewrite (steps_created name) by done. simpl.
    by rewrite option_guard_True.
  - apply (sorted_context name [(e, LCreated d)] [ev1]); [context_lists..|done|].
    by rewrite (steps_created name).
Qed.

End Context.

(** ** The handlers against the contract *)

Lemma criterion_sees_about `{T : SqlText} name ty doc :
  criterion_sees (boundary_criterion name ty) doc = about name ty doc.
Proof. unfold criterion_sees, about, field_is. simpl. by rewrite andb_true_r. Qed.

Section Contract.
Context `{J : GoJson, T : SqlText} {B : Type}.
Context (admin : string) (appender : EventAppender B) (latest : LatestByCriteriaRetriever B)
  (retriever : DefinitionEventsRetriever B) `{E : !EventLog admin appender latest retriever}.

Definition lifecycle_request (name : string) : core.LatestByCriteriaRequest :=
  core.mkLatestRequest admin (lifecycleCriteria name).

Lemma lifecycle_matches ctx name b res :
  log_good b → LatestByCriteria latest ctx (lifecycle_request name) b = Ok res →
  ∃ m1 m2 m3, core.Matches res = [m1; m2; m3]
    ∧ latest_of (log_of b) (about name EventTypeBoundaryCreated) m1
    ∧ latest_of (log_of b) (about name EventTypeBoundaryActivated) m2
    ∧ latest_of (log_of b) (about name EventTypeBoundaryFailed) m3.
Proof.
  intros Hg H. apply el_latest in H as [H _]; [|done..]. simpl in H.
  apply Forall2_cons_inv_l in H as (m1 & k & H1 & H & ->).
  apply Forall2_cons_inv_l in H as (m2 & k2 & H2 & H & ->).
  apply Forall2_cons_inv_l in H as (m3 & k3 & H3 & H & ->).
  apply Forall2_nil_inv_l in H as ->. exists m1, m2, m3.
  split_and!; [done|..]; (eapply latest_of_ext; [|done]); intros doc; apply criterion_sees_about.
Qed.

Lemma latest_type name ty l m ev :
  (∀ e, e ∈ l → is_Some (text_field (en_doc e) "__eventType")) →
  latest_of l (about name ty) m → m = Some ev → core.EventType ev = ty.
Proof.
  intros Ht Hm ->. destruct Hm as (e & He & Ha & Hev & _). rewrite (eo_type _ _ Hev).
  eapply about_type; [by apply Ht|done].
Qed.

Lemma catalog_reads name b c :
  log_good b → name ≠ "" → catalog_of NewCatalog (lifecycle_log name (log_of b)) = Ok c →
  ∃ l, reads_lifecycle name (log_of b) l ∧ steps None l = Some (c !! name).
Proof.
  intros Hg Hne Hc. destruct (λ H, catalog_ok_says NewCatalog name _ c Hne H Hc) as (l & Hl & Hs).
  { apply Forall_forall. intros e [Hle He]%list_elem_of_filter. split; [done|].
    by eapply el_typed. }
  exists l. split.
  - constructor; [done|done|done| |].
    + rewrite <-Hl. by apply lifecycle_log_facts.
    + intros e. by apply el_typed.
  - pose proof (catalog_says NewCatalog name l Hne Hs) as Hcs.
    unfold NewCatalog in Hcs at 1. rewrite lookup_empty in Hcs. rewrite Hl in Hc.
    destruct (steps None l) as [o|].
    + destruct Hcs as (c' & Hc' & Hlk). rewrite Hc in Hc'. injection Hc' as <-.
      by rewrite Hlk, decide_True.
    + destruct Hcs as [err Herr]. by rewrite Hc in Herr.
Qed.

(** No match is a definition when the boundary is not defined. *)
Lemma created_none name b l m1 :
  reads_lifecycle name (log_of b) l → Forall (λ ev, is_LCreated ev.2 = false) l →
  latest_of (log_of b) (about name EventTypeBoundaryCreated) m1 → m1 = None.
Proof.
  intros Hr Hn Hm. destruct m1 as [ev|]; [|done]. exfalso.
  destruct Hm as (e & He & Ha & _).
  destruct (proj1 (about_reads name _ l is_LCreated EventTypeBoundaryCreated e Hr
    ltac:(set_solver) (λ f w Hf, proj1 (says_kinds _ _ _ Hf))) (conj He Ha)) as (v & Hv & Hk).
  rewrite Forall_forall in Hn. specialize (Hn _ Hv). simpl in Hn. congruence.
Qed.

Lemma created_found name b l bd pre e d post m1 :
  reads_lifecycle name (log_of b) l → defined l bd pre e d post →
  latest_of (log_of b) (about name EventTypeBoundaryCreated) m1 →
  ∃ ev, m1 = Some ev ∧ event_of e ev.
Proof.
  intros Hr Hd Hm.
  pose proof (about_reads name (log_of b) l is_LCreated EventTypeBoundaryCreated) as Hab.
  assert (∀ f w, says name f w →
    is_LCreated w = true ↔ entry_type f = EventTypeBoundaryCreated) as Hk
    by (intros f w Hf; apply (says_kinds _ _ _ Hf)).
  assert ((e, LCreated d) ∈ l) as Hel
    by (rewrite (df_split _ _ _ _ _ _ Hd), elem_of_app, elem_of_cons; auto).
  destruct (proj2 (Hab e Hr ltac:(set_solver) Hk)) as [He Ha]; [by eexists|].
  destruct m1 as [ev|]; [|by rewrite (Hm e He) in Ha].
  destruct Hm as (f & Hf & Hfa & Hev & _). exists ev. split; [done|].
  destruct (proj1 (Hab f Hr ltac:(set_solver) Hk) (conj Hf Hfa)) as (v & Hv & Hkv).
  assert (f = e) as ->; [|done]. rewrite (df_split _ _ _ _ _ _ Hd) in Hv.
  pose proof (df_only _ _ _ _ _ _ Hd) as Hon. rewrite Forall_forall in Hon.
  apply elem_of_app in Hv as [Hv|[[= -> _]|Hv]%elem_of_cons]; [|done|];
    (assert ((f, v) ∈ pre ++ post) as Hin by (apply elem_of_app; auto));
    specialize (Hon _ Hin); simpl in Hon; congruence.
Qed.

Definition no_definition : goerror :=
  Errorf FailedPrecondition "boundary %q has no definition event".

Lemma load_context_spec ctx name b c res :
  log_good b → name ≠ "" →
  catalog_of NewCatalog (lifecycle_log name (log_of b)) = Ok c →
  LatestByCriteria latest ctx (lifecycle_request name) b = Ok res →
  provision_loadContext ctx admin name latest b =
    match c !! name with
    | Some bd => Ok (mkProvisionContext bd (core.ContextPosition res)
                       (subsetQuery (lifecycleCriteria name)))
    | None => Err no_definition
    end.
Proof.
  intros Hg Hne Hc Hres. destruct (catalog_reads _ _ _ Hg Hne Hc) as (l & Hr & Hst).
  destruct (lifecycle_matches _ _ _ _ Hg Hres) as (m1 & m2 & m3 & Hm & H1 & H2 & H3).
  unfold provision_loadContext. unfold lifecycle_request in Hres. rewrite Hres.
  cbn [mbind result_bind]. rewrite Hm, decide_True by done.
  assert (∀ m ty ev, latest_of (log_of b) (about name ty) m → m = Some ev →
    is_created ev = String.eqb ty EventTypeBoundaryCreated) as Hty.
  { intros m ty ev Hml ->. unfold is_created. erewrite latest_type; [done| |exact Hml|done].
    intros e. by apply el_typed. }
  destruct (c !! name) as [bd|].
  - destruct (steps_defined _ _ Hst) as (pre & e & d & post & Hd).
    destruct (created_found _ _ _ _ _ _ _ _ _ Hr Hd H1) as (ev & -> & Hev).
    destruct (context_steps _ _ _ _ _ _ _ _ _ _ _ Hr Hd Hev H2 H3) as (q & Hqs & Hqe & Hq).
    assert (filter (λ e, is_created e = true) (omap id [Some ev; m2; m3])
      = ev :: filter (λ e, is_created e = true) (omap id [m2; m3])) as ->
      by (apply filter_cons_True; by rewrite (Hty _ _ _ H1 eq_refl)).
    destruct (apply_events_says NewCatalog name q _ Hne Hqs Hqe (Some bd)) as (c' & -> & Hc').
    { unfold NewCatalog. by rewrite lookup_empty. }
    cbn [mbind result_bind]. by rewrite Catalog_Get_lookup, Hc'.
  - apply steps_None in Hst. rewrite (created_none _ _ _ _ Hr Hst H1).
    assert (filter (λ e, is_created e = true) (omap id [None; m2; m3]) = []) as ->; [|done].
    apply list_filter_none. intros ev Hin Hcr.
    apply list_elem_of_omap in Hin as (m & Hin & Hid). simpl in Hid. subst m.
    rewrite !elem_of_cons, elem_of_nil in Hin. destruct Hin as [?|[<-|[<-|[]]]]; [done|..].
    + by rewrite (Hty _ _ _ H2 eq_refl) in Hcr.
    + by rewrite (Hty _ _ _ H3 eq_refl) in Hcr.
Qed.


(** Three events are enough. A provisioning command rebuilds its boundary from the last
definition, activation and failure of its name instead of the whole log; when the events of
that name fold into a catalog, it finds exactly the boundary of that catalog, with its
status, error and positions, or that there is none. *)
Theorem load_context_exact ctx name b c res :
  log_good b → name ≠ "" →
  catalog_of NewCatalog (lifecycle_log name (log_of b)) = Ok c →
  LatestByCriteria latest ctx (lifecycle_request name) b = Ok res →
  provision_loadContext ctx admin name latest b =
    match c !! name with
    | Some bd => Ok (mkProvisionContext bd (core.ContextPosition res)
                       (subsetQuery (lifecycleCriteria name)))
    | None => Err no_definition
    end.
Proof. apply load_context_spec. Qed.

End Contract.
