(* ===== verification/Provisioning.v ===== *)
(** * Writers of the boundary lifecycle

Any number of nodes define boundaries and record outcomes, each on what it read some time
before. Whatever the order of their appends, the events of a boundary keep the shape of its
lifecycle: one definition, at most one failure, at most one activation, and nothing after
the activation. Proved against the contract of the ports. *)

From stdpp Require Import options.
From S2P Require Import Prelude Status Model Number Json Predicates Consistency EventData.
From S2P Require Import WriteContext SqlPredicates Sql SqliteStore SqliteLog GroupCommit.
From S2P Require Import SqliteRead SqliteIndex EventStore Api Auth Users Neutral Catalog.
From S2P Require Import Boundaries Lifecycle.

Set Default Proof Using "Type*".

(** ** What an appended event stores *)

(** Entry [e] holds an event of type [ty] with the members [fs]. *)
Record holds (ty : string) (fs : list (string * json)) (e : entry) : Prop := {
  ho_type : text_field (en_doc e) "__eventType" = Some ty;
  ho_data : ∀ k, IsReservedKey k = false → en_doc e !! k = map_of_fields fs !! k }.

Lemma holds_type ty fs e : holds ty fs e → entry_type e = ty.
Proof. intros [Ht _]. unfold entry_type. by rewrite Ht. Qed.

Lemma holds_member ty fs e k v :
  holds ty fs e → IsReservedKey k = false → NoDup fs.*1 → (k, v) ∈ fs → en_doc e !! k = Some v.
Proof. intros [_ Hd] Hk Hn Hin. rewrite Hd by done. by apply map_of_fields_lookup. Qed.

Lemma map_of_fields_missing (fs : list (string * json)) k :
  k ∉ fs.*1 → map_of_fields fs !! k = None.
Proof.
  intros H. apply not_elem_of_list_to_map_1. by rewrite fmap_reverse, elem_of_reverse.
Qed.

Lemma holds_says_created d e :
  holds EventTypeBoundaryCreated (created_boundary_fields d) e →
  says (BC_Boundary d) e (LCreated d).
Proof.
  intros H. split_and!; [by eapply holds_type| |done].
  assert (NoDup (created_boundary_fields d).*1) as Hn
    by (unfold created_boundary_fields, omit_empty; destruct (String.eqb _ _);
        by apply (bool_decide_unpack _)).
  assert (string_member (en_doc e) "description" = Ok (BC_Description d)) as Hdesc.
  { unfold string_member. destruct (String.eqb_spec (BC_Description d) "") as [He|Hne].
    - rewrite (ho_data _ _ _ H), map_of_fields_missing by
        (try done; unfold created_boundary_fields, omit_empty; rewrite He; set_solver). by rewrite He.
    - rewrite (holds_member _ _ _ _ (JString (BC_Description d)) H); [done|done|done|].
      unfold created_boundary_fields, omit_empty.
      rewrite (proj2 (String.eqb_neq _ _) Hne). right. left. }
  assert (string_member (en_doc e) "boundary" = Ok (BC_Boundary d)) as Hb.
  { unfold string_member.
    by rewrite (holds_member _ _ _ _ (JString (BC_Boundary d)) H) by (done || left). }
  unfold created_members. rewrite Hb, Hdesc. cbn [mbind result_bind]. unfold placement_member.
  rewrite (holds_member _ _ _ _ (JObject [("backend", JString (Backend (BC_Placement d)));
    ("namespace", JString (Namespace (BC_Placement d)))]) H); [|done|done|].
  2:{ unfold created_boundary_fields. rewrite !elem_of_app. right; right. left. }
  by destruct d as [? ? []].
Qed.

Lemma holds_says_activated name e :
  holds EventTypeBoundaryActivated (activated_boundary_fields (mkBoundaryActivated name)) e →
  says name e LActivated.
Proof.
  intros H. split; [by eapply holds_type|]. unfold activated_members, string_member.
  rewrite (holds_member _ _ _ _ (JString name) H); [done|done| |left].
  by apply (bool_decide_unpack _).
Qed.

Lemma holds_says_failed name error e :
  holds EventTypeBoundaryFailed (failed_boundary_fields (mkBoundaryFailed name error)) e →
  says name e (LFailed error).
Proof.
  intros H. split; [by eapply holds_type|]. unfold failed_members, string_member.
  assert (NoDup (failed_boundary_fields (mkBoundaryFailed name error)).*1) as Hn
    by by apply (bool_decide_unpack _).
  rewrite (holds_member _ _ _ "boundary" (JString name) H) by (done || left). cbn [mbind result_bind].
  by rewrite (holds_member _ _ _ _ (JString error) H) by (done || (right; left)).
Qed.

(** An entry that says something about [name] is about no other boundary. *)
Lemma says_boundary name e v :
  name ≠ "" → says name e v → en_doc e !! "boundary" = Some (JString name).
Proof.
  intros Hne Hs.
  assert (string_member (en_doc e) "boundary" = Ok name) as Hm.
  { destruct v as [d| |error]; simpl in Hs.
    - destruct Hs as (_ & Hm & <-). unfold created_members in Hm.
      apply result_bind_ok in Hm as (s & -> & Hm). inv_ok.
      unfold mret, result_ret in Hm. by injection Hm as <-.
    - destruct Hs as (_ & Hm). unfold activated_members in Hm.
      apply result_bind_ok in Hm as (s & -> & [= <-]). done.
    - destruct Hs as (_ & Hm). unfold failed_members in Hm.
      apply result_bind_ok in Hm as (s & -> & Hm). by apply result_bind_ok in Hm as (? & _ & [= <- _]). }
  unfold string_member in Hm. destruct (en_doc e !! "boundary") as [[| | |s| |]|]; by simplify_eq/=.
Qed.

Lemma says_type name e v : says name e v → entry_type e ∈ lifecycle_types.
Proof. destruct v; intros [-> _]; set_solver. Qed.

Lemma says_fun name e v v' : says name e v → says name e v' → v = v'.
Proof.
  destruct v as [d| |x], v' as [d'| |x']; intros [Ht H] [Ht' H']; rewrite Ht in Ht'; try done.
  - destruct H as [H _], H' as [H' _]. congruence.
  - rewrite H in H'. congruence.
Qed.

Section Stored.
Context `{J : GoJson, L : !GoJsonLaws, T : SqlText}.

Lemma event_request_ok fmt admin ty eventID fs metadata q p request :
  event_request fmt admin ty eventID fs metadata q p = Ok request →
  ∃ id data meta, eventID = Ok id ∧ json_Marshal (JObject fs) = Ok data
    ∧ request = core.mkAppendRequest admin [core.mkEventToAppend id ty data meta]
                  [core.mkObservation q p].
Proof.
  unfold event_request, eventData. intros H. destruct eventID as [id|]; [|done].
  destruct (json_Marshal _) as [data|] eqn:Hd; [|done].
  destruct (marshal_object _) as [meta|]; [|done]. injection H as <-. eauto 8.
Qed.

Lemma stored_holds ty fs id data meta e :
  json_faithful (JObject fs) → json_Marshal (JObject fs) = Ok data →
  stored_as (core.mkEventToAppend id ty data meta) e → holds ty fs e.
Proof.
  intros Hf Hm [Ht (o & Ho & Hs)]. constructor; [done|]. intros k Hk. simpl in Ho.
  destruct (json_roundtrip _ Hf) as (text & Hm' & Hne & Hu). rewrite Hm in Hm'.
  injection Hm' as <-. destruct (String.eqb_spec data "") as [->|_]; [done|].
  unfold unmarshal_object in Ho. rewrite Hu in Ho. injection Ho as <-.
  symmetry. by apply Hs.
Qed.

Lemma says_lifecycle name e v name' :
  name ≠ "" → says name e v → is_Some (text_field (en_doc e) "__eventType") →
  lifecycle name' e = String.eqb name' "" || bool_decide (name = name').
Proof.
  intros Hne Hs [ty Hty]. rewrite lifecycle_eq. pose proof (says_type _ _ _ Hs) as Hin.
  unfold entry_type in Hin. rewrite Hty in Hin. simpl in Hin.
  rewrite (field_is_string _ "boundary" name) by (done || by eapply says_boundary).
  assert (existsb (λ ty', field_is (en_doc e) "__eventType" ty') lifecycle_types = true) as Hex.
  { apply existsb_exists. exists ty. rewrite <-list_elem_of_In. split; [done|].
    rewrite (field_is_string _ _ ty) by (done || by apply text_field_string). by apply bool_decide_eq_true. }
  generalize (String.eqb name' "" || bool_decide (name = name')) as known. intros [].
  - apply existsb_exists in Hex as (x & Hx & Hf). apply existsb_exists. exists x.
    by rewrite andb_true_r.
  - apply not_true_iff_false. intros (x & _ & H)%existsb_exists. by rewrite andb_false_r in H.
Qed.

End Stored.

(** ** The shape of a lifecycle *)

Definition shape (vs : list lifecycle_event) : bool :=
  match vs with
  | [] | [LCreated _] | [LCreated _; LFailed _] | [LCreated _; LActivated]
  | [LCreated _; LFailed _; LActivated] => true
  | _ => false
  end.

(** Definitions have a placement and failures an error. *)
Definition sound (v : lifecycle_event) : Prop :=
  match v with
  | LCreated d => placed (BC_Placement d)
  | LActivated => True
  | LFailed error => error ≠ ""
  end.

(** The status that a lifecycle of some shape has reached. *)
Definition shape_status (vs : list lifecycle_event) : option BoundaryStatus :=
  match vs with
  | [] => None
  | [_] => Some StatusProvisioning
  | [_; LFailed _] => Some StatusFailed
  | _ => Some StatusActive
  end.

Lemma shape_steps l :
  shape l.*2 = true → Forall sound l.*2 →
  ∃ o, steps None l = Some o ∧ B_Status <$> o = shape_status l.*2.
Proof.
  destruct l as [|[e v] l]; [by eexists|]. intros Hsh Hs. rewrite fmap_cons in *. simpl in Hsh, Hs.
  apply Forall_cons in Hs as [Hv Hs]. destruct v as [d| |error]; [|done|done].
  simpl in Hv. cbn [steps step]. rewrite option_guard_True by done. simpl.
  destruct l as [|[f w] l]; [by eexists|]. rewrite fmap_cons in *. simpl in Hsh, Hs.
  apply Forall_cons in Hs as [Hw Hs]. simpl in Hw.
  destruct w as [d'| |error]; [done| |].
  - destruct l; [by eexists|done].
  - cbn [steps step]. simpl. rewrite option_guard_True by done. simpl.
    destruct l as [|[g u] l]; [by eexists|]. rewrite fmap_cons in *. simpl in Hsh.
    destruct u, l; try done. by eexists.
Qed.

Lemma shape_uncreated vs :
  shape vs = true → Forall (λ v, is_LCreated v = false) vs → vs = [].
Proof. destruct vs as [|[d| |error] vs]; try done. by intros _ [? _]%Forall_cons. Qed.

(** What may be appended to a lifecycle. *)
Lemma shape_activate vs :
  shape vs = true → shape_status vs ≠ Some StatusActive → vs ≠ [] →
  shape (vs ++ [LActivated]) = true.
Proof.
  destruct vs as [|[d| |x] [|[d'| |y] [|[d''| |z] []]]]; simpl; try done.
Qed.

Lemma shape_fail vs error :
  shape vs = true → shape_status vs = Some StatusProvisioning →
  shape (vs ++ [LFailed error]) = true.
Proof.
  destruct vs as [|[d| |x] [|[d'| |y] [|[d''| |z] []]]]; simpl; try done.
Qed.

Section Invariant.
Context `{J : GoJson, T : SqlText}.

(** The lifecycle entries of a log: each is about some boundary, and those of a boundary
have the shape of a lifecycle. *)
Record lifecycle_inv (log : list entry) : Prop := {
  li_each : ∀ e, e ∈ log → lifecycle "" e = true → ∃ name v, name ≠ "" ∧ says name e v;
  li_shape : ∀ name, name ≠ "" → ∃ l, lifecycle_log name log = l.*1
    ∧ Forall (λ ev, says name ev.1 ev.2) l ∧ shape l.*2 = true ∧ Forall sound l.*2 }.

Lemma lifecycle_any name e : lifecycle name e = true → lifecycle "" e = true.
Proof.
  rewrite !lifecycle_eq. intros (ty & Hin & [Hf _]%andb_true_iff)%existsb_exists.
  apply existsb_exists. exists ty. by rewrite Hf.
Qed.

Lemma lifecycle_log_snoc name log e :
  lifecycle_log name (log ++ [e])
  = lifecycle_log name log ++ (if lifecycle name e then [e] else []).
Proof.
  unfold lifecycle_log. rewrite filter_app. f_equal.
  destruct (lifecycle name e) eqn:E; [by rewrite filter_cons_True|].
  rewrite filter_cons_False; [done|congruence].
Qed.

Lemma lifecycle_inv_other log es :
  lifecycle_inv log → Forall (λ e, lifecycle "" e = false) es → lifecycle_inv (log ++ es).
Proof.
  intros [He Hs] Ho. rewrite Forall_forall in Ho. constructor.
  - intros e [Hin|Hin]%elem_of_app Hl; [by apply He|]. by rewrite Ho in Hl.
  - intros name Hne. destruct (Hs name Hne) as (l & Hl & Hrest). exists l. split; [|done].
    unfold lifecycle_log in *. rewrite filter_app, Hl.
    rewrite (list_filter_none _ es), app_nil_r; [done|]. intros e Hin Hlc.
    apply lifecycle_any in Hlc. by rewrite Ho in Hlc.
Qed.

(** One event of a boundary. *)
Lemma lifecycle_inv_snoc log l name e v :
  lifecycle_inv log → name ≠ "" → is_Some (text_field (en_doc e) "__eventType") →
  says name e v → sound v →
  lifecycle_log name log = l.*1 → Forall (λ ev, says name ev.1 ev.2) l → Forall sound l.*2 →
  shape (l.*2 ++ [v]) = true → lifecycle_inv (log ++ [e]).
Proof.
  intros [He Hs] Hne Hty Hsay Hv Hl Hls Hso Hsh. constructor.
  - intros f [Hin|Hin]%elem_of_app Hlc; [by apply He|].
    apply list_elem_of_singleton in Hin as ->. by exists name, v.
  - intros name' Hne'. rewrite lifecycle_log_snoc, (says_lifecycle name e v name') by done.
    rewrite (proj2 (String.eqb_neq _ _) Hne'). simpl. case_bool_decide as Hn; cycle 1.
    { destruct (Hs name' Hne') as (l' & Hl' & Hrest). exists l'. by rewrite app_nil_r. }
    subst name'. exists (l ++ [(e, v)]). rewrite Hl, !fmap_app. split_and!; [done| |done|].
    + apply Forall_app. split; [done|]. by constructor.
    + apply Forall_app. split; [done|]. by constructor.
Qed.

(** The events of a boundary fold. *)
Lemma lifecycle_inv_catalog log name :
  lifecycle_inv log → name ≠ "" →
  ∃ l c, lifecycle_log name log = l.*1 ∧ Forall (λ ev, says name ev.1 ev.2) l
    ∧ shape l.*2 = true ∧ Forall sound l.*2
    ∧ catalog_of NewCatalog (lifecycle_log name log) = Ok c
    ∧ steps None l = Some (c !! name) ∧ B_Status <$> c !! name = shape_status l.*2.
Proof.
  intros [_ Hs] Hne. destruct (Hs name Hne) as (l & Hl & Hsay & Hsh & Hso).
  destruct (shape_steps l Hsh Hso) as (o & Ho & Hst).
  pose proof (catalog_says NewCatalog name l Hne Hsay) as Hc. unfold NewCatalog in Hc at 1.
  rewrite lookup_empty, Ho in Hc. destruct Hc as (c & Hc & Hlk). exists l, c.
  assert (c !! name = o) as -> by by rewrite Hlk, decide_True. by rewrite Hl.
Qed.

End Invariant.

(** ** The whole catalog *)

(** Entries of several boundaries, each with its name and what it says. *)
Definition of_name (name : string) (L : list (string * (entry * lifecycle_event)))
  : list (entry * lifecycle_event) := snd <$> filter (λ x, x.1 = name) L.

Lemma of_name_cons name x L :
  of_name name (x :: L) = if decide (x.1 = name) then x.2 :: of_name name L else of_name name L.
Proof. unfold of_name. rewrite filter_cons. by case_decide. Qed.

Lemma catalog_all c L :
  Forall (λ x, x.1 ≠ "" ∧ says x.1 x.2.1 x.2.2) L →
  (∀ name, is_Some (steps (c !! name) (of_name name L))) →
  ∃ c', catalog_of c ((λ x, x.2.1) <$> L) = Ok c'
    ∧ ∀ name, steps (c !! name) (of_name name L) = Some (c' !! name).
Proof.
  intros H. revert c. induction H as [|[n [e v]] L [Hne Hs] _ IH]; intros c Hst.
  { by exists c. }
  simpl in Hne, Hs. pose proof (Hst n) as Hn. rewrite of_name_cons, decide_True in Hn by done.
  simpl in Hn. pose proof (apply_says c n e v Hne Hs) as Ha.
  destruct (step (c !! n) (en_pos e) v) as [o|] eqn:Ho; simpl in Hn; [|by destruct Hn].
  assert (∀ name, steps (set_boundary c n o !! name) (of_name name L)
    = steps (c !! name) (of_name name ((n, (e, v)) :: L))) as Heq.
  { intros name. rewrite set_boundary_lookup by (intros ->; by eapply step_None).
    rewrite of_name_cons. simpl. case_decide as Hd.
    - subst. rewrite decide_True by done. simpl. by rewrite Ho.
    - by rewrite decide_False. }
  destruct (IH (set_boundary c n o)) as (c' & Hc' & Hl); [intros name; by rewrite Heq|].
  exists c'. split; [|intros name; by rewrite <-Heq]. rewrite fmap_cons. simpl.
  by rewrite Ha.
Qed.

Lemma says_list_fun name l l' :
  Forall (λ ev, says name ev.1 ev.2) l → Forall (λ ev, says name ev.1 ev.2) l' →
  l.*1 = l'.*1 → l = l'.
Proof.
  intros H. revert l'. induction H as [|[e v] l Hv _ IH]; intros [|[e' v'] l'] Hl' Heq; try done.
  apply Forall_cons in Hl' as [Hv' Hl']. rewrite !fmap_cons in Heq. simpl in *.
  injection Heq as -> Heq. f_equal; [|by apply IH]. f_equal. by eapply says_fun.
Qed.

Section Total.
Context `{J : GoJson, T : SqlText}.

Lemma of_name_log name es L :
  name ≠ "" →
  Forall2 (λ e x, x.2.1 = e ∧ x.1 ≠ "" ∧ says x.1 e x.2.2
                  ∧ is_Some (text_field (en_doc e) "__eventType")) es L →
  (of_name name L).*1 = filter (λ e, lifecycle name e = true) es
  ∧ Forall (λ ev, says name ev.1 ev.2) (of_name name L).
Proof.
  intros Hne H. induction H as [|e [n [e' v]] es L (Heq & Hn & Hs & Ht) _ [IH1 IH2]]; [done|].
  simpl in *. subst e'. rewrite of_name_cons, filter_cons. simpl.
  rewrite (says_lifecycle n e v name Hn Hs Ht), (proj2 (String.eqb_neq _ _) Hne). simpl.
  destruct (decide (n = name)) as [->|Hd].
  - rewrite decide_True by by apply bool_decide_eq_true. rewrite fmap_cons, IH1.
    split; [done|]. by constructor.
  - rewrite decide_False by by rewrite bool_decide_eq_true. done.
Qed.

(** All the lifecycle events of a log fold, boundary by boundary. *)
Lemma lifecycle_inv_total log :
  lifecycle_inv log → (∀ e, e ∈ log → is_Some (text_field (en_doc e) "__eventType")) →
  ∃ c, catalog_of NewCatalog (lifecycle_log "" log) = Ok c
    ∧ ∀ name, name ≠ "" → ∃ l, lifecycle_log name log = l.*1
        ∧ Forall (λ ev, says name ev.1 ev.2) l ∧ shape l.*2 = true
        ∧ B_Status <$> c !! name = shape_status l.*2.
Proof.
  intros Hi Hty.
  assert (∃ L, Forall2 (λ e x, x.2.1 = e ∧ x.1 ≠ "" ∧ says x.1 e x.2.2
    ∧ is_Some (text_field (en_doc e) "__eventType")) (lifecycle_log "" log) L) as [L HL].
  { apply Forall_exists_Forall2_l, Forall_forall. intros e [Hl He]%list_elem_of_filter.
    destruct (li_each _ Hi e He Hl) as (name & v & Hne & Hs). exists (name, (e, v)). eauto. }
  assert (∀ name, name ≠ "" → ∃ l o, lifecycle_log name log = l.*1
    ∧ Forall (λ ev, says name ev.1 ev.2) l ∧ shape l.*2 = true
    ∧ steps None (of_name name L) = Some o ∧ B_Status <$> o = shape_status l.*2) as Hname.
  { intros name Hne. destruct (li_shape _ Hi name Hne) as (l & Hl & Hls & Hsh & Hso).
    destruct (of_name_log name _ _ Hne HL) as [Hf Hsn].
    assert (of_name name L = l) as ->.
    { eapply says_list_fun; [done|done|]. rewrite Hf, <-Hl. unfold lifecycle_log.
      rewrite list_filter_filter. apply list_filter_iff. intros e. split; [tauto|].
      intros H. split; [done|]. by eapply lifecycle_any. }
    destruct (shape_steps l Hsh Hso) as (o & Ho & Hst). by exists l, o. }
  destruct (catalog_all NewCatalog L) as (c & Hc & Hl).
  - apply Forall_forall. intros x [i Hx]%list_elem_of_lookup.
    destruct (Forall2_lookup_r _ _ _ _ _ HL Hx) as (e & _ & <- & ? & ? & _). done.
  - intros name. unfold NewCatalog. rewrite lookup_empty. destruct (decide (name = "")) as [->|Hne].
    + assert (of_name "" L = []) as ->; [|by eexists]. unfold of_name.
      rewrite list_filter_none; [done|]. intros x [i Hx]%list_elem_of_lookup.
      by destruct (Forall2_lookup_r _ _ _ _ _ HL Hx) as (e & _ & _ & ? & _).
    + destruct (Hname name Hne) as (l & o & _ & _ & _ & -> & _). by eexists.
  - exists c. split.
    + rewrite <-Hc. f_equal. clear -HL. induction HL as [|e x es L (<- & _) _ IH]; [done|].
      rewrite fmap_cons. by f_equal.
    + intros name Hne. destruct (Hname name Hne) as (l & o & Hl' & Hls & Hsh & Hst & Hstat).
      exists l. split_and!; [done..|]. specialize (Hl name). unfold NewCatalog in Hl.
      rewrite lookup_empty, Hst in Hl. by injection Hl as <-.
Qed.

End Total.

(** ** Writers *)

Section Writers.
Context `{J : GoJson, L : !GoJsonLaws, T : SqlText} {B : Type}.
Context (admin : string) (appender : EventAppender B) (latest : LatestByCriteriaRetriever B)
  (retriever : DefinitionEventsRetriever B) `{E : !EventLog admin appender latest retriever}.

#[local] Notation extends := (extends admin appender latest retriever).

(** A definition that passed [normalize] or [validateDefinition], in text that the encoder
writes as it is. *)
Record good_definition (d : Definition_) : Prop := {
  gd_name : ValidateName (Def_Name d) = Ok tt;
  gd_placed : placed (Def_Placement d);
  gd_text : text_ok (Def_Name d) ∧ text_ok (Def_Description d)
    ∧ text_ok (Backend (Def_Placement d)) ∧ text_ok (Namespace (Def_Placement d)) }.

(** An outcome that may be recorded in the status that was read. *)
Definition allowed (name : string) (status : BoundaryStatus) (o : outcome) : Prop :=
  match o with
  | Activated d => d = mkBoundaryActivated name ∧ status ≠ StatusActive
  | Failed d => BF_Boundary d = name ∧ BF_Error d ≠ "" ∧ text_ok (BF_Error d)
      ∧ status = StatusProvisioning
  end.

(** One step of the admin log: the append of a definition or of an outcome that some command
decided on an earlier log, or events that are not of the lifecycle. *)
Inductive boundary_write (b : B) : B → Prop :=
  | write_definition ctx d metadata eventID b0 request r b' :
      good_definition d → text_result eventID → log_good b0 → extends b0 b →
      create_request ctx admin latest d metadata eventID b0 = Ok request →
      Append appender ctx request b = (r, b') → boundary_write b b'
  | write_outcome ctx name metadata eventID b0 model o request r b' :
      ValidateName name = Ok tt → text_ok name → text_result eventID →
      log_good b0 → extends b0 b →
      provision_loadContext ctx admin name latest b0 = Ok model →
      allowed name (B_Status (pc_boundary model)) o →
      outcome_request admin eventID metadata model o = Ok request →
      Append appender ctx request b = (r, b') → boundary_write b b'
  | write_other es b' :
      log_good b' → log_of b' = log_of b ++ es → Forall (λ e, lifecycle "" e = false) es →
      boundary_write b b'.

Lemma ValidateName_nonempty name : ValidateName name = Ok tt → name ≠ "".
Proof. by intros H ->. Qed.

(** Two logs with the same context have the same events in it. *)
Lemma context_same P b0 b p :
  log_good b → extends b0 b → context_at (log_of b0) P p → context_at (log_of b) P p →
  filter (λ e, P (en_doc e) = true) (log_of b) = filter (λ e, P (en_doc e) = true) (log_of b0).
Proof.
  intros Hg [_ [rest Hpre]] H0 H. pose proof (el_sorted b Hg) as Hs. rewrite Hpre in Hs |- *.
  rewrite filter_app, (list_filter_none _ rest), app_nil_r; [done|]. intros e He HP.
  assert (e ∈ log_of b) as Heb by (rewrite Hpre; apply elem_of_app; auto).
  assert (pos_le (en_pos e) p) as Hle.
  { destruct H as [[-> Hn]|(f & _ & _ & _ & Hm)]; [by rewrite Hn in HP|by apply Hm]. }
  apply pos_not_lt in Hle. apply Hle.
  destruct H0 as [[-> _]|(f & Hf & _ & <- & _)]; [by eapply el_real|].
  by eapply (StronglySorted_app_1_elem_of entry_lt).
Qed.

Lemma query_sees_lifecycle name e :
  name ≠ "" → query_sees (lifecycleCriteria name) (en_doc e) = lifecycle name e.
Proof.
  intros Hne. rewrite lifecycle_about by done. unfold query_sees, context_matches. simpl.
  unfold about, field_is. by rewrite !andb_true_r.
Qed.

Lemma query_sees_definition name doc :
  query_sees (definitionCriteria name) doc = about name EventTypeBoundaryCreated doc.
Proof.
  unfold query_sees, context_matches. simpl. unfold about, field_is.
  by rewrite andb_true_r, orb_false_r.
Qed.

(** The append of one event. *)
Lemma append_one ctx ty id data meta q p b r b' :
  log_good b → text_ok id → text_ok ty →
  Append appender ctx (core.mkAppendRequest admin [core.mkEventToAppend id ty data meta]
    [core.mkObservation q p]) b = (r, b') →
  log_good b' ∧
  (log_of b' = log_of b ∧ (∀ p, r ≠ Some (Ok p))
   ∨ context_at (log_of b) (query_sees (core.Query_Criteria q)) p
     ∧ ∃ e, log_of b' = log_of b ++ [e] ∧ stored_as (core.mkEventToAppend id ty data meta) e
         ∧ r = Some (Ok (en_pos e))).
Proof.
  intros Hg Hid Hty H. apply el_append in H as [Hg' H]; [|done|done|].
  2:{ constructor; [done|constructor]. }
  split; [done|]. destruct r as [[pos|e]|]; [right|left; by split..].
  destruct H as (Hc & es & Hlog & Hst & Hlast). apply Forall_cons in Hc as [Hc _].
  simpl in Hst. apply Forall2_cons_inv_l in Hst as (e & es' & He & Hnil & ->).
  apply Forall2_nil_inv_l in Hnil as ->. simpl in Hlast. injection Hlast as <-.
  split; [done|]. by exists e.
Qed.

Lemma outcome_faithful name status o :
  text_ok name → allowed name status o → json_faithful (JObject (outcome_fields o)).
Proof.
  intros Hn Ha. apply json_faithful_object. intros k v Hin. destruct o as [d|d]; simpl in Ha, Hin.
  - destruct Ha as [-> _]. apply list_elem_of_singleton in Hin as [= -> ->].
    split; [by apply text_ok_ascii|done].
  - destruct Ha as (<- & _ & He & _). unfold failed_boundary_fields in Hin.
    rewrite !elem_of_cons, elem_of_nil in Hin.
    destruct Hin as [[= -> ->]|[[= -> ->]|[]]]; (split; [by apply text_ok_ascii|done]).
Qed.

Lemma definition_faithful d :
  good_definition d → json_faithful (JObject (created_boundary_fields (created_of d))).
Proof.
  intros [_ _ (Hn & Hd & Hb & Hns)]. apply json_faithful_object. intros k v.
  unfold created_boundary_fields, omit_empty. rewrite !elem_of_app, !list_elem_of_singleton.
  intros [[= -> ->]|[Hin|[= -> ->]]].
  - split; [by apply text_ok_ascii|done].
  - destruct (String.eqb _ _); [by apply elem_of_nil in Hin|].
    apply list_elem_of_singleton in Hin as [= -> ->]. split; [by apply text_ok_ascii|done].
  - split; [by apply text_ok_ascii|]. apply json_faithful_object. intros k v.
    rewrite !elem_of_cons, elem_of_nil.
    intros [[= -> ->]|[[= -> ->]|[]]]; (split; [by apply text_ok_ascii|done]).
Qed.

(** *** What the contexts say *)

Lemma create_context ctx name b model :
  log_good b → create_loadContext ctx admin name latest b = Ok model →
  cc_query model = subsetQuery (definitionCriteria name)
  ∧ context_at (log_of b) (about name EventTypeBoundaryCreated) (cc_position model)
  ∧ match cc_existing model with
    | None => ∀ e, e ∈ log_of b → about name EventTypeBoundaryCreated (en_doc e) = false
    | Some ev => ∃ e, e ∈ log_of b ∧ about name EventTypeBoundaryCreated (en_doc e) = true
        ∧ event_of e ev
    end.
Proof.
  intros Hg H. unfold create_loadContext in H. apply result_bind_ok in H as (res & Hres & H).
  case_decide as Hlen; [|done]. apply result_bind_ok in H as (existing & Hex & [= <-]). simpl.
  apply el_latest in Hres as [Hm Hc]; [|done..]. simpl in Hm, Hc.
  apply Forall2_cons_inv_l in Hm as (m & k & Hm & Hnil & Hk).
  apply Forall2_nil_inv_l in Hnil as ->. rewrite Hk in Hex.
  assert (existing = m) as -> by (by destruct m; injection Hex as <-).
  split_and!; [done| |].
  - destruct Hc as [[-> Hn]|(e & He & HP & <- & Hmax)].
    + left. split; [done|]. intros e He. rewrite <-query_sees_definition. by apply Hn.
    + right. exists e. rewrite <-query_sees_definition. split_and!; [done..|].
      intros f Hf HPf. apply Hmax; [done|]. by rewrite query_sees_definition.
  - eapply latest_of_ext in Hm; [|intros; apply criterion_sees_about].
    destruct m as [ev|]; [|done]. destruct Hm as (e & He & HP & Hev & _). eauto.
Qed.

Lemma provision_context ctx name b model :
  provision_loadContext ctx admin name latest b = Ok model →
  ∃ res, LatestByCriteria latest ctx (lifecycle_request admin name) b = Ok res
    ∧ pc_position model = core.ContextPosition res
    ∧ pc_query model = subsetQuery (lifecycleCriteria name).
Proof.
  intros H. unfold provision_loadContext in H. apply result_bind_ok in H as (res & Hres & H).
  exists res. split; [done|]. case_decide; [|done]. destruct (filter _ _); [done|].
  apply result_bind_ok in H as (c & _ & H). destruct (Catalog_Get c name); [|done].
  by injection H as <-.
Qed.

Definition outcome_event (o : outcome) : lifecycle_event :=
  match o with Activated _ => LActivated | Failed d => LFailed (BF_Error d) end.

Lemma outcome_sound name status o :
  allowed name status o →
  sound (outcome_event o).
Proof. by destruct o; [|intros (_ & ? & _)]. Qed.

Lemma outcome_says name status o e :
  allowed name status o → holds (outcome_type o) (outcome_fields o) e →
  says name e (outcome_event o).
Proof.
  destruct o as [d|[n error]]; simpl.
  - intros [-> _]. apply holds_says_activated.
  - intros (<- & _). apply holds_says_failed.
Qed.

(** *** The invariant is kept *)

Lemma write_definition_inv ctx d metadata eventID b0 b request r b' :
  log_good b → lifecycle_inv (log_of b) → good_definition d → text_result eventID →
  log_good b0 → extends b0 b →
  create_request ctx admin latest d metadata eventID b0 = Ok request →
  Append appender ctx request b = (r, b') → log_good b' ∧ lifecycle_inv (log_of b').
Proof.
  intros Hg Hi Hd Hid Hg0 Hx Hreq Ha. unfold create_request in Hreq.
  apply result_bind_ok in Hreq as (model & Hload & Hreq).
  destruct (create_context _ _ _ _ Hg0 Hload) as (Hq & Hctx & Hex).
  destruct (cc_existing model); [done|].
  apply event_request_ok in Hreq as (id & data & meta & -> & Hm & ->).
  apply append_one in Ha as [Hg' Ha]; [|done|by apply Hid|by apply text_ok_ascii].
  split; [done|]. destruct Ha as [[-> _]|(Hc & e & Hlog & Hst & _)]; [done|]. rewrite Hlog.
  pose proof (ValidateName_nonempty _ (gd_name _ Hd)) as Hne.
  pose proof (stored_holds _ _ _ _ _ _ (definition_faithful _ Hd) Hm Hst) as Hh.
  pose proof (holds_says_created _ _ Hh) as Hsay. simpl in Hsay.
  destruct (li_shape _ Hi _ Hne) as (l & Hl & Hls & Hsh & Hso).
  assert (l = []) as ->.
  { apply (fmap_nil_inv snd), shape_uncreated; [done|]. apply Forall_fmap, Forall_forall.
    intros [f v] Hin. destruct (is_LCreated v) eqn:Ev; [|by rewrite <-Ev]. exfalso.
    rewrite Forall_forall in Hls. pose proof (Hls _ Hin) as Hfv. simpl in Hfv.
    assert (f ∈ lifecycle_log (Def_Name d) (log_of b)) as Hf
      by (rewrite Hl; apply list_elem_of_fmap; by exists (f, v)).
    apply list_elem_of_filter in Hf as [Hlf Hf].
    assert (about (Def_Name d) EventTypeBoundaryCreated (en_doc f) = true) as Hab.
    { rewrite lifecycle_about in Hlf by done. apply existsb_exists in Hlf as (ty & _ & Hab).
      pose proof (about_type _ _ _ (el_typed b f Hg Hf) Hab) as Hty.
      apply (says_kinds _ _ _ Hfv) in Ev. by rewrite <-Ev, Hty. }
    assert (cc_position model = NotExistsPosition) as Hp.
    { destruct Hctx as [[? _]|(g & Hgi & HP & _)]; [done|]. by rewrite Hex in HP. }
    rewrite Hp in Hc. rewrite Hq in Hc. simpl in Hc.
    destruct Hc as [[_ Hn]|(g & Hgi & _ & Hgp & _)].
    - specialize (Hn f Hf). rewrite query_sees_definition in Hn. congruence.
    - pose proof (el_real b g Hg Hgi) as Hreal. rewrite Hgp in Hreal.
      by apply pos_lt_irrefl in Hreal. }
  eapply (lifecycle_inv_snoc _ [] (Def_Name d) e (LCreated (created_of d))); try done.
  - by rewrite (ho_type _ _ _ Hh).
  - apply (gd_placed _ Hd).
Qed.

(** What an accepted outcome was recorded on. *)
Record outcome_accepted (name : string) (model : provisionContext) (o : outcome) (b b' : B)
    (r : option (result Position)) (e : entry) (l : list (entry * lifecycle_event)) : Prop := {
  oa_result : r = Some (Ok (en_pos e));
  oa_log : log_of b' = log_of b ++ [e];
  oa_typed : is_Some (text_field (en_doc e) "__eventType");
  oa_says : says name e (outcome_event o);
  oa_events : lifecycle_log name (log_of b) = l.*1;
  oa_list : Forall (λ ev, says name ev.1 ev.2) l ∧ Forall sound l.*2;
  oa_boundary : steps None l = Some (Some (pc_boundary model));
  oa_shape : shape (l.*2 ++ [outcome_event o]) = true }.

Lemma write_outcome_cases ctx name metadata eventID b0 b model o request r b' :
  log_good b → lifecycle_inv (log_of b) → ValidateName name = Ok tt → text_ok name →
  text_result eventID → log_good b0 → extends b0 b →
  provision_loadContext ctx admin name latest b0 = Ok model →
  allowed name (B_Status (pc_boundary model)) o →
  outcome_request admin eventID metadata model o = Ok request →
  Append appender ctx request b = (r, b') →
  log_good b' ∧ (log_of b' = log_of b ∧ (∀ p, r ≠ Some (Ok p))
                 ∨ ∃ e l, outcome_accepted name model o b b' r e l).
Proof.
  intros Hg Hi Hv Hname Hid Hg0 Hx Hload Hal Hreq Ha.
  pose proof (ValidateName_nonempty _ Hv) as Hne.
  apply event_request_ok in Hreq as (id & data & meta & -> & Hm & ->).
  destruct (provision_context _ _ _ _ Hload) as (res & Hres & Hp & Hq).
  apply append_one in Ha as [Hg' Ha]; [|done|by apply Hid|by destruct o; apply text_ok_ascii].
  split; [done|]. destruct Ha as [[Hlog Hr]|(Hc & e & Hlog & Hst & Hr)]; [by left|right].
  pose proof (stored_holds _ _ _ _ _ _ (outcome_faithful _ _ _ Hname Hal) Hm Hst) as Hh.
  destruct (lifecycle_inv_catalog _ _ Hi Hne)
    as (l & c & Hl & Hls & Hsh & Hso & Hcat & Hsteps & Hstat).
  pose proof Hres as Hc0. apply el_latest in Hc0 as [_ Hc0]; [|done..]. simpl in Hc0.
  rewrite Hq, Hp in Hc. simpl in Hc.
  assert (lifecycle_log name (log_of b0) = lifecycle_log name (log_of b)) as Hsame.
  { pose proof (context_same _ _ _ _ Hg Hx Hc0 Hc) as Hs. unfold lifecycle_log.
    symmetry. etransitivity; [|etransitivity; [exact Hs|]]; apply list_filter_iff; intros f;
      by rewrite query_sees_lifecycle. }
  assert (c !! name = Some (pc_boundary model)) as Hb.
  { pose proof (load_context_spec _ _ _ _ ctx name b0 c res Hg0 Hne) as Hspec.
    rewrite Hsame in Hspec. specialize (Hspec Hcat Hres). rewrite Hload in Hspec.
    destruct (c !! name); [|done]. by injection Hspec as ->. }
  rewrite Hb in Hstat, Hsteps. simpl in Hstat. exists e, l. constructor; try done.
  - by rewrite (ho_type _ _ _ Hh).
  - by eapply outcome_says.
  - destruct o as [d|d]; simpl in Hal |- *.
    + apply shape_activate; [done|rewrite <-Hstat; intros [= Hact]; by apply Hal|].
      intros Hnil. by rewrite Hnil in Hstat.
    + apply shape_fail; [done|]. rewrite <-Hstat. f_equal. apply Hal.
Qed.

Lemma outcome_accepted_inv name status model o b b' r e l :
  name ≠ "" → lifecycle_inv (log_of b) → allowed name status o →
  outcome_accepted name model o b b' r e l → lifecycle_inv (log_of b').
Proof.
  intros Hne Hi Hal [_ -> Hty Hs Hl [Hls Hso] _ Hsh].
  eapply (lifecycle_inv_snoc _ l name e (outcome_event o)); try done.
  by eapply outcome_sound.
Qed.

Lemma boundary_write_inv b b' :
  log_good b → lifecycle_inv (log_of b) → boundary_write b b' →
  log_good b' ∧ lifecycle_inv (log_of b').
Proof.
  intros Hg Hi [ctx d metadata eventID b0 request r b1|
    ctx name metadata eventID b0 model o request r b1|es b1 Hg1 Hlog Ho].
  - by apply (write_definition_inv ctx d metadata eventID b0 b request r).
  - destruct (write_outcome_cases ctx name metadata eventID b0 b model o request r b1)
      as [Hg1 [[-> _]|(e & l & Ho)]]; [done..|]. split; [done|].
    eapply outcome_accepted_inv; [by apply ValidateName_nonempty|done|done|exact Ho].
  - split; [done|]. rewrite Hlog. by apply lifecycle_inv_other.
Qed.

Lemma request_text fmt ty eventID fs metadata q p request :
  event_request fmt admin ty eventID fs metadata q p = Ok request →
  text_result eventID → text_ok ty →
  core.AR_Boundary request = admin ∧ text_appended request.
Proof.
  intros (id & data & meta & -> & _ & ->)%event_request_ok Hid Hty.
  split; [done|]. constructor; [|constructor]. split; [by apply Hid|done].
Qed.

Lemma append_extends ctx request b r b' :
  log_good b → core.AR_Boundary request = admin → text_appended request →
  Append appender ctx request b = (r, b') → extends b b'.
Proof.
  intros Hg Hb Ht H. apply el_append in H as [Hg' H]; [|done..]. split; [done|].
  destruct r as [[p|e]|]; [|by rewrite H..]. destruct H as (_ & es & -> & _). by eexists.
Qed.

Lemma create_request_text ctx d metadata eventID b request :
  create_request ctx admin latest d metadata eventID b = Ok request → text_result eventID →
  core.AR_Boundary request = admin ∧ text_appended request.
Proof.
  intros H Hid. unfold create_request in H. apply result_bind_ok in H as (model & _ & H).
  destruct (cc_existing model); [done|]. eapply request_text; [done|done|].
  by apply text_ok_ascii.
Qed.

Lemma outcome_request_text eventID metadata model o request :
  outcome_request admin eventID metadata model o = Ok request → text_result eventID →
  core.AR_Boundary request = admin ∧ text_appended request.
Proof.
  intros H Hid. eapply request_text; [done|done|]. destruct o; by apply text_ok_ascii.
Qed.

Lemma boundary_write_extends b b' : log_good b → boundary_write b b' → extends b b'.
Proof.
  intros Hg [ctx d metadata eventID b0 request r b1 _ Hid _ _ Hr Ha|
    ctx name metadata eventID b0 model o request r b1 _ _ Hid _ _ _ _ Hr Ha|es b1 Hg1 Hlog _].
  - destruct (create_request_text _ _ _ _ _ _ Hr Hid). by eapply append_extends.
  - destruct (outcome_request_text _ _ _ _ _ Hr Hid). by eapply append_extends.
  - split; [done|]. rewrite Hlog. by eexists.
Qed.

Lemma extends_refl b : log_good b → extends b b.
Proof. by split. Qed.

Lemma writes_extend b b' : log_good b → rtc boundary_write b b' → extends b b'.
Proof.
  intros Hg H. induction H as [b|b b1 b2 Hw _ IH]; [by apply extends_refl|].
  pose proof (boundary_write_extends _ _ Hg Hw) as Hx. destruct (IH (proj1 Hx)) as [? ?].
  eapply extends_trans; [exact Hx|by split].
Qed.

Lemma writes_inv b b' :
  log_good b → lifecycle_inv (log_of b) → rtc boundary_write b b' →
  log_good b' ∧ lifecycle_inv (log_of b').
Proof.
  intros Hg Hi H. induction H as [b|b b1 b2 Hw _ IH]; [done|].
  destruct (boundary_write_inv _ _ Hg Hi Hw). by apply IH.
Qed.

(** C33: the lifecycle of every boundary. However the commands of any number of nodes
interleave, each deciding on a log that may be out of date, the events of a boundary are its
definition, then at most one failure, then at most one activation and nothing else; so a
boundary is defined once, an active one never changes again, and the catalog of the whole log
can always be rebuilt, with the status that these events give. *)
Theorem boundary_lifecycle b b' :
  log_good b → lifecycle_inv (log_of b) → rtc boundary_write b b' →
  ∃ c, catalog_of NewCatalog (lifecycle_log "" (log_of b')) = Ok c
    ∧ ∀ name, name ≠ "" → ∃ l, lifecycle_log name (log_of b') = l.*1
        ∧ Forall (λ ev, says name ev.1 ev.2) l ∧ shape l.*2 = true
        ∧ B_Status <$> c !! name = shape_status l.*2.
Proof.
  intros Hg Hi Hw. destruct (writes_inv _ _ Hg Hi Hw) as [Hg' Hi'].
  apply lifecycle_inv_total; [done|]. intros e. by apply el_typed.
Qed.

(** *** The runs of the handlers are such writes *)

Context (env : nat → B → B).
Context (Henv : ∀ k b, log_good b → rtc boundary_write b (env k b)).

(** A provisioner that leaves the admin log, with errors that have a text. *)
Definition good_provision (provision : Ctx → Definition_ → B → result unit * B) : Prop :=
  ∀ ctx d b res b', log_good b → provision ctx d b = (res, b') →
    log_good b' ∧ log_of b' = log_of b
    ∧ ∀ e, res = Err e → Error_text e ≠ "" ∧ text_ok (Error_text e).

Lemma same_log_write b b' : log_good b' → log_of b' = log_of b → rtc boundary_write b b'.
Proof.
  intros Hg Hl. apply rtc_once. apply (write_other b []); [done|by rewrite app_nil_r|constructor].
Qed.

Lemma reading_run {A} (f : B → A) r a r' :
  log_good (store r) → reading env f r = (a, r') →
  rtc boundary_write (store r) (store r') ∧ log_good (store r') ∧ a = f (store r').
Proof.
  intros Hg [= <- <-]. simpl. pose proof (Henv (operations r) _ Hg) as Hw.
  split_and!; [done| |done]. by apply (writes_extend _ _ Hg).
Qed.

Lemma normalize_good command d :
  normalize command = Ok d →
  ValidateName (Def_Name d) = Ok tt ∧ placed (Def_Placement d).
Proof.
  unfold normalize. intros H. destruct (ValidateName _) as [[]|] eqn:Hv; [|done].
  destruct (_ || _) eqn:Ep; [done|]. injection H as <-. split; [done|].
  by apply orb_false_iff in Ep as [?%String.eqb_neq ?%String.eqb_neq].
Qed.

Definition text_definition (d : Definition_) : Prop :=
  text_ok (Def_Name d) ∧ text_ok (Def_Description d)
  ∧ text_ok (Backend (Def_Placement d)) ∧ text_ok (Namespace (Def_Placement d)).

Lemma create_run eventID ctx command r res r' :
  log_good (store r) → text_result eventID →
  (∀ d, normalize command = Ok d → text_definition d) →
  CreateBoundaryCommandHandler env eventID ctx command admin (Some appender) (Some latest) r
  = (res, r') →
  rtc boundary_write (store r) (store r').
Proof.
  intros Hg Hid Ht H. unfold CreateBoundaryCommandHandler in H.
  destruct (normalize command) as [d|] eqn:Hn; [|by injection H as _ <-].
  destruct (String.eqb admin ""); [by injection H as _ <-|].
  destruct (reading _ _ r) as [request r1] eqn:Hr.
  destruct (reading_run _ _ _ _ Hg Hr) as (Hw & Hg1 & ->).
  destruct (create_request _ _ _ _ _ _ _) as [request|] eqn:Hreq; [|by injection H as _ <-].
  unfold writing, arrive in H. pose proof (Henv (operations r1) _ Hg1) as Hw1.
  pose proof (writes_extend _ _ Hg1 Hw1) as Hx.
  destruct (Append _ _ _ _) as [a b'] eqn:Ha. injection H as _ <-. simpl.
  trans (store r1); [done|]. eapply rtc_r; [exact Hw1|].
  destruct (normalize_good _ _ Hn) as [Hv Hp].
  eapply (write_definition _ ctx d _ eventID (store r1)); [|done|done|done|exact Hreq|exact Ha].
  constructor; [done|done|by apply Ht].
Qed.

(** The boundary that the events of a log give. *)
Definition boundary_at (log : list entry) (name : string) : option Boundary :=
  match catalog_of NewCatalog (lifecycle_log name log) with
  | Ok c => c !! name
  | Err _ => None
  end.

Lemma boundary_at_steps log name l o :
  name ≠ "" → lifecycle_log name log = l.*1 → Forall (λ ev, says name ev.1 ev.2) l →
  steps None l = Some o → boundary_at log name = o.
Proof.
  intros Hne Hl Hs Ho. unfold boundary_at. rewrite Hl.
  pose proof (catalog_says NewCatalog name l Hne Hs) as Hc. unfold NewCatalog in Hc at 1.
  rewrite lookup_empty, Ho in Hc. destruct Hc as (c & -> & Hlk). by rewrite Hlk, decide_True.
Qed.

Lemma outcome_accepted_boundary name status model o b b' r e l :
  name ≠ "" → allowed name status o → B_Status (pc_boundary model) = status →
  outcome_accepted name model o b b' r e l →
  boundary_at (log_of b') name = Some (outcome_boundary (pc_boundary model) o (en_pos e)).
Proof.
  intros Hne Hal Hst [_ Hlog Hty Hs Hl [Hls _] Hb _].
  eapply (boundary_at_steps _ _ (l ++ [(e, outcome_event o)])); [done| | |].
  - rewrite Hlog, lifecycle_log_snoc, (says_lifecycle name e _ name) by done.
    rewrite bool_decide_true, orb_true_r by done. by rewrite Hl, fmap_app.
  - apply Forall_app. split; [done|]. by constructor.
  - rewrite steps_app, Hb. simpl. destruct o as [d|[n error]]; simpl in *; [done|].
    destruct Hal as (_ & Hn & _ & ->). rewrite option_guard_True by done. simpl.
    by rewrite decide_False by by rewrite Hst.
Qed.

(** A recorded outcome: the run is made of writes, and what it returns is the boundary of
the log. *)
Lemma outcome_run newID ctx metadata name b0 model o r res r' :
  log_good (store r) → lifecycle_inv (log_of (store r)) →
  ValidateName name = Ok tt → text_ok name → (∀ k, text_result (newID k)) →
  log_good b0 → extends b0 (store r) →
  provision_loadContext ctx admin name latest b0 = Ok model →
  allowed name (B_Status (pc_boundary model)) o →
  appendOutcome env (newID (operations r)) ctx admin appender metadata model o r = (res, r') →
  rtc boundary_write (store r) (store r')
  ∧ ∀ bd, res = Some (Ok bd) → boundary_at (log_of (store r')) name = Some bd
      ∧ bd = outcome_boundary (pc_boundary model) o (default NotExistsPosition (B_StatusPosition bd)).
Proof.
  intros Hg Hi Hv Ht Hid Hg0 Hx Hload Hal H. unfold appendOutcome in H.
  destruct (outcome_request _ _ _ _ _) as [request|] eqn:Hreq; [|by injection H as <- <-].
  unfold writing, arrive in H. pose proof (Henv (operations r) _ Hg) as Hw.
  pose proof (writes_extend _ _ Hg Hw) as Hx1. destruct (writes_inv _ _ Hg Hi Hw) as [Hg1 Hi1].
  destruct (Append _ _ _ _) as [a b'] eqn:Ha. injection H as <- <-. simpl.
  assert (extends b0 (env (operations r) (store r))) as Hx2 by by eapply extends_trans.
  split.
  - eapply rtc_r; [exact Hw|].
    by apply (write_outcome _ ctx name metadata (newID (operations r)) b0 model o request a b').
  - intros bd Hbd. destruct (write_outcome_cases ctx name metadata (newID (operations r)) b0
      (env (operations r) (store r)) model o request a b') as [_ [[_ Hno]|(e & l & Hacc)]];
      try done.
    + destruct a as [[p|]|]; try done. by destruct (Hno p).
    + rewrite (oa_result _ _ _ _ _ _ _ _ Hacc) in Hbd. injection Hbd as <-.
      rewrite (outcome_accepted_boundary _ _ _ _ _ _ _ _ _ (ValidateName_nonempty _ Hv) Hal
        eq_refl Hacc). split; [done|]. by destruct o.
Qed.

(** What a loaded context is, on a log that keeps the invariant. *)
Lemma loaded_boundary ctx name b model :
  log_good b → lifecycle_inv (log_of b) → name ≠ "" →
  provision_loadContext ctx admin name latest b = Ok model →
  boundary_at (log_of b) name = Some (pc_boundary model).
Proof.
  intros Hg Hi Hne Hload.
  destruct (lifecycle_inv_catalog _ _ Hi Hne) as (l & c & _ & _ & _ & _ & Hcat & _ & _).
  destruct (provision_context _ _ _ _ Hload) as (res & Hres & _ & _).
  pose proof (load_context_spec _ _ _ _ ctx name b c res Hg Hne Hcat Hres) as Hspec.
  unfold boundary_at. rewrite Hcat. rewrite Hload in Hspec. destruct (c !! name); [|done].
  by injection Hspec as ->.
Qed.

(** What a provisioning run may end with: the boundary that is now in the log, an error
that is the state of an active boundary, or another error. *)
Definition provision_end (ctx : Ctx) (name : string) (other : goerror → Prop)
    (res : option (result Boundary)) (b : B) : Prop :=
  match res with
  | Some (Ok bd) => boundary_at (log_of b) name = Some bd ∧ B_Status bd = StatusActive
  | Some (Err e) => CodeOf (Some e) = AlreadyExists →
      B_Status <$> boundary_at (log_of b) name = Some StatusActive ∨ other e
      ∨ ∃ b1, provision_loadContext ctx admin name latest b1 = Err e
  | None => True
  end.

Lemma activate_run fuel newID ctx command b0 model r res r' :
  let name := Def_Name (PB_Definition command) in
  log_good (store r) → lifecycle_inv (log_of (store r)) →
  ValidateName name = Ok tt → text_ok name → (∀ k, text_result (newID k)) →
  log_good b0 → extends b0 (store r) →
  provision_loadContext ctx admin name latest b0 = Ok model →
  B_Status (pc_boundary model) ≠ StatusActive →
  activate_loop env fuel newID ctx admin appender latest command model r = (res, r') →
  rtc boundary_write (store r) (store r')
  ∧ provision_end ctx name (λ _, False) res (store r').
Proof.
  intros name Hg Hi Hv Ht Hid. pose proof (ValidateName_nonempty _ Hv) as Hne.
  revert b0 model r Hg Hi. induction fuel as [|fuel IH];
    intros b0 model r Hg Hi Hg0 Hx Hload Hst H; simpl in H.
  { injection H as <- <-. by split. }
  destruct (appendOutcome _ _ _ _ _ _ _ _ _) as [a r1] eqn:Ha.
  destruct (outcome_run newID ctx _ name b0 model (Activated (mkBoundaryActivated name)) r a r1
    Hg Hi Hv Ht Hid Hg0 Hx Hload ltac:(by split) Ha) as [Hw Hbd].
  destruct a as [[bd|e]|]; [| |injection H as <- <-; by split].
  { injection H as <- <-. destruct (Hbd bd eq_refl) as [Hat Heq]. split; [done|].
    split; [done|]. by rewrite Heq. }
  case_decide as Hcode; [|injection H as <- <-; split; [done|]; by intros ?].
  destruct (writes_inv _ _ Hg Hi Hw) as [Hg1 Hi1].
  destruct (reading_run (provision_loadContext ctx admin name latest) r1 _ _ Hg1 eq_refl)
    as (Hw2 & Hg2 & _). fold name in H. change (arrive env r1) with (store (next_run env r1)) in H.
  fold (next_run env r1) in Hw2, Hg2, H. set (r2 := next_run env r1) in *.
  destruct (writes_inv _ _ Hg1 Hi1 Hw2) as [_ Hi2].
  assert (rtc boundary_write (store r) (store r2)) as Hw3 by by trans (store r1).
  destruct (provision_loadContext _ _ _ _ (store r2)) as [model2|e2] eqn:Hload2.
  - case_decide as Hact.
    + injection H as <- <-. split; [done|]. intros _. left.
      change (B_Status <$> boundary_at (log_of (store r2)) name = Some StatusActive).
      by rewrite (loaded_boundary _ _ _ _ Hg2 Hi2 Hne Hload2), <-Hact.
    + destruct (IH (store r2) model2 r2) as [Hw4 Hend]; try done.
      split; [by trans (store r2)|done].
  - injection H as <- <-. split; [done|]. intros _. right; right. by eexists.
Qed.

Lemma validateDefinition_good d :
  validateDefinition d = Ok tt → ValidateName (Def_Name d) = Ok tt ∧ placed (Def_Placement d).
Proof.
  unfold validateDefinition. intros H. destruct (ValidateName _) as [[]|]; [|done].
  destruct (_ || _) eqn:Ep; [done|]. split; [done|].
  by apply orb_false_iff in Ep as [?%String.eqb_neq ?%String.eqb_neq].
Qed.

(** The errors of a provisioner. *)
Definition provision_error (provision : Ctx → Definition_ → B → result unit * B) (ctx : Ctx)
    (d : Definition_) (e : goerror) : Prop := ∃ b b', provision ctx d b = (Err e, b').

Lemma provision_run fuel newID ctx command provision r res r' :
  let d := PB_Definition command in
  log_good (store r) → lifecycle_inv (log_of (store r)) → text_ok (Def_Name d) →
  (∀ k, text_result (newID k)) → good_provision provision →
  ProvisionBoundaryCommandHandler env fuel newID ctx command admin (Some appender) (Some latest)
    (Some provision) r = (res, r') →
  rtc boundary_write (store r) (store r')
  ∧ provision_end ctx (Def_Name d) (provision_error provision ctx d) res (store r').
Proof.
  intros d Hg Hi Ht Hid Hprov H. unfold ProvisionBoundaryCommandHandler in H. fold d in H.
  destruct (validateDefinition d) as [[]|] eqn:Hv; [|injection H as <- <-; split; [done|]].
  2:{ intros Hc. unfold validateDefinition in Hv. exfalso.
      destruct (ValidateName _); [destruct (_ || _)|]; simplify_eq/=. }
  destruct (validateDefinition_good _ Hv) as [Hname _].
  pose proof (ValidateName_nonempty _ Hname) as Hne.
  destruct (String.eqb admin ""); [injection H as <- <-; by split|].
  destruct (reading env _ r) as [loaded r1] eqn:Hr1.
  destruct (reading_run _ _ _ _ Hg Hr1) as (Hw1 & Hg1 & ->).
  destruct (writes_inv _ _ Hg Hi Hw1) as [_ Hi1].
  destruct (provision_loadContext _ _ _ _ (store r1)) as [model|e] eqn:Hload.
  2:{ injection H as <- <-. split; [done|]. intros _. right; right. by eexists. }
  case_decide as Hact.
  { injection H as <- <-. split; [done|]. intros _. left.
    by rewrite (loaded_boundary _ _ _ _ Hg1 Hi1 Hne Hload), <-Hact. }
  destruct (writing env _ r1) as [provisioned r2] eqn:Hr2. unfold writing, arrive in Hr2.
  pose proof (Henv (operations r1) _ Hg1) as Hw2. pose proof (writes_extend _ _ Hg1 Hw2) as Hx2.
  destruct (provision ctx d _) as [pres b2] eqn:Hp. injection Hr2 as <- <-.
  destruct (Hprov _ _ _ _ _ (proj1 Hx2) Hp) as (Hg2 & Hlog2 & Herr).
  set (r2 := mkRun b2 (S (operations r1))) in *.
  assert (rtc boundary_write (store r1) (store r2)) as Hw3
    by (etransitivity; [exact Hw2|by apply same_log_write]).
  destruct (writes_inv _ _ Hg1 Hi1 Hw3) as [_ Hi2].
  pose proof (writes_extend _ _ Hg1 Hw3) as Hx3.
  assert (rtc boundary_write (store r) (store r2)) as Hw by by trans (store r1).
  destruct pres as [[]|provisionErr].
  - destruct (activate_run fuel newID ctx command (store r1) model r2 res r') as [Hw4 Hend];
      try done. split; [by trans (store r2)|].
    destruct res as [[|]|]; [done| |done]. intros Hc. destruct (Hend Hc) as [?|[[]|?]]; auto.
  - assert (provision_error provision ctx d provisionErr) as Hpe by by eexists _, _.
    case_decide as Hfailed.
    { injection H as <- <-. split; [done|]. intros _. by right; left. }
    destruct (appendOutcome _ _ _ _ _ _ _ _ _) as [a r3] eqn:Ha.
    destruct (Herr _ eq_refl) as [Hen Het].
    destruct (outcome_run newID ctx (PB_Metadata command) (Def_Name d) (store r1) model
      (Failed (mkBoundaryFailed (Def_Name d) (Error_text provisionErr))) r2 a r3)
      as [Hw4 _]; try done.
    { split_and!; [done..|]. by destruct (B_Status (pc_boundary model)). }
    assert (rtc boundary_write (store r) (store r3)) as Hw5 by by trans (store r2).
    destruct a as [[bd|e]|]; injection H as <- <-; (split; [done|]); [| |done].
    + intros _. by right; left.
    + intros Hc. case_decide as He; [by right; left|]. exfalso. apply He.
      by rewrite CodeOf_wrapped in Hc.
Qed.

(** *** Active boundaries stay active *)

Lemma shape_active vs ws :
  shape (vs ++ ws) = true → shape vs = true → shape_status vs = Some StatusActive → ws = [].
Proof.
  destruct vs as [|[d| |x] [|[d'| |y] [|[d''| |z] []]]]; simpl; try done; by destruct ws.
Qed.

Definition active_at (b : B) (name : string) : Prop :=
  B_Status <$> boundary_at (log_of b) name = Some StatusActive.

Lemma active_stable b b' name :
  log_good b → lifecycle_inv (log_of b) → name ≠ "" → rtc boundary_write b b' →
  active_at b name → active_at b' name.
Proof.
  intros Hg Hi Hne Hw Hact. destruct (writes_inv _ _ Hg Hi Hw) as [_ Hi'].
  destruct (writes_extend _ _ Hg Hw) as [_ Hpre]. eapply (lifecycle_log_prefix _ _ _ _ name) in Hpre as [k Hk].
  destruct (lifecycle_inv_catalog _ _ Hi Hne) as (l & c & Hl & Hls & Hsh & _ & Hc & _ & Hst).
  destruct (lifecycle_inv_catalog _ _ Hi' Hne) as (l' & c' & Hl' & Hls' & Hsh' & _ & Hc' & _ & Hst').
  unfold active_at, boundary_at in *. rewrite Hc in Hact. rewrite Hc'. rewrite Hst in Hact.
  rewrite Hst'. rewrite Hl, Hl' in Hk.
  assert (take (length l) l' = l) as Htake.
  { eapply says_list_fun; [by apply Forall_take|done|]. rewrite fmap_take, Hk.
    rewrite <-(length_fmap fst l). by rewrite take_app_length. }
  rewrite <-(take_drop (length l) l'), Htake, fmap_app in Hsh' |- *.
  by rewrite (shape_active _ _ Hsh' Hsh Hact), app_nil_r.
Qed.

(** *** The provisioning event handler *)

(** What the handler relies on: its operations leave the admin log, their errors have a
text, and no operation but the handler itself reports [AlreadyExists]. *)
Record good_handler (provision : Ctx → Definition_ → B → result unit * B)
    (ensureGlobal : Ctx → string → B → result unit * B) : Prop := {
  gh_provision : good_provision provision;
  gh_ensure : good_provision (λ ctx d, ensureGlobal ctx (Def_Name d));
  gh_code : ∀ ctx d e, provision_error (provision_and_ensure provision ensureGlobal) ctx d e →
    CodeOf (Some e) ≠ AlreadyExists;
  gh_read : ∀ ctx request b e, LatestByCriteria latest ctx request b = Err e →
    CodeOf (Some e) ≠ AlreadyExists }.

Lemma provision_and_ensure_good provision ensureGlobal :
  good_handler provision ensureGlobal →
  good_provision (provision_and_ensure provision ensureGlobal).
Proof.
  intros [Hp He _ _] ctx d b res b' Hg H. unfold provision_and_ensure in H.
  destruct (provision ctx d b) as [[[]|e] b1] eqn:E1.
  - destruct (Hp _ _ _ _ _ Hg E1) as (Hg1 & Hl1 & _).
    destruct (He ctx d _ _ _ Hg1 H) as (Hg2 & Hl2 & Herr). rewrite Hl2, Hl1. done.
  - injection H as <- <-. by apply (Hp _ _ _ _ _ Hg E1).
Qed.

Lemma provision_load_code ctx name b e :
  (∀ ctx request b e, LatestByCriteria latest ctx request b = Err e →
    CodeOf (Some e) ≠ AlreadyExists) →
  provision_loadContext ctx admin name latest b = Err e → CodeOf (Some e) ≠ AlreadyExists.
Proof.
  intros Hread H. unfold provision_loadContext in H.
  destruct (LatestByCriteria _ _ _ _) as [res|e'] eqn:Hres; cycle 1.
  { injection H as <-. by eapply Hread. }
  cbn [mbind result_bind] in H. case_decide; [|by injection H as <-].
  destruct (filter _ _) as [|d ds]; [by injection H as <-|].
  destruct (apply_events _ _) as [c|e'] eqn:Ha; cbn [mbind result_bind] in H.
  - destruct (Catalog_Get c name); [done|]. by injection H as <-.
  - injection H as <-. clear Hres. revert Ha. generalize NewCatalog.
    induction (context_events _ _) as [|ev evs IH]; intros c Ha; [done|]. simpl in Ha.
    destruct (Catalog_Apply c ev) as [[[] c']|]; [by eapply IH|by injection Ha as <-..].
Qed.

(** Texts that were decoded are texts that the encoder writes as they are. *)
Lemma decoded_member_text m key s :
  json_faithful (json_of_map m) → string_member m key = Ok s → text_ok s.
Proof.
  rewrite json_faithful_map. intros Hf H. unfold string_member in H.
  destruct (m !! key) as [v|] eqn:Hm; [|injection H as <-; by apply text_ok_ascii].
  destruct (Hf _ _ Hm) as [_ Hv].
  destruct v as [| | |t| |]; simplify_eq/=; [by apply text_ok_ascii|done].
Qed.

Lemma provisioning_definition_text event d :
  provisioning_definition event = Ok d → text_ok (Def_Name d).
Proof.
  unfold provisioning_definition, decode_event. intros H. destruct (is_created event); [|done].
  destruct (json_Unmarshal _) as [v|] eqn:Hu; [|done]. cbn [mbind result_bind] in H.
  apply json_decoded_faithful in Hu.
  assert (∀ m data, json_faithful (json_of_map m) → created_members m = Ok data →
    text_ok (BC_Boundary data)) as Hm.
  { intros m data Hf Hc. unfold created_members in Hc.
    apply result_bind_ok in Hc as (s & Hs & Hc). inv_ok. unfold mret, result_ret in Hc.
    injection Hc as <-. simpl. by eapply decoded_member_text. }
  destruct v as [| | | | |fs]; try done; simpl in H.
  - destruct (created_members ∅) as [data|] eqn:Hc; [|done]. injection H as <-. simpl.
    eapply Hm; [|done]. apply json_faithful_map. intros k v. by rewrite lookup_empty.
  - destruct (created_members _) as [data|] eqn:Hc; [|done]. injection H as <-. simpl.
    eapply Hm; [|done]. by apply map_of_fields_faithful.
Qed.

(** Every run of the handler is made of writes; when it succeeds the boundary is active. *)
Lemma provision_handle_run fuel newID capturedAt provision ensureGlobal ctx event r res r' :
  log_good (store r) → lifecycle_inv (log_of (store r)) → (∀ k, text_result (newID k)) →
  good_handler provision ensureGlobal →
  Provisioning_Handle env fuel newID capturedAt
    (Some (mkProvisioningHandler admin (Some appender) (Some latest) (Some provision)
             (Some ensureGlobal))) ctx event r = (res, r') →
  rtc boundary_write (store r) (store r')
  ∧ ∀ d, provisioning_definition event = Ok d → res = Some (Ok tt) →
      active_at (store r') (Def_Name d).
Proof.
  intros Hg Hi Hid Hh H. unfold Provisioning_Handle in H.
  cbn [mbind option_bind PH_provision PH_ensureGlobal PH_adminBoundary PH_appender PH_retriever]
    in H.
  destruct (provisioning_definition event) as [d|e] eqn:Hd; [|injection H as <- <-; by split].
  destruct (ProvisionBoundaryCommandHandler _ _ _ _ _ _ _ _ _ _) as [pres r1] eqn:Hrun.
  destruct (provision_run _ _ _ (mkProvisionBoundary d (reaction_metadata capturedAt event))
    _ _ _ _ Hg Hi (provisioning_definition_text _ _ Hd) Hid (provision_and_ensure_good _ _ Hh)
    Hrun) as [Hw Hend].
  cbn [PB_Definition] in Hend.
  destruct pres as [[bd|e]|]; [| |injection H as <- <-; by split].
  { injection H as <- <-. split; [done|]. intros d' [= <-] _. destruct Hend as [Hat Hst].
    unfold active_at. by rewrite Hat, <-Hst. }
  case_decide as Hcode; [|injection H as <- <-; by split].
  assert (Def_Name d ≠ "") as Hne.
  { intros Hn. unfold ProvisionBoundaryCommandHandler in Hrun. cbn [PB_Definition] in Hrun.
    unfold validateDefinition in Hrun. rewrite Hn in Hrun. by injection Hrun as <- _. }
  destruct (Hend Hcode) as [Hact|[Hpe|[b1 Hload]]]; cycle 1.
  { by destruct (gh_code _ _ Hh ctx d e). }
  { by destruct (provision_load_code _ _ _ _ (gh_read _ _ Hh) Hload). }
  destruct (writes_inv _ _ Hg Hi Hw) as [Hg1 Hi1]. unfold writing, arrive in H.
  pose proof (Henv (operations r1) _ Hg1) as Hw1.
  destruct (ensureGlobal ctx (Def_Name d) _) as [eres b2] eqn:He. injection H as _ <-.
  destruct (gh_ensure _ _ Hh ctx d _ _ _ (proj1 (writes_extend _ _ Hg1 Hw1)) He) as (Hg2 & Hl2 & _).
  assert (rtc boundary_write (store r1) b2) as Hw2
    by (etransitivity; [exact Hw1|by apply same_log_write]).
  split; [by trans (store r1)|]. intros d' [= <-] _. by apply (active_stable (store r1)).
Qed.

End Writers.

(** ** The runtime of a process *)

Section Exposure.
Context `{J : GoJson, T : SqlText} {B R : Type}.
Context (admin : string) (appender : EventAppender B) (latest : LatestByCriteriaRetriever B)
  (retriever : DefinitionEventsRetriever B) `{E : !EventLog admin appender latest retriever}.
Context (env : nat → B → B) (Henv : growing admin appender latest retriever env).

(** A boundary read by its name, whatever is appended meanwhile. *)
Lemma GetBoundary_spec fuel ctx name r res r' :
  log_good (store r) → admin ≠ "" →
  GetBoundaryQueryHandler env fuel ctx name admin (Some retriever) r = (res, r') →
  ∀ bd, res = Some (Ok bd) → boundary_at (log_of (store r')) (TrimSpace name) = Some bd.
Proof using E Henv.
  intros Hg Hne H bd ->. unfold GetBoundaryQueryHandler in H.
  destruct (ValidateName _); [|done].
  destruct (replayCatalog _ _ _ _ _ _ _) as [cat r1] eqn:Hr.
  apply (replayCatalog_spec admin appender latest retriever env Henv) in Hr
    as (_ & _ & Hcat); [|done..].
  destruct cat as [[c|e]|]; try done. injection H as H <-. cbn [mbind result_bind] in H.
  unfold boundary_at. rewrite Hcat, <-Catalog_Get_lookup.
  destruct (Catalog_Get c _); [by injection H as <-|done].
Qed.

(** C36: a process exposes only boundaries that are active in the log. Handling an
activation event changes the runtime of the process only by installing, and then activating,
a boundary that the log, as it was read for this event, says is active, and whose definition
is before the event; so an activation of a removed definition never exposes its successor. *)
Theorem runtime_exposes_active fuel ctx install activate event (r : Run B) (rt : R) res r' rt' :
  log_good (store r) → admin ≠ "" →
  Runtime_Handle env fuel (Some (mkRuntimeHandler admin (Some retriever) (Some install)
    (Some activate))) ctx event r rt = (res, r', rt') →
  rt' = rt
  ∨ ∃ name bd ires rt1, boundary_at (log_of (store r')) name = Some bd
      ∧ B_Status bd = StatusActive
      ∧ (∀ p, B_DefinitionPosition bd = Some p → pos_lt p (core.Pos event))
      ∧ install (mkDefinition (B_Name bd) (B_Description bd) (B_Placement bd)) rt = (ires, rt1)
      ∧ match ires with
        | Ok _ => ∃ ares, activate (B_Name bd) rt1 = (ares, rt')
        | Err _ => rt' = rt1
        end.
Proof using E Henv.
  intros Hg Hne H. unfold Runtime_Handle in H.
  cbn [mbind option_bind RH_retriever RH_install RH_activate RH_adminBoundary] in H.
  destruct (String.eqb admin ""); [left; by injection H as _ _ <-|].
  destruct (negb _); [left; by injection H as _ _ <-|].
  destruct (decode_event _ _) as [a|]; [|left; by injection H as _ _ <-].
  destruct (GetBoundaryQueryHandler _ _ _ _ _ _ _) as [found r1] eqn:Hf.
  destruct found as [found|]; [|left; by injection H as _ _ <-].
  destruct (runtime_boundary event found) as [[bd|]|] eqn:Hb; [|left; by injection H as _ _ <-..].
  right. unfold runtime_boundary in Hb. destruct found as [bd'|e]; [|by case_decide].
  destruct (from_option _ _ _) eqn:Hpos; [done|]. case_decide as Hact; [|done].
  injection Hb as ->. pose proof (GetBoundary_spec _ _ _ _ _ _ Hg Hne Hf bd eq_refl) as Hat.
  destruct (install _ rt) as [[u|e] rt1] eqn:Hi; cycle 1.
  { injection H as _ <- <-. exists (TrimSpace (BA_Boundary a)), bd, (Err e), rt1.
    split_and!; [done|done| |done|done]. intros p Hp. rewrite Hp in Hpos. simpl in Hpos.
    by apply negb_false_iff, Position_After_spec in Hpos. }
  destruct (activate (B_Name bd) rt1) as [ares rt2] eqn:Ha. injection H as _ <- <-.
  exists (TrimSpace (BA_Boundary a)), bd, (Ok u), rt1. split_and!; [done|done| |done|by eexists].
  intros p Hp. rewrite Hp in Hpos. simpl in Hpos.
  by apply negb_false_iff, Position_After_spec in Hpos.
Qed.

End Exposure.
