(* ===== verification/BoundarySubscriber.v ===== *)
(** * Following the lifecycle: [admin/slices/boundary_provisioning/subscriber.go]

The subscriber hands each event of its feed to a handler and, when the handler fails,
retries the event in a loop of its own while the cursor goes on. The replay is a function;
the subscriber with its retry loops is a transition system, on whose infinite runs liveness
is stated: what was delivered is eventually handled, and a defined boundary becomes active. *)

From stdpp Require Import options.
From S2P Require Import Prelude Status Model Number Json Predicates Consistency EventData.
From S2P Require Import WriteContext SqlPredicates Sql SqliteStore SqliteLog GroupCommit.
From S2P Require Import SqliteRead SqliteIndex EventStore Api Auth Users Neutral Catalog.
From S2P Require Import Boundaries Lifecycle Provisioning.

Set Default Proof Using "Type*".

Definition boundaryProvisioningSubscriberName : string := "boundary-provisioning".
Definition boundaryRuntimeSubscriberName : string := "boundary-runtime".
Definition boundaryLifecycleReplayBatchSize : Z := 100.

Definition type_query (eventType : string) : core.Query :=
  core.mkQuery [core.mkCriterion [core.mkTag "__eventType" eventType ""]].
Definition boundaryDefinitionQuery : core.Query := type_query EventTypeBoundaryCreated.
Definition boundaryActivationQuery : core.Query := type_query EventTypeBoundaryActivated.

Definition positionAfter (commit prepare cursorCommit cursorPrepare : Z) : bool :=
  (cursorCommit <? commit)%Z || ((commit =? cursorCommit)%Z && (cursorPrepare <? prepare)%Z).

(** The mutable fields: the cursor, and the events that have a retry loop by their keys. *)
Record Subscriber := mkSubscriber {
  sub_commit : Z; sub_prepare : Z; retrying : gmap string core.ReadEvent }.

Definition NewBoundarySubscriber : Subscriber := mkSubscriber (-1) (-1) ∅.

Definition currentPosition (s : Subscriber) : Position :=
  mkPosition (sub_commit s) (sub_prepare s).

Definition setPosition (s : Subscriber) (commit prepare : Z) : Subscriber :=
  if positionAfter commit prepare (sub_commit s) (sub_prepare s)
  then mkSubscriber commit prepare (retrying s) else s.

(** The key of a retry loop. *)
Definition retry_key (event : core.ReadEvent) : string :=
  if String.eqb (core.EventID event) ""
  then core.EventType event +:+ ":" +:+ FormatInt (CommitPosition (core.Pos event)) +:+ ":"
       +:+ FormatInt (PreparePosition (core.Pos event))
  else core.EventID event.

Definition scheduleRetry (s : Subscriber) (event : core.ReadEvent) : Subscriber :=
  match retrying s !! retry_key event with
  | Some _ => s
  | None => mkSubscriber (sub_commit s) (sub_prepare s)
              (<[retry_key event := event]> (retrying s))
  end.

(** [backoff *= 2; if backoff > 5*time.Second { backoff = 5 * time.Second }], in
milliseconds. *)
Definition next_backoff (backoff : Z) : Z :=
  if (5000 <? backoff * 2)%Z then 5000%Z else (backoff * 2)%Z.

(** ** Handling and replay *)

Section Replaying.
Context {B H : Type} (env : nat → B → B).

(** The handler acts on a world of its own; [None] is a panic. *)
Context (handle : core.ReadEvent → H → option (result unit) * H).

Definition handleOrRetry (event : core.ReadEvent) (s : Subscriber) (h : H)
  : option Subscriber * H :=
  match handle event h with
  | (None, h) => (None, h)
  | (Some (Ok _), h) => (Some s, h)
  | (Some (Err _), h) => (Some (scheduleRetry s event), h)
  end.

Definition deliver_event (event : core.ReadEvent) (s : Subscriber) (h : H) : option Subscriber * H :=
  match handleOrRetry event s h with
  | (None, h) => (None, h)
  | (Some s, h) =>
      (Some (setPosition s (CommitPosition (core.Pos event)) (PreparePosition (core.Pos event))), h)
  end.

(** The loop over one batch; [trace] is what was handed to the handler. *)
Fixpoint replay_events (cursor : Position) (advanced : bool) (trace batch : list core.ReadEvent)
    (s : Subscriber) (h : H)
  : option (Position * bool * list core.ReadEvent * Subscriber) * H :=
  match batch with
  | [] => (Some (cursor, advanced, trace, s), h)
  | event :: batch =>
      if Position_After (core.Pos event) cursor
      then
        match deliver_event event s h with
        | (None, h) => (None, h)
        | (Some s, h) =>
            replay_events (mkPosition (CommitPosition (core.Pos event))
                             (PreparePosition (core.Pos event))) true (trace ++ [event]) batch s h
        end
      else replay_events cursor advanced trace batch s h
  end.

(** The loop of [Replay]; [None] is a panic or the end of the fuel. *)
Fixpoint replay_feed (fuel : nat) (ctx : Ctx) (adminBoundary : string) (query : core.Query)
    (retriever : DefinitionEventsRetriever B) (cursor : Position) (trace : list core.ReadEvent)
    (s : Subscriber) (h : H) (r : Run B)
  : option (result (list core.ReadEvent * Subscriber)) * H * Run B :=
  match fuel with
  | O => (None, h, r)
  | S fuel =>
      let '(batch, r) := reading env
        (Read retriever ctx (core.mkReadRequest adminBoundary (Some cursor)
           boundaryLifecycleReplayBatchSize core.DirectionAscending query)) r in
      match batch with
      | Err e => (Some (Err (Wrapped "replay boundary lifecycle events: %w" e)), h, r)
      | Ok batch =>
          match replay_events cursor false trace batch s h with
          | (None, h) => (None, h, r)
          | (Some (cursor, advanced, trace, s), h) =>
              if (Z.of_nat (length batch) <? boundaryLifecycleReplayBatchSize)%Z || negb advanced
              then (Some (Ok (trace, s)), h, r)
              else replay_feed fuel ctx adminBoundary query retriever cursor trace s h r
          end
      end
  end.

End Replaying.

(** The fields that do not change. The subscription hands over a feed of events, told by
the number of the attempt, until it ends with an error or without. *)
Record SubscriberConfig (B H : Type) := mkSubscriberConfig {
  cfg_adminBoundary : string;
  cfg_subscriberName : string;
  cfg_retriever : option (DefinitionEventsRetriever B);
  cfg_subscribe : option (nat → core.SubscribeRequest → list core.ReadEvent * option goerror);
  cfg_handle : option (core.ReadEvent → H → option (result unit) * H);
  cfg_logger : bool;
  cfg_query : core.Query }.
Arguments mkSubscriberConfig {B H}.
Arguments cfg_adminBoundary {B H}.
Arguments cfg_subscriberName {B H}.
Arguments cfg_retriever {B H}.
Arguments cfg_subscribe {B H}.
Arguments cfg_handle {B H}.
Arguments cfg_logger {B H}.
Arguments cfg_query {B H}.

Section Following.
Context {B H : Type} (env : nat → B → B).

Definition NewBoundaryProvisioningSubscriber (adminBoundary : string)
    (retriever : option (DefinitionEventsRetriever B)) subscribe handle (logger : bool)
  : SubscriberConfig B H * Subscriber :=
  (mkSubscriberConfig adminBoundary boundaryProvisioningSubscriberName retriever subscribe handle
     logger boundaryDefinitionQuery, NewBoundarySubscriber).

Definition NewBoundaryRuntimeSubscriber (uuid adminBoundary : string)
    (retriever : option (DefinitionEventsRetriever B)) subscribe handle (logger : bool)
  : SubscriberConfig B H * Subscriber :=
  (mkSubscriberConfig adminBoundary (boundaryRuntimeSubscriberName +:+ "-" +:+ uuid) retriever
     subscribe handle logger boundaryActivationQuery, NewBoundarySubscriber).

Definition subscriber_not_configured : goerror :=
  PlainError "boundary provisioning subscriber is not configured".

(** [validate], with what it finds. *)
Definition subscriber_validate (cfg : SubscriberConfig B H) :=
  if String.eqb (cfg_adminBoundary cfg) "" || String.eqb (cfg_subscriberName cfg) ""
     || negb (cfg_logger cfg)
  then None
  else retriever ← cfg_retriever cfg; subscribe ← cfg_subscribe cfg; handle ← cfg_handle cfg;
       Some (retriever, subscribe, handle).

(** [Replay], with what it handed to the handler. *)
Definition Replay (fuel : nat) (ctx : Ctx) (cfg : SubscriberConfig B H) (s : Subscriber) (h : H)
    (r : Run B) : option (result (list core.ReadEvent * Subscriber)) * H * Run B :=
  match subscriber_validate cfg with
  | None => (Some (Err subscriber_not_configured), h, r)
  | Some (retriever, _, handle) =>
      replay_feed env handle fuel ctx (cfg_adminBoundary cfg) (cfg_query cfg) retriever
        (currentPosition s) [] s h r
  end.

Fixpoint deliver_all (handle : core.ReadEvent → H → option (result unit) * H)
    (feed : list core.ReadEvent) (s : Subscriber) (h : H) : option Subscriber * H :=
  match feed with
  | [] => (Some s, h)
  | event :: feed =>
      match deliver_event handle event s h with
      | (None, h) => (None, h)
      | (Some s, h) => deliver_all handle feed s h
      end
  end.

(** [Start]: the handler that it passes never makes the subscription end. *)
Definition Start (attempt : nat) (cfg : SubscriberConfig B H) (s : Subscriber) (h : H)
  : option (Subscriber * option goerror) * H :=
  match subscriber_validate cfg with
  | None => (Some (s, Some subscriber_not_configured), h)
  | Some (_, subscribe, handle) =>
      let '(feed, err) := subscribe attempt
        (core.mkSubscribeRequest (cfg_adminBoundary cfg) (cfg_subscriberName cfg)
           (Some (currentPosition s)) (cfg_query cfg)) in
      let '(s, h) := deliver_all handle feed s h in
      (s ← s; Some (s, err), h)
  end.

(** [Run] and [RunExclusive], which has no replay. [cancelled attempt point] is whether the
context is done at the head of the loop, after the subscription ended and while waiting; the
result has the waits. [None] is a panic, or the end of the fuel of a replay or of the loop. *)
Fixpoint Run_loop (fuel : nat) (exclusive : bool) (cancelled : nat → nat → bool) (ctx : Ctx)
    (cfg : SubscriberConfig B H) (attempt : nat) (backoff : Z) (waits : list Z) (s : Subscriber)
    (h : H) (r : Run B) : option (Subscriber * list Z) * H * Run B :=
  match fuel with
  | O => (None, h, r)
  | S fuel =>
      if cancelled attempt 0 then (Some (s, waits), h, r)
      else
        let again s h r :=
          if cancelled attempt 2 then (Some (s, waits), h, r)
          else Run_loop fuel exclusive cancelled ctx cfg (S attempt) (next_backoff backoff)
                 (waits ++ [backoff]) s h r in
        let follow s h r :=
          match Start attempt cfg s h with
          | (None, h) => (None, h, r)
          | (Some (s, err), h) =>
              if bool_decide (err = None) || cancelled attempt 1
              then (Some (s, waits), h, r) else again s h r
          end in
        if exclusive then follow s h r
        else match Replay fuel ctx cfg s h r with
             | (None, h, r) => (None, h, r)
             | (Some (Err _), h, r) => again s h r
             | (Some (Ok (_, s)), h, r) => follow s h r
             end
  end.

Definition Subscriber_Run (fuel : nat) (cancelled : nat → nat → bool) (ctx : Ctx)
    (cfg : SubscriberConfig B H) := Run_loop fuel false cancelled ctx cfg 0 100 [].
Definition RunExclusive (fuel : nat) (cancelled : nat → nat → bool) (ctx : Ctx)
    (cfg : SubscriberConfig B H) := Run_loop fuel true cancelled ctx cfg 0 100 [].

End Following.

(** The waits between attempts: 100 ms, doubled up to five seconds. *)
Lemma next_backoff_bounds backoff :
  (100 <= backoff <= 5000)%Z → (100 <= next_backoff backoff <= 5000)%Z.
Proof. unfold next_backoff. destruct (Z.ltb_spec 5000 (backoff * 2)); lia. Qed.


(** ** Replay of a feed *)

Section FeedReplay.
Context `{J : GoJson, T : SqlText} {B H : Type}.
Context (admin : string) (appender : EventAppender B) (latest : LatestByCriteriaRetriever B)
  (retriever : DefinitionEventsRetriever B) `{E : !EventLog admin appender latest retriever}.
Context (env : nat → B → B) (Henv : growing admin appender latest retriever env).
Context (handle : core.ReadEvent → H → option (result unit) * H)
  (Hhandle : ∀ event h, is_Some (handle event h).1).

(** The entries that a feed with [query] is made of. *)
Definition feed_log (query : core.Query) (l : list entry) : list entry :=
  filter (λ e, query_sees (core.Query_Criteria query) (en_doc e) = true) l.

Lemma positionAfter_spec c p c' p' :
  positionAfter c p c' p' = true ↔ pos_lt (mkPosition c' p') (mkPosition c p).
Proof using Type.
  unfold positionAfter, pos_lt. simpl. rewrite orb_true_iff, andb_true_iff, !Z.ltb_lt, Z.eqb_eq.
  lia.
Qed.

Lemma setPosition_forward s p :
  pos_lt (currentPosition s) p →
  currentPosition (setPosition s (CommitPosition p) (PreparePosition p)) = p.
Proof using Type.
  intros Hlt. unfold setPosition, currentPosition in *.
  rewrite (proj2 (positionAfter_spec _ _ _ _)) by by destruct p. by destruct p.
Qed.

(** A delivery moves the cursor to the event, whether the handler succeeds or fails. *)
Lemma deliver_position event s h :
  pos_lt (currentPosition s) (core.Pos event) →
  ∃ s' h', deliver_event handle event s h = (Some s', h') ∧ currentPosition s' = core.Pos event.
Proof using Hhandle.
  intros Hlt. unfold deliver_event, handleOrRetry. destruct (Hhandle event h) as [res Hres].
  destruct (handle event h) as [res' h'] eqn:Hh. simpl in Hres. subst res'.
  assert (currentPosition (scheduleRetry s event) = currentPosition s) as Hsame
    by (unfold scheduleRetry; by destruct (retrying s !! _)).
  destruct res as [u|e]; eexists _, h'; (split; [done|]); apply setPosition_forward; [done|].
  by rewrite Hsame.
Qed.

Lemma replay_events_spec cursor adv trace es batch s h :
  Forall2 event_of es batch → StronglySorted entry_lt es →
  Forall (λ e, pos_lt cursor (en_pos e)) es → currentPosition s = cursor →
  ∃ s' h', replay_events handle cursor adv trace batch s h
      = (Some (cursor_of cursor es, adv || bool_decide (es ≠ []), trace ++ batch, s'), h')
    ∧ currentPosition s' = cursor_of cursor es.
Proof using Hhandle.
  intros Hb. revert cursor adv trace s h.
  induction Hb as [|e ev es batch He _ IH]; intros cursor adv trace s h.
  { intros _ _ Hs. exists s, h. simpl. by rewrite orb_false_r, app_nil_r. }
  intros [Hs Hlt]%StronglySorted_inv [Hc _]%Forall_cons Hcur. simpl.
  pose proof (eo_pos _ _ He) as Hp.
  rewrite (proj2 (Position_After_spec _ _)) by by rewrite Hp.
  destruct (deliver_position ev s h) as (s1 & h1 & -> & Hs1); [by rewrite Hcur, Hp|].
  assert (mkPosition (CommitPosition (core.Pos ev)) (PreparePosition (core.Pos ev)) = en_pos e)
    as -> by (rewrite Hp; by destruct (en_pos e)).
  destruct (IH (en_pos e) true (trace ++ [ev]) s1 h1 Hs Hlt) as (s2 & h2 & -> & Hs2);
    [by rewrite Hs1|]. exists s2, h2. rewrite cursor_after_cons, <-app_assoc. split; [|done].
  by rewrite orb_true_r.
Qed.

Lemma feed_log_facts query b :
  log_good b → StronglySorted entry_lt (feed_log query (log_of b))
  ∧ (∀ e, e ∈ feed_log query (log_of b) → pos_lt NotExistsPosition (en_pos e)).
Proof using Type.
  clear Henv. intros Hg. unfold feed_log. split.
  - apply StronglySorted_filter. by apply el_sorted.
  - intros e [_ He]%list_elem_of_filter. by eapply el_real.
Qed.

Lemma feed_page query cursor l :
  page (core.mkReadRequest admin (Some cursor) boundaryLifecycleReplayBatchSize
          core.DirectionAscending query) l
  = take 100 (filter (λ e, pos_le cursor (en_pos e)) (feed_log query l)).
Proof using Type.
  unfold page, feed_log. change (Z.to_nat _) with 100. f_equal. rewrite list_filter_filter.
  apply list_filter_iff. intros e. unfold in_page. simpl.
  rewrite andb_true_iff, bool_decide_eq_true. tauto.
Qed.

(** One round of the replay. *)
Lemma feed_round ctx query seen rest r batch trace s h :
  log_good (store r) → feed_log query (log_of (arrive env r)) = seen ++ rest →
  Read retriever ctx (core.mkReadRequest admin (Some (cursor_of NotExistsPosition seen))
    boundaryLifecycleReplayBatchSize core.DirectionAscending query) (arrive env r) = Ok batch →
  currentPosition s = cursor_of NotExistsPosition seen →
  ∃ n new s' h', 99 ≤ n ∧ ((length batch < 100)%nat → take n rest = rest)
    ∧ Forall2 event_of (take n rest) new
    ∧ replay_events handle (cursor_of NotExistsPosition seen) false trace batch s h
      = (Some (cursor_of NotExistsPosition (seen ++ take n rest), bool_decide (take n rest ≠ []),
               trace ++ new, s'), h')
    ∧ currentPosition s' = cursor_of NotExistsPosition (seen ++ take n rest).
Proof using E Henv Hhandle.
  intros Hg HF Hr Hcur. destruct (Henv (operations r) _ Hg) as [Hga _].
  change (log_good (arrive env r)) in Hga.
  destruct (feed_log_facts query _ Hga) as (Hs & Hreal). rewrite HF in Hs, Hreal.
  apply el_read in Hr; [|done..]. rewrite feed_page, HF in Hr.
  destruct (filter_from_cursor _ _ Hs Hreal) as [Hf Hlt]. rewrite Hf, take_app in Hr.
  assert (length (option_list (last seen)) ≤ 1) as Ho by (destruct (last seen); simpl; lia).
  rewrite (take_ge (option_list (last seen))) in Hr by lia.
  set (n := 100 - length (option_list (last seen))) in *.
  assert (∃ new, Forall2 event_of (take n rest) new ∧
    replay_events handle (cursor_of NotExistsPosition seen) false trace batch s h
    = replay_events handle (cursor_of NotExistsPosition seen) false trace new s h)
    as (new & Hb & ->).
  { unfold cursor_of. destruct (last seen) as [e|]; simpl in Hr |- *; [|by exists batch].
    apply Forall2_cons_inv_l in Hr as (ev & new & He & Hb & ->). exists new.
    split; [done|]. simpl. rewrite (eo_pos _ _ He).
    destruct (Position_After (en_pos e) (en_pos e)) eqn:Ha; [|done].
    by apply Position_After_spec, pos_lt_irrefl in Ha. }
  assert (StronglySorted entry_lt (take n rest)) as Hs'.
  { apply StronglySorted_app_1_r in Hs. rewrite <-(take_drop n rest) in Hs.
    by apply StronglySorted_app_1_l in Hs. }
  destruct (replay_events_spec (cursor_of NotExistsPosition seen) false trace _ _ s h Hb Hs'
    (Forall_take _ _ _ Hlt) Hcur) as (s' & h' & Hrun & Hs1).
  assert (cursor_of (cursor_of NotExistsPosition seen) (take n rest)
    = cursor_of NotExistsPosition (seen ++ take n rest)) as Hcat.
  { unfold cursor_of. rewrite last_app. by destruct (last (take n rest)). }
  rewrite Hcat in Hrun, Hs1. exists n, new, s', h'. split_and!; [lia| |done..].
  intros Hlen. apply take_ge. apply Forall2_length in Hr. rewrite length_app, length_take in Hr.
  lia.
Qed.

Lemma replay_feed_spec fuel ctx query seen0 seen trace s h r res h' r' :
  log_good (store r) → (seen0 ++ seen) `prefix_of` feed_log query (log_of (store r)) →
  currentPosition s = cursor_of NotExistsPosition (seen0 ++ seen) →
  Forall2 event_of seen trace →
  replay_feed env handle fuel ctx admin query retriever
    (cursor_of NotExistsPosition (seen0 ++ seen)) trace s h r = (res, h', r') →
  extends admin appender latest retriever (store r) (store r')
  ∧ (∃ j, r' = Nat.iter j (next_run env) r)
  ∧ match res with
    | Some (Ok (events, s')) => ∃ new,
        feed_log query (log_of (store r')) = seen0 ++ new ∧ Forall2 event_of new events
        ∧ currentPosition s' = cursor_of NotExistsPosition (seen0 ++ new)
    | Some (Err e) => ∃ request b e', Read retriever ctx request b = Err e'
        ∧ e = Wrapped "replay boundary lifecycle events: %w" e'
    | None => length seen + fuel ≤ length (feed_log query (log_of (store r')))
    end.
Proof using E Henv Hhandle.
  revert seen trace s h r. induction fuel as [|fuel IH]; intros seen trace s h r Hg Hp Hcur Htr Hrun;
    simpl in Hrun.
  { injection Hrun as <- <- <-. split_and!; [by split|by exists 0|].
    apply prefix_length in Hp. rewrite length_app in Hp. lia. }
  pose proof (Henv (operations r) _ Hg) as Hext.
  change (extends admin appender latest retriever (store r) (arrive env r)) in Hext.
  pose proof Hext as [Hga Hpre].
  assert ((seen0 ++ seen) `prefix_of` feed_log query (log_of (arrive env r))) as [rest HF].
  { trans (feed_log query (log_of (store r))); [done|]. destruct Hpre as [k ->].
    unfold feed_log. rewrite filter_app. by eexists. }
  assert (∃ j, next_run env r = Nat.iter j (next_run env) r) as Hone by by exists 1.
  destruct (Read _ _ _ _) as [batch|e] eqn:Hr; cycle 1.
  { injection Hrun as <- <- <-. split_and!; [done..|]. by eexists _, _, _. }
  destruct (feed_round _ _ _ _ _ _ trace s h Hg HF Hr Hcur)
    as (n & new & s1 & h1 & Hn & Hall & Hnew & Hround & Hs1).
  rewrite Hround in Hrun. rewrite <-app_assoc in Hrun, Hs1.
  assert (Forall2 event_of (seen ++ take n rest) (trace ++ new)) as Htr'
    by by apply Forall2_app.
  destruct (_ || _) eqn:Hend.
  - injection Hrun as <- <- <-. split_and!; [done..|]. simpl.
    assert (take n rest = rest) as Heq.
    { apply orb_true_iff in Hend as [Hlen%Z.ltb_lt|Hadv%negb_true_iff].
      + apply Hall. unfold boundaryLifecycleReplayBatchSize in Hlen. lia.
      + apply bool_decide_eq_false in Hadv. apply dec_stable in Hadv. rewrite Hadv.
        destruct rest as [|e rest]; [done|]. by destruct n as [|n]; [lia|]. }
    rewrite Heq in *. exists (seen ++ rest). rewrite HF, <-app_assoc. done.
  - apply orb_false_iff in Hend as [_ Hadv%negb_false_iff].
    apply bool_decide_eq_true in Hadv.
    apply IH in Hrun as (Hx & (j & Hj) & Hres); [|done| |done|done].
    2:{ simpl. rewrite HF, app_assoc. apply prefix_app. apply prefix_take. }
    split_and!; [by eapply extends_trans| |].
    { exists (S j). rewrite Hj. by rewrite Nat.iter_succ_r. }
    destruct res as [[[]|?]|]; [done..|]. rewrite length_app in Hres.
    assert (length (take n rest) ≠ 0) by by destruct (take n rest). lia.
Qed.

Lemma Replay_configured fuel ctx cfg s h r :
  cfg_adminBoundary cfg = admin → cfg_retriever cfg = Some retriever →
  cfg_handle cfg = Some handle → is_Some (subscriber_validate cfg) →
  Replay env fuel ctx cfg s h r
  = replay_feed env handle fuel ctx admin (cfg_query cfg) retriever (currentPosition s) [] s h r.
Proof using Type.
  clear Henv Hhandle. intros Ha Hr Hh [v Hv]. unfold Replay, subscriber_validate in *.
  rewrite Ha, Hr, Hh in *. destruct (_ || _ || _); [done|].
  by destruct (cfg_subscribe cfg).
Qed.

(** C34: a restart misses nothing. A subscriber whose cursor is at one of the matching events,
or before all of them, replays page by page while others append, whether or not the handler
fails on some events. With one round more than there are events in the log whenever a page is
read the replay returns; unless a read failed, what it handed to the handler are exactly the
matching events after the cursor, each once and in order, and its cursor is at the last of
them, where the subscription that [Start] makes begins. *)
Theorem replay_exact fuel ctx cfg seen s h r :
  let query := cfg_query cfg in
  cfg_adminBoundary cfg = admin → cfg_retriever cfg = Some retriever →
  cfg_handle cfg = Some handle → is_Some (subscriber_validate cfg) →
  log_good (store r) → seen `prefix_of` feed_log query (log_of (store r)) →
  currentPosition s = cursor_of NotExistsPosition seen →
  (∀ j, length (log_of (store (Nat.iter j (next_run env) r))) < fuel) →
  ∃ res h' r', Replay env fuel ctx cfg s h r = (Some res, h', r')
    ∧ match res with
      | Ok (events, s') => ∃ new,
          feed_log query (log_of (store r')) = seen ++ new ∧ Forall2 event_of new events
          ∧ currentPosition s' = cursor_of NotExistsPosition (seen ++ new)
      | Err e => ∃ request b e', Read retriever ctx request b = Err e'
          ∧ e = Wrapped "replay boundary lifecycle events: %w" e'
      end.
Proof using E Henv Hhandle.
  intros query Hadmin Hret Hhd Hval Hg Hp Hcur Hb.
  rewrite (Replay_configured fuel ctx cfg s h r) by done. fold query.
  destruct (replay_feed env handle fuel ctx admin query retriever (currentPosition s) [] s h r)
    as [[res h'] r'] eqn:Hrun. rewrite Hcur in Hrun. rewrite <-(app_nil_r seen) in Hp, Hcur, Hrun.
  apply replay_feed_spec in Hrun as (_ & [j ->] & Hres); [|done|done|done|by constructor].
  destruct res as [res|].
  - eexists _, _, _. split; [done|]. by destruct res as [[events s']|e].
  - exfalso. specialize (Hb j). simpl in Hres. unfold feed_log in Hres.
    pose proof (length_filter (λ e, query_sees (core.Query_Criteria query) (en_doc e) = true)
      (log_of (store (Nat.iter j (next_run env) r)))). lia.
Qed.

End FeedReplay.

(** ** The subscriber with its retry loops *)

Section System.
Context {H : Type} (handle : core.ReadEvent → H → option (result unit) * H).
Context (others : H → H → Prop).

(** The subscriber, the world, and the events whose handling succeeded. *)
Record System := mkSystem {
  sys_sub : Subscriber; sys_world : H; sys_handled : list core.ReadEvent }.

Inductive label :=
  | LDeliver (event : core.ReadEvent)   (* the feed hands over an event *)
  | LRetry (key : string)               (* the timer of a retry loop fires *)
  | LOthers.                            (* others change the world *)

Definition succeeded (event : core.ReadEvent) (res : option (result unit))
    (handled : list core.ReadEvent) : list core.ReadEvent :=
  match res with Some (Ok _) => handled ++ [event] | _ => handled end.

Inductive sub_step : label → System → System → Prop :=
  | step_deliver event s h handled s' h' :
      deliver_event handle event s h = (Some s', h') →
      sub_step (LDeliver event) (mkSystem s h handled)
        (mkSystem s' h' (succeeded event (handle event h).1 handled))
  | step_retry key event s h handled res h' :
      retrying s !! key = Some event → handle event h = (Some res, h') →
      sub_step (LRetry key) (mkSystem s h handled)
        (mkSystem (match res with
                   | Ok _ => mkSubscriber (sub_commit s) (sub_prepare s)
                               (delete key (retrying s))
                   | Err _ => s
                   end) h' (succeeded event (Some res) handled))
  | step_others s h h' handled :
      others h h' → sub_step LOthers (mkSystem s h handled) (mkSystem s h' handled).

End System.
Arguments System : clear implicits.

(** ** Liveness *)

Section Liveness.
Context {H : Type} (handle : core.ReadEvent → H → option (result unit) * H).
Context (others : H → H → Prop).
Context (run : nat → System H) (lab : nat → label).
Context (Hrun : ∀ n, sub_step handle others (lab n) (run n) (run (S n))).
Context (Hstart : retrying (sys_sub (run 0)) = ∅).

(** The events of the feed are told apart by their keys. *)
Definition distinct_keys : Prop := ∀ m n e f,
  lab m = LDeliver e → lab n = LDeliver f → retry_key e = retry_key f → e = f.

(** The timer of every retry loop goes on firing. *)
Definition fair : Prop := ∀ n key,
  is_Some (retrying (sys_sub (run n)) !! key) →
  ∃ m, n ≤ m ∧ (lab m = LRetry key ∨ retrying (sys_sub (run m)) !! key = None).

(** From some moment on, handling [event] succeeds. *)
Definition handler_recovers (event : core.ReadEvent) : Prop :=
  ∃ N, ∀ n, N ≤ n → (handle event (sys_world (run n))).1 = Some (Ok tt).

Lemma setPosition_retrying s c p : retrying (setPosition s c p) = retrying s.
Proof using Type. unfold setPosition. by destruct (positionAfter _ _ _ _). Qed.

Lemma deliver_retrying event s h s' h' :
  deliver_event handle event s h = (Some s', h') →
  retrying s' = match (handle event h).1 with
                | Some (Ok _) => retrying s
                | _ => retrying (scheduleRetry s event)
                end.
Proof using Type.
  unfold deliver_event, handleOrRetry. destruct (handle event h) as [[[u|e]|] h1]; simpl;
    intros [= <- <-]; apply setPosition_retrying.
Qed.

(** What is being retried was delivered under its key. *)
Lemma retrying_delivered n key event :
  retrying (sys_sub (run n)) !! key = Some event →
  key = retry_key event ∧ ∃ m, m < n ∧ lab m = LDeliver event.
Proof using Hrun Hstart.
  induction n as [|n IH] in key, event |- *; [by rewrite Hstart, lookup_empty|]. intros Hk.
  assert (retrying (sys_sub (run n)) !! key = Some event →
    key = retry_key event ∧ ∃ m, m < S n ∧ lab m = LDeliver event) as Hold.
  { intros (? & m & ? & ?)%IH. split; [done|]. exists m. split; [lia|done]. }
  pose proof (Hrun n) as Hs. inversion Hs as [e s h hd s' h' Hd El E1 E2|
    k e s h hd res h' Hl He El E1 E2|s h h' hd Ho El E1 E2]; rewrite <-E1, <-E2 in *; simpl in *.
  - rewrite (deliver_retrying _ _ _ _ _ Hd) in Hk.
    assert (retrying (scheduleRetry s e) !! key = Some event →
      key = retry_key event ∧ ∃ m, m < S n ∧ lab m = LDeliver event) as Hsch.
    { unfold scheduleRetry. destruct (retrying s !! retry_key e); [by apply Hold|]. simpl.
      destruct (decide (key = retry_key e)) as [->|Hne].
      - rewrite lookup_insert_eq. intros [= <-]. split; [done|]. exists n. split; [lia|done].
      - rewrite lookup_insert_ne by done. apply Hold. }
    destruct ((handle e h).1) as [[u|er]|]; [by apply Hold|by apply Hsch..].
  - apply Hold. destruct res as [u|er]; [|done].
    simpl in Hk. by apply lookup_delete_Some in Hk as [_ Hk].
  - by apply Hold.
Qed.

Lemma handled_mono n event :
  event ∈ sys_handled (run n) → event ∈ sys_handled (run (S n)).
Proof using Hrun.
  intros Hin. pose proof (Hrun n) as Hs. inversion Hs as [e s h hd s' h' Hd El E1 E2|
    k e s h hd res h' Hl He El E1 E2|s h h' hd Ho El E1 E2]; rewrite <-E1 in Hin; simpl in *;
    [| |done]; unfold succeeded; repeat case_match; try done; apply elem_of_app; by left.
Qed.

(** A retry loop goes on until the event is handled. *)
Lemma pending_or_handled n event j :
  retrying (sys_sub (run n)) !! retry_key event = Some event →
  retrying (sys_sub (run (n + j))) !! retry_key event = Some event
  ∨ event ∈ sys_handled (run (n + j)).
Proof using Hrun.
  clear Hstart. intros Hp. induction j as [|j [IH|IH]].
  - rewrite Nat.add_0_r. by left.
  - rewrite Nat.add_succ_r. pose proof (Hrun (n + j)) as Hs.
    inversion Hs as [e s h hd s' h' Hd El E1 E2|k e s h hd res h' Hl He El E1 E2|
      s h h' hd Ho El E1 E2]; rewrite <-E1 in IH; simpl in *.
    + left. rewrite (deliver_retrying _ _ _ _ _ Hd).
      destruct ((handle e h).1) as [[u|er]|]; [done|..]; unfold scheduleRetry;
        (destruct (retrying s !! retry_key e) eqn:Ek; [done|]); simpl;
        (rewrite lookup_insert_ne; [done|congruence]).
    + destruct res as [u|er]; [|by left]. destruct (decide (k = retry_key event)) as [->|Hne].
      * right. simpl. apply elem_of_app. right. rewrite IH in Hl. injection Hl as ->. left.
      * left. simpl. by rewrite lookup_delete_ne.
    + by left.
  - right. rewrite Nat.add_succ_r. by apply handled_mono.
Qed.

Lemma delivered_handled n event :
  distinct_keys → fair → handler_recovers event → lab n = LDeliver event →
  ∃ m, event ∈ sys_handled (run m).
Proof using Hrun Hstart.
  intros Hkeys Hfair [N HN] Hl. pose proof (Hrun n) as Hs. rewrite Hl in Hs.
  inversion Hs as [e s h hd s' h' Hd El E1 E2| |]; subst e.
  destruct ((handle event h).1) as [[u|er]|] eqn:Hh.
  { exists (S n). rewrite <-E2. simpl. apply elem_of_app. right. left. }
  2:{ unfold deliver_event, handleOrRetry in Hd. by destruct (handle event h) as [[[|]|] ?]. }
  assert (retrying (sys_sub (run (S n))) !! retry_key event = Some event) as Hp.
  { rewrite <-E2. simpl. rewrite (deliver_retrying _ _ _ _ _ Hd), Hh. unfold scheduleRetry.
    destruct (retrying s !! retry_key event) as [f|] eqn:Ef; [|apply lookup_insert_eq].
    rewrite Ef. f_equal. destruct (retrying_delivered n (retry_key event) f) as (Hk & m & _ & Hm).
    { by rewrite <-E1. }
    symmetry. by apply (Hkeys n m). }
  set (M := S n + N). destruct (pending_or_handled (S n) event N Hp) as [HM|HM]; [|by exists M].
  destruct (Hfair M (retry_key event)) as (m & Hm & Hcase); [by eexists|].
  destruct (pending_or_handled (S n) event (m - S n) Hp) as [Hpm|Hpm];
    replace (S n + (m - S n)) with m in Hpm by lia; [|by exists m].
  destruct Hcase as [Hretry|Hnone]; [|by rewrite Hpm in Hnone].
  exists (S m). pose proof (Hrun m) as Hsm. rewrite Hretry in Hsm.
  inversion Hsm as [|k e s2 h2 hd2 res h2' Hl2 He El2 E12 E22|]; subst k.
  rewrite <-E12 in Hpm. simpl in Hpm. rewrite Hl2 in Hpm. injection Hpm as ->.
  assert (N ≤ m) as Hge by lia. specialize (HN m Hge). rewrite <-E12 in HN. simpl in HN.
  rewrite He in HN. simpl in HN. injection HN as ->. simpl. apply elem_of_app. right. left.
Qed.

(** A handled event was handled by a step of the run. *)
Lemma handled_origin n event :
  event ∈ sys_handled (run n) → event ∈ sys_handled (run 0)
  ∨ ∃ k, handle event (sys_world (run k)) = (Some (Ok tt), sys_world (run (S k))).
Proof using Hrun.
  clear Hstart. induction n as [|n IH]; [by left|]. intros Hin. pose proof (Hrun n) as Hs.
  inversion Hs as [e s h hd s' h' Hd El E1 E2|k e s h hd res h' Hl He El E1 E2|
    s h h' hd Ho El E1 E2]; rewrite <-E1 in IH; rewrite <-E2 in Hin; simpl in *.
  - unfold succeeded in Hin. unfold deliver_event, handleOrRetry in Hd.
    destruct (handle e h) as [[[[]|er]|] h1] eqn:Hh; simpl in Hin; simplify_eq; [|by apply IH].
    apply elem_of_app in Hin as [Hin|Hin]; [by apply IH|].
    apply list_elem_of_singleton in Hin as ->. right. exists n. by rewrite <-E1, <-E2.
  - destruct res as [[]|er]; simpl in Hin; [|by apply IH].
    apply elem_of_app in Hin as [Hin|Hin]; [by apply IH|].
    apply list_elem_of_singleton in Hin as ->. right. exists n. by rewrite <-E1, <-E2.
  - by apply IH.
Qed.

(** The world after a step. *)
Lemma step_world n :
  others (sys_world (run n)) (sys_world (run (S n)))
  ∨ ∃ event res, handle event (sys_world (run n)) = (res, sys_world (run (S n))).
Proof using Hrun.
  clear Hstart. pose proof (Hrun n) as Hs.
  inversion Hs as [e s h hd s' h' Hd El E1 E2|k e s h hd res h' Hl He El E1 E2|
    s h h' hd Ho El E1 E2]; simpl.
  - right. unfold deliver_event, handleOrRetry in Hd.
    destruct (handle e h) as [[[u|er]|] h1] eqn:Hh; simplify_eq; by eexists e, _.
  - right. by exists e, (Some res).
  - by left.
Qed.

End Liveness.

(** *** Boundaries become active *)

Section Active.
Context `{J : GoJson, L : !GoJsonLaws, T : SqlText} {B : Type}.
Context (admin : string) (appender : EventAppender B) (latest : LatestByCriteriaRetriever B)
  (retriever : DefinitionEventsRetriever B) `{E : !EventLog admin appender latest retriever}.
Context (env : nat → B → B).

#[local] Notation writes := (rtc (boundary_write admin appender latest retriever)).

Context (Henv : ∀ k b, log_good b → writes b (env k b)).
Context (fuel : nat) (newID : nat → result string) (capturedAt : nat → string) (ctx : Ctx).
Context (provision : Ctx → Definition_ → B → result unit * B)
  (ensureGlobal : Ctx → string → B → result unit * B).
Context (Hid : ∀ k, text_result (newID k))
  (Hgood : good_handler admin appender latest retriever provision ensureGlobal).

(** The controller: the subscriber with the provisioning handler, among other nodes. *)
Definition controller (event : core.ReadEvent) (r : Run B) : option (result unit) * Run B :=
  Provisioning_Handle env fuel newID (capturedAt (operations r))
    (Some (mkProvisioningHandler admin (Some appender) (Some latest) (Some provision)
             (Some ensureGlobal))) ctx event r.
Definition other_nodes (r r' : Run B) : Prop := writes (store r) (store r').

Lemma controller_run event r res r' :
  log_good (store r) → lifecycle_inv (log_of (store r)) → controller event r = (res, r') →
  writes (store r) (store r')
  ∧ ∀ d, provisioning_definition event = Ok d → res = Some (Ok tt) →
      active_at admin appender latest retriever (store r') (Def_Name d).
Proof using E Henv Hgood Hid L.
  intros Hg Hi H. unfold controller in H.
  exact (provision_handle_run admin appender latest retriever env Henv fuel newID
    (capturedAt (operations r)) provision ensureGlobal ctx event r res r' Hg Hi Hid Hgood H).
Qed.

Context (run : nat → System (Run B)) (lab : nat → label).
Context (Hrun : ∀ n, sub_step controller other_nodes (lab n) (run n) (run (S n))).

Lemma controller_inv n :
  log_good (store (sys_world (run 0))) → lifecycle_inv (log_of (store (sys_world (run 0)))) →
  log_good (store (sys_world (run n))) ∧ lifecycle_inv (log_of (store (sys_world (run n))))
  ∧ writes (store (sys_world (run n))) (store (sys_world (run (S n)))).
Proof using E Henv Hgood Hid Hrun L.
  intros Hg Hi.
  assert (∀ k, log_good (store (sys_world (run k))) →
    lifecycle_inv (log_of (store (sys_world (run k)))) →
    writes (store (sys_world (run k))) (store (sys_world (run (S k))))) as Hstep.
  { intros k Hgk Hik. destruct (step_world _ _ _ _ Hrun k) as [Ho|(event & res & Hh)];
      [exact Ho|]. by destruct (controller_run event _ _ _ Hgk Hik Hh). }
  induction n as [|n (Hgn & Hin & Hw)]; [by auto|].
  destruct (writes_inv _ _ _ _ _ _ Hgn Hin Hw) as [Hg1 Hi1]. auto.
Qed.

Lemma controller_writes n j :
  log_good (store (sys_world (run 0))) → lifecycle_inv (log_of (store (sys_world (run 0)))) →
  writes (store (sys_world (run n))) (store (sys_world (run (n + j)))).
Proof using E Henv Hgood Hid Hrun L.
  intros Hg Hi. induction j as [|j IH]; [by rewrite Nat.add_0_r|].
  rewrite Nat.add_succ_r. etransitivity; [exact IH|]. by apply controller_inv.
Qed.

(** C32: a boundary that is defined becomes active, for good. In every infinite run of the
controller among other nodes, if the feed delivers the definition of a boundary, the timers
of retry loops go on firing and handling that definition works from some moment on, then
there is a moment after which the log says that the boundary is active, for ever, however
often provisioning failed before and whatever other boundaries do. *)
Theorem boundary_eventually_active n event d :
  log_good (store (sys_world (run 0))) → lifecycle_inv (log_of (store (sys_world (run 0)))) →
  retrying (sys_sub (run 0)) = ∅ → sys_handled (run 0) = [] →
  distinct_keys lab → fair run lab → handler_recovers controller run event →
  lab n = LDeliver event → provisioning_definition event = Ok d → ValidateName (Def_Name d) = Ok tt →
  ∃ m, ∀ j, m ≤ j →
    active_at admin appender latest retriever (store (sys_world (run j))) (Def_Name d).
Proof using E Henv Hgood Hid Hrun L.
  intros Hg Hi Hstart Hnil Hkeys Hfair Hrec Hl Hd Hv.
  destruct (delivered_handled _ _ _ _ Hrun Hstart n event Hkeys Hfair Hrec Hl) as [m Hm].
  destruct (handled_origin _ _ _ _ Hrun m event Hm) as [H0|[k Hk]].
  { rewrite Hnil in H0. by apply elem_of_nil in H0. }
  destruct (controller_inv k Hg Hi) as (Hgk & Hik & _).
  destruct (controller_run event _ _ _ Hgk Hik Hk) as [_ Hact]. specialize (Hact d Hd eq_refl).
  exists (S k). intros j Hj. destruct (controller_inv (S k) Hg Hi) as (Hg1 & Hi1 & _).
  eapply (active_stable admin appender latest retriever env Henv); [exact Hg1|exact Hi1| | |exact Hact].
  - by apply ValidateName_nonempty.
  - replace j with (S k + (j - S k)) by lia. by apply controller_writes.
Qed.

End Active.
