(* ===== verification/BoundaryExamples.v ===== *)
(** * The boundary lifecycle over SQLite

One boundary, from its definition to its activation, by the handlers over the adapter that
the SQLite server composes: what the theorems on the lifecycle say of that run. *)

From stdpp Require Import options.
From S2P Require Import Prelude Status Model Number Json Predicates Consistency EventData.
From S2P Require Import WriteContext SqlPredicates Sql SqliteStore SqliteLog GroupCommit.
From S2P Require Import SqliteRead SqliteIndex EventStore Api Auth Users Neutral Catalog.
From S2P Require Import Boundaries Lifecycle Provisioning BoundarySubscriber.

#[local] Existing Instances example_json example_stored_json example_sql_text example_sqlitex
  example_time example_json_laws example_stored_laws example_sqlitex_laws.

Definition admin_adapter : Adapter Registry := sqlite_adapter example_now.
Definition admin_appender : EventAppender Registry := adapter_appender admin_adapter.
Definition admin_latest : LatestByCriteriaRetriever Registry := adapter_latest admin_adapter.
Definition admin_reader : DefinitionEventsRetriever Registry := adapter_reader admin_adapter.

#[local] Instance admin_log : EventLog "admin" admin_appender admin_latest admin_reader :=
  sqlite_EventLog "admin" example_now I.

Definition empty_registry : Registry := {[ "admin" := example_conn ]}.

(** No other node writes in between. *)
Definition quiet (k : nat) (b : Registry) : Registry := b.

Definition orders_definition : Definition_ :=
  mkDefinition "orders" "orders of the shop" (mkPlacement "sqlite" "orders").

Definition created_run : option (result Boundary) * Run Registry :=
  Eval vm_compute in CreateBoundaryCommandHandler quiet (Ok "id-1") example_bg
    (mkCreateBoundary "orders" "orders of the shop" (mkPlacement "sqlite" "orders") ∅) "admin"
    (Some admin_appender) (Some admin_latest) (mkRun empty_registry 0).

Definition created_store : Registry := store created_run.2.

(** *** The errors of the SQLite backend *)

Lemma ValidateTag_code key value op e :
  ValidateTag key value op = Err e → CodeOf (Some e) = InvalidArgument.
Proof. unfold ValidateTag. intros H. repeat case_match; by simplify_eq/=. Qed.

Lemma ValidateReadCriteria_code criteria e :
  ValidateReadCriteria criteria = Err e → CodeOf (Some e) = InvalidArgument.
Proof.
  induction criteria as [|c criteria IH]; [done|]. simpl. intros H.
  destruct (validate_read_tags (Tags c)) as [[]|e'] eqn:Hv; cbn [mbind result_bind] in H.
  - by apply IH.
  - injection H as ->. clear IH. induction (Tags c) as [|t ts IH]; [done|]. simpl in Hv.
    destruct (ValidateTag _ _ _) as [[]|] eqn:Ht; cbn [mbind result_bind] in Hv; [by apply IH|].
    injection Hv as ->. by eapply ValidateTag_code.
Qed.

Lemma latest_loop_code criteria found context conn e :
  (latest_loop criteria found context conn).1 = Err e →
  CodeOf (Some e) = InvalidArgument ∨ CodeOf (Some e) = Internal.
Proof.
  revert found context conn. induction criteria as [|c criteria IH]; intros found context conn H;
    [done|]. cbn [latest_loop] in H. case_decide; [injection H as <-; by left|].
  destruct (buildCriteriaSQL _) as [w|]; [|injection H as <-; by left].
  unfold mbind, stm_bind, map_err in H.
  destruct (query_rows _ _ _ _ conn) as [[rows|er] conn1]; [|injection H as <-; by right].
  destruct rows as [|event rows].
  - destruct (latest_loop criteria found context conn1) as [[[rest p]|er] conn2] eqn:Hl; [done|].
    apply (IH found context conn1). by rewrite Hl.
  - destruct (if _ || _ || _ then _ else _) as [f p].
    destruct (latest_loop criteria f p conn1) as [[[rest p']|er] conn2] eqn:Hl; [done|].
    apply (IH f p conn1). by rewrite Hl.
Qed.

Lemma admin_latest_code ctx request b e :
  LatestByCriteria admin_latest ctx request b = Err e → CodeOf (Some e) ≠ AlreadyExists.
Proof.
  unfold admin_latest, adapter_latest, LatestByCriteria, Adapter_LatestByCriteria.
  cbn [mbind option_bind admin_adapter sqlite_adapter New_Adapter adapter_retriever
    retriever_GetLatestByCriteria sqlite_retriever].
  unfold GetLatestByCriteria. intros H.
  destruct (ValidateReadCriteria _) as [[]|e1] eqn:Hv; cbn [mbind result_bind] in H.
  2:{ injection H as <-. apply ValidateReadCriteria_code in Hv. by rewrite Hv. }
  destruct (b !! _) as [conn|]; [|by injection H as <-].
  case_bool_decide; [by injection H as <-|].
  destruct (latest_loop _ _ _ conn).1 as [[ms p]|e1] eqn:Hl; [done|].
  injection H as <-. by apply latest_loop_code in Hl as [->| ->].
Qed.

(** *** The states of the run *)

#[local] Notation admin_writes :=
  (rtc (boundary_write "admin" admin_appender admin_latest admin_reader)).

Lemma empty_good : log_good empty_registry.
Proof.
  exists example_conn. split; [done|]. split; [apply log_inv_empty|]. intros r Hr.
  by destruct (not_elem_of_nil r Hr).
Qed.

Lemma empty_lifecycle : lifecycle_inv (log_of empty_registry).
Proof.
  change (log_of empty_registry) with (@nil entry). constructor.
  - intros e H. by apply elem_of_nil in H.
  - intros name _. by exists [].
Qed.

Lemma quiet_writes k b : log_good b → admin_writes b (quiet k b).
Proof. done. Qed.

Lemma quiet_growing : growing "admin" admin_appender admin_latest admin_reader quiet.
Proof. intros k b Hg. by split. Qed.

Lemma created_writes : admin_writes empty_registry created_store.
Proof.
  eapply (create_run "admin" admin_appender admin_latest admin_reader quiet quiet_writes
    (Ok "id-1") example_bg
    (mkCreateBoundary "orders" "orders of the shop" (mkPlacement "sqlite" "orders") ∅)
    (mkRun empty_registry 0) created_run.1 created_run.2 empty_good).
  - by intros s _.
  - by intros d _.
  - vm_compute. reflexivity.
Qed.

Lemma created_good : log_good created_store ∧ lifecycle_inv (log_of created_store).
Proof.
  exact (writes_inv "admin" admin_appender admin_latest admin_reader _ _ empty_good
    empty_lifecycle created_writes).
Qed.

(** *** Replaying and loading *)

Lemma catalog_replay_witness :
  ∃ res r', replayCatalog quiet 2 example_bg "admin" "orders" (Some admin_reader)
      (mkRun created_store 0) = (Some res, r')
    ∧ match res with
      | Ok c => catalog_of NewCatalog (lifecycle_log "orders" (log_of (store r'))) = Ok c
      | Err e =>
          (∃ request b, Read admin_reader example_bg request b = Err e)
          ∨ ∃ e', catalog_of NewCatalog (lifecycle_log "orders" (log_of (store r'))) = Err e'
      end.
Proof.
  destruct (catalog_replay "admin" admin_appender admin_latest admin_reader quiet quiet_growing
    2 example_bg "orders" (mkRun created_store 0) (proj1 created_good)) as (res & r' & Hr & _ & Hc).
  - discriminate.
  - intros j. assert (store (Nat.iter j (next_run quiet) (mkRun created_store 0)) = created_store)
      as ->; [|vm_compute; lia].
    induction j as [|j IH]; [reflexivity|]. exact IH.
  - exists res, r'. split; [exact Hr|exact Hc].
Defined.

Definition created_catalog : Catalog :=
  Eval vm_compute in
    match catalog_of NewCatalog (lifecycle_log "orders" (log_of created_store)) with
    | Ok c => c
    | Err _ => NewCatalog
    end.

Definition created_latest : core.LatestByCriteriaResult :=
  Eval vm_compute in
    match LatestByCriteria admin_latest example_bg (lifecycle_request "admin" "orders")
            created_store with
    | Ok res => res
    | Err _ => core.mkLatestResult [] NotExistsPosition
    end.

Lemma load_context_exact_witness :
  ∃ bd, B_Status bd = StatusProvisioning
    ∧ provision_loadContext example_bg "admin" "orders" admin_latest created_store
      = Ok (mkProvisionContext bd (mkPosition 1 1) (subsetQuery (lifecycleCriteria "orders"))).
Proof.
  pose proof (load_context_exact "admin" admin_appender admin_latest admin_reader example_bg
    "orders" created_store created_catalog created_latest (proj1 created_good)) as H.
  eexists. split; cycle 1.
  - rewrite H; [|discriminate|vm_compute; reflexivity|vm_compute; reflexivity].
    vm_compute. reflexivity.
  - reflexivity.
Defined.

Lemma boundary_lifecycle_witness :
  ∃ c l, catalog_of NewCatalog (lifecycle_log "" (log_of created_store)) = Ok c
    ∧ lifecycle_log "orders" (log_of created_store) = l.*1 ∧ length l = 1
    ∧ shape l.*2 = true ∧ B_Status <$> c !! "orders" = shape_status l.*2.
Proof.
  destruct (boundary_lifecycle "admin" admin_appender admin_latest admin_reader empty_registry
    created_store empty_good empty_lifecycle created_writes) as (c & Hc & Hn).
  destruct (Hn "orders") as (l & Hl & _ & Hs & Hb); [discriminate|].
  exists c, l. split; [exact Hc|]. split; [exact Hl|]. split; [|split; [exact Hs|exact Hb]].
  apply (f_equal length) in Hl. rewrite length_fmap in Hl. rewrite <-Hl. vm_compute. reflexivity.
Defined.

(** *** Provisioning *)

(** A backend that provisions once its disk is mounted. *)
Definition example_provision (ctx : Ctx) (d : Definition_) (b : Registry) : result unit * Registry :=
  match b !! "disk" with
  | Some _ => (Ok tt, b)
  | None => (Err (New Unavailable "no disk"), b)
  end.
Definition example_ensure (ctx : Ctx) (name : string) (b : Registry) : result unit * Registry :=
  (Ok tt, b).
Definition with_disk (b : Registry) : Registry := <["disk" := example_conn]> b.

Lemma example_good_handler :
  good_handler "admin" admin_appender admin_latest admin_reader example_provision example_ensure.
Proof.
  constructor.
  - intros ctx d b res b' Hg H. unfold example_provision in H.
    destruct (b !! "disk"); injection H as <- <-; (split_and!; [done..|]); intros e He;
      by simplify_eq/=.
  - intros ctx d b res b' Hg H. injection H as <- <-. split_and!; [done..|]. by intros e He.
  - intros ctx d e (b & b' & H). unfold provision_and_ensure, example_provision in H.
    destruct (b !! "disk"); by simplify_eq/=.
  - exact admin_latest_code.
Qed.

Lemma with_disk_writes b : log_good b → admin_writes b (with_disk b).
Proof.
  intros (conn & Hc & Hl & Hr).
  assert (with_disk b !! "admin" = b !! "admin") as Hb by by apply lookup_insert_ne.
  apply (same_log_write "admin" admin_appender admin_latest admin_reader quiet quiet_writes).
  - exists conn. by rewrite Hb.
  - change (sqlite_log "admin" (with_disk b) = sqlite_log "admin" b). unfold sqlite_log.
    by rewrite Hb.
Qed.

Definition example_ids (k : nat) : result string :=
  Ok ("id" +:+ FormatInt (Z.of_nat k)).
Definition example_captured (k : nat) : string := example_now.

(** The definition as the feed delivers it. *)
Definition orders_event : core.ReadEvent :=
  Eval vm_compute in
    match Read admin_reader example_bg (core.mkReadRequest "admin" None 10
            core.DirectionAscending boundaryDefinitionQuery) created_store with
    | Ok (event :: _) => event
    | _ => core.mkReadEvent "" "" "" "" "" NotExistsPosition 0
    end.

Definition example_controller :=
  controller "admin" admin_appender admin_latest quiet 5 example_ids example_captured example_bg
    example_provision example_ensure.

Definition start_run : Run Registry := mkRun created_store 0.
Definition failed_run : Run Registry :=
  Eval vm_compute in (example_controller orders_event start_run).2.
Definition mounted_run : Run Registry :=
  Eval vm_compute in mkRun (with_disk (store failed_run)) (operations failed_run).
Definition active_run : Run Registry :=
  Eval vm_compute in (example_controller orders_event mounted_run).2.

Lemma example_fails :
  example_controller orders_event start_run
  = (Some (Err (New Unavailable "no disk")), failed_run).
Proof. vm_compute. reflexivity. Qed.

Lemma example_succeeds :
  example_controller orders_event mounted_run = (Some (Ok tt), active_run).
Proof. vm_compute. reflexivity. Qed.

Lemma example_ids_text k : text_result (example_ids k).
Proof. by intros s _. Qed.

Lemma failed_good : log_good (store failed_run) ∧ lifecycle_inv (log_of (store failed_run)).
Proof.
  destruct created_good as [Hg Hi].
  destruct (controller_run "admin" admin_appender admin_latest admin_reader quiet quiet_writes 5
    example_ids example_captured example_bg example_provision example_ensure example_ids_text
    example_good_handler orders_event start_run _ _ Hg Hi example_fails) as [Hw _].
  exact (writes_inv "admin" admin_appender admin_latest admin_reader _ _ Hg Hi Hw).
Qed.

Lemma mounted_good : log_good (store mounted_run) ∧ lifecycle_inv (log_of (store mounted_run)).
Proof.
  destruct failed_good as [Hg1 Hi1].
  refine (writes_inv "admin" admin_appender admin_latest admin_reader _ _ Hg1 Hi1 _).
  change (store mounted_run) with (store (mkRun (with_disk (store failed_run)) 0)).
  by apply with_disk_writes.
Qed.

Lemma active_good : log_good (store active_run) ∧ lifecycle_inv (log_of (store active_run)).
Proof.
  destruct mounted_good as [Hg Hi].
  destruct (controller_run "admin" admin_appender admin_latest admin_reader quiet quiet_writes 5
    example_ids example_captured example_bg example_provision example_ensure example_ids_text
    example_good_handler orders_event mounted_run _ _ Hg Hi example_succeeds) as [Hw _].
  exact (writes_inv "admin" admin_appender admin_latest admin_reader _ _ Hg Hi Hw).
Qed.

(** *** The runtime of a process: the boundaries that it has installed and activated. *)

Definition activation_event : core.ReadEvent :=
  Eval vm_compute in
    match Read admin_reader example_bg (core.mkReadRequest "admin" None 10
            core.DirectionAscending boundaryActivationQuery) (store active_run) with
    | Ok (event :: _) => event
    | _ => core.mkReadEvent "" "" "" "" "" NotExistsPosition 0
    end.

Definition example_install (d : Definition_) (rt : list string) : result unit * list string :=
  (Ok tt, rt ++ ["install " +:+ Def_Name d]).
Definition example_activate (name : string) (rt : list string) : result unit * list string :=
  (Ok tt, rt ++ ["activate " +:+ name]).

Lemma runtime_exposes_active_witness :
  ∃ name bd, boundary_at (log_of (store active_run)) name = Some bd
    ∧ B_Status bd = StatusActive.
Proof.
  destruct (runtime_exposes_active "admin" admin_appender admin_latest admin_reader quiet
    quiet_growing 5 example_bg example_install example_activate activation_event active_run []
    (Some (Ok tt)) (mkRun (store active_run) 7) ["install orders"; "activate orders"]
    (proj1 active_good)) as [H|(name & bd & _ & _ & Hb & Hs & _)].
  - discriminate.
  - vm_compute. reflexivity.
  - discriminate.
  - exists name, bd. split; [exact Hb|exact Hs].
Defined.

(** *** The controller *)

Definition orders_retried : Subscriber :=
  mkSubscriber 1 1 {[ "id-1" := orders_event ]}.

Definition example_run (n : nat) : System (Run Registry) :=
  match n with
  | 0 => mkSystem NewBoundarySubscriber start_run []
  | 1 => mkSystem orders_retried failed_run []
  | 2 => mkSystem orders_retried mounted_run []
  | _ => mkSystem (mkSubscriber 1 1 ∅) active_run [orders_event]
  end.

Definition example_label (n : nat) : label :=
  match n with 0 => LDeliver orders_event | 2 => LRetry "id-1" | _ => LOthers end.

#[local] Notation example_others := (other_nodes "admin" admin_appender admin_latest admin_reader).

Lemma example_steps n :
  sub_step example_controller example_others (example_label n) (example_run n)
    (example_run (S n)).
Proof.
  destruct n as [|[|[|n]]]; cbn [example_label example_run].
  - apply (step_deliver example_controller example_others orders_event NewBoundarySubscriber
      start_run [] orders_retried failed_run).
    unfold deliver_event, handleOrRetry. rewrite example_fails. vm_compute. reflexivity.
  - apply step_others. change (admin_writes (store failed_run) (with_disk (store failed_run))).
    apply with_disk_writes, failed_good.
  - exact (step_retry example_controller example_others "id-1" orders_event orders_retried
      mounted_run [] (Ok tt) active_run eq_refl example_succeeds).
  - apply step_others. unfold other_nodes. reflexivity.
Qed.

Lemma example_fair : fair example_run example_label.
Proof.
  intros n key Hk. destruct n as [|[|[|n]]].
  - by destruct Hk.
  - exists 3. split; [lia|]. by right.
  - exists 3. split; [lia|]. by right.
  - by destruct Hk.
Qed.

Lemma example_distinct : distinct_keys example_label.
Proof.
  intros m n e f Hm Hn _. destruct m as [|[|[|m]]], n as [|[|[|n]]]; try discriminate.
  cbn in Hm, Hn. congruence.
Qed.

Lemma example_recovers : handler_recovers example_controller example_run orders_event.
Proof.
  exists 3. intros n Hn. destruct n as [|[|[|n]]]; try lia. vm_compute. reflexivity.
Qed.

(** A run in which provisioning fails, the disk is mounted, and the retry succeeds. *)
Lemma boundary_eventually_active_witness :
  ∃ m, ∀ j, m ≤ j →
    active_at "admin" admin_appender admin_latest admin_reader
      (store (sys_world (example_run j))) "orders".
Proof.
  refine (boundary_eventually_active "admin" admin_appender admin_latest admin_reader quiet
    quiet_writes 5 example_ids example_captured example_bg example_provision example_ensure
    example_ids_text example_good_handler example_run example_label example_steps 0 orders_event
    orders_definition (proj1 created_good) (proj2 created_good) eq_refl eq_refl example_distinct
    example_fair example_recovers eq_refl eq_refl eq_refl).
Defined.

(** *** The replay of a process that starts *)

Definition example_feed : SubscriberConfig Registry nat * Subscriber :=
  NewBoundaryRuntimeSubscriber "u" "admin" (Some admin_reader) (Some (λ _ _, ([], None)))
    (Some (λ _ h, (Some (Ok tt), S h))) true.

Lemma replay_exact_witness :
  ∃ res h' r', Replay quiet 5 example_bg example_feed.1 example_feed.2 0 active_run
      = (Some res, h', r')
    ∧ match res with
      | Ok (events, s') => ∃ new,
          feed_log boundaryActivationQuery (log_of (store r')) = [] ++ new
          ∧ Forall2 event_of new events
          ∧ currentPosition s' = cursor_of NotExistsPosition ([] ++ new)
      | Err e => ∃ request b e', Read admin_reader example_bg request b = Err e'
          ∧ e = Wrapped "replay boundary lifecycle events: %w" e'
      end.
Proof.
  apply (replay_exact "admin" admin_appender admin_latest admin_reader quiet quiet_growing
    (λ _ h, (Some (Ok tt), S h)) (λ _ _, ltac:(by eexists)) 5 example_bg example_feed.1
    [] example_feed.2 0 active_run eq_refl eq_refl eq_refl (ltac:(by eexists))
    (proj1 active_good)).
  - apply prefix_nil.
  - reflexivity.
  - intros j. assert (store (Nat.iter j (next_run quiet) active_run) = store active_run)
      as ->; [|vm_compute; lia].
    induction j as [|j IH]; [reflexivity|]. exact IH.
Defined.
