(* ===== verification/JetStreamLock.v ===== *)
(** * The distributed lock: [orisun/jetstream_lock_provider.go]

A lock is a key of a JetStream bucket whose value names its holder and when the lease ends;
writes to it are guarded by the revision of the entry. Every call of [AcquireLock] is a
process of a transition system: the goroutine that acquires and then maintains the lease,
and a thread that checks it. Each operation on the bucket is one step, between which time
passes and the other processes run; each may fail, with or without having had its effect.
Every process has a clock of its own. *)

From stdpp Require Import options.
From S2P Require Import Prelude Status Model Number Json SqliteIndex.

Set Default Proof Using "Type*".

#[local] Open Scope Z_scope.

(** ** Data *)

Definition lockBucketName : string := "ORISUN_LOCKS".
Definition lockValueVersion : Z := 1.

(** Durations are in nanoseconds. *)
Record jetStreamLockConfig := mkLockConfig {
  leaseDuration : Z; heartbeatInterval : Z; operationTimeout : Z; retryDelay : Z;
  maxRetries : nat }.

Definition defaultJetStreamLockConfig : jetStreamLockConfig :=
  mkLockConfig 15000000000 5000000000 2000000000 500000000 3.

Record jetStreamLockValue := mkLockValue {
  LV_Version : Z; LV_OwnerID : string; LV_Token : string; LV_ExpiresUnixNano : Z }.

Definition ErrKeyExists : goerror := Sentinel "jetstream.ErrKeyExists".
Definition ErrKeyNotFound : goerror := Sentinel "jetstream.ErrKeyNotFound".
Definition ErrKeyDeleted : goerror := Sentinel "jetstream.ErrKeyDeleted".

Definition key_missing (e : goerror) : bool :=
  errors_Is e ErrKeyNotFound || errors_Is e ErrKeyDeleted.

Section Encoding.
Context `{J : GoJson}.

Definition encode_lock_value (v : jetStreamLockValue) : result string :=
  json_Marshal (JObject
    [("version", JNumber (FormatInt (LV_Version v))); ("owner_id", JString (LV_OwnerID v));
     ("token", JString (LV_Token v));
     ("expires_unix_nano", JNumber (FormatInt (LV_ExpiresUnixNano v)))]).

(** A member that is decoded into an integer of 64 bits. *)
Definition int_member (m : gmap string json) (key : string) : result Z :=
  match m !! key with
  | None | Some JNull => Ok 0
  | Some (JNumber text) =>
      match ParseInt text with
      | Some z => Ok z
      | None => Err (PlainError "cannot unmarshal number into an integer")
      end
  | Some _ => Err (PlainError "cannot unmarshal into an integer")
  end.

Definition lock_value_members (m : gmap string json) : result jetStreamLockValue :=
  version ← int_member m "version";
  owner ← string_member m "owner_id";
  token ← string_member m "token";
  expires ← int_member m "expires_unix_nano";
  mret (mkLockValue version owner token expires).

Definition decodeJetStreamLockValue (raw : string) : option jetStreamLockValue :=
  match json_Unmarshal raw ≫= struct_of lock_value_members with
  | Err _ => None
  | Ok value =>
      if negb (LV_Version value =? lockValueVersion) || String.eqb (LV_Token value) ""
      then None else Some value
  end.

End Encoding.

(** ** The bucket *)

(** [lockKeyValue]: a state of the bucket and of the network to it; an entry is its value
with its revision. *)
Class LockKeyValue (K : Type) := {
  kv_Get : string → K → result (string * Z) * K;
  kv_Create : string → string → K → result Z * K;
  kv_Update : string → string → Z → K → result Z * K;
  kv_Delete : string → Z → K → result unit * K }.

(** What JetStream documents: [Create] writes a key that is not there, [Update] and [Delete]
one whose revision is the given one; every write gets a new revision. An operation whose
reply is an error may have had its effect. *)
Class LockKeyValueLaws (K : Type) `{KV : LockKeyValue K} := {
  bucket : K → gmap string (string * Z);
  sequence : K → Z;
  bucket_revision b k raw rev : bucket b !! k = Some (raw, rev) → rev <= sequence b;
  kv_get_law k b r b' :
    kv_Get k b = (r, b') →
    (bucket b' = bucket b ∧ sequence b' = sequence b)
    ∧ match r with Ok e => bucket b !! k = Some e | Err _ => True end;
  kv_create_law k v b r b' :
    kv_Create k v b = (r, b') →
    (bucket b' = bucket b ∧ sequence b' = sequence b ∧ is_ok r = false)
    ∨ ∃ rev, bucket b !! k = None ∧ bucket b' = <[k := (v, rev)]> (bucket b)
        ∧ sequence b < rev ∧ sequence b' = rev ∧ (r = Ok rev ∨ is_ok r = false);
  kv_update_law k v last b r b' :
    kv_Update k v last b = (r, b') →
    (bucket b' = bucket b ∧ sequence b' = sequence b ∧ is_ok r = false)
    ∨ ∃ raw rev, bucket b !! k = Some (raw, last) ∧ bucket b' = <[k := (v, rev)]> (bucket b)
        ∧ sequence b < rev ∧ sequence b' = rev ∧ (r = Ok rev ∨ is_ok r = false);
  kv_delete_law k last b r b' :
    kv_Delete k last b = (r, b') →
    (bucket b' = bucket b ∧ sequence b' = sequence b ∧ is_ok r = false)
    ∨ ∃ raw, bucket b !! k = Some (raw, last) ∧ bucket b' = delete k (bucket b)
        ∧ sequence b <= sequence b' }.

(** ** A call of [AcquireLock] and its lease *)

Inductive pc :=
  (* AcquireLock: the head of the loop, and its operations with the time it has read *)
  | AStart (attempt : nat)
  | ACreate (attempt : nat) (now : Z)
  | AGet (attempt : nat) (now : Z)
  | AUpdate (attempt : nat) (now : Z) (revision : Z)
  | AWait (attempt : nat)
  | AFailed (e : goerror)
  (* maintain: its select, renew with the new end of the lease, stillOwns after a failure *)
  | MSelect
  | MRenew (expires : Z)
  | MOwns (e : goerror)
  | MOwned (e : goerror) (entry : result (string * Z))
  | MExpiry
  (* releaseRemote *)
  | MRelease (attempt : nat)
  | MDelete (attempt : nat) (revision : Z)
  | MSleep (attempt : nat)
  | MDone.

(** [Check], running beside. *)
Inductive check_pc :=
  | CIdle
  | CGet
  | COwned (entry : result (string * Z))
  | CDone (r : result unit).

(** The provider's owner, the call and the fields of [jetStreamLockLeaseHandle]: whether the
parent context and the lease's own are cancelled, and whether [stop] and [lost] are closed. *)
Record proc := mkProc {
  p_name : string; p_owner : string; p_token : string;
  p_parent : bool;
  p_pc : pc;
  l_revision : Z; l_expires : Z;
  l_cancelled : bool; l_stop : bool; l_lost : bool;
  p_check : check_pc }.

Definition goto (p : proc) (c : pc) : proc :=
  mkProc (p_name p) (p_owner p) (p_token p) (p_parent p) c (l_revision p) (l_expires p)
    (l_cancelled p) (l_stop p) (l_lost p) (p_check p).
Definition checking (p : proc) (c : check_pc) : proc :=
  mkProc (p_name p) (p_owner p) (p_token p) (p_parent p) (p_pc p) (l_revision p) (l_expires p)
    (l_cancelled p) (l_stop p) (l_lost p) c.
Definition set_lease (p : proc) (revision expires : Z) : proc :=
  mkProc (p_name p) (p_owner p) (p_token p) (p_parent p) (p_pc p) revision expires
    (l_cancelled p) (l_stop p) (l_lost p) (p_check p).
Definition markLost (p : proc) : proc :=
  mkProc (p_name p) (p_owner p) (p_token p) (p_parent p) (p_pc p) (l_revision p) (l_expires p)
    true (l_stop p) true (p_check p).
(** The end of [maintain], whose deferred calls cancel the lease. *)
Definition finish (p : proc) : proc :=
  mkProc (p_name p) (p_owner p) (p_token p) (p_parent p) MDone (l_revision p) (l_expires p)
    true (l_stop p) (l_lost p) (p_check p).
Definition stopping (p : proc) : proc :=
  mkProc (p_name p) (p_owner p) (p_token p) (p_parent p) (p_pc p) (l_revision p) (l_expires p)
    (l_cancelled p) true (l_lost p) (p_check p).
(** The parent context ends, and the lease's with it. *)
Definition cancel_parent (p : proc) : proc :=
  mkProc (p_name p) (p_owner p) (p_token p) true (p_pc p) (l_revision p) (l_expires p)
    true (l_stop p) (l_lost p) (p_check p).

Section Provider.
Context `{J : GoJson} {K : Type} `{KV : LockKeyValue K} (config : jetStreamLockConfig).

Definition lock_value (p : proc) (expires : Z) : jetStreamLockValue :=
  mkLockValue lockValueVersion (p_owner p) (p_token p) expires.

Definition startLease (p : proc) (revision expires : Z) : proc :=
  mkProc (p_name p) (p_owner p) (p_token p) (p_parent p) MSelect revision expires
    (p_parent p) false false CIdle.

(** After an attempt that did not get the lock: wait, unless it was the last one. *)
Definition next_attempt (p : proc) (attempt : nat) : proc :=
  goto p (if (S attempt <? maxRetries config)%nat then AWait attempt else AStart (S attempt)).

Definition next_release (p : proc) (attempt : nat) : proc :=
  goto p (if (S attempt <? maxRetries config)%nat then MSleep attempt else MRelease (S attempt)).

(** [stillOwns], given what its read returned. *)
Definition stillOwns (p : proc) (now : Z) (entry : result (string * Z)) : result bool :=
  match entry with
  | Err e => if key_missing e then Ok false else Err e
  | Ok (raw, _) =>
      match decodeJetStreamLockValue raw with
      | None => Ok false
      | Some value =>
          Ok (String.eqb (LV_OwnerID value) (p_owner p) && String.eqb (LV_Token value) (p_token p)
              && (now <? LV_ExpiresUnixNano value))
      end
  end.

(** [AcquireLock], one operation at a time; [now] is what the clock says. *)
Definition acquire_step (now : Z) (p : proc) (b : K) : option (proc * K) :=
  match p_pc p with
  | AStart attempt =>
      Some (if (attempt <? maxRetries config)%nat then goto p (ACreate attempt now)
            else goto p (AFailed (PlainError "failed to acquire lock %s after %d retries")), b)
  | ACreate attempt t =>
      match encode_lock_value (lock_value p (t + leaseDuration config)) with
      | Err e => Some (goto p (AFailed (Wrapped "encode lock %s: %w" e)), b)
      | Ok encoded =>
          match kv_Create (p_name p) encoded b with
          | (Ok revision, b) => Some (startLease p revision (t + leaseDuration config), b)
          | (Err e, b) =>
              Some (if errors_Is e ErrKeyExists then goto p (AGet attempt t)
                    else goto p (AFailed (Wrapped "acquire lock %s: %w" e)), b)
          end
      end
  | AGet attempt t =>
      match kv_Get (p_name p) b with
      | (Err e, b) =>
          Some (if key_missing e then goto p (AStart (S attempt))
                else goto p (AFailed (Wrapped "read existing lock %s: %w" e)), b)
      | (Ok (raw, revision), b) =>
          Some (match decodeJetStreamLockValue raw with
                | None => goto p (AFailed (PlainError "lock %s has an unsupported value format"))
                | Some current =>
                    if LV_ExpiresUnixNano current <=? t then goto p (AUpdate attempt t revision)
                    else next_attempt p attempt
                end, b)
      end
  | AUpdate attempt t revision =>
      match encode_lock_value (lock_value p (t + leaseDuration config)) with
      | Err e => Some (goto p (AFailed (Wrapped "encode lock %s: %w" e)), b)
      | Ok encoded =>
          match kv_Update (p_name p) encoded revision b with
          | (Ok revision, b) => Some (startLease p revision (t + leaseDuration config), b)
          | (Err _, b) => Some (next_attempt p attempt, b)
          end
      end
  | AWait attempt => Some (goto p (AStart (S attempt)), b)
  | _ => None
  end.

(** [renew], [stillOwns] after a failure, and the check that follows in [maintain]. *)
Definition renew_step (now : Z) (p : proc) (b : K) : option (proc * K) :=
  match p_pc p with
  | MRenew expires =>
      match encode_lock_value (lock_value p expires) with
      | Err e => Some (goto p MExpiry, b)
      | Ok encoded =>
          match kv_Update (p_name p) encoded (l_revision p) b with
          | (Ok revision, b) => Some (goto (set_lease p revision expires) MSelect, b)
          | (Err e, b) => Some (goto p (MOwns e), b)
          end
      end
  | MOwns e => let '(entry, b) := kv_Get (p_name p) b in Some (goto p (MOwned e entry), b)
  | MOwned e entry =>
      Some (match stillOwns p now entry with
            | Ok false => finish (markLost p)
            | _ => goto p MExpiry
            end, b)
  | MExpiry => Some (if l_expires p <=? now then finish (markLost p) else goto p MSelect, b)
  | _ => None
  end.

Definition releaseRemote_step (p : proc) (b : K) : option (proc * K) :=
  match p_pc p with
  | MRelease attempt =>
      if (attempt <? maxRetries config)%nat
      then match kv_Get (p_name p) b with
           | (Err e, b) =>
               Some (if key_missing e then finish p else next_release p attempt, b)
           | (Ok (raw, revision), b) =>
               Some (match decodeJetStreamLockValue raw with
                     | Some value =>
                         if String.eqb (LV_OwnerID value) (p_owner p)
                            && String.eqb (LV_Token value) (p_token p)
                         then goto p (MDelete attempt revision) else finish p
                     | None => finish p
                     end, b)
           end
      else Some (finish p, b)
  | MDelete attempt revision =>
      match kv_Delete (p_name p) revision b with
      | (Ok _, b) => Some (finish p, b)
      | (Err e, b) => Some (if key_missing e then finish p else next_release p attempt, b)
      end
  | MSleep attempt => Some (goto p (MRelease (S attempt)), b)
  | _ => None
  end.

(** [maintain] outside its select. *)
Definition maintain_step (now : Z) (p : proc) (b : K) : option (proc * K) :=
  match p_pc p with
  | MRelease _ | MDelete _ _ | MSleep _ => releaseRemote_step p b
  | _ => renew_step now p b
  end.

(** The cases of the selects in [maintain] and in the wait of [AcquireLock]. *)
Inductive choice := ParentDone | Stopped | Lost | Tick.

Definition select_step (c : choice) (now : Z) (p : proc) : option proc :=
  match p_pc p, c with
  | MSelect, ParentDone => if p_parent p then Some (goto p (MRelease 0)) else None
  | MSelect, Stopped => if l_stop p then Some (goto p (MRelease 0)) else None
  | MSelect, Lost => if l_lost p then Some (finish p) else None
  | MSelect, Tick => Some (goto p (MRenew (now + leaseDuration config)))
  | AWait _, ParentDone => if p_parent p then Some (goto p (AFailed ContextCanceled)) else None
  | _, _ => None
  end.

(** Whether the call has returned a lease. *)
Definition leased (p : proc) : bool :=
  match p_pc p with
  | AStart _ | ACreate _ _ | AGet _ _ | AUpdate _ _ _ | AWait _ | AFailed _ => false
  | _ => true
  end.

(** [Check] of a lease: [cancelled] is whether the caller's context is done. *)
Definition check_start (cancelled : bool) (now : Z) (p : proc) : option proc :=
  match p_check p with
  | CIdle | CDone _ =>
      if leased p
      then Some (if cancelled || l_cancelled p then checking p (CDone (Err ContextCanceled))
                 else if l_expires p <=? now
                 then checking (markLost p) (CDone (Err (PlainError "lock %s lease expired")))
                 else checking p CGet)
      else None
  | _ => None
  end.

Definition check_step (now : Z) (p : proc) (b : K) : option (proc * K) :=
  match p_check p with
  | CGet => let '(entry, b) := kv_Get (p_name p) b in Some (checking p (COwned entry), b)
  | COwned entry =>
      Some (match stillOwns p now entry with
            | Err e => checking p (CDone (Err (Wrapped "check lock %s: %w" e)))
            | Ok false => checking (markLost p) (CDone (Err (PlainError "lock %s lost")))
            | Ok true => checking p (CDone (Ok tt))
            end, b)
  | _ => None
  end.

(** ** The system *)

Context (clock : nat → Z → Z).

Record state := mkState { s_time : Z; s_kv : K; s_procs : gmap nat proc }.

Inductive label :=
  | LTime (d : Z)                                   (* time passes *)
  | LCall (i : nat) (name owner token : string)     (* a call of AcquireLock *)
  | LAcquire (i : nat) | LMaintain (i : nat)
  | LSelect (i : nat) (c : choice)
  | LRelease (i : nat)                              (* Release closes stop *)
  | LCancel (i : nat)                               (* the parent context ends *)
  | LCheck (i : nat) (cancelled : bool) | LCheckStep (i : nat).

Definition new_call (name owner token : string) : proc :=
  mkProc name owner token false (AStart 0) 0 0 false false false CIdle.

Definition set_proc (s : state) (i : nat) (p : proc) (b : K) : state :=
  mkState (s_time s) b (<[i := p]> (s_procs s)).

(** [uuid.NewString] gives a token that no call has. *)
Definition fresh_token (token : string) (ps : gmap nat proc) : bool :=
  negb (String.eqb token "") && forallb (λ ip, negb (String.eqb (p_token ip.2) token)) (map_to_list ps).

Definition sys_step (l : label) (s : state) : option state :=
  let now i := clock i (s_time s) in
  match l with
  | LTime d => if 0 <=? d then Some (mkState (s_time s + d) (s_kv s) (s_procs s)) else None
  | LCall i name owner token =>
      match s_procs s !! i with
      | Some _ => None
      | None => if fresh_token token (s_procs s)
                then Some (set_proc s i (new_call name owner token) (s_kv s)) else None
      end
  | LAcquire i =>
      p ← s_procs s !! i; '(p, b) ← acquire_step (now i) p (s_kv s); Some (set_proc s i p b)
  | LMaintain i =>
      p ← s_procs s !! i; '(p, b) ← maintain_step (now i) p (s_kv s); Some (set_proc s i p b)
  | LSelect i c =>
      p ← s_procs s !! i; p ← select_step c (now i) p; Some (set_proc s i p (s_kv s))
  | LRelease i =>
      p ← s_procs s !! i; if leased p then Some (set_proc s i (stopping p) (s_kv s)) else None
  | LCancel i => p ← s_procs s !! i; Some (set_proc s i (cancel_parent p) (s_kv s))
  | LCheck i cancelled =>
      p ← s_procs s !! i; p ← check_start cancelled (now i) p; Some (set_proc s i p (s_kv s))
  | LCheckStep i =>
      p ← s_procs s !! i; '(p, b) ← check_step (now i) p (s_kv s); Some (set_proc s i p b)
  end.

Fixpoint run_labels (ls : list label) (s : state) : option state :=
  match ls with
  | [] => Some s
  | l :: ls => s ← sys_step l s; run_labels ls s
  end.

End Provider.

(** ** Decoding what was encoded *)

Section Roundtrip.
Context `{J : GoJson, L : !GoJsonLaws}.

Lemma decode_encode_lock v raw :
  text_ok (LV_OwnerID v) → text_ok (LV_Token v) → is_int64 (LV_ExpiresUnixNano v) →
  LV_Version v = lockValueVersion → LV_Token v ≠ "" →
  encode_lock_value v = Ok raw → decodeJetStreamLockValue raw = Some v.
Proof.
  intros Ho Ht He Hv Hne Henc. destruct v as [ver owner token expires].
  cbn [LV_OwnerID LV_Token LV_ExpiresUnixNano LV_Version] in *. subst ver.
  unfold encode_lock_value in Henc.
  cbn [LV_OwnerID LV_Token LV_ExpiresUnixNano LV_Version] in Henc.
  assert (∃ s, json_Marshal (JObject
    [("version", JNumber (FormatInt lockValueVersion)); ("owner_id", JString owner);
     ("token", JString token); ("expires_unix_nano", JNumber (FormatInt expires))]) = Ok s
    ∧ s ≠ "" ∧ json_Unmarshal s = Ok (JObject
    [("version", JNumber (FormatInt lockValueVersion)); ("owner_id", JString owner);
     ("token", JString token); ("expires_unix_nano", JNumber (FormatInt expires))]))
    as (s & Hs & _ & Hu).
  { apply json_roundtrip. apply json_faithful_object. intros k w.
    rewrite !elem_of_cons, elem_of_nil.
    intros [[= -> ->]|[[= -> ->]|[[= -> ->]|[[= -> ->]|[]]]]];
      (split; [by apply text_ok_ascii|]);
      [exact (json_faithful_int lockValueVersion)|done|done|exact (json_faithful_int expires)]. }
  rewrite Hs in Henc. injection Henc as <-. unfold decodeJetStreamLockValue. rewrite Hu.
  cbn [mbind result_bind struct_of]. unfold lock_value_members, int_member, string_member.
  change (map_of_fields _) with (<["expires_unix_nano" := JNumber (FormatInt expires)]>
    (<["token" := JString token]> (<["owner_id" := JString owner]>
      (<["version" := JNumber (FormatInt lockValueVersion)]> (∅ : gmap string json))))).
  set (m := <["expires_unix_nano" := _]> _).
  assert (m !! "version" = Some (JNumber (FormatInt lockValueVersion))) as -> by by simplify_map_eq.
  assert (m !! "owner_id" = Some (JString owner)) as -> by by simplify_map_eq.
  assert (m !! "token" = Some (JString token)) as -> by by simplify_map_eq.
  assert (m !! "expires_unix_nano" = Some (JNumber (FormatInt expires))) as ->
    by by simplify_map_eq.
  rewrite !ParseInt_FormatInt by done. cbn [mbind result_bind mret result_ret LV_Version LV_Token].
  by rewrite (proj2 (String.eqb_neq _ _) Hne).
Qed.

End Roundtrip.

(** ** The invariant *)

(** The clocks of the processes never go back, differ by at most [skew], and neither they
nor the ends of leases leave the range of [int64]. *)
Record good_clock (config : jetStreamLockConfig) (skew : Z) (clock : nat → Z → Z) : Prop := {
  gc_lease : 0 <= leaseDuration config;
  gc_mono i t t' : t <= t' → clock i t <= clock i t';
  gc_skew i j t : clock i t <= clock j t + skew;
  gc_range i t : is_int64 (clock i t + leaseDuration config) }.

(** Owners and tokens are UUIDs: texts that are encoded as they are. *)
Definition good_label `{J : GoJson} (l : label) : Prop :=
  match l with LCall _ _ owner token => text_ok owner ∧ text_ok token | _ => True end.

(** The lease is being maintained: neither released nor known to be lost. *)
Definition maintained (p : proc) : bool :=
  match p_pc p with
  | MSelect | MRenew _ | MOwns _ | MOwned _ _ | MExpiry => true
  | _ => false
  end.

Section Safety.
Context `{J : GoJson, L : !GoJsonLaws} {K : Type} `{KV : LockKeyValue K, KL : !LockKeyValueLaws K}.
Context (config : jetStreamLockConfig) (skew : Z) (clock : nat → Z → Z).
Context (HC : good_clock config skew clock).

(** The entry of the lock is this lease, with at least its end. *)
Definition owned (b : K) (p : proc) : Prop := ∃ raw rev v,
  bucket b !! p_name p = Some (raw, rev) ∧ decodeJetStreamLockValue raw = Some v
  ∧ LV_Token v = p_token p ∧ LV_OwnerID v = p_owner p ∧ l_expires p <= LV_ExpiresUnixNano v.

(** Whatever entry of the lock has revision [rev] satisfies [P]. *)
Definition at_revision (b : K) (p : proc) (rev : Z) (P : jetStreamLockValue → Prop) : Prop :=
  rev <= sequence b
  ∧ ∀ raw, bucket b !! p_name p = Some (raw, rev) →
      ∃ v, decodeJetStreamLockValue raw = Some v ∧ P v.

Definition mine (p : proc) (v : jetStreamLockValue) : Prop := LV_Token v = p_token p.

(** What is known at a program point, the clock of the process saying [now]. *)
Definition pc_inv (now : Z) (b : K) (p : proc) : Prop :=
  match p_pc p with
  | ACreate _ t | AGet _ t => ∃ i t', t = clock i t' ∧ t <= now
  | AUpdate _ t rev => (∃ i t', t = clock i t' ∧ t <= now)
      ∧ at_revision b p rev (λ v, LV_ExpiresUnixNano v <= t)
  | MRenew e => l_expires p <= e <= now + leaseDuration config ∧ is_int64 e
  | MDelete _ rev => at_revision b p rev (mine p)
  | _ => True
  end.

Record proc_inv (i : nat) (time : Z) (b : K) (p : proc) : Prop := {
  pi_text : text_ok (p_owner p) ∧ text_ok (p_token p) ∧ p_token p ≠ "";
  pi_pc : pc_inv (clock i time) b p;
  pi_end : leased p = true → l_expires p <= clock i time + leaseDuration config;
  pi_revision : leased p = true → at_revision b p (l_revision p) (mine p);
  pi_owned : maintained p = true → owned b p ∨ l_expires p <= clock i time + skew }.

Record sys_inv (s : state (K := K)) : Prop := {
  si_proc i p : s_procs s !! i = Some p → proc_inv i (s_time s) (s_kv s) p;
  si_token i j p q : s_procs s !! i = Some p → s_procs s !! j = Some q →
    p_token p = p_token q → i = j }.

(** *** What an operation does to the bucket *)

(** The entry of [name] may have been replaced or removed, but only one that was the own
entry of process [i] with [token] or whose lease had ended by the clock of [i]. *)
Record displaced (i : nat) (time : Z) (name token : string) (b b' : K) : Prop := {
  di_others k : k ≠ name → bucket b' !! k = bucket b !! k;
  di_sequence : sequence b <= sequence b';
  di_entry : bucket b' !! name = bucket b !! name
    ∨ (∀ raw rev, bucket b' !! name = Some (raw, rev) → sequence b < rev)
      ∧ ∀ raw rev v, bucket b !! name = Some (raw, rev) → decodeJetStreamLockValue raw = Some v →
          LV_Token v = token ∨ LV_ExpiresUnixNano v <= clock i time }.

Lemma at_revision_displaced i time name token b b' p rev P :
  displaced i time name token b b' → at_revision b p rev P → at_revision b' p rev P.
Proof using KL.
  clear HC. intros [Ho Hs He] [Hr Hp]. split; [lia|]. intros raw Hraw.
  destruct (decide (p_name p = name)) as [Hn|Hn]; [|rewrite Ho in Hraw by done; by apply Hp].
  subst name. destruct He as [He|[He _]]; [rewrite He in Hraw; by apply Hp|].
  specialize (He _ _ Hraw). lia.
Qed.

Lemma proc_inv_displaced i j time name token b b' p :
  displaced i time name token b b' → p_token p ≠ token →
  proc_inv j time b p → proc_inv j time b' p.
Proof using HC KL.
  intros HD Hne [Ht Hpc He Hr Ho]. constructor; [done| |done| |].
  - unfold pc_inv in *. destruct (p_pc p); try done.
    + destruct Hpc as [? Hpc]. split; [done|]. by eapply at_revision_displaced.
    + by eapply at_revision_displaced.
  - intros Hl. eapply at_revision_displaced; [done|]. by apply Hr.
  - intros Hm. destruct (Ho Hm) as [(raw & rev & v & Hb & Hv & Htok & Hown & Hexp)|?]; [|by right].
    destruct (decide (p_name p = name)) as [Hn|Hn].
    2:{ left. exists raw, rev, v. by rewrite (di_others _ _ _ _ _ _ HD). }
    subst name. destruct (di_entry _ _ _ _ _ _ HD) as [Hsame|[_ Hold]].
    { left. exists raw, rev, v. by rewrite Hsame. }
    right. destruct (Hold _ _ _ Hb Hv) as [Heq|Hle]; [congruence|].
    pose proof (gc_skew _ _ _ HC i j time). lia.
Qed.

Lemma displaced_same i time name token b b' :
  bucket b' = bucket b ∧ sequence b' = sequence b → displaced i time name token b b'.
Proof using Type. intros [Hb Hs]. constructor; [by rewrite Hb|lia|left; by rewrite Hb]. Qed.

Lemma displaced_write i time name token b b' v rev :
  bucket b' = <[name := (v, rev)]> (bucket b) → sequence b < rev → sequence b' = rev →
  (∀ raw rev v, bucket b !! name = Some (raw, rev) → decodeJetStreamLockValue raw = Some v →
     LV_Token v = token ∨ LV_ExpiresUnixNano v <= clock i time) →
  displaced i time name token b b'.
Proof using Type.
  intros Hb Hlt Hs Hold. constructor.
  - intros k Hk. by rewrite Hb, lookup_insert_ne.
  - lia.
  - right. split; [|done]. intros raw rev'. rewrite Hb, lookup_insert_eq. by intros [= <- <-].
Qed.

Lemma displaced_delete i time name token b b' :
  bucket b' = delete name (bucket b) → sequence b <= sequence b' →
  (∀ raw rev v, bucket b !! name = Some (raw, rev) → decodeJetStreamLockValue raw = Some v →
     LV_Token v = token ∨ LV_ExpiresUnixNano v <= clock i time) →
  displaced i time name token b b'.
Proof using Type.
  intros Hb Hs Hold. constructor; [|done|].
  - intros k Hk. by rewrite Hb, lookup_delete_ne.
  - right. split; [|done]. intros raw rev'. by rewrite Hb, lookup_delete_eq.
Qed.

(** *** Steps of one process *)

(** The step of a process keeps its name and token and displaces only what it may. *)
Definition good_step (i : nat) (time : Z) (b b' : K) (p p' : proc) : Prop :=
  p_token p' = p_token p ∧ displaced i time (p_name p) (p_token p) b b'
  ∧ proc_inv i time b' p'.

(** A step that touches neither the bucket nor what the invariant of a lease says. *)
Lemma goto_inv i time b p c :
  proc_inv i time b p → pc_inv (clock i time) b (goto p c) →
  (leased (goto p c) = true → leased p = true) →
  (maintained (goto p c) = true → maintained p = true) → proc_inv i time b (goto p c).
Proof using Type.
  intros [Ht Hpc He Hr Ho] Hpc' Hl Hm. constructor; [done|done|..]; intros H.
  - by apply He, Hl.
  - destruct (Hr (Hl H)) as [? Hat]. by split.
  - by destruct (Ho (Hm H)) as [?|?]; [left|right].
Qed.

(** One that changes only flags. *)
Lemma same_inv i time b p p' :
  proc_inv i time b p → p_name p' = p_name p → p_owner p' = p_owner p → p_token p' = p_token p →
  l_revision p' = l_revision p → l_expires p' = l_expires p →
  (p_pc p' = p_pc p ∨ p_pc p' = MDone ∧ leased p = true) → proc_inv i time b p'.
Proof using Type.
  destruct p as [n o t pa c r e ca st lo ch], p' as [n' o' t' pa' c' r' e' ca' st' lo' ch'].
  simpl. intros H -> -> -> -> -> [->|[-> Hl]]; destruct H as [Ht Hpc He Hr Ho];
    constructor; first [exact Ht|exact Hpc|exact He|exact Hr|exact Ho|exact I|discriminate
      |by intros _; apply He|by intros _; apply Hr].
Qed.

Lemma written_value p e raw :
  text_ok (p_owner p) ∧ text_ok (p_token p) ∧ p_token p ≠ "" → is_int64 e →
  encode_lock_value (lock_value p e) = Ok raw →
  decodeJetStreamLockValue raw = Some (lock_value p e).
Proof using L. intros (Ho & Ht & Hne) He Henc. by eapply decode_encode_lock. Qed.

(** A lease that has just been written. *)
Lemma startLease_inv i time b p t raw rev :
  text_ok (p_owner p) ∧ text_ok (p_token p) ∧ p_token p ≠ "" → (∃ j t', t = clock j t') →
  t <= clock i time → encode_lock_value (lock_value p (t + leaseDuration config)) = Ok raw →
  bucket b !! p_name p = Some (raw, rev) →
  proc_inv i time b (startLease p rev (t + leaseDuration config)).
Proof using HC KL L.
  intros Htext (j & t' & ->) Hle Henc Hb.
  pose proof (written_value _ _ _ Htext (gc_range _ _ _ HC j t') Henc) as Hdec.
  constructor; simpl; [done|done|lia| |]; intros _.
  - split; [by eapply bucket_revision|]. intros raw'. simpl. rewrite Hb. intros [= <-].
    by eexists.
  - left. eexists raw, rev, _. split_and!; [done..|simpl; lia].
Qed.

Lemma next_attempt_inv i time b p a :
  proc_inv i time b p → proc_inv i time b (next_attempt config p a).
Proof using Type.
  clear HC. intros H. unfold next_attempt. apply goto_inv; [done|..]; by destruct (_ <? _)%nat.
Qed.

Lemma next_release_inv i time b p a :
  leased p = true → proc_inv i time b p → proc_inv i time b (next_release config p a).
Proof using Type.
  clear HC. intros Hl H. unfold next_release. apply goto_inv; [done|..]; by destruct (_ <? _)%nat.
Qed.

(** Reading changes nothing. *)
Lemma get_inv i time b b' p r :
  kv_Get (p_name p) b = (r, b') → proc_inv i time b p → 
  displaced i time (p_name p) (p_token p) b b' ∧ proc_inv i time b' p
  ∧ match r with Ok (raw, rev) => bucket b' !! p_name p = Some (raw, rev) | Err _ => True end.
Proof using HC.
  intros Hget Hp. apply kv_get_law in Hget as [Hsame Hr]. split; [by apply displaced_same|].
  split.
  - destruct Hsame as [Hb Hs], Hp as [Ht Hpc He Hrev Ho].
    assert (∀ rev P, at_revision b p rev P → at_revision b' p rev P) as Hat.
    { intros rev P. unfold at_revision. by rewrite Hb, Hs. }
    constructor; [done| |done| |].
    + unfold pc_inv in *. destruct (p_pc p); try done; [|by apply Hat].
      destruct Hpc. split; [done|by apply Hat].
    + intros Hl. by apply Hat, Hrev.
    + unfold owned. by rewrite Hb.
  - destruct r as [[raw rev]|]; [|done]. by rewrite (proj1 Hsame).
Qed.

(** What was just read at a revision. *)
Lemma at_revision_read b p raw rev v (P : jetStreamLockValue → Prop) :
  bucket b !! p_name p = Some (raw, rev) → decodeJetStreamLockValue raw = Some v → P v →
  at_revision b p rev P.
Proof using Type.
  clear HC. intros Hb Hv HP. split; [by eapply bucket_revision|]. intros raw'. rewrite Hb.
  intros [= <-]. by exists v.
Qed.

(** A call that has no lease yet. *)
Lemma acquiring_inv i time b p c :
  text_ok (p_owner p) ∧ text_ok (p_token p) ∧ p_token p ≠ "" →
  leased (goto p c) = false → pc_inv (clock i time) b (goto p c) → proc_inv i time b (goto p c).
Proof using Type.
  clear HC. intros Ht Hl Hpc. constructor; [done|done|congruence|congruence|].
  unfold maintained, leased in *. by destruct (p_pc (goto p c)).
Qed.

Lemma acquire_create_good i time b p a t p' b' :
  p_pc p = ACreate a t → proc_inv i time b p →
  acquire_step config (clock i time) p b = Some (p', b') → good_step i time b b' p p'.
Proof using HC KL L.
  intros Epc Hp Hstep. destruct Hp as [Htext Hpc _ _ _]. unfold acquire_step in Hstep.
  unfold pc_inv in Hpc. rewrite Epc in Hstep, Hpc. destruct Hpc as (j & t' & Ht & Hle).
  destruct (encode_lock_value _) as [raw|e] eqn:Henc; cycle 1.
  { injection Hstep as <- <-. split_and!; [done|by apply displaced_same|by apply acquiring_inv]. }
  destruct (kv_Create _ _ b) as [r b1] eqn:Hc.
  assert (displaced i time (p_name p) (p_token p) b b1
    ∧ ∀ rev, r = Ok rev → bucket b1 !! p_name p = Some (raw, rev)) as [HD Hnew].
  { apply kv_create_law in Hc as [(Hb & Hs & Hr)|(rev & Hnone & Hb & Hlt & Hs & Hr)].
    - split; [by apply displaced_same|]. by intros rev ->.
    - split; [eapply displaced_write; [done..|]; intros raw' rev' v; by rewrite Hnone|].
      intros rev' ->. destruct Hr as [[= ->]|?]; [|done]. by rewrite Hb, lookup_insert_eq. }
  destruct r as [rev|e]; injection Hstep as <- <-.
  - split_and!; [done..|]. eapply startLease_inv; [done| |done|done|by apply Hnew].
    by eexists _, _.
  - destruct (errors_Is _ _); split_and!; try done; apply acquiring_inv; try done.
    by eexists _, _.
Qed.

Lemma acquire_get_good i time b p a t p' b' :
  p_pc p = AGet a t → proc_inv i time b p →
  acquire_step config (clock i time) p b = Some (p', b') → good_step i time b b' p p'.
Proof using HC KL L.
  intros Epc Hp Hstep. pose proof Hp as [Htext Hpc _ _ _]. unfold acquire_step in Hstep.
  unfold pc_inv in Hpc. rewrite Epc in Hstep, Hpc.
  destruct (kv_Get _ b) as [r b1] eqn:Hget.
  destruct (get_inv _ _ _ _ _ _ Hget Hp) as (HD & Hp1 & Hlk).
  destruct r as [[raw rev]|e]; injection Hstep as <- <-.
  - destruct (decodeJetStreamLockValue raw) as [v|] eqn:Hv.
    2:{ split_and!; [done|done|by apply acquiring_inv]. }
    destruct (Z.leb_spec (LV_ExpiresUnixNano v) t) as [Hexp|Hexp].
    + split_and!; [done|done|]. apply acquiring_inv; try done. split; [done|].
      by eapply (at_revision_read b1 p).
    + split_and!; [done|done|]. by apply next_attempt_inv.
  - destruct (key_missing e); split_and!; try done; by apply acquiring_inv.
Qed.

Lemma acquire_update_good i time b p a t rev p' b' :
  p_pc p = AUpdate a t rev → proc_inv i time b p →
  acquire_step config (clock i time) p b = Some (p', b') → good_step i time b b' p p'.
Proof using HC KL L.
  intros Epc Hp Hstep. destruct Hp as [Htext Hpc _ _ _]. unfold acquire_step in Hstep.
  unfold pc_inv in Hpc. rewrite Epc in Hstep, Hpc.
  destruct Hpc as [(j & t' & Ht & Hle) [Hseq Hat]].
  destruct (encode_lock_value _) as [raw|e] eqn:Henc; cycle 1.
  { injection Hstep as <- <-. split_and!; [done|by apply displaced_same|by apply acquiring_inv]. }
  destruct (kv_Update _ _ _ b) as [r b1] eqn:Hc.
  assert (displaced i time (p_name p) (p_token p) b b1
    ∧ ∀ rev', r = Ok rev' → bucket b1 !! p_name p = Some (raw, rev')) as [HD Hnew].
  { apply kv_update_law in Hc as [(Hb & Hs & Hr)|(raw0 & rev1 & Hold & Hb & Hlt & Hs & Hr)].
    - split; [by apply displaced_same|]. by intros rev' ->.
    - split.
      + eapply displaced_write; [done..|]. intros raw' rev' v. rewrite Hold.
        intros [= <- <-] Hv. destruct (Hat _ Hold) as (v' & Hv' & Hexp). rewrite Hv in Hv'.
        injection Hv' as <-. right. lia.
      + intros rev' ->. destruct Hr as [[= ->]|?]; [|done]. by rewrite Hb, lookup_insert_eq. }
  destruct r as [rev'|e]; injection Hstep as <- <-; split_and!; try done.
  - eapply startLease_inv; [done| |done|done|by apply Hnew]. by eexists _, _.
  - apply acquiring_inv; [done|by destruct (_ <? _)%nat|]. by destruct (_ <? _)%nat.
Qed.

Lemma acquire_good i time b p p' b' :
  proc_inv i time b p → acquire_step config (clock i time) p b = Some (p', b') →
  good_step i time b b' p p'.
Proof using HC KL L.
  intros Hp Hstep. destruct (p_pc p) as [a|a t|a t|a t rev|a| | | | | | | | | |] eqn:Epc.
  2: by eapply acquire_create_good.
  2: by eapply acquire_get_good.
  2: by eapply acquire_update_good.
  all: unfold acquire_step in Hstep; rewrite Epc in Hstep; try done; injection Hstep as <- <-;
    destruct Hp as [Htext _ _ _ _].
  - destruct (_ <? _)%nat; split_and!; try done; try (by apply displaced_same);
      apply acquiring_inv; try done. by eexists _, _.
  - split_and!; [done|by apply displaced_same|by apply acquiring_inv].
Qed.

Lemma finish_inv i time b p : leased p = true → proc_inv i time b p → proc_inv i time b (finish p).
Proof using Type. clear HC. intros Hl Hp. eapply same_inv; [exact Hp|done..|]. by right. Qed.

Lemma lost_inv i time b p :
  leased p = true → proc_inv i time b p → proc_inv i time b (finish (markLost p)).
Proof using Type. clear HC. intros Hl Hp. eapply same_inv; [exact Hp|done..|]. by right. Qed.

Lemma renew_good i time b p e p' b' :
  p_pc p = MRenew e → proc_inv i time b p →
  maintain_step config (clock i time) p b = Some (p', b') → good_step i time b b' p p'.
Proof using HC KL L.
  intros Epc Hp Hstep. pose proof Hp as [Htext Hpc Hend Hrev Hown]. unfold maintain_step, renew_step, releaseRemote_step in Hstep.
  unfold pc_inv in Hpc. unfold leased in Hend, Hrev. unfold maintained in Hown.
  rewrite Epc in *. specialize (Hend eq_refl). specialize (Hrev eq_refl).
  destruct Hpc as [[Hlo Hhi] Hint]. pose proof Hrev as [Hseq Hat].
  destruct (encode_lock_value _) as [raw|er] eqn:Henc; cycle 1.
  { injection Hstep as <- <-. split_and!; [done|by apply displaced_same|].
    apply goto_inv; [done|done|..]; intros _; unfold leased, maintained; by rewrite Epc. }
  pose proof (written_value _ _ _ Htext Hint Henc) as Hdec.
  destruct (kv_Update _ _ _ b) as [r b1] eqn:Hc.
  assert (displaced i time (p_name p) (p_token p) b b1
    ∧ (∀ rev', r = Ok rev' → bucket b1 !! p_name p = Some (raw, rev'))
    ∧ (owned b1 p ∨ l_expires p <= clock i time + skew)) as (HD & Hnew & Hstill).
  { apply kv_update_law in Hc as [(Hb & Hs & Hr)|(raw0 & rev1 & Hold & Hb & Hlt & Hs & Hr)].
    - split; [by apply displaced_same|]. split; [by intros rev' ->|].
      unfold owned. rewrite Hb. by apply Hown.
    - assert (bucket b1 !! p_name p = Some (raw, rev1)) as Hlk by by rewrite Hb, lookup_insert_eq.
      split_and!.
      + eapply displaced_write; [done..|]. intros raw' rev' v. rewrite Hold.
        intros [= <- <-] Hv. destruct (Hat _ Hold) as (v' & Hv' & Hm). rewrite Hv in Hv'.
        injection Hv' as <-. by left.
      + intros rev' ->. by destruct Hr as [[= ->]|?].
      + left. by eexists raw, rev1, _. }
  destruct r as [rev'|er]; injection Hstep as <- <-; (split; [done|]); (split; [done|]).
  - specialize (Hnew _ eq_refl). constructor; simpl; [done|done|intros _; lia| |]; intros _.
    + exact (at_revision_read b1 p raw rev' _ (mine p) Hnew Hdec eq_refl).
    + left. eexists raw, rev', _. split_and!; [done..|simpl; lia].
  - constructor; simpl; [done|done|by intros _| |done]. intros _.
    exact (at_revision_displaced i time (p_name p) (p_token p) b b1 p _ _ HD Hrev).
Qed.

Lemma release_get_good i time b p a p' b' :
  p_pc p = MRelease a → proc_inv i time b p →
  maintain_step config (clock i time) p b = Some (p', b') → good_step i time b b' p p'.
Proof using HC KL L.
  intros Epc Hp Hstep. unfold maintain_step, renew_step, releaseRemote_step in Hstep. rewrite Epc in Hstep.
  assert (leased p = true) as Hl by (unfold leased; by rewrite Epc).
  destruct (_ <? _)%nat; cycle 1.
  { injection Hstep as <- <-. split_and!; [done|by apply displaced_same|by apply finish_inv]. }
  destruct (kv_Get _ b) as [r b1] eqn:Hget.
  destruct (get_inv _ _ _ _ _ _ Hget Hp) as (HD & Hp1 & Hlk).
  destruct r as [[raw rev]|e]; injection Hstep as <- <-.
  - destruct (decodeJetStreamLockValue raw) as [v|] eqn:Hv;
      [|split_and!; [done..|by apply finish_inv]].
    destruct (String.eqb (LV_OwnerID v) _); simpl; [|split_and!; [done..|by apply finish_inv]].
    destruct (String.eqb_spec (LV_Token v) (p_token p)); [|split_and!; [done..|by apply finish_inv]].
    split_and!; [done..|]. apply goto_inv; try done.
    by eapply (at_revision_read b1 p).
  - destruct (key_missing e); split_and!; try done; [by apply finish_inv|].
    by apply next_release_inv.
Qed.

Lemma delete_good i time b p a rev p' b' :
  p_pc p = MDelete a rev → proc_inv i time b p →
  maintain_step config (clock i time) p b = Some (p', b') → good_step i time b b' p p'.
Proof using HC KL L.
  intros Epc Hp Hstep. pose proof Hp as [Htext Hpc Hend Hrev _]. unfold maintain_step, renew_step, releaseRemote_step in Hstep.
  unfold pc_inv in Hpc. rewrite Epc in Hstep, Hpc. destruct Hpc as [Hseq Hat].
  assert (leased p = true) as Hl by (unfold leased; by rewrite Epc).
  destruct (kv_Delete _ _ b) as [r b1] eqn:Hd.
  assert (displaced i time (p_name p) (p_token p) b b1) as HD.
  { apply kv_delete_law in Hd as [(Hb & Hs & _)|(raw & Hold & Hb & Hs)];
      [by apply displaced_same|].
    eapply displaced_delete; [done..|]. intros raw' rev' v. rewrite Hold. intros [= <- <-] Hv.
    destruct (Hat _ Hold) as (v' & Hv' & Hm). rewrite Hv in Hv'. injection Hv' as <-. by left. }
  assert (proc_inv i time b1 p) as Hp1.
  { constructor; [done| |done| |unfold maintained; by rewrite Epc].
    - unfold pc_inv. rewrite Epc. eapply at_revision_displaced; [done|by split].
    - intros _. eapply at_revision_displaced; [done|]. by apply Hrev. }
  destruct r as [u|e]; injection Hstep as <- <-; [split_and!; [done..|by apply finish_inv]|].
  destruct (key_missing e); split_and!; try done; [by apply finish_inv|].
  by apply next_release_inv.
Qed.

Lemma maintain_good i time b p p' b' :
  proc_inv i time b p → maintain_step config (clock i time) p b = Some (p', b') →
  good_step i time b b' p p'.
Proof using HC KL L.
  intros Hp Hstep.
  destruct (p_pc p) as [| | | | | | |e|e|e entry| |a|a rev|a|] eqn:Epc;
    try (unfold maintain_step, renew_step, releaseRemote_step in Hstep; rewrite Epc in Hstep; done).
  - by eapply renew_good.
  - unfold maintain_step, renew_step, releaseRemote_step in Hstep. rewrite Epc in Hstep. destruct (kv_Get _ b) as [r b1] eqn:Hget.
    injection Hstep as <- <-. destruct (get_inv _ _ _ _ _ _ Hget Hp) as (HD & Hp1 & _).
    split_and!; [done..|].
    apply goto_inv; [done|done|..]; intros _; unfold leased, maintained; by rewrite Epc.
  - assert (leased p = true) as Hl by (unfold leased; by rewrite Epc).
    unfold maintain_step, renew_step, releaseRemote_step in Hstep. rewrite Epc in Hstep. injection Hstep as <- <-.
    destruct (stillOwns _ _ _) as [[]|]; split_and!; try done; try (by apply displaced_same);
      [|by apply lost_inv|];
      (apply goto_inv; [done|done|..]; intros _; unfold maintained; by rewrite ?Epc).
  - assert (leased p = true) as Hl by (unfold leased; by rewrite Epc).
    unfold maintain_step, renew_step, releaseRemote_step in Hstep. rewrite Epc in Hstep. injection Hstep as <- <-.
    destruct (_ <=? _); split_and!; try done; try (by apply displaced_same); [by apply lost_inv|].
    apply goto_inv; [done|done|..]; intros _; unfold maintained; by rewrite ?Epc.
  - by eapply release_get_good.
  - by eapply delete_good.
  - assert (leased p = true) as Hl by (unfold leased; by rewrite Epc).
    unfold maintain_step, renew_step, releaseRemote_step in Hstep. rewrite Epc in Hstep. injection Hstep as <- <-.
    split_and!; [done|by apply displaced_same|by apply goto_inv].
Qed.

Lemma select_good i time b p c p' :
  proc_inv i time b p → select_step config c (clock i time) p = Some p' →
  good_step i time b b p p'.
Proof using HC KL L.
  intros Hp Hstep. unfold good_step.
  assert (displaced i time (p_name p) (p_token p) b b) as Hrefl by by apply displaced_same.
  unfold select_step in Hstep.
  destruct (p_pc p) as [| | | |a| | | | | | | | | |] eqn:Epc; try done.
  { destruct c; try done. destruct (p_parent p); [|done]. injection Hstep as <-.
    split_and!; [done..|]. by apply acquiring_inv; [apply Hp|..]. }
  assert (leased p = true ∧ maintained p = true) as [Hl Hm]
    by (unfold leased, maintained; by rewrite Epc).
  pose proof (pi_end _ _ _ _ Hp Hl) as Hend.
  destruct c.
  - destruct (p_parent p); [|done]. injection Hstep as <-. split_and!; [done..|]. by apply goto_inv.
  - destruct (l_stop p); [|done]. injection Hstep as <-. split_and!; [done..|]. by apply goto_inv.
  - destruct (l_lost p); [|done]. injection Hstep as <-. split_and!; [done..|]. by apply finish_inv.
  - injection Hstep as <-. split_and!; [done..|]. apply goto_inv; try done.
    split; [split; [exact Hend|lia]|]. apply (gc_range _ _ _ HC).
Qed.

Lemma flags_good i time b p p' :
  proc_inv i time b p → p_name p' = p_name p → p_owner p' = p_owner p → p_token p' = p_token p →
  l_revision p' = l_revision p → l_expires p' = l_expires p → p_pc p' = p_pc p →
  good_step i time b b p p'.
Proof using Type.
  clear HC. intros Hp Hn Ho Ht Hr He Hpc. split_and!; [done|by apply displaced_same|].
  eapply same_inv; [exact Hp|done..|]. by left.
Qed.

Lemma check_start_good i time b p cancelled p' :
  proc_inv i time b p → check_start cancelled (clock i time) p = Some p' →
  good_step i time b b p p'.
Proof using Type.
  clear HC. intros Hp Hstep. unfold check_start in Hstep.
  destruct (p_check p), (leased p); try done; injection Hstep as <-;
    destruct (_ || _); try destruct (_ <=? _); by apply flags_good.
Qed.

Lemma check_good i time b p p' b' :
  proc_inv i time b p → check_step (clock i time) p b = Some (p', b') →
  good_step i time b b' p p'.
Proof using HC KL L.
  intros Hp Hstep. unfold check_step in Hstep. destruct (p_check p) as [| |entry|]; try done.
  - destruct (kv_Get _ b) as [r b1] eqn:Hget. injection Hstep as <- <-.
    destruct (get_inv _ _ _ _ _ _ Hget Hp) as (HD & Hp1 & _). split_and!; [done..|].
    eapply same_inv; [exact Hp1|done..|]. by left.
  - injection Hstep as <- <-. destruct (stillOwns _ _ _) as [[]|]; by apply flags_good.
Qed.

(** *** Steps of the system *)

Lemma sys_inv_proc s i p p' b' :
  sys_inv s → s_procs s !! i = Some p → good_step i (s_time s) (s_kv s) b' p p' →
  sys_inv (set_proc s i p' b').
Proof using HC KL.
  intros [Hproc Htok] Hi (Ht & HD & Hp'). constructor; simpl.
  - intros j q. destruct (decide (i = j)) as [<-|Hne].
    + rewrite lookup_insert_eq. by intros [= <-].
    + rewrite lookup_insert_ne by done. intros Hq.
      eapply proc_inv_displaced; [exact HD| |by apply Hproc].
      intros Heq. destruct Hne. by eapply (Htok i j p q).
  - intros j k q r. destruct (decide (i = j)) as [<-|Hj], (decide (i = k)) as [<-|Hk]; [done|..];
      rewrite ?lookup_insert_eq, ?lookup_insert_ne by done.
    + intros [= <-] Hr Heq. apply (Htok i k p r); [done..|]. by rewrite <-Ht.
    + intros Hq [= <-] Heq. apply (Htok j i q p); [done..|]. by rewrite Heq.
    + by apply Htok.
Qed.

Lemma proc_inv_later i time time' b p :
  time <= time' → proc_inv i time b p → proc_inv i time' b p.
Proof using HC.
  intros Hle [Ht Hpc He Hr Ho]. pose proof (gc_mono _ _ _ HC i _ _ Hle) as Hm.
  constructor; [done| | |done|].
  - unfold pc_inv in *. destruct (p_pc p); try done.
    + destruct Hpc as (j & t' & ? & ?). exists j, t'. split; [done|lia].
    + destruct Hpc as (j & t' & ? & ?). exists j, t'. split; [done|lia].
    + destruct Hpc as [(j & t' & ? & ?) ?]. split; [|done]. exists j, t'. split; [done|lia].
    + destruct Hpc as [? ?]. split; [lia|done].
  - intros Hl. specialize (He Hl). lia.
  - intros Hmt. destruct (Ho Hmt); [by left|right; lia].
Qed.

Lemma fresh_token_spec token ps i p :
  fresh_token token ps = true → ps !! i = Some p → p_token p ≠ token.
Proof using Type.
  clear HC. unfold fresh_token. intros [_ Hf]%andb_true_iff Hi Heq.
  rewrite forallb_forall in Hf. specialize (Hf (i, p)). simpl in Hf.
  rewrite (proj2 (String.eqb_eq _ _) Heq) in Hf. assert (false = true); [|done].
  apply Hf, list_elem_of_In. by apply elem_of_map_to_list.
Qed.

Lemma sys_step_inv l s s' :
  good_label l → sys_inv s → sys_step config clock l s = Some s' → sys_inv s'.
Proof using HC KL L.
  intros Hgl HI Hstep. pose proof HI as [Hproc Htok].
  destruct l as [d|i name owner token|i|i|i c|i|i|i cancelled|i]; simpl in Hstep.
  - destruct (Z.leb_spec 0 d); [|done]. injection Hstep as <-. constructor; simpl; [|done].
    intros i p Hi. eapply proc_inv_later; [|by apply Hproc]. lia.
  - destruct (s_procs s !! i) eqn:Hi; [done|]. destruct (fresh_token _ _) eqn:Hf; [|done].
    injection Hstep as <-. destruct Hgl as [Ho Ht]. constructor; simpl.
    + intros j q. destruct (decide (i = j)) as [<-|Hne].
      * rewrite lookup_insert_eq. intros [= <-]. constructor; try done. split_and!; [done..|].
        unfold fresh_token in Hf. by destruct (String.eqb_spec token "").
      * rewrite lookup_insert_ne by done. apply Hproc.
    + intros j k q r. destruct (decide (i = j)) as [<-|Hj], (decide (i = k)) as [<-|Hk]; [done|..];
        rewrite ?lookup_insert_eq, ?lookup_insert_ne by done.
      * intros [= <-] Hr Heq. by destruct (fresh_token_spec _ _ _ _ Hf Hr).
      * intros Hq [= <-] Heq. by destruct (fresh_token_spec _ _ _ _ Hf Hq).
      * by apply Htok.
  - destruct (s_procs s !! i) as [p|] eqn:Hi; [|done]. simpl in Hstep.
    destruct (acquire_step _ _ _ _) as [[p' b']|] eqn:Ha; [|done]. injection Hstep as <-.
    eapply sys_inv_proc; [done..|]. eapply acquire_good; [by apply Hproc|done].
  - destruct (s_procs s !! i) as [p|] eqn:Hi; [|done]. simpl in Hstep.
    destruct (maintain_step _ _ _ _) as [[p' b']|] eqn:Ha; [|done]. injection Hstep as <-.
    eapply sys_inv_proc; [done..|]. eapply maintain_good; [by apply Hproc|done].
  - destruct (s_procs s !! i) as [p|] eqn:Hi; [|done]. simpl in Hstep.
    destruct (select_step _ _ _ _) as [p'|] eqn:Ha; [|done]. injection Hstep as <-.
    eapply sys_inv_proc; [done..|]. eapply select_good; [by apply Hproc|done].
  - destruct (s_procs s !! i) as [p|] eqn:Hi; [|done]. simpl in Hstep.
    destruct (leased p); [|done]. injection Hstep as <-.
    eapply sys_inv_proc; [done..|]. apply flags_good; try done. by apply Hproc.
  - destruct (s_procs s !! i) as [p|] eqn:Hi; [|done]. injection Hstep as <-.
    eapply sys_inv_proc; [done..|]. apply flags_good; try done. by apply Hproc.
  - destruct (s_procs s !! i) as [p|] eqn:Hi; [|done]. simpl in Hstep.
    destruct (check_start _ _ _) as [p'|] eqn:Ha; [|done]. injection Hstep as <-.
    eapply sys_inv_proc; [done..|]. eapply check_start_good; [by apply Hproc|done].
  - destruct (s_procs s !! i) as [p|] eqn:Hi; [|done]. simpl in Hstep.
    destruct (check_step _ _ _) as [[p' b']|] eqn:Ha; [|done]. injection Hstep as <-.
    eapply sys_inv_proc; [done..|]. eapply check_good; [by apply Hproc|done].
Qed.

Lemma run_labels_inv ls s s' :
  Forall good_label ls → sys_inv s → run_labels config clock ls s = Some s' → sys_inv s'.
Proof using HC KL L.
  intros Hls. revert s. induction Hls as [|l ls Hl _ IH]; intros s HI; simpl; [by intros [= <-]|].
  destruct (sys_step _ _ l s) as [s1|] eqn:Hs; [|done]. apply IH. by eapply sys_step_inv.
Qed.

Lemma start_inv time b : sys_inv (mkState time b ∅).
Proof using Type. constructor; simpl; intros *; by rewrite lookup_empty. Qed.

(** C31: at most one holder. In every interleaving of any number of calls of [AcquireLock]
and their leases, with failures of the bucket that may hide an effect, whatever the bucket
held at the start, two leases of the same lock that are both being maintained and whose end
is, by the clocks of their processes, more than the skew of the clocks away, are the same
lease. So with equal clocks no two processes hold a lock at once, and a paused holder whose
lease was reclaimed finds that its lease has ended. *)
Theorem lock_mutual_exclusion ls time b s i j p q :
  Forall good_label ls → run_labels config clock ls (mkState time b ∅) = Some s →
  s_procs s !! i = Some p → s_procs s !! j = Some q → p_name p = p_name q →
  maintained p = true → maintained q = true →
  clock i (s_time s) + skew < l_expires p → clock j (s_time s) + skew < l_expires q → i = j.
Proof using HC KL L.
  intros Hls Hrun Hi Hj Hn Hp Hq Hep Heq.
  pose proof (run_labels_inv _ _ _ Hls (start_inv _ _) Hrun) as [Hproc Htok].
  destruct (pi_owned _ _ _ _ (Hproc _ _ Hi) Hp) as [(raw & rev & v & Hb & Hv & Ht & _)|?]; [|lia].
  destruct (pi_owned _ _ _ _ (Hproc _ _ Hj) Hq) as [(raw' & rev' & v' & Hb' & Hv' & Ht' & _)|?];
    [|lia].
  rewrite Hn, Hb' in Hb. injection Hb as -> ->. rewrite Hv in Hv'. injection Hv' as ->.
  apply (Htok i j p q); [done..|]. congruence.
Qed.

End Safety.

(** ** A bucket that works *)

Class LockKeyValueHealthy (K : Type) `{KL : LockKeyValueLaws K} := {
  healthy : K → Prop;
  kv_get_healthy k b r b' :
    healthy b → kv_Get k b = (r, b') → healthy b' ∧
    match bucket b !! k with
    | Some e => r = Ok e
    | None => ∃ e, r = Err e ∧ key_missing e = true
    end;
  kv_create_healthy k v b r b' :
    healthy b → kv_Create k v b = (r, b') → healthy b' ∧
    match bucket b !! k with
    | None => is_ok r = true
    | Some _ => ∃ e, r = Err e ∧ errors_Is e ErrKeyExists = true
    end;
  kv_update_healthy k v b r b' raw last :
    healthy b → bucket b !! k = Some (raw, last) → kv_Update k v last b = (r, b') →
    healthy b' ∧ is_ok r = true;
  kv_delete_healthy k b r b' raw last :
    healthy b → bucket b !! k = Some (raw, last) → kv_Delete k last b = (r, b') →
    healthy b' ∧ is_ok r = true }.

Section Progress.
Context `{J : GoJson, L : !GoJsonLaws} {K : Type} `{KV : LockKeyValue K, KL : !LockKeyValueLaws K,
  KH : !LockKeyValueHealthy K}.
Context (config : jetStreamLockConfig) (skew : Z) (clock : nat → Z → Z).
Context (HC : good_clock config skew clock).

(** Steps of one call alone. *)
Fixpoint acquire_run (n : nat) (now : Z) (p : proc) (b : K) : option (proc * K) :=
  match n with
  | O => Some (p, b)
  | S n => '(p, b) ← acquire_step config now p b; acquire_run n now p b
  end.

Lemma run_acquire n s i p p' b' :
  s_procs s !! i = Some p → acquire_run n (clock i (s_time s)) p (s_kv s) = Some (p', b') →
  ∃ s', run_labels config clock (replicate n (LAcquire i)) s = Some s'
    ∧ s_procs s' !! i = Some p' ∧ s_kv s' = b'.
Proof using Type.
  revert s p. induction n as [|n IH]; intros s p Hi Hr; simpl in Hr.
  { injection Hr as <- <-. by exists s. }
  destruct (acquire_step _ _ p _) as [[p1 b1]|] eqn:Ha; [|done]. simpl in Hr.
  destruct (IH (set_proc s i p1 b1) p1) as (s' & Hs' & Hp').
  { apply lookup_insert_eq. }
  { done. }
  exists s'. split; [|done]. cbn [replicate run_labels]. simpl. rewrite Hi. simpl. rewrite Ha.
  exact Hs'.
Qed.

Lemma encode_ok p e :
  text_ok (p_owner p) ∧ text_ok (p_token p) ∧ p_token p ≠ "" →
  ∃ raw, encode_lock_value (lock_value p e) = Ok raw.
Proof using L.
  intros (Ho & Ht & _). unfold encode_lock_value, lock_value.
  cbn [LV_OwnerID LV_Token LV_ExpiresUnixNano LV_Version].
  edestruct (json_roundtrip (JObject
    [("version", JNumber (FormatInt lockValueVersion)); ("owner_id", JString (p_owner p));
     ("token", JString (p_token p)); ("expires_unix_nano", JNumber (FormatInt e))]))
    as (raw & Hraw & _); [|by exists raw].
  apply json_faithful_object. intros k w. rewrite !elem_of_cons, elem_of_nil.
  intros [[= -> ->]|[[= -> ->]|[[= -> ->]|[[= -> ->]|[]]]]];
    (split; [by apply text_ok_ascii|]);
    [exact (json_faithful_int lockValueVersion)|done|done|exact (json_faithful_int e)].
Qed.

(** The steps of an attempt. *)
Lemma start_step now p a b :
  p_pc p = AStart a → (a < maxRetries config)%nat →
  acquire_step config now p b = Some (goto p (ACreate a now), b).
Proof using Type.
  intros Hpc Ha. unfold acquire_step. by rewrite Hpc, (proj2 (Nat.ltb_lt _ _) Ha).
Qed.

Lemma create_step_free now p a t raw b r b' :
  healthy b → bucket b !! p_name p = None →
  encode_lock_value (lock_value p (t + leaseDuration config)) = Ok raw →
  kv_Create (p_name p) raw b = (r, b') →
  ∃ rev, acquire_step config now (goto p (ACreate a t)) b
      = Some (startLease p rev (t + leaseDuration config), b')
    ∧ bucket b' !! p_name p = Some (raw, rev).
Proof using KH.
  intros Hh Hb Henc Hc. pose proof Hc as Hlaw. apply kv_create_healthy in Hc as [_ Hok]; [|done].
  rewrite Hb in Hok. destruct r as [rev|]; [|done]. exists rev. split.
  - cbn [acquire_step goto p_pc p_name]. change (lock_value _ _) with
      (lock_value p (t + leaseDuration config)). by rewrite Henc, Hlaw.
  - apply kv_create_law in Hlaw as [(_ & _ & ?)|(rev' & _ & -> & _ & _ & [[= <-]|?])]; try done.
    apply lookup_insert_eq.
Qed.

Lemma create_step_held now p a t raw b r b' e :
  healthy b → bucket b !! p_name p = Some e →
  encode_lock_value (lock_value p (t + leaseDuration config)) = Ok raw →
  kv_Create (p_name p) raw b = (r, b') →
  acquire_step config now (goto p (ACreate a t)) b = Some (goto p (AGet a t), b')
  ∧ healthy b' ∧ bucket b' = bucket b.
Proof using KH.
  intros Hh Hb Henc Hc. pose proof Hc as Hlaw. apply kv_create_healthy in Hc as [Hh' Hok]; [|done].
  rewrite Hb in Hok. destruct Hok as (er & -> & Hex). split_and!; [|done|].
  - cbn [acquire_step goto p_pc p_name]. change (lock_value _ _) with
      (lock_value p (t + leaseDuration config)). by rewrite Henc, Hlaw, Hex.
  - apply kv_create_law in Hlaw as [(Hs & _ & _)|(rev' & Hn & _)]; congruence.
Qed.

Lemma get_step now p a t b r b' raw rev :
  healthy b → bucket b !! p_name p = Some (raw, rev) → kv_Get (p_name p) b = (r, b') →
  acquire_step config now (goto p (AGet a t)) b
  = Some (match decodeJetStreamLockValue raw with
          | None => goto p (AFailed (PlainError "lock %s has an unsupported value format"))
          | Some current =>
              if LV_ExpiresUnixNano current <=? t then goto p (AUpdate a t rev)
              else next_attempt config p a
          end, b')
  ∧ healthy b' ∧ bucket b' = bucket b.
Proof using KH.
  intros Hh Hb Hg. pose proof Hg as Hlaw. apply kv_get_healthy in Hg as [Hh' Hr]; [|done].
  rewrite Hb in Hr. subst r. split_and!; [|done|by apply kv_get_law in Hlaw as [[? _] _]].
  cbn [acquire_step goto p_pc p_name]. by rewrite Hlaw.
Qed.

Lemma update_step now p a t raw b r b' old rev :
  healthy b → bucket b !! p_name p = Some (old, rev) →
  encode_lock_value (lock_value p (t + leaseDuration config)) = Ok raw →
  kv_Update (p_name p) raw rev b = (r, b') →
  ∃ rev', acquire_step config now (goto p (AUpdate a t rev)) b
      = Some (startLease p rev' (t + leaseDuration config), b')
    ∧ bucket b' !! p_name p = Some (raw, rev').
Proof using KH.
  intros Hh Hb Henc Hc. pose proof Hc as Hlaw.
  eapply kv_update_healthy in Hc as [_ Hok]; [|done..].
  destruct r as [rev'|]; [|done]. exists rev'. split.
  - cbn [acquire_step goto p_pc p_name]. change (lock_value _ _) with
      (lock_value p (t + leaseDuration config)). by rewrite Henc, Hlaw.
  - apply kv_update_law in Hlaw as [(_ & _ & ?)|(? & rev1 & _ & -> & _ & _ & [[= <-]|?])]; try done.
    apply lookup_insert_eq.
Qed.

(** The call has returned a lease until [e], which is the entry of the lock. *)
Definition obtained (b : K) (p p' : proc) (e : Z) : Prop := ∃ raw rev,
  p' = startLease p rev e ∧ bucket b !! p_name p = Some (raw, rev)
  ∧ decodeJetStreamLockValue raw = Some (lock_value p e).

(** What one attempt of [AcquireLock] does, on a bucket that works and when nobody else
acts meanwhile. A lock that is free, or whose lease has ended by the clock of the caller, as
after a crash of its holder, is obtained for the full length of a lease; a lease that has not
ended is left alone and the call waits, or gives up after the last attempt; a value that is
not that of a lock is left alone and the call fails. *)
Theorem acquire_attempt_exact s i p a :
  let now := clock i (s_time s) in
  let e := now + leaseDuration config in
  s_procs s !! i = Some p → p_pc p = AStart a → (a < maxRetries config)%nat →
  text_ok (p_owner p) ∧ text_ok (p_token p) ∧ p_token p ≠ "" → healthy (s_kv s) →
  ∃ n s' p', run_labels config clock (replicate n (LAcquire i)) s = Some s'
    ∧ s_procs s' !! i = Some p' ∧
    match bucket (s_kv s) !! p_name p with
    | None => obtained (s_kv s') p p' e
    | Some (raw, rev) =>
        match decodeJetStreamLockValue raw with
        | None => bucket (s_kv s') = bucket (s_kv s)
            ∧ p' = goto p (AFailed (PlainError "lock %s has an unsupported value format"))
        | Some v =>
            if LV_ExpiresUnixNano v <=? now then obtained (s_kv s') p p' e
            else bucket (s_kv s') = bucket (s_kv s) ∧ p' = next_attempt config p a
        end
    end.
Proof using HC KH L.
  intros now e Hi Hpc Ha Htext Hh.
  destruct (encode_ok p e Htext) as [raw Henc].
  pose proof (written_value p e raw Htext (gc_range _ _ _ HC i (s_time s)) Henc) as Hdec.
  pose proof (start_step now p a (s_kv s) Hpc Ha) as H1.
  destruct (kv_Create (p_name p) raw (s_kv s)) as [rc b1] eqn:Hc.
  destruct (bucket (s_kv s) !! p_name p) as [[raw0 rev0]|] eqn:Hb0; cycle 1.
  { destruct (create_step_free now p a now raw _ _ _ Hh Hb0 Henc Hc) as (rev & H2 & Hb1).
    destruct (run_acquire 2 s i p (startLease p rev e) b1 Hi) as (s' & Hs' & Hp' & Hk').
    { fold now. cbn [acquire_run]. rewrite H1. cbn [mbind option_bind]. by rewrite H2. }
    exists 2%nat, s', (startLease p rev e). split_and!; [done..|]. rewrite Hk'. by exists raw, rev. }
  destruct (create_step_held now p a now raw _ _ _ _ Hh Hb0 Henc Hc) as (H2 & Hh1 & Hb1).
  destruct (kv_Get (p_name p) b1) as [rg b2] eqn:Hg. rewrite <-Hb1 in Hb0 |- *.
  destruct (get_step now p a now _ _ _ _ _ Hh1 Hb0 Hg) as (H3 & Hh2 & Hb2).
  assert (∀ p2, match decodeJetStreamLockValue raw0 with
    | None => goto p (AFailed (PlainError "lock %s has an unsupported value format"))
    | Some current => if LV_ExpiresUnixNano current <=? now then goto p (AUpdate a now rev0)
                      else next_attempt config p a end = p2 →
    acquire_run 3 now p (s_kv s) = Some (p2, b2)) as H123.
  { intros p2 <-. cbn [acquire_run]. rewrite H1. cbn [mbind option_bind]. rewrite H2.
    cbn [mbind option_bind]. by rewrite H3. }
  rewrite <-Hb2. destruct (decodeJetStreamLockValue raw0) as [v|]; cycle 1.
  { destruct (run_acquire 3 s i p _ _ Hi (H123 _ eq_refl)) as (s' & Hs' & Hp' & Hk').
    eexists 3%nat, s', _. split_and!; [done|done|by rewrite Hk'|done]. }
  destruct (LV_ExpiresUnixNano v <=? now); cycle 1.
  { destruct (run_acquire 3 s i p _ _ Hi (H123 _ eq_refl)) as (s' & Hs' & Hp' & Hk').
    eexists 3%nat, s', _. split_and!; [done|done|by rewrite Hk'|done]. }
  destruct (kv_Update (p_name p) raw rev0 b2) as [ru b3] eqn:Hu. rewrite <-Hb2 in Hb0.
  destruct (update_step now p a now raw _ _ _ _ _ Hh2 Hb0 Henc Hu) as (rev & H4 & Hb3).
  destruct (run_acquire 4 s i p (startLease p rev e) b3 Hi) as (s' & Hs' & Hp' & Hk').
  { fold now. cbn [acquire_run]. rewrite H1. cbn [mbind option_bind]. rewrite H2.
    cbn [mbind option_bind]. rewrite H3. cbn [mbind option_bind]. by rewrite H4. }
  exists 4%nat, s', (startLease p rev e). split_and!; [done..|]. rewrite Hk'. by exists raw, rev.
Qed.

End Progress.

(** ** Witnesses: a bucket in memory *)

Inductive fault := Works | FailsBefore | FailsAfter.

(** The entries, newest first, the least sequence number in use, and what happens to the
next operations, which work when the list is empty. *)
Record memory_kv := mkMemory {
  mk_sequence : Z; mk_entries : list (string * (string * Z)); mk_faults : list fault }.

Definition memory_sequence (b : memory_kv) : Z :=
  foldr (λ x m, Z.max x.2.2 m) (mk_sequence b) (mk_entries b).
Definition memory_bucket (b : memory_kv) : gmap string (string * Z) := list_to_map (mk_entries b).

Definition next_fault (b : memory_kv) : fault := default Works (head (mk_faults b)).
Definition ErrTimeout : goerror := PlainError "nats: timeout".

(** An operation that answers [r] and leaves the entries [es]. *)
Definition operation {A} (r : result A) (es : list (string * (string * Z))) (b : memory_kv)
  : result A * memory_kv :=
  match next_fault b with
  | Works => (r, mkMemory (memory_sequence b) es (tail (mk_faults b)))
  | FailsBefore =>
      (Err ErrTimeout, mkMemory (mk_sequence b) (mk_entries b) (tail (mk_faults b)))
  | FailsAfter =>
      (Err ErrTimeout, mkMemory (memory_sequence b) es (tail (mk_faults b)))
  end.

#[local] Instance memory_KeyValue : LockKeyValue memory_kv := {|
  kv_Get k b :=
    (match next_fault b with
     | Works => match memory_bucket b !! k with Some e => Ok e | None => Err ErrKeyNotFound end
     | _ => Err ErrTimeout
     end, mkMemory (mk_sequence b) (mk_entries b) (tail (mk_faults b)));
  kv_Create k v b :=
    match memory_bucket b !! k with
    | Some _ => operation (Err ErrKeyExists) (mk_entries b) b
    | None => operation (Ok (memory_sequence b + 1))
                ((k, (v, memory_sequence b + 1)) :: mk_entries b) b
    end;
  kv_Update k v last b :=
    match memory_bucket b !! k with
    | Some (_, rev) =>
        if rev =? last
        then operation (Ok (memory_sequence b + 1))
               ((k, (v, memory_sequence b + 1)) :: mk_entries b) b
        else operation (Err (PlainError "wrong last sequence")) (mk_entries b) b
    | None => operation (Err (PlainError "wrong last sequence")) (mk_entries b) b
    end;
  kv_Delete k last b :=
    match memory_bucket b !! k with
    | Some (_, rev) =>
        if rev =? last then operation (Ok tt) (filter (λ x, x.1 ≠ k) (mk_entries b)) b
        else operation (Err (PlainError "wrong last sequence")) (mk_entries b) b
    | None => operation (Err (PlainError "wrong last sequence")) (mk_entries b) b
    end |}.

Lemma fold_max (z z' : Z) (l : list (string * (string * Z))) :
  z' <= z → foldr (λ x m, Z.max x.2.2 m) z l = Z.max z (foldr (λ x m, Z.max x.2.2 m) z' l).
Proof. intros H. induction l as [|e l IH]; simpl; lia. Qed.

Lemma memory_sequence_ge b : mk_sequence b <= memory_sequence b.
Proof. unfold memory_sequence. induction (mk_entries b) as [|e l IH]; simpl; lia. Qed.

Lemma memory_sequence_same b fs :
  memory_sequence (mkMemory (memory_sequence b) (mk_entries b) fs) = memory_sequence b.
Proof.
  pose proof (memory_sequence_ge b). unfold memory_sequence at 1. simpl.
  rewrite (fold_max _ (mk_sequence b)) by done. unfold memory_sequence. lia.
Qed.

Lemma memory_revision b k raw rev :
  memory_bucket b !! k = Some (raw, rev) → rev <= memory_sequence b.
Proof.
  unfold memory_bucket, memory_sequence. intros H%elem_of_list_to_map_2.
  induction (mk_entries b) as [|e l IH]; simpl; [by apply elem_of_nil in H|].
  apply elem_of_cons in H as [<-|H]; simpl; [lia|]. specialize (IH H). lia.
Qed.

Lemma memory_filter b k :
  (list_to_map (filter (λ x, x.1 ≠ k) (mk_entries b)) : gmap string (string * Z))
  = delete k (memory_bucket b).
Proof.
  unfold memory_bucket. induction (mk_entries b) as [|[k' e] l IH]; simpl.
  { by rewrite delete_empty. }
  rewrite filter_cons. case_decide as Hk; simpl in Hk; rewrite ?list_to_map_cons, IH.
  - by rewrite delete_insert_ne.
  - subst k'. by rewrite delete_insert_eq.
Qed.

(** What an operation that would leave [es] has done. *)
Lemma operation_cases {A} (r : result A) es b r' b' :
  operation r es b = (r', b') →
  (memory_bucket b' = memory_bucket b ∧ memory_sequence b' = memory_sequence b ∧ is_ok r' = false)
  ∨ memory_bucket b' = list_to_map es
    ∧ memory_sequence b' = memory_sequence (mkMemory (memory_sequence b) es [])
    ∧ (r' = r ∨ is_ok r' = false).
Proof.
  unfold operation. destruct (next_fault b); intros [= <- <-]; [right|left|right]; eauto.
Qed.

Lemma memory_sequence_write b k v :
  memory_sequence (mkMemory (memory_sequence b)
    ((k, (v, memory_sequence b + 1)) :: mk_entries b) []) = memory_sequence b + 1.
Proof.
  change (Z.max (memory_sequence b + 1)
    (memory_sequence (mkMemory (memory_sequence b) (mk_entries b) [])) = memory_sequence b + 1).
  rewrite memory_sequence_same. lia.
Qed.

#[local] Instance memory_laws : LockKeyValueLaws memory_kv.
Proof.
  refine {| bucket := memory_bucket; sequence := memory_sequence |}.
  - exact memory_revision.
  - intros k b r b' [= <- <-]. split; [done|].
    destruct (next_fault b); [|done..]. by destruct (memory_bucket b !! k).
  - intros k v b r b' H. simpl in H. destruct (memory_bucket b !! k) eqn:Hk.
    + left. apply operation_cases in H as [?|(Hb & Hs & Hr)]; [done|].
      rewrite memory_sequence_same in Hs. split_and!; [done..|by destruct Hr as [->|?]].
    + apply operation_cases in H as [?|(Hb & Hs & Hr)]; [by left|]. right.
      exists (memory_sequence b + 1). split_and!; [done|done|lia| |done].
      by rewrite Hs, memory_sequence_write.
  - intros k v last b r b' H. simpl in H.
    destruct (memory_bucket b !! k) as [[raw rev]|] eqn:Hk;
      [destruct (Z.eqb_spec rev last) as [->|Hne]|].
    + apply operation_cases in H as [?|(Hb & Hs & Hr)]; [by left|]. right.
      exists raw, (memory_sequence b + 1). split_and!; [done|done|lia| |done].
      by rewrite Hs, memory_sequence_write.
    + left. apply operation_cases in H as [?|(Hb & Hs & Hr)]; [done|].
      rewrite memory_sequence_same in Hs. split_and!; [done..|by destruct Hr as [->|?]].
    + left. apply operation_cases in H as [?|(Hb & Hs & Hr)]; [done|].
      rewrite memory_sequence_same in Hs. split_and!; [done..|by destruct Hr as [->|?]].
  - intros k last b r b' H. simpl in H.
    destruct (memory_bucket b !! k) as [[raw rev]|] eqn:Hk;
      [destruct (Z.eqb_spec rev last) as [->|Hne]|].
    + apply operation_cases in H as [?|(Hb & Hs & Hr)]; [by left|]. right. exists raw.
      split_and!; [done|by rewrite Hb, memory_filter|]. rewrite Hs.
      exact (memory_sequence_ge (mkMemory (memory_sequence b) _ [])).
    + left. apply operation_cases in H as [?|(Hb & Hs & Hr)]; [done|].
      rewrite memory_sequence_same in Hs. split_and!; [done..|by destruct Hr as [->|?]].
    + left. apply operation_cases in H as [?|(Hb & Hs & Hr)]; [done|].
      rewrite memory_sequence_same in Hs. split_and!; [done..|by destruct Hr as [->|?]].
Defined.

Lemma operation_works {A} (r : result A) es b r' b' :
  mk_faults b = [] → operation r es b = (r', b') → mk_faults b' = [] ∧ r' = r.
Proof. unfold operation, next_fault. intros ->. by intros [= <- <-]. Qed.

#[local] Instance memory_healthy : LockKeyValueHealthy memory_kv.
Proof.
  refine {| healthy b := mk_faults b = [] |}.
  - intros k b r b' Hh [= <- <-]. unfold next_fault. rewrite Hh. split; [done|]. simpl.
    destruct (memory_bucket b !! k); [done|]. by eexists.
  - intros k v b r b' Hh H. simpl in *.
    destruct (memory_bucket b !! k); apply operation_works in H as [? ->]; try done.
    split; [done|]. by eexists.
  - intros k v b r b' raw last Hh Hk H. simpl in *. rewrite Hk, Z.eqb_refl in H.
    by apply operation_works in H as [? ->].
  - intros k b r b' raw last Hh Hk H. simpl in *. rewrite Hk, Z.eqb_refl in H.
    by apply operation_works in H as [? ->].
Defined.

#[local] Existing Instances example_json example_json_laws.

(** Clocks that agree, and that stop before the range of [int64] does. *)
Definition example_clock (i : nat) (t : Z) : Z := Z.max 0 (Z.min t 1000000000000000000).

Lemma example_good_clock : good_clock defaultJetStreamLockConfig 0 example_clock.
Proof.
  constructor; unfold example_clock; simpl.
  - done.
  - intros; lia.
  - intros; lia.
  - intros i t. unfold is_int64, MinInt64, MaxInt64. lia.
Qed.

(** The first holder pauses for longer than its lease; the second call finds the key, sees
that the lease has ended and takes the lock; the first then fails to renew. *)
Definition example_lock_labels : list label :=
  [LCall 0 "orders" "node-a" "token-a"; LAcquire 0; LAcquire 0; LTime 16000000000;
   LCall 1 "orders" "node-b" "token-b"; LAcquire 1; LAcquire 1; LAcquire 1; LAcquire 1;
   LSelect 0 Tick; LMaintain 0].

Definition example_locks : state (K := memory_kv) :=
  Eval vm_compute in
    default (mkState 0 (mkMemory 0 [] []) ∅)
      (run_labels defaultJetStreamLockConfig example_clock example_lock_labels
         (mkState 0 (mkMemory 0 [] []) ∅)).

Definition example_holder : proc :=
  Eval vm_compute in default (new_call "" "" "") (s_procs example_locks !! 1%nat).

Lemma lock_mutual_exclusion_witness :
  s_procs example_locks !! 1%nat = Some example_holder ∧
  ∀ j q, s_procs example_locks !! j = Some q → p_name q = "orders" → maintained q = true →
    example_clock j (s_time example_locks) < l_expires q → j = 1%nat.
Proof.
  split; [reflexivity|]. intros j q Hj Hn Hm He.
  refine (lock_mutual_exclusion defaultJetStreamLockConfig 0 example_clock example_good_clock
    example_lock_labels 0 (mkMemory 0 [] []) example_locks j 1 q example_holder
    _ eq_refl Hj eq_refl Hn Hm eq_refl _ eq_refl).
  - repeat constructor; exact I.
  - rewrite Z.add_0_r. exact He.
Defined.

Definition example_abandoned : state (K := memory_kv) :=
  Eval vm_compute in
    default (mkState 0 (mkMemory 0 [] []) ∅)
      (run_labels defaultJetStreamLockConfig example_clock (take 5 example_lock_labels)
         (mkState 0 (mkMemory 0 [] []) ∅)).

Lemma acquire_attempt_exact_witness :
  ∃ n s' p', run_labels defaultJetStreamLockConfig example_clock (replicate n (LAcquire 1))
      example_abandoned = Some s'
    ∧ s_procs s' !! 1%nat = Some p'
    ∧ obtained (s_kv s') (new_call "orders" "node-b" "token-b") p' 31000000000.
Proof.
  refine (acquire_attempt_exact defaultJetStreamLockConfig 0 example_clock example_good_clock
    example_abandoned 1 (new_call "orders" "node-b" "token-b") 0 eq_refl eq_refl _ _ eq_refl).
  - apply Nat.lt_0_succ.
  - split; [exact I|]. split; [exact I|discriminate].
Defined.
