(* ===== verification/PgPredicates.v ===== *)
(** * Predicates of the PostgreSQL backend: [orisun_compare_number] and
[orisun_criterion_sql] of [postgres/scripts/common/db_scripts_1.sql]

The comparison of numbers is proved equal to the Go one, and the predicate rendered for a
criterion to hold exactly on the documents of the context of its tags. *)

From stdpp Require Import options.
From S2P Require Import Prelude Status Model Number Json Predicates Consistency EventData.
From S2P Require Import WriteContext SqlPredicates.

Set Default Proof Using "Type*".

(** ** PostgreSQL *)

(** What the code takes from the server: the input conversion of [jsonb], its text, and the
input conversions of [uuid] (to its text) and of [timestamptz]. A [jsonb] value is
represented with the members of its objects in key order and each number as the server
prints it. *)
Class Postgres := {
  jsonb_in : json → result json;
  jsonb_out : json → string;
  uuid_in : string → option string;
  timestamptz_in : string → option Z;
  (** The keywords that [quote_ident] quotes: all but the unreserved ones. *)
  keyword : string → bool;
  (** Those that cannot name a schema without quotes: the reserved ones and those that can only
  name types and functions. *)
  schema_keyword : string → bool }.

(** What PostgreSQL documents: different values have different texts, U+0000 is refused,
integers keep their text, the last of repeated keys counts. *)
Class PostgresLaws `{P : Postgres} : Prop := {
  jsonb_out_inj :: Inj (=) (=) jsonb_out;
  jsonb_in_string s : contains_nul s = false → jsonb_in (JString s) = Ok (JString s);
  jsonb_in_nul s : contains_nul s = true → ∃ e, jsonb_in (JString s) = Err e;
  jsonb_in_int z : is_int64 z → jsonb_in (JNumber (FormatInt z)) = Ok (JNumber (FormatInt z));
  jsonb_in_array l : jsonb_in (JArray l) = JArray <$> mapM jsonb_in l;
  jsonb_in_key_nul fs :
    Exists (λ kv, contains_nul kv.1 = true) fs → ∃ e, jsonb_in (JObject fs) = Err e;
  jsonb_in_object fs :
    Forall (λ kv, contains_nul kv.1 = false) fs →
    jsonb_in (JObject fs)
    = (λ l, json_of_map (map_of_fields l))
        <$> mapM (λ kv, v ← jsonb_in kv.2; mret (kv.1, v)) fs }.

(** ** [orisun_compare_number] *)

Section CompareNumber.
Local Open Scope Z_scope.

(** [strpos(s, c)] for a character satisfying [f]: 1-based, 0 without one. *)
Fixpoint strpos (f : ascii → bool) (s : string) : nat :=
  match s with
  | EmptyString => 0
  | String c s => if f c then 1 else match strpos f s with 0 => 0 | S n => S (S n) end
  end%nat.

(** [left(s, n)] and [substring(s FROM n)]. *)
Definition pg_left (s : string) (n : nat) : string := String.substring 0 n s.
Definition pg_substring (s : string) (n : nat) : string :=
  String.substring (n - 1) (String.length s) s.

Fixpoint zeros (n : nat) : string :=
  match n with O => "" | S n => String "0" (zeros n) end.

(** [rpad(s, n, '0')] to a length not below that of [s]. *)
Definition rpad_zeros (s : string) (n : nat) : string :=
  s +:+ zeros (n - String.length s).

(** One turn of the loop over the two tokens: digits, magnitude and sign; [None] is
[RETURN NULL]. NUMERIC is exact. *)
Definition token_parts (token : string) : option (string * Z * bool) :=
  if jsonNumberPattern token then
    let negative := String.eqb (pg_left token 1) "-" in
    let token := if negative then pg_substring token 2 else token in
    let exponent_at := strpos is_e token in
    let '(token, magnitude) :=
      if (0 <? exponent_at)%nat
      then (pg_left token (exponent_at - 1), big_SetString (pg_substring token (exponent_at + 1)))
      else (token, 0) in
    let decimal_at := strpos (λ c, Ascii.eqb c ".") token in
    let '(token, fraction_length) :=
      if (0 <? decimal_at)%nat
      then (ReplaceAll token "." "", go_len token - Z.of_nat decimal_at)
      else (token, 0) in
    let digits := trim_zeros token in
    if String.eqb digits "" then Some (digits, magnitude, false)
    else Some (digits, magnitude + (go_len digits - fraction_length), negative)
  else None.

Definition compare_digits (a b : string) : Z :=
  let a := rpad_zeros a (Nat.max (String.length a) (String.length b)) in
  let b := rpad_zeros b (String.length a) in
  if String.ltb a b then -1 else if String.ltb b a then 1 else 0.

Definition pg_compare_number (a b : string) : option Z :=
  match token_parts a, token_parts b with
  | Some (ad, ae, an), Some (bd, be, bn) =>
      if negb (Bool.eqb an bn) then Some (if an then -1 else 1)
      else if String.eqb ad "" && String.eqb bd "" then Some 0
      else
        let comparison :=
          if String.eqb ad "" then -1
          else if String.eqb bd "" then 1
          else if ae <? be then -1
          else if be <? ae then 1
          else compare_digits ad bd in
        Some (if an then - comparison else comparison)
  | _, _ => None
  end.

(** *** Equal to the Go comparison *)

Lemma pg_left_app a b : pg_left (a +:+ b) (String.length a) = a.
Proof.
  unfold pg_left. induction a as [|c a IH]; string_simpl; [by destruct b|]. by rewrite IH.
Qed.

Lemma pg_substring_app a c b : pg_substring (a +:+ String c b) (String.length a + 2) = b.
Proof.
  unfold pg_substring. replace (String.length a + 2 - 1)%nat with (S (String.length a)) by lia.
  assert (∀ m, (String.length b <= m)%nat →
    String.substring (S (String.length a)) m (a +:+ String c b) = b) as H.
  { induction a as [|d a IH]; intros m Hm; string_simpl; [by apply substring_all|]. by apply IH. }
  apply H. rewrite string_length_app. simpl. lia.
Qed.

(** Where a cut finds its character, [strpos] does. *)
Lemma strpos_cut f s :
  match cut_at f s with
  | Some (a, b) => ∃ c, s = a +:+ String c b ∧ strpos f s = S (String.length a)
  | None => strpos f s = 0%nat
  end.
Proof.
  induction s as [|c s IH]; [done|]. simpl. destruct (f c); [by exists c|].
  destruct (cut_at f s) as [[a b]|]; [|by rewrite IH].
  destruct IH as (d & -> & ->). by exists d.
Qed.

Lemma ReplaceAll_none s c :
  string_forallb (λ d, negb (Ascii.eqb d c)) s = true → ReplaceAll s c "" = s.
Proof.
  induction s as [|d s IH]; [done|]. simpl. intros H. bool_props. by rewrite H, IH.
Qed.


Lemma sign_left s :
  String.eqb (pg_left s 1) "-" = starts_minus s
  ∧ (if starts_minus s then pg_substring s 2 else s) = strip_minus s.
Proof.
  destruct s as [|c s]; [done|]. unfold pg_left, pg_substring, starts_minus, strip_minus. simpl.
  destruct (Ascii.eqb_spec c "-") as [->|Hne].
  - split; [by destruct s|]. apply substring_all. simpl. lia.
  - done.
Qed.

(** The two decompositions agree. *)
Lemma token_parts_decimal token : token_parts token = decimalParts token.
Proof.
  unfold token_parts, decimalParts. destruct (jsonNumberPattern token) eqn:Hp; [|done].
  apply pattern_inv in Hp as (n & Hwf & <-).
  destruct (sign_left (print_number n)) as [-> ->].
  destruct (strip_minus_print n Hwf) as [-> ->].
  pose proof (strpos_cut is_e
    (num_int n +:+ print_frac (num_frac n) +:+ print_exp (num_exp n))) as He.
  set (s := num_int n +:+ print_frac (num_frac n) +:+ print_exp (num_exp n)) in *.
  assert ((if (0 <? strpos is_e s)%nat
     then (pg_left s (strpos is_e s - 1), big_SetString (pg_substring s (strpos is_e s + 1)))
     else (s, 0)) = match cut_at is_e s with
                    | Some (m, e) => (m, big_SetString e) | None => (s, 0) end) as ->.
  { destruct (cut_at is_e s) as [[a b]|]; [|by rewrite He].
    destruct He as (c & -> & ->). simpl. rewrite Nat.sub_0_r, pg_left_app.
    replace (S (String.length a + 1)) with (String.length a + 2)%nat by lia.
    by rewrite pg_substring_app. }
  assert (∃ m, match cut_at is_e s with
               | Some (m, e) => (m, big_SetString e) | None => (s, 0) end
    = (num_int n +:+ print_frac (num_frac n), m)) as [m ->].
  { unfold s. rewrite cut_exp_print by done. destruct (num_exp n) as [e|]; [by eexists|].
    exists 0. f_equal. simpl. by rewrite string_app_nil_r. }
  pose proof (strpos_cut (λ c, Ascii.eqb c ".") (num_int n +:+ print_frac (num_frac n))) as Hd.
  rewrite cut_dot_print in Hd |- * by done.
  destruct (num_frac n) as [f|] eqn:Hf; simpl print_frac in *.
  - destruct Hd as (c & _ & ->). simpl.
    destruct (wf_frac n Hwf f Hf) as [Hfd _].
    rewrite ReplaceAll_app, ReplaceAll_none by (by apply digits_not_dot, Hwf). simpl.
    rewrite ReplaceAll_none by (by apply digits_not_dot).
    replace (go_len (num_int n +:+ String "." f) - _) with (go_len f)
      by (unfold go_len; rewrite string_length_app; simpl; lia).
    rewrite string_app_empty. by destruct (String.eqb_spec (trim_zeros (num_int n +:+ f)) "") as [->|].
  - rewrite Hd. simpl. rewrite string_app_nil_r.
    by destruct (String.eqb_spec (trim_zeros (num_int n)) "") as [->|].
Qed.

(** Comparing padded digits is the digit loop of Go. *)
Lemma compare_cons x y a b :
  strings_Compare (String x a) (String y b)
  = match cmp_byte x y with 0 => strings_Compare a b | c => c end.
Proof.
  unfold strings_Compare, cmp_byte. simpl. unfold Ascii.compare.
  destruct (N.compare_spec (N_of_ascii x) (N_of_ascii y)) as [He|Hl|Hg].
  - rewrite He, N.ltb_irrefl. by destruct (String.compare a b).
  - by rewrite (proj2 (N.ltb_lt _ _) Hl).
  - rewrite (proj2 (N.ltb_lt _ _) Hg). destruct (N.ltb_spec (N_of_ascii x) (N_of_ascii y)); [lia|done].
Qed.

Lemma rpad_zeros_cons c s n : rpad_zeros (String c s) (S n) = String c (rpad_zeros s n).
Proof. done. Qed.

Lemma cmp_digits_padded a b n :
  (String.length a <= n)%nat → (String.length b <= n)%nat →
  strings_Compare (rpad_zeros a n) (rpad_zeros b n) = cmp_digits a b.
Proof.
  revert b n. induction a as [|x a IH]; intros b n Ha Hb.
  - cbn [cmp_digits]. unfold rpad_zeros at 1. simpl. rewrite Nat.sub_0_r, string_app_empty. clear Ha.
    revert n Hb. induction b as [|y b IHb]; intros n Hb.
    + unfold rpad_zeros. simpl. rewrite Nat.sub_0_r, string_app_empty. clear.
      induction n as [|n IH]; [done|]. cbn [zeros cmp_right]. by rewrite compare_cons, IH.
    + destruct n as [|n]; simpl in Hb; [lia|]. cbn [zeros cmp_right].
      rewrite rpad_zeros_cons, compare_cons. by rewrite IHb by lia.
  - destruct n as [|n]; simpl in Ha; [lia|]. rewrite rpad_zeros_cons.
    destruct b as [|y b]; cbn [cmp_digits].
    + assert (rpad_zeros "" (S n) = String "0" (rpad_zeros "" n)) as ->
        by (unfold rpad_zeros; simpl; by rewrite Nat.sub_0_r).
      rewrite compare_cons. rewrite IH by (simpl in *; lia). done.
    + rewrite rpad_zeros_cons, compare_cons. simpl in Hb. by rewrite IH by lia.
Qed.

Lemma rpad_zeros_length s n : (String.length s <= n)%nat → String.length (rpad_zeros s n) = n.
Proof.
  intros H. unfold rpad_zeros. rewrite string_length_app.
  assert (∀ k, String.length (zeros k) = k) as -> by (intros k; by induction k; simpl; f_equal).
  lia.
Qed.

Lemma compare_digits_cmp a b : compare_digits a b = cmp_digits a b.
Proof.
  unfold compare_digits. rewrite rpad_zeros_length by lia.
  rewrite <-(cmp_digits_padded a b (Nat.max (String.length a) (String.length b))) by lia.
  unfold strings_Compare, String.ltb.
  rewrite (String.compare_antisym (rpad_zeros b _)).
  by destruct (String.compare (rpad_zeros a _) _).
Qed.

(** The PL/pgSQL comparison of JSON numbers is the Go comparison: whatever the two
texts, both are incomparable or give the same order. *)
Theorem pg_compare_number_exact (a b : string) :
  pg_compare_number a b = CompareJSONNumbers a b.
Proof.
  unfold pg_compare_number, CompareJSONNumbers. rewrite !token_parts_decimal.
  destruct (decimalParts a) as [[[ad ae] an]|]; [|done].
  destruct (decimalParts b) as [[[bd be] bn]|]; [|done].
  destruct (Bool.eqb an bn); [|done]. cbn [negb].
  destruct (String.eqb ad "") eqn:Ha, (String.eqb bd "") eqn:Hb; cbn [andb]; try by destruct an.
  rewrite compare_digits_cmp. unfold Z_Cmp.
  destruct (Z.compare_spec ae be) as [->|Hl|Hg].
  - by rewrite Z.ltb_irrefl.
  - by rewrite (proj2 (Z.ltb_lt _ _) Hl).
  - rewrite (proj2 (Z.ltb_lt _ _) Hg). destruct (Z.ltb_spec ae be); [lia|done].
Qed.

End CompareNumber.

(** ** [orisun_criterion_sql] *)

(** A condition on a stored document: the comparison of the text of a field with a literal,
or a comparison by the type of the field. A literal is the text that [%L] quotes; [None] is
NULL. *)
Inductive pg_part :=
  | PgScalar (key op : string) (target : option string)
  | PgRange (key op : string) (target : option string).

(** [value -> key] and [value ->> key] of a [jsonb] value that is an object. *)
Definition json_member (v : json) (key : string) : option json :=
  match v with JObject fields => map_of_fields fields !! key | _ => None end.

Section CriterionSql.
Context `{P : Postgres}.

(** The text of a member: NULL for a missing one and for JSON null. *)
Definition arrow_text_of (v : option json) : option string :=
  match v with
  | None | Some JNull => None
  | Some (JBool true) => Some "true"
  | Some (JBool false) => Some "false"
  | Some (JNumber t) => Some t
  | Some (JString s) => Some s
  | Some v => Some (jsonb_out v)
  end.

(** [CASE operator_name WHEN 'eq' THEN '=' ...]; [None] is NULL. *)
Definition pg_operator (name : string) : option string :=
  if String.eqb name "eq" then Some "=" else if String.eqb name "ne" then Some "<>"
  else if String.eqb name "gt" then Some ">" else if String.eqb name "gte" then Some ">="
  else if String.eqb name "lt" then Some "<" else if String.eqb name "lte" then Some "<="
  else None.

Definition predicate_part (key : string) (predicate : json) : result pg_part :=
  let name := match arrow_text_of (json_member predicate "operator") with
              | None | Some "" => "eq"
              | Some n => n
              end in
  match pg_operator name with
  | None => Err (PlainError "unsupported tag operator %")
  | Some op =>
      let target := arrow_text_of (json_member predicate "value") in
      Ok (if String.eqb name "eq" || String.eqb name "ne" then PgScalar key op target
          else PgRange key op target)
  end.

Definition field_parts (kv : string * json) : result (list pg_part) :=
  match kv.2 with
  | JString s =>
      mapM (predicate_part kv.1) [JObject [("operator", JString "eq"); ("value", kv.2)]]
  | JArray (v :: l) => mapM (predicate_part kv.1) (v :: l)
  | _ => Err (PlainError "invalid tag predicates")
  end.

Definition is_string (v : json) : bool := match v with JString _ => true | _ => false end.

(** [ORDER BY (jsonb_typeof(value) <> 'string'), key]. *)
Definition ordered_fields (criterion : gmap string json) : list (string * json) :=
  let l := sorted_entries criterion in
  filter (λ kv, is_string kv.2 = true) l ++ filter (λ kv, is_string kv.2 = false) l.

(** The conjunction; the empty one is TRUE. *)
Definition orisun_criterion_sql (criterion : gmap string json) : result (list pg_part) :=
  parts ← mapM field_parts (ordered_fields criterion);
  mret (concat parts).

(** Whether a condition is true: NULL is not. *)
Definition part_true (doc : gmap string json) (p : pg_part) : bool :=
  match p with
  | PgScalar key op target =>
      match arrow_text_of (doc !! key), target with
      | Some text, Some target => compare_holds op (strings_Compare text target)
      | _, _ => false
      end
  | PgRange key op target =>
      match doc !! key, target with
      | Some (JString s), Some target => compare_holds op (strings_Compare s target)
      | Some (JNumber t), Some target =>
          match pg_compare_number t target with
          | Some c => compare_holds op c
          | None => false
          end
      | _, _ => false
      end
  end.

Definition criterion_true (doc : gmap string json) (parts : list pg_part) : bool :=
  forallb (part_true doc) parts.

(** The text of a value in PostgreSQL, for the meaning of tags. *)
Definition pg_text : SqlText := {|
  sprint := jsonb_out;
  cast_text v := match v with JNumber t => t | v => jsonb_out v end;
  arrow_text := jsonb_out;
  odd_path doc key := doc !! key |}.

Lemma pg_path_value doc key : @path_value pg_text doc key = doc !! key.
Proof. unfold path_value. by destruct (plain_key key). Qed.

(** *** Its meaning *)

Definition field_holds (doc : gmap string json) (kv : string * json) : bool :=
  match field_parts kv with Ok ps => criterion_true doc ps | Err _ => false end.

Lemma ordered_fields_Permutation c : ordered_fields c ≡ₚ map_to_list c.
Proof.
  rewrite <-sorted_entries_Permutation. unfold ordered_fields.
  induction (sorted_entries c) as [|kv l IH]; [done|]. rewrite !filter_cons.
  destruct (is_string kv.2) eqn:E.
  - rewrite decide_True, decide_False by done. simpl. by f_equiv.
  - rewrite decide_False, decide_True by done. rewrite <-Permutation_middle. by f_equiv.
Qed.

Lemma criterion_sql_fields c :
  (∀ k v, c !! k = Some v → is_ok (field_parts (k, v)) = true) →
  ∃ parts, orisun_criterion_sql c = Ok parts
    ∧ ∀ doc, criterion_true doc parts = forallb (field_holds doc) (map_to_list c).
Proof.
  intros H. unfold orisun_criterion_sql.
  assert (∀ kv, kv ∈ ordered_fields c → is_ok (field_parts kv) = true) as Hok.
  { intros [k v]. rewrite ordered_fields_Permutation, elem_of_map_to_list. apply H. }
  assert (∃ ps, mapM field_parts (ordered_fields c) = Ok ps ∧
    ∀ doc, forallb (part_true doc) (concat ps) = forallb (field_holds doc) (ordered_fields c))
    as (ps & -> & Hps).
  { clear H. induction (ordered_fields c) as [|kv l IH]; [by exists []|].
    destruct IH as (ps & Hps & Hh); [intros ? ?; apply Hok; by right|].
    specialize (Hok kv ltac:(left)). destruct (field_parts kv) as [p|] eqn:E; [|done].
    exists (p :: ps). simpl. rewrite E. simpl. rewrite Hps. split; [done|]. intros doc.
    rewrite forallb_app, Hh. f_equal. unfold field_holds. by rewrite E. }
  eexists. split; [done|]. intros doc. unfold criterion_true. rewrite Hps.
  apply forallb_ext_elem. intros kv. by rewrite ordered_fields_Permutation.
Qed.

Local Existing Instance pg_text.

Lemma predicate_members p :
  json_member (predicate_json p) "operator" = Some (JString (TP_Operator p))
  ∧ json_member (predicate_json p) "value" = Some (JString (TP_Value p)).
Proof.
  unfold json_member, predicate_json, map_of_fields. simpl. split.
  - by rewrite lookup_insert_ne, lookup_insert_eq.
  - apply lookup_insert_eq.
Qed.

Lemma predicate_part_tag k t :
  valid_tag t → Key t = k →
  ∃ p, predicate_part k (predicate_json (tag_predicate t)) = Ok p
    ∧ ∀ doc, part_true doc p = tag_sql_holds doc t.
Proof.
  intros (_ & _ & _ & c & Hc)%ValidateTag_ok Hk.
  assert (encoded_operator (Operator t) = c) as He.
  { unfold encoded_operator. destruct (String.eqb_spec (Operator t) "") as [E|Hne].
    - rewrite E in Hc. vm_compute in Hc. congruence.
    - apply CanonicalTagOperator_ok in Hc as [_ [->|[_ ?]]]; done. }
  unfold predicate_part. destruct (predicate_members (tag_predicate t)) as [-> ->].
  unfold tag_predicate. simpl TP_Operator. simpl TP_Value. rewrite He. clear He.
  unfold tag_sql_holds. rewrite Hk. cbn [arrow_text_of].
  destruct (TagSQLOperator_canonical _ _ Hc)
    as [[-> ->]|[[-> ->]|[[-> ->]|[[-> ->]|[[-> ->]|[-> ->]]]]]];
    (eexists; split; [reflexivity|]); intros doc; cbn -[strings_Compare pg_compare_number];
    unfold scalar_text; rewrite pg_path_value;
    destruct (doc !! k) as [[|[]|tok|s|l|l]|]; try done;
    by rewrite pg_compare_number_exact.
Qed.

Lemma field_parts_encoded k ts :
  ts ≠ [] → Forall valid_tag ts → Forall (λ t, Key t = k) ts →
  ∃ ps, field_parts (k, anyval_json (encode_predicates (tag_predicate <$> ts))) = Ok ps
    ∧ ∀ doc, criterion_true doc ps = forallb (tag_sql_holds doc) ts.
Proof.
  intros Hne Hv Hk.
  assert (∃ ps, mapM (predicate_part k) (predicate_json <$> (tag_predicate <$> ts)) = Ok ps
    ∧ ∀ doc, criterion_true doc ps = forallb (tag_sql_holds doc) ts) as (ps & Hps & Hh).
  { clear Hne. induction ts as [|t ts IH]; [by exists []|].
    apply Forall_cons in Hv as [Ht Hv], Hk as [Htk Hk].
    destruct (IH Hv Hk) as (ps & Hps & Hh).
    destruct (predicate_part_tag k t Ht Htk) as (p & Hp & Hph).
    exists (p :: ps). rewrite !fmap_cons. cbn [mapM]. rewrite Hp. cbn [mbind result_bind].
    rewrite Hps. split; [done|]. intros doc. cbn [criterion_true forallb].
    by rewrite Hph, <-Hh. }
  exists ps. split; [|done]. rewrite <-Hps.
  destruct ts as [|t [|u us]]; [done| |done]. cbn [fmap list_fmap encode_predicates].
  destruct (String.eqb_spec (TP_Operator (tag_predicate t)) "eq") as [He|]; [|done].
  unfold predicate_json. by rewrite He.
Qed.

(** A criterion encoded by Go selects the documents on which all of its tags hold. *)
Lemma criterion_sql_encoded tags :
  Forall valid_tag tags →
  ∃ parts, orisun_criterion_sql (anyval_json <$> EncodeCriterion tags) = Ok parts
    ∧ ∀ doc, criterion_true doc parts = forallb (tag_sql_holds doc) tags.
Proof.
  intros Hv. rewrite Forall_forall in Hv.
  assert (∀ k v, (anyval_json <$> EncodeCriterion tags) !! k = Some v →
    k ∈ Key <$> tags ∧ ∃ ps, field_parts (k, v) = Ok ps
      ∧ ∀ doc, criterion_true doc ps = forallb (tag_sql_holds doc) (of_key k tags)) as Hf.
  { intros k v. rewrite lookup_fmap, EncodeCriterion_lookup, <-of_key_nonempty.
    destruct (of_key k tags) as [|t ts] eqn:E; [done|]. rewrite <-E. intros [= <-].
    split; [by rewrite E|]. apply field_parts_encoded; [by rewrite E|..];
      apply Forall_forall; intros u [? ?]%list_elem_of_filter; auto. }
  destruct (criterion_sql_fields (anyval_json <$> EncodeCriterion tags)) as (parts & Hp & Hh).
  { intros k v Hk. by destruct (Hf k v Hk) as (_ & ps & -> & _). }
  exists parts. split; [done|]. intros doc. rewrite Hh. apply eq_iff_eq_true.
  rewrite !forallb_forall. setoid_rewrite <-list_elem_of_In. split.
  - intros H t Ht. assert (of_key (Key t) tags ≠ []) as Hne
      by (apply of_key_nonempty, list_elem_of_fmap; eauto).
    pose proof (EncodeCriterion_lookup_Some tags _ Hne) as Hl.
    assert ((anyval_json <$> EncodeCriterion tags) !! Key t = Some
      (anyval_json (encode_predicates (tag_predicate <$> of_key (Key t) tags)))) as Hj
      by by rewrite lookup_fmap, Hl.
    destruct (Hf _ _ Hj) as (_ & ps & Hps & Hps').
    specialize (H _ (proj2 (elem_of_map_to_list _ _ _) Hj)). unfold field_holds in H.
    rewrite Hps, Hps', forallb_forall in H. apply H, list_elem_of_In, list_elem_of_filter. done.
  - intros H [k v] Hkv%elem_of_map_to_list. destruct (Hf _ _ Hkv) as (_ & ps & Hps & Hps').
    unfold field_holds. rewrite Hps, Hps'. apply forallb_forall. setoid_rewrite <-list_elem_of_In.
    intros t [_ Ht]%list_elem_of_filter. by apply H.
Qed.

(** A criterion of texts selects the documents whose fields have these texts. *)
Lemma field_holds_string doc k s :
  field_holds doc (k, JString s) = bool_decide (arrow_text_of (doc !! k) = Some s).
Proof.
  unfold field_holds. cbn -[predicate_part].
  assert (predicate_part k (JObject [("operator", JString "eq"); ("value", JString s)])
    = Ok (PgScalar k "=" (Some s))) as ->.
  { change (JObject _) with (predicate_json (mkTagPredicate "eq" s)). unfold predicate_part.
    by destruct (predicate_members (mkTagPredicate "eq" s)) as [-> ->]. }
  cbn -[strings_Compare arrow_text_of]. rewrite andb_true_r.
  destruct (arrow_text_of (doc !! k)) as [text|]; [|done].
  rewrite strings_Compare_zero. apply eq_iff_eq_true. rewrite String.eqb_eq, bool_decide_eq_true.
  naive_solver.
Qed.

End CriterionSql.
