(* ===== verification/PgInsert.v ===== *)
(** * The write path of PostgreSQL: [insert_event_requests_v2] of
[postgres/scripts/common/db_scripts_1.sql]

One call saves a batch of requests. It compiles their observations into offset tables over
the distinct criteria of the batch, reads the latest position of each criterion once, and
then decides the requests in order against these positions, which every accepted request
moves: criteria of plain texts by projecting its events on key shapes and looking the
projection up, the others by one query. A bulk insert writes what was accepted. The
reference decides each request by looking at the log. *)

From stdpp Require Import options.
From S2P Require Import Prelude Status Model Number Json Predicates Consistency EventData.
From S2P Require Import WriteContext SqlPredicates Sql SqliteStore PgPredicates.

Set Default Proof Using "Type*".

(** ** Tables and arguments *)

(** A row of [<boundary>_orisun_es_event]; its other columns are generated from [data]. *)
Record PgRow := mkPgRow { pg_xact_id : option Z; pg_data : gmap string json }.

Definition pg_pos (r : PgRow) : Position :=
  mkPosition (default 0%Z (int_field (pg_data r) "__commitPosition"))
             (default 0%Z (int_field (pg_data r) "__preparePosition")).

(** An element of the [consistency] array of a request. *)
Record PgObservation := mkPgObservation {
  ob_criteria : list (gmap string json); ob_position : Position }.

(** An element of its [events] array. *)
Record PgEvent := mkPgEvent {
  ev_event_id : string; ev_event_type : string;
  ev_data : gmap string json; ev_metadata : option json }.

(** A request: [rq_document] is its [consistency] array as a value. *)
Record PgRequest := mkPgRequest {
  rq_document : json; rq_consistency : list PgObservation; rq_events : list PgEvent }.

(** The tables of a boundary and the next value of its sequence. *)
Record PgTables := mkPgTables {
  pt_events : list PgRow; pt_writes : gmap Z json; pt_seq : Z }.

(** The tables after [initialize_boundary_tables]. *)
Definition empty_pg_tables : PgTables := mkPgTables [] ∅ 0.

(** A row of the result. *)
Record PgOutcome := mkPgOutcome {
  oc_index : Z; oc_new_global_id : option Z; oc_transaction_id : option Z;
  oc_global_id : option Z; oc_error_code : option string; oc_error_message : option string }.

Definition raise {A} (message : string) : result A := Err (PlainError message).

Section Insert.
Context `{P : Postgres}.

(** ** Phase 1: compiling the batch *)

Definition criterion_text (c : gmap string json) : string := jsonb_out (json_of_map c).

Definition text_le (c d : gmap string json) : Prop :=
  String.le (criterion_text c) (criterion_text d).
#[local] Instance text_le_dec : RelDecision text_le.
Proof using Type. intros c d. unfold text_le. apply _. Defined.

(** [SELECT DISTINCT criterion ... WHERE criterion <> '{}'], in the order of the texts. *)
Definition all_criteria (requests : list PgRequest) : list (gmap string json) :=
  merge_sort text_le (remove_dups (filter (λ c, c ≠ ∅)
    (requests ≫= λ r, rq_consistency r ≫= ob_criteria))).

(** The 1-based number of a criterion, by its text. *)
Definition criterion_ids (criteria : list (gmap string json)) : gmap string nat :=
  list_to_map (imap (λ i c, (criterion_text c, S i)) criteria).

(** The offset tables: the checks of request [r] are those from entry [r] of
[request_check_offsets] up to before entry [r + 1], the criteria of a check likewise. *)
Record Plan := mkPlan {
  request_check_offsets : list nat;
  check_criterion_offsets : list nat;
  check_criterion_ids : list nat;
  check_expected : list Position }.

Fixpoint compile_criteria (ids : gmap string nat) (criteria : list (gmap string json)) (p : Plan)
  : result Plan :=
  match criteria with
  | [] => Ok p
  | crit :: criteria =>
      if decide (crit = ∅) then raise "consistency criterion has no tags"
      else match ids !! criterion_text crit with
           | None => raise "consistency criterion was not planned"
           | Some id =>
               compile_criteria ids criteria
                 (mkPlan (request_check_offsets p) (check_criterion_offsets p)
                    (check_criterion_ids p ++ [id]) (check_expected p))
           end
  end.

Fixpoint compile_observations (ids : gmap string nat) (observations : list PgObservation)
    (p : Plan) : result Plan :=
  match observations with
  | [] => Ok p
  | o :: observations =>
      if decide (ob_criteria o = []) then raise "consistency query has no criteria"
      else
        p ← compile_criteria ids (ob_criteria o)
              (mkPlan (request_check_offsets p)
                 (check_criterion_offsets p ++ [S (length (check_criterion_ids p))])
                 (check_criterion_ids p) (check_expected p ++ [ob_position o]));
        compile_observations ids observations p
  end.

Fixpoint compile_requests (ids : gmap string nat) (requests : list PgRequest) (p : Plan)
  : result Plan :=
  match requests with
  | [] =>
      Ok (mkPlan (request_check_offsets p ++ [S (length (check_expected p))])
            (check_criterion_offsets p ++ [S (length (check_criterion_ids p))])
            (check_criterion_ids p) (check_expected p))
  | r :: requests =>
      p ← compile_observations ids (rq_consistency r)
            (mkPlan (request_check_offsets p ++ [S (length (check_expected p))])
               (check_criterion_offsets p) (check_criterion_ids p) (check_expected p));
      compile_requests ids requests p
  end.

(** The keys of a criterion. *)
Definition shape (c : gmap string json) : list string := (sorted_entries c).*1.

Definition all_strings (c : gmap string json) : bool :=
  forallb (λ kv, is_string kv.2) (sorted_entries c).

(** What the loop over the groups of equal shape builds: the lookups of the stored events,
the conditions of the criteria with operators and the shapes with a criterion of texts. *)
Record Lookups := mkLookups {
  latest_selects : list (nat * list pg_part);
  predicate_selects : list (nat * list pg_part);
  criterion_shapes : list (list string) }.

Fixpoint shape_lookups (ids : gmap string nat) (criteria : list (gmap string json)) (l : Lookups)
  : result Lookups :=
  match criteria with
  | [] => Ok l
  | crit :: criteria =>
      parts ← orisun_criterion_sql crit;
      let select := (default 0 (ids !! criterion_text crit), parts) in
      shape_lookups ids criteria
        (mkLookups (latest_selects l ++ [select])
           (predicate_selects l ++ if all_strings crit then [] else [select])
           (criterion_shapes l))
  end.

Fixpoint group_lookups (ids : gmap string nat) (criteria : list (gmap string json))
    (shapes : list (list string)) (l : Lookups) : result Lookups :=
  match shapes with
  | [] => Ok l
  | s :: shapes =>
      let shape_criteria := filter (λ c, shape c = s) criteria in
      l ← shape_lookups ids shape_criteria l;
      group_lookups ids criteria shapes
        (mkLookups (latest_selects l) (predicate_selects l)
           (criterion_shapes l ++ if existsb all_strings shape_criteria then [s] else []))
  end.

(** ** Phase 2: the stored events *)

Definition pg_row_ge (r s : PgRow) : Prop := pos_le (pg_pos s) (pg_pos r).
#[export] Instance pg_row_ge_dec : RelDecision pg_row_ge.
Proof using Type. intros r s. unfold pg_row_ge. apply _. Defined.

(** [SELECT ... WHERE ... ORDER BY transaction_id DESC, global_id DESC LIMIT 1]. *)
Definition select_latest_row (parts : list pg_part) (rows : list PgRow) : option PgRow :=
  head (merge_sort pg_row_ge (filter (λ r, criterion_true (pg_data r) parts = true) rows)).

(** The arrays [criterion_tx_ids] and [criterion_gids], as one list of positions; the entry
of criterion [id] is at [id - 1]. *)
Definition set_position (id : nat) (p : Position) (positions : list Position) : list Position :=
  <[pred id := p]> positions.

Definition read_latest (rows : list PgRow) (positions : list Position) (select : nat * list pg_part)
  : list Position :=
  match select_latest_row select.2 rows with
  | Some r => set_position select.1 (pg_pos r) positions
  | None => positions
  end.

(** ** Phase 3: the requests in order *)

(** [FOR i IN lo..hi - 1]. *)
Definition range (lo hi : nat) : list nat := seq lo (hi - lo).

(** Entry [i] of a 1-based array; the loops stay inside the arrays. *)
Definition entry {A} (d : A) (l : list A) (i : nat) : A := default d (l !! pred i).

(** The later of two positions, as the loop over the criteria of a check keeps it. *)
Definition keep_latest (best p : Position) : Position :=
  if (CommitPosition best <? CommitPosition p)%Z
     || ((CommitPosition p =? CommitPosition best)%Z
         && (PreparePosition best <? PreparePosition p)%Z)
  then p else best.

Definition check_actual (p : Plan) (positions : list Position) (check_index : nat) : Position :=
  foldl (λ best j, keep_latest best
           (entry NotExistsPosition positions (entry 0 (check_criterion_ids p) j)))
    NotExistsPosition
    (range (entry 0 (check_criterion_offsets p) check_index)
           (entry 0 (check_criterion_offsets p) (S check_index))).

Definition conflict_message (expected actual : Position) : string :=
  "OptimisticConcurrencyException:StreamVersionConflict: Expected ("
  +:+ FormatInt (CommitPosition expected) +:+ ", " +:+ FormatInt (PreparePosition expected)
  +:+ "), Actual ("
  +:+ FormatInt (CommitPosition actual) +:+ ", " +:+ FormatInt (PreparePosition actual) +:+ ")".

(** The first check that fails, as its message. *)
Fixpoint run_checks (p : Plan) (positions : list Position) (checks : list nat) : option string :=
  match checks with
  | [] => None
  | check_index :: checks =>
      let expected := entry NotExistsPosition (check_expected p) check_index in
      let actual := check_actual p positions check_index in
      if decide (actual = expected) then run_checks p positions checks
      else Some (conflict_message expected actual)
  end.

(** [nextval], once per event: the numbers, and the next value. A number that is drawn stays
drawn when the statement fails. *)
Fixpoint draw_ids (n : nat) (next : Z) : result (list Z) * Z :=
  match n with
  | O => (Ok [], next)
  | S n =>
      if (MaxInt64 <? next)%Z then (raise "nextval: reached maximum value of sequence", next)
      else match draw_ids n (next + 1)%Z with
           | (Ok ids, next') => (Ok (next :: ids), next')
           | (Err e, next') => (Err e, next')
           end
  end.

(** [orisun_event_document]; [created] is the text of the time of the statement. *)
Definition orisun_event_document (payload : gmap string json) (meta : json) (tx gid wid : Z)
    (created : string) : gmap string json :=
  list_to_map [("__commitPosition", JNumber (FormatInt tx));
               ("__preparePosition", JNumber (FormatInt gid));
               ("__writeId", JString (FormatInt tx +:+ ":" +:+ FormatInt wid));
               ("__metadata", meta);
               ("__dateCreated", JString created)] ∪ payload.

Definition event_uuid (e : PgEvent) : result string :=
  match uuid_in (ev_event_id e) with
  | Some id => Ok id
  | None => raise "invalid input syntax for type uuid"
  end.

Definition metadata_of (e : PgEvent) : json := default (JObject []) (ev_metadata e).

(** The document that the criteria of the batch are matched with. *)
Definition candidate_document (created : string) (tx wid gid : Z) (e : PgEvent)
  : result (gmap string json) :=
  id ← event_uuid e;
  mret (orisun_event_document
          (<["__eventId" := JString id]> (<["__eventType" := JString (ev_event_type e)]> ∅)
           ∪ ev_data e)
          (metadata_of e) tx gid wid created).

(** [jsonb_object_agg(key, document ->> key)] over the keys of a shape. *)
Definition project (doc : gmap string json) (s : list string) : gmap string json :=
  list_to_map ((λ key, (key, from_option JString JNull (arrow_text_of (doc !! key)))) <$> s).

Definition match_shape (ids : gmap string nat) (tx gid : Z) (doc : gmap string json)
    (positions : list Position) (s : list string) : list Position :=
  match ids !! criterion_text (project doc s) with
  | Some id => set_position id (mkPosition tx gid) positions
  | None => positions
  end.

Definition match_event (ids : gmap string nat) (l : Lookups) (tx : Z) (positions : list Position)
    (candidate : Z * gmap string json) : list Position :=
  foldl (match_shape ids tx candidate.1 candidate.2) positions (criterion_shapes l).

(** [MAX(candidate.global_id)] of the candidates on which the condition holds. *)
Definition max_matching (parts : list pg_part) (candidates : list (Z * gmap string json))
  : option Z :=
  foldl (λ m c, if criterion_true c.2 parts
                then Some (from_option (Z.max c.1) c.1 m) else m) None candidates.

Definition match_predicate (tx : Z) (candidates : list (Z * gmap string json))
    (positions : list Position) (select : nat * list pg_part) : list Position :=
  match max_matching select.2 candidates with
  | Some gid => set_position select.1 (mkPosition tx gid) positions
  | None => positions
  end.

(** What an accepted request does to the positions of the criteria. *)
Definition match_request (ids : gmap string nat) (l : Lookups) (tx : Z)
    (candidates : list (Z * gmap string json)) (positions : list Position) : list Position :=
  foldl (match_predicate tx candidates) (foldl (match_event ids l tx) positions candidates)
    (predicate_selects l).

(** What the loop over the requests has decided: the positions of the criteria, the events of
the accepted requests as [(request_index, event_index, global_id)], the entries of
[result_global_ids] and [result_errors] and the variable [inserted_gid]. *)
Record Execution := mkExecution {
  ex_positions : list Position;
  ex_accepted : list (nat * nat * Z);
  ex_results : list (option Z * option string);
  ex_inserted_gid : option Z }.

Definition candidates_of (created : string) (tx wid : Z) (gids : list Z) (events : list PgEvent)
  : result (list (Z * gmap string json)) :=
  mapM (λ ge, doc ← candidate_document created tx wid ge.1 ge.2; mret (ge.1, doc))
    (zip gids events).

(** An accepted request, with the numbers drawn for its events; [count] is
[criterion_count]. *)
Definition accept_request (created : string) (ids : gmap string nat) (l : Lookups) (count : nat)
    (index : nat) (r : PgRequest) (gids : list Z) (st : Execution) : result Execution :=
  let accepted := ex_accepted st ++ imap (λ i gid, (index, i, gid)) gids in
  match last gids ∪ ex_inserted_gid st with
  | None =>
      Ok (mkExecution (ex_positions st) accepted (ex_results st ++ [(None, None)]) None)
  | Some inserted_gid =>
      let tx := (inserted_gid + 1)%Z in
      if (MaxInt64 <? tx)%Z then raise "bigint out of range"
      else
        positions ←
          (if (0 <? count)%nat
           then candidates ← candidates_of created tx inserted_gid gids (rq_events r);
                mret (match_request ids l tx candidates (ex_positions st))
           else Ok (ex_positions st));
        mret (mkExecution positions accepted (ex_results st ++ [(Some inserted_gid, None)])
                (Some inserted_gid))
  end.

Fixpoint execute_requests (created : string) (ids : gmap string nat) (l : Lookups) (count : nat)
    (p : Plan) (index : nat) (requests : list PgRequest) (st : Execution) (next : Z)
  : result Execution * Z :=
  match requests with
  | [] => (Ok st, next)
  | r :: requests =>
      let checks := range (entry 0 (request_check_offsets p) (index + 1))
                          (entry 0 (request_check_offsets p) (index + 2)) in
      match run_checks p (ex_positions st) checks with
      | Some message =>
          execute_requests created ids l count p (S index) requests
            (mkExecution (ex_positions st) (ex_accepted st)
               (ex_results st ++ [(None, Some message)]) (ex_inserted_gid st)) next
      | None =>
          match draw_ids (length (rq_events r)) next with
          | (Err e, next) => (Err e, next)
          | (Ok gids, next) =>
              match accept_request created ids l count index r gids st with
              | Err e => (Err e, next)
              | Ok st => execute_requests created ids l count p (S index) requests st next
              end
          end
      end
  end.

(** ** Phase 4: the bulk insert *)

(** The rows of [inserted_writes]. *)
Fixpoint insert_writes (requests : list PgRequest) (results : list (option Z * option string))
    (writes : gmap Z json) : result (gmap Z json) :=
  match requests, results with
  | r :: requests, (Some write_id, _) :: results =>
      match writes !! write_id with
      | Some _ => raise "duplicate key value violates unique constraint"
      | None => insert_writes requests results (<[write_id := rq_document r]> writes)
      end
  | _ :: requests, (None, _) :: results => insert_writes requests results writes
  | _, _ => Ok writes
  end.

(** [jsonb_set(data, '{__eventType}', ...) || {__eventId: ...}] in its envelope. *)
Definition inserted_document (created : string) (tx wid gid : Z) (e : PgEvent)
  : result (gmap string json) :=
  id ← event_uuid e;
  mret (orisun_event_document
          (<["__eventId" := JString id]> ∅
           ∪ <["__eventType" := JString (ev_event_type e)]> (ev_data e))
          (metadata_of e) tx gid wid created).

(** The row of an accepted event; the event and the number of its request are there. *)
Definition accepted_row (created : string) (xid : Z) (requests : list PgRequest)
    (results : list (option Z * option string)) (a : nat * nat * Z) : result PgRow :=
  let '(request_index, event_index, gid) := a in
  match requests !! request_index ≫= (λ r, rq_events r !! event_index),
        results !! request_index ≫= fst with
  | Some e, Some write_id =>
      doc ← inserted_document created (write_id + 1)%Z write_id gid e;
      mret (mkPgRow (Some xid) doc)
  | _, _ => raise "null value in column violates not-null constraint"
  end.

Fixpoint insert_pg_rows (new : list PgRow) (rows : list PgRow) : result (list PgRow) :=
  match new with
  | [] => Ok rows
  | r :: new =>
      if existsb (λ s, (PreparePosition (pg_pos s) =? PreparePosition (pg_pos r))%Z) rows
      then raise "duplicate key value violates unique constraint"
      else insert_pg_rows new (rows ++ [r])
  end.

Definition persist (created : string) (xid : Z) (requests : list PgRequest) (st : Execution)
    (t : PgTables) : result PgTables :=
  match ex_inserted_gid st with
  | None => Ok t
  | Some _ =>
      writes ← insert_writes requests (ex_results st) (pt_writes t);
      new ← mapM (accepted_row created xid requests (ex_results st)) (ex_accepted st);
      rows ← insert_pg_rows new (pt_events t);
      mret (mkPgTables rows writes (pt_seq t))
  end.

(** ** Phase 5: the result *)

Definition outcome_row (i : nat) (res : option Z * option string) : PgOutcome :=
  mkPgOutcome (Z.of_nat i) res.1 ((λ gid, gid + 1)%Z <$> res.1) res.1
    (match res.2 with Some _ => Some "P0001" | None => None end) res.2.

(** ** The function *)

Record Compiled := mkCompiled {
  cp_criteria : list (gmap string json); cp_plan : Plan; cp_lookups : Lookups }.

Definition compile (requests : list PgRequest) : result Compiled :=
  let criteria := all_criteria requests in
  let ids := criterion_ids criteria in
  plan ← compile_requests ids requests (mkPlan [] [] [] []);
  lookups ← group_lookups ids criteria (remove_dups (shape <$> criteria)) (mkLookups [] [] []);
  mret (mkCompiled criteria plan lookups).

(** The positions of the criteria among the stored events. *)
Definition initial_positions (c : Compiled) (rows : list PgRow) : list Position :=
  foldl (read_latest rows) (replicate (length (cp_criteria c)) NotExistsPosition)
    (latest_selects (cp_lookups c)).

(** [xid] is the identifier of the transaction. An error undoes everything but the draws of
the sequence. *)
Definition insert_event_requests (created : string) (xid : Z) (requests : list PgRequest)
    (t : PgTables) : result (list PgOutcome) * PgTables :=
  let failed e next := (Err e, mkPgTables (pt_events t) (pt_writes t) next) in
  if decide (requests = []) then (raise "requests must be a non-empty JSON array", t)
  else
    match compile requests with
    | Err e => (Err e, t)
    | Ok c =>
        match execute_requests created (criterion_ids (cp_criteria c)) (cp_lookups c)
                (length (cp_criteria c)) (cp_plan c) 0 requests
                (mkExecution (initial_positions c (pt_events t)) [] [] None) (pt_seq t) with
        | (Err e, next) => failed e next
        | (Ok st, next) =>
            match persist created xid requests st
                    (mkPgTables (pt_events t) (pt_writes t) next) with
            | Err e => failed e next
            | Ok t => (Ok (imap outcome_row (ex_results st)), t)
            end
        end
    end.

(** ** The reference *)

Definition criterion_on (doc : gmap string json) (c : gmap string json) : bool :=
  match orisun_criterion_sql c with Ok parts => criterion_true doc parts | Err _ => false end.

(** The position of the last event that satisfies [Q], or "not exists". *)
Definition pg_latest (rows : list PgRow) (Q : gmap string json → bool) : Position :=
  from_option pg_pos NotExistsPosition (last (filter (λ r, Q (pg_data r) = true) rows)).

Definition observed (rows : list PgRow) (o : PgObservation) : Position :=
  pg_latest rows (λ doc, existsb (criterion_on doc) (ob_criteria o)).

(** The first observation that is not current, as its message. *)
Fixpoint first_conflict (rows : list PgRow) (observations : list PgObservation) : option string :=
  match observations with
  | [] => None
  | o :: observations =>
      if decide (observed rows o = ob_position o) then first_conflict rows observations
      else Some (conflict_message (ob_position o) (observed rows o))
  end.

Definition stored_row (created : string) (xid tx wid gid : Z) (e : PgEvent) : PgRow :=
  mkPgRow (Some xid)
    (orisun_event_document
       (<["__eventId" := JString (default "" (uuid_in (ev_event_id e)))]>
          (<["__eventType" := JString (ev_event_type e)]> (ev_data e)))
       (metadata_of e) tx gid wid created).

(** The rows of a request that is accepted when [next] is the next number. *)
Definition request_rows (created : string) (xid next : Z) (r : PgRequest) : list PgRow :=
  let n := length (rq_events r) in
  let tx := (next + Z.of_nat n)%Z in
  zip_with (stored_row created xid tx (tx - 1)%Z) (seqZ next (Z.of_nat n)) (rq_events r).

(** Compare and append: one request alone. *)
Definition save_request (created : string) (xid : Z) (t : PgTables) (r : PgRequest)
  : PgTables * (option Z * option string) :=
  match first_conflict (pt_events t) (rq_consistency r) with
  | Some message => (t, (None, Some message))
  | None =>
      let next := (pt_seq t + Z.of_nat (length (rq_events r)))%Z in
      (mkPgTables (pt_events t ++ request_rows created xid (pt_seq t) r)
         (<[(next - 1)%Z := rq_document r]> (pt_writes t)) next,
       (Some (next - 1)%Z, None))
  end.

Fixpoint save_requests (created : string) (xid : Z) (t : PgTables) (requests : list PgRequest)
  : PgTables * list (option Z * option string) :=
  match requests with
  | [] => (t, [])
  | r :: requests =>
      let '(t, res) := save_request created xid t r in
      let '(t, results) := save_requests created xid t requests in
      (t, res :: results)
  end.

End Insert.
