(* ===== verification/PgLog.v ===== *)
(** * The write path of PostgreSQL refines compare and append

[insert_event_requests] with its offset tables, shapes and running positions decides and
stores exactly what [save_requests] does, which looks at the whole log for every request. *)

From stdpp Require Import options.
From S2P Require Import Prelude Status Model Number Json Predicates Consistency EventData.
From S2P Require Import WriteContext SqlPredicates Sql SqliteStore PgPredicates PgInsert.

Set Default Proof Using "Type*".

(** ** Offset tables *)

Section Offsets.
Context {A : Type}.

(** Where each list starts in the concatenation, from [start]. *)
Fixpoint starts (start : nat) (ls : list (list A)) : list nat :=
  match ls with
  | [] => []
  | l :: ls => start :: starts (start + length l) ls
  end.

Lemma starts_app st ls ks :
  starts st (ls ++ ks) = starts st ls ++ starts (st + length (concat ls)) ks.
Proof.
  revert st. induction ls as [|l ls IH]; intros st; simpl; [by rewrite Nat.add_0_r|].
  f_equal. rewrite IH, length_app. do 2 f_equal. lia.
Qed.

Lemma starts_length st ls : length (starts st ls) = length ls.
Proof. revert st. induction ls; intros st; simpl; auto. Qed.

(** The table with its sentinel. *)
Definition offsets (ls : list (list A)) : list nat := starts 1 ls ++ [S (length (concat ls))].

Lemma offsets_entry ls i :
  i <= length ls → entry 0 (offsets ls) (S i) = S (length (concat (take i ls))).
Proof.
  intros Hi. unfold entry, offsets. simpl. destruct (decide (i = length ls)) as [->|Hne].
  - rewrite lookup_app_r by by rewrite starts_length.
    by rewrite starts_length, Nat.sub_diag, firstn_all.
  - rewrite <-(take_drop i ls) at 1. rewrite starts_app.
    rewrite lookup_app_l by (rewrite <-starts_app, take_drop, starts_length; lia).
    rewrite lookup_app_r by (rewrite starts_length, length_take; lia).
    rewrite starts_length, length_take, Nat.min_l, Nat.sub_diag by lia.
    destruct (drop i ls) as [|l k] eqn:E; [|done].
    apply (f_equal length) in E. rewrite length_drop in E. simpl in E. lia.
Qed.

Lemma entry_slice (d : A) (a l b : list A) :
  entry d (a ++ l ++ b) <$> seq (S (length a)) (length l) = l.
Proof.
  apply list_eq. intros i. rewrite list_lookup_fmap.
  destruct (decide (i < length l)) as [Hi|Hi].
  - rewrite lookup_seq_lt by done. simpl. unfold entry. simpl.
    rewrite lookup_app_r by lia. replace (length a + i - length a) with i by lia.
    rewrite lookup_app_l by done.
    destruct (l !! i) as [x|] eqn:E; [done|]. apply lookup_ge_None in E. lia.
  - rewrite lookup_seq_ge by lia. simpl. symmetry. apply lookup_ge_None. lia.
Qed.

(** The entries between two offsets are the list that the table describes. *)
Lemma offsets_slice (d : A) ls i l :
  ls !! i = Some l →
  entry d (concat ls)
    <$> range (entry 0 (offsets ls) (S i)) (entry 0 (offsets ls) (S (S i))) = l.
Proof.
  intros Hl. pose proof (lookup_lt_Some _ _ _ Hl) as Hi. rewrite !offsets_entry by lia.
  unfold range. rewrite (take_S_r _ _ _ Hl), concat_app, length_app. simpl. rewrite app_nil_r.
  rewrite <-(take_drop_middle _ _ _ Hl) at 1. rewrite concat_app. simpl concat.
  set (a := concat (take i ls)).
  replace (length a + length l - length a) with (length l) by lia. apply entry_slice.
Qed.

End Offsets.

Lemma list_filter_fmap {A B} (f : A → B) (Q : B → Prop) `{!∀ x, Decision (Q x)} (l : list A) :
  filter Q (f <$> l) = f <$> filter (λ x, Q (f x)) l.
Proof.
  induction l as [|x l IH]; [done|]. rewrite fmap_cons, !filter_cons, IH.
  by destruct (decide (Q (f x))).
Qed.

(** ** Running positions *)

Definition apply_updates (ups : list (nat * Position)) (ps : list Position) : list Position :=
  foldl (λ ps u, set_position u.1 u.2 ps) ps ups.

Lemma foldl_updates {X} (f : X → option (nat * Position)) xs ps :
  foldl (λ ps x, match f x with Some u => set_position u.1 u.2 ps | None => ps end) ps xs
  = apply_updates (omap f xs) ps.
Proof.
  revert ps. induction xs as [|x xs IH]; intros ps; [done|]. simpl.
  rewrite IH. by destruct (f x).
Qed.

Lemma apply_updates_length ups ps : length (apply_updates ups ps) = length ps.
Proof.
  revert ps. induction ups as [|u ups IH]; intros ps; [done|]. simpl. rewrite IH.
  apply length_insert.
Qed.

Lemma apply_updates_none ups ps i :
  (∀ u, u ∈ ups → pred u.1 ≠ i) → apply_updates ups ps !! i = ps !! i.
Proof.
  revert ps. induction ups as [|u ups IH]; intros ps H; [done|]. simpl.
  rewrite IH by (intros ? ?; apply H; by right). unfold set_position.
  apply list_lookup_insert_ne, H. left.
Qed.

Lemma apply_updates_same ups ps i v :
  i < length ps → (∃ u, u ∈ ups ∧ pred u.1 = i) → (∀ u, u ∈ ups → pred u.1 = i → u.2 = v) →
  apply_updates ups ps !! i = Some v.
Proof.
  revert ps. induction ups as [|u ups IH] using rev_ind; intros ps Hi (w & Hw & Hwi) Hv.
  - by apply elem_of_nil in Hw.
  - unfold apply_updates. rewrite foldl_app. simpl. fold (apply_updates ups ps).
    unfold set_position. destruct (decide (pred u.1 = i)) as [He|Hne].
    + rewrite He, list_lookup_insert_eq by by rewrite apply_updates_length.
      f_equal. apply Hv; [set_solver|done].
    + rewrite list_lookup_insert_ne by done. apply IH; [done| |set_solver].
      exists w. split; [|done]. apply elem_of_app in Hw as [Hw|Hw]; [done|].
      apply list_elem_of_singleton in Hw. by subst.
Qed.

Section Refinement.
Context `{P : Postgres, L : !PostgresLaws}.

(** ** Numbers of criteria *)

#[local] Instance criterion_text_inj : Inj (=) (=) criterion_text.
Proof.
  intros c d H. unfold criterion_text in H. apply (inj jsonb_out) in H.
  injection H as H. by rewrite <-(list_to_map_sorted_entries c), H, list_to_map_sorted_entries.
Qed.

Lemma all_criteria_NoDup requests : NoDup (all_criteria requests).
Proof using Type.
  unfold all_criteria. rewrite merge_sort_Permutation. apply NoDup_remove_dups.
Qed.

Lemma elem_of_all_criteria requests c :
  c ∈ all_criteria requests ↔
  c ≠ ∅ ∧ ∃ r o, r ∈ requests ∧ o ∈ rq_consistency r ∧ c ∈ ob_criteria o.
Proof using Type.
  unfold all_criteria. rewrite merge_sort_Permutation, elem_of_remove_dups, list_elem_of_filter.
  setoid_rewrite list_elem_of_bind. setoid_rewrite list_elem_of_bind. naive_solver.
Qed.

Lemma criterion_ids_spec criteria c n :
  NoDup criteria →
  criterion_ids criteria !! criterion_text c = Some n
  ↔ ∃ i, n = S i ∧ criteria !! i = Some c.
Proof.
  intros Hnd. unfold criterion_ids. rewrite <-elem_of_list_to_map.
  - rewrite elem_of_lookup_imap. split.
    + intros (i & d & [= Ht ->] & Hi). apply (inj criterion_text) in Ht as ->. eauto.
    + intros (i & -> & Hi). eauto.
  - rewrite fmap_imap. apply NoDup_alt. intros i j x.
    rewrite !list_lookup_imap. intros Hi Hj.
    apply fmap_Some in Hi as (c1 & Hi & ->). apply fmap_Some in Hj as (c2 & Hj & Ht).
    simpl in Ht. apply (inj criterion_text) in Ht as ->. by eapply NoDup_lookup.
Qed.

Definition id_of (criteria : list (gmap string json)) (c : gmap string json) : nat :=
  default 0 (criterion_ids criteria !! criterion_text c).

Lemma id_of_lookup criteria i c :
  NoDup criteria → criteria !! i = Some c →
  criterion_ids criteria !! criterion_text c = Some (S i) ∧ id_of criteria c = S i.
Proof.
  intros Hnd Hi. assert (criterion_ids criteria !! criterion_text c = Some (S i)) as H
    by (apply criterion_ids_spec; eauto). split; [done|]. unfold id_of. by rewrite H.
Qed.

(** ** The offset tables of a batch *)

(** A check, compiled. *)
Definition compiled (criteria : list (gmap string json)) (o : PgObservation) : Position * list nat :=
  (ob_position o, id_of criteria <$> ob_criteria o).

(** The arrays describe the checks [cs]. *)
Definition plan_checks (p : Plan) (cs : list (Position * list nat)) : Prop :=
  check_expected p = cs.*1 ∧ check_criterion_ids p = concat cs.*2
  ∧ check_criterion_offsets p = starts 1 cs.*2.

(** What [orisun_criterion_sql] accepts and Go sends. *)
Definition good_criterion (c : gmap string json) : Prop :=
  c ≠ ∅ ∧ is_ok (orisun_criterion_sql c) = true.
Definition good_observation (o : PgObservation) : Prop :=
  ob_criteria o ≠ [] ∧ Forall good_criterion (ob_criteria o).

Lemma compile_criteria_ok criteria cs p :
  NoDup criteria → Forall (λ c, c ≠ ∅ ∧ c ∈ criteria) cs →
  compile_criteria (criterion_ids criteria) cs p
  = Ok (mkPlan (request_check_offsets p) (check_criterion_offsets p)
          (check_criterion_ids p ++ (id_of criteria <$> cs)) (check_expected p)).
Proof.
  intros Hnd H. revert p. induction H as [|c cs [Hne Hin] _ IH]; intros p; simpl.
  - rewrite app_nil_r. by destruct p.
  - rewrite decide_False by done. apply list_elem_of_lookup in Hin as [i Hi].
    destruct (id_of_lookup _ _ _ Hnd Hi) as [-> ->]. rewrite IH. simpl. by rewrite <-app_assoc.
Qed.

Lemma plan_checks_snoc criteria p cs o :
  plan_checks p cs →
  plan_checks (mkPlan (request_check_offsets p)
    (check_criterion_offsets p ++ [S (length (check_criterion_ids p))])
    (check_criterion_ids p ++ (id_of criteria <$> ob_criteria o))
    (check_expected p ++ [ob_position o])) (cs ++ [compiled criteria o]).
Proof using Type.
  intros (He & Hi & Ho). unfold plan_checks. simpl. rewrite !fmap_app, He, Hi, Ho. simpl.
  rewrite concat_app. simpl. rewrite app_nil_r, starts_app. done.
Qed.

Lemma compile_observations_ok criteria os p cs :
  NoDup criteria →
  Forall (λ o, ob_criteria o ≠ [] ∧ Forall (λ c, c ≠ ∅ ∧ c ∈ criteria) (ob_criteria o)) os →
  plan_checks p cs →
  ∃ p', compile_observations (criterion_ids criteria) os p = Ok p'
    ∧ plan_checks p' (cs ++ (compiled criteria <$> os))
    ∧ request_check_offsets p' = request_check_offsets p.
Proof.
  intros Hnd H. revert p cs. induction H as [|o os [Hne Ho] _ IH]; intros p cs Hp.
  - exists p. rewrite app_nil_r. done.
  - cbn [compile_observations]. rewrite decide_False by done.
    rewrite compile_criteria_ok by done. cbn [mbind result_bind].
    edestruct IH as (p' & -> & Hp' & Hr); [by apply (plan_checks_snoc criteria p cs o Hp)|].
    exists p'. split_and!; [done| |done]. rewrite fmap_cons. by rewrite <-app_assoc in Hp'.
Qed.

(** The finished tables. *)
Definition plan_of (gs : list (list (Position * list nat))) (p : Plan) : Prop :=
  request_check_offsets p = offsets gs ∧ check_expected p = (concat gs).*1
  ∧ check_criterion_ids p = concat (concat gs).*2
  ∧ check_criterion_offsets p = offsets (concat gs).*2.

Lemma compile_requests_ok criteria rs p gs :
  NoDup criteria →
  Forall (λ r, Forall (λ o, ob_criteria o ≠ []
    ∧ Forall (λ c, c ≠ ∅ ∧ c ∈ criteria) (ob_criteria o)) (rq_consistency r)) rs →
  plan_checks p (concat gs) → request_check_offsets p = starts 1 gs →
  ∃ p', compile_requests (criterion_ids criteria) rs p = Ok p'
    ∧ plan_of (gs ++ ((λ r, compiled criteria <$> rq_consistency r) <$> rs)) p'.
Proof.
  intros Hnd H. revert p gs. induction H as [|r rs Hr _ IH]; intros p gs Hp Hs.
  - destruct Hp as (He & Hi & Ho). simpl. eexists. split; [done|]. rewrite app_nil_r.
    unfold plan_of, offsets. simpl. rewrite Hs, He, Hi, Ho, length_fmap. done.
  - cbn [compile_requests].
    edestruct (compile_observations_ok criteria (rq_consistency r)
      (mkPlan (request_check_offsets p ++ [S (length (check_expected p))])
         (check_criterion_offsets p) (check_criterion_ids p) (check_expected p)) (concat gs))
      as (p1 & -> & Hp1 & Hr1); [done|done|done|]. cbn [mbind result_bind].
    edestruct (IH p1 (gs ++ [compiled criteria <$> rq_consistency r])) as (p' & -> & Hp').
    + rewrite concat_app. simpl. by rewrite app_nil_r.
    + rewrite Hr1. simpl. rewrite Hs, starts_app. simpl. f_equal.
      destruct Hp as (-> & _). by rewrite length_fmap.
    + exists p'. split; [done|]. rewrite fmap_cons. by rewrite <-app_assoc in Hp'.
Qed.

(** The checks of a request, without the tables. *)
Definition latest_among (positions : list Position) (ids : list nat) : Position :=
  foldl (λ best id, keep_latest best (entry NotExistsPosition positions id))
    NotExistsPosition ids.

Fixpoint compiled_conflict (positions : list Position) (cs : list (Position * list nat))
  : option string :=
  match cs with
  | [] => None
  | (expected, ids) :: cs =>
      if decide (latest_among positions ids = expected) then compiled_conflict positions cs
      else Some (conflict_message expected (latest_among positions ids))
  end.

Lemma foldl_fmap {X Y Z} (f : Z → Y → Z) (g : X → Y) z xs :
  foldl f z (g <$> xs) = foldl (λ z x, f z (g x)) z xs.
Proof using Type. revert z. induction xs; intros z; simpl; auto. Qed.

Lemma check_entry gs p positions k c :
  plan_of gs p → concat gs !! k = Some c →
  entry NotExistsPosition (check_expected p) (S k) = c.1
  ∧ check_actual p positions (S k) = latest_among positions c.2.
Proof using Type.
  intros (_ & He & Hi & Ho) Hk. split.
  - unfold entry. simpl. by rewrite He, list_lookup_fmap, Hk.
  - unfold check_actual, latest_among. rewrite Hi, Ho.
    assert ((concat gs).*2 !! k = Some c.2) as Hk2 by by rewrite list_lookup_fmap, Hk.
    by rewrite <-(offsets_slice 0 _ _ _ Hk2), foldl_fmap.
Qed.

Lemma run_checks_compiled gs p positions i cs :
  plan_of gs p → gs !! i = Some cs →
  run_checks p positions
    (range (entry 0 (request_check_offsets p) (i + 1)) (entry 0 (request_check_offsets p) (i + 2)))
  = compiled_conflict positions cs.
Proof using Type.
  intros Hp Hi. rewrite (Nat.add_comm i 1), (Nat.add_comm i 2). simpl.
  pose proof (offsets_slice (NotExistsPosition, []) _ _ _ Hi) as Hs.
  pose proof (lookup_lt_Some _ _ _ Hi) as Hlt.
  destruct Hp as (Hr & Hp). rewrite Hr.
  assert (∀ k, k ∈ range (entry 0 (offsets gs) (S i)) (entry 0 (offsets gs) (S (S i))) →
    ∃ j c, k = S j ∧ concat gs !! j = Some c) as Hk.
  { intros k. rewrite !offsets_entry by lia. unfold range. rewrite elem_of_seq.
    rewrite (take_S_r _ _ _ Hi), concat_app, length_app. simpl. rewrite app_nil_r. intros [H1 H2].
    destruct k as [|j]; [lia|]. exists j.
    assert (is_Some (concat gs !! j)) as [c Hc]; [|by exists c].
    apply lookup_lt_is_Some. rewrite <-(take_drop_middle _ _ _ Hi), concat_app, length_app.
    simpl. rewrite length_app. lia. }
  rewrite <-Hs. clear Hs Hi Hlt. revert Hk. generalize (range (entry 0 (offsets gs) (S i))
    (entry 0 (offsets gs) (S (S i)))). intros ks. induction ks as [|k ks IH]; intros Hk; [done|].
  destruct (Hk k) as (j & c & -> & Hc); [left|]. rewrite fmap_cons. cbn [run_checks].
  destruct (check_entry gs p positions j c (conj Hr Hp) Hc) as [-> ->].
  unfold entry at 1. simpl pred. rewrite Hc. simpl default. destruct c as [expected ids].
  cbn [compiled_conflict fst snd]. rewrite IH by (intros ? ?; apply Hk; by right). done.
Qed.

(** ** The log *)

Definition pg_row_lt (r s : PgRow) : Prop := pos_lt (pg_pos r) (pg_pos s).

(** The order of the log: transactions do not decrease, numbers increase. *)
Definition pg_row_before (r s : PgRow) : Prop :=
  (CommitPosition (pg_pos r) <= CommitPosition (pg_pos s))%Z
  ∧ (PreparePosition (pg_pos r) < PreparePosition (pg_pos s))%Z.

(** The rows are in the order of their positions and the sequence is past them. *)
Record pg_log_inv (t : PgTables) : Prop := {
  pl_sorted : StronglySorted pg_row_before (pt_events t);
  pl_seq : (0 <= pt_seq t)%Z;
  pl_bounds r : r ∈ pt_events t →
    (0 <= PreparePosition (pg_pos r) < CommitPosition (pg_pos r))%Z
    ∧ (CommitPosition (pg_pos r) <= pt_seq t)%Z;
  pl_writes id : is_Some (pt_writes t !! id) → (id < pt_seq t)%Z }.

Lemma pg_log_inv_empty : pg_log_inv empty_pg_tables.
Proof using Type.
  split; simpl; [constructor|done| |].
  - by intros r Hr%elem_of_nil.
  - intros id [x Hx]. by rewrite lookup_empty in Hx.
Qed.

#[local] Instance pg_row_ge_total : Total pg_row_ge.
Proof using Type. intros r s. unfold pg_row_ge. destruct (total pos_le (pg_pos s) (pg_pos r)); auto. Qed.
#[local] Instance pg_row_ge_trans : Transitive pg_row_ge.
Proof using Type. intros r s t H1 H2. unfold pg_row_ge in *. by transitivity (pg_pos s). Qed.

Lemma pg_row_lt_member l r s :
  StronglySorted pg_row_lt l → r ∈ l → s ∈ l → pg_pos r = pg_pos s → r = s.
Proof using Type.
  intros Hs. revert r s. induction Hs as [|x l Hs IH Hx]; intros r s Hr Hss Heq.
  - by apply elem_of_nil in Hr.
  - rewrite Forall_forall in Hx.
    apply elem_of_cons in Hr as [->|Hr], Hss as [->|Hss]; [done| | |by apply IH].
    + specialize (Hx _ Hss). unfold pg_row_lt in Hx. rewrite Heq in Hx. by apply pos_lt_irrefl in Hx.
    + specialize (Hx _ Hr). unfold pg_row_lt in Hx. rewrite Heq in Hx. by apply pos_lt_irrefl in Hx.
Qed.

Lemma pg_sort_desc l : StronglySorted pg_row_lt l → merge_sort pg_row_ge l = reverse l.
Proof using Type.
  intros Hs. apply (StronglySorted_unique_strong pg_row_ge).
  - intros x y Hx Hy Hxy Hyx. rewrite merge_sort_Permutation in Hx.
    rewrite elem_of_reverse in Hy.
    apply (pg_row_lt_member l); [done..|]. by apply (anti_symm pos_le).
  - apply (StronglySorted_merge_sort _).
  - eapply StronglySorted_mono; [|by apply StronglySorted_reverse]. intros x y H. by left.
  - by rewrite merge_sort_Permutation, reverse_Permutation.
Qed.

Lemma select_latest_row_last parts rows :
  StronglySorted pg_row_lt rows →
  select_latest_row parts rows
  = last (filter (λ r, criterion_true (pg_data r) parts = true) rows).
Proof using Type.
  intros Hs. unfold select_latest_row. rewrite pg_sort_desc by by apply StronglySorted_filter.
  by rewrite head_reverse.
Qed.

Lemma pg_latest_app rows new Q :
  pg_latest (rows ++ new) Q
  = from_option pg_pos (pg_latest rows Q) (last (filter (λ r, Q (pg_data r) = true) new)).
Proof using Type.
  unfold pg_latest. rewrite filter_app, last_app. by destruct (last (filter _ new)).
Qed.

Lemma pg_latest_ext rows Q R :
  (∀ doc, Q doc = R doc) → pg_latest rows Q = pg_latest rows R.
Proof using Type.
  intros H. unfold pg_latest. do 2 f_equal. apply list_filter_iff. intros r. by rewrite H.
Qed.

Lemma pg_latest_snoc rows r Q :
  pg_latest (rows ++ [r]) Q = if Q (pg_data r) then pg_pos r else pg_latest rows Q.
Proof using Type.
  rewrite pg_latest_app, filter_cons. destruct (Q (pg_data r)) eqn:E.
  - by rewrite decide_True.
  - by rewrite decide_False.
Qed.

(** ** The latest position of a disjunction *)

Lemma keep_latest_lt p q : pos_lt p q → keep_latest p q = q ∧ keep_latest q p = q.
Proof using Type.
  unfold pos_lt, keep_latest. intros H.
  destruct (Z.ltb_spec (CommitPosition p) (CommitPosition q)),
    (Z.ltb_spec (CommitPosition q) (CommitPosition p)),
    (Z.eqb_spec (CommitPosition q) (CommitPosition p)),
    (Z.eqb_spec (CommitPosition p) (CommitPosition q)),
    (Z.ltb_spec (PreparePosition p) (PreparePosition q)),
    (Z.ltb_spec (PreparePosition q) (PreparePosition p)); simpl; try done; lia.
Qed.

Lemma keep_latest_same p : keep_latest p p = p.
Proof using Type. unfold keep_latest. by destruct (_ || _). Qed.

(** Rows as the invariant keeps them. *)
Record ordered_rows (rows : list PgRow) : Prop := {
  or_sorted : StronglySorted pg_row_lt rows;
  or_real r : r ∈ rows → pos_lt NotExistsPosition (pg_pos r) }.

Lemma pg_log_ordered t : pg_log_inv t → ordered_rows (pt_events t).
Proof using Type.
  intros [Hs _ Hb _]. split.
  - eapply StronglySorted_mono; [|done]. intros r s [H1 H2]. unfold pg_row_lt, pos_lt. lia.
  - intros r Hr. destruct (Hb r Hr). unfold pos_lt, NotExistsPosition. cbn [CommitPosition PreparePosition]. lia.
Qed.

Lemma ordered_rows_snoc rows r :
  ordered_rows (rows ++ [r]) →
  ordered_rows rows ∧ ∀ Q, pos_lt (pg_latest rows Q) (pg_pos r).
Proof using Type.
  clear L P. intros [Hs Hr]. apply StronglySorted_app in Hs as (Hlt & Hs & _).
  assert (ordered_rows rows) as Ho by (split; [done|intros s ?; apply Hr; set_solver]).
  split; [done|]. intros Q. unfold pg_latest.
  destruct (last (filter _ rows)) as [s|] eqn:E; simpl; [|apply Hr; set_solver].
  apply last_Some_elem_of, list_elem_of_filter in E as [_ Hin]. apply Hlt; set_solver.
Qed.

Lemma pg_latest_or rows Q R :
  ordered_rows rows →
  pg_latest rows (λ doc, Q doc || R doc) = keep_latest (pg_latest rows Q) (pg_latest rows R).
Proof using Type.
  induction rows as [|r rows IH] using rev_ind; intros Ho; [done|].
  destruct (ordered_rows_snoc _ _ Ho) as [Ho' Hlt]. rewrite !pg_latest_snoc.
  destruct (Q (pg_data r)), (R (pg_data r)); simpl.
  - by rewrite keep_latest_same.
  - by destruct (keep_latest_lt _ _ (Hlt R)) as [_ ->].
  - by destruct (keep_latest_lt _ _ (Hlt Q)) as [-> _].
  - by apply IH.
Qed.

(** [positions] are those of [criteria] in [rows]. *)
Definition tracks (criteria : list (gmap string json)) (rows : list PgRow)
    (positions : list Position) : Prop :=
  positions = (λ c, pg_latest rows (λ doc, criterion_on doc c)) <$> criteria.

Lemma tracks_lookup criteria rows positions :
  length positions = length criteria →
  (∀ i c, criteria !! i = Some c → positions !! i = Some (pg_latest rows (λ doc, criterion_on doc c))) →
  tracks criteria rows positions.
Proof using Type.
  intros Hl H. apply list_eq_same_length with (length criteria); [by rewrite length_fmap|done|].
  intros i x y Hi Hx Hy. rewrite list_lookup_fmap in Hy.
  destruct (criteria !! i) as [c|] eqn:Hc; [|done]. rewrite (H i c Hc) in Hx. simpl in Hy. congruence.
Qed.

Lemma latest_among_observed criteria rows positions o :
  NoDup criteria → ordered_rows rows → tracks criteria rows positions →
  Forall (λ c, c ∈ criteria) (ob_criteria o) →
  latest_among positions (id_of criteria <$> ob_criteria o) = observed rows o.
Proof.
  intros Hnd Ho -> Hin. unfold latest_among, observed. rewrite foldl_fmap.
  assert (∀ Q, foldl (λ best c, keep_latest best
    (entry NotExistsPosition ((λ c, pg_latest rows (λ doc, criterion_on doc c)) <$> criteria)
       (id_of criteria c))) (pg_latest rows Q) (ob_criteria o)
    = pg_latest rows (λ doc, Q doc || existsb (criterion_on doc) (ob_criteria o))) as H.
  { induction Hin as [|c cs Hc _ IH]; intros Q; simpl.
    - apply pg_latest_ext. intros doc. by rewrite orb_false_r.
    - apply list_elem_of_lookup in Hc as [i Hi].
      destruct (id_of_lookup _ _ _ Hnd Hi) as [_ ->]. unfold entry at 2. simpl.
      rewrite list_lookup_fmap, Hi. simpl. rewrite <-pg_latest_or by done. rewrite IH.
      apply pg_latest_ext. intros doc. by rewrite orb_assoc. }
  specialize (H (λ _, false)). simpl in H. rewrite <-H.
  assert (pg_latest rows (λ _, false) = NotExistsPosition) as ->; [|done].
  unfold pg_latest. by rewrite list_filter_none.
Qed.

(** The checks of a request find the first observation that is not current. *)
Lemma compiled_conflict_first criteria rows positions os :
  NoDup criteria → ordered_rows rows → tracks criteria rows positions →
  Forall (λ o, Forall (λ c, c ∈ criteria) (ob_criteria o)) os →
  compiled_conflict positions (compiled criteria <$> os) = first_conflict rows os.
Proof.
  intros Hnd Ho Ht. induction 1 as [|o os Hc _ IH]; [done|].
  rewrite fmap_cons. unfold compiled at 1. cbn [compiled_conflict first_conflict].
  rewrite (latest_among_observed _ _ _ _ Hnd Ho Ht Hc). by rewrite IH.
Qed.

(** ** The lookups of a batch *)

(** Every criterion has its condition among the lookups, under its number. *)
Record lookups_of (criteria : list (gmap string json)) (done : list (gmap string json))
    (l : Lookups) : Prop := {
  lo_latest u : u ∈ latest_selects l ↔
    ∃ c parts, c ∈ done ∧ orisun_criterion_sql c = Ok parts ∧ u = (id_of criteria c, parts);
  lo_predicates u : u ∈ predicate_selects l ↔
    ∃ c parts, c ∈ done ∧ all_strings c = false ∧ orisun_criterion_sql c = Ok parts
      ∧ u = (id_of criteria c, parts) }.

Lemma shape_lookups_ok criteria cs done l :
  Forall (λ c, is_ok (orisun_criterion_sql c) = true) cs → lookups_of criteria done l →
  ∃ l', shape_lookups (criterion_ids criteria) cs l = Ok l' ∧ lookups_of criteria (done ++ cs) l'
    ∧ criterion_shapes l' = criterion_shapes l.
Proof using Type.
  intros H. revert done l. induction H as [|c cs Hc _ IH]; intros done l Hl.
  - exists l. rewrite app_nil_r. done.
  - cbn [shape_lookups]. destruct (orisun_criterion_sql c) as [parts|] eqn:Hp; [|done].
    cbn [mbind result_bind]. fold (id_of criteria c).
    edestruct (IH (done ++ [c])) as (l' & -> & Hl' & Hs); cycle 1.
    { exists l'. split_and!; [done| |done]. by rewrite <-app_assoc in Hl'. }
    destruct Hl as [Hl1 Hl2]. split; intros u; simpl; rewrite elem_of_app, ?Hl1, ?Hl2;
      setoid_rewrite elem_of_app; setoid_rewrite list_elem_of_singleton.
    + split.
      * intros [(d & ps & Hd & Hps)| ->]; [exists d, ps|exists c, parts]; auto.
      * intros (d & ps & [Hd| ->] & Hps & ->); [left; exists d, ps; auto|right; congruence].
    + destruct (all_strings c) eqn:E; [rewrite elem_of_nil|rewrite list_elem_of_singleton]; split.
      * intros [(d & ps & Hd & Hps)|[]]. exists d, ps. auto.
      * intros (d & ps & [Hd| ->] & Ha & Hps & ->); [left; exists d, ps; auto|congruence].
      * intros [(d & ps & Hd & Hps)| ->]; [exists d, ps|exists c, parts]; auto.
      * intros (d & ps & [Hd| ->] & Ha & Hps & ->); [left; exists d, ps; auto|right; congruence].
Qed.

Lemma group_lookups_ok criteria shapes done l :
  Forall (λ c, is_ok (orisun_criterion_sql c) = true) criteria → lookups_of criteria done l →
  ∃ l' done', group_lookups (criterion_ids criteria) criteria shapes l = Ok l'
    ∧ lookups_of criteria done' l'
    ∧ (∀ c, c ∈ done' ↔ c ∈ done ∨ c ∈ criteria ∧ shape c ∈ shapes)
    ∧ ∀ s, s ∈ criterion_shapes l' ↔ s ∈ criterion_shapes l
        ∨ s ∈ shapes ∧ ∃ c, c ∈ criteria ∧ shape c = s ∧ all_strings c = true.
Proof using Type.
  intros Hok. revert done l. induction shapes as [|s shapes IH]; intros done l Hl.
  - exists l, done. split_and!; [done|done| |].
    + intros c. rewrite elem_of_nil. naive_solver.
    + intros s. rewrite elem_of_nil. naive_solver.
  - cbn [group_lookups].
    destruct (shape_lookups_ok criteria (filter (λ c, shape c = s) criteria) done l)
      as (l1 & -> & Hl1 & Hs1); [|done|].
    { rewrite Forall_forall in *. intros c [_ ?]%list_elem_of_filter. auto. }
    cbn [mbind result_bind].
    edestruct (IH (done ++ filter (λ c, shape c = s) criteria)
      (mkLookups (latest_selects l1) (predicate_selects l1)
         (criterion_shapes l1 ++ if existsb all_strings (filter (λ c, shape c = s) criteria)
                                 then [s] else [])))
      as (l' & done' & -> & Hl' & Hd & Hs); [by destruct Hl1|].
    exists l', done'. split_and!; [done|done| |].
    + intros c. rewrite Hd, elem_of_app, list_elem_of_filter, elem_of_cons. naive_solver.
    + intros s'. rewrite Hs. simpl. rewrite elem_of_app, Hs1, elem_of_cons.
      destruct (existsb all_strings _) eqn:E.
      * apply existsb_exists in E as (c & Hc & Ha). rewrite <-list_elem_of_In in Hc.
        apply list_elem_of_filter in Hc as [Hc1 Hc2]. rewrite list_elem_of_singleton. naive_solver.
      * rewrite elem_of_nil. split; [naive_solver|]. intros [?|[[->|?] (c & Hc & Hsc & Ha)]];
          [naive_solver| |naive_solver]. exfalso.
        apply not_true_iff_false in E. apply E, existsb_exists. exists c.
        rewrite <-list_elem_of_In, list_elem_of_filter. done.
Qed.

Definition good_request (r : PgRequest) : Prop :=
  rq_events r ≠ [] ∧ Forall good_observation (rq_consistency r)
  ∧ Forall (λ e, is_Some (uuid_in (ev_event_id e))) (rq_events r).

(** What compiling a batch of good requests gives. *)
Record compiled_batch (requests : list PgRequest) (c : Compiled) : Prop := {
  cb_criteria : cp_criteria c = all_criteria requests;
  cb_plan : plan_of ((λ r, compiled (all_criteria requests) <$> rq_consistency r) <$> requests)
              (cp_plan c);
  cb_lookups : ∃ all, lookups_of (all_criteria requests) all (cp_lookups c)
    ∧ ∀ d, d ∈ all ↔ d ∈ all_criteria requests;
  cb_shapes s : s ∈ criterion_shapes (cp_lookups c) ↔
    ∃ d, d ∈ all_criteria requests ∧ shape d = s ∧ all_strings d = true;
  cb_good d : d ∈ all_criteria requests → good_criterion d }.

Lemma all_criteria_good requests d :
  Forall good_request requests → d ∈ all_criteria requests → good_criterion d.
Proof using Type.
  rewrite Forall_forall. intros H (_ & r & o & Hr & Ho & Hd)%elem_of_all_criteria.
  destruct (H r Hr) as (_ & Hos & _). rewrite Forall_forall in Hos.
  destruct (Hos o Ho) as [_ Hcs]. rewrite Forall_forall in Hcs. by apply Hcs.
Qed.

Lemma request_criteria requests r o :
  Forall good_request requests → r ∈ requests → o ∈ rq_consistency r →
  ob_criteria o ≠ [] ∧ Forall (λ c, c ≠ ∅ ∧ c ∈ all_criteria requests) (ob_criteria o).
Proof using Type.
  rewrite Forall_forall. intros H Hr Ho.
  destruct (H r Hr) as (_ & Hos & _). rewrite Forall_forall in Hos.
  destruct (Hos o Ho) as [Hne Hcs]. split; [done|]. rewrite Forall_forall in *.
  intros c Hc. destruct (Hcs c Hc) as [Hce _]. split; [done|].
  apply elem_of_all_criteria. split; [done|]. exists r, o. done.
Qed.

Lemma compile_ok requests :
  Forall good_request requests → ∃ c, compile requests = Ok c ∧ compiled_batch requests c.
Proof.
  intros Hg. unfold compile.
  edestruct (compile_requests_ok (all_criteria requests) requests (mkPlan [] [] [] []) [])
    as (p & -> & Hp); [apply all_criteria_NoDup| |done|done|].
  { apply Forall_forall. intros r Hr. apply Forall_forall. intros o Ho.
    by eapply request_criteria. }
  cbn [mbind result_bind].
  destruct (group_lookups_ok (all_criteria requests)
    (remove_dups (shape <$> all_criteria requests)) [] (mkLookups [] [] []))
    as (l & all & -> & Hl & Hall & Hs).
  - apply Forall_forall. intros d Hd. by eapply all_criteria_good.
  - split; intros u; simpl; (split; [by intros ?%elem_of_nil|]);
      intros (d & ps & ?%elem_of_nil & _); done.
  - cbn [mbind result_bind]. eexists. split; [done|]. split; simpl; [done|done| | |].
    + exists all. split; [done|]. intros d. rewrite Hall, elem_of_remove_dups, elem_of_nil.
      split; [by intros [[]|[? _]]|]. intros Hd. right. split; [done|].
      by apply list_elem_of_fmap_2.
    + intros s. rewrite Hs, elem_of_nil, elem_of_remove_dups. simpl. split; [naive_solver|].
      intros (d & Hd & <- & Ha). right. split; [by apply list_elem_of_fmap_2|eauto].
    + intros d. by apply all_criteria_good.
Qed.

(** ** The positions in the stored log *)

Lemma criterion_on_parts c parts doc :
  orisun_criterion_sql c = Ok parts → criterion_on doc c = criterion_true doc parts.
Proof using Type. intros H. unfold criterion_on. by rewrite H. Qed.

Lemma initial_positions_tracks requests c rows :
  compiled_batch requests c → ordered_rows rows →
  tracks (all_criteria requests) rows (initial_positions c rows).
Proof.
  intros Hb Ho. unfold initial_positions. rewrite (cb_criteria _ _ Hb).
  destruct (cb_lookups _ _ Hb) as (all & Hl & Hall).
  set (f := λ u : nat * list pg_part,
    (λ r, (u.1, pg_pos r)) <$> select_latest_row u.2 rows).
  assert (∀ ps l, foldl (read_latest rows) ps l = apply_updates (omap f l) ps) as ->.
  { intros ps l. rewrite <-foldl_updates. revert ps. induction l as [|u l IH]; intros ps; [done|].
    simpl. rewrite IH. f_equal. unfold read_latest, f. by destruct (select_latest_row u.2 rows). }
  apply tracks_lookup; [by rewrite apply_updates_length, length_replicate|].
  intros i d Hi. pose proof (all_criteria_NoDup requests) as Hnd.
  assert (d ∈ all_criteria requests) as Hd by by eapply list_elem_of_lookup_2.
  destruct (id_of_lookup _ _ _ Hnd Hi) as [_ Hid].
  destruct (cb_good _ _ Hb d Hd) as [_ Hok].
  destruct (orisun_criterion_sql d) as [parts|] eqn:Hp; [|done].
  assert (pg_latest rows (λ doc, criterion_on doc d)
    = from_option pg_pos NotExistsPosition (select_latest_row parts rows)) as ->.
  { rewrite select_latest_row_last by apply Ho. unfold pg_latest. do 2 f_equal.
    apply list_filter_iff. intros r. by rewrite (criterion_on_parts _ _ _ Hp). }
  assert (∀ u, u ∈ omap f (latest_selects (cp_lookups c)) → pred u.1 = i →
    (λ r, (S i, pg_pos r)) <$> select_latest_row parts rows = Some u) as Hu.
  { intros u (v & Hv & Hfv)%list_elem_of_omap Hui. apply Hl in Hv as (d' & ps & Hd' & Hps & ->).
    apply Hall, list_elem_of_lookup in Hd' as [j Hj].
    destruct (id_of_lookup _ _ _ Hnd Hj) as [_ Hidj]. unfold f in Hfv. simpl in Hfv.
    rewrite Hidj in Hfv. apply fmap_Some in Hfv as (r & Hr & ->). simpl in Hui. subst j.
    rewrite Hi in Hj. injection Hj as <-. rewrite Hp in Hps. injection Hps as <-. by rewrite Hr. }
  destruct (select_latest_row parts rows) as [r|] eqn:Hr; simpl.
  - apply apply_updates_same.
    + rewrite length_replicate. by eapply lookup_lt_Some.
    + exists (S i, pg_pos r). split; [|done]. apply list_elem_of_omap. exists (S i, parts). split.
      * apply Hl. exists d, parts. rewrite Hid. split_and!; [by apply Hall|done..].
      * unfold f. simpl. by rewrite Hr.
    + intros u Hin Hui. specialize (Hu u Hin Hui). by injection Hu as <-.
  - rewrite apply_updates_none by (intros u Hin Hui; by specialize (Hu u Hin Hui)).
    apply lookup_replicate_2. by eapply lookup_lt_Some.
Qed.

(** ** Projections *)

Lemma project_lookup doc s k :
  project doc s !! k
  = if decide (k ∈ s) then Some (from_option JString JNull (arrow_text_of (doc !! k))) else None.
Proof using Type.
  clear L. unfold project. induction s as [|j s IH].
  - rewrite decide_False by apply not_elem_of_nil. apply lookup_empty.
  - rewrite fmap_cons, list_to_map_cons. destruct (decide (j = k)) as [->|Hne].
    + rewrite lookup_insert_eq, decide_True by left. done.
    + rewrite lookup_insert_ne by done. rewrite IH. apply decide_ext. set_solver.
Qed.

Lemma elem_of_shape c k : k ∈ shape c ↔ is_Some (c !! k).
Proof using Type.
  unfold shape. rewrite list_elem_of_fmap. setoid_rewrite sorted_entries_Permutation. split.
  - intros ([j v] & -> & Hj%elem_of_map_to_list). eauto.
  - intros [v Hv]. exists (k, v). split; [done|]. by apply elem_of_map_to_list.
Qed.

(** A projection is a criterion when it has its keys and its texts. *)
Lemma project_eq doc s c :
  project doc s = c → ∀ k v, c !! k = Some v →
  v = from_option JString JNull (arrow_text_of (doc !! k)).
Proof using Type.
  intros <- k v. rewrite project_lookup. case_decide; naive_solver.
Qed.

Lemma project_shape doc c :
  (∀ k v, c !! k = Some v → v = from_option JString JNull (arrow_text_of (doc !! k))) →
  project doc (shape c) = c.
Proof using Type.
  intros H. apply map_eq. intros k. rewrite project_lookup.
  destruct (c !! k) as [v|] eqn:E.
  - rewrite decide_True by by apply elem_of_shape. by rewrite <-(H k v).
  - rewrite decide_False; [done|]. rewrite elem_of_shape, E. by intros [].
Qed.

Lemma mapM_ok_elem {A B} (f : A → result B) l x :
  is_ok (mapM f l) = true → x ∈ l → is_ok (f x) = true.
Proof using Type.
  induction l as [|y l IH]; intros H Hx; [by apply elem_of_nil in Hx|]. simpl in H.
  destruct (f y) as [b|] eqn:E; [|done]. simpl in H.
  destruct (mapM f l) as [bs|] eqn:E2; [|done].
  apply elem_of_cons in Hx as [->|Hx]; [by rewrite E|by apply IH].
Qed.

(** The fields of a criterion that is accepted, and what it means. *)
Lemma good_fields c k v :
  is_ok (orisun_criterion_sql c) = true → c !! k = Some v → is_ok (field_parts (k, v)) = true.
Proof using Type.
  intros H Hk. apply (mapM_ok_elem _ (ordered_fields c)).
  - unfold orisun_criterion_sql in H. by destruct (mapM _ _).
  - rewrite ordered_fields_Permutation. by apply elem_of_map_to_list.
Qed.

Lemma criterion_on_fields c doc :
  is_ok (orisun_criterion_sql c) = true →
  criterion_on doc c = true ↔ ∀ k v, c !! k = Some v → field_holds doc (k, v) = true.
Proof using Type.
  intros Hok. destruct (criterion_sql_fields c) as (parts & Hp & Hh).
  { intros k v. by apply good_fields. }
  rewrite (criterion_on_parts _ _ _ Hp), Hh, forallb_forall. setoid_rewrite <-list_elem_of_In.
  split.
  - intros H k v Hk. by apply H, elem_of_map_to_list.
  - intros H [k v] Hk%elem_of_map_to_list. by apply H.
Qed.

Lemma all_strings_spec c :
  all_strings c = true ↔ ∀ k v, c !! k = Some v → is_string v = true.
Proof using Type.
  unfold all_strings. rewrite forallb_forall. setoid_rewrite <-list_elem_of_In.
  setoid_rewrite sorted_entries_Permutation. split.
  - intros H k v Hk. by apply (H (k, v)), elem_of_map_to_list.
  - intros H [k v] Hk%elem_of_map_to_list. by eapply H.
Qed.

(** Looking up the projections of a document finds exactly the criteria of texts on it. *)
Lemma projection_matches c doc :
  is_ok (orisun_criterion_sql c) = true →
  (all_strings c = true ∧ criterion_on doc c = true)
  ↔ (∀ k v, c !! k = Some v → v = from_option JString JNull (arrow_text_of (doc !! k))).
Proof using Type.
  intros Hok. rewrite all_strings_spec, criterion_on_fields by done. split.
  - intros [Hs Hf] k v Hk. specialize (Hs k v Hk). specialize (Hf k v Hk).
    destruct v as [| | |s| |]; try done. rewrite field_holds_string in Hf. bool_props.
    by rewrite Hf.
  - intros H.
    assert (∀ k v, c !! k = Some v → ∃ s, v = JString s ∧ arrow_text_of (doc !! k) = Some s) as Hv.
    { intros k v Hk. pose proof (good_fields c k v Hok Hk) as Hp. rewrite (H k v Hk) in *.
      destruct (arrow_text_of (doc !! k)) as [s|]; [by exists s|done]. }
    split; intros k v Hk; destruct (Hv k v Hk) as (s & -> & Ht); [done|].
    rewrite field_holds_string. by apply bool_decide_eq_true.
Qed.

(** ** What an accepted request does to the positions *)

Lemma match_event_lookup requests c tx gid doc ps i d :
  compiled_batch requests c → length ps = length (all_criteria requests) →
  all_criteria requests !! i = Some d →
  match_event (criterion_ids (all_criteria requests)) (cp_lookups c) tx ps (gid, doc) !! i
  = if all_strings d && criterion_on doc d then Some (mkPosition tx gid) else ps !! i.
Proof.
  intros Hb Hlen Hi. unfold match_event. simpl.
  pose proof (all_criteria_NoDup requests) as Hnd.
  set (ids := criterion_ids (all_criteria requests)).
  set (f := λ s, (λ id, (id, mkPosition tx gid)) <$> ids !! criterion_text (project doc s)).
  assert (∀ ss, foldl (match_shape ids tx gid doc) ps ss = apply_updates (omap f ss) ps) as ->.
  { intros ss. rewrite <-foldl_updates. revert ps Hlen. induction ss as [|s ss IH]; intros ps Hlen;
      [done|]. simpl. rewrite IH.
    - f_equal. unfold match_shape, f. by destruct (ids !! _).
    - unfold match_shape. destruct (ids !! _); [|done]. by unfold set_position; rewrite length_insert. }
  assert (d ∈ all_criteria requests) as Hd by by eapply list_elem_of_lookup_2.
  destruct (cb_good _ _ Hb d Hd) as [_ Hok].
  pose proof (projection_matches d doc Hok) as Hm.
  assert (∀ u, u ∈ omap f (criterion_shapes (cp_lookups c)) → pred u.1 = i →
    u.2 = mkPosition tx gid ∧ all_strings d = true ∧ criterion_on doc d = true) as Hu.
  { intros u (s & Hs & Hf)%list_elem_of_omap Hui. unfold f in Hf.
    apply fmap_Some in Hf as (id & Hid & ->). simpl in *. split; [done|].
    apply criterion_ids_spec in Hid as (j & -> & Hj); [|done]. simpl in Hui. subst j.
    rewrite Hi in Hj. injection Hj as Hj. apply Hm. by apply (project_eq doc s). }
  destruct (all_strings d && criterion_on doc d) eqn:E.
  - apply andb_true_iff in E as [Ha Hon]. apply apply_updates_same.
    + rewrite Hlen. by eapply lookup_lt_Some.
    + exists (S i, mkPosition tx gid). split; [|done]. apply list_elem_of_omap.
      exists (shape d). split; [apply (cb_shapes _ _ Hb); eauto|]. unfold f, ids.
      rewrite project_shape by by apply Hm.
      by destruct (id_of_lookup _ _ _ Hnd Hi) as [-> _].
    + intros u Hin Hui. by apply Hu.
  - apply apply_updates_none. intros u Hin Hui. destruct (Hu u Hin Hui) as (_ & Ha & Hon).
    by rewrite Ha, Hon in E.
Qed.

Definition gid_lt (a b : Z * gmap string json) : Prop := (a.1 < b.1)%Z.

Lemma max_matching_last parts cands :
  StronglySorted gid_lt cands →
  max_matching parts cands
  = fst <$> last (filter (λ c, criterion_true c.2 parts = true) cands).
Proof using Type.
  induction cands as [|c cands IH] using rev_ind; intros Hs; [done|].
  apply StronglySorted_app in Hs as (Hlt & Hs & _).
  unfold max_matching. rewrite foldl_app. simpl. fold (max_matching parts cands).
  rewrite IH by done. rewrite filter_app, filter_cons, last_app.
  destruct (criterion_true c.2 parts) eqn:E.
  - rewrite decide_True by done. simpl. f_equal.
    destruct (last (filter _ cands)) as [b|] eqn:Hb; [|done]. simpl.
    apply last_Some_elem_of, list_elem_of_filter in Hb as [_ Hb].
    specialize (Hlt b c Hb ltac:(left)). unfold gid_lt in Hlt. lia.
  - by rewrite decide_False.
Qed.

Lemma match_event_length ids l tx ps cand : length (match_event ids l tx ps cand) = length ps.
Proof using Type.
  unfold match_event. revert ps. induction (criterion_shapes l) as [|s ss IH]; intros ps; [done|].
  simpl. rewrite IH. unfold match_shape. destruct (ids !! _); [|done]. apply length_insert.
Qed.

Lemma match_events_length ids l tx ps cands :
  length (foldl (match_event ids l tx) ps cands) = length ps.
Proof using Type.
  revert ps. induction cands as [|c cands IH]; intros ps; [done|]. simpl.
  by rewrite IH, match_event_length.
Qed.

(** The last candidate on which [d] holds, in transaction [tx]. *)
Definition last_match (tx : Z) (cands : list (Z * gmap string json)) (d : gmap string json)
  : option Position :=
  (λ c, mkPosition tx c.1) <$> last (filter (λ c, criterion_on c.2 d = true) cands).

Lemma match_events_lookup requests c tx cands ps i d :
  compiled_batch requests c → length ps = length (all_criteria requests) →
  all_criteria requests !! i = Some d →
  foldl (match_event (criterion_ids (all_criteria requests)) (cp_lookups c) tx) ps cands !! i
  = if all_strings d then last_match tx cands d ∪ ps !! i else ps !! i.
Proof.
  intros Hb Hlen Hi. induction cands as [|[gid doc] cands IH] using rev_ind.
  - simpl. by destruct (all_strings d), (ps !! i).
  - rewrite foldl_app. cbn [foldl].
    rewrite (match_event_lookup requests c tx gid doc _ i d Hb) by (by rewrite ?match_events_length).
    rewrite IH. unfold last_match. rewrite filter_app, filter_cons, last_app.
    destruct (all_strings d); simpl; [|done]. destruct (criterion_on doc d) eqn:E.
    + rewrite decide_True by done. by destruct (ps !! i).
    + by rewrite decide_False.
Qed.

Lemma match_request_lookup requests c tx cands ps i d :
  compiled_batch requests c → length ps = length (all_criteria requests) →
  StronglySorted gid_lt cands → all_criteria requests !! i = Some d →
  match_request (criterion_ids (all_criteria requests)) (cp_lookups c) tx cands ps !! i
  = last_match tx cands d ∪ ps !! i.
Proof.
  intros Hb Hlen Hs Hi. unfold match_request.
  pose proof (match_events_lookup requests c tx cands ps i d Hb Hlen Hi) as He.
  pose proof (match_events_length (criterion_ids (all_criteria requests)) (cp_lookups c) tx ps cands)
    as Hl.
  set (ps1 := foldl _ ps cands) in *.
  set (f := λ u : nat * list pg_part, (λ gid, (u.1, mkPosition tx gid)) <$> max_matching u.2 cands).
  assert (∀ us qs, foldl (match_predicate tx cands) qs us = apply_updates (omap f us) qs) as ->.
  { intros us. induction us as [|u us IH]; intros qs; [done|]. simpl. rewrite IH.
    unfold match_predicate, f. by destruct (max_matching u.2 cands). }
  destruct (cb_lookups _ _ Hb) as (all & [_ Hlp] & Hall).
  pose proof (all_criteria_NoDup requests) as Hnd.
  assert (d ∈ all_criteria requests) as Hd by by eapply list_elem_of_lookup_2.
  destruct (cb_good _ _ Hb d Hd) as [_ Hok].
  destruct (orisun_criterion_sql d) as [parts|] eqn:Hp; [|done].
  assert (last_match tx cands d = mkPosition tx <$> max_matching parts cands) as Hm.
  { unfold last_match. rewrite max_matching_last by done. rewrite <-option_fmap_compose.
    do 2 f_equal. apply list_filter_iff. intros x. by rewrite (criterion_on_parts _ _ _ Hp). }
  assert (∀ u, u ∈ omap f (predicate_selects (cp_lookups c)) → pred u.1 = i →
    all_strings d = false ∧ Some u.2 = last_match tx cands d) as Hu.
  { intros u (v & Hv & Hf)%list_elem_of_omap Hui. apply Hlp in Hv as (d' & pp & Hd' & Ha & Hpp & ->).
    apply Hall, list_elem_of_lookup in Hd' as [j Hj].
    destruct (id_of_lookup _ _ _ Hnd Hj) as [_ Hidj]. unfold f in Hf. simpl in Hf.
    rewrite Hidj in Hf. apply fmap_Some in Hf as (g & Hg & ->). simpl in Hui. subst j.
    rewrite Hi in Hj. injection Hj as <-. rewrite Hp in Hpp. injection Hpp as <-.
    rewrite Hm, Hg. done. }
  destruct (all_strings d) eqn:Ha.
  - rewrite apply_updates_none, He by (intros u Hin Hui; by destruct (Hu u Hin Hui)). done.
  - rewrite Hm in Hu |- *. destruct (max_matching parts cands) as [g|] eqn:Hg; simpl.
    + rewrite (apply_updates_same _ _ _ (mkPosition tx g)); [by destruct (ps !! i)| | |].
      * rewrite Hl, Hlen. by eapply lookup_lt_Some.
      * exists (S i, mkPosition tx g). split; [|done]. apply list_elem_of_omap.
        exists (S i, parts). split.
        -- apply Hlp. exists d, parts. destruct (id_of_lookup _ _ _ Hnd Hi) as [_ ->].
           split_and!; [by apply Hall|done..].
        -- unfold f. simpl. by rewrite Hg.
      * intros u Hin Hui. destruct (Hu u Hin Hui) as [_ Hu2]. by injection Hu2.
    + rewrite apply_updates_none, He by (intros u Hin Hui; by destruct (Hu u Hin Hui)).
      by destruct (ps !! i).
Qed.

(** ** Documents and positions of the new rows *)

Lemma candidate_stored created xid tx wid gid e :
  is_Some (uuid_in (ev_event_id e)) →
  candidate_document created tx wid gid e = Ok (pg_data (stored_row created xid tx wid gid e))
  ∧ inserted_document created tx wid gid e = Ok (pg_data (stored_row created xid tx wid gid e)).
Proof using Type.
  intros [id Hid]. unfold candidate_document, inserted_document, event_uuid, stored_row.
  rewrite Hid. simpl. split; do 3 f_equal.
  - by rewrite <-!insert_union_l, (left_id_L ∅ (∪)).
  - by rewrite <-insert_union_l, (left_id_L ∅ (∪)).
Qed.

Lemma stored_row_pos created xid tx wid gid e :
  is_int64 tx → is_int64 gid → pg_pos (stored_row created xid tx wid gid e) = mkPosition tx gid.
Proof using Type.
  intros Htx Hgid. unfold pg_pos, int_field, stored_row, orisun_event_document. cbn [pg_data].
  assert (∀ m : gmap string json, (list_to_map
    [("__commitPosition", JNumber (FormatInt tx)); ("__preparePosition", JNumber (FormatInt gid));
     ("__writeId", JString (FormatInt tx +:+ ":" +:+ FormatInt wid)); ("__metadata", metadata_of e);
     ("__dateCreated", JString created)] ∪ m) !! "__commitPosition" = Some (JNumber (FormatInt tx))
    ∧ (list_to_map
    [("__commitPosition", JNumber (FormatInt tx)); ("__preparePosition", JNumber (FormatInt gid));
     ("__writeId", JString (FormatInt tx +:+ ":" +:+ FormatInt wid)); ("__metadata", metadata_of e);
     ("__dateCreated", JString created)] ∪ m) !! "__preparePosition" = Some (JNumber (FormatInt gid)))
    as H.
  { intros m. split; apply lookup_union_Some_l; simpl; [apply lookup_insert_eq|].
    rewrite lookup_insert_ne by done. apply lookup_insert_eq. }
  destruct (H (<["__eventId":=JString (default "" (uuid_in (ev_event_id e)))]>
    (<["__eventType":=JString (ev_event_type e)]> (ev_data e)))) as [-> ->].
  by rewrite !ParseInt_FormatInt.
Qed.

(** Number [i] of the rows of a request. *)
Lemma request_rows_lookup created xid next r i row :
  (0 <= next)%Z → (next + Z.of_nat (length (rq_events r)) <= MaxInt64)%Z →
  request_rows created xid next r !! i = Some row →
  pg_pos row = mkPosition (next + Z.of_nat (length (rq_events r))) (next + Z.of_nat i)
  ∧ (Z.of_nat i < Z.of_nat (length (rq_events r)))%Z
  ∧ ∃ e, rq_events r !! i = Some e
      ∧ row = stored_row created xid (next + Z.of_nat (length (rq_events r)))
                (next + Z.of_nat (length (rq_events r)) - 1) (next + Z.of_nat i) e.
Proof using Type.
  intros Hn Hcap Hrow. unfold request_rows in Hrow.
  apply lookup_zip_with_Some in Hrow as (g & e & -> & Hg & He).
  apply lookup_seqZ in Hg as [-> Hi]. split_and!; [|lia|eauto].
  apply stored_row_pos; unfold is_int64, MinInt64; lia.
Qed.

Lemma request_rows_length created xid next r :
  length (request_rows created xid next r) = length (rq_events r).
Proof using Type.
  unfold request_rows. rewrite length_zip_with, length_seqZ. lia.
Qed.

Lemma tracks_accept requests c rows ps tx new :
  compiled_batch requests c → tracks (all_criteria requests) rows ps →
  StronglySorted pg_row_before new →
  (∀ r, r ∈ new → CommitPosition (pg_pos r) = tx) →
  tracks (all_criteria requests) (rows ++ new)
    (match_request (criterion_ids (all_criteria requests)) (cp_lookups c) tx
       ((λ r, (PreparePosition (pg_pos r), pg_data r)) <$> new) ps).
Proof.
  intros Hb Ht Hs Htx.
  assert (length ps = length (all_criteria requests)) as Hlen by by rewrite Ht, length_fmap.
  apply tracks_lookup.
  - unfold match_request. set (qs := foldl (match_event _ _ _) _ _).
    assert (length qs = length (all_criteria requests)) as <-
      by (unfold qs; by rewrite match_events_length).
    generalize qs. induction (predicate_selects (cp_lookups c)) as [|u us IH];
      intros qs'; [done|]. simpl. rewrite IH. unfold match_predicate.
    destruct (max_matching _ _); [apply length_insert|done].
  - intros i d Hi. rewrite (match_request_lookup requests c tx _ ps i d Hb Hlen) by first
      [done|apply (StronglySorted_fmap _ pg_row_before); [by intros ? ? [_ ?]|done]].
    rewrite Ht, list_lookup_fmap, Hi. simpl. rewrite pg_latest_app. unfold last_match.
    rewrite list_filter_fmap, fmap_last, <-option_fmap_compose. unfold compose. simpl.
    destruct (last (filter _ new)) as [r|] eqn:Hr; simpl; [|done].
    apply last_Some_elem_of, list_elem_of_filter in Hr as [_ Hr]. by rewrite <-(Htx r Hr).
Qed.

(** ** The reference keeps the invariant *)

(** The sequence has numbers for all events. *)
Definition request_capacity (next : Z) (requests : list PgRequest) : Prop :=
  (next + Z.of_nat (sum_list_with (λ r, length (rq_events r)) requests) <= MaxInt64)%Z.

Lemma request_rows_sorted created xid next r :
  (0 <= next)%Z → (next + Z.of_nat (length (rq_events r)) <= MaxInt64)%Z →
  StronglySorted pg_row_before (request_rows created xid next r).
Proof using Type.
  intros Hn Hcap. apply StronglySorted_lookup. intros i j x y Hij Hx Hy.
  apply request_rows_lookup in Hx as (Hx & _), Hy as (Hy & _); [|done..].
  unfold pg_row_before. rewrite Hx, Hy. cbn [CommitPosition PreparePosition]. lia.
Qed.

Lemma save_request_cases created xid t r t' res :
  save_request created xid t r = (t', res) →
  (∃ message, first_conflict (pt_events t) (rq_consistency r) = Some message
     ∧ t' = t ∧ res = (None, Some message))
  ∨ (first_conflict (pt_events t) (rq_consistency r) = None
     ∧ t' = mkPgTables (pt_events t ++ request_rows created xid (pt_seq t) r)
              (<[(pt_seq t + Z.of_nat (length (rq_events r)) - 1)%Z := rq_document r]>
                 (pt_writes t)) (pt_seq t + Z.of_nat (length (rq_events r)))
     ∧ res = (Some (pt_seq t + Z.of_nat (length (rq_events r)) - 1)%Z, None)).
Proof using Type.
  unfold save_request. destruct (first_conflict _ _) as [m|]; intros [= <- <-]; eauto 6.
Qed.

Lemma save_request_inv created xid t r t' res :
  pg_log_inv t → rq_events r ≠ [] →
  (pt_seq t + Z.of_nat (length (rq_events r)) <= MaxInt64)%Z →
  save_request created xid t r = (t', res) → pg_log_inv t' ∧ (pt_seq t <= pt_seq t')%Z.
Proof using Type.
  intros Hinv Hne Hcap [(m & _ & -> & _)|(_ & -> & _)]%save_request_cases; [done|].
  destruct Hinv as [Hs Hq Hb Hw].
  assert (∀ row, row ∈ request_rows created xid (pt_seq t) r → ∃ i,
    pg_pos row = mkPosition (pt_seq t + Z.of_nat (length (rq_events r))) (pt_seq t + Z.of_nat i)
    ∧ (Z.of_nat i < Z.of_nat (length (rq_events r)))%Z) as Hnew.
  { intros row [i Hi]%list_elem_of_lookup. exists i.
    by apply request_rows_lookup in Hi as (? & ? & _). }
  split; [|simpl; lia]. split; cbn [pt_events pt_writes pt_seq].
  - apply StronglySorted_app_2; [|done|by apply request_rows_sorted].
    intros x y Hx (i & Hy & Hi)%Hnew. destruct (Hb x Hx) as [? ?]. unfold pg_row_before.
    rewrite Hy. cbn [CommitPosition PreparePosition]. lia.
  - lia.
  - intros row [Hr|(i & Hr & Hi)%Hnew]%elem_of_app.
    + destruct (Hb row Hr). lia.
    + rewrite Hr. cbn [CommitPosition PreparePosition]. lia.
  - intros id Hid. destruct (rq_events r); [done|]. simpl length in *.
    apply lookup_insert_is_Some in Hid as [<-|[_ Hid%Hw]]; lia.
Qed.

Lemma draw_ids_ok n next :
  (next + Z.of_nat n <= MaxInt64 + 1)%Z →
  draw_ids n next = (Ok (seqZ next (Z.of_nat n)), (next + Z.of_nat n)%Z).
Proof using Type.
  revert next. induction n as [|n IH]; intros next H.
  - simpl. by rewrite Z.add_0_r.
  - cbn [draw_ids]. destruct (Z.ltb_spec MaxInt64 next) as [?|_]; [lia|].
    rewrite IH by lia. f_equal; [|lia]. f_equal. rewrite (seqZ_cons next) by lia.
    do 2 f_equal; lia.
Qed.

Lemma last_seqZ next n : n ≠ 0 → last (seqZ next (Z.of_nat n)) = Some (next + Z.of_nat n - 1)%Z.
Proof using Type.
  intros Hn. rewrite last_lookup, length_seqZ, Nat2Z.id. apply lookup_seqZ. lia.
Qed.

(** ** The loop over the requests *)

(** The accepted events of requests with these results, from request number [index]. *)
Fixpoint accepted_of (index : nat) (requests : list PgRequest)
    (results : list (option Z * option string)) : list (nat * nat * Z) :=
  match requests, results with
  | r :: requests, (Some w, _) :: results =>
      let n := Z.of_nat (length (rq_events r)) in
      imap (λ i gid, (index, i, gid)) (seqZ (w + 1 - n)%Z n)
      ++ accepted_of (S index) requests results
  | _ :: requests, (None, _) :: results => accepted_of (S index) requests results
  | _, _ => []
  end.

Lemma candidates_of_ok created xid next r :
  (0 <= next)%Z → (next + Z.of_nat (length (rq_events r)) <= MaxInt64)%Z →
  Forall (λ e, is_Some (uuid_in (ev_event_id e))) (rq_events r) →
  let n := Z.of_nat (length (rq_events r)) in
  candidates_of created (next + n) (next + n - 1) (seqZ next n) (rq_events r)
  = Ok ((λ row, (PreparePosition (pg_pos row), pg_data row)) <$> request_rows created xid next r).
Proof using Type.
  intros Hn Hcap Hid n. unfold candidates_of.
  assert (∀ row, row ∈ request_rows created xid next r → CommitPosition (pg_pos row) = (next + n)%Z)
    as Htx.
  { intros row [i Hi]%list_elem_of_lookup. by apply request_rows_lookup in Hi as (-> & _). }
  unfold request_rows in *. fold n in Htx |- *.
  assert (∀ ge, ge ∈ zip (seqZ next n) (rq_events r) → is_int64 ge.1) as Hg.
  { intros [g e] [i Hi]%list_elem_of_lookup.
    apply lookup_zip_with_Some in Hi as (g' & e' & [= -> ->] & Hg & _).
    apply lookup_seqZ in Hg as [-> ?]. unfold is_int64, MinInt64. simpl. lia. }
  assert (is_int64 (next + n)) as Hi64 by (unfold is_int64, MinInt64; lia).
  clear Htx Hcap. revert Hg Hid. generalize (rq_events r) (seqZ next n). intros es.
  induction es as [|e es IH]; intros [|g gs] Hg Hid; try done.
  apply Forall_cons in Hid as [He Hid]. cbn [zip zip_with mapM fmap list_fmap fst snd].
  destruct (candidate_stored created xid (next + n) (next + n - 1) g e He) as [-> _].
  cbn [mbind result_bind mret result_ret].
  rewrite IH by (try done; intros ge Hge; apply Hg; by right). cbn [mbind result_bind].
  rewrite stored_row_pos; [done|done|]. by apply (Hg (g, e)); left.
Qed.

(** An accepted request: its events become the next rows, and the positions follow. *)
Lemma accept_request_ok created xid all c index r st t :
  compiled_batch all c → good_request r → pg_log_inv t →
  tracks (all_criteria all) (pt_events t) (ex_positions st) →
  let n := Z.of_nat (length (rq_events r)) in
  (pt_seq t + n <= MaxInt64)%Z →
  ∃ ps, accept_request created (criterion_ids (all_criteria all)) (cp_lookups c)
      (length (all_criteria all)) index r (seqZ (pt_seq t) n) st
    = Ok (mkExecution ps
            (ex_accepted st ++ imap (λ i gid, (index, i, gid)) (seqZ (pt_seq t) n))
            (ex_results st ++ [(Some (pt_seq t + n - 1)%Z, None)]) (Some (pt_seq t + n - 1)%Z))
    ∧ tracks (all_criteria all) (pt_events t ++ request_rows created xid (pt_seq t) r) ps.
Proof.
  intros Hb (Hne & _ & Hid) Hinv Ht n Hcap. unfold accept_request.
  assert (last (seqZ (pt_seq t) n) = Some (pt_seq t + n - 1)%Z) as ->
    by (apply last_seqZ; by destruct (rq_events r)).
  assert (∀ o : option Z, Some (pt_seq t + n - 1)%Z ∪ o = Some (pt_seq t + n - 1)%Z) as ->
    by by intros [].
  replace (pt_seq t + n - 1 + 1)%Z with (pt_seq t + n)%Z by lia.
  destruct (Z.ltb_spec MaxInt64 (pt_seq t + n)) as [?|_]; [lia|].
  pose proof (pl_seq _ Hinv) as Hseq.
  destruct (Nat.ltb_spec 0 (length (all_criteria all))) as [Hc|Hc].
  - unfold n. rewrite (candidates_of_ok created xid) by done. cbn [mbind result_bind mret result_ret].
    fold n. eexists. split; [done|]. apply tracks_accept; [done|done|by apply request_rows_sorted|].
    intros row [i Hi]%list_elem_of_lookup. by apply request_rows_lookup in Hi as (-> & _).
  - cbn [mbind result_bind mret result_ret]. eexists. split; [done|]. unfold tracks in *.
    rewrite Ht. by destruct (all_criteria all); [|simpl in Hc; lia].
Qed.

Lemma execute_requests_ok created xid all c pre rs st t t' results :
  compiled_batch all c → Forall good_request all → all = pre ++ rs →
  pg_log_inv t → request_capacity (pt_seq t) rs →
  tracks (all_criteria all) (pt_events t) (ex_positions st) →
  save_requests created xid t rs = (t', results) →
  ∃ st', execute_requests created (criterion_ids (all_criteria all)) (cp_lookups c)
      (length (all_criteria all)) (cp_plan c) (length pre) rs st (pt_seq t) = (Ok st', pt_seq t')
    ∧ ex_results st' = ex_results st ++ results
    ∧ ex_accepted st' = ex_accepted st ++ accepted_of (length pre) rs results
    ∧ ex_inserted_gid st' = last (omap fst results) ∪ ex_inserted_gid st.
Proof.
  intros Hb Hg. revert pre st t results. induction rs as [|r rs IH];
    intros pre st t results Hall Hinv Hcap Ht Hsave.
  - injection Hsave as <- <-. exists st. simpl. rewrite !app_nil_r.
    split_and!; [done..|]. by destruct (ex_inserted_gid st).
  - assert (r ∈ all) as Hr by (rewrite Hall; apply elem_of_app; right; left).
    assert (good_request r) as Hgr by (rewrite Forall_forall in Hg; by apply Hg).
    assert (all = (pre ++ [r]) ++ rs) as Hall' by by rewrite <-app_assoc.
    unfold request_capacity in Hcap. simpl in Hcap.
    cbn [save_requests] in Hsave. destruct (save_request created xid t r) as [t1 res] eqn:H1.
    destruct (save_requests created xid t1 rs) as [t2 results2] eqn:H2. injection Hsave as <- <-.
    assert ((pt_seq t + Z.of_nat (length (rq_events r)) <= MaxInt64)%Z) as Hcap1 by lia.
    destruct (save_request_inv _ _ _ _ _ _ Hinv (proj1 Hgr) Hcap1 H1) as [Hinv1 _].
    cbn [execute_requests]. rewrite (run_checks_compiled _ _ _ _
      (compiled (all_criteria all) <$> rq_consistency r) (cb_plan _ _ Hb)); cycle 1.
    { rewrite list_lookup_fmap, Hall, lookup_app_r, Nat.sub_diag by done. done. }
    rewrite (compiled_conflict_first _ (pt_events t)) ; [|apply all_criteria_NoDup
      |by apply pg_log_ordered|done|]; cycle 1.
    { apply Forall_forall. intros o Ho. destruct (request_criteria all r o Hg Hr Ho) as [_ Hcs].
      eapply Forall_impl; [exact Hcs|]. by intros d [_ ?]. }
    destruct (save_request_cases _ _ _ _ _ _ H1) as [(m & -> & -> & ->)|(-> & -> & ->)].
    + edestruct (IH (pre ++ [r]) (mkExecution (ex_positions st) (ex_accepted st)
        (ex_results st ++ [(None, Some m)]) (ex_inserted_gid st)) t results2)
        as (st' & He & Hres & Hacc & Hins); [done|done| |done|done|].
      { unfold request_capacity. lia. }
      rewrite length_app, Nat.add_1_r in He, Hacc. exists st'. split_and!; [done| |done|done].
      rewrite Hres. simpl. by rewrite <-app_assoc.
    + rewrite draw_ids_ok by lia.
      destruct (accept_request_ok created xid all c (length pre) r st t Hb Hgr Hinv Ht Hcap1)
        as (ps & -> & Hps). set (n := Z.of_nat (length (rq_events r))) in *.
      edestruct (IH (pre ++ [r])) as (st' & He & Hres & Hacc & Hins); [done|exact Hinv1| | |exact H2|].
      { unfold request_capacity. cbn [pt_seq]. unfold n. lia. }
      2:{ rewrite length_app, Nat.add_1_r in He, Hacc. cbn [pt_seq] in He. exists st'.
          split; [exact He|]. rewrite Hres, Hacc, Hins. simpl. fold n.
          replace (pt_seq t + n - 1 + 1 - n)%Z with (pt_seq t) by lia.
          rewrite <-!app_assoc. split_and!; [done..|].
          change (list_omap _ _ fst results2) with (omap fst results2). rewrite last_cons.
          by destruct (last (omap fst results2)), (ex_inserted_gid st). }
      done.
Qed.

(** ** The bulk insert *)

Lemma mapM_ok_app {A B} (f : A → result B) l k a b :
  mapM f l = Ok a → mapM f k = Ok b → mapM f (l ++ k) = Ok (a ++ b).
Proof using Type.
  revert a. induction l as [|x l IH]; intros a Hl Hk; simpl in *; [by injection Hl as <-|].
  destruct (f x) as [y|]; [|done]. simpl in *. destruct (mapM f l) as [ys|]; [|done].
  simpl in *. injection Hl as <-. rewrite (IH ys) by done. done.
Qed.

Lemma mapM_ok_lookup {A B} (f : A → result B) l k :
  length l = length k → (∀ i x y, l !! i = Some x → k !! i = Some y → f x = Ok y) →
  mapM f l = Ok k.
Proof using Type.
  revert k. induction l as [|x l IH]; intros [|y k] Hl H; try done. simpl.
  rewrite (H 0 x y) by done. simpl. rewrite (IH k); [done|by injection Hl|].
  intros i. apply (H (S i)).
Qed.

(** Saving a list of requests, with what it needs. *)
Record savable (t : PgTables) (rs : list PgRequest) : Prop := {
  sv_inv : pg_log_inv t;
  sv_good : Forall good_request rs;
  sv_capacity : request_capacity (pt_seq t) rs }.

Lemma savable_cons created xid t r rs t1 res :
  savable t (r :: rs) → save_request created xid t r = (t1, res) →
  good_request r ∧ (0 <= pt_seq t)%Z
  ∧ (pt_seq t + Z.of_nat (length (rq_events r)) <= MaxInt64)%Z ∧ savable t1 rs.
Proof using Type.
  intros [Hinv Hg Hcap] H1. apply Forall_cons in Hg as [Hr Hg].
  unfold request_capacity in Hcap. simpl in Hcap. pose proof (pl_seq _ Hinv).
  assert ((pt_seq t + Z.of_nat (length (rq_events r)) <= MaxInt64)%Z) as Hc by lia.
  destruct (save_request_inv _ _ _ _ _ _ Hinv (proj1 Hr) Hc H1) as [Hinv1 _].
  split_and!; [done..|]. split; [done|done|]. unfold request_capacity.
  destruct (save_request_cases _ _ _ _ _ _ H1) as [(m & _ & -> & _)|(_ & -> & _)]; simpl; lia.
Qed.

Lemma save_requests_inv created xid t rs t' results :
  savable t rs → save_requests created xid t rs = (t', results) → pg_log_inv t'.
Proof using Type.
  revert t results. induction rs as [|r rs IH]; intros t results Hs H; simpl in H.
  - injection H as <- <-. apply Hs.
  - destruct (save_request created xid t r) as [t1 res] eqn:H1.
    destruct (save_requests created xid t1 rs) as [t2 results2] eqn:H2. injection H as <- <-.
    by apply (savable_cons _ _ _ _ _ _ _ Hs) in H1 as (_ & _ & _ & Hs1); eapply IH.
Qed.

Lemma save_requests_rejected created xid t rs t' results :
  save_requests created xid t rs = (t', results) → omap fst results = [] → t' = t.
Proof using Type.
  revert t results. induction rs as [|r rs IH]; intros t results H Ho; simpl in H.
  - by injection H as <- <-.
  - destruct (save_request created xid t r) as [t1 res] eqn:H1.
    destruct (save_requests created xid t1 rs) as [t2 results2] eqn:H2. injection H as <- <-.
    destruct (save_request_cases _ _ _ _ _ _ H1) as [(m & _ & -> & ->)|(_ & _ & ->)]; [|done].
    by eapply IH.
Qed.

Lemma insert_writes_ok created xid t rs t' results :
  savable t rs → save_requests created xid t rs = (t', results) →
  insert_writes rs results (pt_writes t) = Ok (pt_writes t').
Proof using Type.
  revert t results. induction rs as [|r rs IH]; intros t results Hs H; simpl in H.
  - by injection H as <- <-.
  - destruct (save_request created xid t r) as [t1 res] eqn:H1.
    destruct (save_requests created xid t1 rs) as [t2 results2] eqn:H2. injection H as <- <-.
    destruct (savable_cons _ _ _ _ _ _ _ Hs H1) as (Hr & _ & _ & Hs1).
    specialize (IH _ _ Hs1 H2).
    destruct (save_request_cases _ _ _ _ _ _ H1) as [(m & _ & -> & ->)|(_ & -> & ->)]; simpl; [done|].
    destruct (pt_writes t !! _) as [w|] eqn:E; [|done]. exfalso.
    assert (is_Some (pt_writes t !! (pt_seq t + Z.of_nat (length (rq_events r)) - 1)%Z)) as Hw
      by by rewrite E.
    apply (pl_writes _ (sv_inv _ _ Hs)) in Hw. destruct Hr as [Hne _].
    destruct (rq_events r); [done|]. simpl length in Hw. lia.
Qed.

Lemma accepted_rows_request created xid next requests results index r w m :
  requests !! index = Some r → results !! index = Some (Some w, m) → good_request r →
  (0 <= next)%Z → (next + Z.of_nat (length (rq_events r)) <= MaxInt64)%Z →
  w = (next + Z.of_nat (length (rq_events r)) - 1)%Z →
  mapM (accepted_row created xid requests results)
    (imap (λ i gid, (index, i, gid)) (seqZ next (Z.of_nat (length (rq_events r)))))
  = Ok (request_rows created xid next r).
Proof using Type.
  intros Hr Hres (_ & _ & Hid) Hn Hcap ->. apply mapM_ok_lookup.
  - rewrite length_imap, length_seqZ, request_rows_length. lia.
  - intros i x row. rewrite list_lookup_imap. intros Hx Hrow.
    apply fmap_Some in Hx as (g & Hg & ->). apply lookup_seqZ in Hg as [-> Hi].
    apply request_rows_lookup in Hrow as (_ & _ & e & He & ->); [|done..].
    unfold accepted_row. rewrite Hr, Hres. simpl. rewrite He.
    replace (next + Z.of_nat (length (rq_events r)) - 1 + 1)%Z
      with (next + Z.of_nat (length (rq_events r)))%Z by lia.
    rewrite Forall_lookup in Hid.
    by destruct (candidate_stored created xid (next + Z.of_nat (length (rq_events r)))
      (next + Z.of_nat (length (rq_events r)) - 1) (next + Z.of_nat i) e (Hid i e He)) as [_ ->].
Qed.

Lemma accepted_rows_ok created xid t rs t' results pre pres :
  savable t rs → save_requests created xid t rs = (t', results) → length pre = length pres →
  ∃ new, mapM (accepted_row created xid (pre ++ rs) (pres ++ results))
           (accepted_of (length pre) rs results) = Ok new
    ∧ pt_events t' = pt_events t ++ new.
Proof using Type.
  revert t results pre pres. induction rs as [|r rs IH]; intros t results pre pres Hs H Hlen; simpl in H.
  - injection H as <- <-. exists []. split; [done|]. by rewrite app_nil_r.
  - destruct (save_request created xid t r) as [t1 res] eqn:H1.
    destruct (save_requests created xid t1 rs) as [t2 results2] eqn:H2. injection H as <- <-.
    destruct (savable_cons _ _ _ _ _ _ _ Hs H1) as (Hr & Hseq & Hcap & Hs1).
    destruct (IH t1 results2 (pre ++ [r]) (pres ++ [res]) Hs1 H2) as (new & Hnew & Hev).
    { rewrite !length_app. simpl. lia. }
    rewrite <-!app_assoc, length_app, Nat.add_1_r in Hnew. simpl in Hnew.
    destruct (save_request_cases _ _ _ _ _ _ H1) as [(m & _ & -> & ->)|(_ & -> & ->)].
    + exists new. done.
    + exists (request_rows created xid (pt_seq t) r ++ new).
      split; [|by rewrite Hev; simpl; rewrite <-app_assoc]. cbn [accepted_of].
      apply mapM_ok_app; [|done].
      replace (pt_seq t + Z.of_nat (length (rq_events r)) - 1 + 1 - Z.of_nat (length (rq_events r)))%Z
        with (pt_seq t) by lia.
      apply (accepted_rows_request _ _ _ _ _ _ _
        (pt_seq t + Z.of_nat (length (rq_events r)) - 1)%Z None); [| |done..].
      * by rewrite lookup_app_r, Nat.sub_diag by done.
      * by rewrite Hlen, lookup_app_r, Nat.sub_diag by done.
Qed.

Lemma insert_pg_rows_ok new rows :
  StronglySorted pg_row_before (rows ++ new) → insert_pg_rows new rows = Ok (rows ++ new).
Proof using Type.
  revert rows. induction new as [|r new IH]; intros rows Hs; cbn [insert_pg_rows];
    [by rewrite app_nil_r|].
  assert (rows ++ r :: new = (rows ++ [r]) ++ new) as He by by rewrite <-app_assoc.
  destruct (existsb _ rows) eqn:E.
  - apply existsb_exists in E as (s & Hin & Heq%Z.eqb_eq). rewrite <-list_elem_of_In in Hin.
    pose proof (StronglySorted_app_1_elem_of _ _ _ s r Hs Hin ltac:(left)) as [_ Hlt]. lia.
  - rewrite IH; by rewrite <-He.
Qed.

Lemma insert_event_requests_refines created xid requests t :
  requests ≠ [] → Forall good_request requests → pg_log_inv t →
  request_capacity (pt_seq t) requests →
  let '(t', results) := save_requests created xid t requests in
  insert_event_requests created xid requests t = (Ok (imap outcome_row results), t')
  ∧ pg_log_inv t'.
Proof.
  intros Hne Hg Hinv Hcap. destruct (save_requests created xid t requests) as [t' results] eqn:Hs.
  assert (savable t requests) as Hsv by done.
  pose proof (save_requests_inv _ _ _ _ _ _ Hsv Hs) as Hinv'. split; [|done].
  unfold insert_event_requests. rewrite decide_False by done.
  destruct (compile_ok requests Hg) as (c & -> & Hb). rewrite (cb_criteria _ _ Hb).
  edestruct (execute_requests_ok created xid requests c [] requests
    (mkExecution (initial_positions c (pt_events t)) [] [] None) t t' results Hb Hg)
    as (st & He & Hres & Hacc & Hins); [done|done|done| |done|].
  { by apply initial_positions_tracks, pg_log_ordered. }
  simpl length in He. rewrite He. simpl in Hres, Hacc, Hins. unfold persist. rewrite Hins, Hres, Hacc.
  destruct (last (omap fst results)) as [w|] eqn:Hl; cbn [union option_union].
  - assert (∀ o : option Z, Some w ∪ o = Some w) as -> by by intros [].
    cbn [pt_writes pt_events pt_seq]. rewrite (insert_writes_ok _ _ _ _ _ _ Hsv Hs).
    destruct (accepted_rows_ok _ _ _ _ _ _ [] [] Hsv Hs eq_refl) as (new & Hnew & Hev).
    simpl in Hnew. cbn [mbind result_bind]. rewrite Hnew. cbn [mbind result_bind].
    rewrite insert_pg_rows_ok by (rewrite <-Hev; apply Hinv'). rewrite <-Hev. by destruct t'.
  - apply last_None in Hl. rewrite (save_requests_rejected _ _ _ _ _ _ Hs Hl). by destruct t.
Qed.

(** C7: one call of the batch function does what looking at the log for every request does.
Given requests that Go sends and a log in order, it returns one row per request, in order:
request after request is accepted exactly when every context it observed is at the position
it expects, among the stored events and those of the requests accepted before it; an accepted
request gets the next numbers and its events and observations are stored; a rejected one
gets the conflict of its first observation that is not current and changes nothing. *)
Theorem insert_event_requests_exact created xid requests t :
  requests ≠ [] → Forall good_request requests → pg_log_inv t →
  request_capacity (pt_seq t) requests →
  let '(t', results) := save_requests created xid t requests in
  insert_event_requests created xid requests t = (Ok (imap outcome_row results), t')
  ∧ pg_log_inv t'.
Proof. exact (insert_event_requests_refines created xid requests t). Qed.

End Refinement.

(** ** Examples *)

Fixpoint example_jsonb_in (v : json) : result json :=
  match v with
  | JString s => if contains_nul s then raise "unsupported Unicode escape sequence" else Ok v
  | JArray l => JArray <$> mapM example_jsonb_in l
  | JObject fs =>
      (λ l, json_of_map (map_of_fields l))
        <$> mapM (λ kv, if contains_nul kv.1 then raise "unsupported Unicode escape sequence"
                        else v ← example_jsonb_in kv.2; mret (kv.1, v)) fs
  | v => Ok v
  end.

Definition example_postgres : Postgres := {|
  jsonb_in := example_jsonb_in;
  jsonb_out := write_json;
  uuid_in id := if HasPrefix id "urn:" then None else Some id;
  timestamptz_in s := Some (go_len s);
  keyword s := bool_decide (s ∈ ["between"; "group"; "order"; "table"; "user"]);
  schema_keyword s := bool_decide (s ∈ ["group"; "order"; "table"; "user"]) |}.

Definition example_pg_event (order : string) (amount : Z) : PgEvent :=
  mkPgEvent "e-1" "OrderPlaced"
    {[ "order" := JString order; "amount" := JNumber (FormatInt amount) ]} None.
Definition order_criterion (order : string) : gmap string json := {[ "order" := JString order ]}.
Definition large_criterion (order : string) : gmap string json :=
  {[ "order" := JString order;
     "amount" := JArray [JObject [("operator", JString "gt"); ("value", JString "10")]] ]}.
Definition example_pg_requests : list PgRequest :=
  [mkPgRequest JNull [mkPgObservation [order_criterion "o-1"] NotExistsPosition]
     [example_pg_event "o-1" 5; example_pg_event "o-2" 20];
   mkPgRequest JNull [mkPgObservation [order_criterion "o-1"] NotExistsPosition]
     [example_pg_event "o-1" 5];
   mkPgRequest JNull [mkPgObservation [large_criterion "o-2"; order_criterion "o-3"] (mkPosition 2 1);
                mkPgObservation [order_criterion "o-1"] (mkPosition 2 0)]
     [example_pg_event "o-3" 5]].


Lemma example_postgres_laws : @PostgresLaws example_postgres.
Proof.
  split; simpl.
  - intros v w H. pose proof (read_write_json v (String.length (write_json v)) "") as Hv.
    pose proof (read_write_json w (String.length (write_json w)) "") as Hw.
    rewrite string_app_nil_r in Hv, Hw. rewrite H in Hv. rewrite Hv in Hw by lia.
    specialize (Hw ltac:(lia)). by injection Hw.
  - intros s ->. done.
  - intros s ->. by eexists.
  - done.
  - done.
  - intros fs H.
    assert (∃ e, mapM (λ kv, if contains_nul kv.1
      then raise "unsupported Unicode escape sequence"
      else v ← example_jsonb_in kv.2; mret (kv.1, v)) fs = Err e) as [e ->]; [|by exists e].
    induction H as [kv fs Hk|kv fs _ [e IH]]; cbn [mapM].
    + rewrite Hk. by eexists.
    + rewrite IH. destruct (if contains_nul kv.1 then _ else _); by eexists.
  - intros fs H. f_equal. induction H as [|kv fs Hk _ IH]; [done|]. cbn [mapM].
    by rewrite Hk, IH.
Qed.

Section Witnesses.
#[local] Existing Instance example_postgres.
#[local] Existing Instance example_postgres_laws.

Lemma example_requests_good : Forall good_request example_pg_requests.
Proof.
  repeat constructor; try done; try (by eexists); vm_compute; done.
Qed.

Lemma insert_event_requests_exact_witness :
  insert_event_requests "now" 7 example_pg_requests empty_pg_tables
  = (Ok (imap outcome_row (save_requests "now" 7 empty_pg_tables example_pg_requests).2),
     (save_requests "now" 7 empty_pg_tables example_pg_requests).1)
  ∧ (λ r, is_Some r.1) <$> (save_requests "now" 7 empty_pg_tables example_pg_requests).2
    = [is_Some (Some 1%Z); is_Some (@None Z); is_Some (Some 2%Z)].
Proof.
  split; [|vm_compute; reflexivity].
  pose proof (insert_event_requests_exact "now" 7 example_pg_requests empty_pg_tables) as H.
  destruct (save_requests "now" 7 empty_pg_tables example_pg_requests) as [t' results].
  apply H; [done|apply example_requests_good|apply pg_log_inv_empty|vm_compute; discriminate].
Defined.

End Witnesses.
