(* ===== verification/PgStore.v ===== *)
(** * The PostgreSQL event store: [postgres/boundary_registry.go],
[postgres/group_commit_request.go], [postgres/group_commit_executor.go],
[postgres/group_commit.go], [postgres/write_context.go] and the saver and retriever of
[postgres/postgres_eventstore.go]

The Go side prepares requests as JSON, hands a batch to the SQL function of [PgInsert] in one
statement and reads the outcomes of its rows; reads call the SQL functions
[get_matching_events_v4] and [get_latest_by_criteria_v2]. *)

From stdpp Require Import options.
From S2P Require Import Prelude Status Model Number Json Predicates Consistency EventData.
From S2P Require Import WriteContext SqlPredicates Sql SqliteStore SqliteLog GroupCommit.
From S2P Require Import SqliteRead EventStore PgPredicates PgInsert PgLog.

Set Default Proof Using "Type*".

(** ** Names: [postgres/migration.go] *)

Definition isLetter (c : ascii) : bool :=
  let n := N_of_ascii c in
  ((97 <=? n)%N && (n <=? 122)%N) || ((65 <=? n)%N && (n <=? 90)%N).

Definition is_lower (c : ascii) : bool :=
  let n := N_of_ascii c in (97 <=? n)%N && (n <=? 122)%N.

Definition isDigit (c : ascii) : bool := is_digit c.

Definition validateBoundaryName (boundary : string) : result unit :=
  if (go_len boundary =? 0)%Z || (63 <? go_len boundary)%Z
  then Err (PlainError "boundary name must be 1-63 characters, got %d")
  else match boundary with
       | EmptyString => Err (PlainError "boundary name must be 1-63 characters, got %d")
       | String firstChar rest =>
           if negb (isLetter firstChar) && negb (Ascii.eqb firstChar "_")
           then Err (PlainError "boundary name must start with a letter or underscore, got '%c'")
           else if string_forallb (λ c, isLetter c || isDigit c || Ascii.eqb c "_") rest
           then Ok tt
           else Err (PlainError "boundary name can only contain letters, digits, and underscores, invalid char '%c' at position %d")
       end.

(** ** The registry *)

Record BoundaryToPostgresSchemaMapping := mkMapping {
  Mapping_Boundary : string; Mapping_Schema : string }.

(** The statements of a boundary. *)
Record postgresBoundary := mkPostgresBoundary {
  pb_mapping : BoundaryToPostgresSchemaMapping;
  insertEventRequests : string; selectEvents : string; selectLatest : string;
  getEventCount : string; fallbackGetEventCount : string; saveEventCount : string }.

Definition newline : string := String (ascii_of_N 10) "".

Definition buildPostgresBoundary (mapping : BoundaryToPostgresSchemaMapping) : postgresBoundary :=
  let boundary := Mapping_Boundary mapping in
  let schema := Mapping_Schema mapping in
  mkPostgresBoundary mapping
    (newline +:+ "SELECT * FROM " +:+ schema
     +:+ ".insert_event_requests_v2($1::text, $2::text, $3::jsonb)" +:+ newline)
    (newline +:+ "SELECT * FROM " +:+ schema
     +:+ ".get_matching_events_v4($1::text, $2::text, $3::jsonb, $4::jsonb, $5, $6::INT)"
     +:+ newline)
    (newline +:+ "SELECT * FROM " +:+ schema
     +:+ ".get_latest_by_criteria_v2($1::text, $2::text, $3::jsonb)" +:+ newline)
    ("SELECT event_count FROM " +:+ schema +:+ "." +:+ boundary +:+ "_events_count limit 1")
    ("SELECT COUNT(*) FROM " +:+ schema +:+ "." +:+ boundary +:+ "_orisun_es_event")
    ("INSERT INTO " +:+ schema +:+ "." +:+ boundary
     +:+ "_events_count (id, event_count, created_at, updated_at) VALUES ($1, $2, $3, $4) ON CONFLICT (id) DO UPDATE SET event_count = $2, updated_at = $4").

Definition BoundaryRegistry : Type := gmap string postgresBoundary.

Definition NewBoundaryRegistry (mappings : gmap string BoundaryToPostgresSchemaMapping)
  : BoundaryRegistry :=
  map_imap (λ boundary mapping,
    Some (buildPostgresBoundary (mkMapping boundary (Mapping_Schema mapping)))) mappings.

(** A nil registry is [None]. *)
Definition registry_lookup (r : option BoundaryRegistry) (boundary : string)
  : option postgresBoundary := r ← r; r !! boundary.

Definition Register (boundary schema : string) (r : BoundaryRegistry)
  : result unit * BoundaryRegistry :=
  match validateBoundaryName boundary with
  | Err e => (Err (Wrapped "invalid boundary name %s: %w" e), r)
  | Ok _ =>
      match validateBoundaryName schema with
      | Err e => (Err (Wrapped "invalid schema name %s: %w" e), r)
      | Ok _ =>
          match r !! boundary with
          | Some existing =>
              if String.eqb (Mapping_Schema (pb_mapping existing)) schema then (Ok tt, r)
              else (Err (PlainError "boundary %s is already registered in schema %s"), r)
          | None => (Ok tt, <[boundary := buildPostgresBoundary (mkMapping boundary schema)]> r)
          end
      end
  end.

Definition Schema (r : option BoundaryRegistry) (boundary : string) : result string :=
  match registry_lookup r boundary with
  | None => Err (PlainError ("No schema found for Boundary " +:+ boundary))
  | Some entry => Ok (Mapping_Schema (pb_mapping entry))
  end.

Definition Mappings (r : BoundaryRegistry) : gmap string BoundaryToPostgresSchemaMapping :=
  pb_mapping <$> r.

(** ** The database *)

(** The tables of each schema and boundary. *)
Definition PgDatabase : Type := gmap (string * string) PgTables.

(** What a statement meets: nothing, or an error after which its effects are there or
not. *)
Definition pg_fault : Type := option (goerror * bool).

Definition no_relation : goerror := PlainError "relation does not exist".

(** ** Requests: [postgres/group_commit_request.go] *)

(** [uuid.Parse]. *)
Class GoUuid := { uuid_Parse : string → bool }.

(** [json.RawMessage] as its text. *)
Record postgresBatchPayload := mkPayload { Payload_Consistency : string; Payload_Events : string }.
Record preparedPostgresSave := mkPreparedPostgresSave {
  pp_payload : postgresBatchPayload; pp_eventCount : Z }.

Record postgresSaveResult := mkPostgresSaveResult {
  pr_transactionID : string; pr_globalID : Z; pr_err : option goerror }.

Section PgStore.
Context `{J : GoJson, SJ : !GoJsonStored, P : Postgres, U : GoUuid}.

Definition mapSaveError (err : goerror) : goerror :=
  match FromError err with
  | (code, _, true) =>
      if decide (code = Unknown) then
        if Contains (Error_text err) "OptimisticConcurrencyException"
        then New AlreadyExists (Error_text err)
        else Errorf Internal "failed to insert events: %v"
      else err
  | (_, _, false) =>
      if Contains (Error_text err) "OptimisticConcurrencyException"
      then New AlreadyExists (Error_text err)
      else Errorf Internal "failed to insert events: %v"
  end.

Fixpoint validate_events (events : list PreparedEvent) : result unit :=
  match events with
  | [] => Ok tt
  | event :: events =>
      if String.eqb (PE_EventType event) "" then Err (PlainError "event_type cannot be empty")
      else if negb (uuid_Parse (PE_EventId event)) then Err (PlainError "invalid event_id: %w")
      else
        let data := TrimSpace (PE_DataJSON event) in
        if String.eqb data "" || negb (HasPrefix data "{") || negb (json_Valid data)
        then Err (PlainError "event data must be a JSON object")
        else validate_events events
  end.

Fixpoint validate_checks (consistency : list ConsistencyCheck) : result unit :=
  match consistency with
  | [] => Ok tt
  | check :: consistency =>
      _ ← ValidateReadCriteria (Criteria check);
      if bool_decide (Criteria check = []) then Err (PlainError "consistency query has no criteria")
      else if existsb (λ c, bool_decide (Tags c = [])) (Criteria check)
      then Err (PlainError "consistency criterion has no tags")
      else validate_checks consistency
  end.

Definition validatePostgresSaveInput (events : list PreparedEvent)
    (consistency : list ConsistencyCheck) : result unit :=
  if bool_decide (events = []) then Err (PlainError "events cannot be empty")
  else
    _ ← validate_events events;
    validate_checks consistency.

(** [wireEvent], with its raw messages as the values of their texts. *)
Definition wireEvent (e : PreparedEvent) : result json :=
  data ← json_Unmarshal (PE_DataJSON e);
  metadata ← json_Unmarshal (PE_MetadataJSON e);
  mret (JObject [("event_id", JString (PE_EventId e)); ("event_type", JString (PE_EventType e));
                 ("data", data); ("metadata", metadata)]).

(** [PreparedEventBatch.MarshalJSON]. *)
Definition MarshalEvents (events : list PreparedEvent) : result string :=
  wire ← mapM wireEvent events;
  json_Marshal (JArray wire).

Definition prepareSave (events : list PreparedEvent) (consistency : list ConsistencyCheck)
  : result preparedPostgresSave :=
  match validatePostgresSaveInput events consistency with
  | Err e => Err (mapSaveError e)
  | Ok _ =>
      match MarshalConsistency consistency with
      | Err _ => Err (Errorf Internal "failed to marshal consistency condition: %v")
      | Ok checks =>
          match MarshalEvents events with
          | Err _ => Err (Errorf Internal "failed to marshal events: %v")
          | Ok encoded =>
              Ok (mkPreparedPostgresSave (mkPayload checks encoded) (Z.of_nat (length events)))
          end
      end
  end.

(** ** The arguments of the SQL function *)

Definition criterion_of_jsonb (v : json) : result (gmap string json) :=
  match v with
  | JObject (kv :: fields) => Ok (map_of_fields (kv :: fields))
  | _ => raise "consistency criterion has no tags"
  end.

(** [(v ->> key)::BIGINT]; Go always sends the number. *)
Definition bigint_member (v : json) (key : string) : result Z :=
  match arrow_text_of (json_member v key) ≫= ParseInt with
  | Some z => Ok z
  | None => raise "invalid input syntax for type bigint"
  end.

Definition observation_of_jsonb (v : json) : result PgObservation :=
  match json_member v "query" ≫= (λ q, json_member q "criteria"), json_member v "position" with
  | Some (JArray (c :: criteria)), Some position =>
      criteria ← mapM criterion_of_jsonb (c :: criteria);
      tx ← bigint_member position "transaction_id";
      gid ← bigint_member position "global_id";
      mret (mkPgObservation criteria (mkPosition tx gid))
  | _, _ => raise "consistency query has no criteria"
  end.

Definition event_of_jsonb (v : json) : result PgEvent :=
  match arrow_text_of (json_member v "event_id"), arrow_text_of (json_member v "event_type"),
        json_member v "data" with
  | Some id, Some type, Some (JObject fields) =>
      mret (mkPgEvent id type (map_of_fields fields) (json_member v "metadata"))
  | _, _, _ => raise "null value in column violates not-null constraint"
  end.

Definition request_of_jsonb (v : json) : result PgRequest :=
  match default (JArray []) (json_member v "consistency"), json_member v "events" with
  | JArray observations, Some (JArray events) =>
      os ← mapM observation_of_jsonb observations;
      es ← mapM event_of_jsonb events;
      mret (mkPgRequest (JArray observations) os es)
  | _, _ => raise "cannot extract elements from a scalar"
  end.

Definition requests_of_jsonb (v : json) : result (list PgRequest) :=
  match v with
  | JArray l => mapM request_of_jsonb l
  | _ => raise "requests must be a non-empty JSON array"
  end.

(** ** [executeBatch] *)

(** The statement [insertEventRequests] on the text of its third argument. *)
Definition run_insert (created : string) (xid : Z) (schema boundary : string) (payload : json)
    (fault : pg_fault) (db : PgDatabase) : result (list PgOutcome) * PgDatabase :=
  match fault with
  | Some (e, false) => (Err e, db)
  | _ =>
      let '(r, db) :=
        match db !! (schema, boundary) with
        | None => (Err no_relation, db)
        | Some t =>
            match jsonb_in payload ≫= requests_of_jsonb with
            | Err e => (Err e, db)
            | Ok requests =>
                let '(r, t) := insert_event_requests created xid requests t in
                (r, <[(schema, boundary) := t]> db)
            end
        end in
      match fault with
      | Some (e, _) => (Err e, db)
      | None => (r, db)
      end
  end.

(** [json.Marshal(payloads)]: the value that the text sent to the server denotes. *)
Definition payload_json (p : postgresBatchPayload) : result json :=
  consistency ← json_Unmarshal (Payload_Consistency p);
  events ← json_Unmarshal (Payload_Events p);
  mret (JObject [("consistency", consistency); ("events", events)]).

(** The outcome of a row; an error ends the batch. *)
Definition scan_outcome (row : PgOutcome) : result postgresSaveResult :=
  match oc_error_message row with
  | Some message => Ok (mkPostgresSaveResult "" 0 (Some (mapSaveError (PlainError message))))
  | None =>
      match oc_transaction_id row, oc_global_id row with
      | Some tx, Some gid => Ok (mkPostgresSaveResult (FormatInt tx) gid None)
      | _, _ => Err (PlainError "group commit request %d returned neither a position nor an error (SQLSTATE %q)")
      end
  end.

(** The loop over the rows; [seen] holds the outcomes by request. *)
Fixpoint scan_rows (rows : list PgOutcome) (seen : list (option postgresSaveResult))
  : result (list (option postgresSaveResult)) :=
  match rows with
  | [] => Ok seen
  | row :: rows =>
      let index := oc_index row in
      if (index <? 0)%Z || (Z.of_nat (length seen) <=? index)%Z
      then Err (PlainError "group commit returned request index %d for batch of %d")
      else match seen !! Z.to_nat index with
           | Some (Some _) => Err (PlainError "group commit returned duplicate request index %d")
           | _ =>
               outcome ← scan_outcome row;
               scan_rows rows (<[Z.to_nat index := Some outcome]> seen)
           end
  end.

Definition executeBatch (registry : option BoundaryRegistry) (created : string) (xid : Z)
    (fault : pg_fault) (boundary : string) (requests : list preparedPostgresSave) (db : PgDatabase)
  : result (list postgresSaveResult) * PgDatabase :=
  match registry_lookup registry boundary with
  | None => (Err (Errorf InvalidArgument "no schema found for boundary: %s"), db)
  | Some entry =>
      if bool_decide (requests = []) then (Ok [], db)
      else
        match mapM payload_json (pp_payload <$> requests) with
        | Err e => (Err (Wrapped "marshal group commit payload: %w" e), db)
        | Ok payloads =>
            let '(r, db) := run_insert created xid (Mapping_Schema (pb_mapping entry)) boundary
                              (JArray payloads) fault db in
            (rows ← r;
             seen ← scan_rows rows (replicate (length requests) None);
             match mapM id seen with
             | Some outcomes => Ok outcomes
             | None => Err (PlainError "group commit returned no result for request index %d")
             end, db)
        end
  end.

(** The execution that the coordinator calls for a batch. *)
Definition pg_executeFlush (registry : option BoundaryRegistry) (created : string) (xid : Z)
    (fault : pg_fault) (boundary : string) (prepared : list preparedPostgresSave) (db : PgDatabase)
  : result (list postgresSaveResult) * PgDatabase :=
  let '(r, db) := executeBatch registry created xid fault boundary prepared db in
  match r with
  | Err e => (Err e, db)
  | Ok outcomes => (Ok outcomes, db)
  end.

(** ** [enqueue] and [SavePrepared] *)

Definition errPostgresSaverClosed : goerror :=
  New Unavailable "postgres event saver is shut down".

(** [closed] is what [gc.Closed] returns, [submit] what [Submit] returns for the prepared
request, [ctxErr] what [ctx.Err()] returns afterwards. *)
Definition enqueue (closed : bool) (events : list PreparedEvent)
    (consistency : list ConsistencyCheck)
    (submit : preparedPostgresSave → Z → result postgresSaveResult) (ctxErr : option goerror)
  : result (string * Z) :=
  if closed then Err errPostgresSaverClosed
  else
    prepared ← prepareSave events consistency;
    match submit prepared (pp_eventCount prepared) with
    | Err e =>
        if errors_Is e ErrClosed then Err errPostgresSaverClosed
        else match ctxErr with
             | Some ce => Err (FromContextError ce)
             | None => Err (Errorf Internal "%v")
             end
    | Ok res =>
        match pr_err res with
        | Some e => Err e
        | None => Ok (pr_transactionID res, pr_globalID res)
        end
    end.

Definition SavePrepared (registry : option BoundaryRegistry) (closed : bool)
    (events : list PreparedEvent) (boundary : string) (consistency : list ConsistencyCheck)
    (submit : preparedPostgresSave → Z → result postgresSaveResult) (ctxErr : option goerror)
  : result (string * Z) :=
  if bool_decide (events = []) then Err (Errorf InvalidArgument "events cannot be empty")
  else match registry_lookup registry boundary with
       | None => Err (Errorf InvalidArgument "no schema found for boundary: %s")
       | Some _ => enqueue closed events consistency submit ctxErr
       end.

(** ** [GetBatch] *)

(** The criteria as the server reads them. *)
Definition jsonb_criterion (c : gmap string anyval) : result (gmap string json) :=
  v ← jsonb_in (criterion_json c);
  match v with
  | JObject fields => mret (map_of_fields fields)
  | _ => raise "invalid tag predicates"
  end.

(** [criteria_sql] of [get_matching_events_v4]: the disjunction of the criteria that are not
empty; without any it is TRUE. *)
Definition criteria_sql (criteria : option (list (gmap string json)))
  : result (option (list (list pg_part))) :=
  match criteria with
  | None => mret None
  | Some cs =>
      parts ← mapM orisun_criterion_sql (filter (λ c, c ≠ ∅) cs);
      mret (if bool_decide (parts = []) then None else Some parts)
  end.

Definition clause_true (w : option (list (list pg_part))) (doc : gmap string json) : bool :=
  match w with None => true | Some parts => existsb (criterion_true doc) parts end.

Definition pg_row_le (r s : PgRow) : Prop := pos_le (pg_pos r) (pg_pos s).
#[export] Instance pg_row_le_dec : RelDecision pg_row_le.
Proof using Type. intros r s. unfold pg_row_le. apply _. Defined.

(** The rows of transactions that ended before every transaction in flight began;
[xmin] is [pg_snapshot_xmin(pg_current_snapshot())]. *)
Definition stable (xmin : Z) (r : PgRow) : bool :=
  match pg_xact_id r with None => true | Some xid => (xid <? xmin)%Z end.

Definition after_position (dir : Direction) (from : option Position) (r : PgRow) : bool :=
  match from with
  | None => true
  | Some p => match dir with
              | Direction_ASC => bool_decide (pos_le p (pg_pos r))
              | Direction_DESC => bool_decide (pos_le (pg_pos r) p)
              end
  end.

Definition get_matching_events (xmin : Z) (criteria : option (list (gmap string json)))
    (from : option Position) (dir : Direction) (max_count : Z) (rows : list PgRow)
  : result (list PgRow) :=
  w ← criteria_sql criteria;
  let found := filter (λ r, clause_true w (pg_data r)
                 && (match dir with Direction_ASC => stable xmin r | Direction_DESC => true end)
                 && after_position dir from r = true) rows in
  let sorted := match dir with
                | Direction_ASC => merge_sort pg_row_le found
                | Direction_DESC => merge_sort pg_row_ge found
                end in
  mret (take (Z.to_nat (Z.min (Z.max max_count 1) 10000)) sorted).

(** The columns of a row, scanned: NULL is an error. *)
Definition scan_pg_row (r : PgRow) : result ReadEvent :=
  match arrow_text_of (pg_data r !! "__eventId") ≫= uuid_in,
        arrow_text_of (pg_data r !! "__eventType"), pg_data r !! "__metadata",
        arrow_text_of (pg_data r !! "__dateCreated") ≫= timestamptz_in with
  | Some id, Some type, Some metadata, Some created =>
      mret {| RE_WriteId := default "" (arrow_text_of (pg_data r !! "__writeId"));
              RE_EventId := id; RE_EventType := type;
              RE_Data := jsonb_out (json_of_map (without_reserved (pg_data r)));
              RE_Metadata := jsonb_out metadata;
              RE_CommitPosition := CommitPosition (pg_pos r);
              RE_PreparePosition := PreparePosition (pg_pos r);
              RE_DateCreated := created |}
  | _, _, _, _ => Err (PlainError "failed to scan")
  end.

(** The tables that a statement of a boundary reads. *)
Definition boundary_tables (entry : postgresBoundary) (boundary : string) (db : PgDatabase)
  : result PgTables :=
  match db !! (Mapping_Schema (pb_mapping entry), boundary) with
  | Some t => Ok t
  | None => Err no_relation
  end.

(** An identifier that [format('%I')] writes without quotes. *)
Definition plain_ident (name : string) : bool :=
  match name with
  | EmptyString => false
  | String c _ =>
      (is_lower c || Ascii.eqb c "_")
      && string_forallb (λ c, is_lower c || isDigit c || Ascii.eqb c "_") name
      && negb (keyword name)
  end.

(** The table that [get_matching_events_v4] names by [format('%I.%I_orisun_es_event')]: with
quotes around the boundary the suffix is an alias of a relation that does not exist. *)
Definition event_table (entry : postgresBoundary) (boundary : string) (db : PgDatabase)
  : result PgTables :=
  if plain_ident boundary then boundary_tables entry boundary db else Err no_relation.

(** [begin], [fault] and [iter] are the errors of the transaction, of the query and of the
iteration over its rows. *)
Definition GetBatch (registry : option BoundaryRegistry) (xmin : Z)
    (begin fault iter : option goerror) (req : option GetEventsRequest) (db : PgDatabase)
  : result (list ReadEvent) :=
  match req with
  | None => Err (New InvalidArgument "get events request is required")
  | Some req =>
      _ ← ValidateQuery (GE_Query req);
      match registry_lookup registry (GE_Boundary req) with
      | None => Err (Errorf InvalidArgument "no schema found for boundary: %s")
      | Some entry =>
          let count := batch_count (GE_Count req) in
          match (match GE_Query req with
                 | Some q => if bool_decide (Query_Criteria q = []) then Some None
                             else Some <$> EncodeQueryCriteria (Some q)
                 | None => Some None
                 end) with
          | None => Err (PlainError "nil pointer dereference")
          | Some criteria =>
              match begin, fault with
              | Some _, _ => Err (Errorf Internal "failed to begin transaction: %v")
              | _, Some _ => Err (Errorf Internal "failed to execute query: %v")
              | None, None =>
                  match (t ← event_table entry (GE_Boundary req) db;
                         criteria ← match criteria with
                                    | None => mret None
                                    | Some cs => Some <$> mapM jsonb_criterion cs
                                    end;
                         get_matching_events xmin criteria (GE_FromPosition req)
                           (GE_Direction req) count (pt_events t)) with
                  | Err _ => Err (Errorf Internal "failed to execute query: %v")
                  | Ok rows =>
                      match mapM scan_pg_row rows, iter with
                      | Err _, _ => Err (Errorf Internal "failed to scan row: %v")
                      | _, Some _ => Err (Errorf Internal "error iterating rows: %v")
                      | Ok batch, None => Ok batch
                      end
                  end
              end
          end
      end
  end.

(** ** [GetLatestByCriteria] *)

(** The rows of [get_latest_by_criteria_v2], from criterion number [idx]. *)
Fixpoint latest_rows (idx : nat) (criteria : list (gmap string json)) (rows : list PgRow)
  : result (list (nat * PgRow)) :=
  match criteria with
  | [] => mret []
  | crit :: criteria =>
      if decide (crit = ∅) then raise "criterion % has no tags"
      else
        parts ← orisun_criterion_sql crit;
        rest ← latest_rows (S idx) criteria rows;
        mret (match select_latest_row parts rows with
              | Some r => (idx, r) :: rest
              | None => rest
              end)
  end.

(** The loop over the rows: the matches and the position of the context. *)
Fixpoint collect_latest (rows : list (nat * PgRow)) (matches : list (option ReadEvent))
    (found : bool) (context : Position) : result (list (option ReadEvent) * Position) :=
  match rows with
  | [] => mret (matches, context)
  | (idx, r) :: rows =>
      match scan_pg_row r with
      | Err _ => Err (Errorf Internal "failed to scan row: %v")
      | Ok event =>
          if (length matches <=? idx)%nat
          then Err (Errorf Internal "latest criterion index out of range: %d")
          else
            let '(found, context) :=
              if negb found
                 || (CommitPosition context <? RE_CommitPosition event)%Z
                 || ((RE_CommitPosition event =? CommitPosition context)%Z
                     && (PreparePosition context <? RE_PreparePosition event)%Z)
              then (true, RE_Position event) else (found, context) in
            collect_latest rows (<[idx := Some event]> matches) found context
      end
  end.

Definition getReadCriteriaAsList (criteria : list ReadCriterion) : list (gmap string anyval) :=
  (λ c, EncodeCriterion (Tags c)) <$> filter (λ c, Tags c ≠ []) criteria.

Definition GetLatestByCriteria (registry : option BoundaryRegistry) (fault iter : option goerror)
    (query : LatestByCriteriaQuery) (db : PgDatabase) : result LatestByCriteriaBatch :=
  _ ← ValidateReadCriteria (LQ_Criteria query);
  match registry_lookup registry (LQ_Boundary query) with
  | None => Err (Errorf InvalidArgument "no schema found for boundary: %s")
  | Some entry =>
      if bool_decide (LQ_Criteria query = [])
      then Err (Errorf InvalidArgument "at least one criterion is required")
      else
        let criteriaList := getReadCriteriaAsList (LQ_Criteria query) in
        if negb (bool_decide (length criteriaList = length (LQ_Criteria query)))
        then Err (Errorf InvalidArgument "every criterion needs at least one tag")
        else match fault with
             | Some _ => Err (Errorf Internal "failed to execute query: %v")
             | None =>
                 match (t ← boundary_tables entry (LQ_Boundary query) db;
                        criteria ← mapM jsonb_criterion criteriaList;
                        latest_rows 0 criteria (pt_events t)) with
                 | Err _ => Err (Errorf Internal "failed to execute query: %v")
                 | Ok rows =>
                     '(matches, context) ←
                       collect_latest rows (replicate (length (LQ_Criteria query)) None) false
                         NotExistsPosition;
                     match iter with
                     | Some _ => Err (Errorf Internal "error iterating rows: %v")
                     | None => mret (mkLatestByCriteriaBatch matches
                                       (CommitPosition context) (PreparePosition context))
                     end
                 end
             end
  end.

(** ** [GetWriteContext] *)

Definition GetWriteContext (registry : option BoundaryRegistry) (fault : option goerror)
    (req : option GetWriteContextRequest) (db : PgDatabase) : result WriteContext :=
  id ← ValidateWriteContextRequest req;
  match req with
  | None => Err invalid_write_id
  | Some req =>
      match registry_lookup registry (GWC_Boundary req), fault with
      | None, _ => Err (Errorf InvalidArgument "unknown boundary: %s")
      | _, Some _ => Err (Errorf Internal "read write context: %v")
      | Some entry, None =>
          match boundary_tables entry (GWC_Boundary req) db with
          | Err _ => Err (Errorf Internal "read write context: %v")
          | Ok t =>
              match pt_writes t !! PreparePosition id with
              | Some consistency =>
                  if existsb (λ r, bool_decide (pg_pos r = id)) (pt_events t)
                  then match DecodeWriteContext (GWC_WriteId req) (jsonb_out consistency) with
                       | Err _ => Err (Errorf Internal "%v")
                       | Ok context => Ok context
                       end
                  else Err (New NotFound "write context not found")
              | None => Err (New NotFound "write context not found")
              end
          end
      end
  end.

End PgStore.
