(* ===== verification/PgSave.v ===== *)
(** * Saves on PostgreSQL: compare and append through JSON and SQL

From the prepared events of a save to the rows of the log: what Go encodes is what the SQL
function decodes, a flush gives each caller the outcome of its own request, and one save is
accepted exactly when the contexts it observed are at the positions it expects. A request
that Go accepts and the server cannot convert fails all requests of its flush. *)

From stdpp Require Import options.
From S2P Require Import Prelude Status Model Number Json Predicates Consistency EventData.
From S2P Require Import WriteContext SqlPredicates Sql SqliteStore SqliteLog GroupCommit.
From S2P Require Import SqliteRead EventStore PgPredicates PgInsert PgLog PgStore.

Set Default Proof Using "Type*".

Section Encoding.
Context `{P : Postgres, PL : !PostgresLaws}.

(** ** Values that the server keeps as they are *)

Lemma json_member_map (m : gmap string json) k : json_member (json_of_map m) k = m !! k.
Proof using Type. unfold json_member, json_of_map. by rewrite map_of_fields_json_of_map. Qed.

Lemma map_of_fields_elem (fs : list (string * json)) k v :
  bool_decide (NoDup fs.*1) = true → (k, v) ∈ fs → map_of_fields fs !! k = Some v.
Proof using Type.
  intros Hnd Hin. bool_props. unfold map_of_fields. apply elem_of_list_to_map.
  - by rewrite fmap_reverse, reverse_Permutation.
  - by apply elem_of_reverse.
Qed.

(** The members of an object whose members are written out. *)
Lemma members (ks : list string) (vs : list json) i k v :
  bool_decide (NoDup ks) = true → length ks = length vs → ks !! i = Some k → vs !! i = Some v →
  json_member (json_of_map (map_of_fields (zip ks vs))) k = Some v.
Proof using Type.
  intros Hnd Hl Hk Hv. rewrite json_member_map. apply map_of_fields_elem.
  - by rewrite fst_zip by lia.
  - apply list_elem_of_lookup. exists i. rewrite lookup_zip_with, Hk. simpl. by rewrite Hv.
Qed.

Lemma jsonb_array_fixed l :
  (∀ v, v ∈ l → jsonb_in v = Ok v) → jsonb_in (JArray l) = Ok (JArray l).
Proof.
  intros H. rewrite jsonb_in_array, (mapM_ok _ id) by done. simpl. by rewrite list_fmap_id.
Qed.

Lemma jsonb_fields_fixed fs :
  Forall (λ kv, contains_nul kv.1 = false ∧ jsonb_in kv.2 = Ok kv.2) fs →
  jsonb_in (JObject fs) = Ok (json_of_map (map_of_fields fs)).
Proof.
  intros H. rewrite jsonb_in_object by (eapply Forall_impl; [done|]; by intros ? [? _]).
  rewrite Forall_forall in H. rewrite (mapM_ok _ id).
  - simpl. by rewrite list_fmap_id.
  - intros [k v] Hin. destruct (H _ Hin) as [_ Hv]. simpl in *. by rewrite Hv.
Qed.

Lemma json_of_map_fixed m :
  (∀ k v, m !! k = Some v → contains_nul k = false ∧ jsonb_in v = Ok v) →
  jsonb_in (json_of_map m) = Ok (json_of_map m).
Proof.
  intros H. unfold json_of_map at 1. rewrite jsonb_fields_fixed, map_of_fields_json_of_map; [done|].
  apply Forall_forall. intros [k v]. rewrite sorted_entries_Permutation, elem_of_map_to_list.
  apply H.
Qed.

Lemma predicate_fixed p :
  contains_nul (TP_Operator p) = false → contains_nul (TP_Value p) = false →
  jsonb_in (predicate_json p) = Ok (predicate_json p).
Proof.
  intros Ho Hv. unfold predicate_json. rewrite jsonb_fields_fixed.
  - vm_compute. done.
  - repeat constructor; simpl; by apply jsonb_in_string.
Qed.

Lemma valid_operator_no_nul t :
  valid_tag t → contains_nul (encoded_operator (Operator t)) = false.
Proof using Type.
  intros (_ & _ & _ & o & Ho)%ValidateTag_ok. unfold encoded_operator.
  destruct (String.eqb_spec (Operator t) "") as [_|Hne]; [done|].
  apply CanonicalTagOperator_ok in Ho as [Hin [->|[-> ?]]]; [|done].
  rewrite !elem_of_cons, elem_of_nil in Hin. destruct_or! Hin; by rewrite ?Hin.
Qed.

Lemma criterion_fixed tags :
  Forall valid_tag tags →
  jsonb_in (criterion_json (EncodeCriterion tags)) = Ok (criterion_json (EncodeCriterion tags)).
Proof.
  intros Hv. rewrite Forall_forall in Hv. apply json_of_map_fixed. intros k v.
  rewrite lookup_fmap, EncodeCriterion_lookup.
  destruct (of_key k tags) as [|t ts] eqn:E; [done|]. intros [= <-].
  assert (∀ u, u ∈ t :: ts → Key u = k ∧ u ∈ tags) as Hin.
  { intros u Hu. rewrite <-E in Hu. by apply list_elem_of_filter in Hu. }
  destruct (Hin t ltac:(left)) as [<- Ht].
  assert (∀ u, u ∈ tags → contains_nul (Key u) = false ∧ contains_nul (Value u) = false) as Hn.
  { intros u Hu. apply Hv, ValidateTag_ok in Hu as (_ & ? & ? & _). done. }
  split; [by apply Hn|].
  assert (jsonb_in (predicates_json (tag_predicate <$> t :: ts))
    = Ok (predicates_json (tag_predicate <$> t :: ts))) as Hp.
  { apply jsonb_array_fixed. rewrite <-list_fmap_compose.
    intros x (u & -> & Hu%Hin)%list_elem_of_fmap. destruct Hu as [_ Hu].
    apply predicate_fixed; simpl; [by apply valid_operator_no_nul, Hv|by apply Hn]. }
  destruct ts as [|u us]; [|exact Hp]. cbn [fmap list_fmap encode_predicates].
  destruct (String.eqb _ _); [|exact Hp]. simpl. by apply jsonb_in_string, Hn.
Qed.

(** ** Observations *)

(** A check as the SQL function sees it. *)
Definition pg_observation (check : ConsistencyCheck) : PgObservation :=
  mkPgObservation ((λ c, anyval_json <$> EncodeCriterion (Tags c)) <$> Criteria check)
    (CheckPosition check).

Definition stored_check (check : ConsistencyCheck) : StoredObservation :=
  mkStored (EncodeReadCriteria (Criteria check)) (CommitPosition (CheckPosition check))
    (PreparePosition (CheckPosition check)).

(** What [validatePostgresSaveInput] and the check of positions leave. *)
Definition sendable_check (check : ConsistencyCheck) : Prop :=
  Criteria check ≠ [] ∧ (∀ c, c ∈ Criteria check → Forall valid_tag (Tags c) ∧ Tags c ≠ [])
  ∧ is_int64 (CommitPosition (CheckPosition check))
  ∧ is_int64 (PreparePosition (CheckPosition check)).

Lemma observation_sent check :
  sendable_check check →
  ∃ v, jsonb_in (stored_json (stored_check check)) = Ok v
    ∧ observation_of_jsonb v = Ok (pg_observation check).
Proof.
  intros (Hne & Hc & Htx & Hgid). unfold stored_json, stored_check.
  cbn [SO_Criteria SO_TransactionID SO_GlobalID].
  set (cs := criterion_json <$> EncodeReadCriteria (Criteria check)).
  assert (jsonb_in (JArray cs) = Ok (JArray cs)) as Hcs.
  { apply jsonb_array_fixed. unfold cs, EncodeReadCriteria. rewrite <-list_fmap_compose.
    intros v (c & -> & Hin)%list_elem_of_fmap. apply criterion_fixed, Hc, Hin. }
  set (tx := JNumber (FormatInt (CommitPosition (CheckPosition check)))).
  set (gid := JNumber (FormatInt (PreparePosition (CheckPosition check)))).
  set (pos := json_of_map (map_of_fields [("transaction_id", tx); ("global_id", gid)])).
  set (q := json_of_map (map_of_fields [("criteria", JArray cs)])).
  assert (jsonb_in (JObject [("transaction_id", tx); ("global_id", gid)]) = Ok pos) as Hp.
  { apply jsonb_fields_fixed. repeat constructor; by apply jsonb_in_int. }
  assert (jsonb_in (JObject [("criteria", JArray cs)]) = Ok q) as Hq.
  { apply jsonb_fields_fixed. by repeat constructor. }
  rewrite jsonb_in_object by by repeat constructor.
  cbn [mapM mbind result_bind fst snd]. rewrite Hq, Hp. cbn [mbind result_bind mret result_ret fmap result_fmap].
  eexists. split; [done|]. unfold observation_of_jsonb.
  assert (json_member (json_of_map (map_of_fields [("query", q); ("position", pos)])) "query"
    = Some q) as -> by exact (members ["query"; "position"] [q; pos] 0 _ _
    eq_refl eq_refl eq_refl eq_refl).
  assert (json_member (json_of_map (map_of_fields [("query", q); ("position", pos)])) "position"
    = Some pos) as -> by exact (members ["query"; "position"] [q; pos] 1 _ _
    eq_refl eq_refl eq_refl eq_refl).
  assert (json_member q "criteria" = Some (JArray cs)) as Hqc by exact
    (members ["criteria"] [JArray cs] 0 _ _ eq_refl eq_refl eq_refl eq_refl).
  assert (json_member pos "transaction_id" = Some tx ∧ json_member pos "global_id" = Some gid)
    as [Hpt Hpg] by (split; [exact (members ["transaction_id"; "global_id"] [tx; gid] 0 _ _
      eq_refl eq_refl eq_refl eq_refl)|exact (members ["transaction_id"; "global_id"] [tx; gid] 1 _ _
      eq_refl eq_refl eq_refl eq_refl)]).
  assert (bigint_member pos "transaction_id" = Ok (CommitPosition (CheckPosition check))) as Ht.
  { unfold bigint_member. rewrite Hpt. unfold tx.
    cbn [arrow_text_of mbind option_bind]. by rewrite ParseInt_FormatInt. }
  assert (bigint_member pos "global_id" = Ok (PreparePosition (CheckPosition check))) as Hg.
  { unfold bigint_member. rewrite Hpg. unfold gid.
    cbn [arrow_text_of mbind option_bind]. by rewrite ParseInt_FormatInt. }
  assert (mapM criterion_of_jsonb cs
    = Ok ((λ c, anyval_json <$> EncodeCriterion (Tags c)) <$> Criteria check)) as Hm.
  { unfold cs, EncodeReadCriteria. rewrite <-list_fmap_compose, mapM_fmap_l. apply mapM_ok.
    intros c Hin. destruct (Hc c Hin) as [_ Htags]. unfold compose, criterion_json, criterion_of_jsonb.
    unfold json_of_map.
    match goal with |- context [sorted_entries ?m] => destruct (sorted_entries m) eqn:E end;
      [exfalso|by rewrite <-E, map_of_fields_json_of_map]. apply Htags, EncodeCriterion_empty.
    pose proof (list_to_map_sorted_entries (anyval_json <$> EncodeCriterion (Tags c))) as Hm.
    rewrite E in Hm. simpl in Hm. by apply eq_sym, fmap_empty_inv in Hm. }
  assert (cs ≠ []) as Hcne.
  { unfold cs, EncodeReadCriteria. intros H%fmap_nil_inv%fmap_nil_inv. exact (Hne H). }
  cbn [mbind option_bind]. rewrite Hqc. clearbody q pos cs.
  destruct cs as [|v vs]; [exfalso; exact (Hcne eq_refl)|]. rewrite Hm.
  cbn [mbind result_bind]. rewrite Ht, Hg. unfold pg_observation.
  destruct (CheckPosition check). reflexivity.
Qed.

End Encoding.

Section Save.
Context `{J : GoJson, L : !GoJsonLaws, SJ : !GoJsonStored, P : Postgres, PL : !PostgresLaws}.
Context `{U : GoUuid}.

(** ** Requests *)

(** The event that the server makes of a prepared event. *)
Definition storable (e : PreparedEvent) (pe : PgEvent) : Prop :=
  ∃ w w', wireEvent e = Ok w ∧ jsonb_in w = Ok w' ∧ event_of_jsonb w' = Ok pe.

(** The request that the server makes of a prepared save. *)
Definition sends (p : preparedPostgresSave) (r : PgRequest) : Prop :=
  ∃ v w, payload_json (pp_payload p) = Ok v ∧ jsonb_in v = Ok w ∧ request_of_jsonb w = Ok r.

(** Strings that the JSON encoder writes as they are. *)
Definition text_event (e : PreparedEvent) : Prop := text_ok (PE_EventId e) ∧ text_ok (PE_EventType e).
Definition text_check (check : ConsistencyCheck) : Prop :=
  json_faithful (stored_json (stored_check check)).

Lemma mapM_Forall2 {A B} (f : A → result B) l k :
  Forall2 (λ x y, f x = Ok y) l k → mapM f l = Ok k.
Proof using Type.
  induction 1 as [|x y l k H _ IH]; [done|]. cbn [mapM]. rewrite H. cbn [mbind result_bind].
  by rewrite IH.
Qed.

Lemma mapM_Forall2_inv {A B} (f : A → result B) l k :
  mapM f l = Ok k → Forall2 (λ x y, f x = Ok y) l k.
Proof using Type.
  revert k. induction l as [|x l IH]; intros k H; cbn [mapM] in H.
  - injection H as <-. constructor.
  - apply result_bind_ok in H as (y & Hy & H). apply result_bind_ok in H as (ys & Hys & H).
    injection H as <-. constructor; [done|]. by apply IH.
Qed.

Lemma marshal_roundtrip v s : json_faithful v → json_Marshal v = Ok s → json_Unmarshal s = Ok v.
Proof using L.
  intros Hf Hm. destruct (json_roundtrip v Hf) as (s' & Hm' & _ & Hu). congruence.
Qed.

Lemma wire_faithful e w : text_event e → wireEvent e = Ok w → json_faithful w.
Proof using L.
  intros [Hi Ht] H. unfold wireEvent in H. apply result_bind_ok in H as (d & Hd & H).
  apply result_bind_ok in H as (m & Hm & H). injection H as <-.
  apply json_decoded_faithful in Hd, Hm. simpl.
  split_and!; try done; by apply text_ok_ascii.
Qed.

Lemma marshal_consistency_text checks data :
  Forall text_check checks → MarshalConsistency checks = Ok data →
  json_Unmarshal data = Ok (JArray (stored_json <$> (stored_check <$> checks))).
Proof using L.
  intros Ht H. unfold MarshalConsistency in H. apply result_bind_ok in H as (os & Hos & H).
  assert (os = stored_check <$> checks) as ->.
  { apply mapM_Forall2_inv in Hos. clear H Ht. induction Hos as [|c o checks os Ho _ IH]; [done|].
    rewrite fmap_cons, <-IH. f_equal. unfold stored_observation in Ho.
    apply result_bind_ok in Ho as ([] & _ & Ho). by injection Ho as <-. }
  apply marshal_roundtrip; [|done]. apply json_faithful_array. rewrite <-list_fmap_compose.
  intros x (c & -> & Hin)%list_elem_of_fmap. rewrite Forall_forall in Ht. by apply Ht.
Qed.

Lemma marshal_events_text events ws data :
  Forall text_event events → mapM wireEvent events = Ok ws → MarshalEvents events = Ok data →
  json_Unmarshal data = Ok (JArray ws).
Proof using L.
  intros Ht Hw H. unfold MarshalEvents in H. rewrite Hw in H. cbn [mbind result_bind] in H.
  apply marshal_roundtrip; [|done]. apply json_faithful_array. intros w Hin.
  apply mapM_Forall2_inv in Hw. apply list_elem_of_lookup in Hin as [i Hi].
  destruct (Forall2_lookup_r _ _ _ _ _ Hw Hi) as (e & He & Hwe).
  rewrite Forall_lookup in Ht. eapply wire_faithful; eauto.
Qed.

Lemma jsonb_payload cs ws cs' ws' :
  mapM jsonb_in cs = Ok cs' → mapM jsonb_in ws = Ok ws' →
  ∃ w, jsonb_in (JObject [("consistency", JArray cs); ("events", JArray ws)]) = Ok w
    ∧ json_member w "consistency" = Some (JArray cs') ∧ json_member w "events" = Some (JArray ws').
Proof using PL.
  intros Hc Hw. rewrite jsonb_in_object by by repeat constructor.
  cbn [mapM fst snd]. rewrite !jsonb_in_array, Hc, Hw.
  cbn [fmap result_fmap mbind result_bind mret result_ret]. eexists. split; [reflexivity|]. split.
  - exact (members ["consistency"; "events"] [JArray cs'; JArray ws'] 0 _ _
      eq_refl eq_refl eq_refl eq_refl).
  - exact (members ["consistency"; "events"] [JArray cs'; JArray ws'] 1 _ _
      eq_refl eq_refl eq_refl eq_refl).
Qed.

(** What Go encodes for a save is what the SQL function decodes. *)
Lemma prepared_sends events checks p pes :
  prepareSave events checks = Ok p →
  Forall text_event events → Forall text_check checks → Forall sendable_check checks →
  Forall2 storable events pes →
  ∃ doc, sends p (mkPgRequest doc (pg_observation <$> checks) pes).
Proof using L PL.
  intros Hp Hte Htc Hsc Hst. unfold prepareSave in Hp.
  destruct (validatePostgresSaveInput _ _); [|done].
  destruct (MarshalConsistency checks) as [cdata|] eqn:Hcd; [|done].
  destruct (MarshalEvents events) as [edata|] eqn:Hed; [|done]. injection Hp as <-.
  assert (∃ ws ws', mapM wireEvent events = Ok ws ∧ mapM jsonb_in ws = Ok ws'
    ∧ mapM event_of_jsonb ws' = Ok pes) as (ws & ws' & Hws & Hjs & Hev).
  { clear Hed Hte. induction Hst as [|e pe events pes (w & w' & H1 & H2 & H3) _ IH];
      [by exists [], []|]. destruct IH as (ws & ws' & Hws & Hjs & Hev).
    exists (w :: ws), (w' :: ws'). cbn [mapM]. by rewrite H1, Hws, H2, Hjs, H3, Hev. }
  assert (∃ cs', mapM jsonb_in (stored_json <$> (stored_check <$> checks)) = Ok cs'
    ∧ mapM observation_of_jsonb cs' = Ok (pg_observation <$> checks)) as (cs' & Hcs & Hobs).
  { clear Hcd Htc. induction Hsc as [|c checks Hc _ IH]; [by exists []|].
    destruct IH as (cs' & Hcs & Hobs). destruct (observation_sent c Hc) as (v & Hv & Ho).
    exists (v :: cs'). rewrite !fmap_cons. cbn [mapM]. by rewrite Hv, Hcs, Ho, Hobs. }
  destruct (jsonb_payload _ _ _ _ Hcs Hjs) as (w & Hw & Hmc & Hme).
  exists (JArray cs'), (JObject [("consistency", JArray (stored_json <$> (stored_check <$> checks)));
    ("events", JArray ws)]), w. split_and!; [|done|].
  - unfold payload_json. simpl. rewrite (marshal_consistency_text _ _ Htc Hcd).
    cbn [mbind result_bind]. by rewrite (marshal_events_text _ _ _ Hte Hws Hed).
  - unfold request_of_jsonb. rewrite Hmc, Hme. simpl. by rewrite Hobs, Hev.
Qed.

Lemma validate_checks_ok checks :
  validate_checks checks = Ok tt →
  Forall (λ check, Criteria check ≠ []
    ∧ ∀ c, c ∈ Criteria check → Forall valid_tag (Tags c) ∧ Tags c ≠ []) checks.
Proof using Type.
  induction checks as [|check checks IH]; intros H; [constructor|]. cbn [validate_checks] in H.
  apply result_bind_ok in H as ([] & Hv & H). case_bool_decide as Hne; [done|].
  destruct (existsb _ (Criteria check)) eqn:E; [done|]. constructor; [|by apply IH].
  split; [done|]. intros c Hc. apply ValidateReadCriteria_tags in Hv. rewrite Forall_forall in Hv.
  split; [by apply Hv|]. intros Ht. apply not_true_iff_false in E. apply E, existsb_exists.
  exists c. rewrite <-list_elem_of_In, Ht. done.
Qed.

(** What is left to ask of checks that were prepared: their positions are 64-bit numbers. *)
Definition int64_check (check : ConsistencyCheck) : Prop :=
  is_int64 (CommitPosition (CheckPosition check)) ∧ is_int64 (PreparePosition (CheckPosition check)).

Lemma prepared_checks events checks p :
  prepareSave events checks = Ok p → Forall int64_check checks → Forall sendable_check checks.
Proof using Type.
  intros H Hi. unfold prepareSave in H.
  destruct (validatePostgresSaveInput events checks) as [[]|] eqn:Hv; [|done].
  unfold validatePostgresSaveInput in Hv. case_bool_decide; [done|].
  apply result_bind_ok in Hv as ([] & _ & Hv). apply validate_checks_ok in Hv.
  apply Forall_forall. intros c Hc. rewrite Forall_forall in Hv, Hi.
  destruct (Hv c Hc) as [? ?], (Hi c Hc). done.
Qed.

(** ** One flush *)

(** The outcome of a request, from its entry in the result. *)
Definition save_result (res : option Z * option string) : postgresSaveResult :=
  match res with
  | (Some gid, _) => mkPostgresSaveResult (FormatInt (gid + 1)) gid None
  | (None, Some m) => mkPostgresSaveResult "" 0 (Some (New AlreadyExists m))
  | (None, None) => mkPostgresSaveResult "" 0 None
  end.

Definition decided (res : option Z * option string) : Prop :=
  (∃ gid, res = (Some gid, None)) ∨ ∃ e a, res = (None, Some (conflict_message e a)).

Lemma first_conflict_message rows os m :
  first_conflict rows os = Some m → ∃ e a, m = conflict_message e a.
Proof using Type.
  induction os as [|o os IH]; [done|]. simpl. case_decide; [by apply IH|].
  intros [= <-]. by eexists _, _.
Qed.

Lemma save_requests_decided created xid t rs t' results :
  save_requests created xid t rs = (t', results) →
  Forall decided results ∧ length results = length rs.
Proof using Type.
  revert t results. induction rs as [|r rs IH]; intros t results H; cbn [save_requests] in H.
  - by injection H as <- <-.
  - destruct (save_request created xid t r) as [t1 res] eqn:H1.
    destruct (save_requests created xid t1 rs) as [t2 results2] eqn:H2. injection H as <- <-.
    destruct (IH _ _ H2) as [Hd Hl]. split; [|by simpl; rewrite Hl]. constructor; [|done].
    destruct (save_request_cases _ _ _ _ _ _ H1) as [(m & Hm & _ & ->)|(_ & _ & ->)].
    + right. apply first_conflict_message in Hm as (e & a & ->). by eexists _, _.
    + left. by eexists.
Qed.

Lemma conflict_mapped e a :
  mapSaveError (PlainError (conflict_message e a)) = New AlreadyExists (conflict_message e a).
Proof using Type.
  unfold mapSaveError. cbn [FromError as_status Error_text].
  assert (Contains (conflict_message e a) "OptimisticConcurrencyException" = true) as ->; [|done].
  unfold conflict_message. reflexivity.
Qed.

Lemma scan_outcome_row i res :
  decided res → scan_outcome (outcome_row i res) = Ok (save_result res).
Proof using Type.
  intros [[gid ->]|(e & a & ->)]; [done|]. unfold scan_outcome, outcome_row, save_result.
  cbn [oc_error_message snd]. by rewrite conflict_mapped.
Qed.

Lemma scan_rows_all results done :
  Forall decided results →
  scan_rows (imap (λ i, outcome_row (length done + i)) results)
    ((Some <$> done) ++ replicate (length results) None)
  = Ok (Some <$> (done ++ (save_result <$> results))).
Proof using Type.
  intros H. revert done. induction H as [|res results Hr _ IH]; intros done.
  - simpl. by rewrite !app_nil_r.
  - rewrite imap_cons. cbn [scan_rows]. rewrite Nat.add_0_r.
    assert (oc_index (outcome_row (length done) res) = Z.of_nat (length done)) as -> by done.
    rewrite length_app, length_fmap, length_replicate.
    destruct (Z.ltb_spec (Z.of_nat (length done)) 0) as [?|_]; [lia|].
    destruct (Z.leb_spec (Z.of_nat (length done + length (res :: results)))
      (Z.of_nat (length done))) as [Hle|_]; [simpl in Hle; lia|]. cbn [orb].
    rewrite Nat2Z.id, lookup_app_r by by rewrite length_fmap.
    rewrite length_fmap, Nat.sub_diag. cbn [length replicate lookup list_lookup].
    rewrite scan_outcome_row by done. cbn [mbind result_bind].
    rewrite insert_app_r_alt by by rewrite length_fmap.
    rewrite length_fmap, Nat.sub_diag. cbn [insert list_insert].
    specialize (IH (done ++ [save_result res])). rewrite length_app in IH. simpl in IH.
    rewrite <-!app_assoc, fmap_app, <-app_assoc in IH. simpl in IH. rewrite fmap_cons, <-IH.
    f_equal. apply imap_ext. intros i x _. simpl. f_equal. lia.
Qed.

(** A flush gives each request its outcome in the sequence of saves, and leaves the tables that
the sequence leaves. *)
Lemma executeBatch_exact registry created xid boundary entry (db : PgDatabase) t ps rs :
  registry_lookup registry boundary = Some entry →
  db !! (Mapping_Schema (pb_mapping entry), boundary) = Some t → pg_log_inv t →
  ps ≠ [] → Forall2 sends ps rs → Forall good_request rs → request_capacity (pt_seq t) rs →
  let '(t', results) := save_requests created xid t rs in
  executeBatch registry created xid None boundary ps db
  = (Ok (save_result <$> results), <[(Mapping_Schema (pb_mapping entry), boundary) := t']> db).
Proof using PL.
  intros Hreg Hdb Hinv Hne Hsend Hgood Hcap.
  assert (rs ≠ []) as Hrs by (intros ->; by inversion Hsend; subst).
  pose proof (insert_event_requests_refines created xid rs t Hrs Hgood Hinv Hcap) as Hins.
  destruct (save_requests created xid t rs) as [t' results] eqn:Hsave. destruct Hins as [Hins _].
  destruct (save_requests_decided _ _ _ _ _ _ Hsave) as [Hdec Hlen].
  unfold executeBatch. rewrite Hreg, bool_decide_false by done.
  assert (∃ vs ws, mapM payload_json (pp_payload <$> ps) = Ok vs ∧ mapM jsonb_in vs = Ok ws
    ∧ mapM request_of_jsonb ws = Ok rs) as (vs & ws & -> & Hws & Hrq).
  { clear -Hsend. induction Hsend as [|p r ps rs (v & w & H1 & H2 & H3) _ IH]; [by exists [], []|].
    destruct IH as (vs & ws & Hvs & Hws & Hrq). exists (v :: vs), (w :: ws).
    rewrite fmap_cons. cbn [mapM]. by rewrite H1, Hvs, H2, Hws, H3, Hrq. }
  unfold run_insert. rewrite Hdb, jsonb_in_array, Hws. cbn [fmap result_fmap mbind result_bind].
  cbn [requests_of_jsonb]. rewrite Hrq, Hins. cbn [mbind result_bind].
  assert (scan_rows (imap outcome_row results) (replicate (length results) None)
    = Ok (Some <$> (save_result <$> results))) as Hscan by exact (scan_rows_all results [] Hdec).
  rewrite (Forall2_length _ _ _ Hsend), <-Hlen, Hscan. cbn [mbind result_bind].
  assert (∀ l : list postgresSaveResult, mapM id (Some <$> l) = Some l) as ->; [|done].
  intros l. induction l as [|x l IH]; [done|]. rewrite fmap_cons. cbn [mapM].
  change (id (Some x)) with (Some x). cbn [mbind option_bind]. by rewrite IH.
Qed.

(** ** One save *)

(** The saver of a process whose coordinator flushes the request alone. *)
Definition pg_submit_alone (registry : option BoundaryRegistry) (created : string) (xid : Z)
    (boundary : string) (db : PgDatabase) (p : preparedPostgresSave) (_ : Z)
  : result postgresSaveResult :=
  match (executeBatch registry created xid None boundary [p] db).1 with
  | Ok [o] => Ok o
  | Ok _ => Err ErrClosed
  | Err e => Err e
  end.

Definition pg_saver (registry : option BoundaryRegistry) (created : string) (xid : Z)
  : EventsSaver PgDatabase :=
  mkSaver (λ ctx events boundary checks db,
    (Some (SavePrepared registry false events boundary checks
             (pg_submit_alone registry created xid boundary db) (ctx_Err ctx)),
     match prepareSave events checks with
     | Ok p => (executeBatch registry created xid None boundary [p] db).2
     | Err _ => db
     end)).

Local Existing Instance pg_text.

(** Every context that was checked is at the position expected. *)
Definition pg_current (t : PgTables) (checks : list ConsistencyCheck) : Prop :=
  Forall (λ c, pg_latest (pt_events t) (context_matches (Criteria c)) = CheckPosition c) checks.

Lemma pg_observation_on check doc :
  sendable_check check →
  existsb (criterion_on doc) (ob_criteria (pg_observation check)) = context_matches (Criteria check) doc.
Proof using Type.
  intros (Hne & Hc & _). unfold context_matches.
  rewrite list_filter_all by (intros c Hin; by apply Hc).
  destruct (Criteria check) as [|c0 cs] eqn:E; [done|]. rewrite <-E in *. unfold pg_observation.
  simpl. clear Hne E. induction (Criteria check) as [|c cs' IH]; [done|]. rewrite fmap_cons. simpl.
  rewrite IH by (intros d Hd; apply Hc; by right). f_equal.
  destruct (Hc c ltac:(left)) as [Hv _].
  destruct (criterion_sql_encoded (Tags c) Hv) as (parts & Hp & Hh).
  by rewrite (criterion_on_parts _ _ _ Hp), Hh.
Qed.

Lemma first_conflict_current t checks :
  Forall sendable_check checks →
  first_conflict (pt_events t) (pg_observation <$> checks) = None ↔ pg_current t checks.
Proof using Type.
  unfold pg_current. induction 1 as [|c checks Hc _ IH]; [by rewrite Forall_nil|].
  rewrite fmap_cons, Forall_cons, <-IH. cbn [first_conflict].
  assert (observed (pt_events t) (pg_observation c)
    = pg_latest (pt_events t) (context_matches (Criteria c))) as ->.
  { apply pg_latest_ext. intros doc. by apply pg_observation_on. }
  simpl. case_decide; naive_solver.
Qed.

Lemma prepared_good_request doc checks pes :
  Forall sendable_check checks → pes ≠ [] →
  Forall (λ e, is_Some (uuid_in (ev_event_id e))) pes →
  good_request (mkPgRequest doc (pg_observation <$> checks) pes).
Proof using Type.
  intros Hc Hne Hid. split_and!; [done| |done]. simpl. apply Forall_fmap.
  eapply Forall_impl; [exact Hc|]. intros c (Hcne & Hcs & _). split; simpl.
  - by intros ?%fmap_nil_inv.
  - apply Forall_fmap, Forall_forall. intros d Hd. destruct (Hcs d Hd) as [Hv Ht]. split.
    + intros Hf%fmap_empty_inv. by apply EncodeCriterion_empty in Hf.
    + by destruct (criterion_sql_encoded (Tags d) Hv) as (parts & -> & _).
Qed.

(** C8: a save on PostgreSQL is a compare-and-append. For events and checks that Go prepares
and the server can convert, the save is accepted exactly when every context that was checked
is at the position expected. Then it reports the number of its last event and the position
after it, and exactly its events are appended, in order, to the log of the boundary;
otherwise it fails with AlreadyExists and the database is as it was. *)
Theorem pg_save_compare_and_append registry created xid ctx boundary entry (db : PgDatabase) t
    events checks p pes :
  registry_lookup registry boundary = Some entry →
  db !! (Mapping_Schema (pb_mapping entry), boundary) = Some t → pg_log_inv t →
  prepareSave events checks = Ok p → Forall text_event events → Forall text_check checks →
  Forall int64_check checks → Forall2 storable events pes →
  Forall (λ e, is_Some (uuid_in (ev_event_id e))) pes →
  let next := (pt_seq t + Z.of_nat (length events))%Z in
  (next <= MaxInt64)%Z →
  let '(r, db') := saver_SavePrepared (pg_saver registry created xid) ctx events boundary checks db in
  (pg_current t checks →
     r = Some (Ok (FormatInt next, (next - 1)%Z))
     ∧ ∃ t', db' = <[(Mapping_Schema (pb_mapping entry), boundary) := t']> db
       ∧ pt_events t' = pt_events t
           ++ zip_with (stored_row created xid next (next - 1)) (seqZ (pt_seq t) (next - pt_seq t)) pes
       ∧ pg_log_inv t')
  ∧ (¬ pg_current t checks →
     (∃ m, r = Some (Err (New AlreadyExists m))) ∧ db' = db).
Proof using L PL.
  intros Hreg Hdb Hinv Hp Hte Htc Hi64 Hst Hid next Hcap.
  pose proof (prepared_checks _ _ _ Hp Hi64) as Hsc.
  destruct (prepared_sends _ _ _ _ Hp Hte Htc Hsc Hst) as [doc Hsend].
  assert (events ≠ []) as Hne.
  { intros ->. unfold prepareSave, validatePostgresSaveInput in Hp.
    by rewrite bool_decide_true in Hp. }
  pose proof (Forall2_length _ _ _ Hst) as Hlen.
  assert (pes ≠ []) as Hpne by (intros ->; by apply Hne, nil_length_inv).
  set (req := mkPgRequest doc (pg_observation <$> checks) pes) in *.
  assert (good_request req) as Hgood by by apply prepared_good_request.
  assert (request_capacity (pt_seq t) [req]) as Hcap1.
  { unfold request_capacity. simpl. rewrite <-Hlen. unfold next in Hcap. lia. }
  pose proof (executeBatch_exact registry created xid boundary entry db t [p] [req] Hreg Hdb Hinv
    ltac:(done) ltac:(by constructor) ltac:(by constructor) Hcap1) as Hflush.
  destruct (save_requests created xid t [req]) as [t' results] eqn:Hs.
  cbn [save_requests] in Hs. destruct (save_request created xid t req) as [t1 res] eqn:H1.
  injection Hs as <- <-. cbn [fmap list_fmap] in Hflush.
  assert (pg_log_inv t1) as Hinv'.
  { apply (save_request_inv _ _ _ _ _ _ Hinv (proj1 Hgood)) in H1 as [? _]; [done|].
    simpl. by rewrite <-Hlen. }
  unfold pg_saver, saver_SavePrepared, SavePrepared, enqueue, pg_submit_alone.
  rewrite bool_decide_false, Hreg, Hp by done. cbn [mbind result_bind].
  rewrite Hflush. cbn [fst snd].
  destruct (save_request_cases _ _ _ _ _ _ H1) as [(m & Hc & -> & ->)|(Hc & Ht' & ->)].
  - split.
    + intros Hcur. apply (first_conflict_current t checks Hsc) in Hcur. simpl in Hc. congruence.
    + intros _. split; [by exists m|]. by apply insert_id.
  - split.
    + intros _. simpl in Ht'. rewrite <-Hlen in *. fold next in Ht' |- *. split.
      * unfold save_result. cbn [pr_err pr_transactionID pr_globalID].
        replace (Z.of_nat (length (rq_events req))) with (Z.of_nat (length events))
          by (simpl; by rewrite Hlen).
        fold next. replace (next - 1 + 1)%Z with next by lia. reflexivity.
      * exists t1. split; [done|]. split; [|done].
        rewrite Ht'. cbn [pt_events]. f_equal. unfold request_rows. simpl. rewrite <-Hlen.
        unfold next. do 2 f_equal; lia.
    + intros Hn. exfalso. apply Hn, first_conflict_current; done.
Qed.

(** ** A request that the server refuses *)

Lemma mapM_member_err {A B} (f : A → result B) l x e :
  x ∈ l → f x = Err e → ∃ e', mapM f l = Err e'.
Proof using Type.
  intros Hin Hx. induction l as [|y l IH]; [by apply not_elem_of_nil in Hin|]. cbn [mapM].
  apply elem_of_cons in Hin as [->|Hin]; [rewrite Hx; by eexists|].
  destruct (f y); [|by eexists]. destruct (IH Hin) as [e' ->]. by eexists.
Qed.

Lemma wire_nul_refused e w :
  contains_nul (PE_EventType e) = true → wireEvent e = Ok w → ∃ err, jsonb_in w = Err err.
Proof using PL.
  intros Hn H. unfold wireEvent in H. apply result_bind_ok in H as (d & _ & H).
  apply result_bind_ok in H as (m & _ & H). injection H as <-.
  rewrite jsonb_in_object by by repeat constructor.
  destruct (jsonb_in_nul _ Hn) as [err Herr].
  edestruct (mapM_member_err (λ kv : string * json, v ← jsonb_in kv.2; mret (kv.1, v)))
    as [err' ->].
  - right. left.
  - simpl. by rewrite Herr.
  - by eexists.
Qed.

Lemma prepared_nul_refused events checks p e v :
  prepareSave events checks = Ok p → Forall text_event events → e ∈ events →
  contains_nul (PE_EventType e) = true → payload_json (pp_payload p) = Ok v →
  ∃ err, jsonb_in v = Err err.
Proof using L PL.
  intros Hp Hte He Hn Hv. unfold prepareSave in Hp.
  destruct (validatePostgresSaveInput _ _); [|done].
  destruct (MarshalConsistency checks) as [cdata|]; [|done].
  destruct (MarshalEvents events) as [edata|] eqn:Hed; [|done]. injection Hp as <-.
  destruct (mapM wireEvent events) as [ws|] eqn:Hws;
    [|unfold MarshalEvents in Hed; by rewrite Hws in Hed].
  unfold payload_json in Hv. simpl in Hv. apply result_bind_ok in Hv as (c & _ & Hv).
  rewrite (marshal_events_text _ _ _ Hte Hws Hed) in Hv. injection Hv as <-.
  apply mapM_Forall2_inv in Hws. apply list_elem_of_lookup in He as [i Hi].
  destruct (Forall2_lookup_l _ _ _ _ _ Hws Hi) as (w & Hw & Hwe).
  destruct (wire_nul_refused _ _ Hn Hwe) as [err Herr].
  apply list_elem_of_lookup_2 in Hw.
  destruct (mapM_member_err _ _ _ _ Hw Herr) as [err' Harr].
  rewrite jsonb_in_object by by repeat constructor.
  edestruct (mapM_member_err (λ kv : string * json, v ← jsonb_in kv.2; mret (kv.1, v)))
    as [err'' ->].
  - right. left.
  - simpl. rewrite jsonb_in_array, Harr. reflexivity.
  - by eexists.
Qed.

(** A request that Go prepares and the server refuses fails its neighbours. An event type
with the character U+0000 passes the validation and the encoding of a save, but the server
does not convert it to jsonb: every flush that contains the request fails as a whole, whatever
the other requests are, and stores nothing. *)
Theorem nul_request_fails_flush registry created xid boundary (db : PgDatabase) events checks p e
    neighbours :
  prepareSave events checks = Ok p → Forall text_event events → e ∈ events →
  contains_nul (PE_EventType e) = true → p ∈ neighbours →
  ∃ err, executeBatch registry created xid None boundary neighbours db = (Err err, db).
Proof using L PL.
  intros Hp Hte He Hn Hin. unfold executeBatch.
  destruct (registry_lookup registry boundary) as [entry|]; [|by eexists].
  rewrite bool_decide_false by (intros ->; inversion Hin).
  destruct (mapM payload_json (pp_payload <$> neighbours)) as [vs|] eqn:Hvs; [|by eexists].
  assert (∃ err, mapM jsonb_in vs = Err err) as [err Herr].
  { apply mapM_Forall2_inv in Hvs. apply list_elem_of_lookup in Hin as [i Hi].
    destruct (Forall2_lookup_l _ _ _ i (pp_payload p) Hvs) as (v & Hv & Hpv).
    { by rewrite list_lookup_fmap, Hi. }
    destruct (prepared_nul_refused _ _ _ _ _ Hp Hte He Hn Hpv) as [err Herr].
    eapply mapM_member_err; [by eapply list_elem_of_lookup_2|done]. }
  unfold run_insert. rewrite jsonb_in_array, Herr. cbn [fmap result_fmap mbind result_bind].
  destruct (db !! _); by eexists.
Qed.

End Save.

(** ** Witnesses *)

#[local] Existing Instances example_json example_stored_json example_postgres.

(** Every text of 36 characters is an id. *)
Definition example_go_uuid : GoUuid := {| uuid_Parse id := (go_len id =? 36)%Z |}.
#[local] Existing Instance example_go_uuid.

Definition example_pg_registry : BoundaryRegistry :=
  NewBoundaryRegistry {[ "orders" := mkMapping "orders" "shop" ]}.
Definition example_pg_entry : postgresBoundary :=
  buildPostgresBoundary (mkMapping "orders" "shop").
Definition example_pg_database : PgDatabase := {[ ("shop", "orders") := empty_pg_tables ]}.

Definition example_pg_prepared (type : string) : PreparedEvent :=
  mkPreparedEvent "0195c053-57e7-7a6d-8e17-a2a695f67d1f" type
    ("{" +:+ String "034" ("order" +:+ String "034" (":" +:+ String "034" ("o-1"
       +:+ String "034" "}")))) "n".
Definition example_nul_type : string := String (ascii_of_N 0) "".

Lemma pg_save_compare_and_append_witness :
  (saver_SavePrepared (pg_saver (Some example_pg_registry) "now" 7) (mkCtx None None)
     [example_pg_prepared "OrderPlaced"] "orders" [example_check] example_pg_database).1
  = Some (Ok ("1", 0%Z)).
Proof.
  destruct (prepareSave [example_pg_prepared "OrderPlaced"] [example_check]) as [p|] eqn:Hp;
    [|vm_compute in Hp; discriminate Hp].
  pose proof (@pg_save_compare_and_append example_json example_json_laws
    example_postgres example_postgres_laws example_go_uuid
    (Some example_pg_registry) "now" 7 (mkCtx None None) "orders" example_pg_entry
    example_pg_database empty_pg_tables [example_pg_prepared "OrderPlaced"] [example_check] p
    [mkPgEvent "0195c053-57e7-7a6d-8e17-a2a695f67d1f" "OrderPlaced"
       {[ "order" := JString "o-1" ]} (Some JNull)]) as H.
  destruct (saver_SavePrepared _ _ _ _ _ _) as [r db'].
  destruct H as [H _].
  - vm_compute; reflexivity.
  - vm_compute; reflexivity.
  - exact pg_log_inv_empty.
  - exact Hp.
  - repeat constructor.
  - constructor; [|constructor]. vm_compute. repeat split.
  - constructor; [|constructor]. split; vm_compute; split; discriminate.
  - constructor; [|constructor]. eexists _, _. split_and!; vm_compute; reflexivity.
  - constructor; [|constructor]. by eexists.
  - vm_compute; discriminate.
  - destruct H as [H _]; [|rewrite H; vm_compute; reflexivity].
    constructor; [|constructor]. vm_compute. reflexivity.
Defined.

Lemma nul_request_fails_flush_witness :
  ∃ p q err,
    prepareSave [example_pg_prepared "OrderPlaced"] [example_check] = Ok p
    ∧ (executeBatch (Some example_pg_registry) "now" 7 None "orders" [p] example_pg_database).1
      = Ok [mkPostgresSaveResult "1" 0 None]
    ∧ prepareSave [example_pg_prepared example_nul_type] [] = Ok q
    ∧ executeBatch (Some example_pg_registry) "now" 7 None "orders" [p; q] example_pg_database
      = (Err err, example_pg_database).
Proof.
  destruct (prepareSave [example_pg_prepared "OrderPlaced"] [example_check]) as [p|] eqn:Hp;
    [|vm_compute in Hp; discriminate Hp].
  destruct (prepareSave [example_pg_prepared example_nul_type] []) as [q|] eqn:Hq;
    [|vm_compute in Hq; discriminate Hq].
  edestruct (@nul_request_fails_flush example_json example_json_laws
    example_postgres example_postgres_laws example_go_uuid
    (Some example_pg_registry) "now" 7 "orders" example_pg_database
    [example_pg_prepared example_nul_type] [] q (example_pg_prepared example_nul_type) [p; q])
    as [err Herr]; [exact Hq|repeat constructor|left|vm_compute; reflexivity|right; left|].
  exists p, q, err. split; [reflexivity|]. split; [|by split].
  vm_compute in Hp. injection Hp as <-. vm_compute. reflexivity.
Defined.
