(* ===== verification/PgRead.v ===== *)
(** * Reads on PostgreSQL: the rows a query selects, the position of a context

What [GetBatch] and [GetLatestByCriteria] of [postgres/postgres_eventstore.go] return, in terms
of the log: the criteria that Go encodes and SQL translates select the events whose tags hold,
an ascending read sees the prefix of the log that no transaction in flight can change, and the
position of a context is the one that a save compares with. *)

From stdpp Require Import options.
From S2P Require Import Prelude Status Model Number Json Predicates Consistency EventData.
From S2P Require Import WriteContext SqlPredicates Sql SqliteStore SqliteLog GroupCommit.
From S2P Require Import SqliteRead EventStore PgPredicates PgInsert PgLog PgStore PgSave.

Set Default Proof Using "Type*".

Section Read.
Context `{J : GoJson, SJ : !GoJsonStored, P : Postgres, PL : !PostgresLaws}.
Local Existing Instance pg_text.

(** ** Criteria *)

(** A criterion as the server reads it. *)
Definition sent_criterion (c : ReadCriterion) : gmap string json :=
  anyval_json <$> EncodeCriterion (Tags c).

Lemma sent_criterion_empty c : sent_criterion c = ∅ ↔ Tags c = [].
Proof using Type.
  unfold sent_criterion. rewrite <-EncodeCriterion_empty. split; [apply fmap_empty_inv|].
  intros ->. apply fmap_empty.
Qed.

Lemma jsonb_criterion_sent c :
  Forall valid_tag (Tags c) → jsonb_criterion (EncodeCriterion (Tags c)) = Ok (sent_criterion c).
Proof using PL.
  intros Hv. unfold jsonb_criterion. rewrite (criterion_fixed _ Hv). cbn [mbind result_bind].
  unfold criterion_json, json_of_map. by rewrite map_of_fields_json_of_map.
Qed.

Lemma criterion_sent_sql c :
  Forall valid_tag (Tags c) →
  ∃ parts, orisun_criterion_sql (sent_criterion c) = Ok parts
    ∧ ∀ doc, criterion_true doc parts = tags_hold c doc.
Proof using Type. apply criterion_sql_encoded. Qed.

Lemma criteria_sent_sql cs :
  Forall (λ c, Forall valid_tag (Tags c)) cs →
  ∃ w, criteria_sql (Some (sent_criterion <$> cs)) = Ok w
    ∧ ∀ doc, clause_true w doc = context_matches cs doc.
Proof using Type.
  intros Hv. unfold criteria_sql.
  assert (filter (λ c, c ≠ ∅) (sent_criterion <$> cs)
    = sent_criterion <$> filter (λ c, Tags c ≠ []) cs) as ->.
  { rewrite list_filter_fmap. f_equal. apply list_filter_iff. intros c. simpl.
    by rewrite sent_criterion_empty. }
  assert (∃ parts, mapM orisun_criterion_sql (sent_criterion <$> filter (λ c, Tags c ≠ []) cs)
      = Ok parts
    ∧ ∀ doc, (λ p, criterion_true doc p) <$> parts
        = (λ c, tags_hold c doc) <$> filter (λ c, Tags c ≠ []) cs) as (parts & -> & Hp).
  { induction Hv as [|c cs Hc _ IH]; [by exists []|]. rewrite filter_cons.
    destruct (decide (Tags c ≠ [])); [|done]. destruct IH as (parts & Hm & Hh).
    destruct (criterion_sent_sql c Hc) as (p & Hp & Hph). exists (p :: parts).
    rewrite fmap_cons. cbn [mapM]. rewrite Hp, Hm. split; [done|]. intros doc.
    rewrite !fmap_cons, Hph. f_equal. apply Hh. }
  cbn [mbind result_bind]. eexists. split; [done|]. intros doc. specialize (Hp doc).
  unfold context_matches.
  assert (∀ (l : list (list pg_part)), existsb (criterion_true doc) l
    = existsb id ((λ p, criterion_true doc p) <$> l)) as Hl.
  { induction l as [|x l IH]; [done|]. rewrite fmap_cons. simpl. by rewrite IH. }
  destruct (filter (λ c, Tags c ≠ []) cs) as [|c cs'].
  - by apply fmap_nil_inv in Hp as ->.
  - case_bool_decide as Hnil; [by subst|]. cbn [clause_true]. rewrite Hl, Hp.
    generalize (c :: cs'). clear. induction l as [|x l IH]; [done|]. rewrite fmap_cons. simpl.
    by rewrite IH.
Qed.

(** ** The rows of a batch *)

Definition pg_matching (Q : gmap string json → bool) (dir : Direction) (from : option Position)
    (rows : list PgRow) : list PgRow :=
  filter (λ r, Q (pg_data r) && after_position dir from r = true) rows.

(** An ascending read sees the rows of transactions that ended before all in flight. *)
Definition pg_visible (xmin : Z) (dir : Direction) (rows : list PgRow) : list PgRow :=
  match dir with
  | Direction_ASC => filter (λ r, stable xmin r = true) rows
  | Direction_DESC => rows
  end.

Definition pg_ordered (dir : Direction) (rows : list PgRow) : list PgRow :=
  match dir with Direction_ASC => rows | Direction_DESC => reverse rows end.

#[local] Instance pg_row_le_trans : Transitive pg_row_le.
Proof using Type. intros r s u. unfold pg_row_le. apply transitivity. Qed.
#[local] Instance pg_row_le_total : Total pg_row_le.
Proof using Type. intros r s. unfold pg_row_le. apply total, _. Qed.

Lemma pg_sort_asc l : StronglySorted pg_row_lt l → merge_sort pg_row_le l = l.
Proof using Type.
  intros Hs. apply (StronglySorted_unique_strong pg_row_le).
  - intros x y Hx Hy Hxy Hyx. rewrite merge_sort_Permutation in Hx.
    apply (pg_row_lt_member l); [done..|]. by apply (anti_symm pos_le).
  - apply (StronglySorted_merge_sort _).
  - eapply StronglySorted_mono; [|exact Hs]. intros x y H. by left.
  - apply merge_sort_Permutation.
Qed.

Lemma get_matching_events_log xmin cs w from dir count t :
  pg_log_inv t → criteria_sql cs = Ok w →
  get_matching_events xmin cs from dir count (pt_events t)
  = Ok (take (Z.to_nat (Z.min (Z.max count 1) 10000))
      (pg_ordered dir (pg_matching (clause_true w) dir from (pg_visible xmin dir (pt_events t))))).
Proof using Type.
  intros [Hs _]%pg_log_ordered Hw. unfold get_matching_events. rewrite Hw.
  cbn [mbind result_bind mret result_ret]. f_equal. f_equal.
  destruct dir; cbn [pg_ordered pg_visible].
  - rewrite pg_sort_asc by by apply StronglySorted_filter. unfold pg_matching.
    rewrite list_filter_filter. apply list_filter_iff. intros r.
    destruct (clause_true w (pg_data r)), (stable xmin r), (after_position _ from r); naive_solver.
  - rewrite pg_sort_desc by by apply StronglySorted_filter. f_equal. apply list_filter_iff.
    intros r. by rewrite andb_true_r.
Qed.

(** ** The latest events of criteria *)

(** The entry of a criterion: its last event, scanned. *)
Definition pg_match (rows : list PgRow) (c : ReadCriterion) (e : option ReadEvent) : Prop :=
  match last (filter (λ r, tags_hold c (pg_data r) = true) rows) with
  | None => e = None
  | Some r => ∃ re, scan_pg_row r = Ok re ∧ e = Some re
  end.

Lemma pg_scan_position r e : scan_pg_row r = Ok e → RE_Position e = pg_pos r.
Proof using Type.
  unfold scan_pg_row. intros H. repeat case_match; try discriminate H.
  injection H as <-. reflexivity.
Qed.

(** The test of the loop keeps the later position. *)
Lemma collect_step (found : bool) (p q : Position) :
  (found = false → p = NotExistsPosition) → pos_lt NotExistsPosition q →
  (if negb found || (CommitPosition p <? CommitPosition q)%Z
      || ((CommitPosition q =? CommitPosition p)%Z && (PreparePosition p <? PreparePosition q)%Z)
   then (true, q) else (found, p)) = (true, keep_latest p q).
Proof using Type.
  intros Hf Hq. destruct found; simpl; [unfold keep_latest; by destruct (_ || _)|].
  rewrite (Hf eq_refl). by destruct (keep_latest_lt _ _ Hq) as [-> _].
Qed.

Lemma pg_latest_or_none rows Q R :
  last (filter (λ r, R (pg_data r) = true) rows) = None →
  pg_latest rows (λ doc, Q doc || R doc) = pg_latest rows Q.
Proof using Type.
  intros H%last_None. unfold pg_latest. do 2 f_equal. induction rows as [|r rows IH]; [done|].
  rewrite !filter_cons in *. destruct (R (pg_data r)); [done|]. rewrite orb_false_r.
  by rewrite IH.
Qed.

Lemma collect_latest_ok rows cs : ∀ done Q found lr ms' ctx',
  ordered_rows rows → Forall (λ c, Forall valid_tag (Tags c)) cs →
  latest_rows (length done) (sent_criterion <$> cs) rows = Ok lr →
  (found = false → pg_latest rows Q = NotExistsPosition) →
  collect_latest lr (done ++ replicate (length cs) None) found (pg_latest rows Q) = Ok (ms', ctx') →
  ∃ ms, ms' = done ++ ms ∧ Forall2 (pg_match rows) cs ms
    ∧ ctx' = pg_latest rows (λ doc, Q doc || existsb (λ c, tags_hold c doc) cs).
Proof using Type.
  induction cs as [|c cs IH]; intros done Q found lr ms' ctx' Ho Hv Hlr Hf H.
  - injection Hlr as <-. simpl in H. injection H as <- <-. exists []. split_and!; [done..|].
    apply pg_latest_ext. intros doc. by rewrite orb_false_r.
  - apply Forall_cons in Hv as [Hc Hv]. rewrite fmap_cons in Hlr. cbn [latest_rows] in Hlr.
    case_decide; [done|]. destruct (criterion_sent_sql c Hc) as (parts & Hp & Hh).
    rewrite Hp in Hlr. cbn [mbind result_bind] in Hlr.
    apply result_bind_ok in Hlr as (rest & Hrest & Hlr). injection Hlr as <-.
    assert (select_latest_row parts rows
      = last (filter (λ r, tags_hold c (pg_data r) = true) rows)) as Hsel.
    { rewrite select_latest_row_last by apply Ho. f_equal. apply list_filter_iff. intros r.
      by rewrite Hh. }
    rewrite Hsel in H. cbn [length replicate] in H. rewrite cons_middle, app_assoc in H.
    assert (∀ e ms, ms' = (done ++ [e]) ++ ms → pg_match rows c e → Forall2 (pg_match rows) cs ms →
      ctx' = pg_latest rows (λ doc, (Q doc || tags_hold c doc) || existsb (λ c, tags_hold c doc) cs) →
      ∃ ms, ms' = done ++ ms ∧ Forall2 (pg_match rows) (c :: cs) ms
        ∧ ctx' = pg_latest rows (λ doc, Q doc || existsb (λ c, tags_hold c doc) (c :: cs))) as Hdone.
    { intros e ms -> He Hms ->. exists (e :: ms). rewrite <-app_assoc.
      split_and!; [done|by constructor|]. apply pg_latest_ext. intros doc. simpl. by rewrite orb_assoc. }
    pose proof (pg_latest_or rows Q (tags_hold c) Ho) as Hor.
    unfold pg_latest at 3 in Hor.
    destruct (last (filter (λ r, tags_hold c (pg_data r) = true) rows)) as [r|] eqn:E;
      cbn [from_option] in Hor.
    + cbn [collect_latest] in H. destruct (scan_pg_row r) as [e|] eqn:Hs; [|done].
      case_match; [done|].
      assert (pos_lt NotExistsPosition (pg_pos r)) as Hpos.
      { apply (or_real _ Ho). apply last_Some_elem_of, list_elem_of_filter in E. tauto. }
      pose proof (pg_scan_position _ _ Hs) as Hre.
      assert (RE_CommitPosition e = CommitPosition (pg_pos r)
        ∧ RE_PreparePosition e = PreparePosition (pg_pos r)) as [Hcp Hpp] by (by rewrite <-Hre).
      rewrite Hcp, Hpp, Hre, (collect_step _ _ _ Hf Hpos), <-Hor in H.
      rewrite insert_app_l in H by (rewrite length_app; simpl; lia).
      rewrite insert_app_r_alt, Nat.sub_diag in H by done. cbn [list_insert insert] in H.
      destruct (IH (done ++ [Some e]) (λ doc, Q doc || tags_hold c doc) true rest ms' ctx' Ho Hv)
        as (ms & Hms & Hall & Hctx); [by rewrite length_app, Nat.add_comm|done|done|].
      apply (Hdone (Some e) ms); [done| |done..]. unfold pg_match. rewrite E. by exists e.
    + destruct (IH (done ++ [None]) (λ doc, Q doc || tags_hold c doc) found rest ms' ctx' Ho Hv)
        as (ms & Hms & Hall & Hctx); [by rewrite length_app, Nat.add_comm| | |].
      * intros ->. rewrite pg_latest_or_none by done. by apply Hf.
      * by rewrite pg_latest_or_none.
      * apply (Hdone None ms); [done| |done..]. unfold pg_match. by rewrite E.
Qed.

(** ** What the reads return *)

(** The criteria of a request, encoded by Go and read by the server. *)
Definition request_criteria (query : option Query) : option (option (list (gmap string anyval))) :=
  match query with
  | Some q => if bool_decide (Query_Criteria q = []) then Some None
              else Some <$> EncodeQueryCriteria (Some q)
  | None => Some None
  end.

Definition server_criteria (criteria : option (list (gmap string anyval)))
  : result (option (list (gmap string json))) :=
  match criteria with
  | None => mret None
  | Some cs => Some <$> mapM jsonb_criterion cs
  end.

Lemma query_clause query :
  ValidateQuery query = Ok tt →
  ∃ cs criteria sent w, query_criteria query = Some cs ∧ request_criteria query = Some criteria
    ∧ server_criteria criteria = Ok sent ∧ criteria_sql sent = Ok w
    ∧ ∀ doc, clause_true w doc = context_matches cs doc.
Proof using PL.
  intros (cs & Hcs & Hv)%ValidateQuery_criteria.
  assert (cs = [] → ∃ criteria sent w, Some None = Some criteria
    ∧ server_criteria criteria = Ok sent ∧ criteria_sql sent = Ok w
    ∧ ∀ doc, clause_true w doc = context_matches cs doc) as Hall.
  { intros ->. exists None, None, None. split_and!; done. }
  exists cs. destruct query as [q|]; simpl in *.
  2:{ injection Hcs as <-. destruct (Hall eq_refl) as (x & y & z & ?). by exists x, y, z. }
  case_bool_decide as Hq.
  - rewrite Hq in Hcs. injection Hcs as <-. destruct (Hall eq_refl) as (x & y & z & ?).
    exists x, y, z. split; [by rewrite Hq|done].
  - destruct (criteria_sent_sql cs Hv) as (w & Hw & Hh). rewrite Hcs.
    exists (Some (EncodeReadCriteria cs)), (Some (sent_criterion <$> cs)), w.
    split_and!; [done..| |done|done]. unfold server_criteria, EncodeReadCriteria.
    rewrite mapM_fmap_l, (mapM_ok _ sent_criterion); [done|].
    intros c Hc. rewrite Forall_forall in Hv. by apply jsonb_criterion_sent, Hv.
Qed.

Lemma filter_full {A} (Q : A → Prop) `{!∀ x, Decision (Q x)} l :
  length (filter Q l) = length l → filter Q l = l.
Proof using Type.
  induction l as [|x l IH]; [done|]. rewrite filter_cons. case_decide; simpl; intros Hl.
  - f_equal. apply IH. lia.
  - pose proof (length_filter Q l). lia.
Qed.

(** An event appended to a log is after every context of it. *)
Lemma pg_latest_before rows new Q r :
  ordered_rows (rows ++ new) → r ∈ new → pos_lt (pg_latest rows Q) (pg_pos r).
Proof using Type.
  intros [Hs Hr] Hin. unfold pg_latest. apply StronglySorted_app in Hs as (Hlt & _ & _).
  destruct (last (filter _ rows)) as [s|] eqn:E; simpl.
  - apply last_Some_elem_of, list_elem_of_filter in E as [_ Hs]. by apply Hlt.
  - apply Hr, elem_of_app. by right.
Qed.

(** No read of a boundary is answered, whatever it asks for and whatever it meets. *)
Definition unreadable (registry : option BoundaryRegistry) (boundary : string) (db : PgDatabase)
  : Prop :=
  ∀ xmin begin fault iter req, GE_Boundary req = boundary →
    ∃ e, GetBatch registry xmin begin fault iter (Some req) db = Err e.

Section Boundary.
Context (registry : option BoundaryRegistry) (boundary : string) (entry : postgresBoundary).
Context (db : PgDatabase) (t : PgTables).
Context (Hreg : registry_lookup registry boundary = Some entry).
Context (Hdb : db !! (Mapping_Schema (pb_mapping entry), boundary) = Some t).
Context (Hinv : pg_log_inv t).

Lemma mapM_total {A B} (f : A → result B) l :
  (∀ x, x ∈ l → ∃ y, f x = Ok y) → ∃ ys, mapM f l = Ok ys.
Proof using Type.
  induction l as [|x l IH]; intros H; [by eexists|]. cbn [mapM].
  destruct (H x) as [y ->]; [left|]. destruct IH as [ys ->]; [intros; apply H; by right|].
  by eexists.
Qed.

(** C14: a read on PostgreSQL returns the events that the query selects. A batch that is read
holds, scanned, the first rows from the position in the direction asked, up to the limit,
among those whose documents satisfy the criteria as tags; ascending reads stop before the
transactions in flight. A valid query of rows that can be scanned is answered, if the boundary
is an identifier that needs no quotes. *)
Theorem pg_GetBatch_exact xmin req :
  GE_Boundary req = boundary → (0 <= GE_Count req)%Z →
  (∀ batch, GetBatch registry xmin None None None (Some req) db = Ok batch →
     ∃ cs, query_criteria (GE_Query req) = Some cs
       ∧ mapM scan_pg_row
           (take (Z.to_nat (batch_count (GE_Count req)))
              (pg_ordered (GE_Direction req)
                 (pg_matching (context_matches cs) (GE_Direction req) (GE_FromPosition req)
                    (pg_visible xmin (GE_Direction req) (pt_events t))))) = Ok batch)
  ∧ (plain_ident boundary = true → ValidateQuery (GE_Query req) = Ok tt →
     (∀ r, r ∈ pt_events t → ∃ e, scan_pg_row r = Ok e) →
     ∃ batch, GetBatch registry xmin None None None (Some req) db = Ok batch).
Proof using PL Hreg Hdb Hinv.
  intros Hb Hn. unfold GetBatch. rewrite Hb, Hreg. fold (request_criteria (GE_Query req)).
  destruct (ValidateQuery (GE_Query req)) as [[]|] eqn:Hv; [|done].
  destruct (query_clause _ Hv) as (cs & criteria & sent & w & Hcs & -> & Hs & Hw & Hh).
  cbn [mbind result_bind]. unfold event_table, boundary_tables. rewrite Hdb.
  destruct (plain_ident boundary); [|by split].
  fold (server_criteria criteria). cbn [mbind result_bind]. rewrite Hs. cbn [mbind result_bind]. rewrite (get_matching_events_log _ _ _ _ _ _ _ Hinv Hw).
  assert (Z.min (Z.max (batch_count (GE_Count req)) 1) 10000 = batch_count (GE_Count req)) as ->.
  { unfold batch_count, DefaultReadBatchSize, MaxReadBatchSize.
    destruct (Z.eqb_spec (GE_Count req) 0); case_match; lia. }
  assert (∀ l, pg_matching (clause_true w) (GE_Direction req) (GE_FromPosition req) l
    = pg_matching (context_matches cs) (GE_Direction req) (GE_FromPosition req) l) as ->.
  { intros l. apply list_filter_iff. intros r. by rewrite Hh. }
  split.
  - intros batch H. exists cs. split; [done|]. by destruct (mapM scan_pg_row _).
  - intros _ _ Hscan. edestruct (mapM_total scan_pg_row) as [es ->]; [|by eexists].
    intros r Hr. apply Hscan. apply elem_of_take in Hr as (i & Hi & _).
    apply list_elem_of_lookup_2 in Hi. unfold pg_ordered, pg_matching, pg_visible in Hi.
    destruct (GE_Direction req); [|rewrite elem_of_reverse in Hi];
      repeat apply list_elem_of_filter in Hi as [_ Hi]; done.
Qed.

(** A boundary whose name PostgreSQL quotes can be written and not read. If the name has an
upper-case letter or is a keyword, such as [order] or [user], every read of its events fails,
whatever it asks for: the SQL function appends the suffix of the table after the closing
quote. *)
Theorem quoted_boundary_unreadable :
  plain_ident boundary = false → unreadable registry boundary db.
Proof using Hreg.
  intros Hq xmin begin fault iter req Hb. unfold GetBatch. rewrite Hb, Hreg. fold (request_criteria (GE_Query req)).
  destruct (ValidateQuery (GE_Query req)); [|by eexists]. cbn [mbind result_bind].
  destruct (request_criteria (GE_Query req)); [|by eexists].
  destruct begin; [by eexists|]. destruct fault; [by eexists|].
  unfold event_table. rewrite Hq. by eexists.
Qed.

Lemma pg_latest_context query b :
  LQ_Boundary query = boundary → GetLatestByCriteria registry None None query db = Ok b →
  Forall2 (pg_match (pt_events t)) (LQ_Criteria query) (LB_Matches b)
  ∧ LB_ContextPosition b = pg_latest (pt_events t) (context_matches (LQ_Criteria query)).
Proof using PL Hreg Hdb Hinv.
  intros Hb H. unfold GetLatestByCriteria in H.
  apply result_bind_ok in H as ([] & Hv%ValidateReadCriteria_tags & H). rewrite Hb, Hreg in H.
  case_bool_decide as Hne; [done|]. destruct (bool_decide (length _ = _)) eqn:Hlen; [|done].
  bool_props. unfold getReadCriteriaAsList in H, Hlen. rewrite length_fmap in Hlen.
  assert (filter (λ c, Tags c ≠ []) (LQ_Criteria query) = LQ_Criteria query) as Hf.
  { by apply filter_full. }
  rewrite Hf in H. unfold boundary_tables in H. rewrite Hdb in H. cbn [mbind result_bind] in H.
  rewrite mapM_fmap_l, (mapM_ok _ sent_criterion) in H.
  2:{ intros c Hc. rewrite Forall_forall in Hv. by apply jsonb_criterion_sent, Hv. }
  cbn [negb mbind result_bind] in H.
  destruct (latest_rows 0 (sent_criterion <$> LQ_Criteria query) (pt_events t)) as [lr|] eqn:Hlr;
    [|done].
  apply result_bind_ok in H as ([ms p] & Hc & H). injection H as <-.
  assert (NotExistsPosition = pg_latest (pt_events t) (λ _, false)) as Hz.
  { unfold pg_latest. by rewrite list_filter_none. }
  rewrite Hz in Hc.
  destruct (collect_latest_ok _ _ [] (λ _, false) false lr ms p (pg_log_ordered _ Hinv) Hv Hlr)
    as (ms' & -> & Hms & ->); [done|done|].
  split; [done|]. transitivity (pg_latest (pt_events t)
    (λ doc, false || existsb (λ c, tags_hold c doc) (LQ_Criteria query))).
  - match goal with |- _ = ?p => set (q := p) end. change (mkPosition (CommitPosition q) (PreparePosition q) = q).
    clearbody q. by destruct q.
  - apply pg_latest_ext. intros doc. unfold context_matches. rewrite Hf.
    by destruct (LQ_Criteria query).
Qed.

(** C9: the position of a context on PostgreSQL is the lock of a save. What is read for
criteria is, per criterion, its last event, and the position of the context is the position
that a save compares with: after more events were appended, a save that expects it is current
exactly when none of them satisfies the criteria. *)
Theorem pg_context_is_lock query b t' new :
  LQ_Boundary query = boundary →
  GetLatestByCriteria registry None None query db = Ok b →
  pt_events t' = pt_events t ++ new → pg_log_inv t' →
  Forall2 (pg_match (pt_events t)) (LQ_Criteria query) (LB_Matches b)
  ∧ (pg_current t' [mkConsistencyCheck (LQ_Criteria query) (LB_ContextPosition b)]
     ↔ ∀ r, r ∈ new → context_matches (LQ_Criteria query) (pg_data r) = false).
Proof using PL Hreg Hdb Hinv.
  intros Hb H Ht' Hinv'.
  destruct (pg_latest_context _ _ Hb H) as [Hm Hp]. split; [done|].
  unfold pg_current. rewrite Forall_singleton. simpl. rewrite Hp, Ht', pg_latest_app.
  destruct (last (filter _ new)) as [r|] eqn:E; simpl.
  - apply last_Some_elem_of, list_elem_of_filter in E as [Hr Hin]. split.
    + intros Heq. exfalso. pose proof (pg_latest_before (pt_events t) new
        (context_matches (LQ_Criteria query)) r) as Hlt.
      rewrite <-Ht' in Hlt. specialize (Hlt (pg_log_ordered _ Hinv') Hin). rewrite Heq in Hlt.
      by apply pos_lt_irrefl in Hlt.
    + intros Hnew. by rewrite (Hnew r Hin) in Hr.
  - split; [|done]. intros _ r Hin. apply last_None in E.
    destruct (context_matches _ (pg_data r)) eqn:Hr; [|done].
    assert (r ∈ filter (λ r, context_matches (LQ_Criteria query) (pg_data r) = true) new) as Hf
      by by apply list_elem_of_filter. rewrite E in Hf. by apply elem_of_nil in Hf.
Qed.

End Boundary.

(** ** What an ascending reader sees *)

Lemma stable_later xmin xmin' r :
  (xmin <= xmin')%Z → stable xmin r = true → stable xmin' r = true.
Proof using Type.
  unfold stable. destruct (pg_xact_id r); [|done]. rewrite !Z.ltb_lt. lia.
Qed.

Lemma save_requests_appends created xid rs t t' results :
  save_requests created xid t rs = (t', results) →
  ∃ new, pt_events t' = pt_events t ++ new ∧ Forall (λ r, pg_xact_id r = Some xid) new.
Proof using Type.
  revert t results. induction rs as [|r rs IH]; intros t results H; cbn [save_requests] in H.
  - injection H as <- _. exists []. by rewrite app_nil_r.
  - destruct (save_request created xid t r) as [t1 res] eqn:H1.
    destruct (save_requests created xid t1 rs) as [t2 ress] eqn:H2. injection H as <- _.
    destruct (IH _ _ H2) as (new & -> & Hnew).
    destruct (save_request_cases _ _ _ _ _ _ H1) as [(? & _ & -> & _)|(_ & -> & _)]; [by exists new|].
    simpl. exists (request_rows created xid (pt_seq t) r ++ new). rewrite app_assoc. split; [done|].
    apply Forall_app. split; [|done]. apply Forall_forall. intros x Hx. unfold request_rows in Hx.
    apply list_elem_of_lookup in Hx as [i Hi]. rewrite lookup_zip_with in Hi.
    apply bind_Some in Hi as (g & _ & Hi). apply fmap_Some in Hi as (e & _ & ->). done.
Qed.

End Read.

(** ** Witnesses *)

#[local] Existing Instances example_json example_stored_json example_postgres pg_text.

Definition example_pg_tables : PgTables :=
  (save_requests "now" 7 empty_pg_tables example_pg_requests).1.
Definition example_pg_filled : PgDatabase := {[ ("shop", "orders") := example_pg_tables ]}.

Lemma example_pg_tables_inv : pg_log_inv example_pg_tables.
Proof.
  pose proof (@insert_event_requests_refines example_postgres example_postgres_laws "now" 7
    example_pg_requests empty_pg_tables ltac:(done) example_requests_good pg_log_inv_empty
    ltac:(vm_compute; discriminate)) as H.
  unfold example_pg_tables. destruct (save_requests _ _ _ _). apply H.
Qed.

Definition example_pg_request : GetEventsRequest :=
  mkGetEventsRequest
    (Some (mkQuery [Some (mkCriterion [Some (mkTag "order" "o-2" "")])])) None 10
    Direction_ASC "orders".

Lemma pg_GetBatch_exact_witness :
  ∃ cs batch, query_criteria (GE_Query example_pg_request) = Some cs
    ∧ RE_PreparePosition <$> batch = [1%Z]
    ∧ mapM scan_pg_row
        (take (Z.to_nat (batch_count 10))
           (pg_matching (context_matches cs) Direction_ASC None
              (pg_visible 8 Direction_ASC (pt_events example_pg_tables)))) = Ok batch.
Proof.
  pose proof (@pg_GetBatch_exact example_postgres example_postgres_laws
    (Some example_pg_registry) "orders" example_pg_entry example_pg_filled example_pg_tables
    eq_refl eq_refl example_pg_tables_inv 8 example_pg_request eq_refl) as H.
  destruct H as [H _]; [vm_compute; discriminate|].
  destruct (GetBatch (Some example_pg_registry) 8 None None None (Some example_pg_request)
    example_pg_filled) as [batch|] eqn:E; [|vm_compute in E; discriminate E].
  destruct (H batch eq_refl) as (cs & Hcs & Hm). exists cs, batch. split; [exact Hcs|].
  split; [|exact Hm]. vm_compute in E. injection E as <-. reflexivity.
Defined.

(** A boundary with a log: its latest event is found, and no read returns it. *)
Lemma quoted_boundary_unreadable_witness :
  let registry := NewBoundaryRegistry {[ "order" := mkMapping "order" "shop" ]} in
  let db := {[ ("shop", "order") := example_pg_tables ]} : PgDatabase in
  (LB_ContextPosition
     <$> GetLatestByCriteria (Some registry) None None
           (mkLatestByCriteriaQuery "order" [example_order]) db) = Ok (mkPosition 2 0)
  ∧ unreadable (Some registry) "order" db.
Proof.
  intros registry db. split; [vm_compute; reflexivity|].
  apply (@quoted_boundary_unreadable example_postgres (Some registry) "order"
    (buildPostgresBoundary (mkMapping "order" "shop")) db); reflexivity.
Defined.

Lemma pg_context_is_lock_witness :
  ∃ b, GetLatestByCriteria (Some example_pg_registry) None None
         (mkLatestByCriteriaQuery "orders" [example_order]) example_pg_filled = Ok b
    ∧ LB_ContextPosition b = mkPosition 2 0
    ∧ @pg_current example_postgres example_pg_tables
        [mkConsistencyCheck [example_order] (LB_ContextPosition b)].
Proof.
  destruct (GetLatestByCriteria (Some example_pg_registry) None None
    (mkLatestByCriteriaQuery "orders" [example_order]) example_pg_filled) as [b|] eqn:E;
    [|vm_compute in E; discriminate E].
  destruct (@pg_context_is_lock example_postgres example_postgres_laws
    (Some example_pg_registry) "orders" example_pg_entry example_pg_filled example_pg_tables
    eq_refl eq_refl example_pg_tables_inv (mkLatestByCriteriaQuery "orders" [example_order]) b
    example_pg_tables [] eq_refl E (eq_sym (app_nil_r _)) example_pg_tables_inv) as [_ H].
  exists b. split; [reflexivity|]. split.
  - vm_compute in E. injection E as <-. reflexivity.
  - apply H. intros r Hr. exfalso. exact (not_elem_of_nil r Hr).
Defined.
