(* ===== verification/PgSnapshot.v ===== *)
(** * Snapshots of a PostgreSQL log: what ascending readers see while transactions run

The transactions of a server around the log of one boundary. A save takes the advisory lock of
the boundary, draws the number of its transaction under it, runs [insert_event_requests] of
[PgInsert] and holds the lock until it commits or rolls back
([scripts/common/db_scripts_1.sql], [insert_event_requests_v2]); other transactions of the
server begin and end at any time. A reader sees the committed rows, and an ascending one those
below [pg_snapshot_xmin(pg_current_snapshot())] ([get_matching_events_v4]). The order of the
transaction numbers in the log is not assumed: it is an invariant of the steps. *)

From stdpp Require Import relations options.
From S2P Require Import Prelude Status Model Number Json Predicates Consistency EventData.
From S2P Require Import WriteContext SqlPredicates Sql SqliteStore SqliteLog GroupCommit.
From S2P Require Import SqliteRead EventStore PgPredicates PgInsert PgLog PgStore PgSave PgRead.

Set Default Proof Using "Type*".

(** ** The server *)

(** The number of the next transaction, those of the transactions in flight, the committed
tables of the boundary, and the transaction that holds the lock of the boundary with the tables
as it sees them. Numbers drawn from the sequence are not given back. *)
Record PgCluster := mkPgCluster {
  cl_next : Z;
  cl_active : gset Z;
  cl_tables : PgTables;
  cl_writer : option (Z * PgTables) }.

Definition cl_rows (s : PgCluster) : list PgRow := pt_events (cl_tables s).

(** [pg_snapshot_xmin(pg_current_snapshot())]: the least transaction in flight, or the next
one. *)
Definition snapshot_xmin (s : PgCluster) : Z :=
  foldr Z.min (cl_next s) (elements (cl_active s)).

Section Snapshot.
Context `{P : Postgres, PL : !PostgresLaws}.

Inductive cluster_step : PgCluster → PgCluster → Prop :=
  | step_begin s :
      cluster_step s (mkPgCluster (cl_next s + 1) ({[ cl_next s ]} ∪ cl_active s) (cl_tables s)
                       (cl_writer s))
  | step_end s x :
      fst <$> cl_writer s ≠ Some x →
      cluster_step s (mkPgCluster (cl_next s) (cl_active s ∖ {[ x ]}) (cl_tables s) (cl_writer s))
  | step_save s created requests outcomes t :
      cl_writer s = None → requests ≠ [] → Forall good_request requests →
      request_capacity (pt_seq (cl_tables s)) requests →
      insert_event_requests created (cl_next s) requests (cl_tables s) = (Ok outcomes, t) →
      cluster_step s (mkPgCluster (cl_next s + 1) ({[ cl_next s ]} ∪ cl_active s)
                       (mkPgTables (cl_rows s) (pt_writes (cl_tables s)) (pt_seq t))
                       (Some (cl_next s, t)))
  | step_commit s x t :
      cl_writer s = Some (x, t) →
      cluster_step s (mkPgCluster (cl_next s) (cl_active s ∖ {[ x ]}) t None)
  | step_rollback s x t :
      cl_writer s = Some (x, t) →
      cluster_step s (mkPgCluster (cl_next s) (cl_active s ∖ {[ x ]}) (cl_tables s) None).

(** A log that was there before: every row is below the transactions in flight, or has no
number because it was restored. *)
Definition cluster_start (s : PgCluster) : Prop :=
  cl_writer s = None ∧ pg_log_inv (cl_tables s)
  ∧ Forall (λ r, stable (snapshot_xmin s) r = true) (cl_rows s)
  ∧ ∀ x, x ∈ cl_active s → (x < cl_next s)%Z.

(** ** Snapshots only advance *)

Lemma foldr_min_le n l : (foldr Z.min n l <= n)%Z ∧ ∀ x, x ∈ l → (foldr Z.min n l <= x)%Z.
Proof using Type.
  induction l as [|y l [IHn IH]]; simpl; [split; [lia|]; by intros x ?%elem_of_nil|].
  split; [lia|]. intros x [->|Hx]%elem_of_cons; [lia|]. specialize (IH x Hx). lia.
Qed.

Lemma foldr_min_ge z n l : (z <= n)%Z → (∀ x, x ∈ l → (z <= x)%Z) → (z <= foldr Z.min n l)%Z.
Proof using Type.
  intros Hn. induction l as [|y l IH]; intros H; simpl; [done|].
  apply Z.min_glb; [apply H; left|]. apply IH. intros x Hx. apply H. by right.
Qed.

Lemma snapshot_xmin_le s :
  (snapshot_xmin s <= cl_next s)%Z ∧ ∀ x, x ∈ cl_active s → (snapshot_xmin s <= x)%Z.
Proof using Type.
  destruct (foldr_min_le (cl_next s) (elements (cl_active s))) as [Hn H]. split; [done|].
  intros x Hx. by apply H, elem_of_elements.
Qed.

Lemma snapshot_xmin_ge s z :
  (z <= cl_next s)%Z → (∀ x, x ∈ cl_active s → (z <= x)%Z) → (z <= snapshot_xmin s)%Z.
Proof using Type.
  intros Hn H. apply foldr_min_ge; [done|]. intros x Hx%elem_of_elements. by apply H.
Qed.

Lemma cluster_step_xmin s s' : cluster_step s s' → (snapshot_xmin s <= snapshot_xmin s')%Z.
Proof using Type.
  destruct (snapshot_xmin_le s) as [Hn Ha].
  destruct 1; apply snapshot_xmin_ge; simpl; try lia; intros y Hy;
    try (apply elem_of_union in Hy as [->%elem_of_singleton|Hy]; [done|]);
    try (apply elem_of_difference in Hy as [Hy _]); by apply Ha.
Qed.

(** ** The invariant *)

(** Where a row is visible so are those before it, at this snapshot and at all later ones. *)
Definition visible_before (xmin : Z) (r s : PgRow) : Prop :=
  ∀ x, (xmin <= x)%Z → stable x s = true → stable x r = true.

Definition below (x : Z) (r : PgRow) : Prop := ∀ y, pg_xact_id r = Some y → (y < x)%Z.

Record cluster_inv (s : PgCluster) : Prop := {
  si_active x : x ∈ cl_active s → (x < cl_next s)%Z;
  si_log : pg_log_inv (cl_tables s);
  si_order : StronglySorted (visible_before (snapshot_xmin s)) (cl_rows s);
  si_below : Forall (below (cl_next s)) (cl_rows s);
  si_writer x t : cl_writer s = Some (x, t) →
    (x < cl_next s)%Z ∧ pg_log_inv t ∧ Forall (below x) (cl_rows s)
    ∧ ∃ new, pt_events t = cl_rows s ++ new ∧ Forall (λ r, pg_xact_id r = Some x) new }.

Lemma visible_before_later x y l :
  (x <= y)%Z → StronglySorted (visible_before x) l → StronglySorted (visible_before y) l.
Proof using Type.
  intros Hxy. apply StronglySorted_mono. intros r s H z Hz. apply H. lia.
Qed.

Lemma below_mono x y l : (x <= y)%Z → Forall (below x) l → Forall (below y) l.
Proof using Type.
  intros Hxy Hl. eapply Forall_impl; [exact Hl|]. intros r H z Hz. specialize (H z Hz). lia.
Qed.

Lemma below_new x l : Forall (λ r, pg_xact_id r = Some x) l → Forall (below (x + 1)) l.
Proof using Type.
  intros Hl. eapply Forall_impl; [exact Hl|]. intros r Hr y. simpl in Hr. rewrite Hr.
  intros [= <-]. lia.
Qed.

(** The rows of a transaction go behind those of smaller numbers. *)
Lemma visible_before_app xmin x l new :
  StronglySorted (visible_before xmin) l → Forall (below x) l →
  Forall (λ r, pg_xact_id r = Some x) new → StronglySorted (visible_before xmin) (l ++ new).
Proof using Type.
  intros Hl Hb Hn. rewrite Forall_forall in Hb, Hn. apply StronglySorted_app. split_and!.
  - intros r s Hr Hs z _. unfold stable. rewrite (Hn s Hs).
    destruct (pg_xact_id r) as [y|] eqn:E; [|done]. specialize (Hb r Hr y E).
    rewrite !Z.ltb_lt. lia.
  - done.
  - clear Hl Hb. induction new as [|r new IH]; constructor.
    + apply IH. intros s Hs. apply Hn. by right.
    + apply Forall_forall. intros s Hs z _. unfold stable. rewrite (Hn r), (Hn s); [done|..].
      * by right.
      * left.
Qed.

Lemma drawn_seq_inv t t' :
  pg_log_inv t → (pt_seq t <= pt_seq t')%Z →
  pg_log_inv (mkPgTables (pt_events t) (pt_writes t) (pt_seq t')).
Proof using Type.
  intros [Hs Hq Hb Hw] Hle. split; cbn [pt_events pt_writes pt_seq]; [done|lia| |].
  - intros r Hr. destruct (Hb r Hr) as [? ?]. split; [done|lia].
  - intros id Hid. specialize (Hw id Hid). lia.
Qed.

Lemma save_requests_seq created x rs t t' results :
  save_requests created x t rs = (t', results) → (pt_seq t <= pt_seq t')%Z.
Proof using Type.
  revert t results. induction rs as [|r rs IH]; intros t results H; cbn [save_requests] in H.
  - injection H as <- _. lia.
  - destruct (save_request created x t r) as [t1 res] eqn:H1.
    destruct (save_requests created x t1 rs) as [t2 ress] eqn:H2. injection H as <- _.
    apply IH in H2.
    destruct (save_request_cases _ _ _ _ _ _ H1) as [(? & _ & -> & _)|(_ & -> & _)]; [done|].
    simpl in H2. lia.
Qed.

(** A save appends rows of its transaction. *)
Lemma save_extends created x requests t outcomes t' :
  requests ≠ [] → Forall good_request requests → pg_log_inv t →
  request_capacity (pt_seq t) requests →
  insert_event_requests created x requests t = (Ok outcomes, t') →
  pg_log_inv t' ∧ (pt_seq t <= pt_seq t')%Z
  ∧ ∃ new, pt_events t' = pt_events t ++ new ∧ Forall (λ r, pg_xact_id r = Some x) new.
Proof.
  intros Hne Hg Hinv Hcap H.
  pose proof (insert_event_requests_refines created x requests t Hne Hg Hinv Hcap) as Href.
  destruct (save_requests created x t requests) as [t1 results] eqn:Hs.
  destruct Href as [Href Hinv']. rewrite Href in H. injection H as _ <-.
  split_and!; [done| |by eapply save_requests_appends].
  by eapply save_requests_seq.
Qed.

Lemma cluster_start_inv s : cluster_start s → cluster_inv s.
Proof using Type.
  intros (Hw & Hlog & Hst & Ha). destruct (snapshot_xmin_le s) as [Hn _]. split; [done|done|..].
  - clear Hlog. unfold cl_rows in *. induction Hst as [|r rows Hr _ IH]; constructor; [done|].
    apply Forall_forall. intros u _ z Hz _. by eapply stable_later.
  - eapply Forall_impl; [exact Hst|]. intros r Hr y Hy. unfold stable in Hr. rewrite Hy in Hr.
    apply Z.ltb_lt in Hr. lia.
  - intros x t. by rewrite Hw.
Qed.

Lemma cluster_step_inv s s' : cluster_step s s' → cluster_inv s → cluster_inv s'.
Proof.
  intros Hstep [Ha Hlog Hord Hb Hw].
  pose proof (λ l, visible_before_later _ _ l (cluster_step_xmin _ _ Hstep)) as Hlater.
  pose proof (λ l, below_mono (cl_next s) (cl_next s + 1) l ltac:(lia)) as Hup.
  destruct Hstep as [s|s x Hx|s created requests outcomes t Hnone Hne Hg Hcap Hins|s x t Hsome
    |s x t Hsome]; unfold cl_rows in *; simpl in *.
  - split; unfold cl_rows; simpl; [|done|by apply Hlater|by apply Hup|].
    + intros y [->%elem_of_singleton|Hy%Ha]%elem_of_union; lia.
    + intros x t (? & ? & ? & ?)%Hw. split_and!; [lia|done..].
  - split; unfold cl_rows; simpl; [|done|by apply Hlater|done|done].
    intros y [Hy _]%elem_of_difference. by apply Ha.
  - destruct (save_extends _ _ _ _ _ _ Hne Hg Hlog Hcap Hins) as (Hlog' & Hseq & Hnew).
    split; unfold cl_rows; simpl; [| |by apply Hlater|by apply Hup|].
    + intros y [->%elem_of_singleton|Hy%Ha]%elem_of_union; lia.
    + by apply drawn_seq_inv.
    + intros x t' [= <- <-]. split_and!; [lia|done..].
  - destruct (Hw x t Hsome) as (Hx & Hlog' & Hbx & new & Hnew & Hnx).
    split; unfold cl_rows; simpl; [|done|..|done].
    + intros y [Hy _]%elem_of_difference. by apply Ha.
    + rewrite Hnew. apply (visible_before_app _ x); [by apply Hlater|done..].
    + rewrite Hnew. apply Forall_app. split; [done|].
      eapply below_mono; [|by apply below_new]. lia.
  - split; unfold cl_rows; simpl; [|done|by apply Hlater|done|done].
    intros y [Hy _]%elem_of_difference. by apply Ha.
Qed.

Lemma cluster_steps_inv s s' : rtc cluster_step s s' → cluster_inv s → cluster_inv s'.
Proof. induction 1; eauto using cluster_step_inv. Qed.

Lemma cluster_steps_xmin s s' :
  rtc cluster_step s s' → (snapshot_xmin s <= snapshot_xmin s')%Z.
Proof using Type. induction 1 as [|s1 s2 s3 ?%cluster_step_xmin _ IH]; lia. Qed.

(** The committed log only grows at its end. *)
Lemma cluster_step_rows s s' : cluster_step s s' → cluster_inv s → cl_rows s `prefix_of` cl_rows s'.
Proof using Type.
  intros Hstep Hinv. destruct Hstep as [| | |s x t Hsome|]; try done.
  destruct (si_writer _ Hinv x t Hsome) as (_ & _ & _ & new & Hnew & _). by exists new.
Qed.

Lemma cluster_steps_rows s s' :
  rtc cluster_step s s' → cluster_inv s → cl_rows s `prefix_of` cl_rows s'.
Proof.
  induction 1 as [|s1 s2 s3 H12 _ IH]; intros Hinv; [done|].
  etrans; [by eapply cluster_step_rows|]. apply IH. by eapply cluster_step_inv.
Qed.

(** ** Reads *)

Lemma visible_prefix xmin rows :
  StronglySorted (visible_before xmin) rows →
  pg_visible xmin Direction_ASC rows `prefix_of` rows.
Proof using Type.
  unfold pg_visible. induction 1 as [|r rows _ IH Hr]; [done|].
  rewrite filter_cons. destruct (decide (stable xmin r = true)) as [|Hn].
  - by apply prefix_cons.
  - rewrite list_filter_none; [apply prefix_nil|].
    intros s Hs Hst. rewrite Forall_forall in Hr. apply Hn, (Hr s Hs); [lia|done].
Qed.

Lemma visible_grows s s' :
  cluster_inv s → (snapshot_xmin s <= snapshot_xmin s')%Z →
  cl_rows s `prefix_of` cl_rows s' →
  pg_visible (snapshot_xmin s) Direction_ASC (cl_rows s)
    `prefix_of` pg_visible (snapshot_xmin s') Direction_ASC (cl_rows s').
Proof using Type.
  intros Hinv Hle [new ->]. destruct (visible_prefix _ _ (si_order _ Hinv)) as [rest Hrest].
  rewrite Hrest at 2. unfold pg_visible at 2. rewrite !filter_app. unfold pg_visible at 2.
  rewrite (list_filter_all (λ r, stable (snapshot_xmin s') r = true)
    (filter (λ r, stable (snapshot_xmin s) r = true) (cl_rows s))).
  - rewrite <-app_assoc. by eexists.
  - intros r [Hr _]%list_elem_of_filter. by eapply stable_later.
Qed.

Lemma prefix_filter {A} (Q : A → Prop) `{!∀ x, Decision (Q x)} (l k : list A) :
  l `prefix_of` k → filter Q l `prefix_of` filter Q k.
Proof using Type. intros [m ->]. rewrite filter_app. by eexists. Qed.

Lemma prefix_take_mono {A} n (l k : list A) : l `prefix_of` k → take n l `prefix_of` take n k.
Proof using Type. intros [m ->]. rewrite take_app. by eexists. Qed.

(** With no transaction in flight nothing is hidden. *)
Lemma idle_visible s :
  cluster_inv s → cl_active s = ∅ →
  pg_visible (snapshot_xmin s) Direction_ASC (cl_rows s) = cl_rows s.
Proof using Type.
  intros Hinv Hidle. unfold pg_visible, snapshot_xmin. rewrite Hidle, elements_empty. simpl.
  apply list_filter_all. intros r Hr. unfold stable.
  destruct (pg_xact_id r) as [x|] eqn:E; [|done]. apply Z.ltb_lt.
  pose proof (si_below _ Hinv) as Hb. rewrite Forall_forall in Hb. by apply (Hb r).
Qed.

(** C10: an ascending reader on PostgreSQL misses nothing. Transactions of the server begin and
end, and saves run under the lock of the boundary, commit and roll back, in any order. What an
ascending read of criteria from a position returns holds no row of a transaction that is not
older than every transaction in flight; the same read at any later time returns it again,
followed by more, so no event appears before one that was already read; and when no transaction
is in flight it returns all matching events up to the limit. *)
Theorem pg_reads_grow s0 s s' criteria from count l :
  cluster_start s0 → rtc cluster_step s0 s → rtc cluster_step s s' →
  get_matching_events (snapshot_xmin s) criteria from Direction_ASC count (cl_rows s) = Ok l →
  (∀ r x y, r ∈ l → pg_xact_id r = Some x → y ∈ cl_active s → (x < y)%Z)
  ∧ ∃ w l', criteria_sql criteria = Ok w
    ∧ get_matching_events (snapshot_xmin s') criteria from Direction_ASC count (cl_rows s') = Ok l'
    ∧ l `prefix_of` l'
    ∧ (cl_active s' = ∅ →
       l' = take (Z.to_nat (Z.min (Z.max count 1) 10000))
              (pg_matching (clause_true w) Direction_ASC from (cl_rows s'))).
Proof.
  intros Hstart H0 H1 Hget.
  assert (cluster_inv s) as Hinv by by eapply cluster_steps_inv, cluster_start_inv.
  assert (cluster_inv s') as Hinv' by by eapply cluster_steps_inv.
  destruct (criteria_sql criteria) as [w|] eqn:Hw.
  2:{ unfold get_matching_events in Hget. by rewrite Hw in Hget. }
  unfold cl_rows in *.
  rewrite (get_matching_events_log _ _ _ _ _ _ _ (si_log _ Hinv) Hw) in Hget. injection Hget as <-.
  rewrite (get_matching_events_log _ _ _ _ _ _ _ (si_log _ Hinv') Hw). split.
  - intros r x y Hr Hx Hy. apply elem_of_take in Hr as (i & Hi%list_elem_of_lookup_2 & _).
    apply list_elem_of_filter in Hi as [_ [Hst _]%list_elem_of_filter]. unfold stable in Hst.
    rewrite Hx in Hst. apply Z.ltb_lt in Hst. pose proof (proj2 (snapshot_xmin_le s) y Hy). lia.
  - eexists w, _. split_and!; [done..| |].
    + apply prefix_take_mono. cbn [pg_ordered]. apply prefix_filter.
      apply visible_grows; eauto using cluster_steps_xmin, cluster_steps_rows.
    + intros Hidle. cbn [pg_ordered].
      pose proof (idle_visible _ Hinv' Hidle) as Hall. unfold cl_rows in Hall. by rewrite Hall.
Qed.

End Snapshot.

(** ** A run *)

Section Witness.
#[local] Existing Instances example_json example_stored_json example_postgres pg_text.

Definition example_pg_first : PgTables :=
  (insert_event_requests "now" 7 (take 1 example_pg_requests) empty_pg_tables).2.
Definition example_pg_again : PgTables :=
  (insert_event_requests "later" 9 (drop 2 example_pg_requests) example_pg_first).2.

(** Transaction 7 saved; 8, of something else, is in flight; 9 saved after it. *)
Definition example_cluster (active : gset Z) : PgCluster :=
  mkPgCluster 10 active example_pg_again None.

Lemma example_cluster_start : cluster_start (mkPgCluster 7 ∅ empty_pg_tables None).
Proof.
  split_and!; [done|apply pg_log_inv_empty|by constructor|]. intros x Hx. by apply not_elem_of_empty in Hx.
Qed.

Lemma example_cluster_run :
  rtc cluster_step (mkPgCluster 7 ∅ empty_pg_tables None) (example_cluster {[ 8%Z ]}).
Proof.
  eapply rtc_l.
  { eapply (step_save (mkPgCluster 7 ∅ empty_pg_tables None) "now" (take 1 example_pg_requests) _
      example_pg_first); [done|done|apply Forall_take, example_requests_good|vm_compute; discriminate|].
    vm_compute. reflexivity. }
  eapply rtc_l; [by eapply step_commit|]. eapply rtc_l; [eapply step_begin|]. eapply rtc_l.
  { eapply (step_save _ "later" (drop 2 example_pg_requests) _ example_pg_again);
      [done|done|apply Forall_drop, example_requests_good|vm_compute; discriminate|].
    vm_compute. reflexivity. }
  eapply rtc_l; [by eapply step_commit|].
  match goal with |- rtc _ ?a ?b => replace a with b; [apply rtc_refl|] end.
  reflexivity.
Qed.

Lemma pg_reads_grow_witness :
  ∃ l l', get_matching_events 8 None None Direction_ASC 100 (pt_events example_pg_again) = Ok l
    ∧ get_matching_events 10 None None Direction_ASC 100 (pt_events example_pg_again) = Ok l'
    ∧ length l = 2 ∧ length l' = 3 ∧ l `prefix_of` l'.
Proof.
  destruct (get_matching_events 8 None None Direction_ASC 100 (pt_events example_pg_again))
    as [l|] eqn:El; [|vm_compute in El; discriminate El].
  destruct (@pg_reads_grow example_postgres example_postgres_laws _ _ (example_cluster ∅) None None
    100 l example_cluster_start example_cluster_run) as [_ (w & l' & _ & Hl' & Hp & _)].
  - eapply rtc_l; [by apply (step_end _ 8)|].
    match goal with |- rtc _ ?a ?b => replace a with b; [apply rtc_refl|] end.
    reflexivity.
  - exact El.
  - exists l, l'. change (snapshot_xmin (example_cluster ∅)) with 10%Z in Hl'.
    split; [reflexivity|]. split; [exact Hl'|]. split; [|split; [|exact Hp]].
    + vm_compute in El. injection El as <-. reflexivity.
    + vm_compute in Hl'. injection Hl' as <-. reflexivity.
Defined.

End Witness.
