(* ===== verification/PgMigration.v ===== *)
(** * Storage of boundaries on PostgreSQL: [postgres/migration.go],
[postgres/storage_migration.go], [postgres/boundary_provisioner.go],
[postgres/boundary_registry.go]

A boundary is migrated in three transactions: its schema, the SQL functions, its tables. The
provisioner migrates a boundary and registers it for the SQL adapters of the process. *)

From stdpp Require Import options.
From S2P Require Import Prelude Status Model Number Json Predicates Consistency EventData.
From S2P Require Import WriteContext SqlPredicates Sql SqliteStore SqliteLog GroupCommit.
From S2P Require Import SqliteRead SqliteIndex EventStore Neutral Catalog Boundaries.
From S2P Require Import PgPredicates PgInsert PgLog PgStore.

Set Default Proof Using "Type*".

(** ** The server *)

(** The relations of a boundary: the version table with the version in its row, the log with
its writes, whether the sequence of the log is there, the position table of version 4, the other
tables (index metadata, counts, checkpoints), the admin tables. *)
Record PgStorage := mkPgStorage {
  sg_versions : option (option Z);
  sg_tables : option PgTables;
  sg_sequence : bool;
  sg_published : bool;
  sg_others : bool;
  sg_admin : bool }.

Definition empty_storage : PgStorage := mkPgStorage None None false false false false.

(** The schemas, those in which the functions are defined, and the relations by schema and
boundary. *)
Record PgServer := mkPgServer {
  sv_schemas : gset string;
  sv_functions : gset string;
  sv_adminFunctions : gset string;
  sv_storage : gmap (string * string) PgStorage }.

Definition storage (s : PgServer) (schema boundary : string) : PgStorage :=
  default empty_storage (sv_storage s !! (schema, boundary)).
Definition set_storage (schema boundary : string) (st : PgStorage) (s : PgServer) : PgServer :=
  mkPgServer (sv_schemas s) (sv_functions s) (sv_adminFunctions s)
    (<[(schema, boundary) := st]> (sv_storage s)).

(** An identifier without quotes is folded to lower case. *)
Definition unquoted (name : string) : string := fold_ascii name.

(** Identifiers are cut after 63 bytes, also those in quotes. *)
Definition relation_name (boundary suffix : string) : string :=
  String.substring 0 63 (boundary +:+ suffix).

Definition no_schema : goerror := PlainError "schema does not exist".
Definition no_function : goerror := PlainError "function does not exist".

(** A transaction: without effect, or with all of its effects. *)
Definition run_tx (fault : pg_fault) (f : PgServer → result PgServer) (s : PgServer)
  : result unit * PgServer :=
  match fault with
  | Some (e, false) => (Err e, s)
  | _ =>
      match f s with
      | Err e => (Err e, s)
      | Ok s' => match fault with Some (e, _) => (Err e, s') | None => (Ok tt, s') end
      end
  end.

(** [fmt.Errorf] around an error. *)
Definition wrap_error {A} (message : string) (r : result unit * A) : result unit * A :=
  match r with
  | (Err e, s) => (Err (Wrapped message e), s)
  | (Ok u, s) => (Ok u, s)
  end.

Section Migration.
Context `{P : Postgres}.

(** ** [postgres/migration.go] *)

(** A name that [CREATE SCHEMA] takes without quotes: not a keyword that is reserved, and not
one of the server's own. *)
Definition creatable (schema : string) : bool :=
  negb (schema_keyword (unquoted schema)) && negb (HasPrefix (unquoted schema) "pg_").

Definition createSchemaIfNotExists (fault : pg_fault) (schema : string) (s : PgServer)
  : result unit * PgServer :=
  run_tx fault (λ s,
    if schema_keyword (unquoted schema) then Err (PlainError "syntax error at or near")
    else if HasPrefix (unquoted schema) "pg_" then Err (PlainError "unacceptable schema name")
    else Ok (mkPgServer ({[ unquoted schema ]} ∪ sv_schemas s) (sv_functions s)
               (sv_adminFunctions s) (sv_storage s))) s.

(** [CREATE OR REPLACE FUNCTION] in the schema of the search path, which is "public" or one that
[CREATE SCHEMA] took before. *)
Definition executeSQLScripts (fault : pg_fault) (admin : bool) (schema : string) (s : PgServer)
  : result unit * PgServer :=
  run_tx fault (λ s,
    if decide (unquoted schema ∈ sv_schemas s) then
      Ok (if admin
          then mkPgServer (sv_schemas s) (sv_functions s)
                 ({[ unquoted schema ]} ∪ sv_adminFunctions s) (sv_storage s)
          else mkPgServer (sv_schemas s) ({[ unquoted schema ]} ∪ sv_functions s)
                 (sv_adminFunctions s) (sv_storage s))
    else Err (PlainError "no schema has been selected to create in")) s.

Definition ensureFunctionsDefined (fault : pg_fault) (schema : string) (s : PgServer)
  : result unit * PgServer :=
  wrap_error "failed to execute common SQL scripts: %w" (executeSQLScripts fault false schema s).

(** ** [postgres/storage_migration.go] *)

Definition boundarySchemaVersion : Z := 5.

Definition requireBoundaryStorage (schema boundary : string) (s : PgServer) : result PgServer :=
  let st := storage s schema boundary in
  match sg_versions st with
  | Some None => Err (PlainError "sql: no rows in result set")
  | Some (Some version) =>
      if (version =? 4)%Z then
        Ok (set_storage schema boundary
              (mkPgStorage (Some (Some boundarySchemaVersion)) (sg_tables st) (sg_sequence st)
                 false (sg_others st) (sg_admin st)) s)
      else if negb (version =? boundarySchemaVersion)%Z
      then Err (PlainError "unsupported boundary schema version %d; required version %d")
      else Ok s
  | None =>
      match sg_tables st with
      | Some _ => Err (PlainError "unsupported unversioned boundary storage; refusing to convert existing events")
      | None =>
          if decide (schema ∈ sv_schemas s) then
            Ok (set_storage schema boundary
                  (mkPgStorage (Some (Some boundarySchemaVersion)) None (sg_sequence st)
                     (sg_published st) (sg_others st) (sg_admin st)) s)
          else Err no_schema
      end
  end.

(** [initialize_boundary_tables]: what is there is kept, except the transaction numbers of
another cluster; [xid] is the number of the transaction. A relation whose name is taken is not
created, whatever has the name: where the names of the tables of writes and of events are cut to
the same one, the first has no column for the numbers; where the name of the sequence is cut to
that of the events there is no sequence. *)
Definition forget_xid (xid : Z) (r : PgRow) : PgRow :=
  match pg_xact_id r with
  | Some x => if (xid <=? x)%Z then mkPgRow None (pg_data r) else r
  | None => r
  end.

Definition initialize_boundary_tables (xid : Z) (boundary schema : string) (s : PgServer)
  : result PgServer :=
  match validateBoundaryName boundary with
  | Err _ => raise "Invalid boundary name"
  | Ok _ =>
      if decide (schema ∈ sv_schemas s) then
        let st := storage s schema boundary in
        let t := default empty_pg_tables (sg_tables st) in
        let events := relation_name boundary "_orisun_es_event" in
        if String.eqb (relation_name boundary "_orisun_es_write") events
        then raise "column pg_xact_id does not exist"
        else
          let sequence := relation_name boundary "_orisun_es_event_global_id_seq" in
          Ok (set_storage schema boundary
                (mkPgStorage (sg_versions st)
                   (Some (mkPgTables (forget_xid xid <$> pt_events t) (pt_writes t) (pt_seq t)))
                   (sg_sequence st || negb (String.eqb sequence events))
                   (sg_published st) true (sg_admin st)) s)
      else Err no_schema
  end.

Definition initialize_admin_tables (boundary schema : string) (s : PgServer) : result PgServer :=
  match validateBoundaryName boundary with
  | Err _ => raise "Invalid boundary name"
  | Ok _ =>
      if decide (schema ∈ sv_schemas s) then
        let st := storage s schema boundary in
        Ok (set_storage schema boundary
              (mkPgStorage (sg_versions st) (sg_tables st) (sg_sequence st) (sg_published st)
                 (sg_others st) true) s)
      else Err no_schema
  end.

(** A call of a function without its schema. *)
Definition call_function (defined : gset string) (schema : string)
    (f : PgServer → result PgServer) (s : PgServer) : result PgServer :=
  if decide (unquoted schema ∈ defined) then f s else Err no_function.

(** The part of the transaction that every boundary has. *)
Definition create_tables (xid : Z) (boundary schema : string) (s : PgServer) : result PgServer :=
  s ← requireBoundaryStorage schema boundary s;
  call_function (sv_functions s) schema (initialize_boundary_tables xid boundary schema) s.

(** The scripts of the admin functions run in a transaction of their own, inside that of the
tables: their functions are there for it, and stay when it fails. [early] is an error before
them, [fault] one of the rest. *)
Definition initializeBoundaryTables (early : option goerror) (fault adminFault : pg_fault)
    (xid : Z) (boundary schema : string) (isAdminSchema : bool) (s : PgServer)
  : result unit * PgServer :=
  if isAdminSchema then
    match early, create_tables xid boundary schema s with
    | Some e, _ | None, Err e => (Err e, s)
    | None, Ok _ =>
        match wrap_error "failed to load admin scripts: %w"
                (executeSQLScripts adminFault true schema s) with
        | (Err e, s) => (Err e, s)
        | (Ok _, s) =>
            run_tx fault (λ s,
              s ← create_tables xid boundary schema s;
              call_function (sv_adminFunctions s) schema (initialize_admin_tables boundary schema) s) s
        end
    end
  else run_tx fault (create_tables xid boundary schema) s.

Record migration_faults := mkMigrationFaults {
  mf_schema : pg_fault; mf_functions : pg_fault; mf_early : option goerror;
  mf_tables : pg_fault; mf_admin : pg_fault }.

Definition RunDbScripts (f : migration_faults) (xid : Z) (boundary schema : string)
    (isAdminSchema : bool) (s : PgServer) : result unit * PgServer :=
  match validateBoundaryName boundary with
  | Err e => (Err (Wrapped "invalid boundary name %s: %w" e), s)
  | Ok _ =>
      match (if String.eqb schema "public" then (Ok tt, s)
             else wrap_error "failed to create schema %s: %w"
                    (createSchemaIfNotExists (mf_schema f) schema s)) with
      | (Err e, s) => (Err e, s)
      | (Ok _, s) =>
          match wrap_error "failed to ensure functions are defined: %w"
                  (ensureFunctionsDefined (mf_functions f) schema s) with
          | (Err e, s) => (Err e, s)
          | (Ok _, s) =>
              wrap_error "failed to initialize tables for boundary %s: %w"
                (initializeBoundaryTables (mf_early f) (mf_tables f) (mf_admin f) xid boundary
                   schema isAdminSchema s)
          end
      end
  end.

(** ** [postgres/boundary_provisioner.go] *)

Record PostgresBoundaryProvisioner := mkPgProvisioner {
  pv_registry : option BoundaryRegistry; pv_migrated : gmap string string }.

Definition NewPostgresBoundaryProvisioner (registry : option BoundaryRegistry)
  : PostgresBoundaryProvisioner := mkPgProvisioner registry ∅.

Definition postgresPlacement (definition : Definition_) : result string :=
  if negb (String.eqb (ToLower (TrimSpace (Backend (Def_Placement definition)))) "postgres")
  then Err (PlainError "boundary %s uses unsupported backend %q")
  else match validateBoundaryName (Def_Name definition) with
       | Err e => Err (Wrapped "invalid boundary name %s: %w" e)
       | Ok _ =>
           let schema := Namespace (Def_Placement definition) in
           match validateBoundaryName schema with
           | Err e => Err (Wrapped "invalid schema name %s: %w" e)
           | Ok _ => Ok schema
           end
       end.

Definition not_configured : goerror := PlainError "postgres boundary provisioner is not configured".

Definition set_migrated (p : PostgresBoundaryProvisioner) (boundary schema : string)
  : PostgresBoundaryProvisioner :=
  mkPgProvisioner (pv_registry p) (<[boundary := schema]> (pv_migrated p)).

(** [p.migrate]; [f] and [xid] are what the migration meets. *)
Definition migrate (f : migration_faults) (xid : Z) (boundary schema : string) (s : PgServer)
  : result unit * PgServer := RunDbScripts f xid boundary schema false s.

Definition ProvisionBoundary (f : migration_faults) (xid : Z) (definition : Definition_)
    (p : PostgresBoundaryProvisioner) (s : PgServer)
  : result unit * (PostgresBoundaryProvisioner * PgServer) :=
  match pv_registry p, postgresPlacement definition with
  | None, _ => (Err not_configured, (p, s))
  | Some _, Err e => (Err e, (p, s))
  | Some _, Ok schema =>
      match migrate f xid (Def_Name definition) schema s with
      | (Err e, s) => (Err (Wrapped "migrate boundary %s in schema %s: %w" e), (p, s))
      | (Ok _, s) => (Ok tt, (set_migrated p (Def_Name definition) schema, s))
      end
  end.

Definition register_boundary (p : PostgresBoundaryProvisioner) (r : BoundaryRegistry)
    (boundary schema : string) : result unit * PostgresBoundaryProvisioner :=
  let '(res, r) := Register boundary schema r in
  wrap_error "register boundary %s: %w" (res, mkPgProvisioner (Some r) (pv_migrated p)).

(** The lock of the registry is held from the second look at it: the two agree. *)
Definition InstallBoundary (f : migration_faults) (xid : Z) (definition : Definition_)
    (p : PostgresBoundaryProvisioner) (s : PgServer)
  : result unit * (PostgresBoundaryProvisioner * PgServer) :=
  match pv_registry p, postgresPlacement definition with
  | None, _ => (Err not_configured, (p, s))
  | Some _, Err e => (Err e, (p, s))
  | Some r, Ok schema =>
      let boundary := Def_Name definition in
      match r !! boundary with
      | Some _ =>
          let '(res, p) := register_boundary p r boundary schema in (res, (p, s))
      | None =>
          let '(res, (p, s)) :=
            if decide (pv_migrated p !! boundary = Some schema) then (Ok tt, (p, s))
            else match migrate f xid boundary schema s with
                 | (Err e, s) => (Err (Wrapped "migrate boundary %s in schema %s: %w" e), (p, s))
                 | (Ok _, s) => (Ok tt, (set_migrated p boundary schema, s))
                 end in
          match res with
          | Err e => (Err e, (p, s))
          | Ok _ => let '(res, p) := register_boundary p r boundary schema in (res, (p, s))
          end
      end
  end.

(** ** What a migration keeps *)

(** The same events, contexts of writes and next number; transaction numbers may differ. *)
Definition same_log (t t' : PgTables) : Prop :=
  pg_data <$> pt_events t' = pg_data <$> pt_events t ∧ pt_writes t' = pt_writes t
  ∧ pt_seq t' = pt_seq t.

#[export] Instance same_log_preorder : PreOrder same_log.
Proof. split; [by intros t|]. intros t t' t'' (? & ? & ?) (? & ? & ?). split_and!; congruence. Qed.

Definition log_of (st : PgStorage) : PgTables := default empty_pg_tables (sg_tables st).

(** Nothing but the relations of the boundary changes, and its log is kept. *)
Record keeps (schema boundary : string) (s s' : PgServer) : Prop := {
  kp_others k : k ≠ (schema, boundary) → sv_storage s' !! k = sv_storage s !! k;
  kp_log : same_log (log_of (storage s schema boundary)) (log_of (storage s' schema boundary));
  kp_schemas : sv_schemas s ⊆ sv_schemas s' }.

#[export] Instance keeps_preorder schema boundary : PreOrder (keeps schema boundary).
Proof.
  split; [by intros s|]. intros s s' s'' [H1 L1 S1] [H2 L2 S2]. split.
  - intros k Hk. by rewrite H2, H1.
  - by etrans.
  - by etrans.
Qed.

Lemma storage_set schema boundary st s :
  storage (set_storage schema boundary st s) schema boundary = st.
Proof. unfold storage, set_storage. simpl. by rewrite lookup_insert_eq. Qed.

Lemma keeps_set schema boundary st s :
  same_log (log_of (storage s schema boundary)) (log_of st) →
  keeps schema boundary s (set_storage schema boundary st s).
Proof.
  intros H. split; simpl; [|by rewrite storage_set|done].
  intros k Hk. by rewrite lookup_insert_ne.
Qed.

(** Only the schemas and the functions change. *)
Lemma keeps_storage schema boundary s s' :
  sv_storage s' = sv_storage s → sv_schemas s ⊆ sv_schemas s' → keeps schema boundary s s'.
Proof. intros H ?. split; [by intros k _; rewrite H| |done]. unfold storage. by rewrite H. Qed.

Lemma run_tx_cases fault f s r s' :
  run_tx fault f s = (r, s') →
  (s' = s ∧ (∃ e, r = Err e) ∨ f s = Ok s') ∧ (r = Ok tt → f s = Ok s')
  ∧ ((∃ e, f s = Err e) → s' = s ∧ ∃ e, r = Err e).
Proof.
  unfold run_tx. destruct fault as [[e []]|], (f s) as [s1|e1]; intros [= <- <-];
    split_and!; naive_solver.
Qed.

Lemma wrap_error_inv {A} m (x : result unit * A) r s :
  wrap_error m x = (r, s) → x.2 = s ∧ (r = Ok tt ↔ x.1 = Ok tt).
Proof. destruct x as [[[]|e] s']; simpl; intros [= <- <-]; naive_solver. Qed.

Lemma wrap_error_Ok {A} m (x : result unit * A) s :
  wrap_error m x = (Ok tt, s) → x = (Ok tt, s).
Proof. destruct x as [[[]|e] s']; simpl; by intros [= <-]. Qed.

(** A boundary that the current version can serve. *)
Definition ready (s : PgServer) (schema boundary : string) : Prop :=
  sg_versions (storage s schema boundary) = Some (Some boundarySchemaVersion)
  ∧ is_Some (sg_tables (storage s schema boundary)).

(** Storage that a migration takes over: none, the previous version or the current one. *)
Definition supported (st : PgStorage) : Prop :=
  (sg_versions st = None ∧ sg_tables st = None)
  ∨ sg_versions st = Some (Some 4%Z) ∨ sg_versions st = Some (Some boundarySchemaVersion).

Lemma require_keeps schema boundary s s' :
  requireBoundaryStorage schema boundary s = Ok s' →
  keeps schema boundary s s'
  ∧ sg_versions (storage s' schema boundary) = Some (Some boundarySchemaVersion)
  ∧ supported (storage s schema boundary).
Proof.
  unfold requireBoundaryStorage, supported. intros H.
  destruct (sg_versions (storage s schema boundary)) as [[version|]|] eqn:Hv; [|done|].
  - destruct (Z.eqb_spec version 4) as [->|].
    + injection H as <-. rewrite storage_set. split_and!; [by apply keeps_set|done|tauto].
    + destruct (Z.eqb_spec version boundarySchemaVersion) as [->|]; [|done].
      injection H as <-. split_and!; [done|done|tauto].
  - destruct (sg_tables (storage s schema boundary)) as [t|] eqn:Ht; [done|].
    case_decide; [|done]. injection H as <-.
    rewrite storage_set. split_and!; [|done|tauto]. apply keeps_set. unfold log_of. by rewrite Ht.
Qed.

Lemma forget_xid_data xid (rows : list PgRow) : pg_data <$> (forget_xid xid <$> rows) = pg_data <$> rows.
Proof.
  rewrite <-list_fmap_compose. apply list_fmap_ext. intros i r _. unfold compose, forget_xid.
  by repeat case_match.
Qed.

Lemma initialize_keeps xid boundary schema s s' :
  initialize_boundary_tables xid boundary schema s = Ok s' →
  keeps schema boundary s s' ∧ is_Some (sg_tables (storage s' schema boundary))
  ∧ sg_versions (storage s' schema boundary) = sg_versions (storage s schema boundary)
  ∧ schema ∈ sv_schemas s.
Proof.
  unfold initialize_boundary_tables. intros H. destruct (validateBoundaryName boundary); [|done].
  case_decide; [|done]. destruct (String.eqb _ _); [done|]. injection H as <-.
  rewrite storage_set. split_and!; [|by eexists|done|done].
  apply keeps_set. split_and!; [|done|done]. apply forget_xid_data.
Qed.

Lemma initialize_admin_keeps boundary schema s s' :
  initialize_admin_tables boundary schema s = Ok s' →
  keeps schema boundary s s'
  ∧ sg_tables (storage s' schema boundary) = sg_tables (storage s schema boundary)
  ∧ sg_versions (storage s' schema boundary) = sg_versions (storage s schema boundary).
Proof.
  unfold initialize_admin_tables. intros H. destruct (validateBoundaryName boundary); [|done].
  case_decide; [|done]. injection H as <-. rewrite storage_set. split_and!; [|done|done].
  by apply keeps_set.
Qed.


Lemma create_tables_keeps xid boundary schema s s' :
  create_tables xid boundary schema s = Ok s' →
  keeps schema boundary s s' ∧ ready s' schema boundary ∧ schema ∈ sv_schemas s
  ∧ supported (storage s schema boundary).
Proof.
  unfold create_tables. intros (s1 & H1 & H2)%result_bind_ok.
  destruct (require_keeps _ _ _ _ H1) as (Hk & Hv & Hs).
  unfold call_function in H2. case_decide; [|done].
  destruct (initialize_keeps _ _ _ _ _ H2) as (Hk2 & Ht & Hv2 & Hin).
  split_and!; [by etrans| | |done].
  - split; [by rewrite Hv2|done].
  - assert (sv_schemas s1 = sv_schemas s) as <-; [|done]. clear -H1.
    unfold requireBoundaryStorage in H1. repeat case_match; by simplify_eq.
Qed.

(** What every step of a migration keeps: the log, and the storage when it is refused. *)
Definition migrates (schema boundary : string) (s s' : PgServer) : Prop :=
  keeps schema boundary s s'
  ∧ (¬ supported (storage s schema boundary) → sv_storage s' = sv_storage s)
  ∧ (ready s schema boundary → ready s' schema boundary).

#[export] Instance migrates_refl schema boundary : Reflexive (migrates schema boundary).
Proof. by intros s. Qed.
#[export] Instance migrates_trans schema boundary : Transitive (migrates schema boundary).
Proof.
  intros s s' s'' (K1 & U1 & R1) (K2 & U2 & R2). split_and!; [by etrans| |by auto].
  intros Hn. rewrite U2; [by apply U1|]. unfold storage. by rewrite U1.
Qed.

Lemma migrates_storage schema boundary s s' :
  sv_storage s' = sv_storage s → sv_schemas s ⊆ sv_schemas s' → migrates schema boundary s s'.
Proof.
  intros H ?. split_and!; [by apply keeps_storage|done|]. unfold ready, storage. by rewrite H.
Qed.

Lemma scripts_migrates fault admin schema boundary s r s' :
  executeSQLScripts fault admin schema s = (r, s') → migrates schema boundary s s'.
Proof.
  intros (H & _ & _)%run_tx_cases. destruct H as [[-> _]|H]; [done|].
  case_decide; [|done]. injection H as <-. by destruct admin; apply migrates_storage.
Qed.

Lemma initialize_tables_migrates early fault adminFault xid boundary schema isAdmin s r s' :
  initializeBoundaryTables early fault adminFault xid boundary schema isAdmin s = (r, s') →
  migrates schema boundary s s' ∧ (r = Ok tt → ready s' schema boundary).
Proof.
  unfold initializeBoundaryTables. destruct isAdmin.
  - destruct early as [e|]; [by intros [= <- <-]|].
    destruct (create_tables xid boundary schema s) as [s0|e] eqn:H0; [|by intros [= <- <-]].
    destruct (wrap_error _ (executeSQLScripts adminFault true schema s)) as [r1 s1] eqn:H1.
    apply wrap_error_inv in H1 as [H1 _].
    assert (migrates schema boundary s s1) as Hm1.
    { destruct (executeSQLScripts adminFault true schema s) eqn:E. simpl in H1. subst.
      by eapply scripts_migrates. }
    destruct r1 as [[]|e]; [|by intros [= <- <-]]. intros (H & Hok & _)%run_tx_cases.
    assert (∀ s2, (s1 ← create_tables xid boundary schema s1;
       call_function (sv_adminFunctions s1) schema (initialize_admin_tables boundary schema) s1) = Ok s2 →
       migrates schema boundary s1 s2 ∧ ready s2 schema boundary) as Hstep.
    { intros s2 (s3 & H3 & H4)%result_bind_ok.
      destruct (create_tables_keeps _ _ _ _ _ H3) as (Hk & [Hv Ht] & _ & Hs).
      unfold call_function in H4. case_decide; [|done].
      destruct (initialize_admin_keeps _ _ _ _ H4) as (Hk4 & Ht4 & Hv4).
      assert (ready s2 schema boundary) by (split; [by rewrite Hv4|by rewrite Ht4]).
      split; [split_and!; [by etrans|done..]|done]. }
    split; [|intros ->; by apply Hstep, Hok]. destruct H as [[-> _]|H]; [done|].
    etrans; [exact Hm1|]. by apply Hstep.
  - intros (H & Hok & _)%run_tx_cases.
    assert (∀ s2, create_tables xid boundary schema s = Ok s2 →
       migrates schema boundary s s2 ∧ ready s2 schema boundary) as Hstep.
    { intros s2 (Hk & Hr & _ & Hs)%create_tables_keeps. split; [|done]. by split_and!. }
    split; [|intros ->; by apply Hstep, Hok]. destruct H as [[-> _]|H]; [done|]. by apply Hstep.
Qed.

Lemma RunDbScripts_migrates f xid boundary schema isAdmin s r s' :
  RunDbScripts f xid boundary schema isAdmin s = (r, s') →
  migrates schema boundary s s' ∧ (r = Ok tt → ready s' schema boundary).
Proof.
  unfold RunDbScripts. destruct (validateBoundaryName boundary); [|by intros [= <- <-]].
  destruct (if String.eqb schema "public" then _ else _) as [r1 s1] eqn:H1.
  assert (migrates schema boundary s s1) as Hm1.
  { destruct (String.eqb schema "public"); [by injection H1 as <- <-|].
    apply wrap_error_inv in H1 as [<- _].
    destruct (createSchemaIfNotExists (mf_schema f) schema s) as [r0 s0] eqn:E. simpl.
    apply run_tx_cases in E as (H & _ & _). destruct H as [[-> _]|H]; [done|].
    repeat case_match; simplify_eq. apply migrates_storage; [done|]. simpl. set_solver. }
  destruct r1 as [[]|e]; [|by intros [= <- <-]].
  destruct (wrap_error _ (ensureFunctionsDefined (mf_functions f) schema s1)) as [r2 s2] eqn:H2.
  apply wrap_error_inv in H2 as [H2 _].
  assert (migrates schema boundary s1 s2) as Hm2.
  { unfold ensureFunctionsDefined in H2.
    destruct (wrap_error _ (executeSQLScripts (mf_functions f) false schema s1)) as [r0 s0] eqn:E.
    simpl in H2. subst s0. apply wrap_error_inv in E as [<- _].
    destruct (executeSQLScripts (mf_functions f) false schema s1) eqn:E. simpl.
    by eapply scripts_migrates. }
  destruct r2 as [[]|e]; [|intros [= <- <-]; split; [by etrans|done]].
  intros [H Hok]%wrap_error_inv.
  destruct (initializeBoundaryTables _ _ _ _ _ _ _ s2) as [r3 s3] eqn:E. simpl in *. subst s3.
  destruct (initialize_tables_migrates _ _ _ _ _ _ _ _ _ _ E) as [Hm3 Hr].
  split; [by do 2 (etrans; [done|])|]. intros Hr0. apply Hr. by apply Hok.
Qed.

Lemma migrates_ready schema boundary s s' schema' boundary' :
  migrates schema boundary s s' → ready s schema' boundary' → ready s' schema' boundary'.
Proof.
  intros (Hk & _ & Hr). destruct (decide ((schema', boundary') = (schema, boundary))) as [[= -> ->]|Hne].
  - done.
  - unfold ready, storage. by rewrite (kp_others _ _ _ _ Hk _ Hne).
Qed.

Definition no_migration_faults : migration_faults := mkMigrationFaults None None None None None.

(** ** When a migration succeeds *)

(** Cut names of boundaries of up to 46 bytes. *)
Lemma substring_app n (a b : string) :
  String.length a ≤ n → String.substring 0 n (a +:+ b) = a +:+ String.substring 0 (n - String.length a) b.
Proof using Type.
  revert n. induction a as [|c a IH]; intros n H; [by rewrite Nat.sub_0_r|].
  destruct n as [|n]; simpl in *; [lia|]. by rewrite IH by lia.
Qed.

Lemma relation_names_eq boundary x y :
  String.length boundary ≤ 63 →
  String.eqb (relation_name boundary x) (relation_name boundary y)
  = String.eqb (String.substring 0 (63 - String.length boundary) x)
      (String.substring 0 (63 - String.length boundary) y).
Proof using Type.
  intros H. unfold relation_name. rewrite !substring_app by done.
  destruct (String.eqb_spec (String.substring 0 (63 - String.length boundary) x)
    (String.substring 0 (63 - String.length boundary) y)) as [->|Hne].
  - apply String.eqb_refl.
  - apply String.eqb_neq. intros E. by apply (inj (String.append boundary)) in E.
Qed.

Lemma relation_names_distinct boundary :
  String.length boundary ≤ 46 →
  String.eqb (relation_name boundary "_orisun_es_write") (relation_name boundary "_orisun_es_event")
    = false
  ∧ String.eqb (relation_name boundary "_orisun_es_event_global_id_seq")
      (relation_name boundary "_orisun_es_event") = false.
Proof using Type.
  intros H. rewrite !relation_names_eq by lia.
  revert H. generalize (String.length boundary). intros n H.
  do 47 (destruct n as [|n]; [by vm_compute|]). lia.
Qed.

Lemma validated_length boundary :
  validateBoundaryName boundary = Ok tt → String.length boundary ≤ 63.
Proof using Type.
  unfold validateBoundaryName, go_len. intros H.
  destruct (Z.ltb_spec 63 (Z.of_nat (String.length boundary))); [|lia].
  by rewrite orb_true_r in H.
Qed.

(** What [initialize_boundary_tables] does with a name that is valid, by its length. *)
Lemma initialize_by_length xid boundary schema s r :
  validateBoundaryName boundary = Ok tt → schema ∈ sv_schemas s →
  initialize_boundary_tables xid boundary schema s = r →
  if decide (String.length boundary ≤ 46) then
    ∃ s', r = Ok s' ∧ sv_schemas s' = sv_schemas s ∧ sv_adminFunctions s' = sv_adminFunctions s
      ∧ sg_sequence (storage s' schema boundary) = true
  else if decide (String.length boundary ≤ 51) then
    ∃ s', r = Ok s'
      ∧ sg_sequence (storage s' schema boundary) = sg_sequence (storage s schema boundary)
  else ∃ e, r = Err e.
Proof using Type.
  intros Hb Hin <-. pose proof (validated_length _ Hb) as H63.
  unfold initialize_boundary_tables. rewrite Hb, (decide_True (P := schema ∈ _)) by done.
  destruct (decide (String.length boundary ≤ 46)) as [H46|H46].
  - destruct (relation_names_distinct boundary H46) as [-> ->]. eexists. split_and!; [done..|].
    rewrite storage_set. simpl. by rewrite orb_true_r.
  - rewrite !relation_names_eq by done.
    destruct (decide (String.length boundary ≤ 51)) as [H51|H51].
    + destruct (String.length boundary) as [|n] eqn:En; [lia|].
      do 46 (destruct n as [|n]; [lia|]). do 5 (destruct n as [|n];
        [eexists; split; [done|]; rewrite storage_set; simpl; by rewrite orb_false_r|]). lia.
    + destruct (String.length boundary) as [|n] eqn:En; [lia|].
      do 51 (destruct n as [|n]; [lia|]). do 12 (destruct n as [|n]; [by eexists|]). lia.
Qed.

Lemma create_tables_total xid boundary schema s :
  validateBoundaryName boundary = Ok tt → String.length boundary ≤ 46 →
  supported (storage s schema boundary) →
  schema ∈ sv_schemas s → unquoted schema ∈ sv_functions s →
  ∃ s', create_tables xid boundary schema s = Ok s' ∧ sv_schemas s' = sv_schemas s
    ∧ sv_adminFunctions s' = sv_adminFunctions s
    ∧ sg_sequence (storage s' schema boundary) = true.
Proof using Type.
  intros Hb Hlen Hs Hin Hf. unfold create_tables, requireBoundaryStorage.
  assert (∀ s1, sv_schemas s1 = sv_schemas s → sv_functions s1 = sv_functions s →
    sv_adminFunctions s1 = sv_adminFunctions s → ∃ s', call_function (sv_functions s) schema
      (initialize_boundary_tables xid boundary schema) s1 = Ok s'
    ∧ sv_schemas s' = sv_schemas s ∧ sv_adminFunctions s' = sv_adminFunctions s
    ∧ sg_sequence (storage s' schema boundary) = true) as Hset.
  { intros s1 E1 E2 E3. unfold call_function. rewrite decide_True by done.
    pose proof (λ r, initialize_by_length xid boundary schema s1 r Hb) as Hi.
    rewrite E1 in Hi. specialize (Hi _ Hin eq_refl). rewrite decide_True in Hi by done.
    destruct Hi as (s' & -> & H1 & H2 & H3). exists s'. by rewrite H1, H2, E3. }
  destruct Hs as [[-> ->]|[->| ->]]; cbn [mbind result_bind].
  - rewrite decide_True by done. by apply Hset.
  - by apply Hset.
  - by apply Hset.
Qed.

Lemma RunDbScripts_total xid boundary schema isAdmin s :
  validateBoundaryName boundary = Ok tt → String.length boundary ≤ 46 →
  supported (storage s schema boundary) →
  unquoted schema = schema → creatable schema = true →
  (schema = "public" → "public" ∈ sv_schemas s) →
  ∃ s', RunDbScripts no_migration_faults xid boundary schema isAdmin s = (Ok tt, s')
    ∧ sg_sequence (storage s' schema boundary) = true.
Proof using Type.
  intros Hb Hlen Hs Hq Hc Hpub. unfold RunDbScripts. rewrite Hb.
  destruct (if String.eqb schema "public" then _ else _) as [r1 s1] eqn:H1.
  assert (r1 = Ok tt ∧ schema ∈ sv_schemas s1 ∧ sv_storage s1 = sv_storage s) as (-> & Hin & Hst).
  { destruct (String.eqb_spec schema "public") as [->|].
    - injection H1 as <- <-. auto.
    - unfold createSchemaIfNotExists, creatable in *. apply andb_true_iff in Hc as [Hk Hp].
      apply negb_true_iff in Hk, Hp. simpl in H1. rewrite Hk, Hp in H1.
      injection H1 as <- <-. simpl. rewrite Hq. split_and!; [done|set_solver|done]. }
  unfold ensureFunctionsDefined, executeSQLScripts at 1. cbn -[decide]. rewrite Hq, decide_True by done.
  cbn [wrap_error]. set (s2 := mkPgServer _ _ _ _).
  assert (supported (storage s2 schema boundary)) as Hs2 by (unfold storage; simpl; by rewrite Hst).
  destruct (create_tables_total xid boundary schema s2 Hb Hlen Hs2) as (s3 & H3 & Hs3 & Ha3 & Hq3);
    [done|simpl; rewrite Hq; set_solver|].
  unfold initializeBoundaryTables. destruct isAdmin; cbn -[decide].
  - rewrite H3. unfold executeSQLScripts. cbn -[decide]. rewrite decide_True by by rewrite Hq.
    cbn [wrap_error run_tx].
    set (s4 := mkPgServer (sv_schemas s1) _ _ _).
    destruct (create_tables_total xid boundary schema s4 Hb Hlen Hs2) as (s5 & H5 & Hs5 & Ha5 & Hq5);
      [done|simpl; rewrite Hq; set_solver|].
    rewrite H5. cbn [mbind result_bind]. unfold call_function, initialize_admin_tables.
    rewrite Ha5, decide_True by (simpl; set_solver). rewrite Hb, Hs5, decide_True by done.
    eexists. split; [done|]. by rewrite storage_set.
  - rewrite H3. by eexists.
Qed.

(** C11: a migration on PostgreSQL never loses an event. Whatever its transactions meet, it
changes the relations of no other boundary and keeps the events, the contexts of the writes
and the next number of its own; if it reports success the boundary has the current version;
storage of another version, or without one, is refused and left alone. Without errors it
succeeds for every storage it supports, and the sequence that saves draw from is there, if the
name of the boundary is valid and has at most 46 bytes and the name of the schema is in lower
case, no reserved keyword and does not start with [pg_]. *)
Theorem migration_keeps_log f xid boundary schema isAdmin s r s' :
  RunDbScripts f xid boundary schema isAdmin s = (r, s') →
  (∀ k, k ≠ (schema, boundary) → sv_storage s' !! k = sv_storage s !! k)
  ∧ same_log (log_of (storage s schema boundary)) (log_of (storage s' schema boundary))
  ∧ (r = Ok tt → ready s' schema boundary)
  ∧ (¬ supported (storage s schema boundary) → sv_storage s' = sv_storage s ∧ r ≠ Ok tt)
  ∧ (f = no_migration_faults → validateBoundaryName boundary = Ok tt →
     String.length boundary ≤ 46 → supported (storage s schema boundary) →
     unquoted schema = schema → creatable schema = true →
     (schema = "public" → "public" ∈ sv_schemas s) →
     r = Ok tt ∧ sg_sequence (storage s' schema boundary) = true).
Proof using Type.
  intros H. destruct (RunDbScripts_migrates _ _ _ _ _ _ _ _ H) as ((Hk & Hu & _) & Hr).
  split_and!; [apply Hk|apply Hk|done| |].
  - intros Hn. split; [by apply Hu|]. intros Hok. apply Hn. right; right.
    destruct (Hr Hok) as [Hv _]. unfold storage in *. by rewrite Hu in Hv.
  - intros -> Hb Hlen Hs Hq Hc Hpub.
    destruct (RunDbScripts_total xid boundary schema isAdmin s Hb Hlen Hs Hq Hc Hpub)
      as (s2 & H2 & Hseq). rewrite H in H2. by injection H2 as -> ->.
Qed.

(** ** Schemas in mixed case *)

Lemma run_tx_schemas fault f s r s' schema :
  run_tx fault f s = (r, s') → (∀ s1, f s = Ok s1 → schema ∉ sv_schemas s1) →
  schema ∉ sv_schemas s → schema ∉ sv_schemas s'.
Proof. intros (H & _ & _)%run_tx_cases Hf Hs. destruct H as [[-> _]|H]; auto. Qed.

(** A boundary in a schema with an upper-case letter cannot be provisioned. The schema is
created by a statement without quotes, under its name in lower case, and the tables are
created with quotes under its name as given: unless somebody else created that schema,
every migration of a new boundary into it fails, although the name passes the validation. *)
Theorem mixed_case_schema_refused f xid boundary schema isAdmin s :
  unquoted schema ≠ schema → schema ∉ sv_schemas s →
  ∃ e, (RunDbScripts f xid boundary schema isAdmin s).1 = Err e.
Proof.
  intros Hq Hin. unfold RunDbScripts.
  destruct (validateBoundaryName boundary); [|by eexists].
  destruct (if String.eqb schema "public" then _ else _) as [r1 s1] eqn:H1.
  assert (schema ∉ sv_schemas s1) as Hin1.
  { destruct (String.eqb schema "public"); [by injection H1 as <- <-|].
    apply wrap_error_inv in H1 as [<- _].
    destruct (createSchemaIfNotExists (mf_schema f) schema s) as [r0 s0] eqn:E. simpl.
    eapply run_tx_schemas; [exact E| |done]. intros s2 H. repeat case_match; simplify_eq.
    simpl. set_solver. }
  destruct r1 as [[]|e]; [|by eexists].
  destruct (wrap_error _ (ensureFunctionsDefined (mf_functions f) schema s1)) as [r2 s2] eqn:H2.
  assert (schema ∉ sv_schemas s2) as Hin2.
  { apply wrap_error_inv in H2 as [<- _]. unfold ensureFunctionsDefined.
    destruct (executeSQLScripts (mf_functions f) false schema s1) as [r0 s0] eqn:E.
    assert (schema ∉ sv_schemas s0); [|by destruct r0].
    eapply run_tx_schemas; [exact E| |done]. intros s3. cbv beta. case_decide; [|done]. by intros [= <-]. }
  destruct r2 as [[]|e]; [|by eexists].
  destruct (initializeBoundaryTables _ _ _ _ _ _ _ s2) as [r3 s3] eqn:E.
  assert (∀ s4 s5, sv_schemas s4 = sv_schemas s2 → create_tables xid boundary schema s4 ≠ Ok s5)
    as Hct.
  { intros s4 s5 H4 (_ & _ & H5 & _)%create_tables_keeps. by rewrite H4 in H5. }
  destruct r3 as [[]|e]; [exfalso|by eexists].
  unfold initializeBoundaryTables in E. destruct isAdmin.
  - destruct (mf_early f); [done|].
    destruct (create_tables xid boundary schema s2) as [s4|] eqn:E4; [by eapply (Hct s2)|done].
  - apply run_tx_cases in E as (_ & E & _). exact (Hct s2 s3 eq_refl (E eq_refl)).
Qed.

(** ** The provisioner *)

(** What is registered, or was migrated by the process, can be served. *)
Record provisioned (p : PostgresBoundaryProvisioner) (s : PgServer) : Prop := {
  pd_registered r boundary entry :
    pv_registry p = Some r → r !! boundary = Some entry →
    ready s (Mapping_Schema (pb_mapping entry)) boundary;
  pd_migrated boundary schema :
    pv_migrated p !! boundary = Some schema → ready s schema boundary }.

(** What happens to a process and its server: its own provisioner, and migrations of other
processes. *)
Inductive pv_op :=
| OpProvision (f : migration_faults) (xid : Z) (definition : Definition_)
| OpInstall (f : migration_faults) (xid : Z) (definition : Definition_)
| OpOther (f : migration_faults) (xid : Z) (boundary schema : string) (isAdmin : bool).

Definition pv_step (ps : PostgresBoundaryProvisioner * PgServer) (op : pv_op)
  : PostgresBoundaryProvisioner * PgServer :=
  match op with
  | OpProvision f xid d => (ProvisionBoundary f xid d ps.1 ps.2).2
  | OpInstall f xid d => (InstallBoundary f xid d ps.1 ps.2).2
  | OpOther f xid b sc a => (ps.1, (RunDbScripts f xid b sc a ps.2).2)
  end.

Lemma provisioned_migrates p s s' schema boundary :
  provisioned p s → migrates schema boundary s s' → provisioned p s'.
Proof.
  intros [Hr Hm] H. split.
  - intros r b e H1 H2. eapply migrates_ready; [done|by eapply Hr].
  - intros b sc H1. eapply migrates_ready; [done|by eapply Hm].
Qed.

Lemma set_migrated_provisioned p s boundary schema :
  provisioned p s → ready s schema boundary → provisioned (set_migrated p boundary schema) s.
Proof.
  intros [Hr Hm] H. split; simpl; [done|]. intros b sc. rewrite lookup_insert_Some.
  intros [[<- <-]|[_ ?]]; [done|by apply Hm].
Qed.

Lemma register_provisioned p s r boundary schema res p' :
  provisioned p s → pv_registry p = Some r → (r !! boundary = None → ready s schema boundary) →
  register_boundary p r boundary schema = (res, p') →
  provisioned p' s
  ∧ (res = Ok tt → ∃ entry, registry_lookup (pv_registry p') boundary = Some entry
       ∧ Mapping_Schema (pb_mapping entry) = schema).
Proof.
  intros [Hr Hm] Hp Hready. unfold register_boundary, Register.
  assert (provisioned (mkPgProvisioner (Some r) (pv_migrated p)) s) as Hsame.
  { split; simpl; [|done]. intros r' b e [= <-]. by apply Hr. }
  destruct (validateBoundaryName boundary); [|by intros [= <- <-]].
  destruct (validateBoundaryName schema); [|by intros [= <- <-]].
  destruct (r !! boundary) as [e|] eqn:He.
  - destruct (String.eqb_spec (Mapping_Schema (pb_mapping e)) schema) as [Heq|]; intros [= <- <-];
      (split; [done|]); [|done]. intros _. exists e. by split.
  - intros [= <- <-]. split.
    + split; [|done]. intros r' b e Hr'. cbn [pv_registry] in Hr'. injection Hr' as <-.
      intros Hl. unfold BoundaryRegistry in r. apply lookup_insert_Some in Hl as [[<- <-]|[_ H]]; [by apply Hready|by eapply Hr].
    + intros _. simpl. eexists. split; [apply lookup_insert_eq|done].
Qed.

Lemma ProvisionBoundary_provisioned f xid d p s res p' s' :
  provisioned p s → ProvisionBoundary f xid d p s = (res, (p', s')) → provisioned p' s'.
Proof.
  intros Hp. unfold ProvisionBoundary. destruct (pv_registry p) as [r|]; [|by intros [= _ <- <-]].
  destruct (postgresPlacement d) as [schema|]; [|by intros [= _ <- <-]].
  destruct (migrate f xid (Def_Name d) schema s) as [r1 s1] eqn:E.
  destruct (RunDbScripts_migrates _ _ _ _ _ _ _ _ E) as [Hm Hr].
  pose proof (provisioned_migrates _ _ _ _ _ Hp Hm) as Hp1.
  destruct r1 as [[]|e]; intros [= _ <- <-]; [|done].
  apply set_migrated_provisioned; [done|by apply Hr].
Qed.

Lemma InstallBoundary_provisioned f xid d p s res p' s' :
  provisioned p s → InstallBoundary f xid d p s = (res, (p', s')) →
  provisioned p' s'
  ∧ (res = Ok tt → ∃ entry, registry_lookup (pv_registry p') (Def_Name d) = Some entry
       ∧ Mapping_Schema (pb_mapping entry) = Namespace (Def_Placement d)
       ∧ ready s' (Namespace (Def_Placement d)) (Def_Name d)).
Proof.
  intros Hp. unfold InstallBoundary. destruct (pv_registry p) as [r|] eqn:Hreg; [|by intros [= <- <- <-]].
  destruct (postgresPlacement d) as [schema|] eqn:Hpl; [|by intros [= <- <- <-]].
  assert (schema = Namespace (Def_Placement d)) as ->.
  { unfold postgresPlacement in Hpl. repeat case_match; by simplify_eq. }
  set (schema := Namespace (Def_Placement d)).
  assert (∀ p1 s1 res p2, provisioned p1 s1 → pv_registry p1 = Some r →
    (r !! Def_Name d = None → ready s1 schema (Def_Name d)) →
    register_boundary p1 r (Def_Name d) schema = (res, p2) →
    provisioned p2 s1 ∧ (res = Ok tt → ∃ entry,
      registry_lookup (pv_registry p2) (Def_Name d) = Some entry
      ∧ Mapping_Schema (pb_mapping entry) = schema ∧ ready s1 schema (Def_Name d))) as Hfin.
  { intros p1 s1 res1 p2 Hp1 Hr1 Hready H.
    destruct (register_provisioned _ _ _ _ _ _ _ Hp1 Hr1 Hready H) as [Hp2 Hok]. split; [done|].
    intros Hres. destruct (Hok Hres) as (e & He & Hs). exists e. split_and!; [done..|].
    unfold registry_lookup in He. apply bind_Some in He as (r2 & Hr2 & He).
    rewrite <-Hs. by eapply (pd_registered _ _ Hp2). }
  destruct (r !! Def_Name d) as [e|] eqn:He.
  - destruct (register_boundary p r (Def_Name d) schema) as [res1 p1] eqn:E. intros [= <- <- <-].
    by eapply Hfin.
  - destruct (decide (pv_migrated p !! Def_Name d = Some schema)) as [Hmig|_].
    + destruct (register_boundary p r (Def_Name d) schema) as [res1 p1] eqn:E. intros [= <- <- <-].
      eapply Hfin; [done..| |done]. intros _. by apply (pd_migrated _ _ Hp).
    + destruct (migrate f xid (Def_Name d) schema s) as [r1 s1] eqn:E.
      destruct (RunDbScripts_migrates _ _ _ _ _ _ _ _ E) as [Hm Hr].
      pose proof (provisioned_migrates _ _ _ _ _ Hp Hm) as Hp1.
      destruct r1 as [[]|e]; [|by intros [= <- <- <-]].
      destruct (register_boundary _ r (Def_Name d) schema) as [res1 p1] eqn:E1.
      intros [= <- <- <-]. eapply Hfin; [| |intros _; by apply Hr|exact E1]; [|done].
      apply set_migrated_provisioned; [done|by apply Hr].
Qed.

(** C12: every boundary that the PostgreSQL adapters of a process know can be served. However
the provisioner of a process and the migrations of others alternate, and whatever they meet,
a registered boundary has storage of the current version in its schema; and an installation
that succeeds has registered the boundary in the schema of its placement. *)
Theorem registered_boundary_ready ops p s :
  provisioned p s →
  let '(p', s') := foldl pv_step (p, s) ops in
  provisioned p' s'
  ∧ ∀ f xid d p2 s2, InstallBoundary f xid d p' s' = (Ok tt, (p2, s2)) →
      ∃ entry, registry_lookup (pv_registry p2) (Def_Name d) = Some entry
        ∧ Mapping_Schema (pb_mapping entry) = Namespace (Def_Placement d)
        ∧ ready s2 (Namespace (Def_Placement d)) (Def_Name d).
Proof.
  intros Hp. destruct (foldl pv_step (p, s) ops) as [p' s'] eqn:E.
  assert (provisioned p' s') as Hp'.
  { revert p s Hp E. induction ops as [|op ops IH]; intros p s Hp; simpl.
    - by intros [= <- <-].
    - destruct (pv_step (p, s) op) as [p1 s1] eqn:H1. apply IH. destruct op; simpl in H1.
      + destruct (ProvisionBoundary f xid definition p s) as [res [p2 s2]] eqn:E2.
        injection H1 as <- <-. by eapply ProvisionBoundary_provisioned.
      + destruct (InstallBoundary f xid definition p s) as [res [p2 s2]] eqn:E2.
        injection H1 as <- <-. by eapply InstallBoundary_provisioned.
      + destruct (RunDbScripts f xid boundary schema isAdmin s) as [r2 s2] eqn:E2.
        injection H1 as <- <-. eapply provisioned_migrates; [done|].
        by eapply RunDbScripts_migrates. }
  split; [done|]. intros f xid d p2 s2 H. by eapply InstallBoundary_provisioned in H as [_ H2]; [apply H2|].
Qed.

End Migration.

(** ** Witnesses *)

Section Witnesses.
#[local] Existing Instance example_postgres.

(** A boundary of version 4 that was restored from another cluster. *)
Definition example_restored : PgTables :=
  mkPgTables [mkPgRow (Some 3%Z) {[ "n" := JNumber "1" ]}; mkPgRow (Some 90%Z) {[ "n" := JNumber "2" ]}]
    ∅ 2.
Definition example_server : PgServer :=
  mkPgServer {[ "public" ]} ∅ ∅
    {[ ("shop", "orders") := mkPgStorage (Some (Some 4%Z)) (Some example_restored) true true true false ]}.

Definition example_definition (name schema : string) : Definition_ :=
  mkDefinition name "" (mkPlacement "Postgres" schema).

Lemma migration_keeps_log_witness :
  ∃ s', RunDbScripts no_migration_faults 7 "orders" "shop" false example_server = (Ok tt, s')
    ∧ ready s' "shop" "orders" ∧ same_log example_restored (log_of (storage s' "shop" "orders"))
    ∧ pg_xact_id <$> pt_events (log_of (storage s' "shop" "orders")) = [Some 3%Z; None].
Proof.
  destruct (RunDbScripts no_migration_faults 7 "orders" "shop" false example_server) as [r s'] eqn:E.
  destruct (migration_keeps_log _ _ _ _ _ _ _ _ E) as (_ & Hlog & Hr & _ & Hok).
  assert (r = Ok tt) as ->.
  { apply Hok; [reflexivity|reflexivity|apply (bool_decide_unpack _); exact I
      |right; left; reflexivity|reflexivity|reflexivity|discriminate]. }
  exists s'. split; [reflexivity|]. split; [exact (Hr eq_refl)|]. split; [exact Hlog|].
  vm_compute in E. injection E as <-. reflexivity.
Defined.

Lemma mixed_case_schema_refused_witness :
  validateBoundaryName "Shop" = Ok tt
  ∧ ∃ e, (RunDbScripts no_migration_faults 7 "orders" "Shop" false example_server).1 = Err e.
Proof.
  split; [reflexivity|].
  apply (mixed_case_schema_refused no_migration_faults 7 "orders" "Shop" false example_server).
  - discriminate.
  - apply (bool_decide_unpack _). vm_compute. exact I.
Defined.

Lemma registered_boundary_ready_witness :
  let '(p', s') := foldl pv_step (NewPostgresBoundaryProvisioner (Some ∅), example_server)
    [OpProvision no_migration_faults 7 (example_definition "carts" "shop");
     OpInstall no_migration_faults 8 (example_definition "orders" "shop")] in
  provisioned p' s' ∧ is_Some (registry_lookup (pv_registry p') "orders").
Proof.
  pose proof (registered_boundary_ready
    [OpProvision no_migration_faults 7 (example_definition "carts" "shop");
     OpInstall no_migration_faults 8 (example_definition "orders" "shop")]
    (NewPostgresBoundaryProvisioner (Some ∅)) example_server) as H.
  assert (is_Some (registry_lookup (pv_registry (foldl pv_step
    (NewPostgresBoundaryProvisioner (Some ∅), example_server)
    [OpProvision no_migration_faults 7 (example_definition "carts" "shop");
     OpInstall no_migration_faults 8 (example_definition "orders" "shop")]).1) "orders")) as Ho
    by (vm_compute; by eexists).
  destruct (foldl _ _ _) as [p' s']. split; [|exact Ho]. apply H. split.
  - intros r b e [= <-] Hl. discriminate Hl.
  - intros b sc Hl. discriminate Hl.
Defined.

(** A valid name of 47 bytes is migrated without a sequence, one of 52 bytes is refused, and so
are schemas named [user] and [pg_shop]. *)
Definition long_name (n : nat) : string := String.concat "" (replicate n "b").

Example long_boundary_without_sequence :
  validateBoundaryName (long_name 47) = Ok tt
  ∧ let '(r, s') := RunDbScripts no_migration_faults 7 (long_name 47) "shop" false example_server in
    r = Ok tt ∧ sg_sequence (storage s' "shop" (long_name 47)) = false.
Proof. vm_compute. done. Qed.

Example refused_names :
  let migrated boundary schema :=
    is_ok (RunDbScripts no_migration_faults 7 boundary schema false example_server).1 in
  validateBoundaryName (long_name 52) = Ok tt ∧ validateBoundaryName "user" = Ok tt
  ∧ migrated (long_name 52) "shop" = false ∧ migrated "orders" "user" = false
  ∧ migrated "orders" "pg_shop" = false ∧ migrated (long_name 46) "between" = true.
Proof. vm_compute. done. Qed.

End Witnesses.
