(* ===== verification/PgAdmin.v ===== *)
(** * The admin tables on PostgreSQL: [PostgresAdminDB] of [postgres/postgres_eventstore.go]

Users with the cache of the process, checkpoints and counters. The statements name their
tables without quotes, so the server looks for them under names in lower case. *)

From stdpp Require Import options.
From S2P Require Import Prelude Status Model Number Json Predicates Consistency EventData.
From S2P Require Import WriteContext SqlPredicates Sql SqliteStore SqliteLog GroupCommit.
From S2P Require Import SqliteRead SqliteIndex EventStore Auth SqliteAdmin.
From S2P Require Import PgPredicates PgInsert PgLog PgStore PgSave PgMigration.

Set Default Proof Using "Type*".

(** ** The server *)

(** The input of a [TEXT[]] literal. *)
Class PgArrays := { text_array_in : string → result (list string) }.

(** A word that an array literal holds without quotes. *)
Definition array_word (w : string) : Prop :=
  w ≠ "" ∧ string_forallb isLetter w = true ∧ ToLower w ≠ "null".

Class PgArraysLaws `{A : PgArrays} : Prop := {
  text_array_words l :
    Forall array_word l → text_array_in ("{" +:+ Join l "," +:+ "}") = Ok l }.

(** ** The tables of the admin boundary *)

(** A row of [_users], without its dates. *)
Record PgUserRow := mkPgUserRow {
  pu_name : string; pu_username : string; pu_password_hash : string; pu_roles : list string }.

Record PgAdminTables := mkPgAdminTables {
  pa_users : gmap string PgUserRow;
  pa_checkpoints : gmap string Position;
  pa_users_count : gmap string Z;
  pa_events_count : gmap (string * string) (gmap string Z) }.

(** What a query meets: an error, or the end of the iteration over its rows after some of
them. *)
Inductive pg_query_fault :=
| QueryFails (e : goerror)
| RowsEnd (after : nat).

(** The rows that the loop over [rows.Next] sees. *)
Definition pg_fetch {A} (fault : option pg_query_fault) (rows : list A) : result (list A) :=
  match fault with
  | None => Ok rows
  | Some (QueryFails e) => Err e
  | Some (RowsEnd n) => Ok (take n rows)
  end.

Record PostgresAdminDB := mkPostgresAdminDB {
  adminSchema : string; pga_adminBoundary : string; pga_registry : BoundaryRegistry;
  qListUsers : string; qGetProjectorPos : string; qUpsertProjectorPos : string;
  qDeleteUser : string; qGetUserByUsername : string; qGetUserById : string;
  qUpsertUser : string; qGetUsersCount : string; qSaveUsersCount : string }.

Definition NewPostgresAdminDBWithRegistry (schema boundary : string) (registry : BoundaryRegistry)
  : PostgresAdminDB :=
  let table := schema +:+ "." +:+ boundary in
  mkPostgresAdminDB schema boundary registry
    ("SELECT id, name, username, password_hash, roles FROM " +:+ table +:+ "_users ORDER BY id")
    ("SELECT COALESCE(commit_position, 0), COALESCE(prepare_position, 0) FROM " +:+ table
     +:+ "_projector_checkpoint where name = $1")
    ("INSERT INTO " +:+ table
     +:+ "_projector_checkpoint (id, name, commit_position, prepare_position) VALUES ($1, $2, $3, $4) ON CONFLICT (name) DO UPDATE SET commit_position = $3, prepare_position = $4")
    ("DELETE FROM " +:+ table +:+ "_users WHERE id = $1")
    ("SELECT id, name, username, password_hash, roles FROM " +:+ table
     +:+ "_users where username = $1")
    ("SELECT id, name, username, password_hash, roles FROM " +:+ table +:+ "_users where id = $1")
    ("INSERT INTO " +:+ table
     +:+ "_users (id, name, username, password_hash, roles) VALUES ($1, $2, $3, $4, $5) ON CONFLICT (id) DO UPDATE SET name = $2, username = $3, password_hash = $4, roles = $5, updated_at = $6")
    ("SELECT user_count FROM " +:+ table +:+ "_users_count limit 1")
    ("INSERT INTO " +:+ table
     +:+ "_users_count (id, user_count, created_at, updated_at) VALUES ($1, $2, $3, $4) ON CONFLICT (id) DO UPDATE SET user_count = $2, updated_at = $4").

Definition NewPostgresAdminDB (schema boundary : string)
    (mappings : gmap string BoundaryToPostgresSchemaMapping) : PostgresAdminDB :=
  NewPostgresAdminDBWithRegistry schema boundary (NewBoundaryRegistry mappings).

(** A process: the tables of the server and the variable [userCache] of the package. *)
Record PgAdmin := mkPgAdmin { pga_tables : PgAdminTables; pg_userCache : gmap string User }.

Definition set_pg_users (t : PgAdminTables) (us : gmap string PgUserRow) : PgAdminTables :=
  mkPgAdminTables us (pa_checkpoints t) (pa_users_count t) (pa_events_count t).

Section PgAdmin.
Context `{P : Postgres, A : PgArrays}.

(** ** Users *)

Definition scanUser (id : string) (r : PgUserRow) : User :=
  mkUser id (pu_name r) (pu_username r) (pu_password_hash r) (pu_roles r).

Definition pg_ListAdminUsers (fault : option pg_query_fault) (a : PgAdmin) : result (list User) :=
  match pg_fetch fault (sorted_entries (pa_users (pga_tables a))) with
  | Ok rows => Ok ((λ kv, scanUser kv.1 kv.2) <$> rows)
  | Err e => Err e
  end.

(** A parameter that the server converts to UUID. *)
Definition uuid_param (id : string) : result string :=
  match uuid_in id with
  | Some u => Ok u
  | None => Err (PlainError "invalid input syntax for type uuid")
  end.

Definition pg_DeleteUser (fault : option goerror) (id : string) (a : PgAdmin)
  : result unit * PgAdmin :=
  match fault, uuid_param id with
  | Some e, _ | None, Err e => (Err e, a)
  | None, Ok u =>
      let t := pga_tables a in
      (Ok tt, mkPgAdmin (set_pg_users t (delete u (pa_users t))) (pg_userCache a))
  end.

(** The row with a username; the column is UNIQUE. *)
Definition pg_row_by_username (t : PgAdminTables) (username : string)
  : option (string * PgUserRow) :=
  head (filter (λ kv, pu_username kv.2 = username) (map_to_list (pa_users t))).

Definition pg_GetUserByUsername (fault : option pg_query_fault) (username : string) (a : PgAdmin)
  : result User * PgAdmin :=
  match pg_userCache a !! username with
  | Some user => (Ok user, a)
  | None =>
      match pg_fetch fault (option_list (pg_row_by_username (pga_tables a) username)) with
      | Err e => (Err e, a)
      | Ok rows =>
          match head rows with
          | Some (id, row) =>
              let userResponse := scanUser id row in
              if String.eqb (User_Id userResponse) ""
              then (Err (PlainError "user not found"), a)
              else (Ok userResponse,
                    mkPgAdmin (pga_tables a) (<[username := userResponse]> (pg_userCache a)))
          | None => (Err (PlainError "user not found"), a)
          end
      end
  end.

Definition pg_GetUserById (fault : option pg_query_fault) (id : string) (a : PgAdmin)
  : result User :=
  u ← uuid_param id;
  rows ← pg_fetch fault (option_list (pa_users (pga_tables a) !! u));
  match head rows with
  | Some row => if String.eqb u "" then Err (PlainError "user not found with id: %s")
                else Ok (scanUser u row)
  | None => Err (PlainError "user not found with id: %s")
  end.

(** [INSERT ... ON CONFLICT (id) DO UPDATE]. *)
Definition pg_upsert_row (id : string) (row : PgUserRow) (t : PgAdminTables)
  : result PgAdminTables :=
  match pg_row_by_username t (pu_username row) with
  | Some (other, _) =>
      if bool_decide (other = id) then Ok (set_pg_users t (<[id := row]> (pa_users t)))
      else Err (PlainError "duplicate key value violates unique constraint")
  | None => Ok (set_pg_users t (<[id := row]> (pa_users t)))
  end.

Definition pg_UpsertUser (fault : option goerror) (user : User) (a : PgAdmin)
  : result unit * PgAdmin :=
  let rolesStr := "{" +:+ Join (User_Roles user) "," +:+ "}" in
  match fault with
  | Some e => (Err e, a)
  | None =>
      match (id ← uuid_param (User_Id user);
             roles ← text_array_in rolesStr;
             pg_upsert_row id
               (mkPgUserRow (User_Name user) (User_Username user) (User_HashedPassword user) roles)
               (pga_tables a)) with
      | Err e => (Err e, a)
      | Ok t => (Ok tt, mkPgAdmin t (<[User_Username user := user]> (pg_userCache a)))
      end
  end.

(** ** Checkpoints and counters *)

Definition pg_GetProjectorLastPosition (fault : option goerror) (name : string) (a : PgAdmin)
  : result Position :=
  match fault with
  | Some e => Err e
  | None => Ok (default NotExistsPosition (pa_checkpoints (pga_tables a) !! name))
  end.

(** [newID] is the error of [uuid.NewV7]. *)
Definition pg_UpdateProjectorPosition (newID fault : option goerror) (name : string)
    (position : Position) (a : PgAdmin) : result unit * PgAdmin :=
  match newID, fault with
  | Some e, _ | None, Some e => (Err e, a)
  | None, None =>
      let t := pga_tables a in
      (Ok tt, mkPgAdmin (mkPgAdminTables (pa_users t) (<[name := position]> (pa_checkpoints t))
                 (pa_users_count t) (pa_events_count t)) (pg_userCache a))
  end.

Definition userCountId : string := "0195c053-57e7-7a6d-8e17-a2a695f67d1f".
Definition eventCountId : string := "0195c053-57e7-7a6d-8e17-a2a695f67d2f".

(** [Scan] into a [uint32] refuses a number out of its range. *)
Definition pg_GetUsersCount (fault : option pg_query_fault) (a : PgAdmin) : result Z :=
  rows ← pg_fetch fault (map_to_list (pa_users_count (pga_tables a)));
  match head rows with
  | Some (_, count) =>
      if (0 <=? count)%Z && (count <? 2 ^ 32)%Z then Ok count
      else Err (PlainError "converting driver.Value type: value out of range")
  | None => Ok 0%Z
  end.

Definition pg_SaveUsersCount (fault : option goerror) (count : Z) (a : PgAdmin)
  : result unit * PgAdmin :=
  match fault with
  | Some e => (Err e, a)
  | None =>
      let t := pga_tables a in
      (Ok tt, mkPgAdmin (mkPgAdminTables (pa_users t) (pa_checkpoints t)
                 (<[userCountId := count]> (pa_users_count t)) (pa_events_count t))
                (pg_userCache a))
  end.

(** [fallback] is the error of counting the events. *)
Definition pg_GetEventsCount (registry : option BoundaryRegistry) (fault : option pg_query_fault)
    (fallback : option goerror) (boundary : string) (db : PgDatabase) (a : PgAdmin) : result Z :=
  match registry_lookup registry boundary with
  | None => Err (PlainError "no schema mapping found for boundary: %s")
  | Some entry =>
      let schema := unquoted (Mapping_Schema (pb_mapping entry)) in
      match (match pa_events_count (pga_tables a) !! (schema, unquoted boundary) with
             | Some counts => pg_fetch fault (map_to_list counts)
             | None => Err no_relation
             end) with
      | Err _ =>
          match fallback with
          | Some e => Err e
          | None => match db !! (schema, unquoted boundary) with
                    | Some t => Ok (Z.of_nat (length (pt_events t)))
                    | None => Err no_relation
                    end
          end
      | Ok rows => Ok (from_option snd 0%Z (head rows))
      end
  end.

Definition pg_SaveEventCount (registry : option BoundaryRegistry) (fault : option goerror)
    (count : Z) (boundary : string) (a : PgAdmin) : result unit * PgAdmin :=
  match registry_lookup registry boundary, fault with
  | None, _ => (Err (PlainError "no schema mapping found for boundary: %s"), a)
  | Some _, Some e => (Err e, a)
  | Some entry, None =>
      let t := pga_tables a in
      let key := (unquoted (Mapping_Schema (pb_mapping entry)), unquoted boundary) in
      match pa_events_count t !! key with
      | None => (Err no_relation, a)
      | Some counts =>
          (Ok tt, mkPgAdmin (mkPgAdminTables (pa_users t) (pa_checkpoints t) (pa_users_count t)
                     (<[key := <[eventCountId := count]> counts]> (pa_events_count t)))
                    (pg_userCache a))
      end
  end.

(** ** What a lookup answers *)

(** What the UNIQUE column guarantees. *)
Definition pg_unique_usernames (us : gmap string PgUserRow) : Prop :=
  ∀ id1 id2 r1 r2, us !! id1 = Some r1 → us !! id2 = Some r2 →
    pu_username r1 = pu_username r2 → id1 = id2.

Lemma pg_row_by_username_spec t username id row :
  pg_unique_usernames (pa_users t) →
  pg_row_by_username t username = Some (id, row) ↔
    pa_users t !! id = Some row ∧ pu_username row = username.
Proof using Type.
  intros Hu. unfold pg_row_by_username. set (l := filter _ _).
  assert (∀ kv, kv ∈ l ↔ pa_users t !! kv.1 = Some kv.2 ∧ pu_username kv.2 = username) as Hl.
  { intros [k v]. unfold l. rewrite list_elem_of_filter, elem_of_map_to_list. naive_solver. }
  split.
  - intros Hh. apply (Hl (id, row)). destruct l; [done|]. injection Hh as ->. left.
  - intros [Hr He]. assert ((id, row) ∈ l) as Hin by by apply Hl.
    destruct l as [|[k v] l']; [by apply elem_of_nil in Hin|]. simpl.
    destruct (proj1 (Hl (k, v)) ltac:(left)) as [Hk Hv]. simpl in *.
    assert (k = id) as -> by (eapply Hu; eauto; congruence). congruence.
Qed.

Lemma pg_row_by_username_absent t username id row :
  pg_row_by_username t username = None → pa_users t !! id = Some row → pu_username row ≠ username.
Proof using Type.
  intros H Hr He.
  assert ((id, row) ∈ filter (λ kv : string * PgUserRow, pu_username kv.2 = username)
    (map_to_list (pa_users t))) as Hin
    by (apply list_elem_of_filter; split; [done|by apply elem_of_map_to_list]).
  unfold pg_row_by_username in H. destruct (filter _ _); [by apply elem_of_nil in Hin|done].
Qed.

Lemma pg_upsert_row_ok id row t t' :
  pg_unique_usernames (pa_users t) → pg_upsert_row id row t = Ok t' →
  t' = set_pg_users t (<[id := row]> (pa_users t)) ∧ pg_unique_usernames (pa_users t').
Proof using Type.
  intros Hu H.
  assert (t' = set_pg_users t (<[id := row]> (pa_users t))
    ∧ ∀ id' row', pa_users t !! id' = Some row' → pu_username row' = pu_username row → id' = id)
    as [-> Hone].
  { unfold pg_upsert_row in H. destruct (pg_row_by_username t (pu_username row)) as [[o r]|] eqn:E.
    - case_bool_decide as Ho; [|done]. injection H as <-. split; [done|]. subst o.
      apply pg_row_by_username_spec in E as [Hr He]; [|done]. intros id' row' Hr' He'.
      eapply Hu; [done..|congruence].
    - injection H as <-. split; [done|]. intros id' row' Hr' He'.
      by destruct (pg_row_by_username_absent _ _ _ _ E Hr'). }
  split; [done|]. intros id1 id2 r1 r2. simpl.
  rewrite !lookup_insert_Some. intros [[<- <-]|[Hne1 H1]] [[<- <-]|[Hne2 H2]] He; try done.
  - symmetry. by eapply Hone.
  - by eapply Hone.
  - by eapply Hu.
Qed.

(** A user that the users table holds as it is. *)
Definition plain_user (u : User) : Prop :=
  uuid_in (User_Id u) = Some (User_Id u) ∧ User_Id u ≠ "" ∧ Forall array_word (User_Roles u).

(** A user that was stored on PostgreSQL is read back. After an upsert that succeeds, the
user is found by id, and by username by every process that has no user of that name in its
cache, with the name, password hash and roles that were stored; usernames stay unique. *)
Theorem pg_user_read_back `{AL : !PgArraysLaws} u a a' cache :
  plain_user u → pg_unique_usernames (pa_users (pga_tables a)) →
  pg_UpsertUser None u a = (Ok tt, a') → cache !! User_Username u = None →
  pg_GetUserById None (User_Id u) a' = Ok u
  ∧ (pg_GetUserByUsername None (User_Username u) (mkPgAdmin (pga_tables a') cache)).1 = Ok u
  ∧ pg_unique_usernames (pa_users (pga_tables a')).
Proof using Type.
  intros (Hid & Hne & Hroles) Hu H Hc. unfold pg_UpsertUser, uuid_param in H.
  rewrite Hid, text_array_words in H by done. cbn [mbind result_bind] in H.
  destruct (pg_upsert_row _ _ _) as [t'|] eqn:E; [|done]. injection H as <-.
  destruct (pg_upsert_row_ok _ _ _ _ Hu E) as [Ht Hu']. cbn [pga_tables].
  assert (pa_users t' !! User_Id u = Some (mkPgUserRow (User_Name u) (User_Username u)
    (User_HashedPassword u) (User_Roles u))) as Hrow by (rewrite Ht; apply lookup_insert_eq).
  assert (String.eqb (User_Id u) "" = false) as Hne' by by apply String.eqb_neq.
  split_and!; [| |done].
  - unfold pg_GetUserById, uuid_param. rewrite Hid. cbn [mbind result_bind pga_tables].
    rewrite Hrow. simpl. rewrite Hne'. by destruct u.
  - unfold pg_GetUserByUsername. cbn [pg_userCache pga_tables]. rewrite Hc.
    assert (pg_row_by_username t' (User_Username u) = Some (User_Id u, mkPgUserRow (User_Name u)
      (User_Username u) (User_HashedPassword u) (User_Roles u))) as ->
      by by apply pg_row_by_username_spec.
    simpl. rewrite Hne'. by destruct u.
Qed.

(** ** What the cache keeps *)

(** What happens to a process: its own operations, and changes of the tables by others. *)
Inductive pga_op :=
| OpUpsert (fault : option goerror) (u : User)
| OpDelete (fault : option goerror) (id : string)
| OpLookup (fault : option pg_query_fault) (username : string)
| OpTables (t : PgAdminTables).

Definition pga_step (a : PgAdmin) (op : pga_op) : PgAdmin :=
  match op with
  | OpUpsert f u => (pg_UpsertUser f u a).2
  | OpDelete f id => (pg_DeleteUser f id a).2
  | OpLookup f username => (pg_GetUserByUsername f username a).2
  | OpTables t => mkPgAdmin t (pg_userCache a)
  end.

Definition upserts (username : string) (op : pga_op) : Prop :=
  match op with OpUpsert _ u => User_Username u = username | _ => False end.

Lemma pga_step_cache username u a op :
  pg_userCache a !! username = Some u → ¬ upserts username op →
  pg_userCache (pga_step a op) !! username = Some u.
Proof using Type.
  intros Hc Hn. destruct op as [f v|f id|f name|t]; simpl; [| | |done].
  - unfold pg_UpsertUser. destruct f; [done|]. destruct (_ ≫= _); [|done]. simpl.
    by rewrite lookup_insert_ne.
  - unfold pg_DeleteUser. by destruct f, (uuid_param id).
  - unfold pg_GetUserByUsername. destruct (pg_userCache a !! name) eqn:E; [done|].
    destruct (pg_fetch _ _) as [rows|]; [|done]. destruct (head rows) as [[id row]|]; [|done].
    case_match; [done|]. simpl. rewrite lookup_insert_ne; [done|]. congruence.
Qed.

(** On PostgreSQL a user that was deleted can go on logging in. A user in the cache of a
process, where every login and every upsert puts it, is served from there for as long as the
process does not upsert a user of that name itself: after deletions, and after any change of
the tables by other processes, the old password is still accepted with the old roles. *)
Theorem pg_cached_user_served username u a ops fault compare password :
  pg_userCache a !! username = Some u → Forall (λ op, ¬ upserts username op) ops →
  compare (User_HashedPassword u) password = true →
  VerifyCredentials (λ name, (pg_GetUserByUsername fault name (foldl pga_step a ops)).1)
    compare username password = Ok u.
Proof using Type.
  intros Hc Hops Hpw.
  assert (pg_userCache (foldl pga_step a ops) !! username = Some u) as Hc'.
  { revert a Hc. induction Hops as [|op ops Hop _ IH]; intros a Hc; [done|]. simpl.
    by apply IH, pga_step_cache. }
  unfold VerifyCredentials, pg_GetUserByUsername. rewrite Hc'. simpl. by rewrite Hpw.
Qed.

(** ** Boundaries in mixed case *)

(** The count of a boundary with an upper-case letter is that of the boundary in lower case,
or an error without one. *)
Lemma mixed_case_count registry fault fallback boundary db a entry :
  registry_lookup registry boundary = Some entry →
  pa_events_count (pga_tables a) !! (unquoted (Mapping_Schema (pb_mapping entry)), unquoted boundary)
    = None →
  db !! (unquoted (Mapping_Schema (pb_mapping entry)), unquoted boundary) = None →
  ∃ e, pg_GetEventsCount registry fault fallback boundary db a = Err e.
Proof using Type.
  intros Hr Hc Hd. unfold pg_GetEventsCount. rewrite Hr, Hc, Hd. destruct fallback; by eexists.
Qed.

End PgAdmin.

(** ** Witnesses *)

#[local] Existing Instance example_postgres.

(** The words between the braces. *)
Definition example_arrays : PgArrays := {|
  text_array_in s := let body := String.substring 1 (String.length s - 2) s in
                     Ok (if String.eqb body "" then [] else Split body ",") |}.
#[local] Existing Instance example_arrays.

Definition example_user : User :=
  mkUser "0195c053-57e7-7a6d-8e17-a2a695f67d1f" "Ada" "ada" "h" ["ADMIN"; "READ"].
Definition example_pg_admin : PgAdmin := mkPgAdmin (mkPgAdminTables ∅ ∅ ∅ ∅) ∅.
Definition example_stored_admin : PgAdmin := (pg_UpsertUser None example_user example_pg_admin).2.

Lemma pg_cached_user_served_witness :
  let ops := [OpDelete None (User_Id example_user)] in
  pa_users (pga_tables (foldl pga_step example_stored_admin ops)) = ∅
  ∧ VerifyCredentials
      (λ name, (pg_GetUserByUsername None name (foldl pga_step example_stored_admin ops)).1)
      String.eqb "ada" "h" = Ok example_user.
Proof.
  intros ops. split; [vm_compute; reflexivity|].
  apply (pg_cached_user_served "ada" example_user example_stored_admin ops None String.eqb "h");
    [vm_compute; reflexivity|constructor; [intros []|constructor]|reflexivity].
Defined.

Lemma substring_body j : String.substring 0 (String.length j) (j +:+ "}") = j.
Proof. induction j as [|c j IH]; string_simpl; [done|]. by rewrite IH. Qed.

Lemma example_arrays_laws : PgArraysLaws.
Proof.
  split. intros l Hl. unfold text_array_in, example_arrays.
  assert (String.substring 1 (String.length ("{" +:+ Join l "," +:+ "}") - 2)
    ("{" +:+ Join l "," +:+ "}") = Join l ",") as ->.
  { change ("{" +:+ Join l "," +:+ "}") with (String "{" (Join l "," +:+ "}")).
    cbn [String.length String.substring]. rewrite string_length_app.
    replace (S (String.length (Join l ",") + String.length "}") - 2)
      with (String.length (Join l ",")) by (simpl; lia). apply substring_body. }
  destruct l as [|r l]; [done|].
  destruct (String.eqb_spec (Join (r :: l) ",") "") as [He|_].
  - exfalso. apply Forall_cons in Hl as [(Hne & _) _]. destruct r as [|c r]; [done|].
    destruct l as [|r' l]; [done|].
    change (Join (String c r :: r' :: l) ",") with (String c r +:+ String "," (Join (r' :: l) ","))
      in He. by rewrite string_app_cons in He.
  - rewrite Split_Join; [done|done|]. eapply Forall_impl; [exact Hl|].
    intros w (_ & Hw & _). unfold no_comma. clear -Hw. induction w as [|c w IH]; [done|].
    cbn [string_forallb] in *. apply andb_true_iff in Hw as [Hc Hw].
    rewrite IH by done. destruct (Ascii.eqb_spec c ",") as [->|]; [done|reflexivity].
Qed.

Lemma pg_user_read_back_witness :
  (pg_GetUserByUsername None "ada" (mkPgAdmin (pga_tables example_stored_admin) ∅)).1
  = Ok example_user.
Proof.
  destruct (@pg_user_read_back example_postgres example_arrays example_arrays_laws example_user
    example_pg_admin example_stored_admin ∅) as (_ & H & _).
  - split; [reflexivity|]. split; [discriminate|].
    repeat constructor; vm_compute; first [reflexivity|discriminate].
  - intros id1 id2 r1 r2 H. discriminate H.
  - vm_compute. reflexivity.
  - reflexivity.
  - exact H.
Defined.
