(* ===== verification/Md5.v ===== *)
(** * MD5 (RFC 1321), as [crypto/md5] of Go and [md5] of PostgreSQL compute it

The names of the notification channels of PostgreSQL are hashes of the boundary names
([pgNotifyChannelForBoundary] of [postgres/pg_listener.go]). Words are 32-bit numbers in [Z]. *)

From stdpp Require Import options.
From S2P Require Import Prelude.

#[local] Open Scope Z_scope.

Definition w32 (x : Z) : Z := x mod 2 ^ 32.
Definition add32 (x y : Z) : Z := w32 (x + y).
Definition not32 (x : Z) : Z := Z.lxor x (2 ^ 32 - 1).
Definition rotl32 (x s : Z) : Z := Z.lor (w32 (Z.shiftl x s)) (Z.shiftr x (32 - s)).

(** The additive constants and the rotations of the four rounds. *)
Definition md5_table : list Z := [
  0xd76aa478; 0xe8c7b756; 0x242070db; 0xc1bdceee; 0xf57c0faf; 0x4787c62a; 0xa8304613; 0xfd469501;
  0x698098d8; 0x8b44f7af; 0xffff5bb1; 0x895cd7be; 0x6b901122; 0xfd987193; 0xa679438e; 0x49b40821;
  0xf61e2562; 0xc040b340; 0x265e5a51; 0xe9b6c7aa; 0xd62f105d; 0x02441453; 0xd8a1e681; 0xe7d3fbc8;
  0x21e1cde6; 0xc33707d6; 0xf4d50d87; 0x455a14ed; 0xa9e3e905; 0xfcefa3f8; 0x676f02d9; 0x8d2a4c8a;
  0xfffa3942; 0x8771f681; 0x6d9d6122; 0xfde5380c; 0xa4beea44; 0x4bdecfa9; 0xf6bb4b60; 0xbebfbc70;
  0x289b7ec6; 0xeaa127fa; 0xd4ef3085; 0x04881d05; 0xd9d4d039; 0xe6db99e5; 0x1fa27cf8; 0xc4ac5665;
  0xf4292244; 0x432aff97; 0xab9423a7; 0xfc93a039; 0x655b59c3; 0x8f0ccc92; 0xffeff47d; 0x85845dd1;
  0x6fa87e4f; 0xfe2ce6e0; 0xa3014314; 0x4e0811a1; 0xf7537e82; 0xbd3af235; 0x2ad7d2bb; 0xeb86d391].

Definition md5_rotations (round : nat) : list Z :=
  match round with
  | 0%nat => [7; 12; 17; 22] | 1%nat => [5; 9; 14; 20] | 2%nat => [4; 11; 16; 23]
  | _ => [6; 10; 15; 21]
  end.

(** The word of the block that a step reads, and the function of its round. *)
Definition md5_index (i : nat) : nat :=
  match (i / 16)%nat with
  | 0%nat => i
  | 1%nat => ((5 * i + 1) mod 16)%nat
  | 2%nat => ((3 * i + 5) mod 16)%nat
  | _ => ((7 * i) mod 16)%nat
  end.
Definition md5_mix (round : nat) (b c d : Z) : Z :=
  match round with
  | 0%nat => Z.lor (Z.land b c) (Z.land (not32 b) d)
  | 1%nat => Z.lor (Z.land d b) (Z.land (not32 d) c)
  | 2%nat => Z.lxor b (Z.lxor c d)
  | _ => Z.lxor c (Z.lor b (not32 d))
  end.

Record md5_state := mkMd5 { md5_a : Z; md5_b : Z; md5_c : Z; md5_d : Z }.
Definition md5_init : md5_state := mkMd5 0x67452301 0xefcdab89 0x98badcfe 0x10325476.

Definition md5_step (block : list Z) (st : md5_state) (i : nat) : md5_state :=
  let '(mkMd5 a b c d) := st in
  let round := (i / 16)%nat in
  let f := add32 (add32 (md5_mix round b c d) a)
             (add32 (nth i md5_table 0) (nth (md5_index i) block 0)) in
  mkMd5 d (add32 b (rotl32 f (nth (i mod 4)%nat (md5_rotations round) 0))) b c.

Definition md5_block (st : md5_state) (block : list Z) : md5_state :=
  let st' := foldl (md5_step block) st (seq 0 64) in
  mkMd5 (add32 (md5_a st) (md5_a st')) (add32 (md5_b st) (md5_b st'))
    (add32 (md5_c st) (md5_c st')) (add32 (md5_d st) (md5_d st')).

(** Bytes of a number, the least significant first, and back. *)
Fixpoint le_bytes (n : nat) (x : Z) : list Z :=
  match n with
  | 0%nat => []
  | S n => x mod 256 :: le_bytes n (x / 256)
  end.
Definition le_word (bytes : list Z) : Z := foldr (λ b x, b + 256 * x) 0 bytes.

(** The message, a bit, zeros up to eight bytes below a multiple of 64, the length in bits. *)
Definition md5_pad (message : list Z) : list Z :=
  let n := Z.of_nat (length message) in
  message ++ [128] ++ replicate (Z.to_nat ((55 - n) mod 64)) 0 ++ le_bytes 8 (8 * n).

Fixpoint md5_blocks (fuel : nat) (bytes : list Z) (st : md5_state) : md5_state :=
  match fuel, bytes with
  | S fuel, _ :: _ =>
      md5_blocks fuel (drop 64 bytes)
        (md5_block st (map (λ i, le_word (take 4 (drop (4 * i) bytes))) (seq 0 16)))
  | _, _ => st
  end.

Definition md5_sum (message : list Z) : list Z :=
  let bytes := md5_pad message in
  let '(mkMd5 a b c d) := md5_blocks (length bytes) bytes md5_init in
  le_bytes 4 a ++ le_bytes 4 b ++ le_bytes 4 c ++ le_bytes 4 d.

(** [%x]. *)
Definition hex_digit (x : Z) : Ascii.ascii :=
  default "?"%char (String.get (Z.to_nat x) "0123456789abcdef").
Definition hex_byte (x : Z) : string :=
  String (hex_digit (x / 16)) (String (hex_digit (x mod 16)) "").
Definition hex_string (bytes : list Z) : string := foldr (λ b s, hex_byte b +:+ s) "" bytes.

Fixpoint string_bytes (s : string) : list Z :=
  match s with
  | "" => []
  | String c s => Z.of_nat (Ascii.nat_of_ascii c) :: string_bytes s
  end%string.

Definition md5_hex (s : string) : string := hex_string (md5_sum (string_bytes s)).

(** ** Sizes *)

(** The padded message is a whole number of blocks. *)
Lemma md5_pad_blocks message : Z.of_nat (length (md5_pad message)) mod 64 = 0.
Proof.
  unfold md5_pad. rewrite !length_app, length_replicate.
  replace (length (le_bytes 8 _)) with 8%nat by done. simpl length.
  rewrite !Nat2Z.inj_add, Z2Nat.id by (apply Z.mod_pos_bound; lia).
  set (n := Z.of_nat (length message)). pose proof (Z.div_mod (55 - n) 64).
  replace (n + _) with ((1 - (55 - n) / 64) * 64) by lia. apply Z.mod_mul. lia.
Qed.

(** A block takes 64 bytes, so that [length bytes] is fuel enough. *)
Lemma md5_blocks_fuel fuel fuel' bytes st :
  (length bytes ≤ fuel)%nat → (length bytes ≤ fuel')%nat →
  md5_blocks fuel bytes st = md5_blocks fuel' bytes st.
Proof.
  revert fuel' bytes st. induction fuel as [|fuel IH]; intros fuel' bytes st H H'.
  - destruct bytes; [by destruct fuel'|simpl in H; lia].
  - destruct bytes as [|b bytes]; [by destruct fuel'|]. destruct fuel' as [|fuel']; [simpl in H'; lia|].
    cbn [md5_blocks]. apply IH; rewrite length_drop; simpl in *; lia.
Qed.

Lemma hex_string_length bytes : String.length (hex_string bytes) = (2 * length bytes)%nat.
Proof.
  induction bytes as [|b bytes IH]; [done|].
  change (S (S (String.length (hex_string bytes))) = 2 * S (length bytes))%nat. lia.
Qed.

Lemma md5_hex_length s : String.length (md5_hex s) = 32%nat.
Proof.
  unfold md5_hex, md5_sum. rewrite hex_string_length. by destruct (md5_blocks _ _ _).
Qed.

(** The test suite of RFC 1321. *)
Example md5_empty : md5_hex "" = "d41d8cd98f00b204e9800998ecf8427e".
Proof. vm_compute. reflexivity. Qed.
Example md5_abc : md5_hex "abc" = "900150983cd24fb0d6963f7d28e17f72".
Proof. vm_compute. reflexivity. Qed.
Example md5_two_blocks :
  md5_hex "12345678901234567890123456789012345678901234567890123456789012345678901234567890"
  = "57edf4a22be3c955ac49da2e2107b67a".
Proof. vm_compute. reflexivity. Qed.

#[global] Opaque md5_hex.
