(* ===== verification/Notifications.v ===== *)
(** * Hints that a boundary has changed: [orisun/notification_relay.go], [sqlite/event_signal.go]
and [postgres/pg_listener.go]

A backend signals that events of a boundary were stored; the relay of the boundary publishes a
hint for the subscriptions. A signal is a Go channel with room for one value: further wake-ups
are dropped while one is pending. What the relay needs of a backend is the class
[SignalSource]; the notifier of SQLite and the listener of PostgreSQL are its instances. *)

From stdpp Require Import options.
From S2P Require Import Prelude Status Model SqliteLog PgStore.

Set Default Proof Using "Type*".

(** ** What a backend promises *)

(** [src_signal] is [Signal(boundary)], with the channel of the signal or nil; [src_full] tells
whether a wake-up is pending in a channel, [src_take] receives it; [src_stop] is [Stop];
[src_commit] happens when events of the boundary were stored; [src_do] is what the backend
does by itself. A wake-up of a channel is [src_coming] when it is pending or on its way, and
[src_quiet] when nothing is on its way. *)
Class SignalSource (St act : Type) := {
  src_signal : string → St → option nat * St;
  src_full : St → nat → Prop;
  src_take : nat → St → St;
  src_stop : string → nat → St → St;
  src_commit : string → St → St;
  src_do : act → St → option St;
  src_inv : St → Prop;
  src_live : St → string → nat → Prop;
  src_coming : St → string → nat → Prop;
  src_quiet : St → Prop }.

(** How a state follows another for the signals that [P] keeps. *)
Definition keeps_signals `{SignalSource St act} (P : string → nat → Prop) (s s' : St) : Prop :=
  ∀ b ch, P b ch → src_live s b ch →
    src_live s' b ch ∧ (src_coming s b ch → src_coming s' b ch).

Class SignalSourceLaws (St act : Type) `{!SignalSource St act} : Prop := {
  src_distinct s b b' ch :
    src_inv s → src_live s b ch → src_live s b' ch → b = b';
  src_signal_law b s o s' :
    src_inv s → src_signal b s = (o, s') →
    src_inv s' ∧ keeps_signals (λ _ _, True) s s' ∧ ∀ ch, o = Some ch → src_live s' b ch;
  src_take_law ch s :
    src_inv s → src_inv (src_take ch s) ∧ keeps_signals (λ _ ch', ch' ≠ ch) s (src_take ch s)
    ∧ ∀ b, src_live s b ch → src_live (src_take ch s) b ch;
  src_stop_law b ch s :
    src_inv s → src_inv (src_stop b ch s)
    ∧ keeps_signals (λ b' _, b' ≠ b) s (src_stop b ch s);
  src_commit_law b s :
    src_inv s → src_inv (src_commit b s) ∧ keeps_signals (λ _ _, True) s (src_commit b s)
    ∧ ∀ ch, src_live s b ch → src_coming (src_commit b s) b ch;
  src_do_law a s s' :
    src_inv s → src_do a s = Some s' → src_inv s' ∧ keeps_signals (λ _ _, True) s s';
  src_quiet_law s b ch :
    src_inv s → src_quiet s → src_live s b ch → src_coming s b ch → src_full s ch }.

(** ** The relay: [orisun/notification_relay.go] *)

Definition GetNotificationSubjectName (boundary : string) : string :=
  "ORISUN_NOTIFICATIONS___" +:+ boundary +:+ ".changed.v1".

(** Where [runBoundary] and [relayBoundaryNotifications] are. *)
Inductive relay_pc :=
| RAcquire                 (* AcquireLock *)
| RCheck (ch : nat)        (* lease.Check *)
| RPublish (ch : nat)      (* conn.Publish *)
| RRetry (ch : nat)        (* backoff after a failed publish *)
| RWait (ch : nat)         (* signal.Wait *)
| RBackoff.                (* backoff before the next AcquireLock *)

(** [BoundaryNotificationManager] with the places of its goroutines, the backend, and the
boundaries with stored events that no hint followed yet. A boundary leaves [rl_running] when its
goroutine ends, which it does only after [Stop], when [StartBoundary] no longer looks there. *)
Record relays (St : Type) := mkRelays {
  rl_source : St;
  rl_running : gmap string relay_pc;
  rl_stopped : bool;
  rl_owed : gset string }.
Arguments mkRelays {St}.
Arguments rl_source {St}.
Arguments rl_running {St}.
Arguments rl_stopped {St}.
Arguments rl_owed {St}.

Section Relay.
Context {St act : Type} `{Src : !SignalSource St act}.

Definition StartNotificationRelays (s : St) : relays St := mkRelays s ∅ false ∅.

Definition StartBoundary (boundary : string) (r : relays St) : result unit * relays St :=
  match ValidateName boundary with
  | Err e => (Err e, r)
  | Ok _ =>
      if rl_stopped r then (Err (PlainError "boundary notification manager has stopped"), r)
      else match rl_running r !! boundary with
           | Some _ => (Ok tt, r)
           | None => (Ok tt, mkRelays (rl_source r) (<[boundary := RAcquire]> (rl_running r))
                               (rl_stopped r) (rl_owed r))
           end
  end.

(** [Stop]: the relays end at their next operation. *)
Definition Stop (r : relays St) : relays St :=
  mkRelays (rl_source r) (rl_running r) true (rl_owed r).

Definition relay_at (boundary : string) (pc : relay_pc) (s : St) (r : relays St) : relays St :=
  mkRelays s (<[boundary := pc]> (rl_running r)) (rl_stopped r) (rl_owed r).

(** The end of [relayBoundaryNotifications]: the signal is stopped, the lease released. *)
Definition relay_ends (boundary : string) (ch : nat) (r : relays St) : relays St :=
  relay_at boundary RBackoff (src_stop boundary ch (rl_source r)) r.

(** One operation of the relay of a boundary; [ok] is whether what it calls succeeds. *)
Definition relay_step (boundary : string) (ok : bool) (r : relays St) : option (relays St) :=
  match rl_running r !! boundary with
  | None => None
  | Some RAcquire =>
      if negb ok then Some (relay_at boundary RBackoff (rl_source r) r)
      else match src_signal boundary (rl_source r) with
           | (None, s) => Some (relay_at boundary RBackoff s r)
           | (Some ch, s) => Some (relay_at boundary (RCheck ch) s r)
           end
  | Some (RCheck ch) =>
      if ok then Some (relay_at boundary (RPublish ch) (rl_source r) r)
      else Some (relay_ends boundary ch r)
  | Some (RPublish ch) =>
      if ok then Some (mkRelays (rl_source r) (<[boundary := RWait ch]> (rl_running r))
                         (rl_stopped r) (rl_owed r ∖ {[ boundary ]}))
      else Some (relay_at boundary (RRetry ch) (rl_source r) r)
  | Some (RRetry ch) =>
      if ok then Some (relay_at boundary (RCheck ch) (rl_source r) r)
      else Some (relay_ends boundary ch r)
  | Some (RWait ch) =>
      if negb ok then Some (relay_ends boundary ch r)
      else Some (relay_at boundary (RCheck ch) (src_take ch (rl_source r)) r)
  | Some RBackoff =>
      if rl_stopped r then Some (mkRelays (rl_source r) (delete boundary (rl_running r))
                                   (rl_stopped r) (rl_owed r))
      else Some (relay_at boundary RAcquire (rl_source r) r)
  end.

Inductive relay_label :=
| LCommit (boundary : string)
| LSource (a : act)
| LStart (boundary : string)
| LStop
| LRelay (boundary : string) (ok : bool).

(** A relay that waits goes on only with a wake-up. *)
Definition relay_enabled (l : relay_label) (r : relays St) : Prop :=
  match l with
  | LRelay b true => ∀ ch, rl_running r !! b = Some (RWait ch) → src_full (rl_source r) ch
  | _ => True
  end.

Definition relays_step (l : relay_label) (r : relays St) : option (relays St) :=
  match l with
  | LCommit b => Some (mkRelays (src_commit b (rl_source r)) (rl_running r) (rl_stopped r)
                         ({[ b ]} ∪ rl_owed r))
  | LSource a => (λ s, mkRelays s (rl_running r) (rl_stopped r) (rl_owed r))
                   <$> src_do a (rl_source r)
  | LStart b => Some (StartBoundary b r).2
  | LStop => Some (Stop r)
  | LRelay b ok => relay_step b ok r
  end.

Inductive relays_run : relays St → list relay_label → relays St → Prop :=
| run_nil r : relays_run r [] r
| run_cons r l r' ls r'' :
    relay_enabled l r → relays_step l r = Some r' → relays_run r' ls r'' →
    relays_run r (l :: ls) r''.

(** The run as a function, where a pending wake-up is decidable. *)
Fixpoint relays_exec `{Hdec : ∀ (s : St) ch, Decision (src_full s ch)} (ls : list relay_label)
    (r : relays St) : option (relays St) :=
  match ls with
  | [] => Some r
  | l :: ls =>
      let enabled :=
        match l with
        | LRelay b true =>
            match rl_running r !! b with
            | Some (RWait ch) => bool_decide (src_full (rl_source r) ch)
            | _ => true
            end
        | _ => true
        end in
      if enabled then r' ← relays_step l r; relays_exec ls r' else None
  end.

Lemma relays_exec_run `{Hdec : ∀ (s : St) ch, Decision (src_full s ch)} ls r r' :
  relays_exec ls r = Some r' → relays_run r ls r'.
Proof using Type.
  revert r. induction ls as [|l ls IH]; intros r H; cbn [relays_exec] in H.
  { injection H as <-. constructor. }
  match type of H with (if ?e then _ else _) = _ => destruct e eqn:E end; [|done].
  apply bind_Some in H as (r1 & H1 & H). apply run_cons with r1; [|done|by apply IH].
  destruct l as [| | | |b [|]]; try done. intros ch Hch. rewrite Hch in E.
  by apply bool_decide_eq_true in E.
Qed.

(** *** No hint is lost *)

(** The channel that a relay waits on or will wait on. *)
Definition relay_channel (pc : relay_pc) : option nat :=
  match pc with
  | RCheck ch | RPublish ch | RRetry ch | RWait ch => Some ch
  | RAcquire | RBackoff => None
  end.

Record relays_inv (r : relays St) : Prop := {
  ri_source : src_inv (rl_source r);
  ri_live b pc ch :
    rl_running r !! b = Some pc → relay_channel pc = Some ch → src_live (rl_source r) b ch;
  ri_owed b ch :
    rl_running r !! b = Some (RWait ch) → b ∈ rl_owed r → src_coming (rl_source r) b ch }.

Context `{Laws : !SignalSourceLaws St act}.

(** The source moves and the relays stay where they are. *)
Lemma relays_inv_source r s (Q : string → nat → Prop) running owed :
  relays_inv r → src_inv s → keeps_signals Q (rl_source r) s →
  (∀ b pc ch, running !! b = Some pc → relay_channel pc = Some ch →
     (rl_running r !! b = Some pc ∧ Q b ch ∧ (b ∈ owed → b ∈ rl_owed r))
     ∨ (src_live s b ch ∧ (∀ ch', pc = RWait ch' → b ∈ owed → src_coming s b ch))) →
  relays_inv (mkRelays s running (rl_stopped r) owed).
Proof using Type.
  intros [Hs Hl Ho] Hs' Hk Hrun. split; simpl; [done| |].
  - intros b pc ch Hb Hch. destruct (Hrun b pc ch Hb Hch) as [(Hr & HQ & _)|[? _]]; [|done].
    apply (Hk b ch HQ). by eapply Hl.
  - intros b ch Hb Hin. destruct (Hrun b _ ch Hb eq_refl) as [(Hr & HQ & Hio)|[_ Hc]].
    + apply (Hk b ch HQ); [by eapply Hl|]. by apply Ho; [|apply Hio].
    + by eapply Hc.
Qed.

(** The relay of [b] moves to a place where it owes nothing yet. *)
Lemma relays_inv_at r s (Q : string → nat → Prop) b pc :
  relays_inv r → src_inv s → keeps_signals Q (rl_source r) s →
  (∀ b' pc' ch, b' ≠ b → rl_running r !! b' = Some pc' → relay_channel pc' = Some ch → Q b' ch) →
  (∀ ch, relay_channel pc = Some ch → src_live s b ch) → (∀ ch, pc ≠ RWait ch) →
  relays_inv (relay_at b pc s r).
Proof using Type.
  intros Hinv Hs Hk HQ Hlive Hw. apply (relays_inv_source _ _ Q); [done..|].
  intros b' pc' ch. rewrite lookup_insert_Some. intros [[<- <-]|[Hne Hb]] Hch.
  - right. split; [by apply Hlive|]. intros ch' Heq. by destruct (Hw ch').
  - left. split_and!; [done| |done]. by eapply HQ.
Qed.

Lemma keeps_signals_refl (Q : string → nat → Prop) s : keeps_signals Q s s.
Proof using Type. by intros b ch _ ?. Qed.

Lemma relay_step_inv b ok r r' :
  relays_inv r → relay_step b ok r = Some r' → relays_inv r'.
Proof.
  intros Hinv H. pose proof Hinv as [Hs Hl Ho]. unfold relay_step in H.
  destruct (rl_running r !! b) as [pc|] eqn:Hb; [|done].
  assert (∀ pc', (∀ ch, relay_channel pc' = Some ch → relay_channel pc = Some ch) →
    (∀ ch, pc' ≠ RWait ch) → relays_inv (relay_at b pc' (rl_source r) r)) as Hmove.
  { intros pc' Hch Hw. apply (relays_inv_at _ _ (λ _ _, True));
      [done|done|apply keeps_signals_refl|done| |done].
    intros ch Hc. eapply Hl; [done|]. by apply Hch. }
  assert (∀ ch, relay_channel pc = Some ch → relays_inv (relay_ends b ch r)) as Hend.
  { intros ch _. destruct (src_stop_law b ch _ Hs) as [Hs' Hk].
    by apply (relays_inv_at _ _ (λ b' _, b' ≠ b)). }
  destruct pc as [|ch|ch|ch|ch|].
  - destruct ok; simpl in H; [|injection H as <-; by apply Hmove].
    destruct (src_signal b (rl_source r)) as [[ch|] s] eqn:E; injection H as <-;
      destruct (src_signal_law _ _ _ _ Hs E) as (Hs' & Hk & Hch);
      by apply (relays_inv_at _ _ (λ _ _, True)).
  - destruct ok; injection H as <-; [by apply Hmove|by apply Hend].
  - destruct ok; injection H as <-; [|by apply Hmove].
    apply (relays_inv_source _ _ (λ _ _, True)); [done|done|apply keeps_signals_refl|].
    intros b' pc' ch'. rewrite lookup_insert_Some. intros [[<- <-]|[Hne Hb']] Hch.
    + right. split; [by eapply Hl|]. set_solver.
    + left. set_solver.
  - destruct ok; injection H as <-; [by apply Hmove|by apply Hend].
  - destruct ok; injection H as <-; [|by apply Hend].
    destruct (src_take_law ch _ Hs) as (Hs' & Hk & Hlive).
    apply (relays_inv_at _ _ (λ _ ch', ch' ≠ ch)); [done..| | |done].
    + intros b' pc' ch' Hne Hb' Hch' ->. apply Hne.
      exact (src_distinct _ _ _ _ Hs (Hl _ _ _ Hb' Hch') (Hl _ _ _ Hb eq_refl)).
    + intros ch' [= <-]. exact (Hlive _ (Hl _ _ _ Hb eq_refl)).
  - destruct (rl_stopped r) eqn:Hst; injection H as <-; [|by apply Hmove].
    rewrite <-Hst. apply (relays_inv_source _ _ (λ _ _, True)); [done|done|apply keeps_signals_refl|].
    intros b' pc' ch'. rewrite lookup_delete_Some. intros [_ Hb'] _. by left.
Qed.

Lemma relays_step_inv l r r' :
  relays_inv r → relays_step l r = Some r' → relays_inv r'.
Proof.
  intros Hinv H. pose proof Hinv as [Hs Hl Ho]. destruct l as [b|a|b| |b ok]; simpl in H.
  - injection H as <-. destruct (src_commit_law b _ Hs) as (Hs' & Hk & Hc).
    apply (relays_inv_source _ _ (λ _ _, True)); [done..|]. intros b' pc ch Hb Hch.
    destruct (decide (b' = b)) as [->|]; [right|left; set_solver].
    pose proof (Hl _ _ _ Hb Hch) as Hlive. split; [by apply (Hk b ch)|]. intros _ _ _. by apply Hc.
  - apply fmap_Some in H as (s & Hdo & ->). destruct (src_do_law _ _ _ Hs Hdo) as [Hs' Hk].
    apply (relays_inv_source _ _ (λ _ _, True)); [done..|]. by left.
  - injection H as <-. unfold StartBoundary. destruct (ValidateName b); [|done].
    destruct (rl_stopped r) eqn:Hst; [done|]. destruct (rl_running r !! b); [done|]. simpl.
    rewrite <-Hst. apply (relays_inv_source _ _ (λ _ _, True));
      [done|done|apply keeps_signals_refl|]. intros b' pc ch. rewrite lookup_insert_Some.
    intros [[<- <-]|[_ Hb]]; [done|]. by left.
  - injection H as <-. split; simpl; [done|exact Hl|exact Ho].
  - by eapply relay_step_inv.
Qed.

Lemma relays_run_inv r ls r' : relays_run r ls r' → relays_inv r → relays_inv r'.
Proof. induction 1; [done|]. intros. apply IHrelays_run. by eapply relays_step_inv. Qed.

Lemma start_relays_inv s : src_inv s → relays_inv (StartNotificationRelays s).
Proof using Type. intros H. by split. Qed.

(** The relay of a boundary waits, no wake-up is pending and nothing of the backend is on its
way. The relays of other boundaries may be anywhere. *)
Definition relay_waits (r : relays St) (b : string) : Prop :=
  src_quiet (rl_source r)
  ∧ ∃ ch, rl_running r !! b = Some (RWait ch) ∧ ¬ src_full (rl_source r) ch.

(** A hint followed every stored event of a boundary whose relay waits. *)
Lemma relay_waits_published r b : relays_inv r → relay_waits r b → b ∉ rl_owed r.
Proof.
  intros [Hs Hl Ho] (Hq & ch & Hb & Hn) Hin. apply Hn.
  eapply src_quiet_law; [done|done|by eapply Hl|by apply Ho].
Qed.

End Relay.

(** ** SQLite: [sqlite/event_signal.go] *)

(** The channels are numbered; [n_full] are those with a wake-up. [n_calls] are the flushes that
have committed and are about to call [Notify] ([executeFlush] of
[sqlite/group_commit_executor.go]). [n_late] are the timers that are no longer in the map and
whose functions may still run: [Stop] of a timer does not end a function that has begun. *)
Record SqliteEventNotifier := mkNotifier {
  n_wakeDelay : Z;
  n_signals : gmap string (gset nat);
  n_timers : gset string;
  n_full : gset nat;
  n_next : nat;
  n_calls : list string;
  n_late : list string }.

Definition NewSqliteEventNotifierWithWakeDelay (wakeDelay : Z) : SqliteEventNotifier :=
  mkNotifier (if (wakeDelay <? 0)%Z then 0 else wakeDelay) ∅ ∅ ∅ 0 [] [].
Definition NewSqliteEventNotifier : SqliteEventNotifier := NewSqliteEventNotifierWithWakeDelay 0.

Definition signals_of (n : SqliteEventNotifier) (boundary : string) : gset nat :=
  default ∅ (n_signals n !! boundary).

Definition notifier_Signal (boundary : string) (n : SqliteEventNotifier)
  : option nat * SqliteEventNotifier :=
  (Some (n_next n),
   mkNotifier (n_wakeDelay n) (<[boundary := {[ n_next n ]} ∪ signals_of n boundary]> (n_signals n))
     (n_timers n) (n_full n) (S (n_next n)) (n_calls n) (n_late n)).

Definition notifyLocked (boundary : string) (n : SqliteEventNotifier) : SqliteEventNotifier :=
  mkNotifier (n_wakeDelay n) (n_signals n) (n_timers n) (signals_of n boundary ∪ n_full n)
    (n_next n) (n_calls n) (n_late n).

Definition Notify (boundary : string) (n : SqliteEventNotifier) : SqliteEventNotifier :=
  if decide (signals_of n boundary = ∅) then n
  else if (0 <? n_wakeDelay n)%Z
       then if decide (boundary ∈ n_timers n) then n
            else mkNotifier (n_wakeDelay n) (n_signals n) ({[ boundary ]} ∪ n_timers n) (n_full n)
                   (n_next n) (n_calls n) (n_late n)
       else notifyLocked boundary n.

(** The function that the timer of a boundary runs. *)
Definition timer_fires (boundary : string) (n : SqliteEventNotifier) : SqliteEventNotifier :=
  notifyLocked boundary
    (mkNotifier (n_wakeDelay n) (n_signals n) (n_timers n ∖ {[ boundary ]}) (n_full n) (n_next n)
       (n_calls n) (n_late n)).

(** The timer of a boundary, when it leaves the map before its function has run. *)
Definition late_timer (boundary : string) (n : SqliteEventNotifier) : list string :=
  if decide (boundary ∈ n_timers n) then [boundary] else [].

Definition unregister (boundary : string) (ch : nat) (n : SqliteEventNotifier)
  : SqliteEventNotifier :=
  let signals := signals_of n boundary ∖ {[ ch ]} in
  if decide (signals = ∅)
  then mkNotifier (n_wakeDelay n) (delete boundary (n_signals n)) (n_timers n ∖ {[ boundary ]})
         (n_full n) (n_next n) (n_calls n) (late_timer boundary n ++ n_late n)
  else mkNotifier (n_wakeDelay n) (<[boundary := signals]> (n_signals n)) (n_timers n) (n_full n)
         (n_next n) (n_calls n) (n_late n).

Definition notifier_take (ch : nat) (n : SqliteEventNotifier) : SqliteEventNotifier :=
  mkNotifier (n_wakeDelay n) (n_signals n) (n_timers n) (n_full n ∖ {[ ch ]}) (n_next n)
    (n_calls n) (n_late n).

Definition notifier_commit (boundary : string) (n : SqliteEventNotifier) : SqliteEventNotifier :=
  mkNotifier (n_wakeDelay n) (n_signals n) (n_timers n) (n_full n) (n_next n)
    (boundary :: n_calls n) (n_late n).

Inductive notifier_act :=
| NNotify (before : list string) (boundary : string) (after : list string)
| NTimer (boundary : string)
| NLate (before : list string) (boundary : string) (after : list string).

(** One of the flushes calls [Notify], the function of a timer runs, or that of a timer which is
no longer in the map, which removes the timer that is. *)
Definition notifier_do (a : notifier_act) (n : SqliteEventNotifier) : option SqliteEventNotifier :=
  match a with
  | NNotify before b after =>
      if decide (n_calls n = before ++ b :: after) then
        Some (Notify b (mkNotifier (n_wakeDelay n) (n_signals n) (n_timers n) (n_full n) (n_next n)
                          (before ++ after) (n_late n)))
      else None
  | NTimer b => if decide (b ∈ n_timers n) then Some (timer_fires b n) else None
  | NLate before b after =>
      if decide (n_late n = before ++ b :: after) then
        Some (timer_fires b (mkNotifier (n_wakeDelay n) (n_signals n) (n_timers n) (n_full n)
                               (n_next n) (n_calls n) (late_timer b n ++ before ++ after)))
      else None
  end.

Record notifier_inv (n : SqliteEventNotifier) : Prop := {
  ni_next b ch : ch ∈ signals_of n b → ch < n_next n;
  ni_distinct b b' ch : ch ∈ signals_of n b → ch ∈ signals_of n b' → b = b' }.

#[export] Instance notifier_source : SignalSource SqliteEventNotifier notifier_act := {|
  src_signal := notifier_Signal;
  src_full n ch := ch ∈ n_full n;
  src_take := notifier_take;
  src_stop := unregister;
  src_commit := notifier_commit;
  src_do := notifier_do;
  src_inv := notifier_inv;
  src_live n b ch := ch ∈ signals_of n b;
  src_coming n b ch := ch ∈ n_full n ∨ b ∈ n_timers n ∨ b ∈ n_calls n;
  src_quiet n := n_timers n = ∅ ∧ n_calls n = [] |}.
#[export] Instance notifier_full_dec (n : SqliteEventNotifier) ch : Decision (src_full n ch) :=
  decide (ch ∈ n_full n).

Lemma signals_of_insert n b s w tm f x c lt b' :
  signals_of (mkNotifier w (<[b := s]> (n_signals n)) tm f x c lt) b'
  = if decide (b' = b) then s else signals_of n b'.
Proof.
  unfold signals_of. simpl. case_decide as H; [subst; by rewrite lookup_insert_eq|].
  by rewrite lookup_insert_ne.
Qed.

Lemma signals_of_delete n b w tm f x c lt b' :
  signals_of (mkNotifier w (delete b (n_signals n)) tm f x c lt) b'
  = if decide (b' = b) then ∅ else signals_of n b'.
Proof.
  unfold signals_of. simpl. case_decide as H; [subst; by rewrite lookup_delete_eq|].
  by rewrite lookup_delete_ne.
Qed.

Lemma Notify_law b n :
  notifier_inv n →
  notifier_inv (Notify b n) ∧ (∀ b', signals_of (Notify b n) b' = signals_of n b')
  ∧ n_calls (Notify b n) = n_calls n ∧ n_full n ⊆ n_full (Notify b n)
  ∧ n_timers n ⊆ n_timers (Notify b n)
  ∧ (∀ ch, ch ∈ signals_of n b → ch ∈ n_full (Notify b n) ∨ b ∈ n_timers (Notify b n)).
Proof.
  intros [H1 H2]. unfold Notify, notifyLocked.
  destruct (decide (signals_of n b = ∅)) as [He|Hne];
    [split_and!; [by split|set_solver..]|].
  destruct (0 <? n_wakeDelay n)%Z; [case_decide|]; split_and!; simpl;
    first [by split|done|set_solver].
Qed.

Lemma timer_fires_law b n :
  notifier_inv n →
  notifier_inv (timer_fires b n) ∧ keeps_signals (λ _ _, True) n (timer_fires b n).
Proof.
  intros [H1 H2]. split; [by split|]. intros b' ch _ Hl. split; [done|]. simpl.
  unfold signals_of at 1. simpl. fold (signals_of n b).
  destruct (decide (b' = b)) as [->|]; set_solver.
Qed.

#[export] Instance notifier_laws : SignalSourceLaws SqliteEventNotifier notifier_act.
Proof.
  split; simpl.
  - intros n b b' ch [_ H]. apply H.
  - intros b n o n' [H1 H2] [= <- <-]. split_and!.
    + split; simpl; intros *; rewrite !signals_of_insert; repeat case_decide; subst;
        rewrite ?elem_of_union, ?elem_of_singleton.
      * intros [->|Hin]; [lia|]. specialize (H1 _ _ Hin). lia.
      * intros Hin. specialize (H1 _ _ Hin). lia.
      * done.
      * intros [->|Hin] Hin'; [specialize (H1 _ _ Hin'); lia|by eapply H2].
      * intros Hin [->|Hin']; [specialize (H1 _ _ Hin); lia|by eapply H2].
      * apply H2.
    + intros b' ch _ Hl. cbn [src_live src_coming notifier_source] in *. rewrite signals_of_insert. split; [|done]. case_decide; subst; set_solver.
    + intros ch [= <-]. rewrite signals_of_insert, decide_True by done. set_solver.
  - intros ch n [H1 H2]. split_and!; [by split| |done].
    intros b ch' Hne Hl. split; [done|]. simpl. set_solver.
  - intros b ch n [H1 H2]. unfold unregister. case_decide as He.
    + split.
      * split; simpl; intros *; rewrite !signals_of_delete; repeat case_decide; try done;
          [apply H1|apply H2].
      * intros b' ch' Hne Hl. cbn [src_live src_coming notifier_source] in *.
        rewrite signals_of_delete, decide_False by done.
        split; [done|]. simpl. set_solver.
    + split.
      * split; simpl; intros *; rewrite !signals_of_insert; repeat case_decide; subst;
          rewrite ?elem_of_difference; try done; [|apply H1| | |apply H2].
        -- intros [Hin _]. by eapply H1.
        -- intros [Hin _] Hin'. by eapply H2.
        -- intros Hin [Hin' _]. by eapply H2.
      * intros b' ch' Hne Hl. cbn [src_live src_coming notifier_source] in *.
        by rewrite signals_of_insert, decide_False.
  - intros b n [H1 H2]. split_and!; [by split| |].
    + intros b' ch _ Hl. split; [done|]. simpl. set_solver.
    + intros ch _. simpl. set_solver.
  - intros a n n' Hinv H. destruct a as [before b after|b|before b after]; simpl in H; case_decide as Hc; try done;
      injection H as <-.
    + set (n1 := mkNotifier _ _ _ _ _ (before ++ after) _).
      destruct (Notify_law b n1) as (Hi & Hs & Hcalls & Hf & Ht & Hw); [by destruct Hinv|].
      split; [done|]. intros b' ch _ Hl. cbn [src_live src_coming notifier_source] in *. rewrite Hs. split; [done|]. rewrite Hcalls, Hc. simpl in *.
      intros [?|[?|Hin]]; [set_solver..|].
      destruct (decide (b' = b)) as [->|]; [|set_solver]. destruct (Hw ch Hl); auto.
    + by apply timer_fires_law.
    + destruct (timer_fires_law b (mkNotifier (n_wakeDelay n) (n_signals n) (n_timers n) (n_full n)
        (n_next n) (n_calls n) (late_timer b n ++ before ++ after))) as [? Hk]; [by destruct Hinv|].
      split; [done|exact Hk].
  - intros n b ch _ [Ht Hc] _. rewrite Ht, Hc. set_solver.
Qed.

(** ** No hint of SQLite is lost *)

(** C16: the relays of an installation with SQLite, in any interleaving of their operations with
the flushes, the timers and the failures of the lock, of the lease and of the publisher: a
boundary whose relay waits, when no wake-up is pending or on its way, has had a hint since its
last stored event. *)
Theorem sqlite_hints_not_lost wakeDelay ls r b :
  relays_run (StartNotificationRelays (NewSqliteEventNotifierWithWakeDelay wakeDelay)) ls r →
  relay_waits r b → b ∉ rl_owed r.
Proof.
  intros Hrun Hw. apply relay_waits_published; [|done].
  eapply relays_run_inv; [exact Hrun|]. apply start_relays_inv. split; intros *; set_solver.
Qed.

(** A delayed wake-up for two flushes; the publication that follows it fails at first. *)
Definition sqlite_hint_run : list (relay_label (act := notifier_act)) :=
  [LStart "orders"; LRelay "orders" true; LRelay "orders" true; LCommit "orders";
   LRelay "orders" true; LSource (NNotify [] "orders" []); LCommit "orders";
   LSource (NNotify [] "orders" []); LSource (NTimer "orders"); LRelay "orders" true;
   LRelay "orders" true; LRelay "orders" false; LRelay "orders" true; LRelay "orders" true;
   LRelay "orders" true].

Definition sqlite_hints_after : relays SqliteEventNotifier :=
  mkRelays (mkNotifier 5 {[ "orders" := {[ 0 ]} ]} ∅ ∅ 1 [] []) {[ "orders" := RWait 0 ]} false ∅.

Lemma sqlite_hints_not_lost_witness :
  relays_run (StartNotificationRelays (NewSqliteEventNotifierWithWakeDelay 5)) sqlite_hint_run
    sqlite_hints_after ∧ "orders" ∉ rl_owed sqlite_hints_after.
Proof.
  assert (relays_run (StartNotificationRelays (NewSqliteEventNotifierWithWakeDelay 5))
    sqlite_hint_run sqlite_hints_after) as Hrun.
  { apply relays_exec_run. vm_compute. reflexivity. }
  split; [exact Hrun|]. apply (sqlite_hints_not_lost 5 _ _ "orders" Hrun).
  split; [done|]. exists 0. split; [reflexivity|]. cbn. apply not_elem_of_empty.
Defined.
