(* ===== verification/PgListener.v ===== *)
(** * [PGNotifyListener]: [postgres/pg_listener.go]

The goroutine of [Start] owns the connection of the listener: it serves the requests of
[EnsureBoundary], waits for notifications, and connects again when the connection breaks.
The server queues a notification for every connection that listens on the channel of a
boundary when events of it are committed. *)

From stdpp Require Import options.
From S2P Require Import Prelude Status Model SqliteLog PgStore Md5 Notifications.

Set Default Proof Using "Type*".

(** The hash is that of PL/pgSQL ([pg_notify] of [scripts/common/db_scripts_1.sql]). *)
Definition pgNotifyChannelForBoundary (boundary : string) : string :=
  "orisun_events_" +:+ md5_hex boundary.

(** PostgreSQL cuts identifiers at 63 bytes: the name of a channel is never cut. *)
Lemma channel_fits boundary : String.length (pgNotifyChannelForBoundary boundary) = 46.
Proof.
  change (14 + String.length (md5_hex boundary) = 46). by rewrite md5_hex_length.
Qed.

(** A connection: the channels it listens on, the notifications that it has not returned yet,
and whether the server still reaches it. *)
Record pgconn := mkPgConn {
  cn_listening : gset string; cn_buffer : list string; cn_alive : bool }.

Record boundaryListenRequest := mkListenRequest { lr_boundary : string; lr_id : nat }.

(** Where [Start] is. *)
Inductive listener_pc :=
| LTop                                             (* nextListenRequest *)
| LListen (request : boundaryListenRequest)        (* LISTEN of listenBoundary *)
| LRegister (request : boundaryListenRequest)      (* the rest of listenBoundary *)
| LArm                                             (* armNotificationWait *)
| LWait                                            (* WaitForNotification *)
| LReconnect                                       (* reconnect, before Connect *)
| LRelisten (conn : pgconn) (todo : list string)   (* the LISTENs on a new connection *)
| LDone.

(** [pl_mapping] are the keys of [boundarySchemaMapping], [pl_armed] and [pl_canceled] whether
[waitCancel] is set and has been called, [pl_results] the results sent to the requests. The
signals are numbers of Go channels; [pl_full] are those with a wake-up. *)
Record PGNotifyListener := mkListener {
  pl_conn : pgconn;
  pl_mapping : gset string;
  pl_signals : gmap string nat;
  pl_channelSignals : gmap string nat;
  pl_full : gset nat;
  pl_next : nat;
  pl_pending : list boundaryListenRequest;
  pl_armed : bool;
  pl_canceled : bool;
  pl_results : gmap nat (result unit);
  pl_pc : listener_pc }.

Section Listener.
Notation channel := pgNotifyChannelForBoundary.

(** ** Updates *)

Definition at_pc (pc : listener_pc) (l : PGNotifyListener) : PGNotifyListener :=
  mkListener (pl_conn l) (pl_mapping l) (pl_signals l) (pl_channelSignals l) (pl_full l)
    (pl_next l) (pl_pending l) (pl_armed l) (pl_canceled l) (pl_results l) pc.
Definition set_conn (c : pgconn) (l : PGNotifyListener) : PGNotifyListener :=
  mkListener c (pl_mapping l) (pl_signals l) (pl_channelSignals l) (pl_full l)
    (pl_next l) (pl_pending l) (pl_armed l) (pl_canceled l) (pl_results l) (pl_pc l).
Definition set_full (f : gset nat) (l : PGNotifyListener) : PGNotifyListener :=
  mkListener (pl_conn l) (pl_mapping l) (pl_signals l) (pl_channelSignals l) f
    (pl_next l) (pl_pending l) (pl_armed l) (pl_canceled l) (pl_results l) (pl_pc l).
Definition set_pending (p : list boundaryListenRequest) (armed canceled : bool)
    (l : PGNotifyListener) : PGNotifyListener :=
  mkListener (pl_conn l) (pl_mapping l) (pl_signals l) (pl_channelSignals l) (pl_full l)
    (pl_next l) p armed canceled (pl_results l) (pl_pc l).
Definition answer (request : boundaryListenRequest) (r : result unit) (l : PGNotifyListener)
  : PGNotifyListener :=
  mkListener (pl_conn l) (pl_mapping l) (pl_signals l) (pl_channelSignals l) (pl_full l)
    (pl_next l) (pl_pending l) (pl_armed l) (pl_canceled l)
    (<[lr_id request := r]> (pl_results l)) (pl_pc l).

(** A new Go channel for the signal of a boundary. *)
Definition add_signal (boundary : string) (l : PGNotifyListener) : PGNotifyListener :=
  mkListener (pl_conn l) ({[ boundary ]} ∪ pl_mapping l) (<[boundary := pl_next l]> (pl_signals l))
    (<[channel boundary := pl_next l]> (pl_channelSignals l)) (pl_full l)
    (S (pl_next l)) (pl_pending l) (pl_armed l) (pl_canceled l) (pl_results l) (pl_pc l).

Definition listen (boundary : string) (c : pgconn) : pgconn :=
  mkPgConn ({[ channel boundary ]} ∪ cn_listening c) (cn_buffer c) (cn_alive c).

(** ** Operations *)

(** [boundaries] in the order of the iteration; [failing] is the LISTEN that fails, if any. *)
Fixpoint listen_all (failing : option string) (boundaries : list string) (l : PGNotifyListener)
  : result PGNotifyListener :=
  match boundaries with
  | [] => Ok l
  | b :: boundaries =>
      if decide (failing = Some b) then Err (PlainError "LISTEN %s: %w")
      else listen_all failing boundaries (add_signal b (set_conn (listen b (pl_conn l)) l))
  end.

Definition NewPGNotifyListener (connect : option goerror) (failing : option string)
    (boundaries : list string) : result PGNotifyListener :=
  match connect with
  | Some e => Err (Wrapped "pg_notify listener connect: %w" e)
  | None => listen_all failing boundaries
              (mkListener (mkPgConn ∅ [] true) ∅ ∅ ∅ ∅ 0 [] false false ∅ LTop)
  end.

(** [EnsureBoundary] up to the wait for its result. *)
Definition EnsureBoundary (boundary : string) (id : nat) (l : PGNotifyListener)
  : option (result unit) * PGNotifyListener :=
  match validateBoundaryName boundary with
  | Err e => (Some (Err (Wrapped "invalid boundary name %s: %w" e)), l)
  | Ok _ =>
      if decide (is_Some (pl_signals l !! boundary)) then (Some (Ok tt), l)
      else (None, set_pending (pl_pending l ++ [mkListenRequest boundary id]) (pl_armed l)
                    (pl_canceled l || pl_armed l) l)
  end.

(** The first section of [listenBoundary]. *)
Definition listenBoundary_start (request : boundaryListenRequest) (l : PGNotifyListener)
  : PGNotifyListener :=
  if decide (is_Some (pl_signals l !! lr_boundary request))
  then at_pc LTop (answer request (Ok tt) l)
  else at_pc (LListen request) l.

(** The oldest request is taken and served, or the wait is next. *)
Definition nextListenRequest (l : PGNotifyListener) : PGNotifyListener :=
  match pl_pending l with
  | [] => at_pc LArm l
  | request :: pending =>
      listenBoundary_start request (set_pending pending (pl_armed l) (pl_canceled l) l)
  end.

(** LISTEN; a failure may have reached the server. *)
Definition listenBoundary (failed : option (goerror * bool)) (request : boundaryListenRequest)
    (l : PGNotifyListener) : PGNotifyListener :=
  match failed with
  | Some (e, reached) =>
      at_pc LTop (answer request (Err (Wrapped "LISTEN %s: %w" e))
        (if reached then set_conn (listen (lr_boundary request) (pl_conn l)) l else l))
  | None => at_pc (LRegister request) (set_conn (listen (lr_boundary request) (pl_conn l)) l)
  end.

Definition registerBoundary (request : boundaryListenRequest) (l : PGNotifyListener)
  : PGNotifyListener :=
  at_pc LTop (answer request (Ok tt)
    (if decide (is_Some (pl_signals l !! lr_boundary request)) then l
     else add_signal (lr_boundary request) l)).

Definition armNotificationWait (l : PGNotifyListener) : PGNotifyListener :=
  match pl_pending l with
  | [] => at_pc LWait (set_pending [] true false l)
  | _ => at_pc LTop l
  end.

Definition disarmNotificationWait (l : PGNotifyListener) : PGNotifyListener :=
  set_pending (pl_pending l) false false l.

Definition dispatch (name : string) (l : PGNotifyListener) : PGNotifyListener :=
  match pl_channelSignals l !! name with
  | None => l
  | Some ch => set_full ({[ ch ]} ∪ pl_full l) l
  end.

(** How [WaitForNotification] ends beside a notification. *)
Inductive wait_error := WNone | WCanceled | WBroken | WDone.

Definition after_wait (err : wait_error) : listener_pc :=
  match err with WNone | WCanceled => LTop | WBroken => LReconnect | WDone => LDone end.

(** The notification that the wait returns is the oldest one. *)
Definition waited (notified : bool) (err : wait_error) (l : PGNotifyListener)
  : option PGNotifyListener :=
  match notified, cn_buffer (pl_conn l), err with
  | true, name :: buffer, _ =>
      let c := pl_conn l in
      Some (at_pc (after_wait err)
        (dispatch name (disarmNotificationWait
           (set_conn (mkPgConn (cn_listening c) buffer (cn_alive c)) l))))
  | false, _, WCanceled =>
      if pl_canceled l then Some (at_pc LTop (disarmNotificationWait l)) else None
  | false, _, WBroken => Some (at_pc LReconnect (disarmNotificationWait l))
  | false, _, WDone => Some (at_pc LDone (disarmNotificationWait l))
  | _, _, _ => None
  end.

Definition wakeRegisteredBoundaries (l : PGNotifyListener) : PGNotifyListener :=
  set_full (list_to_set (map_to_list (pl_signals l)).*2 ∪ pl_full l) l.

(** One turn of [reconnect]: a new connection, its LISTENs in any order of the boundaries, the
exchange of the connections. *)
Definition reconnect_step (ok : bool) (order : list string) (l : PGNotifyListener)
  : option PGNotifyListener :=
  match pl_pc l with
  | LReconnect =>
      if negb ok then Some l
      else if decide (list_to_set order = pl_mapping l)
           then Some (at_pc (LRelisten (mkPgConn ∅ [] true) order) l)
           else None
  | LRelisten c (b :: todo) =>
      if ok then Some (at_pc (LRelisten (listen b c) todo) l) else Some (at_pc LReconnect l)
  | LRelisten c [] => Some (at_pc LTop (wakeRegisteredBoundaries (set_conn c l)))
  | _ => None
  end.

(** [Signal]. *)
Definition listener_Signal (boundary : string) (l : PGNotifyListener)
  : option nat * PGNotifyListener := (pl_signals l !! boundary, l).

(** [Wait] of the signal receives the wake-up. *)
Definition signal_take (ch : nat) (l : PGNotifyListener) : PGNotifyListener :=
  set_full (pl_full l ∖ {[ ch ]}) l.

(** ** The server *)

Definition notify_conn (name : string) (c : pgconn) : pgconn :=
  if cn_alive c && bool_decide (name ∈ cn_listening c)
  then mkPgConn (cn_listening c) (cn_buffer c ++ [name]) true else c.

(** [pg_notify] of a transaction that commits events of a boundary. *)
Definition server_commit (boundary : string) (l : PGNotifyListener) : PGNotifyListener :=
  let l := set_conn (notify_conn (channel boundary) (pl_conn l)) l in
  match pl_pc l with
  | LRelisten c todo => at_pc (LRelisten (notify_conn (channel boundary) c) todo) l
  | _ => l
  end.

(** The connection breaks. *)
Definition break_conn (l : PGNotifyListener) : PGNotifyListener :=
  set_conn (mkPgConn (cn_listening (pl_conn l)) (cn_buffer (pl_conn l)) false) l.

Inductive listener_act :=
| ANext
| AListen (failed : option (goerror * bool))
| ARegister
| AArm
| AWait (notified : bool) (err : wait_error)
| AReconnect (ok : bool) (order : list string)
| ADone
| AEnsure (boundary : string) (id : nat)
| ABreak.

Definition listener_do (a : listener_act) (l : PGNotifyListener) : option PGNotifyListener :=
  match a, pl_pc l with
  | ANext, LTop => Some (nextListenRequest l)
  | AListen failed, LListen request => Some (listenBoundary failed request l)
  | ARegister, LRegister request => Some (registerBoundary request l)
  | AArm, LArm => Some (armNotificationWait l)
  | AWait notified err, LWait => waited notified err l
  | AReconnect ok order, _ => reconnect_step ok order l
  | ADone, LReconnect | ADone, LRelisten _ _ => Some (at_pc LDone l)
  | AEnsure b id, _ => Some (EnsureBoundary b id l).2
  | ABreak, _ => Some (break_conn l)
  | _, _ => None
  end.

(** ** What the listener promises *)

(** The boundaries of the installation have different hashes. *)
Context (known : gset string).
Context (md5_distinct : ∀ b b', b ∈ known → b' ∈ known → md5_hex b = md5_hex b' → b = b').

Definition reconnecting (pc : listener_pc) : bool :=
  match pc with LReconnect | LRelisten _ _ | LDone => true | _ => false end.

Definition pc_ok (l : PGNotifyListener) : Prop :=
  match pl_pc l with
  | LListen r => lr_boundary r ∈ known
  | LRegister r => lr_boundary r ∈ known ∧ channel (lr_boundary r) ∈ cn_listening (pl_conn l)
  | LRelisten c todo =>
      ∀ b ch, pl_signals l !! b = Some ch → b ∈ todo ∨ channel b ∈ cn_listening c
  | _ => True
  end.

Record listener_inv (l : PGNotifyListener) : Prop := {
  li_known b ch : pl_signals l !! b = Some ch → b ∈ known;
  li_next b ch : pl_signals l !! b = Some ch → ch < pl_next l;
  li_distinct b b' ch : pl_signals l !! b = Some ch → pl_signals l !! b' = Some ch → b = b';
  li_channel b ch : pl_signals l !! b = Some ch → pl_channelSignals l !! channel b = Some ch;
  li_mapping b ch : pl_signals l !! b = Some ch → b ∈ pl_mapping l;
  li_pending : Forall (λ r, lr_boundary r ∈ known) (pl_pending l);
  li_listening b ch : pl_signals l !! b = Some ch → channel b ∈ cn_listening (pl_conn l);
  li_pc : pc_ok l }.

(** A wake-up of the signal of a boundary is pending or on its way. *)
Definition coming (l : PGNotifyListener) (b : string) (ch : nat) : Prop :=
  ch ∈ pl_full l ∨ channel b ∈ cn_buffer (pl_conn l) ∨ cn_alive (pl_conn l) = false
  ∨ reconnecting (pl_pc l) = true.

#[export] Instance listener_source : SignalSource PGNotifyListener listener_act := {|
  src_signal := listener_Signal;
  src_full l ch := ch ∈ pl_full l;
  src_take := signal_take;
  src_stop _ _ l := l;
  src_commit := server_commit;
  src_do a l :=
    match a with
    | AEnsure b _ => if decide (b ∈ known) then listener_do a l else None
    | _ => listener_do a l
    end;
  src_inv := listener_inv;
  src_live l b ch := pl_signals l !! b = Some ch;
  src_coming := coming;
  src_quiet l := pl_pc l = LWait ∧ cn_buffer (pl_conn l) = [] ∧ cn_alive (pl_conn l) = true |}.

(** What every action does to the signals: they stay, and so does what is coming. *)
Definition promises (l l' : PGNotifyListener) : Prop :=
  listener_inv l' ∧ ∀ b ch, pl_signals l !! b = Some ch →
    pl_signals l' !! b = Some ch ∧ (coming l b ch → coming l' b ch).

(** Nothing that the invariant speaks of changes but the place. *)
Lemma promises_pc l l' :
  listener_inv l → pl_conn l' = pl_conn l → pl_mapping l' = pl_mapping l →
  pl_signals l' = pl_signals l → pl_channelSignals l' = pl_channelSignals l →
  pl_full l ⊆ pl_full l' → pl_next l' = pl_next l →
  Forall (λ r, lr_boundary r ∈ known) (pl_pending l') → pc_ok l' →
  (reconnecting (pl_pc l) = true → reconnecting (pl_pc l') = true) →
  promises l l'.
Proof using Type.
  clear md5_distinct.
  intros Hinv Hc Hm Hs Hcs Hf Hn Hp Hpc Hr. split.
  - destruct Hinv. split; rewrite ?Hc, ?Hm, ?Hs, ?Hcs, ?Hn; done.
  - intros b ch Hb. rewrite Hs. split; [done|]. unfold coming. rewrite Hc. set_solver.
Qed.

Lemma channel_inj b b' : b ∈ known → b' ∈ known → channel b = channel b' → b = b'.
Proof using md5_distinct.
  intros Hb Hb' H. apply md5_distinct; [done..|].
  unfold pgNotifyChannelForBoundary in H. by simplify_eq.
Qed.

Lemma add_signal_promises b l :
  listener_inv l → b ∈ known → pl_signals l !! b = None →
  channel b ∈ cn_listening (pl_conn l) → pc_ok (add_signal b l) →
  promises l (add_signal b l).
Proof using md5_distinct.
  intros Hinv Hb Hnone Hl Hpc. pose proof Hinv as [Hk Hn Hd Hch Hm Hp Hli _]. split.
  - split; simpl; try done.
    + intros b' ch. rewrite lookup_insert_Some. intros [[<- _]|[_ H]]; [done|by eapply Hk].
    + intros b' ch. rewrite lookup_insert_Some. intros [[<- <-]|[_ H]]; [lia|].
      specialize (Hn _ _ H). lia.
    + intros b1 b2 ch. rewrite !lookup_insert_Some.
      intros [[<- <-]|[_ H1]] [[<- H2']|[_ H2]]; try done.
      * specialize (Hn _ _ H2). lia.
      * subst ch. specialize (Hn _ _ H1). lia.
      * by eapply Hd.
    + intros b' ch. rewrite lookup_insert_Some. intros [[<- <-]|[Hne H]].
      * apply lookup_insert_eq.
      * rewrite lookup_insert_ne; [by apply Hch|]. intros Heq. apply Hne.
        apply channel_inj; [done|by eapply Hk|done].
    + intros b' ch. rewrite lookup_insert_Some. intros [[<- _]|[_ H]]; [set_solver|].
      specialize (Hm _ _ H). set_solver.
    + intros b' ch. rewrite lookup_insert_Some. intros [[<- _]|[_ H]]; [done|by eapply Hli].
  - intros b' ch H. split; [|done]. simpl. rewrite lookup_insert_ne; [done|]. congruence.
Qed.

(** A promise through the notification that a wait returns. *)
Lemma dispatch_promises name l buffer pc :
  listener_inv l → cn_buffer (pl_conn l) = name :: buffer →
  (∀ c todo, pc ≠ LRelisten c todo) → (∀ r, pc ≠ LRegister r) → (∀ r, pc ≠ LListen r) →
  pl_pc l = LWait →
  promises l (at_pc pc (dispatch name (disarmNotificationWait
    (set_conn (mkPgConn (cn_listening (pl_conn l)) buffer (cn_alive (pl_conn l))) l)))).
Proof using Type.
  clear md5_distinct.
  intros Hinv Hb Hpc1 Hpc2 Hpc3 Hw. pose proof Hinv as [Hk Hn Hd Hch Hm Hp Hli _].
  set (l1 := disarmNotificationWait _).
  assert (pl_signals (dispatch name l1) = pl_signals l
    ∧ pl_mapping (dispatch name l1) = pl_mapping l
    ∧ pl_channelSignals (dispatch name l1) = pl_channelSignals l
    ∧ pl_next (dispatch name l1) = pl_next l ∧ pl_pending (dispatch name l1) = pl_pending l
    ∧ pl_conn (dispatch name l1) = mkPgConn (cn_listening (pl_conn l)) buffer (cn_alive (pl_conn l))
    ∧ pl_full l ⊆ pl_full (dispatch name l1)) as (Hs & Hm' & Hcs & Hn' & Hp' & Hc & Hf).
  { unfold dispatch. destruct (pl_channelSignals l1 !! name); split_and!; simpl; set_solver. }
  split.
  - split; simpl; rewrite ?Hs, ?Hm', ?Hcs, ?Hn', ?Hp', ?Hc; try done.
    unfold pc_ok. simpl. destruct pc as [|r|r| | | |c todo|]; try exact I;
      [destruct (Hpc3 r eq_refl)|destruct (Hpc2 r eq_refl)|destruct (Hpc1 c todo eq_refl)].
  - intros b ch Hbch. simpl. rewrite Hs. split; [done|]. unfold coming. simpl. rewrite Hc, Hb, Hw.
    simpl. intros [?|[Hin|[?|?]]]; [set_solver| |by auto|done].
    apply elem_of_cons in Hin as [<-|Hin]; [left|by auto].
    unfold dispatch, l1. simpl. rewrite (Hch _ _ Hbch). simpl. set_solver.
Qed.

Lemma reconnect_promises ok order l l' :
  listener_inv l → reconnect_step ok order l = Some l' → promises l l'.
Proof using Type.
  clear md5_distinct.
  intros Hinv H. pose proof Hinv as [Hk Hn Hd Hch Hm Hp Hli Hpc]. unfold reconnect_step in H.
  unfold pc_ok in Hpc. destruct (pl_pc l) as [| | | | | |c [|b todo]|] eqn:Ep; try done.
  - destruct ok; simpl in H; [|injection H as <-; by apply promises_pc; try (unfold pc_ok; rewrite Ep)].
    case_decide as Ho; [|done]. injection H as <-. apply promises_pc; try done.
    unfold pc_ok. simpl. intros b ch Hb. left. apply Hm in Hb. rewrite <-Ho in Hb.
    by apply elem_of_list_to_set in Hb.
  - injection H as <-. split.
    + split; simpl; try done. intros b ch Hb. by destruct (Hpc b ch Hb) as [?%elem_of_nil|].
    + intros b ch Hb. split; [done|]. intros _. left. simpl. apply elem_of_union. left.
      apply elem_of_list_to_set, list_elem_of_fmap. exists (b, ch).
      by rewrite elem_of_map_to_list.
  - destruct ok; injection H as <-; apply promises_pc; try done.
    unfold pc_ok. simpl. intros b' ch Hb'. destruct (Hpc b' ch Hb') as [Hin|]; [|set_solver].
    apply elem_of_cons in Hin as [->|]; [|by left]. right. set_solver.
Qed.

Lemma listener_do_promises a l l' :
  listener_inv l → src_do a l = Some l' → promises l l'.
Proof using md5_distinct.
  intros Hinv H. pose proof Hinv as [Hk Hn Hd Hch Hm Hp Hli Hpc].
  destruct a as [|failed| | |notified err|ok order| |b id|]; simpl in H.
  - destruct (pl_pc l) eqn:Ep; try done. injection H as <-. unfold nextListenRequest, listenBoundary_start.
    destruct (pl_pending l) as [|r pending] eqn:E.
    + apply promises_pc; try done; simpl; by rewrite ?E, ?Ep.
    + apply Forall_cons in Hp as [Hr Hp]. case_decide; apply promises_pc; try done; simpl;
        by rewrite ?Ep.
  - destruct (pl_pc l) as [|r| | | | | |] eqn:Ep; try done. injection H as <-.
    unfold pc_ok in Hpc. rewrite Ep in Hpc.
    assert (∀ pc, (∀ c todo, pc ≠ LRelisten c todo) → (∀ r', pc = LListen r' → False) →
      (∀ r', pc = LRegister r' → r' = r) →
      promises l (at_pc pc (set_conn (listen (lr_boundary r) (pl_conn l)) l))) as Hlisten.
    { intros pc H1 H2 H3. split.
      - split; simpl; try done; [intros b ch Hb; specialize (Hli _ _ Hb); set_solver|].
        unfold pc_ok. simpl. destruct pc; try done; [by destruct (H2 request eq_refl)| |by destruct (H1 conn todo eq_refl)].
        rewrite (H3 request eq_refl). split; [done|]. set_solver.
      - intros b ch Hb. split; [done|]. unfold coming. simpl. rewrite Ep. naive_solver. }
    destruct failed as [[e [|]]|]; simpl; [| |by apply Hlisten; try done; intros ? [= ->]].
    + destruct (Hlisten LTop) as [Hi Hpr]; [done..|]. split; [by destruct Hi|exact Hpr].
    + apply promises_pc; try done. by rewrite Ep.
  - destruct (pl_pc l) as [| |r| | | | |] eqn:Ep; try done. injection H as <-.
    unfold pc_ok in Hpc. rewrite Ep in Hpc. destruct Hpc as [Hr Hl]. unfold registerBoundary.
    case_decide as Hex.
    + apply promises_pc; try done. by rewrite Ep.
    + apply eq_None_not_Some in Hex.
      destruct (add_signal_promises (lr_boundary r) (at_pc LTop l)) as [Hi Hpr]; try done.
      split; [by destruct Hi|]. intros b ch Hb. destruct (Hpr b ch Hb) as [? Hco].
      split; [done|]. intros Hc. apply Hco. unfold coming in *. simpl in *. by rewrite Ep in Hc.
  - destruct (pl_pc l) eqn:Ep; try done. injection H as <-. unfold armNotificationWait.
    destruct (pl_pending l) eqn:E; apply promises_pc; try done; simpl; by rewrite ?E, ?Ep.
  - destruct (pl_pc l) eqn:Ep; try done. unfold waited in H.
    destruct notified.
    + destruct (cn_buffer (pl_conn l)) as [|name buffer] eqn:E; [done|].
      assert (l' = at_pc (after_wait err) (dispatch name (disarmNotificationWait (set_conn
        (mkPgConn (cn_listening (pl_conn l)) buffer (cn_alive (pl_conn l))) l)))) as ->
        by (destruct err; by injection H as <-).
      by apply dispatch_promises; try done; destruct err.
    + destruct err; [done|destruct (pl_canceled l); [|done]| |]; injection H as <-;
        apply promises_pc; try done; by rewrite Ep.
  - by eapply reconnect_promises.
  - destruct (pl_pc l) eqn:Ep; try done; injection H as <-; by apply promises_pc.
  - case_decide as Hb; [|done]. injection H as <-. unfold EnsureBoundary.
    destruct (validateBoundaryName b); [|by apply promises_pc].
    case_decide; [by apply promises_pc|]. apply promises_pc; try done. simpl.
    apply Forall_app. split; [done|]. by constructor.
  - injection H as <-. split.
    + split; simpl; done.
    + intros b ch Hb. split; [done|]. unfold coming. simpl. naive_solver.
Qed.

(** *** The laws of a signal source *)

Lemma signal_take_law ch l :
  listener_inv l → listener_inv (signal_take ch l)
  ∧ ∀ b ch', ch' ≠ ch → coming l b ch' → coming (signal_take ch l) b ch'.
Proof using Type.
  clear md5_distinct. intros Hinv. split; [by destruct Hinv; split|].
  intros b ch' Hne. unfold coming. simpl. set_solver.
Qed.

Lemma notify_conn_listening name c : cn_listening (notify_conn name c) = cn_listening c.
Proof using Type. unfold notify_conn. by destruct (_ && _). Qed.

Lemma notify_conn_alive name c : cn_alive (notify_conn name c) = cn_alive c.
Proof using Type. unfold notify_conn. destruct (cn_alive c) eqn:E; simpl; [|done]. by destruct (bool_decide _). Qed.

Lemma notify_conn_buffer name c x : x ∈ cn_buffer c → x ∈ cn_buffer (notify_conn name c).
Proof using Type. clear md5_distinct known. unfold notify_conn. destruct (_ && _); set_solver. Qed.

Lemma server_commit_law b l :
  listener_inv l → promises l (server_commit b l)
  ∧ ∀ ch, pl_signals l !! b = Some ch → coming (server_commit b l) b ch.
Proof using Type.
  clear md5_distinct. intros Hinv. pose proof Hinv as [Hk Hn Hd Hch Hm Hp Hli Hpc].
  set (l1 := set_conn (notify_conn (channel b) (pl_conn l)) l).
  assert (pl_signals (server_commit b l) = pl_signals l
    ∧ pl_mapping (server_commit b l) = pl_mapping l
    ∧ pl_channelSignals (server_commit b l) = pl_channelSignals l
    ∧ pl_next (server_commit b l) = pl_next l ∧ pl_pending (server_commit b l) = pl_pending l
    ∧ pl_conn (server_commit b l) = notify_conn (channel b) (pl_conn l)
    ∧ pl_full (server_commit b l) = pl_full l
    ∧ reconnecting (pl_pc (server_commit b l)) = reconnecting (pl_pc l))
    as (Hs & Hm' & Hcs & Hn' & Hp' & Hc & Hf & Hr)
    by (unfold server_commit; simpl; destruct (pl_pc l) eqn:Ep; simpl; by rewrite ?Ep).
  split; [split|].
  - split; rewrite ?Hs, ?Hm', ?Hcs, ?Hn', ?Hp', ?Hc; rewrite ?notify_conn_listening; try done.
    unfold pc_ok in *. rewrite Hs, Hc. unfold server_commit. simpl.
    destruct (pl_pc l) eqn:Ep; simpl; rewrite ?Ep, ?notify_conn_listening; try done.
  - intros b' ch Hb'. rewrite Hs. split; [done|]. unfold coming.
    rewrite Hc, Hf, Hr, notify_conn_alive.
    intros [?|[?%(notify_conn_buffer (channel b))|[?|?]]]; auto.
  - intros ch Hb. unfold coming. rewrite Hc, notify_conn_alive.
    destruct (cn_alive (pl_conn l)) eqn:Ea; [|auto]. right. left. unfold notify_conn.
    rewrite Ea, bool_decide_true by (by eapply Hli). set_solver.
Qed.

#[export] Instance listener_laws : SignalSourceLaws PGNotifyListener listener_act.
Proof using md5_distinct.
  split.
  - intros l b b' ch Hinv. apply (li_distinct _ Hinv).
  - intros b l o l' Hinv [= <- <-]. split_and!; [done|apply keeps_signals_refl|done].
  - intros ch l Hinv. destruct (signal_take_law ch l Hinv) as [Hi Hc].
    split_and!; [done| |done]. intros b ch' Hne Hl. split; [done|]. by apply Hc.
  - intros b ch l Hinv. split; [done|apply keeps_signals_refl].
  - intros b l Hinv. destruct (server_commit_law b l Hinv) as [[Hi Hpr] Hc].
    split_and!; [done| |done]. intros b' ch _ Hl. by apply Hpr.
  - intros a l l' Hinv H. destruct (listener_do_promises a l l' Hinv H) as [Hi Hpr].
    split; [done|]. intros b ch _ Hl. by apply Hpr.
  - intros l b ch _ (Hpc & Hb & Ha) _ [?|[Hin|[?|Hr]]]; [done| | |].
    + rewrite Hb in Hin. by apply elem_of_nil in Hin.
    + congruence.
    + by rewrite Hpc in Hr.
Qed.

(** A new listener listens for the boundaries that it was given. *)
Lemma listen_all_inv failing boundaries l l' :
  listener_inv l → pl_pc l = LTop → NoDup boundaries → list_to_set boundaries ⊆ known →
  (∀ b, b ∈ boundaries → pl_signals l !! b = None) →
  listen_all failing boundaries l = Ok l' → listener_inv l' ∧ pl_pc l' = LTop.
Proof using md5_distinct.
  intros Hinv Hpc Hnd Hkn Hnone H. revert l Hinv Hpc Hkn Hnone H.
  induction Hnd as [|b boundaries Hni Hnd IH]; intros l Hinv Hpc Hkn Hnone H; simpl in H.
  { by injection H as <-. }
  case_decide; [done|]. set (l1 := set_conn (listen b (pl_conn l)) l) in H.
  assert (listener_inv l1) as Hinv1.
  { destruct Hinv as [Hk Hn Hd Hch Hm Hp Hli Hp']. split; simpl; try done.
    - intros b' ch Hb'. specialize (Hli _ _ Hb'). set_solver.
    - unfold pc_ok. simpl. by rewrite Hpc. }
  destruct (add_signal_promises b l1) as [Hinv2 _]; [done|set_solver|apply Hnone; set_solver| | |].
  { simpl. set_solver. }
  { unfold pc_ok. simpl. by rewrite Hpc. }
  eapply IH; [exact Hinv2|done|set_solver| |exact H].
  intros b' Hb'. simpl. rewrite lookup_insert_ne by (intros ->; done). apply Hnone. set_solver.
Qed.

Lemma NewPGNotifyListener_inv failing boundaries l :
  NoDup boundaries → list_to_set boundaries ⊆ known →
  NewPGNotifyListener None failing boundaries = Ok l → listener_inv l.
Proof using md5_distinct.
  intros Hnd Hkn H. eapply listen_all_inv; [| |done|done| |exact H]; [|done|done].
  by split.
Qed.

End Listener.

(** ** No hint of PostgreSQL is lost *)

(** C17: the relays of an installation with PostgreSQL, in any interleaving of their operations
with the commits, the notifications, new boundaries, broken connections and failed reconnections:
a boundary whose relay waits, when the listener waits on a working connection and no wake-up is
pending or on its way, has had a hint since its last stored event. *)
Theorem pg_hints_not_lost known failing boundaries l ls r b :
  (∀ b b', b ∈ known → b' ∈ known → md5_hex b = md5_hex b' → b = b') →
  NoDup boundaries → list_to_set boundaries ⊆ known →
  NewPGNotifyListener None failing boundaries = Ok l →
  relays_run (Src := listener_source known) (StartNotificationRelays l) ls r →
  relay_waits (Src := listener_source known) r b → b ∉ rl_owed r.
Proof.
  intros Hmd Hnd Hkn Hl Hrun Hw. pose proof (listener_laws known Hmd).
  apply (relay_waits_published (Src := listener_source known)); [|done].
  eapply (relays_run_inv (Src := listener_source known)); [exact Hrun|].
  apply start_relays_inv. by eapply NewPGNotifyListener_inv.
Qed.

(** The connection breaks, events of a boundary are stored meanwhile, and a boundary is added. *)
Definition pg_hint_run : list (relay_label (act := listener_act)) :=
  [LStart "orders"; LRelay "orders" true; LRelay "orders" true; LRelay "orders" true;
   LSource ANext; LSource AArm; LSource ABreak; LCommit "orders"; LSource (AEnsure "billing" 0);
   LSource (AWait false WBroken); LSource (AReconnect false []);
   LSource (AReconnect true ["orders"]); LSource (AReconnect true []);
   LSource (AReconnect true []); LSource ANext; LSource (AListen None); LSource ARegister;
   LSource ANext; LSource AArm; LRelay "orders" true; LRelay "orders" true; LRelay "orders" true].

Definition pg_hint_listener : PGNotifyListener :=
  let orders := pgNotifyChannelForBoundary "orders" in
  let billing := pgNotifyChannelForBoundary "billing" in
  mkListener (mkPgConn {[ orders; billing ]} [] true) {[ "orders"; "billing" ]}
    {[ "orders" := 0; "billing" := 1 ]} {[ orders := 0; billing := 1 ]} ∅ 2 [] true false
    {[ 0 := Ok tt ]} LWait.

Definition pg_hints_after : relays PGNotifyListener :=
  mkRelays pg_hint_listener {[ "orders" := RWait 0 ]} false ∅.
Definition pg_hint_boundaries : gset string := {[ "orders"; "billing" ]}.

Lemma pg_hint_hashes b b' :
  b ∈ pg_hint_boundaries → b' ∈ pg_hint_boundaries → md5_hex b = md5_hex b' → b = b'.
Proof.
  unfold pg_hint_boundaries. rewrite !elem_of_union, !elem_of_singleton.
  intros [->| ->] [->| ->] H; try reflexivity; vm_compute in H; discriminate H.
Qed.

#[local] Instance listener_full_dec (l : PGNotifyListener) ch :
  Decision (src_full (SignalSource := listener_source pg_hint_boundaries) l ch) :=
  decide (ch ∈ pl_full l).

Lemma pg_hints_not_lost_witness :
  ∃ l, NewPGNotifyListener None None ["orders"] = Ok l ∧
  relays_run (Src := listener_source pg_hint_boundaries) (StartNotificationRelays l) pg_hint_run
    pg_hints_after
  ∧ "orders" ∉ rl_owed pg_hints_after.
Proof.
  eexists. split; [reflexivity|].
  match goal with |- ?R ∧ _ => assert R as Hrun end.
  { apply (relays_exec_run (Src := listener_source pg_hint_boundaries)). vm_compute. reflexivity. }
  split; [exact Hrun|].
  refine (pg_hints_not_lost pg_hint_boundaries None ["orders"] _ _ _ "orders" pg_hint_hashes
            _ _ eq_refl Hrun _).
  - apply NoDup_singleton.
  - unfold pg_hint_boundaries. set_solver.
  - split; [done|]. exists 0. split; [reflexivity|]. cbn. apply not_elem_of_empty.
Defined.
