(* ===== verification/GrpcApi.v ===== *)
(** * The gRPC interface of the event store: [orisun/grpcapi/eventstore_adapter.go]

The messages of the protocol are in the module [pb], after the generated types of
[orisun/grpcapi/eventstore.pb.go]; the handlers of [EventStoreAdapter] convert them to the
messages of [orisun/eventstore.go], call the store and convert its answer or its error. *)

From stdpp Require Import options.
From S2P Require Import Prelude Status Model Number Json Predicates Consistency EventData.
From S2P Require Import WriteContext SqlPredicates Sql SqliteStore SqliteLog GroupCommit.
From S2P Require Import SqliteRead SqliteIndex EventStore Api Subscription Neutral.

Set Default Proof Using "Type*".

(** ** Messages *)

Module pb.

(** Enumerations are [int32]; a client may send numbers without a name. *)
Definition Direction : Type := Z.
Definition Direction_DESC : Direction := 1%Z.
Definition ValueType : Type := Z.
Definition ConditionCombinator : Type := Z.
Definition ConditionCombinator_AND : ConditionCombinator := 0%Z.
Definition ConditionCombinator_OR : ConditionCombinator := 1%Z.
Definition IndexState : Type := Z.
Definition IndexState_UNSPECIFIED : IndexState := 0%Z.
Definition IndexState_BUILDING : IndexState := 1%Z.
Definition IndexState_READY : IndexState := 2%Z.

Record Position := mkPosition { CommitPosition : Z; PreparePosition : Z }.
Record Timestamp := mkTimestamp { Seconds : Z; Nanos : Z }.
Record Tag := mkTag { Tag_Key : string; Tag_Value : string; Tag_Operator : string }.
Record Criterion := mkCriterion { Criterion_Tags : list (option Tag) }.
Record Query := mkQuery { Query_Criteria : list (option Criterion) }.

Record EventToSave := mkEventToSave {
  ETS_EventId : string; ETS_EventType : string; ETS_Data : string; ETS_Metadata : string }.
Record Event := mkEvent {
  Event_EventId : string; Event_EventType : string; Event_Data : string;
  Event_Metadata : string; Event_Position : option Position;
  Event_DateCreated : option Timestamp; Event_WriteId : string }.
Record WriteResult := mkWriteResult { WR_LogPosition : option Position; WR_WriteId : string }.

Record ConsistencyObservation := mkObservation {
  Obs_Query : option Query; Obs_Position : option Position }.
Record SaveEventsV2Request := mkSaveRequest {
  SR_Boundary : string; SR_Events : list (option EventToSave);
  SR_Consistency : list (option ConsistencyObservation) }.
Record GetWriteContextRequest := mkGetWriteContextRequest {
  GWC_Boundary : string; GWC_WriteId : string }.
Record WriteContext := mkWriteContext {
  WC_WriteId : string; WC_Consistency : list (option ConsistencyObservation) }.

(** [Count] is a [uint32]. *)
Record GetEventsRequest := mkGetEventsRequest {
  GE_Query : option Query; GE_FromPosition : option Position; GE_Count : Z;
  GE_Direction : Direction; GE_Boundary : string }.
Record GetEventsResponse := mkGetEventsResponse { GER_Events : list (option Event) }.
Record CatchUpSubscribeToEventStoreRequest := mkCatchUp {
  CU_AfterPosition : option Position; CU_Query : option Query; CU_SubscriberName : string;
  CU_Boundary : string }.

Record GetLatestByCriteriaRequest := mkLatestRequest {
  LR_Boundary : string; LR_Criteria : list (option Criterion) }.
Record LatestCriterionResult := mkLatestResult {
  LCR_Criterion : option Criterion; LCR_Event : option Event }.
Record GetLatestByCriteriaResponse := mkLatestResponse {
  LRS_Results : list (option LatestCriterionResult); LRS_ContextPosition : option Position }.

Record IndexField := mkIndexField { IF_JsonKey : string; IF_ValueType : ValueType }.
Record IndexCondition := mkIndexCondition {
  IC_Key : string; IC_Operator : string; IC_Value : string }.
Record CreateIndexRequest := mkCreateIndexRequest {
  CI_Boundary : string; CI_Name : string; CI_Fields : list (option IndexField);
  CI_Conditions : list (option IndexCondition); CI_Combinator : ConditionCombinator }.
Record DropIndexRequest := mkDropIndexRequest { DI_Boundary : string; DI_Name : string }.
Record ListIndexesRequest := mkListIndexesRequest { LI_Boundary : string }.
Record GetIndexRequest := mkGetIndexRequest { GI_Boundary : string; GI_Name : string }.
Record IndexDefinition := mkIndexDefinition {
  ID_Name : string; ID_Fields : list (option IndexField);
  ID_Conditions : list (option IndexCondition); ID_Combinator : ConditionCombinator;
  ID_State : IndexState }.

End pb.

(** [timestamppb.New] of the protobuf library, and what it documents. *)
Class TimestampPb := { timestamppb_New : Z → pb.Timestamp }.
Class TimestampPbLaws `{TimestampPb} : Prop := {
  timestamppb_New_spec t :
    timestamppb_New t = pb.mkTimestamp (t / 10 ^ 9)%Z (t mod 10 ^ 9)%Z }.

(** ** Conversions *)

Definition domainPositionFromProto (position : option pb.Position) : option Position :=
  match position with
  | None => None
  | Some p => Some (mkPosition (pb.CommitPosition p) (pb.PreparePosition p))
  end.

Definition positionToProto (position : option Position) : option pb.Position :=
  match position with
  | None => None
  | Some p => Some (pb.mkPosition (CommitPosition p) (PreparePosition p))
  end.

Definition corePositionFromProto (position : option pb.Position) : option Position :=
  match position with
  | None => None
  | Some p => Some (mkPosition (pb.CommitPosition p) (pb.PreparePosition p))
  end.

(** The entries of a list of pointers; a nil entry stays nil. *)
Definition each {A C} (f : A → C) (l : list (option A)) : list (option C) := option_map f <$> l.

Definition domainTagFromProto (tag : pb.Tag) : Tag :=
  mkTag (pb.Tag_Key tag) (pb.Tag_Value tag) (pb.Tag_Operator tag).

Definition domainCriteriaFromProto (criteria : list (option pb.Criterion))
  : list (option Criterion) :=
  each (λ c, mkCriterion (each domainTagFromProto (pb.Criterion_Tags c))) criteria.

Definition domainQueryFromProto (query : option pb.Query) : option Query :=
  match query with
  | None => None
  | Some q => Some (mkQuery (domainCriteriaFromProto (pb.Query_Criteria q)))
  end.

(** Here a nil criterion is one without tags and a nil tag is empty. *)
Definition coreQueryFromProto (query : option pb.Query) : core.Query :=
  match query with
  | None => core.mkQuery []
  | Some q =>
      core.mkQuery
        ((λ c : option pb.Criterion,
            match c with
            | None => core.mkCriterion []
            | Some c =>
                core.mkCriterion
                  ((λ t : option pb.Tag,
                      match t with
                      | None => core.mkTag "" "" ""
                      | Some t => core.mkTag (pb.Tag_Key t) (pb.Tag_Value t) (pb.Tag_Operator t)
                      end) <$> pb.Criterion_Tags c)
            end) <$> pb.Query_Criteria q)
  end.

Definition criterionToProto (criterion : option Criterion) : option pb.Criterion :=
  match criterion with
  | None => None
  | Some c =>
      Some (pb.mkCriterion
        (each (λ t, pb.mkTag (Tag_Key t) (Tag_Value t) (Tag_Operator t)) (Criterion_Tags c)))
  end.

Definition queryToProto (query : option Query) : option pb.Query :=
  match query with
  | None => None
  | Some q => Some (pb.mkQuery (criterionToProto <$> Query_Criteria q))
  end.

Definition eventsToSaveFromProto (events : list (option pb.EventToSave))
  : list (option EventToSave) :=
  each (λ e, mkEventToSave (pb.ETS_EventId e) (pb.ETS_EventType e) (pb.ETS_Data e)
               (pb.ETS_Metadata e)) events.

Definition saveEventsV2RequestFromProto (req : option pb.SaveEventsV2Request)
  : option SaveEventsV2Request :=
  match req with
  | None => None
  | Some req =>
      Some (mkSaveRequest (pb.SR_Boundary req) (eventsToSaveFromProto (pb.SR_Events req))
        (each (λ o, mkObservation (domainQueryFromProto (pb.Obs_Query o))
                      (domainPositionFromProto (pb.Obs_Position o))) (pb.SR_Consistency req)))
  end.

Definition writeResultToProto (result : WriteResult) : pb.WriteResult :=
  pb.mkWriteResult (positionToProto (Some (WR_LogPosition result))) (WR_WriteId result).

Definition getEventsRequestFromProto (req : option pb.GetEventsRequest)
  : option GetEventsRequest :=
  match req with
  | None => None
  | Some req =>
      let direction :=
        if (pb.GE_Direction req =? pb.Direction_DESC)%Z then Direction_DESC else Direction_ASC in
      Some (mkGetEventsRequest (domainQueryFromProto (pb.GE_Query req))
        (domainPositionFromProto (pb.GE_FromPosition req)) (pb.GE_Count req) direction
        (pb.GE_Boundary req))
  end.

(** [Unix] and [Nanosecond] of a [time.Time]. *)
Definition fillProtoEventRow (event : Event) : pb.Event :=
  {| pb.Event_EventId := Event_EventId event;
     pb.Event_EventType := Event_EventType event;
     pb.Event_Data := Event_Data event;
     pb.Event_Metadata := Event_Metadata event;
     pb.Event_Position := positionToProto (Event_Position event);
     pb.Event_DateCreated :=
       Some (pb.mkTimestamp (Event_DateCreated event / 10 ^ 9)%Z
               (Event_DateCreated event mod 10 ^ 9)%Z);
     pb.Event_WriteId := Event_WriteId event |}.

Definition getEventsResponseToProto (events : list Event) : pb.GetEventsResponse :=
  pb.mkGetEventsResponse ((λ e, Some (fillProtoEventRow e)) <$> events).

Definition latestRequestFromProto (req : option pb.GetLatestByCriteriaRequest)
  : option GetLatestByCriteriaRequest :=
  match req with
  | None => None
  | Some req =>
      Some (mkLatestRequest (pb.LR_Boundary req) (domainCriteriaFromProto (pb.LR_Criteria req)))
  end.

Definition latestResponseToProto (response : GetLatestByCriteriaResponse)
  : pb.GetLatestByCriteriaResponse :=
  pb.mkLatestResponse
    ((λ r, Some (pb.mkLatestResult (criterionToProto (LCR_Criterion r))
                   (fillProtoEventRow <$> LCR_Event r))) <$> LRS_Results response)
    (positionToProto (Some (LRS_ContextPosition response))).

Definition valueTypeFromProto (v : pb.ValueType) : ValueType :=
  match v with
  | 0 => ValueType_TEXT
  | 1 => ValueType_NUMERIC
  | 2 => ValueType_BOOLEAN
  | 3 => ValueType_TIMESTAMPTZ
  | n => ValueType_other n
  end%Z.

Definition createIndexRequestFromProto (req : option pb.CreateIndexRequest)
  : option CreateIndexRequest :=
  match req with
  | None => None
  | Some req =>
      Some (mkCreateIndexRequest (pb.CI_Boundary req) (pb.CI_Name req)
        (each (λ f, mkIndexFieldMsg (pb.IF_JsonKey f) (valueTypeFromProto (pb.IF_ValueType f)))
           (pb.CI_Fields req))
        (each (λ c, mkIndexConditionMsg (pb.IC_Key c) (pb.IC_Operator c) (pb.IC_Value c))
           (pb.CI_Conditions req))
        (if (pb.CI_Combinator req =? pb.ConditionCombinator_OR)%Z
         then ConditionCombinator_OR else ConditionCombinator_AND))
  end.

Definition dropIndexRequestFromProto (req : option pb.DropIndexRequest)
  : option DropIndexRequest :=
  match req with
  | None => None
  | Some req => Some (mkDropIndexRequest (pb.DI_Boundary req) (pb.DI_Name req))
  end.

Definition listIndexesRequestFromProto (req : option pb.ListIndexesRequest)
  : option ListIndexesRequest :=
  match req with
  | None => None
  | Some req => Some (mkListIndexesRequest (pb.LI_Boundary req))
  end.

Definition getIndexRequestFromProto (req : option pb.GetIndexRequest) : option GetIndexRequest :=
  match req with
  | None => None
  | Some req => Some (mkGetIndexRequest (pb.GI_Boundary req) (pb.GI_Name req))
  end.

Definition BoundaryIndexStateBuilding : string := "building".

Definition valueTypeToProto (v : string) : pb.ValueType :=
  if String.eqb v "numeric" then 1%Z
  else if String.eqb v "boolean" then 2%Z
  else if String.eqb v "timestamptz" then 3%Z
  else 0%Z.

Definition indexDefinitionToProto (index : BoundaryIndex) : pb.IndexDefinition :=
  {| pb.ID_Name := BI_Name index;
     pb.ID_Fields := (λ f, Some (pb.mkIndexField (BF_JsonKey f)
                                   (valueTypeToProto (BF_ValueType f)))) <$> BI_Fields index;
     pb.ID_Conditions := (λ c, Some (pb.mkIndexCondition (BC_Key c) (BC_Operator c)
                                       (BC_Value c))) <$> BI_Conditions index;
     pb.ID_Combinator :=
       if String.eqb (BI_Combinator index) IndexCombinatorOR then pb.ConditionCombinator_OR
       else pb.ConditionCombinator_AND;
     pb.ID_State :=
       if String.eqb (BI_State index) BoundaryIndexStateBuilding then pb.IndexState_BUILDING
       else if String.eqb (BI_State index) BoundaryIndexStateReady then pb.IndexState_READY
       else pb.IndexState_UNSPECIFIED |}.

Definition readEventToProto `{TimestampPb} (event : core.ReadEvent) : pb.Event :=
  {| pb.Event_EventId := core.EventID event;
     pb.Event_EventType := core.EventType event;
     pb.Event_Data := core.Data event;
     pb.Event_Metadata := core.Metadata event;
     pb.Event_Position := Some (pb.mkPosition (CommitPosition (core.Pos event))
                                  (PreparePosition (core.Pos event)));
     pb.Event_DateCreated := Some (timestamppb_New (core.DateCreated event));
     pb.Event_WriteId := core.WriteID event |}.

Definition observationToProto (o : option ConsistencyObservation)
  : option (option pb.ConsistencyObservation) :=
  match o with
  | None => None
  | Some o => Some (Some (pb.mkObservation (queryToProto (Obs_Query o))
                            (positionToProto (Obs_Position o))))
  end.

(** ** Handlers *)

(** What a handler returns to gRPC: a message, or a status, or an error as it is. *)
Inductive grpc_result (A : Type) :=
| GOk (a : A)
| GErr (e : GrpcCode * string + goerror).
Arguments GOk {A}.
Arguments GErr {A}.

Definition grpc_error (e : goerror) : GrpcCode * string + goerror :=
  default (inr e) (grpc_FromError (Some e)).

Definition to_grpc {A C} (f : A → C) (r : result A) : grpc_result C :=
  match r with Ok a => GOk (f a) | Err e => GErr (grpc_error e) end.

Record ServerRuntimeInfo := mkServerInfo {
  SI_Version : string; SI_GitCommit : string; SI_BuildTime : string; SI_Backend : Z;
  SI_NodeID : string; SI_Capabilities : list Z }.

Section Handlers.
Context `{J : GoJson} {B : Type}.

Record EventStoreAdapter := mkEventStoreAdapter {
  eventStore : EventStore B;
  serverInfo : ServerRuntimeInfo }.

Definition AdaptEventStoreWithServerInfo (s : EventStore B) (info : ServerRuntimeInfo)
  : EventStoreAdapter := mkEventStoreAdapter s info.

(** [GetBuildInfo] gives the version, the build time and the commit. *)
Definition AdaptEventStore (s : EventStore B) (version buildTime gitCommit : string)
  : EventStoreAdapter :=
  AdaptEventStoreWithServerInfo s (mkServerInfo version gitCommit buildTime 0 "" []).

Definition grpc_SaveEventsV2 (a : EventStoreAdapter) (ctx : Ctx)
    (req : option pb.SaveEventsV2Request) (w : World B) : grpc_result pb.WriteResult * World B :=
  let '(r, w) := SaveEventsV2 (eventStore a) ctx (saveEventsV2RequestFromProto req) w in
  (to_grpc writeResultToProto r, w).

Definition grpc_GetEvents (a : EventStoreAdapter) (ctx : Ctx)
    (req : option pb.GetEventsRequest) (b : B) : grpc_result pb.GetEventsResponse :=
  to_grpc getEventsResponseToProto
    (GetEvents (eventStore a) ctx (getEventsRequestFromProto req) b).

Definition grpc_GetLatestByCriteria (a : EventStoreAdapter) (ctx : Ctx)
    (req : option pb.GetLatestByCriteriaRequest) (b : B)
  : grpc_result pb.GetLatestByCriteriaResponse :=
  to_grpc latestResponseToProto
    (EventStore_GetLatestByCriteria (eventStore a) ctx (latestRequestFromProto req) b).

(** [CatchUpSubscribeToEvents] up to the reader, which calls [stream_handler] for each event. *)
Definition grpc_CatchUpSubscribeToEvents (a : EventStoreAdapter)
    (req : option pb.CatchUpSubscribeToEventStoreRequest) (connected : bool)
    (acquire : string → option goerror)
  : grpc_result (option Query * subscriptionDrain) :=
  match req with
  | None => GErr (grpc_error (PlainError "subscription request is required"))
  | Some req =>
      to_grpc id (SubscribeToAllEvents (eventStore a)
        (mkSubscribe (pb.CU_Boundary req) (pb.CU_SubscriberName req)
           (corePositionFromProto (pb.CU_AfterPosition req))
           (readCriteria (core.Query_Criteria (coreQueryFromProto (pb.CU_Query req)))))
        true connected acquire)
  end.

Definition stream_handler `{TimestampPb} (send : pb.Event → option goerror)
    (event : core.ReadEvent) : option goerror :=
  match send (readEventToProto event) with
  | Some e => Some (Wrapped "send event to subscription stream: %w" e)
  | None => None
  end.

Definition grpc_GetServerInfo (a : EventStoreAdapter) : ServerRuntimeInfo := serverInfo a.

Definition grpc_CreateIndex (a : EventStoreAdapter) (ctx : Ctx)
    (req : option pb.CreateIndexRequest) (w : World B) : grpc_result unit * World B :=
  let '(r, w) := CreateIndex (eventStore a) ctx (createIndexRequestFromProto req) w in
  (to_grpc id r, w).

Definition grpc_DropIndex (a : EventStoreAdapter) (ctx : Ctx)
    (req : option pb.DropIndexRequest) (w : World B) : grpc_result unit * World B :=
  let '(r, w) := DropIndex (eventStore a) ctx (dropIndexRequestFromProto req) w in
  (to_grpc id r, w).

Definition grpc_ListIndexes (a : EventStoreAdapter) (ctx : Ctx)
    (req : option pb.ListIndexesRequest) (b : B) : grpc_result (list pb.IndexDefinition) :=
  to_grpc (fmap indexDefinitionToProto)
    (ListIndexes (eventStore a) ctx (listIndexesRequestFromProto req) b).

Definition grpc_GetIndex (a : EventStoreAdapter) (ctx : Ctx) (req : option pb.GetIndexRequest)
    (b : B) : grpc_result pb.IndexDefinition :=
  to_grpc indexDefinitionToProto
    (GetIndex (eventStore a) ctx (getIndexRequestFromProto req) b).

(** A nil observation in the answer of the store is a panic ([None]). *)
Definition grpc_GetWriteContext (a : EventStoreAdapter) (ctx : Ctx)
    (req : option pb.GetWriteContextRequest) (b : B)
  : option (grpc_result pb.WriteContext) :=
  let request :=
    match req with
    | None => None
    | Some req => Some (mkGetWriteContextRequest (pb.GWC_Boundary req) (pb.GWC_WriteId req))
    end in
  match EventStore_GetWriteContext (eventStore a) ctx request b with
  | Err e => Some (GErr (grpc_error e))
  | Ok result =>
      consistency ← mapM observationToProto (WC_Consistency result);
      Some (GOk (pb.mkWriteContext (WC_WriteId result) consistency))
  end.

End Handlers.
Arguments EventStoreAdapter : clear implicits.

(** ** Conversions keep what they convert *)

Lemma each_roundtrip {A C} (f : A → C) (g : C → A) l :
  (∀ a, g (f a) = a) → each g (each f l) = l.
Proof.
  intros H. unfold each. rewrite <-list_fmap_compose. rewrite <-(list_fmap_id l) at 2.
  apply list_fmap_ext. intros _ [a|] _; simpl; [by rewrite H|done].
Qed.

Lemma criteria_roundtrip cs : domainCriteriaFromProto (criterionToProto <$> cs) = cs.
Proof.
  unfold domainCriteriaFromProto. unfold each at 1. rewrite <-list_fmap_compose.
  rewrite <-(list_fmap_id cs) at 2. apply list_fmap_ext.
  intros _ [[tags]|] _; [|reflexivity].
  apply (f_equal (λ l, Some (mkCriterion l))), each_roundtrip. by intros [].
Qed.

Lemma query_roundtrip q : domainQueryFromProto (queryToProto q) = q.
Proof. destruct q as [[cs]|]; [|done]. simpl. by rewrite criteria_roundtrip. Qed.

Lemma position_roundtrip p : domainPositionFromProto (positionToProto p) = p.
Proof. by destruct p as [[]|]. Qed.

(** An event is the same message in a batch that was read and in a subscription. *)
Lemma subscription_event_message `{TimestampPbLaws} (event : ReadEvent) :
  readEventToProto (neutralReadEvent event) = fillProtoEventRow (fillEvent event).
Proof. unfold readEventToProto. simpl. by rewrite timestamppb_New_spec. Qed.

(** The instant of an event is in its message. *)
Lemma event_instant (event : Event) ts :
  pb.Event_DateCreated (fillProtoEventRow event) = Some ts →
  (pb.Seconds ts * 10 ^ 9 + pb.Nanos ts = Event_DateCreated event
   ∧ 0 <= pb.Nanos ts < 10 ^ 9)%Z.
Proof.
  intros [= <-]. simpl. pose proof (Z.div_mod (Event_DateCreated event) (10 ^ 9)).
  pose proof (Z.mod_pos_bound (Event_DateCreated event) (10 ^ 9)). lia.
Qed.

(** The type of a field that was created is the type that is reported. *)
Lemma value_type_roundtrip v :
  (0 <= v <= 3)%Z → valueTypeToProto (ToLower (ValueType_String (valueTypeFromProto v))) = v.
Proof.
  intros Hv. assert (v = 0 ∨ v = 1 ∨ v = 2 ∨ v = 3)%Z as Hc by lia.
  destruct_or! Hc; subst v; vm_compute; reflexivity.
Qed.

(** ** Reading a context and saving on it, through gRPC *)

Section SqliteGrpc.
Context `{J : GoJson, L : !GoJsonLaws, SJ : !GoJsonStored, SL : !GoJsonStoredLaws, T : SqlText,
  G : GoTime, X : Sqlitex, XL : !SqlitexLaws}.

Lemma to_grpc_ok {A C} (f : A → C) r c : to_grpc f r = GOk c → ∃ a, r = Ok a ∧ c = f a.
Proof. destruct r as [a|]; [|done]. intros [= <-]. by exists a. Qed.

Lemma save_request_fields req :
  ∃ r, saveEventsV2RequestFromProto (Some req) = Some r ∧ SR_Boundary r = pb.SR_Boundary req
    ∧ SR_Events r = eventsToSaveFromProto (pb.SR_Events req)
    ∧ (∀ cs p, pb.SR_Consistency req = [Some (pb.mkObservation
                 (Some (pb.mkQuery (criterionToProto <$> cs))) (positionToProto (Some p)))] →
       SR_Consistency r = [Some (mkObservation (Some (mkQuery cs)) (Some p))]).
Proof using Type.
  eexists. split_and!; [done..|]. intros cs [] H. simpl. rewrite H. simpl.
  by rewrite criteria_roundtrip.
Qed.

(** The criteria that an answer repeats. *)
Definition answered_criteria (resp : pb.GetLatestByCriteriaResponse)
  : list (option pb.Criterion) :=
  (λ r : option pb.LatestCriterionResult, r ≫= pb.LCR_Criterion) <$> pb.LRS_Results resp.

Lemma latest_answer s ctx (req : GetLatestByCriteriaRequest) b resp :
  EventStore_GetLatestByCriteria (B := Registry) s ctx (Some req) b = Ok resp →
  answered_criteria (latestResponseToProto resp) = criterionToProto <$> LR_Criteria req.
Proof using Type.
  intros H. unfold EventStore_GetLatestByCriteria in H.
  case_bool_decide; [done|]. apply result_bind_ok in H as ([] & _ & H).
  case_bool_decide; [done|]. apply result_bind_ok in H as ([] & _ & H).
  apply result_bind_ok in H as ([] & _ & H). apply result_bind_ok in H as (batch & _ & H).
  case_bool_decide; [|done]. injection H as <-. unfold answered_criteria. simpl.
  rewrite <-list_fmap_compose. apply list_eq. intros i.
  rewrite !list_lookup_fmap, list_lookup_imap. by destruct (LR_Criteria req !! i).
Qed.

(** C3: the contract of the store as a gRPC client sees it, over SQLite. A client asks for the
latest events of some criteria; another client's save succeeds; then the first saves with the
criteria and the context position that the answer holds, unchanged, as its observation. On a
working database the save is accepted exactly when no event of the other save matches the
criteria; otherwise the client gets the status ALREADY_EXISTS and the log is as it was. *)
Theorem grpc_context_is_lock a now ctxR lreq resp ctxA reqA rA ctxB reqB conn connA checks
    (w wA : World Registry) :
  sqlite_store (eventStore a) now → text_ok now →
  backend w !! pb.LR_Boundary lreq = Some conn → log_inv (c_tables conn) →
  grpc_GetLatestByCriteria a ctxR (Some lreq) (backend w) = GOk resp →
  pb.SR_Boundary reqA = pb.LR_Boundary lreq →
  text_events (eventsToSaveFromProto (pb.SR_Events reqA)) →
  grpc_SaveEventsV2 a ctxA (Some reqA) w = (GOk rA, wA) →
  backend wA !! pb.LR_Boundary lreq = Some connA → clean connA →
  pb.SR_Boundary reqB = pb.LR_Boundary lreq →
  pb.SR_Consistency reqB = [Some (pb.mkObservation (Some (pb.mkQuery (answered_criteria resp)))
                                    (pb.LRS_ContextPosition resp))] →
  (∀ req, saveEventsV2RequestFromProto (Some reqB) = Some req →
     acceptable (eventStore a) ctxB req (c_tables connA) checks) →
  let added := drop (length (t_events (c_tables conn))) (t_events (c_tables connA)) in
  let criteria := read_criteria (domainCriteriaFromProto (pb.LR_Criteria lreq)) in
  if existsb (λ r, context_matches criteria (row_doc r)) added
  then ∃ m wB connB, grpc_SaveEventsV2 a ctxB (Some reqB) wA = (GErr (inl (GAlreadyExists, m)), wB)
         ∧ backend wB = <[pb.LR_Boundary lreq := connB]> (backend wA)
         ∧ c_tables connB = c_tables connA
  else ∃ r wB, grpc_SaveEventsV2 a ctxB (Some reqB) wA = (GOk r, wB).
Proof.
  intros Hs Hnow Hb Hl Hread HbA HtA HA HbcA Hclean HbB Hobs Hok added criteria.
  apply to_grpc_ok in Hread as (lresp & Hread & ->).
  set (lq := mkLatestRequest (pb.LR_Boundary lreq)
               (domainCriteriaFromProto (pb.LR_Criteria lreq))).
  change (latestRequestFromProto (Some lreq)) with (Some lq) in Hread.
  pose proof (latest_answer _ _ _ _ _ Hread) as Hans. rewrite Hans in Hobs.
  pose proof (latest_context _ _ _ lq _ _ _ Hs Hb Hl Hread) as Hctx.
  destruct (save_request_fields reqA) as (qA & HqA & HbqA & HeA & _).
  destruct (save_request_fields reqB) as (qB & HqB & HbqB & _ & HcB).
  unfold grpc_SaveEventsV2 in *. rewrite HqA in HA. rewrite HqB.
  destruct (SaveEventsV2 _ ctxA _ w) as [rA' wA'] eqn:EA. injection HA as HA <-.
  apply to_grpc_ok in HA as (r & -> & ->). rewrite <-HeA in HtA.
  pose proof (save_on_context _ _ _ _ _ _ _ _ _ _ _ _ _ _ _ Hs Hnow Hb Hl Hctx
    (eq_trans HbqA HbA) HtA EA HbcA Hclean (eq_trans HbqB HbB) (HcB _ _ Hobs) (Hok _ HqB)) as Hout.
  cbv zeta in Hout. fold added in Hout. change (read_criteria (LR_Criteria lq)) with criteria in Hout.
  destruct (existsb _ added).
  - destruct Hout as (wB & connB & -> & HwB & Ht). by eexists _, wB, connB.
  - destruct (SaveEventsV2 _ ctxB _ wA') as [[r'|] wB]; [|done]. by eexists _, wB.
Qed.

End SqliteGrpc.

(** ** A run *)

#[local] Existing Instances example_json example_stored_json example_sql_text example_sqlitex
  example_time.

Definition example_adapter : EventStoreAdapter Registry :=
  AdaptEventStore example_store "1.0" "2026-01-01" "abc".

Definition example_pb_criteria : list (option pb.Criterion) :=
  [Some (pb.mkCriterion [Some (pb.mkTag "order" "o-1" "")])].

Definition example_pb_latest : pb.GetLatestByCriteriaRequest :=
  pb.mkLatestRequest "orders" example_pb_criteria.

Definition example_pb_answer : pb.GetLatestByCriteriaResponse :=
  pb.mkLatestResponse [Some (pb.mkLatestResult
    (Some (pb.mkCriterion [Some (pb.mkTag "order" "o-1" "")])) None)]
    (Some (pb.mkPosition (-1) (-1))).

Definition example_pb_save (id : string) : pb.SaveEventsV2Request :=
  pb.mkSaveRequest "orders"
    [Some (pb.mkEventToSave id "OrderPlaced" (PE_DataJSON (example_event id)) "")]
    [Some (pb.mkObservation (Some (pb.mkQuery example_pb_criteria))
             (Some (pb.mkPosition (-1) (-1))))].

Lemma example_pb_saved :
  grpc_SaveEventsV2 example_adapter example_caller (Some (example_pb_save "e-1")) example_world
  = (GOk (pb.mkWriteResult (Some (pb.mkPosition 1 1)) "1:1"), example_saved.2).
Proof. vm_compute. reflexivity. Qed.

(** Of two clients that read the same empty context, the second gets the conflict. *)
Lemma grpc_context_is_lock_witness :
  ∃ m wB connB, grpc_SaveEventsV2 example_adapter example_caller (Some (example_pb_save "e-2"))
                  example_saved.2 = (GErr (inl (GAlreadyExists, m)), wB)
    ∧ backend wB = <["orders" := connB]> (backend example_saved.2)
    ∧ c_tables connB = c_tables example_connA.
Proof.
  refine (@grpc_context_is_lock example_json example_json_laws example_stored_json
    example_stored_laws example_sql_text example_time example_sqlitex example_sqlitex_laws
    example_adapter example_now example_caller example_pb_latest example_pb_answer example_caller
    (example_pb_save "e-1") _ example_caller (example_pb_save "e-2") example_conn example_connA
    [example_check] example_world example_saved.2 example_sqlite_store I eq_refl log_inv_empty _
    eq_refl (example_save_text "e-1") example_pb_saved _ (conj eq_refl eq_refl) eq_refl eq_refl _).
  - vm_compute. reflexivity.
  - vm_compute. reflexivity.
  - intros req [= <-]. apply example_acceptable. discriminate.
Defined.
