(* ===== verification/AdminGrpc.v ===== *)
(** * The admin service: [admin/grpc_server.go]

The handlers of [AdminServiceServer] over the commands of the admin slices, the users table
and the authenticator of the process. The state of a request is the world of the event store
and the sessions; requests about boundaries run among those of other nodes. *)

From stdpp Require Import options.
From S2P Require Import Prelude Status Model Number Json Predicates Consistency EventData.
From S2P Require Import WriteContext SqlPredicates Sql SqliteStore SqliteLog GroupCommit.
From S2P Require Import SqliteRead SqliteIndex EventStore Api Auth Users Subscription Neutral.
From S2P Require Import Catalog Boundaries GrpcApi.

Set Default Proof Using "Type*".

(** ** Messages *)

Module adminpb.

(** [BoundaryPermissions] are not read. *)
Record CreateUserRequest := mkCreateUser {
  CU_Name : string; CU_Username : string; CU_Password : string; CU_Roles : list string }.
Record ChangePasswordRequest := mkChangePassword {
  CP_UserId : string; CP_CurrentPassword : string; CP_NewPassword : string }.
Record AdminUser := mkAdminUser {
  AU_UserId : string; AU_Name : string; AU_Username : string; AU_Roles : list string;
  AU_CreatedAt : option pb.Timestamp }.
Record ValidateCredentialsResponse := mkValidated { VC_Success : bool; VC_User : option AdminUser }.

Record BoundaryPlacementInput := mkPlacement { PI_Backend : string; PI_Namespace : string }.
Record CreateBoundaryRequest := mkCreateBoundary {
  CBR_Name : string; CBR_Description : string; CBR_Placement : option BoundaryPlacementInput }.

Definition BoundaryLifecycleStatus : Type := Z.
Record BoundaryInfo := mkBoundaryInfo {
  BI_Name : string; BI_Description : string; BI_Placement : option BoundaryPlacementInput;
  BI_Status : BoundaryLifecycleStatus; BI_LastError : string;
  BI_DefinitionPosition : option pb.Position; BI_StatusPosition : option pb.Position }.

End adminpb.

#[export] Instance grpc_ret : MRet grpc_result := λ A a, GOk a.
#[export] Instance grpc_bind : MBind grpc_result := λ A B f r,
  match r with GOk a => f a | GErr e => GErr e end.

(** [status.Error]; the text of [status.Errorf] is its format. *)
Definition status {A} (code : GrpcCode) (message : string) : grpc_result A :=
  GErr (inl (code, message)).

Definition reject_status (bad : bool) (code : GrpcCode) (message : string) : grpc_result unit :=
  if bad then status code message else GOk tt.

(** ** Who calls *)

Definition missing_user {A} : grpc_result A :=
  status GUnauthenticated "authenticated user is missing from context".

Definition currentUserFromContext (ctx : Ctx) : grpc_result User :=
  match ctx_User ctx with
  | Some user => if String.eqb (User_Id user) "" then missing_user else GOk user
  | None => missing_user
  end.

Definition getCurrentUserIDFromContext (ctx : Ctx) : grpc_result string :=
  user ← currentUserFromContext ctx;
  if String.eqb (User_Id user) "" then missing_user else GOk (User_Id user).

Definition authorizeAdminRPC (ctx : Ctx) (allowedRoles : list Role) : grpc_result unit :=
  user ← currentUserFromContext ctx;
  match allowedRoles with
  | [] => GOk tt
  | _ =>
      if existsb (λ userRole, existsb (String.eqb userRole) allowedRoles) (User_Roles user)
      then GOk tt
      else status GPermissionDenied "user does not have a role required for this admin operation"
  end.

(** ** Conversions *)

(** [now] is [timestamppb.Now()]. *)
Definition convertToProtoUser (now : pb.Timestamp) (user : User) : adminpb.AdminUser :=
  adminpb.mkAdminUser (User_Id user) (User_Name user) (User_Username user) (User_Roles user)
    (Some now).

Definition grpcPosition (position : option Position) : option pb.Position :=
  match position with
  | None => None
  | Some p => Some (pb.mkPosition (CommitPosition p) (PreparePosition p))
  end.

Definition boundaryInfo (boundary : Boundary) : adminpb.BoundaryInfo :=
  adminpb.mkBoundaryInfo (B_Name boundary) (B_Description boundary)
    (Some (adminpb.mkPlacement (Backend (B_Placement boundary)) (Namespace (B_Placement boundary))))
    (match B_Status boundary with
     | StatusProvisioning => 1%Z
     | StatusActive => 2%Z
     | StatusFailed => 3%Z
     end)
    (B_LastError boundary) (grpcPosition (B_DefinitionPosition boundary))
    (grpcPosition (B_StatusPosition boundary)).

(** ** The server *)

(** The functions that the server was given, nil as [None]; [srv_revokes] is whether the
validator is a [SessionRevoker]. *)
Record AdminServiceServer (B : Type) := mkAdminServer {
  srv_boundary : string;
  srv_store : EventStore B;
  srv_listAdminUser : option (Ctx → result (list User));
  srv_getUserCount : option (Ctx → result Z);
  srv_getEventCount : option (Ctx → string → result Z);
  srv_authenticator : option (Ctx → string → string → result User);
  srv_revokes : bool;
  srv_boundaryEvents : Adapter B }.
Arguments mkAdminServer {B}.
Arguments srv_boundary {B}.
Arguments srv_store {B}.
Arguments srv_listAdminUser {B}.
Arguments srv_getUserCount {B}.
Arguments srv_getEventCount {B}.
Arguments srv_authenticator {B}.
Arguments srv_revokes {B}.
Arguments srv_boundaryEvents {B}.

Record AdminState (B : Type) := mkAdminState {
  as_world : World B; as_auth : Authenticator }.
Arguments mkAdminState {B}.
Arguments as_world {B}.
Arguments as_auth {B}.

Definition NewGRPCAdminServerWithDependencies {B} (boundary : string) (store : EventStore B)
    (listAdminUsers : option (Ctx → result (list User))) (getUserCount : option (Ctx → result Z))
    (getEventCount : option (Ctx → string → result Z))
    (validator : option (Ctx → string → string → result User)) (revokes : bool)
    (saver : option (EventsSaver B)) (reader : option (EventsRetriever B)) : AdminServiceServer B :=
  mkAdminServer boundary store listAdminUsers getUserCount getEventCount validator revokes
    (New_Adapter saver reader None).

(** The loop over the roles. *)
Fixpoint validate_roles (roles : list string) : result unit :=
  match roles with
  | [] => Ok tt
  | role :: roles =>
      if String.eqb role RoleAdmin || String.eqb role RoleOperations then validate_roles roles
      else Err (PlainError "unsupported role %q; valid roles are %s and %s")
  end.

Definition validateCreateUserRequest (req : option adminpb.CreateUserRequest)
  : result adminpb.CreateUserRequest :=
  match req with
  | None => Err (PlainError "request is required")
  | Some req =>
      if String.eqb (adminpb.CU_Name req) "" then Err (PlainError "name is required")
      else if String.eqb (adminpb.CU_Username req) "" then Err (PlainError "username is required")
      else if (go_len (adminpb.CU_Username req) <? 3)%Z
      then Err (PlainError "username must be at least 3 characters")
      else if String.eqb (adminpb.CU_Password req) "" then Err (PlainError "password is required")
      else if (go_len (adminpb.CU_Password req) <? 6)%Z
      then Err (PlainError "password must be at least 6 characters")
      else match adminpb.CU_Roles req with
           | [] => Err (PlainError "at least one role is required")
           | roles => match validate_roles roles with Ok _ => Ok req | Err e => Err e end
           end
  end.

Definition ErrUserNotFound : goerror := PlainError "user not found".

Section Server.
Context `{J : GoJson} {B : Type}.
Implicit Types (s : AdminServiceServer B) (st : AdminState B).

(** bcrypt, the identifiers and the clock. *)
Context (hash : string → result string) (compare : string → string → bool).
Context (newUserId eventId : result string) (now : pb.Timestamp).

Definition isUserDeleted (s : AdminServiceServer B) (ctx : Ctx) (userId : string) (b : B) : bool :=
  match GetEvents (srv_store s) ctx
          (Some (latest_request (srv_boundary s) 1 [user_criterion userId "UserDeleted"])) b with
  | Ok (_ :: _) => true
  | _ => false
  end.

Definition getUserByID (s : AdminServiceServer B) (ctx : Ctx) (userID : string) : result User :=
  match srv_listAdminUser s with
  | None => Err (PlainError "admin user store is not configured")
  | Some list =>
      users ← list ctx;
      match List.find (λ u, String.eqb (User_Id u) userID) users with
      | Some user => Ok user
      | None => Err ErrUserNotFound
      end
  end.

Definition admin_revokeUserSessions (s : AdminServiceServer B) (userID : string)
    (a : Authenticator) : Authenticator :=
  if srv_revokes s then (RevokeUserSessions a userID).2 else a.

Definition admin_createUser (s : AdminServiceServer B) (ctx : Ctx)
    (name username password : string) (roles : list Role) (w : World B) : result User * World B :=
  match CreateUser hash newUserId eventId (srv_store s) ctx name username password roles
          (srv_boundary s) None w with
  | (Err e, w) => (Err e, w)
  | (Ok u, w) => (Ok (mkUser (UC_UserId u) (UC_Name u) (UC_Username u) "" (UC_Roles u)), w)
  end.

Definition admin_CreateUser (s : AdminServiceServer B) (ctx : Ctx)
    (req : option adminpb.CreateUserRequest) (st : AdminState B)
  : grpc_result adminpb.AdminUser * AdminState B :=
  match authorizeAdminRPC ctx [RoleAdmin] with
  | GErr e => (GErr e, st)
  | GOk _ =>
      match validateCreateUserRequest req with
      | Err _ => (status GInvalidArgument "invalid request: %v", st)
      | Ok req =>
          let '(r, w) := admin_createUser s ctx (adminpb.CU_Name req) (adminpb.CU_Username req)
                           (adminpb.CU_Password req) (adminpb.CU_Roles req) (as_world st) in
          (match r with
           | Ok user => GOk (convertToProtoUser now user)
           | Err _ => status GInternal "failed to create user: %v"
           end, mkAdminState w (as_auth st))
      end
  end.

(** The checks of [DeleteUser]: the caller's identifier when they pass. *)
Definition delete_checks (s : AdminServiceServer B) (ctx : Ctx) (req : option string) (b : B)
  : grpc_result (string * string) :=
  _ ← authorizeAdminRPC ctx [RoleAdmin];
  match req with
  | None => status GInvalidArgument "request is required"
  | Some userId =>
      _ ← reject_status (String.eqb userId "") GInvalidArgument "user_id is required";
      currentUserId ← getCurrentUserIDFromContext ctx;
      _ ← reject_status (String.eqb currentUserId userId) GFailedPrecondition
            "cannot delete your own account";
      _ ← match getUserByID s ctx userId with
          | Ok _ => GOk tt
          | Err e => if errors_Is e ErrUserNotFound then status GNotFound "user not found"
                     else status GInternal "failed to get user: %v"
          end;
      _ ← reject_status (isUserDeleted s ctx userId b) GFailedPrecondition "user already deleted";
      GOk (currentUserId, userId)
  end.

Definition admin_DeleteUser (s : AdminServiceServer B) (ctx : Ctx) (req : option string)
    (st : AdminState B) : grpc_result bool * AdminState B :=
  match delete_checks s ctx req (backend (as_world st)) with
  | GErr e => (GErr e, st)
  | GOk (currentUserId, userId) =>
      match DeleteUser eventId (srv_store s) ctx userId currentUserId (srv_boundary s)
              (as_world st) with
      | (Err _, w) => (status GInternal "failed to delete user: %v", mkAdminState w (as_auth st))
      | (Ok _, w) =>
          (GOk true, mkAdminState w (admin_revokeUserSessions s userId (as_auth st)))
      end
  end.

Definition password_checks (ctx : Ctx) (req : option adminpb.ChangePasswordRequest)
  : grpc_result adminpb.ChangePasswordRequest :=
  _ ← authorizeAdminRPC ctx [];
  match req with
  | None => status GInvalidArgument "request is required"
  | Some req =>
      _ ← reject_status (String.eqb (adminpb.CP_UserId req) "") GInvalidArgument
            "user_id is required";
      _ ← reject_status (String.eqb (adminpb.CP_CurrentPassword req) "") GInvalidArgument
            "current_password is required";
      _ ← reject_status (String.eqb (adminpb.CP_NewPassword req) "") GInvalidArgument
            "new_password is required";
      currentUserId ← getCurrentUserIDFromContext ctx;
      _ ← reject_status (negb (String.eqb currentUserId (adminpb.CP_UserId req)))
            GPermissionDenied "can only change your own password";
      GOk req
  end.

(** The identifier of the event is a UUID that does not fail here. *)
Definition admin_ChangePassword (s : AdminServiceServer B) (passwordEventId : string) (ctx : Ctx)
    (req : option adminpb.ChangePasswordRequest) (st : AdminState B)
  : grpc_result bool * AdminState B :=
  match password_checks ctx req with
  | GErr e => (GErr e, st)
  | GOk req =>
      match ChangePassword compare hash passwordEventId (srv_store s) ctx
              (adminpb.CP_CurrentPassword req) (adminpb.CP_NewPassword req) (srv_boundary s)
              (adminpb.CP_UserId req) (as_world st) with
      | (Err e, w) =>
          ((if errors_Is e ErrInvalidCurrentPassword then status GUnauthenticated (Error_text e)
            else status GInternal "failed to change password: %v"), mkAdminState w (as_auth st))
      | (Ok _, w) =>
          (GOk true,
           mkAdminState w (admin_revokeUserSessions s (adminpb.CP_UserId req) (as_auth st)))
      end
  end.

Definition admin_ListUsers (s : AdminServiceServer B) (ctx : Ctx) (b : B)
  : grpc_result (list adminpb.AdminUser) :=
  _ ← authorizeAdminRPC ctx [RoleAdmin];
  match srv_listAdminUser s with
  | None => status GInternal "admin user store is not configured"
  | Some list =>
      match list ctx with
      | Err _ => status GInternal "failed to list users: %v"
      | Ok users =>
          GOk (convertToProtoUser now
                 <$> List.filter (λ u, negb (isUserDeleted s ctx (User_Id u) b)) users)
      end
  end.

Definition admin_ValidateCredentials (s : AdminServiceServer B) (ctx : Ctx)
    (req : option (string * string)) : grpc_result adminpb.ValidateCredentialsResponse :=
  _ ← authorizeAdminRPC ctx [RoleAdmin];
  match req with
  | None => status GInvalidArgument "request is required"
  | Some (username, password) =>
      _ ← reject_status (String.eqb username "" || String.eqb password "") GInvalidArgument
            "username and password are required";
      match srv_authenticator s with
      | None => status GInternal "credentials validator is not configured"
      | Some verify =>
          match verify ctx username password with
          | Err _ => GOk (adminpb.mkValidated false None)
          | Ok user => GOk (adminpb.mkValidated true (Some (convertToProtoUser now user)))
          end
      end
  end.

Definition admin_GetUserCount (s : AdminServiceServer B) (ctx : Ctx) : grpc_result Z :=
  _ ← authorizeAdminRPC ctx [RoleAdmin];
  match srv_getUserCount s, srv_listAdminUser s with
  | Some count, _ =>
      match count ctx with
      | Ok n => GOk n
      | Err _ => status GInternal "failed to count users: %v"
      end
  | None, None => status GInternal "admin user store is not configured"
  | None, Some list =>
      match list ctx with
      | Ok users => GOk (Z.of_nat (length users))
      | Err _ => status GInternal "failed to count users: %v"
      end
  end.

Definition admin_GetEventCount (s : AdminServiceServer B) (ctx : Ctx) (req : option string)
  : grpc_result Z :=
  _ ← authorizeAdminRPC ctx [RoleAdmin; RoleOperations];
  match req with
  | None => status GInvalidArgument "request is required"
  | Some boundary =>
      _ ← reject_status (String.eqb boundary "") GInvalidArgument "boundary is required";
      match srv_getEventCount s with
      | None => status GInternal "event count store is not configured"
      | Some count =>
          match count ctx boundary with
          | Ok n => GOk n
          | Err _ => status GInternal "failed to count events: %v"
          end
      end
  end.

(** *** Boundaries *)

Section BoundaryRequests.
(** What other nodes do between the operations of a request. *)
Context (env : nat → B → B).

(** The outcome of a command; [None] is a panic or a loop out of fuel. *)
Definition boundary_reply {A C} (f : A → C) (r : option (result A) * Run B)
  : option (grpc_result C) * Run B := (to_grpc f <$> r.1, r.2).

Definition grpc_metadata : gmap string json :=
  {[ "source" := JString "grpc"; "operation" := JString "create_boundary" ]}.

Definition admin_CreateBoundary (s : AdminServiceServer B) (ctx : Ctx)
    (req : option adminpb.CreateBoundaryRequest) (r : Run B)
  : option (grpc_result adminpb.BoundaryInfo) * Run B :=
  match authorizeAdminRPC ctx [RoleAdmin] with
  | GErr e => (Some (GErr e), r)
  | GOk _ =>
      match req with
      | Some (adminpb.mkCreateBoundary name description (Some placement)) =>
          boundary_reply boundaryInfo
            (CreateBoundaryCommandHandler env eventId ctx
               (mkCreateBoundary name description
                  (mkPlacement (adminpb.PI_Backend placement) (adminpb.PI_Namespace placement))
                  grpc_metadata)
               (srv_boundary s) (Some (adapter_appender (srv_boundaryEvents s)))
               (Some (adapter_latest (srv_boundaryEvents s))) r)
      | _ => (Some (status GInvalidArgument "boundary placement is required"), r)
      end
  end.

Definition admin_ListBoundaries (fuel : nat) (s : AdminServiceServer B) (ctx : Ctx) (r : Run B)
  : option (grpc_result (list adminpb.BoundaryInfo)) * Run B :=
  match authorizeAdminRPC ctx [RoleAdmin; RoleOperations] with
  | GErr e => (Some (GErr e), r)
  | GOk _ =>
      boundary_reply (fmap boundaryInfo)
        (ListBoundariesQueryHandler env fuel ctx (srv_boundary s)
           (Some (adapter_reader (srv_boundaryEvents s))) r)
  end.

Definition admin_GetBoundary (fuel : nat) (s : AdminServiceServer B) (ctx : Ctx)
    (req : option string) (r : Run B) : option (grpc_result adminpb.BoundaryInfo) * Run B :=
  match authorizeAdminRPC ctx [RoleAdmin; RoleOperations] with
  | GErr e => (Some (GErr e), r)
  | GOk _ =>
      match req with
      | None => (Some (status GInvalidArgument "boundary name is required"), r)
      | Some name =>
          boundary_reply boundaryInfo
            (GetBoundaryQueryHandler env fuel ctx name (srv_boundary s)
               (Some (adapter_reader (srv_boundaryEvents s))) r)
      end
  end.

End BoundaryRequests.

(** ** A request to the service *)

Inductive AdminRequest :=
| QCreateUser (req : option adminpb.CreateUserRequest)
| QDeleteUser (req : option string)
| QChangePassword (passwordEventId : string) (req : option adminpb.ChangePasswordRequest)
| QListUsers
| QValidateCredentials (req : option (string * string))
| QGetUserCount
| QGetEventCount (req : option string).

Inductive AdminReply :=
| YUser (u : adminpb.AdminUser)
| YSuccess (b : bool)
| YUsers (l : list adminpb.AdminUser)
| YValidated (v : adminpb.ValidateCredentialsResponse)
| YCount (n : Z).

Definition reply {A} (f : A → AdminReply) (r : grpc_result A) : grpc_result AdminReply :=
  match r with GOk a => GOk (f a) | GErr e => GErr e end.

Definition admin_handle (s : AdminServiceServer B) (ctx : Ctx) (q : AdminRequest)
    (st : AdminState B) : grpc_result AdminReply * AdminState B :=
  match q with
  | QCreateUser req => let '(r, st) := admin_CreateUser s ctx req st in (reply YUser r, st)
  | QDeleteUser req => let '(r, st) := admin_DeleteUser s ctx req st in (reply YSuccess r, st)
  | QChangePassword id req =>
      let '(r, st) := admin_ChangePassword s id ctx req st in (reply YSuccess r, st)
  | QListUsers => (reply YUsers (admin_ListUsers s ctx (backend (as_world st))), st)
  | QValidateCredentials req => (reply YValidated (admin_ValidateCredentials s ctx req), st)
  | QGetUserCount => (reply YCount (admin_GetUserCount s ctx), st)
  | QGetEventCount req => (reply YCount (admin_GetEventCount s ctx req), st)
  end.

(** The roles that a request needs; any user may change a password. *)
Definition admin_roles (q : AdminRequest) : list Role :=
  match q with
  | QChangePassword _ _ => []
  | QGetEventCount _ => [RoleAdmin; RoleOperations]
  | _ => [RoleAdmin]
  end.

(** A caller without a role that the request needs changes nothing. *)
Lemma admin_unauthorized s ctx q st e :
  authorizeAdminRPC ctx (admin_roles q) = GErr e → admin_handle s ctx q st = (GErr e, st).
Proof using Type.
  intros H. destruct q; simpl in H |- *;
    unfold admin_CreateUser, admin_DeleteUser, delete_checks, admin_ChangePassword,
      password_checks, admin_ListUsers, admin_ValidateCredentials, admin_GetUserCount,
      admin_GetEventCount; by rewrite H.
Qed.

(** *** Sessions *)

(** The user whose sessions a request ends when it succeeds. *)
Definition ends_sessions (q : AdminRequest) : option string :=
  match q with
  | QDeleteUser (Some userId) => Some userId
  | QChangePassword _ (Some req) => Some (adminpb.CP_UserId req)
  | _ => None
  end.

Definition succeeds {A} (r : grpc_result A) : bool :=
  match r with GOk _ => true | GErr _ => false end.

(** What [RevokeUserSessions] leaves. *)
Lemma revoked_sessions a userID token :
  sessions (RevokeUserSessions a userID).2 !! token =
    match sessions a !! token with
    | Some x => if of_user userID x then None else Some x
    | None => None
    end.
Proof using Type.
  unfold RevokeUserSessions. simpl. rewrite map_lookup_filter.
  destruct (sessions a !! token) as [x|]; simpl; [|done].
  destruct (of_user userID x) eqn:E; [by rewrite option_guard_False|by rewrite option_guard_True].
Qed.

Lemma delete_checks_ok s ctx userId b c u :
  delete_checks s ctx (Some userId) b = GOk (c, u) → u = userId.
Proof using Type.
  unfold delete_checks, reject_status, mbind, grpc_bind. intros H.
  repeat (case_match; simplify_eq/=; try done).
Qed.

(** What a request does to the sessions of the process. *)
Definition sessions_after (s : AdminServiceServer B) (q : AdminRequest) (ok : bool)
    (a : Authenticator) : Authenticator :=
  match ends_sessions q with
  | Some userId => if ok then admin_revokeUserSessions s userId a else a
  | None => a
  end.

Lemma admin_handle_sessions s ctx q st :
  as_auth (admin_handle s ctx q st).2
  = sessions_after s q (succeeds (admin_handle s ctx q st).1) (as_auth st).
Proof using Type.
  destruct q as [req|req|id req| | | |]; simpl; try done.
  - unfold admin_CreateUser. unfold sessions_after. simpl.
    destruct (authorizeAdminRPC _ _); [|done]. destruct (validateCreateUserRequest req); [|done].
    by destruct (admin_createUser _ _ _ _ _ _ _).
  - unfold admin_DeleteUser. destruct (delete_checks _ _ _ _) as [[c u]|e] eqn:E.
    + destruct req as [userId|].
      * apply delete_checks_ok in E as ->. by destruct (DeleteUser _ _ _ _ _ _ _) as [[]].
      * unfold delete_checks in E. by destruct (authorizeAdminRPC _ _).
    + unfold sessions_after. by destruct (ends_sessions _).
  - unfold admin_ChangePassword. destruct (password_checks ctx req) as [p|e] eqn:E.
    + assert (req = Some p) as ->.
      { unfold password_checks, mbind, grpc_bind, reject_status in E.
        repeat (case_match; simplify_eq/=; try done). }
      destruct (ChangePassword _ _ _ _ _ _ _ _ _ _) as [[]]; [done|]. by destruct (errors_Is _ _).
    + unfold sessions_after. by destruct (ends_sessions _).
Qed.

(** Sessions and the admin service. When a user is deleted or changes the password through
the service of a process whose validator keeps sessions, every token of that user is refused
from then on, at any time and whatever it was issued for, and the sessions of all other users
stay as they were; a request that fails, and any other request, changes no session. *)
Theorem admin_requests_end_sessions s ctx q st token session now' tctx :
  srv_revokes s = true → sessions (as_auth st) !! token = Some session →
  let '(r, st') := admin_handle s ctx q st in
  if bool_decide (ends_sessions q = Some (User_Id (s_user session))) && succeeds r
  then is_ok (ValidateToken (as_auth st') tctx now' token).1 = false
  else sessions (as_auth st') !! token = Some session.
Proof using Type.
  intros Hrev Htok. pose proof (admin_handle_sessions s ctx q st) as Hs.
  destruct (admin_handle s ctx q st) as [r st']. simpl in Hs. rewrite Hs.
  unfold sessions_after, admin_revokeUserSessions. rewrite Hrev.
  destruct (ends_sessions q) as [userId|]; [|done].
  destruct (succeeds r); [|by rewrite andb_false_r]. rewrite andb_true_r.
  pose proof (revoked_sessions (as_auth st) userId token) as Hr. rewrite Htok in Hr.
  case_bool_decide as Hu.
  - injection Hu as ->. unfold of_user in Hr. rewrite bool_decide_true in Hr by done.
    unfold ValidateToken. destruct (ctx_Err tctx); [done|]. by rewrite Hr.
  - rewrite Hr. unfold of_user. rewrite bool_decide_false; [done|]. congruence.
Qed.

End Server.

(** ** A run: an administrator deletes a user *)

Section Witnesses.
#[local] Existing Instances example_json example_stored_json example_sql_text example_sqlitex
  example_time.

Definition root_user : User := mkUser "u-0" "Root" "root" "" [RoleAdmin].
Definition ada_user : User := mkUser "u-1" "Ada" "ada" "#pw" [RoleAdmin].
Definition root_ctx : Ctx := mkCtx (Some root_user) None.

Definition example_admin_server : AdminServiceServer Registry :=
  NewGRPCAdminServerWithDependencies "admin" admin_store (Some (λ _, Ok [root_user; ada_user]))
    None None None true None None.

Definition example_admin_state : AdminState Registry :=
  mkAdminState world_created
    (mkAuthenticator 10 16 {[ "t-0" := mkSession root_user 9; "t-1" := mkSession ada_user 9 ]}).

Definition admin_call (q : AdminRequest) (st : AdminState Registry)
  : grpc_result AdminReply * AdminState Registry :=
  admin_handle admin_hash admin_compare (Ok "u-2") (Ok "e-2") (pb.mkTimestamp 0 0)
    example_admin_server root_ctx q st.

Definition after_delete : AdminState Registry :=
  Eval vm_compute in (admin_call (QDeleteUser (Some "u-1")) example_admin_state).2.

Lemma delete_call :
  admin_call (QDeleteUser (Some "u-1")) example_admin_state = (GOk (YSuccess true), after_delete).
Proof. vm_compute. reflexivity. Qed.

Lemma admin_requests_end_sessions_witness :
  is_ok (ValidateToken (as_auth after_delete) root_ctx 5 "t-1").1 = false
  ∧ sessions (as_auth after_delete) !! "t-0" = Some (mkSession root_user 9).
Proof.
  pose proof (@admin_requests_end_sessions example_json Registry admin_hash admin_compare
    (Ok "u-2") (Ok "e-2") (pb.mkTimestamp 0 0) example_admin_server root_ctx
    (QDeleteUser (Some "u-1")) example_admin_state) as H.
  pose proof (H "t-1" (mkSession ada_user 9) 5%Z root_ctx eq_refl eq_refl) as H1.
  pose proof (H "t-0" (mkSession root_user 9) 5%Z root_ctx eq_refl eq_refl) as H0.
  pose proof delete_call as Hc. unfold admin_call in Hc. rewrite Hc in H0, H1.
  split; [exact H1|exact H0].
Defined.

(** The check for a deleted user looks for events of the type UserDeleted, while those of the
commands are of the type $UserDeleted: a user that was deleted is not recognized, is listed as
long as the projection has the row, and a second deletion is an internal error. *)
Lemma deleted_user_not_recognized :
  isUserDeleted example_admin_server root_ctx "u-1" (backend (as_world after_delete)) = false
  ∧ admin_call (QDeleteUser (Some "u-1")) after_delete
    = (status GInternal "failed to delete user: %v", after_delete).
Proof. split; vm_compute; reflexivity. Qed.

End Witnesses.
