(* ===== verification/Middleware.v ===== *)
(** * Authentication of gRPC requests: [admin/middleware.go]

The interceptors that stand before every handler: a session token or Basic credentials become
the user in the context of the request. [encoding/base64] of the Go library is modelled with
its padded standard alphabet. *)

From stdpp Require Import options.
From S2P Require Import Prelude Status Model Number Json Predicates Consistency EventData.
From S2P Require Import WriteContext SqlPredicates Sql SqliteStore SqliteLog GroupCommit.
From S2P Require Import SqliteRead SqliteIndex EventStore Api Auth Users Subscription Neutral.
From S2P Require Import Catalog Boundaries GrpcApi AdminGrpc.

Set Default Proof Using "Type*".

(** ** [base64.StdEncoding] *)

Definition base64_alphabet : string :=
  "ABCDEFGHIJKLMNOPQRSTUVWXYZabcdefghijklmnopqrstuvwxyz0123456789+/".

Definition sextet_char (v : N) : ascii :=
  default "="%char (String.get (N.to_nat v) base64_alphabet).

Definition sextet_of (c : ascii) : option N :=
  N.of_nat <$> String.index 0 (String c "") base64_alphabet.

(** A byte of the given value. *)
Definition byte_of (n : N) : ascii := ascii_of_N n.

(** [EncodeToString], in groups of three bytes. *)
Fixpoint base64_EncodeToString (s : string) : string :=
  match s with
  | EmptyString => ""
  | String a EmptyString =>
      let x := N_of_ascii a in
      String (sextet_char (x / 4)) (String (sextet_char (x mod 4 * 16)) "==")
  | String a (String b EmptyString) =>
      let x := N_of_ascii a in let y := N_of_ascii b in
      String (sextet_char (x / 4)) (String (sextet_char (x mod 4 * 16 + y / 16))
        (String (sextet_char (y mod 16 * 4)) "="))
  | String a (String b (String c s)) =>
      let x := N_of_ascii a in let y := N_of_ascii b in let z := N_of_ascii c in
      String (sextet_char (x / 4)) (String (sextet_char (x mod 4 * 16 + y / 16))
        (String (sextet_char (y mod 16 * 4 + z / 64)) (String (sextet_char (z mod 64))
          (base64_EncodeToString s))))
  end%N.

(** The groups of four characters; padding ends the text. *)
Fixpoint decode_groups (s : string) : option string :=
  match s with
  | EmptyString => Some ""
  | String c1 (String c2 (String c3 (String c4 s))) =>
      v1 ← sextet_of c1;
      v2 ← sextet_of c2;
      let first := byte_of (v1 * 4 + v2 / 16) in
      if Ascii.eqb c3 "=" then
        if Ascii.eqb c4 "=" && String.eqb s "" then Some (String first "") else None
      else
        v3 ← sextet_of c3;
        let second := byte_of (v2 mod 16 * 16 + v3 / 4) in
        if Ascii.eqb c4 "=" then
          if String.eqb s "" then Some (String first (String second "")) else None
        else
          v4 ← sextet_of c4;
          rest ← decode_groups s;
          Some (String first (String second (String (byte_of (v3 mod 4 * 64 + v4)) rest)))
  | _ => None
  end%N.

Definition is_newline (c : ascii) : bool :=
  Ascii.eqb c (ascii_of_N 10) || Ascii.eqb c (ascii_of_N 13).

(** Line ends are skipped. *)
Fixpoint skip_newlines (s : string) : string :=
  match s with
  | EmptyString => ""
  | String c s => if is_newline c then skip_newlines s else String c (skip_newlines s)
  end.

Definition base64_DecodeString (s : string) : option string := decode_groups (skip_newlines s).

(** ** Credentials *)

(** [strings.SplitN(s, ":", 2)] with two parts. *)
Fixpoint cut_colon (s : string) : option (string * string) :=
  match s with
  | EmptyString => None
  | String c s =>
      if Ascii.eqb c ":" then Some ("", s)
      else '(a, b) ← cut_colon s; Some (String c a, b)
  end.

(** [strings.TrimPrefix]. *)
Definition TrimPrefix (s pre : string) : string :=
  if HasPrefix s pre then String.substring (String.length pre) (String.length s - String.length pre) s
  else s.

Definition tokenHeaderName : string := "x-auth-token".
Definition basic_prefix : string := "Basic ".

Section Interceptors.
(** The order of [range], bcrypt, the users table, the clock, the UUID of a new session, and the
methods of the health service of the gRPC library. *)
Context (iterate : gmap string authenticatedSession → list (string * authenticatedSession)).
Context (compare : string → string → bool).
Context (getUser : string → result User) (now : Z) (newToken : string).
Context (healthMethods : list string).

Definition isUnauthenticatedMethod (fullMethod : string) : bool :=
  existsb (String.eqb fullMethod) healthMethods.

Definition unauthenticated {A} (message : string) : grpc_result A :=
  status GUnauthenticated message.

(** The token of the request, when it is accepted. *)
Definition token_user (ctx : Ctx) (tokens : list string) (a : Authenticator)
  : option (User * string) * Authenticator :=
  match last tokens with
  | None => (None, a)
  | Some token =>
      match ValidateToken a ctx now token with
      | (Ok user, a) => (Some (user, token), a)
      | (Err _, a) => (None, a)
      end
  end.

(** [md] are the headers of the request by name; [None] as a whole is a loop out of fuel. *)
Definition authenticate (ctx : Ctx) (md : option (string → list string)) (a : Authenticator)
  : option (grpc_result (User * string) * Authenticator) :=
  match md with
  | None => Some (unauthenticated "missing metadata", a)
  | Some get =>
      match token_user ctx (get tokenHeaderName) a with
      | (Some found, a) => Some (GOk found, a)
      | (None, a) =>
          match get "authorization" with
          | [] => Some (unauthenticated "missing authorization header", a)
          | authHeader :: _ =>
              if negb (HasPrefix authHeader basic_prefix)
              then Some (unauthenticated "invalid authorization header format", a)
              else match base64_DecodeString (TrimPrefix authHeader basic_prefix) with
                   | None => Some (unauthenticated "invalid authorization header encoding", a)
                   | Some decoded =>
                       match cut_colon decoded with
                       | None => Some (unauthenticated "invalid authorization header format", a)
                       | Some (username, password) =>
                           '(r, a) ← ValidateCredentials iterate a getUser compare username
                                       password now newToken;
                           Some (match r with
                                 | Ok found => GOk found
                                 | Err _ => unauthenticated "invalid credentials"
                                 end, a)
                       end
                   end
          end
      end
  end.

(** The interceptors of unary and streaming calls: the context that the handler is called with
and the token in the response, or the error. *)
Definition auth_interceptor (fullMethod : string) (ctx : Ctx)
    (md : option (string → list string)) (a : Authenticator)
  : option (grpc_result (Ctx * option string) * Authenticator) :=
  if isUnauthenticatedMethod fullMethod then Some (GOk (ctx, None), a)
  else
    '(r, a) ← authenticate ctx md a;
    Some (match r with
          | GErr e => GErr e
          | GOk (user, token) => GOk (mkCtx (Some user) (ctx_Err ctx), Some token)
          end, a).

End Interceptors.

(** ** Base64 *)

Lemma sextet_roundtrip v : (v < 64)%N → sextet_of (sextet_char v) = Some v.
Proof.
  intros Hv.
  assert (∀ n, n < 64 → sextet_of (sextet_char (N.of_nat n)) = Some (N.of_nat n)) as H.
  { intros n Hn. do 64 (destruct n as [|n]; [vm_compute; reflexivity|]). lia. }
  specialize (H (N.to_nat v)). rewrite N2Nat.id in H. apply H. lia.
Qed.

Lemma sextet_plain v :
  (v < 64)%N → is_newline (sextet_char v) = false ∧ Ascii.eqb (sextet_char v) "=" = false.
Proof.
  intros Hv.
  assert (∀ n, n < 64 → is_newline (sextet_char (N.of_nat n)) = false
    ∧ Ascii.eqb (sextet_char (N.of_nat n)) "=" = false) as H.
  { intros n Hn. do 64 (destruct n as [|n]; [vm_compute; split; reflexivity|]). lia. }
  specialize (H (N.to_nat v)). rewrite N2Nat.id in H. apply H. lia.
Qed.

Lemma ascii_bound c : (N_of_ascii c < 256)%N.
Proof. apply N_ascii_bounded. Qed.

Lemma byte_of_ascii c n : n = N_of_ascii c → byte_of n = c.
Proof. intros ->. apply ascii_N_embedding. Qed.

(** Induction by groups of three bytes. *)
Lemma string_ind3 (P : string → Prop) :
  P "" → (∀ a, P (String a "")) → (∀ a b, P (String a (String b ""))) →
  (∀ a b c s, P s → P (String a (String b (String c s)))) → ∀ s, P s.
Proof.
  intros H0 H1 H2 H3. fix IH 1. intros [|a [|b [|c s]]]; [done|done|done|].
  apply H3, IH.
Qed.

Ltac divisions := zify; Z.to_euclidean_division_equations; lia.

(** The sextets of a group are sextets, and the bytes come back from them. *)
Lemma group_bounds x y z :
  (x < 256 → y < 256 → z < 256 →
   x / 4 < 64 ∧ x mod 4 * 16 < 64 ∧ x mod 4 * 16 + y / 16 < 64 ∧ y mod 16 * 4 < 64
   ∧ y mod 16 * 4 + z / 64 < 64 ∧ z mod 64 < 64)%N.
Proof. intros. split_and!; divisions. Qed.

Lemma group_first x y :
  (x < 256 → y < 256 →
   x / 4 * 4 + (x mod 4 * 16) / 16 = x ∧ x / 4 * 4 + (x mod 4 * 16 + y / 16) / 16 = x)%N.
Proof. intros. split; divisions. Qed.

Lemma group_second x y z :
  (x < 256 → y < 256 → z < 256 →
   (x mod 4 * 16 + y / 16) mod 16 * 16 + (y mod 16 * 4) / 4 = y
   ∧ (x mod 4 * 16 + y / 16) mod 16 * 16 + (y mod 16 * 4 + z / 64) / 4 = y)%N.
Proof. intros. split; divisions. Qed.

Lemma group_third y z :
  (y < 256 → z < 256 → (y mod 16 * 4 + z / 64) mod 4 * 64 + z mod 64 = z)%N.
Proof. intros. divisions. Qed.

Lemma skip_sextet v s :
  (v < 64)%N →
  skip_newlines (String (sextet_char v) s) = String (sextet_char v) (skip_newlines s).
Proof. intros H. cbn [skip_newlines]. by rewrite (proj1 (sextet_plain v H)). Qed.

(** One group of each kind. *)
Lemma decode_one v1 v2 :
  (v1 < 64)%N → (v2 < 64)%N →
  decode_groups (String (sextet_char v1) (String (sextet_char v2) "=="))
  = Some (String (byte_of (v1 * 4 + v2 / 16)) "").
Proof. intros H1 H2. cbn [decode_groups]. by rewrite !sextet_roundtrip by done. Qed.

Lemma decode_two v1 v2 v3 :
  (v1 < 64)%N → (v2 < 64)%N → (v3 < 64)%N →
  decode_groups (String (sextet_char v1) (String (sextet_char v2) (String (sextet_char v3) "=")))
  = Some (String (byte_of (v1 * 4 + v2 / 16)) (String (byte_of (v2 mod 16 * 16 + v3 / 4)) "")).
Proof.
  intros H1 H2 H3. cbn [decode_groups]. rewrite !sextet_roundtrip by done.
  cbn [mbind option_bind]. by rewrite (proj2 (sextet_plain v3 H3)).
Qed.

Lemma decode_three v1 v2 v3 v4 s :
  (v1 < 64)%N → (v2 < 64)%N → (v3 < 64)%N → (v4 < 64)%N →
  decode_groups (String (sextet_char v1) (String (sextet_char v2) (String (sextet_char v3)
    (String (sextet_char v4) s))))
  = rest ← decode_groups s;
    Some (String (byte_of (v1 * 4 + v2 / 16)) (String (byte_of (v2 mod 16 * 16 + v3 / 4))
           (String (byte_of (v3 mod 4 * 64 + v4)) rest))).
Proof.
  intros H1 H2 H3 H4. cbn [decode_groups]. rewrite !sextet_roundtrip by done.
  cbn [mbind option_bind]. rewrite (proj2 (sextet_plain v3 H3)), (proj2 (sextet_plain v4 H4)).
  done.
Qed.

(** What is encoded is decoded. *)
Lemma base64_roundtrip s : base64_DecodeString (base64_EncodeToString s) = Some s.
Proof.
  unfold base64_DecodeString. induction s as [|a|a b|a b c s IH] using string_ind3; [done|..];
    cbn [base64_EncodeToString].
  - pose proof (ascii_bound a) as Ha.
    destruct (group_bounds _ 0 0 Ha) as (B1 & B2 & _); [done..|].
    destruct (group_first _ 0 Ha) as [F1 _]; [done|].
    rewrite !skip_sextet by done. change (skip_newlines "==") with "==".
    rewrite decode_one by done. by rewrite (byte_of_ascii a).
  - pose proof (ascii_bound a) as Ha. pose proof (ascii_bound b) as Hb.
    destruct (group_bounds _ _ 0 Ha Hb) as (B1 & _ & B3 & B4 & _); [done|].
    destruct (group_first _ _ Ha Hb) as [_ F2]. destruct (group_second _ _ 0 Ha Hb) as [S1 _]; [done|].
    rewrite !skip_sextet by done. change (skip_newlines "=") with "=".
    rewrite decode_two by done. by rewrite (byte_of_ascii a), (byte_of_ascii b).
  - pose proof (ascii_bound a) as Ha. pose proof (ascii_bound b) as Hb. pose proof (ascii_bound c) as Hc.
    destruct (group_bounds _ _ _ Ha Hb Hc) as (B1 & _ & B3 & _ & B5 & B6).
    destruct (group_first _ _ Ha Hb) as [_ F2]. destruct (group_second _ _ _ Ha Hb Hc) as [_ S2].
    pose proof (group_third _ _ Hb Hc) as T1.
    rewrite !skip_sextet by done. rewrite decode_three by done. rewrite IH. cbn [mbind option_bind].
    by rewrite (byte_of_ascii a), (byte_of_ascii b), (byte_of_ascii c).
Qed.

(** ** What reaches a handler *)

Definition no_colon (u : string) : bool := string_forallb (λ c, negb (Ascii.eqb c ":")) u.

Lemma cut_colon_app u p :
  no_colon u = true →
  cut_colon (u +:+ ":" +:+ p) = Some (u, p).
Proof.
  unfold no_colon. induction u as [|c u IH]; [done|]. simpl. intros [Hc Hu]%andb_true_iff.
  apply negb_true_iff in Hc. rewrite Hc, IH by done. done.
Qed.

Lemma cut_colon_Some s u p :
  cut_colon s = Some (u, p) → s = u +:+ ":" +:+ p ∧ no_colon u = true.
Proof.
  unfold no_colon. revert u. induction s as [|c s IH]; intros u; [done|]. simpl.
  destruct (Ascii.eqb_spec c ":") as [->|Hc]; [by intros [= <- <-]|].
  destruct (cut_colon s) as [[a b]|]; [|done]. intros [= <- <-].
  destruct (IH a) as [-> Ha]; [done|]. split; [done|]. simpl. rewrite Ha, andb_true_r.
  by rewrite (proj2 (Ascii.eqb_neq c ":")).
Qed.

Lemma basic_header x :
  HasPrefix (basic_prefix +:+ x) basic_prefix = true
  ∧ TrimPrefix (basic_prefix +:+ x) basic_prefix = x.
Proof.
  assert (HasPrefix (basic_prefix +:+ x) basic_prefix = true) as H
    by (by destruct x).
  split; [done|]. unfold TrimPrefix. rewrite H.
  change (String.substring 6 (6 + String.length x - 6) (basic_prefix +:+ x) = x).
  replace (6 + String.length x - 6) with (String.length x) by lia.
  by apply substring_all.
Qed.

Lemma HasPrefix_inv s pre : HasPrefix s pre = true → ∃ x, s = pre +:+ x.
Proof.
  unfold HasPrefix. revert s. induction pre as [|c pre IH]; intros s H; [by exists s|].
  destruct s as [|d s]; [done|]. simpl in H. destruct (ascii_dec c d) as [<-|]; [|done].
  destruct (IH s H) as [x ->]. by exists x.
Qed.

Section Facts.
Context `{J : GoJson}.
Context (iterate : gmap string authenticatedSession → list (string * authenticatedSession)).
Context (compare : string → string → bool).
Context (iterate_perm : ∀ m, iterate m ≡ₚ map_to_list m).
Context (getUser : string → result User) (now : Z) (newToken : string).
Context (healthMethods : list string).

(** What the metadata of a request presents: the last token header is [token]; the first
authorization header is Basic credentials that decode to the name and the password, parted at
the first colon. *)
Definition presents_token (get : string → list string) (token : string) : Prop :=
  last (get tokenHeaderName) = Some token.
Definition presents_credentials (get : string → list string) (username password : string) : Prop :=
  ∃ encoded rest, get "authorization" = (basic_prefix +:+ encoded) :: rest
    ∧ base64_DecodeString encoded = Some (username +:+ ":" +:+ password)
    ∧ no_colon username = true.

(** [user] was let in by what the request presents: by its token, that of a session of the user
that has not ended, or by its name and password, and [token] is a session of the user now. *)
Definition let_in (get : string → list string) (a a' : Authenticator) (user : User)
    (token : string) : Prop :=
  sessions a' !! token = Some (mkSession user (now + sessionTTL a))
  ∧ ((presents_token get token
      ∧ ∃ s, sessions a !! token = Some s ∧ s_user s = user ∧ alive now s = true)
     ∨ token = newToken
       ∧ ∃ username password, presents_credentials get username password
           ∧ VerifyCredentials getUser compare username password = Ok user).

(** The credentials that the first authorization header presents, if any: they are unique. *)
Lemma credentials_presented get encoded rest :
  get "authorization" = (basic_prefix +:+ encoded) :: rest →
  (∀ d, base64_DecodeString encoded = Some d → cut_colon d = None)
  ∨ ∃ u p, base64_DecodeString encoded = Some (u +:+ ":" +:+ p)
      ∧ cut_colon (u +:+ ":" +:+ p) = Some (u, p) ∧ presents_credentials get u p
      ∧ ∀ u' p', presents_credentials get u' p' → u' = u ∧ p' = p.
Proof using Type.
  intros Ha. destruct (base64_DecodeString encoded) as [d|] eqn:Ed; [|by left].
  destruct (cut_colon d) as [[u p]|] eqn:Ec; [|left; by intros ? [= <-]].
  destruct (cut_colon_Some _ _ _ Ec) as [-> Hu].
  right. exists u, p. split_and!; [done..|by exists encoded, rest|].
  intros u' p' (encoded' & rest' & Ha' & Hd & Hu'). rewrite Ha in Ha'.
  apply (f_equal head) in Ha'. cbn [head] in Ha'.
  apply (inj Some), (inj (String.append basic_prefix)) in Ha' as <-. rewrite Ed in Hd. injection Hd as Hd. rewrite Hd in Ec.
  rewrite cut_colon_app in Ec by done. by injection Ec as -> ->.
Qed.

Lemma credentials_none get encoded rest u p :
  get "authorization" = (basic_prefix +:+ encoded) :: rest →
  (∀ d, base64_DecodeString encoded = Some d → cut_colon d = None) →
  ¬ presents_credentials get u p.
Proof using Type.
  intros Ha Hnone (encoded' & rest' & Ha' & Hd & Hu). rewrite Ha in Ha'.
  apply (f_equal head) in Ha'. cbn [head] in Ha'.
  apply (inj Some), (inj (String.append basic_prefix)) in Ha' as <-. apply Hnone in Hd. by rewrite cut_colon_app in Hd.
Qed.

Lemma token_user_spec ctx get a o a' :
  bounded_sessions a → token_user now ctx (get tokenHeaderName) a = (o, a') →
  bounded_sessions a' ∧ sessionTTL a' = sessionTTL a
  ∧ match o with Some (user, token) => let_in get a a' user token | None => True end.
Proof using J iterate_perm.
  intros Hb H. unfold token_user in H.
  destruct (last (get tokenHeaderName)) as [token|] eqn:El; [|by injection H as <- <-].
  destruct (apply_op_bounded iterate compare iterate_perm a (OValidate ctx now token) Hb I)
    as (a1 & [= <-] & Hb1 & Ht & _).
  unfold ValidateToken in *. destruct (ctx_Err ctx); [by injection H as <- <-|].
  destruct (sessions a !! token) as [s|] eqn:Es; [|by injection H as <- <-].
  destruct (alive now s) eqn:Ea; injection H as <- <-; [|done]. split_and!; [done..|].
  split; [apply lookup_insert_eq|]. left. split; [done|]. by exists s.
Qed.

Lemma credentials_spec a username password :
  bounded_sessions a → newToken ≠ "" →
  ∃ r a', ValidateCredentials iterate a getUser compare username password now newToken = Some (r, a')
    ∧ match r with
      | Ok (user, token) =>
          token = newToken ∧ VerifyCredentials getUser compare username password = Ok user
          ∧ sessions a' !! token = Some (mkSession user (now + sessionTTL a))
      | Err _ => is_ok (VerifyCredentials getUser compare username password) = false
      end.
Proof using J iterate_perm.
  intros Hb Hne. unfold ValidateCredentials, issue_session.
  destruct (VerifyCredentials _ _ _ _) as [user|] eqn:Ev; [|by eexists _, _].
  destruct (bounded_issue iterate iterate_perm a now user newToken Hb Hne) as (m & -> & _ & _).
  cbn. eexists _, _. split; [done|]. split_and!; [done..|apply lookup_insert_eq].
Qed.

Notation interceptor := (auth_interceptor iterate compare getUser now newToken healthMethods).

(** What the interceptors promise of a call that they do not exempt. *)
Definition interceptor_outcome (md : option (string → list string)) (a a' : Authenticator)
    (r : grpc_result (Ctx * option string)) : Prop :=
  match r with
  | GErr e =>
      (∃ m, e = inl (GUnauthenticated, m))
      ∧ ∀ get username password, md = Some get → presents_credentials get username password →
          is_ok (VerifyCredentials getUser compare username password) = false
  | GOk (ctx', header) =>
      ∃ get user token, md = Some get ∧ ctx_User ctx' = Some user ∧ header = Some token
        ∧ let_in get a a' user token
  end.

Lemma unauthenticated_outcome md a a' m :
  (∀ get username password, md = Some get → presents_credentials get username password →
     is_ok (VerifyCredentials getUser compare username password) = false) →
  interceptor_outcome md a a' (GErr (inl (GUnauthenticated, m))).
Proof using Type. intros H. split; [by exists m|done]. Qed.

(** C26: the interceptors let a request pass only for what it presents. The call of any method
that is not of the health service ends. When it is passed on, its context holds a user, and
either the last token header of the request is the token of a session of that user that has not
ended, or the first authorization header is Basic credentials that decode to a name and a
password that verify for that user, and the token in the response is then the new one; that
token is a session of the user now. When it is not passed on the status is UNAUTHENTICATED, and
the request presents no Basic credentials that verify. *)
Theorem interceptor_authenticates method ctx md a :
  bounded_sessions a → newToken ≠ "" → isUnauthenticatedMethod healthMethods method = false →
  ∃ r a', interceptor method ctx md a = Some (r, a') ∧ interceptor_outcome md a a' r.
Proof using J iterate_perm.
  intros Hb Hne Hm. unfold auth_interceptor. rewrite Hm. unfold authenticate.
  destruct md as [get|]; cbn [mbind option_bind];
    [|eexists _, _; split; [done|]; by apply unauthenticated_outcome].
  destruct (token_user now ctx (get tokenHeaderName) a) as [[[user token]|] a1] eqn:Et;
    apply token_user_spec in Et as (Hb1 & Httl & Hin); [|done| |done].
  { cbn. eexists _, _. split; [done|]. by exists get, user, token. }
  destruct (get "authorization") as [|authHeader rest] eqn:Ea.
  { cbn. eexists _, _. split; [done|]. apply unauthenticated_outcome.
    intros ? u p [= <-] (? & ? & ? & _). congruence. }
  destruct (HasPrefix authHeader basic_prefix) eqn:Ep; cbn [negb].
  2: { cbn. eexists _, _. split; [done|]. apply unauthenticated_outcome.
       intros ? u p [= <-] (x & ? & Hx & _). rewrite Ea in Hx. injection Hx as -> _.
       by rewrite (proj1 (basic_header x)) in Ep. }
  apply HasPrefix_inv in Ep as [encoded ->]. rewrite (proj2 (basic_header encoded)).
  destruct (credentials_presented get encoded rest Ea) as [Hnone|(u & p & Hdec & Hcut & Hp & Huniq)].
  { assert (∃ m, match base64_DecodeString encoded with
      | None => Some (unauthenticated "invalid authorization header encoding", a1)
      | Some decoded => match cut_colon decoded with
          | None => Some (unauthenticated "invalid authorization header format", a1)
          | Some (username, password) => ValidateCredentials iterate a1 getUser compare username
              password now newToken ≫= (λ '(r, a), Some (match r with
                 | Ok found => GOk found | Err _ => unauthenticated "invalid credentials" end, a))
          end end = Some (unauthenticated (A := User * string) m, a1)) as [m ->].
    { destruct (base64_DecodeString encoded) as [d|]; [|by eexists].
      rewrite (Hnone d eq_refl). by eexists. }
    cbn. eexists _, _. split; [done|]. apply unauthenticated_outcome.
    intros ? u p [= <-] Hp. by destruct (credentials_none get encoded rest u p Ea Hnone). }
  rewrite Hdec, Hcut.
  destruct (credentials_spec a1 u p Hb1 Hne) as (r & a2 & -> & Hr).
  destruct r as [[user token]|e]; cbn; eexists _, _; (split; [done|]).
  - destruct Hr as (-> & Hv & Hs). exists get, user, newToken. split_and!; [done..|].
    split; [by rewrite <-Httl|]. right. split; [done|]. by exists u, p.
  - apply unauthenticated_outcome. intros ? u' p' [= <-] [-> ->]%Huniq. done.
Qed.

(** A name and a password that verify, sent as the protocol says, let the user in. *)
Lemma basic_credentials_admitted method ctx get a username password user :
  bounded_sessions a → newToken ≠ "" → isUnauthenticatedMethod healthMethods method = false →
  no_colon username = true →
  get tokenHeaderName = [] →
  get "authorization" =
    [basic_prefix +:+ base64_EncodeToString (username +:+ ":" +:+ password)] →
  VerifyCredentials getUser compare username password = Ok user →
  ∃ a', interceptor method ctx (Some get) a
    = Some (GOk (mkCtx (Some user) (ctx_Err ctx), Some newToken), a').
Proof using J iterate_perm.
  intros Hb Hne Hm Hu Ht Ha Hv. unfold auth_interceptor. rewrite Hm. unfold authenticate, token_user.
  rewrite Ht, Ha. cbn [last].
  destruct (basic_header (base64_EncodeToString (username +:+ ":" +:+ password))) as [-> ->].
  cbn [negb]. rewrite base64_roundtrip, cut_colon_app by done.
  destruct (credentials_spec a username password Hb Hne) as (r & a2 & -> & Hr).
  destruct r as [[u token]|e]; [|by rewrite Hv in Hr].
  destruct Hr as (-> & Hv' & _). rewrite Hv in Hv'. injection Hv' as <-. cbn. by eexists.
Qed.

(** *** Revocation *)

Section Revocation.
Context {B : Type}.
Context (hash : string → result string) (newUserId eventId : result string) (clock : pb.Timestamp).

(** C27: a user who is deleted, or whose password is changed, through the admin service of a
process is shut out of it: when the request succeeded, every call of a method that is not of the
health service with a token that the user had, and without Basic credentials, is refused with
UNAUTHENTICATED and reaches no handler, at whatever time it comes. *)
Theorem revoked_token_refused (s : AdminServiceServer B) ctx q st token session userId method
    ctx' get :
  srv_revokes s = true → sessions (as_auth st) !! token = Some session →
  ends_sessions q = Some userId → User_Id (s_user session) = userId →
  succeeds (admin_handle hash compare newUserId eventId clock s ctx q st).1 = true →
  isUnauthenticatedMethod healthMethods method = false →
  last (get tokenHeaderName) = Some token → get "authorization" = [] →
  ∃ m a', interceptor method ctx' (Some get)
    (as_auth (admin_handle hash compare newUserId eventId clock s ctx q st).2)
  = Some (GErr (inl (GUnauthenticated, m)), a').
Proof using Type.
  clear iterate_perm. intros Hrev Htok Hq Hu Hok Hm Hlast Hauth.
  rewrite admin_handle_sessions, Hok. unfold sessions_after, admin_revokeUserSessions.
  rewrite Hq, Hrev. set (a := (RevokeUserSessions (as_auth st) userId).2).
  assert (sessions a !! token = None) as Hnone.
  { unfold a. rewrite revoked_sessions, Htok. unfold of_user. by rewrite bool_decide_true. }
  unfold auth_interceptor. rewrite Hm. unfold authenticate, token_user, ValidateToken.
  rewrite Hlast, Hnone, Hauth. destruct (ctx_Err ctx'); cbn; by eexists _, _.
Qed.

End Revocation.
End Facts.

(** ** Runs *)

Section Witnesses.
#[local] Existing Instances example_json example_stored_json example_sql_text example_sqlitex
  example_time.

Definition example_health : list string :=
  ["/grpc.health.v1.Health/Check"; "/grpc.health.v1.Health/List"; "/grpc.health.v1.Health/Watch"].
Definition example_users (username : string) : result User :=
  if String.eqb username "ada" then Ok ada_user else Err (PlainError "user not found").
Definition example_headers (token : list string) (name : string) : list string :=
  if String.eqb name tokenHeaderName then token
  else if String.eqb name "authorization" then ["Basic YWRhOnB3"] else [].
Definition token_headers (token : list string) (name : string) : list string :=
  if String.eqb name tokenHeaderName then token else [].

Lemma example_auth_bounded : bounded_sessions (as_auth example_admin_state).
Proof.
  constructor; [done|reflexivity|]. intros userID. unfold session_count, user_sessions.
  etrans; [apply inj_le, map_size_filter|]. vm_compute. discriminate.
Qed.

(** A token that has ended and the credentials of ada:pw. *)
Definition example_login : option (grpc_result (Ctx * option string) * Authenticator) :=
  auth_interceptor map_to_list admin_compare example_users 20 "t-9" example_health
    "/orisun.EventStore/SaveEvents" (mkCtx None None) (Some (example_headers ["t-1"]))
    (as_auth example_admin_state).

Lemma interceptor_authenticates_witness :
  ∃ a', example_login = Some (GOk (mkCtx (Some ada_user) None, Some "t-9"), a')
    ∧ sessions a' !! "t-9" = Some (mkSession ada_user (20 + 10)).
Proof.
  destruct (@interceptor_authenticates example_json map_to_list admin_compare
    (λ m, Permutation_refl _) example_users 20 "t-9" example_health
    "/orisun.EventStore/SaveEvents" (mkCtx None None) (Some (example_headers ["t-1"]))
    (as_auth example_admin_state) example_auth_bounded ltac:(discriminate) eq_refl)
    as (r & a' & H & Hr).
  exists a'. assert (r = GOk (mkCtx (Some ada_user) None, Some "t-9")) as ->.
  { apply (f_equal (fmap fst)) in H. vm_compute in H. by injection H as <-. }
  split; [exact H|]. destruct Hr as (get & user & token & [= <-] & [= <-] & [= <-] & Hs & _). exact Hs.
Defined.

Lemma revoked_token_refused_witness :
  ∃ m a', auth_interceptor map_to_list admin_compare example_users 5 "t-9" example_health
    "/orisun.EventStore/SaveEvents" (mkCtx None None) (Some (token_headers ["t-0"; "t-1"]))
    (as_auth (admin_call (QDeleteUser (Some "u-1")) example_admin_state).2)
  = Some (GErr (inl (GUnauthenticated, m)), a').
Proof.
  apply (@revoked_token_refused example_json map_to_list admin_compare example_users 5 "t-9"
    example_health Registry admin_hash (Ok "u-2") (Ok "e-2") (pb.mkTimestamp 0 0)
    example_admin_server root_ctx (QDeleteUser (Some "u-1")) example_admin_state "t-1"
    (mkSession ada_user 9) "u-1" "/orisun.EventStore/SaveEvents" (mkCtx None None)
    (token_headers ["t-0"; "t-1"])); try reflexivity.
Defined.

End Witnesses.
