(* ===== verification/SqliteFiles.v ===== *)
(** * The databases of the SQLite backend: [sqlite/pool.go], [sqlite/migration.go],
[sqlite/boundary_registry.go], [sqlite/boundary_provisioner.go]

A boundary has two databases, for its events and for its metadata. Opening one creates it or
brings it to the current version; provisioning opens both, installing also publishes them to
the adapters of the process. A database is its version and what its tables hold. *)

From stdpp Require Import options.
From S2P Require Import Prelude Status Model Number Json Predicates Consistency EventData.
From S2P Require Import WriteContext SqlPredicates Sql SqliteStore SqliteLog SqliteIndex.
From S2P Require Import SqliteRead EventStore Auth SqliteAdmin GroupCommit Api Users Neutral Catalog Boundaries.

Set Default Proof Using "Type*".

(** ** Settings *)

(** [strings.ToUpper], exact for comparison with ASCII words: the dotless i and the long s are
the other characters that become ASCII letters. *)
Definition upper_ascii (c : ascii) : ascii :=
  let n := N_of_ascii c in
  if (97 <=? n)%N && (n <=? 122)%N then ascii_of_N (n - 32) else c.

Fixpoint ToUpper (s : string) : string :=
  match s with
  | EmptyString => ""
  | String c rest =>
      match N_of_ascii c, rest with
      | 196%N, String d rest' =>
          if (N_of_ascii d =? 177)%N then String "I" (ToUpper rest') else String c (ToUpper rest)
      | 197%N, String d rest' =>
          if (N_of_ascii d =? 191)%N then String "S" (ToUpper rest') else String c (ToUpper rest)
      | _, _ => String (upper_ascii c) (ToUpper rest)
      end
  end.

(** The fields of [config.SqliteConfig] that the pools use. *)
Record SqliteConfig := mkSqliteConfig {
  sc_InMemory : bool; sc_Dir : string; sc_Synchronous : string; sc_BusyTimeoutMs : Z;
  sc_ReadPoolSize : Z; sc_CacheSize : Z; sc_MmapSize : Z; sc_WalAutoCheckpoint : Z;
  sc_TempStore : string }.

Record sqlitePoolConfig := mkPoolConfig {
  inMemory : bool; dir : string; synchronous : string; busyTimeoutMs : Z; readPoolSize : Z;
  cacheSize : Z; mmapSize : Z; walAutoCheckpoint : Z; tempStore : string }.

Definition normalizeSqlitePoolConfig (NumCPU : Z) (c : SqliteConfig) : result sqlitePoolConfig :=
  let synchronous := ToUpper (TrimSpace (sc_Synchronous c)) in
  let synchronous := if String.eqb synchronous "" then "FULL" else synchronous in
  let busyTimeoutMs := if (sc_BusyTimeoutMs c =? 0)%Z then 5000%Z else sc_BusyTimeoutMs c in
  let readPoolSize := if (sc_ReadPoolSize c <=? 0)%Z then NumCPU else sc_ReadPoolSize c in
  let tempStore := ToUpper (TrimSpace (sc_TempStore c)) in
  let tempStore := if String.eqb tempStore "" then "MEMORY" else tempStore in
  if negb (existsb (String.eqb synchronous) ["OFF"; "NORMAL"; "FULL"; "EXTRA"])
  then Err (PlainError "invalid sqlite synchronous %q")
  else if (busyTimeoutMs <? 0)%Z then Err (PlainError "sqlite busy timeout must be >= 0, got %d")
  else if (sc_MmapSize c <? 0)%Z then Err (PlainError "sqlite mmap size must be >= 0, got %d")
  else if (sc_WalAutoCheckpoint c <? 0)%Z
  then Err (PlainError "sqlite wal auto checkpoint must be >= 0, got %d")
  else if negb (existsb (String.eqb tempStore) ["DEFAULT"; "FILE"; "MEMORY"])
  then Err (PlainError "invalid sqlite temp store %q")
  else Ok (mkPoolConfig (sc_InMemory c) (sc_Dir c) synchronous busyTimeoutMs readPoolSize
             (sc_CacheSize c) (sc_MmapSize c) (sc_WalAutoCheckpoint c) tempStore).

Definition sqlitePragmas (cfg : sqlitePoolConfig) : list string :=
  let journalMode := if inMemory cfg then "MEMORY" else "WAL" in
  let tempStore := if inMemory cfg then "MEMORY" else tempStore cfg in
  ["PRAGMA journal_mode = " +:+ journalMode;
   "PRAGMA synchronous = " +:+ synchronous cfg;
   "PRAGMA foreign_keys = ON";
   "PRAGMA busy_timeout = " +:+ FormatInt (busyTimeoutMs cfg);
   "PRAGMA temp_store = " +:+ tempStore]
  ++ (if (cacheSize cfg =? 0)%Z then [] else ["PRAGMA cache_size = " +:+ FormatInt (cacheSize cfg)])
  ++ (if negb (inMemory cfg) && (0 <? mmapSize cfg)%Z
      then ["PRAGMA mmap_size = " +:+ FormatInt (mmapSize cfg)] else [])
  ++ (if negb (inMemory cfg) && (0 <? walAutoCheckpoint cfg)%Z
      then ["PRAGMA wal_autocheckpoint = " +:+ FormatInt (walAutoCheckpoint cfg)] else []).

(** ** Databases *)

(** What the schema of a database holds: nothing, the tables of an event log or of metadata, or
something else. *)
Inductive content := CNone | CEvents (t : Tables) | CMeta (m : MetaTables) | COther.
Record Database := mkDatabase { db_version : Z; db_content : content }.

Definition new_database : Database := mkDatabase 0 CNone.

Inductive schema_kind := KEvents | KMetadata.
Definition eventSchemaVersion : Z := 8.
Definition metadataSchemaVersion : Z := 2.
Definition supported (k : schema_kind) : Z :=
  match k with KEvents => eventSchemaVersion | KMetadata => metadataSchemaVersion end.
(** [eventDDL] and [metadataDDL]. *)
Definition fresh_content (k : schema_kind) : content :=
  match k with KEvents => CEvents empty_tables | KMetadata => CMeta empty_meta end.

(** The statements are numbered; the one that fails ends the migration, and the savepoint takes
back what was done. *)
Definition initializeSchema (k : schema_kind) (fault : nat → option goerror) (db : Database)
  : result unit * Database :=
  let stmt n (next : result unit * Database) :=
    match fault n with Some e => (Err e, db) | None => next end in
  let set_version c := stmt 4 (stmt 5 (Ok tt, mkDatabase (supported k) c)) in
  let version := db_version db in
  stmt 0 (stmt 1
    (if (version =? supported k)%Z then stmt 5 (Ok tt, db)
     else if (supported k =? eventSchemaVersion)%Z && ((version =? 6) || (version =? 7))%Z
     then match db_content db with
          | CEvents _ => stmt 2 (set_version (db_content db))
          | _ => (Err (PlainError "no such index: idx_event_type_order"), db)
          end
     else if (supported k =? metadataSchemaVersion)%Z && (version =? 1)%Z
     then stmt 2 (set_version (db_content db))
     else if negb (version =? 0)%Z
     then (Err (PlainError "unsupported database schema version %d; required version %d"), db)
     else stmt 2
       match db_content db with
       | CNone => stmt 3 (set_version (fresh_content k))
       | _ => (Err (PlainError "unsupported unversioned database; refusing to convert existing storage"), db)
       end)).

Definition applyMigrations := initializeSchema KEvents.
Definition applyMetadataMigrations := initializeSchema KMetadata.

(** The files by directory and name; a file that does not exist is an empty database. *)
Notation Files := (gmap (string * string) Database).
Definition file_at (fs : Files) (path : string * string) : Database :=
  default new_database (fs !! path).

(** The database behind the pools of a boundary; one in memory belongs to its connection. *)
Inductive pool_database := PFile (path : string * string) | PMemory (db : Database).
Record BoundaryPools := mkPools { bp_Boundary : string; bp_Database : pool_database }.

Definition database_of (fs : Files) (p : BoundaryPools) : Database :=
  match bp_Database p with PFile path => file_at fs path | PMemory db => db end.

(** What fails while a database is opened. *)
Record open_faults := mkOpenFaults {
  of_write : option goerror; of_read : option goerror; of_take : option goerror;
  of_statement : nat → option goerror }.

Definition openSQLitePools (cfg : sqlitePoolConfig) (f : open_faults) (k : schema_kind)
    (name boundary : string) (fs : Files) : result BoundaryPools * Files :=
  let path := (dir cfg, name +:+ ".db") in
  match of_write f with
  | Some e => (Err (Wrapped "open write pool for %s: %w" e), fs)
  | None =>
      match (if inMemory cfg then None else of_read f) with
      | Some e => (Err (Wrapped "open read pool for %s: %w" e), fs)
      | None =>
          match of_take f with
          | Some e => (Err (Wrapped "take migration conn for %s: %w" e), fs)
          | None =>
              let db := if inMemory cfg then new_database else file_at fs path in
              let '(r, db) := initializeSchema k (of_statement f) db in
              let fs := if inMemory cfg then fs else <[path := db]> fs in
              match r with
              | Err e => (Err (Wrapped "migrate %s: %w" e), fs)
              | Ok _ => (Ok (mkPools boundary (if inMemory cfg then PMemory db else PFile path)), fs)
              end
          end
      end
  end.

Definition metadataDBNameForBoundary (boundary : string) : string := boundary +:+ "_metadata".

Definition OpenBoundaryPoolsWithConfig (NumCPU : Z) (c : SqliteConfig) (f : open_faults)
    (boundary : string) (fs : Files) : result BoundaryPools * Files :=
  match normalizeSqlitePoolConfig NumCPU c with
  | Err e => (Err e, fs)
  | Ok cfg => openSQLitePools cfg f KEvents boundary boundary fs
  end.

Definition OpenMetadataPoolsWithConfig (NumCPU : Z) (c : SqliteConfig) (f : open_faults)
    (boundary : string) (fs : Files) : result BoundaryPools * Files :=
  match normalizeSqlitePoolConfig NumCPU c with
  | Err e => (Err e, fs)
  | Ok cfg => openSQLitePools cfg f KMetadata (metadataDBNameForBoundary boundary) boundary fs
  end.

(** ** The registry and the provisioner *)

Record BoundaryRegistry := mkBoundaryRegistry {
  pools : gmap string BoundaryPools; metadataPools : gmap string BoundaryPools }.

Definition NewBoundaryRegistry (pools metadataPools : option (gmap string BoundaryPools))
  : BoundaryRegistry := mkBoundaryRegistry (default ∅ pools) (default ∅ metadataPools).
Definition eventPool (r : BoundaryRegistry) (boundary : string) : option BoundaryPools :=
  pools r !! boundary.
Definition metadataPool (r : BoundaryRegistry) (boundary : string) : option BoundaryPools :=
  metadataPools r !! boundary.

Definition validateDefinition (definition : Definition_) : result unit :=
  if negb (EqualFold (TrimSpace (Backend (Def_Placement definition))) "sqlite")
  then Err (PlainError "boundary %s uses unsupported backend %q")
  else match validateIdentifier (Def_Name definition) with
       | Err e => Err (Wrapped "invalid boundary name %s: %w" e)
       | Ok _ =>
           if String.eqb (TrimSpace (Namespace (Def_Placement definition))) (Def_Name definition)
           then Ok tt else Err (PlainError "SQLite boundary %s must use namespace %q")
       end.

Definition AdminBoundaryDefinition (adminBoundary : string) : Definition_ :=
  mkDefinition adminBoundary "" (mkPlacement "sqlite" adminBoundary).

Section Provisioner.
Context (NumCPU : Z) (c : SqliteConfig).

Definition ProvisionBoundary (f fm : open_faults) (definition : Definition_)
    (r : BoundaryRegistry) (fs : Files) : result unit * Files :=
  match validateDefinition definition with
  | Err e => (Err e, fs)
  | Ok _ =>
      let name := Def_Name definition in
      match eventPool r name with
      | Some _ => (Ok tt, fs)
      | None =>
          match OpenBoundaryPoolsWithConfig NumCPU c f name fs with
          | (Err e, fs) => (Err (Wrapped "provision SQLite boundary %s: %w" e), fs)
          | (Ok _, fs) =>
              match OpenMetadataPoolsWithConfig NumCPU c fm name fs with
              | (Err e, fs) => (Err (Wrapped "provision SQLite metadata for %s: %w" e), fs)
              | (Ok _, fs) => (Ok tt, fs)
              end
          end
      end
  end.

(** [closed] is whether the coordinator of the saver has been closed. *)
Definition InstallBoundary (f fm : open_faults) (closed : bool) (definition : Definition_)
    (r : BoundaryRegistry) (fs : Files) : result unit * BoundaryRegistry * Files :=
  match validateDefinition definition with
  | Err e => (Err e, r, fs)
  | Ok _ =>
      let name := Def_Name definition in
      match eventPool r name with
      | Some _ => (Ok tt, r, fs)
      | None =>
          match OpenBoundaryPoolsWithConfig NumCPU c f name fs with
          | (Err e, fs) => (Err (Wrapped "open SQLite boundary %s: %w" e), r, fs)
          | (Ok events, fs) =>
              match OpenMetadataPoolsWithConfig NumCPU c fm name fs with
              | (Err e, fs) => (Err (Wrapped "open SQLite metadata for %s: %w" e), r, fs)
              | (Ok metadata, fs) =>
                  if closed
                  then (Err (Wrapped "install SQLite boundary %s: %w" errSaverClosed), r, fs)
                  else (Ok tt, mkBoundaryRegistry (<[name := events]> (pools r))
                                 (<[name := metadata]> (metadataPools r)), fs)
              end
          end
      end
  end.

End Provisioner.

(** ** Settings that are accepted *)

(** What was accepted is durable unless the configuration asks for less: files are in WAL mode
and every commit is synced, except with the modes that are named. *)
Lemma pragmas_durable NumCPU c cfg :
  normalizeSqlitePoolConfig NumCPU c = Ok cfg → sc_InMemory c = false →
  (TrimSpace (sc_Synchronous c) = "" ∨ ToUpper (TrimSpace (sc_Synchronous c)) = "FULL") →
  "PRAGMA journal_mode = WAL" ∈ sqlitePragmas cfg
  ∧ "PRAGMA synchronous = FULL" ∈ sqlitePragmas cfg
  ∧ "PRAGMA foreign_keys = ON" ∈ sqlitePragmas cfg.
Proof.
  intros H Hm Hs. unfold normalizeSqlitePoolConfig in H.
  assert ((if String.eqb (ToUpper (TrimSpace (sc_Synchronous c))) "" then "FULL"
           else ToUpper (TrimSpace (sc_Synchronous c))) = "FULL") as Hf
    by (by destruct Hs as [-> | ->]).
  rewrite Hf in H.
  repeat match type of H with (if ?b then _ else _) = _ => destruct b; [done|] end. injection H as <-.
  unfold sqlitePragmas. simpl. rewrite Hm. set_solver.
Qed.

(** ** Databases keep what they hold *)

Definition holds_events (db : Database) : Prop := ∃ t, db_content db = CEvents t.
Definition holds_meta (db : Database) : Prop := ∃ m, db_content db = CMeta m.
Definition ready (k : schema_kind) (db : Database) : Prop :=
  db_version db = supported k
  ∧ match k with KEvents => holds_events db | KMetadata => holds_meta db end.

(** The versions of this program are on databases of this program. *)
Definition recognized (db : Database) : Prop :=
  (db_version db ∈ [6; 7; 8]%Z → holds_events db) ∧ (db_version db ∈ [1; 2]%Z → holds_meta db).

Lemma initializeSchema_spec k fault db r db' :
  recognized db → initializeSchema k fault db = (r, db') →
  recognized db' ∧ (db_content db ≠ CNone → db_content db' = db_content db)
  ∧ (ready k db → db' = db)
  ∧ match r with Ok _ => ready k db' | Err _ => db' = db end.
Proof.
  intros Hrec H. pose proof Hrec as [He Hm]. unfold initializeSchema in H.
  assert (∀ e, (Err e : result unit, db) = (r, db') → recognized db'
    ∧ (db_content db ≠ CNone → db_content db' = db_content db) ∧ (ready k db → db' = db)
    ∧ match r with Ok _ => ready k db' | Err _ => db' = db end) as Hfail
    by (by intros e [= <- <-]).
  destruct (fault 0) as [e|]; [by eapply Hfail|]. destruct (fault 1) as [e|]; [by eapply Hfail|].
  destruct (Z.eqb_spec (db_version db) (supported k)) as [Hv|Hv].
  { destruct (fault 5) as [e|]; [by eapply Hfail|]. injection H as <- <-. split_and!; try done.
    split; [done|]. destruct k; [apply He|apply Hm]; rewrite Hv; set_solver. }
  assert (∀ c, (match k with KEvents => ∃ t, c = CEvents t | KMetadata => ∃ m, c = CMeta m end) →
    (db_content db ≠ CNone → c = db_content db) →
    match fault 4 with
    | Some e => (Err e, db)
    | None => match fault 5 with
              | Some e => (Err e, db)
              | None => (Ok tt, mkDatabase (supported k) c) end
    end = (r, db') → recognized db'
    ∧ (db_content db ≠ CNone → db_content db' = db_content db) ∧ (ready k db → db' = db)
    ∧ match r with Ok _ => ready k db' | Err _ => db' = db end) as Hset.
  { intros c Hc Hsame H'. destruct (fault 4) as [e|]; [by eapply Hfail|].
    destruct (fault 5) as [e|]; [by eapply Hfail|]. injection H' as <- <-. split_and!; try done.
    - split; destruct k; simpl; intros Hin; try done; try set_solver.
    - intros [? _]. congruence. }
  destruct ((supported k =? eventSchemaVersion)%Z && _) eqn:E1.
  { destruct (db_content db) as [|t|m|] eqn:Ec; try by eapply Hfail.
    destruct (fault 2) as [e|]; [by eapply Hfail|]. destruct k; [|done].
    apply (Hset (CEvents t)); [by eexists|done|done]. }
  destruct ((supported k =? metadataSchemaVersion)%Z && _) eqn:E2.
  { destruct (fault 2) as [e|]; [by eapply Hfail|]. destruct k; [done|].
    apply andb_true_iff in E2 as [_ E2%Z.eqb_eq]. destruct Hm as [m Hm']; [rewrite E2; set_solver|].
    apply (Hset (db_content db)); [by exists m|done|done]. }
  destruct (negb _); [by eapply Hfail|]. destruct (fault 2) as [e|]; [by eapply Hfail|].
  destruct (db_content db) eqn:Ec; try by eapply Hfail.
  destruct (fault 3) as [e|]; [by eapply Hfail|].
  apply (Hset (fresh_content k)); [by destruct k; eexists|done|done].
Qed.

(** A database that is ready for one purpose is left alone by a migration for the other. *)
Lemma ready_kept k k' fault db r db' :
  ready k' db → initializeSchema k fault db = (r, db') → db' = db ∧ (k ≠ k' → is_ok r = false).
Proof.
  intros [Hv Hc] H. unfold initializeSchema in H. rewrite Hv in H.
  destruct k, k'; simpl in H; repeat (case_match; try (by injection H as <- <-));
    by injection H as <- <-.
Qed.

Definition recognized_files (fs : Files) : Prop := ∀ path, recognized (file_at fs path).
Definition keeps_files (fs fs' : Files) : Prop := ∀ path,
  (db_content (file_at fs path) ≠ CNone →
   db_content (file_at fs' path) = db_content (file_at fs path))
  ∧ ∀ k, ready k (file_at fs path) → file_at fs' path = file_at fs path.

Lemma keeps_files_refl fs : keeps_files fs fs.
Proof. by split. Qed.

Lemma keeps_files_trans fs1 fs2 fs3 :
  keeps_files fs1 fs2 → keeps_files fs2 fs3 → keeps_files fs1 fs3.
Proof.
  intros H1 H2 path. destruct (H1 path) as [C1 R1], (H2 path) as [C2 R2]. split.
  - intros Hne. rewrite C2; rewrite C1 by done; done.
  - intros k Hk. rewrite <-(R1 k Hk). apply (R2 k). by rewrite (R1 k Hk).
Qed.

Lemma file_at_insert fs path db path' :
  file_at (<[path := db]> fs) path' = if decide (path' = path) then db else file_at fs path'.
Proof.
  unfold file_at. case_decide as H; [subst; by rewrite lookup_insert_eq|].
  by rewrite lookup_insert_ne.
Qed.

Lemma open_spec cfg f k name boundary fs r fs' :
  recognized_files fs → openSQLitePools cfg f k name boundary fs = (r, fs') →
  recognized_files fs' ∧ keeps_files fs fs'
  ∧ ∀ p, r = Ok p → ready k (database_of fs' p).
Proof.
  intros Hrec H. unfold openSQLitePools in H.
  assert (∀ e, (Err e : result BoundaryPools, fs) = (r, fs') → recognized_files fs'
    ∧ keeps_files fs fs' ∧ ∀ p, r = Ok p → ready k (database_of fs' p)) as Hfail.
  { intros e [= <- <-]. split_and!; [done|apply keeps_files_refl|done]. }
  destruct (of_write f); [by eapply Hfail|]. destruct (if inMemory cfg then _ else _); [by eapply Hfail|].
  destruct (of_take f); [by eapply Hfail|].
  destruct (inMemory cfg).
  - destruct (initializeSchema k _ new_database) as [r0 db'] eqn:E.
    apply initializeSchema_spec in E as (_ & _ & _ & Hr); [|split; simpl; set_solver].
    destruct r0; [|by eapply Hfail]. injection H as <- <-.
    split_and!; [done|apply keeps_files_refl|]. by intros p [= <-].
  - set (path := (dir cfg, _)) in H.
    destruct (initializeSchema k _ (file_at fs path)) as [r0 db'] eqn:E.
    pose proof E as Hspec. apply initializeSchema_spec in Hspec as (Hr & Hc & _ & Hk); [|apply Hrec].
    assert (recognized_files (<[path := db']> fs) ∧ keeps_files fs (<[path := db']> fs)) as [Ha Hb].
    { split; intros path'; rewrite file_at_insert; case_decide; subst; [done|apply Hrec| |done].
      split; [done|]. intros k' Hk'. by eapply ready_kept. }
    destruct r0; injection H as <- <-; (split_and!; [done..|]); [|done].
    intros p [= <-]. unfold database_of. simpl. by rewrite file_at_insert, decide_True.
Qed.

Section StorageFacts.
Context (NumCPU : Z) (c : SqliteConfig).

Lemma open_boundary_spec f boundary fs r fs' :
  recognized_files fs → OpenBoundaryPoolsWithConfig NumCPU c f boundary fs = (r, fs') →
  recognized_files fs' ∧ keeps_files fs fs'
  ∧ ∀ p, r = Ok p → ready KEvents (database_of fs' p).
Proof.
  intros Hrec H. unfold OpenBoundaryPoolsWithConfig in H.
  destruct (normalizeSqlitePoolConfig _ _); [by eapply open_spec|]. injection H as <- <-.
  split_and!; [done|apply keeps_files_refl|done].
Qed.

Lemma open_metadata_spec f boundary fs r fs' :
  recognized_files fs → OpenMetadataPoolsWithConfig NumCPU c f boundary fs = (r, fs') →
  recognized_files fs' ∧ keeps_files fs fs'
  ∧ ∀ p, r = Ok p → ready KMetadata (database_of fs' p).
Proof.
  intros Hrec H. unfold OpenMetadataPoolsWithConfig in H.
  destruct (normalizeSqlitePoolConfig _ _); [by eapply open_spec|]. injection H as <- <-.
  split_and!; [done|apply keeps_files_refl|done].
Qed.

(** *** What happens to the databases of a process *)

(** The process restarts; boundaries are provisioned and installed; events and metadata are
written to the databases that are registered. *)
Definition put_database (r : gmap string BoundaryPools) (fs : Files) (b : string)
    (p : BoundaryPools) (db : Database) : gmap string BoundaryPools * Files :=
  match bp_Database p with
  | PFile path => (r, <[path := db]> fs)
  | PMemory _ => (<[b := mkPools (bp_Boundary p) (PMemory db)]> r, fs)
  end.

Inductive storage_step : BoundaryRegistry * Files → BoundaryRegistry * Files → Prop :=
| step_restart r fs : storage_step (r, fs) (NewBoundaryRegistry None None, fs)
| step_provision f fm definition r fs :
    storage_step (r, fs) (r, (ProvisionBoundary NumCPU c f fm definition r fs).2)
| step_install f fm closed definition r fs o r' fs' :
    InstallBoundary NumCPU c f fm closed definition r fs = (o, r', fs') →
    storage_step (r, fs) (r', fs')
| step_append b p t t' r fs ps' fs' :
    eventPool r b = Some p → db_content (database_of fs p) = CEvents t →
    t_events t `prefix_of` t_events t' →
    put_database (pools r) fs b p (mkDatabase (db_version (database_of fs p)) (CEvents t'))
      = (ps', fs') →
    storage_step (r, fs) (mkBoundaryRegistry ps' (metadataPools r), fs')
| step_metadata b p m m' r fs ps' fs' :
    metadataPool r b = Some p → db_content (database_of fs p) = CMeta m →
    put_database (metadataPools r) fs b p
      (mkDatabase (db_version (database_of fs p)) (CMeta m')) = (ps', fs') →
    storage_step (r, fs) (mkBoundaryRegistry (pools r) ps', fs').

Record storage_inv (r : BoundaryRegistry) (fs : Files) : Prop := {
  si_files : recognized_files fs;
  si_events b p : eventPool r b = Some p → ready KEvents (database_of fs p);
  si_metadata b p : metadataPool r b = Some p → ready KMetadata (database_of fs p);
  si_both b : is_Some (eventPool r b) ↔ is_Some (metadataPool r b) }.

(** The events in the files: none is lost and none is changed. *)
Definition logs_grow (fs fs' : Files) : Prop := ∀ path t,
  db_content (file_at fs path) = CEvents t →
  ∃ t', db_content (file_at fs' path) = CEvents t' ∧ t_events t `prefix_of` t_events t'.

Lemma keeps_database fs fs' p k :
  keeps_files fs fs' → ready k (database_of fs p) → database_of fs' p = database_of fs p.
Proof using Type.
  intros Hk. unfold database_of. destruct (bp_Database p) as [path|]; [|done]. by apply Hk.
Qed.

Lemma keeps_logs fs fs' : keeps_files fs fs' → logs_grow fs fs'.
Proof using Type. intros Hk path t Ht. exists t. destruct (Hk path) as [-> _]; [done|]. by rewrite Ht. Qed.

Lemma storage_inv_keeps r fs fs' :
  storage_inv r fs → recognized_files fs' → keeps_files fs fs' → storage_inv r fs'.
Proof using Type.
  intros [H1 H2 H3 H4] Hrec Hk. split; [done|..|done].
  - intros b p Hp. specialize (H2 b p Hp). by rewrite (keeps_database _ _ _ _ Hk H2).
  - intros b p Hp. specialize (H3 b p Hp). by rewrite (keeps_database _ _ _ _ Hk H3).
Qed.

Lemma provision_spec f fm definition r fs :
  recognized_files fs → let fs' := (ProvisionBoundary NumCPU c f fm definition r fs).2 in
  recognized_files fs' ∧ keeps_files fs fs'.
Proof.
  intros Hrec. unfold ProvisionBoundary. destruct (validateDefinition definition); [|done].
  destruct (eventPool r _); [done|].
  destruct (OpenBoundaryPoolsWithConfig _ _ _ _ _) as [r1 fs1] eqn:E1.
  apply open_boundary_spec in E1 as (Hr1 & Hk1 & _); [|done]. destruct r1; [|done].
  destruct (OpenMetadataPoolsWithConfig _ _ _ _ _) as [r2 fs2] eqn:E2.
  apply open_metadata_spec in E2 as (Hr2 & Hk2 & _); [|done].
  destruct r2; (split; [done|by eapply keeps_files_trans]).
Qed.

Lemma install_spec f fm closed definition r fs o r' fs' :
  storage_inv r fs → InstallBoundary NumCPU c f fm closed definition r fs = (o, r', fs') →
  storage_inv r' fs' ∧ keeps_files fs fs' ∧ (is_ok o = false → r' = r)
  ∧ (is_ok o = true → is_Some (eventPool r' (Def_Name definition))).
Proof.
  intros Hinv H. unfold InstallBoundary in H.
  destruct (validateDefinition definition); [|by simplify_eq].
  destruct (eventPool r (Def_Name definition)) as [p|] eqn:Ep;
    [simplify_eq; split_and!; [done|apply keeps_files_refl|done|by eexists]|].
  destruct (OpenBoundaryPoolsWithConfig _ _ _ _ _) as [r1 fs1] eqn:E1.
  apply open_boundary_spec in E1 as (Hr1 & Hk1 & Hp1); [|apply Hinv].
  pose proof (storage_inv_keeps _ _ _ Hinv Hr1 Hk1) as Hinv1.
  destruct r1 as [events|]; [|simplify_eq; by split_and!].
  destruct (OpenMetadataPoolsWithConfig _ _ _ _ _) as [r2 fs2] eqn:E2.
  apply open_metadata_spec in E2 as (Hr2 & Hk2 & Hp2); [|done].
  pose proof (storage_inv_keeps _ _ _ Hinv1 Hr2 Hk2) as [I1 I2 I3 I4].
  assert (keeps_files fs fs2) as Hk by by eapply keeps_files_trans.
  destruct r2 as [metadata|]; [|simplify_eq; by split_and!].
  destruct closed; simplify_eq; split_and!; try done.
  - split; unfold eventPool, metadataPool in *; simpl; [done|..].
    + intros b p. rewrite lookup_insert_Some. intros [[_ <-]|[_ Hb]]; [|by eapply I2].
      specialize (Hp1 _ eq_refl). by rewrite (keeps_database _ _ _ _ Hk2 Hp1).
    + intros b p. rewrite lookup_insert_Some. intros [[_ <-]|[_ Hb]]; [by apply Hp2|by eapply I3].
    + intros b. rewrite !lookup_insert_is_Some. specialize (I4 b). unfold eventPool, metadataPool in I4.
      naive_solver.
  - unfold eventPool. simpl. rewrite lookup_insert_eq. by eexists.
Qed.

(** A database that is registered for one purpose is written: the others stay ready. *)
Lemma put_ready k ps fs b p db ps' fs' q k' :
  ready k (database_of fs p) → ready k db → put_database ps fs b p db = (ps', fs') →
  ready k' (database_of fs q) → ready k' (database_of fs' q).
Proof using Type.
  intros Hp Hdb H Hq. unfold put_database in H. destruct (bp_Database p) as [path|] eqn:Ep;
    injection H as <- <-; [|done].
  unfold database_of in *. rewrite Ep in Hp. destruct (bp_Database q) as [path'|]; [|done].
  rewrite file_at_insert. case_decide; [subst|done].
  assert (k = k') as <-; [|done]. destruct Hp as [Hv _], Hq as [Hv' _]. rewrite Hv in Hv'.
  by destruct k, k'.
Qed.

Lemma put_registered k ps fs b p db ps' fs' b' q :
  ready k (database_of fs p) → ready k db → put_database ps fs b p db = (ps', fs') →
  (∀ b q, ps !! b = Some q → ready k (database_of fs q)) → ps !! b = Some p →
  (ps' !! b' = Some q → ready k (database_of fs' q)) ∧ (is_Some (ps' !! b') ↔ is_Some (ps !! b')).
Proof using Type.
  intros Hp Hdb H Hall Hb.
  assert (∀ q, ready k (database_of fs q) → ready k (database_of fs' q)) as Hput
    by (intros q'; by eapply put_ready).
  unfold put_database in H. destruct (bp_Database p) as [path|] eqn:Ep; injection H as <- <-.
  - split; [|done]. intros Hq. apply Hput. by eapply Hall.
  - rewrite lookup_insert_is_Some, lookup_insert_Some. split.
    + intros [[_ <-]|[_ Hq]]; [done|by eapply Hall].
    + destruct (decide (b = b')) as [<-|]; [|naive_solver]. rewrite Hb. naive_solver.
Qed.

Lemma put_files k ps fs b p db ps' fs' :
  put_database ps fs b p db = (ps', fs') → ready k db → recognized_files fs →
  recognized_files fs'
  ∧ ∀ path, file_at fs' path = file_at fs path ∨ (file_at fs' path = db ∧ bp_Database p = PFile path).
Proof using Type.
  intros H Hdb Hrec. unfold put_database in H. destruct (bp_Database p) as [path|];
    injection H as <- <-; [|by auto]. split.
  - intros path'. rewrite file_at_insert. case_decide; [|apply Hrec]. destruct Hdb as [Hv Hc].
    split; rewrite Hv; destruct k; intros Hin; try done; set_solver.
  - intros path'. rewrite file_at_insert. case_decide; [subst; by right|by left].
Qed.

Lemma storage_inv_start fs : recognized_files fs → storage_inv (NewBoundaryRegistry None None) fs.
Proof using Type.
  intros H. split; unfold eventPool, metadataPool; simpl; [done|..]; intros *;
    rewrite !lookup_empty; naive_solver.
Qed.

Lemma storage_step_inv x y :
  storage_step x y → storage_inv x.1 x.2 → storage_inv y.1 y.2 ∧ logs_grow x.2 y.2.
Proof.
  intros [r fs|f fm d r fs|f fm closed d r fs o r' fs' H|b p t t' r fs ps' fs' Hb Ht Hpre H
         |b p m m' r fs ps' fs' Hb Hm H] Hinv; simpl in *; pose proof Hinv as [I1 I2 I3 I4].
  - split; [by apply storage_inv_start|apply keeps_logs, keeps_files_refl].
  - destruct (provision_spec f fm d r fs I1) as [Hrec Hk].
    split; [by eapply storage_inv_keeps|by apply keeps_logs].
  - apply install_spec in H as (Hi & Hk & _); [|done]. split; [done|by apply keeps_logs].
  - pose proof (I2 _ _ Hb) as Hready. destruct Hready as [Hv Hc].
    assert (ready KEvents (mkDatabase (db_version (database_of fs p)) (CEvents t'))) as Hdb
      by (split; [done|by exists t']).
    destruct (put_files _ _ _ _ _ _ _ _ H Hdb I1) as [Hrec Hfiles]. split; [split; [done|..]|].
    + intros b' q. eapply put_registered; [by apply (I2 b)|exact Hdb|exact H|exact I2|exact Hb].
    + intros b' q Hq. eapply put_ready; [by apply (I2 b)|exact Hdb|exact H|by apply (I3 b')].
    + intros b'. rewrite <-(I4 b').
      eapply (put_registered KEvents _ _ _ _ _ _ _ b' p); [by apply (I2 b)|exact Hdb|exact H|exact I2|exact Hb].
    + intros path t0 Ht0. destruct (Hfiles path) as [->|[-> Hp]]; [by exists t0|].
      exists t'. split; [done|]. unfold database_of in Ht. rewrite Hp, Ht0 in Ht. by injection Ht as ->.
  - pose proof (I3 _ _ Hb) as Hready. destruct Hready as [Hv Hc].
    assert (ready KMetadata (mkDatabase (db_version (database_of fs p)) (CMeta m'))) as Hdb
      by (split; [done|by exists m']).
    destruct (put_files _ _ _ _ _ _ _ _ H Hdb I1) as [Hrec Hfiles]. split; [split; [done|..]|].
    + intros b' q Hq. eapply put_ready; [by apply (I3 b)|exact Hdb|exact H|by apply (I2 b')].
    + intros b' q. eapply put_registered; [by apply (I3 b)|exact Hdb|exact H|exact I3|exact Hb].
    + intros b'. rewrite (I4 b'). symmetry.
      eapply (put_registered KMetadata _ _ _ _ _ _ _ b' p); [by apply (I3 b)|exact Hdb|exact H|exact I3|exact Hb].
    + intros path t0 Ht0. destruct (Hfiles path) as [->|[-> Hp]]; [by exists t0|].
      unfold database_of in Hm. by rewrite Hp, Ht0 in Hm.
Qed.

Lemma storage_run x y :
  rtc storage_step x y → storage_inv x.1 x.2 → storage_inv y.1 y.2 ∧ logs_grow x.2 y.2.
Proof.
  induction 1 as [x|x y z Hxy _ IH]; intros Hi; [split; [done|apply keeps_logs, keeps_files_refl]|].
  destruct (storage_step_inv _ _ Hxy Hi) as [Hi' Hl]. destruct (IH Hi') as [Hi'' Hl'].
  split; [done|]. intros path t Ht. destruct (Hl path t Ht) as (t1 & Ht1 & Hp1).
  destruct (Hl' path t1 Ht1) as (t2 & Ht2 & Hp2). exists t2. split; [done|]. by etrans.
Qed.

(** C13: the databases of an installation with SQLite, through any sequence of restarts,
provisionings, installations, writes and failures of any of their operations: a boundary that
is registered has both its databases, of the current version and of their kind; and no file
that holds an event log ever loses or changes an event. A write to a log appends, which is what
[SqliteLog] proves of a flush, and the files at the start have a content of one of the kinds. *)
Theorem sqlite_storage_ready fs r fs' :
  recognized_files fs → rtc storage_step (NewBoundaryRegistry None None, fs) (r, fs') →
  (∀ b, is_Some (eventPool r b) ∨ is_Some (metadataPool r b) →
     ∃ p q, eventPool r b = Some p ∧ metadataPool r b = Some q
       ∧ ready KEvents (database_of fs' p) ∧ ready KMetadata (database_of fs' q))
  ∧ logs_grow fs fs'.
Proof.
  intros Hrec Hrun.
  destruct (storage_run _ _ Hrun) as [[I1 I2 I3 I4] Hg]; [by apply storage_inv_start|].
  split; [|done]. intros b Hb.
  assert (is_Some (eventPool r b) ∧ is_Some (metadataPool r b)) as [[p Hp] [q Hq]]
    by (pose proof (I4 b); naive_solver).
  exists p, q. split_and!; [done..|by eapply I2|by eapply I3].
Qed.

End StorageFacts.

(** ** Installing works, except for a name that another boundary has taken *)

Definition no_faults : open_faults := mkOpenFaults None None None (λ _, None).

(** A database that is new, or of the kind and of a version that can be brought up. *)
Definition openable (k : schema_kind) (db : Database) : Prop :=
  db = new_database ∨ ready k db
  ∨ k = KEvents ∧ db_version db ∈ [6; 7]%Z ∧ holds_events db.

Lemma initializeSchema_works k db :
  openable k db → is_ok (initializeSchema k (λ _, None) db).1 = true.
Proof.
  intros [->|[[Hv _]|(-> & Hv & [t Ht])]].
  - by destruct k.
  - unfold initializeSchema. by rewrite Hv, Z.eqb_refl.
  - unfold initializeSchema. rewrite Ht. rewrite !elem_of_cons, elem_of_nil in Hv.
    by destruct_or! Hv; rewrite Hv.
Qed.

Lemma open_works cfg k name boundary fs :
  inMemory cfg = false → openable k (file_at fs (dir cfg, name +:+ ".db")) →
  ∃ p db, openSQLitePools cfg no_faults k name boundary fs
    = (Ok p, <[(dir cfg, name +:+ ".db") := db]> fs).
Proof.
  intros Hm Ho. unfold openSQLitePools. simpl. rewrite Hm.
  pose proof (initializeSchema_works k _ Ho) as Hw.
  destruct (initializeSchema _ _ _) as [[] db]; [|done]. by eexists _, db.
Qed.

Lemma install_works NumCPU c cfg definition r fs :
  normalizeSqlitePoolConfig NumCPU c = Ok cfg → inMemory cfg = false →
  validateDefinition definition = Ok tt →
  openable KEvents (file_at fs (dir cfg, Def_Name definition +:+ ".db")) →
  openable KMetadata
    (file_at fs (dir cfg, metadataDBNameForBoundary (Def_Name definition) +:+ ".db")) →
  is_ok (InstallBoundary NumCPU c no_faults no_faults false definition r fs).1.1 = true.
Proof.
  intros Hc Hm Hv He Hmd. unfold InstallBoundary. rewrite Hv.
  destruct (eventPool r _); [done|].
  unfold OpenBoundaryPoolsWithConfig, OpenMetadataPoolsWithConfig. rewrite Hc.
  destruct (open_works cfg KEvents (Def_Name definition) (Def_Name definition) fs Hm He)
    as (p & db & ->).
  edestruct (open_works cfg KMetadata (metadataDBNameForBoundary (Def_Name definition))
    (Def_Name definition)) as (q & db' & ->); [done| |done].
  rewrite file_at_insert, decide_False; [done|]. intros [= H].
  apply (f_equal String.length) in H. unfold metadataDBNameForBoundary in H.
  rewrite !string_length_app in H. simpl in H. lia.
Qed.

(** The event file of a boundary whose name ends in _metadata is the metadata file of another
one: once that exists, the boundary can never be provisioned. *)
Lemma metadata_name_taken NumCPU c cfg f fm b definition r fs :
  normalizeSqlitePoolConfig NumCPU c = Ok cfg → inMemory cfg = false →
  ready KMetadata (file_at fs (dir cfg, metadataDBNameForBoundary b +:+ ".db")) →
  Def_Name definition = metadataDBNameForBoundary b → eventPool r (Def_Name definition) = None →
  is_ok (ProvisionBoundary NumCPU c f fm definition r fs).1 = false.
Proof.
  intros Hc Hm Hr Hn Hp. unfold ProvisionBoundary. destruct (validateDefinition definition); [|done].
  rewrite Hp, Hn. unfold OpenBoundaryPoolsWithConfig. rewrite Hc. unfold openSQLitePools.
  destruct (of_write f); [done|]. rewrite Hm. destruct (of_read f); [done|].
  destruct (of_take f); [done|].
  destruct (initializeSchema KEvents _ _) as [r0 db'] eqn:E.
  destruct (ready_kept _ _ _ _ _ _ Hr E) as [_ Hne]. specialize (Hne ltac:(done)).
  by destruct r0.
Qed.

(** ** A run *)

Definition example_sqlite_config : SqliteConfig := mkSqliteConfig false "/data" "" 0 0 0 0 0 "".
Definition orders_definition : Definition_ :=
  mkDefinition "orders" "" (mkPlacement " SQLite " "orders").
Definition upgraded_files : Files :=
  {[ ("/data", "orders.db") := mkDatabase 7 (CEvents empty_tables) ]}.

(** The second opening fails at first. *)
Definition failing_metadata : open_faults :=
  mkOpenFaults None None (Some (PlainError "interrupted")) (λ _, None).

Definition example_failed : result unit * BoundaryRegistry * Files :=
  Eval vm_compute in
    InstallBoundary 4 example_sqlite_config no_faults failing_metadata false orders_definition
      (NewBoundaryRegistry None None) upgraded_files.
Definition example_installed : result unit * BoundaryRegistry * Files :=
  Eval vm_compute in
    InstallBoundary 4 example_sqlite_config no_faults no_faults false orders_definition
      example_failed.1.2 example_failed.2.

Lemma upgraded_recognized : recognized_files upgraded_files.
Proof.
  intros path. unfold file_at, upgraded_files.
  destruct (decide (path = ("/data", "orders.db"))) as [->|Hne].
  - rewrite lookup_singleton_eq. split; intros H; [by eexists|]. simpl in H. set_solver.
  - rewrite lookup_singleton_ne by done. split; simpl; set_solver.
Qed.

Lemma example_failed_eq :
  InstallBoundary 4 example_sqlite_config no_faults failing_metadata false orders_definition
    (NewBoundaryRegistry None None) upgraded_files
  = (example_failed.1.1, example_failed.1.2, example_failed.2).
Proof. vm_cast_no_check (eq_refl example_failed). Qed.

Lemma example_installed_eq :
  InstallBoundary 4 example_sqlite_config no_faults no_faults false orders_definition
    example_failed.1.2 example_failed.2
  = (example_installed.1.1, example_installed.1.2, example_installed.2).
Proof. vm_cast_no_check (eq_refl example_installed). Qed.

Lemma example_install_run :
  rtc (storage_step 4 example_sqlite_config) (NewBoundaryRegistry None None, upgraded_files)
    (example_installed.1.2, example_installed.2).
Proof.
  exact (rtc_l _ _ _ _ (step_install _ _ _ _ _ _ _ _ _ _ _ example_failed_eq)
           (rtc_once _ _ (step_install _ _ _ _ _ _ _ _ _ _ _ example_installed_eq))).
Qed.

Lemma sqlite_storage_ready_witness :
  ∃ p q, eventPool example_installed.1.2 "orders" = Some p
    ∧ metadataPool example_installed.1.2 "orders" = Some q
    ∧ ready KEvents (database_of example_installed.2 p)
    ∧ ready KMetadata (database_of example_installed.2 q).
Proof.
  apply (sqlite_storage_ready 4 example_sqlite_config upgraded_files example_installed.1.2
    example_installed.2 upgraded_recognized example_install_run).
  left. eexists. reflexivity.
Defined.

(** The boundary orders_metadata cannot be provisioned beside orders. *)
Lemma orders_metadata_refused f fm :
  is_ok (ProvisionBoundary 4 example_sqlite_config f fm
    (mkDefinition "orders_metadata" "" (mkPlacement "sqlite" "orders_metadata"))
    example_installed.1.2 example_installed.2).1 = false.
Proof.
  eapply (metadata_name_taken 4 example_sqlite_config _ f fm "orders");
    [reflexivity|reflexivity| |reflexivity|reflexivity].
  split; [reflexivity|]. eexists. reflexivity.
Qed.
