(* ===== verification/Client.v ===== *)
(** * The in-process client: [orisun/client.go]

[OrisunServer] is what a Go program that embeds Orisun talks to. It calls the saver and
the retriever itself, through the gate and the measurements of its event store, and
wraps their errors. The theorems relate it to the event store API: it accepts and
refuses the same saves, with the same effect. *)

From stdpp Require Import options.
From S2P Require Import Prelude Status Model Number Json Predicates Consistency EventData.
From S2P Require Import WriteContext SqlPredicates Sql SqliteStore SqliteLog GroupCommit.
From S2P Require Import SqliteRead SqliteIndex EventStore Api Subscription.

Set Default Proof Using "Type*".

Section Client.
Context `{J : GoJson} {B : Type}.

(** [OrisunServer]; the lock provider and the NATS context are known to its store. *)
Record OrisunServer := mkOrisunServer {
  os_eventStore : option (EventStore B);
  os_saveEvents : EventsSaver B;
  os_getEvents : EventsRetriever B }.

(** [NewOrisunServer]: [lockProvider] tells whether one was given, [create] is the answer
of [NewJetStreamLockProvider]. *)
Definition NewOrisunServer (saver : EventsSaver B) (retriever : EventsRetriever B)
    (lockProvider : bool) (create : result unit) (js : bool) : result OrisunServer :=
  match (if lockProvider then Ok tt else create) with
  | Err e => Err (Wrapped "failed to create lock provider: %w" e)
  | Ok _ => Ok (mkOrisunServer (Some (NewEventStoreServer js saver retriever None))
                  saver retriever)
  end.

(** The [*OrisunServer] receiver may be nil. *)
Definition client_store (c : option OrisunServer) : option (EventStore B) :=
  c ← c; os_eventStore c.

Definition client_RequireBoundaryActive (c : option OrisunServer) (boundary : string)
  : result unit :=
  match client_store c with
  | None => Err not_configured
  | Some s => RequireBoundaryActive (Some s) boundary
  end.

Definition set_store (c : OrisunServer) (s : EventStore B) : OrisunServer :=
  mkOrisunServer (Some s) (os_saveEvents c) (os_getEvents c).

(** The methods that change the gate return the client with its new store. *)
Definition client_EnableBoundaryActivationGate (c : option OrisunServer)
    (initiallyActive : list string) : result OrisunServer :=
  match c, client_store c with
  | Some c, Some s =>
      set_store c <$> EnableBoundaryActivationGate (Some s) initiallyActive
  | _, _ => Err not_configured
  end.

Definition client_ActivateBoundary (c : option OrisunServer) (boundary : string)
  : result OrisunServer :=
  match c, client_store c with
  | Some c, Some s => set_store c <$> ActivateBoundary (Some s) boundary
  | _, _ => Err not_configured
  end.

Definition client_EnsureBoundary (c : option OrisunServer) (ctx : Ctx) (boundary : string)
  : result unit :=
  match client_store c with
  | None => Err not_configured
  | Some s => EnsureBoundary (Some s) ctx boundary
  end.

(** [None] is a panic of the backend, which the client does not recover. A client that is
not configured is refused before its fields are used. *)
Definition saveWithConsistency (c : option OrisunServer) (ctx : Ctx)
    (events : list EventWithMapTags) (boundary : string) (consistency : list ConsistencyCheck)
    (w : World B) : option (result Position) * World B :=
  match client_RequireBoundaryActive c boundary with
  | Err e => (Some (Err e), w)
  | Ok _ =>
      match PrepareEventsForSave events with
      | Err e => (Some (Err (Wrapped "failed to prepare events: %w" e)), w)
      | Ok prepared =>
          match c, client_store c with
          | Some c, Some s =>
              match savePreparedWithMetrics s ctx (os_saveEvents c) prepared boundary
                      consistency w with
              | (None, w) => (None, w)
              | (Some (Err e), w) => (Some (Err (Wrapped "failed to save events: %w" e)), w)
              | (Some (Ok (transactionID, globalID)), w) =>
                  match parseInt64 transactionID with
                  | Err e => (Some (Err (Wrapped "failed to parse transaction id: %w" e)), w)
                  | Ok transID => (Some (Ok (mkPosition transID globalID)), w)
                  end
              end
          | _, _ => (None, w)
          end
      end
  end.

Definition client_SaveEventsV2 (c : option OrisunServer) (ctx : Ctx)
    (events : list EventWithMapTags) (boundary : string)
    (consistency : list (option ConsistencyObservation)) (w : World B)
  : option (result Position) * World B :=
  match ConsistencyChecksFromObservations consistency with
  | Err e => (Some (Err e), w)
  | Ok checks => saveWithConsistency c ctx events boundary checks w
  end.

(** The observation of [SaveEvents]: none without a query that has criteria; a missing
position stands for a context without events. *)
Definition save_observations (expectedPosition : option Position) (query : option Query)
  : list (option ConsistencyObservation) :=
  match query with
  | Some q =>
      if bool_decide (Query_Criteria q = []) then []
      else [Some (mkObservation query (Some (default NotExistsPosition expectedPosition)))]
  | None => []
  end.

Definition SaveEvents (c : option OrisunServer) (ctx : Ctx) (events : list EventWithMapTags)
    (boundary : string) (expectedPosition : option Position) (query : option Query) (w : World B)
  : option (result Position) * World B :=
  client_SaveEventsV2 c ctx events boundary (save_observations expectedPosition query) w.

(** The reads; the retriever of a client that is not configured is not reached. *)
Definition client_GetEvents (c : option OrisunServer) (ctx : Ctx) (req : option GetEventsRequest)
    (b : B) : result (list ReadEvent) :=
  match req with
  | None => Err (PlainError "get events request is required")
  | Some req =>
      _ ← client_RequireBoundaryActive c (GE_Boundary req);
      match c with
      | None => Err not_configured
      | Some c =>
          match retriever_GetBatch (os_getEvents c) ctx req b with
          | Err e => Err (Wrapped "failed to get events: %w" e)
          | Ok batch => Ok batch
          end
      end
  end.

Definition client_GetLatestByCriteria (c : option OrisunServer) (ctx : Ctx)
    (query : LatestByCriteriaQuery) (b : B) : result LatestByCriteriaBatch :=
  _ ← client_RequireBoundaryActive c (LQ_Boundary query);
  match c with
  | None => Err not_configured
  | Some c =>
      match retriever_GetLatestByCriteria (os_getEvents c) ctx query b with
      | Err e => Err (Wrapped "failed to get latest by criteria: %w" e)
      | Ok batch => Ok batch
      end
  end.

(** [SubscribeToEvents] is a method of a client that is configured: it uses its store
without a check. *)
Definition SubscribeToEvents (s : EventStore B) (request : SubscribeRequest)
    (handler connected : bool) (acquire : string → option goerror)
  : result (option Query * subscriptionDrain) :=
  SubscribeToAllEvents s request handler connected acquire.

(** [ConfigureSubscriptions]: the idle threshold that it sets. *)
Definition ConfigureSubscriptions (interval : Z) : result Z :=
  if (interval <=? 0)%Z
  then Err (PlainError "subscriptions require a positive notification idle threshold")
  else Ok interval.

End Client.
Arguments OrisunServer : clear implicits.

(** ** The client and the API *)

Section ClientFacts.
Context `{J : GoJson} {B : Type}.

(** What the client reports when the API answers [r]: the same position, or an error with
the same code; an error without a code is the [Internal] error of the API. A panic that
the API recovers reaches the program that embeds the client. *)
Definition same_save (r : result WriteResult) (c : option (result Position)) : Prop :=
  match c with
  | None => r = Err (Errorf Internal "Internal server error")
  | Some (Ok p) => ∃ id, r = Ok (mkWriteResult id p)
  | Some (Err e) =>
      is_ok r = false
      ∧ result_code r = (if decide (CodeOf (Some e) = Unknown) then Internal
                         else CodeOf (Some e))
  end.

Lemma same_save_wrapped format format' e :
  same_save (Err (coded_or_internal format e)) (Some (Err (Wrapped format' e))).
Proof.
  unfold same_save. rewrite CodeOf_wrapped. split; [done|].
  unfold coded_or_internal, result_code, CodeOf, FromError.
  destruct (as_status e) as [[c m]|] eqn:E; [|done]. destruct (decide (c = Unknown)); [done|].
  by rewrite E.
Qed.

Lemma observations_error_code obs e :
  ConsistencyChecksFromObservations obs = Err e → CodeOf (Some e) = InvalidArgument.
Proof.
  unfold ConsistencyChecksFromObservations. destruct (_ <? _)%Z; [by intros [= <-]|].
  destruct (check_observations _ obs) as [|e'] eqn:E; [done|]. intros [= <-].
  by eapply check_observations_error.
Qed.

Lemma RequireBoundaryActive_code (s : EventStore B) boundary e :
  RequireBoundaryActive (Some s) boundary = Err e → CodeOf (Some e) ≠ Unknown.
Proof.
  unfold RequireBoundaryActive. destruct (enforceBoundaryActivation s); simpl; [|done].
  destruct (ValidateName boundary); [case_bool_decide; [done|]|]; by intros [= <-].
Qed.

Lemma same_save_error e : CodeOf (Some e) ≠ Unknown → same_save (Err e) (Some (Err e)).
Proof. intros He. unfold same_save, result_code. by rewrite decide_False. Qed.

(** A save through the client is the save of the API: on the store that [NewOrisunServer]
builds, for events that both prepare to the same documents, the backend and the
measurements end up the same and the answers agree. *)
Theorem client_save_is_api_save (s : EventStore B) ctx events requested prepared boundary
    observations (w : World B) :
  authorizeRequest ctx [RoleAdmin; RoleOperations] = Ok tt → requested ≠ [] →
  PrepareEventsForSave events = Ok prepared →
  prepareRequestedEventsForSave requested = Ok prepared →
  let c := mkOrisunServer (Some s) (saveEventsFn s) (getEventsFn s) in
  let api := SaveEventsV2 s ctx (Some (mkSaveRequest boundary requested observations)) w in
  let client := client_SaveEventsV2 (Some c) ctx events boundary observations w in
  client.2 = api.2 ∧ same_save api.1 client.1.
Proof.
  intros Ha Hne Hp Hr. simpl.
  unfold SaveEventsV2, saveEventsV2Request, validateSaveEventsV2Request, client_SaveEventsV2.
  rewrite Ha. simpl. rewrite bool_decide_false by done. cbn [SR_Boundary SR_Events SR_Consistency].
  destruct (ConsistencyChecksFromObservations observations) as [checks|e] eqn:Hc.
  2:{ split; [done|]. apply same_save_error. by rewrite (observations_error_code _ _ Hc). }
  unfold saveEvents, saveWithConsistency, client_RequireBoundaryActive.
  cbn [client_store mbind option_bind os_eventStore os_saveEvents].
  destruct (RequireBoundaryActive (Some s) boundary) as [[]|e] eqn:Hb.
  2:{ split; [done|]. by eapply same_save_error, RequireBoundaryActive_code. }
  rewrite Hp, Hr.
  destruct (savePreparedWithMetrics s ctx (saveEventsFn s) prepared boundary checks w)
    as [[[[tid gid]|e]|] w']; [|split; [done|apply same_save_wrapped]|done].
  unfold parseInt64. destruct (Sscanf_d tid); [|done]. split; [done|by eexists].
Qed.

End ClientFacts.

(** ** Conditional saves on SQLite *)

Section ClientSqlite.
Context `{J : GoJson, L : !GoJsonLaws, SJ : !GoJsonStored, SL : !GoJsonStoredLaws, T : SqlText,
  G : GoTime, X : Sqlitex, XL : !SqlitexLaws}.

(** The client of the store [s]. *)
Definition client_of (s : EventStore Registry) : option (OrisunServer Registry) :=
  Some (mkOrisunServer (Some s) (saveEventsFn s) (getEventsFn s)).

(** A conditional save through the client is a compare-and-append: on a working database,
a save with a query is accepted exactly when the context of the query is at the expected
position, and without an expected position when the context has no event. Otherwise the
error has the code [AlreadyExists] and the log is unchanged. *)
Theorem client_conditional_save s now ctx events requested boundary expected q
    (w : World Registry) conn checks :
  sqlite_store s now → text_ok now →
  backend w !! boundary = Some conn → log_inv (c_tables conn) → clean conn →
  Query_Criteria q ≠ [] →
  PrepareEventsForSave events = prepareRequestedEventsForSave requested →
  acceptable s ctx (mkSaveRequest boundary requested (save_observations expected (Some q)))
    (c_tables conn) checks →
  let r := SaveEvents (client_of s) ctx events boundary expected (Some q) w in
  if decide (CodeOf (r.1 ≫= result_err) = AlreadyExists)
  then ¬ is_context (c_tables conn) (context_matches (read_criteria (Query_Criteria q)))
           (default NotExistsPosition expected)
       ∧ ∃ conn', backend r.2 = <[boundary := conn']> (backend w)
                  ∧ c_tables conn' = c_tables conn
  else is_context (c_tables conn) (context_matches (read_criteria (Query_Criteria q)))
         (default NotExistsPosition expected)
       ∧ ∃ pos, r.1 = Some (Ok pos).
Proof.
  intros Hs Hnow Hb Hl Hc Hq Hp Hok. cbv zeta. unfold SaveEvents.
  set (obs := save_observations expected (Some q)) in *.
  assert (obs = [Some (mkObservation (Some q) (Some (default NotExistsPosition expected)))])
    as Hobs by (unfold obs, save_observations; by rewrite bool_decide_false).
  pose proof (ok_checks _ _ _ _ _ Hok) as Hck. simpl in Hck. rewrite Hobs in Hck.
  pose proof (single_observation _ _ _ (c_tables conn) Hck) as Hcur.
  pose proof (ok_prepared _ _ _ _ _ Hok) as Hprep. simpl in Hprep.
  destruct (prepareRequestedEventsForSave requested) as [prepared|] eqn:Hr; [|done].
  destruct (save_outcome s now ctx (mkSaveRequest boundary requested obs) w conn checks Hs Hnow Hb
    Hl Hc Hok) as (res & w' & conn' & H & Hw & Hout).
  destruct (client_save_is_api_save s ctx events requested prepared boundary obs w) as [Hw2 Hsame];
    [apply (ok_authorized _ _ _ _ _ Hok)|apply (ok_events _ _ _ _ _ Hok)|done..|].
  rewrite H in Hw2, Hsame. unfold client_of. simpl in *.
  destruct (client_SaveEventsV2 _ _ _ _ _ _) as [r w2]. simpl in *. subst w2.
  destruct Hout as [[Hres Hcurrent]|(-> & Hncur & Htab)].
  - destruct r as [[p|e]|]; simpl in Hsame.
    + split; [by apply Hcur|by eexists].
    + by destruct Hsame as [Hf _], res.
    + by subst res.
  - destruct r as [[p|e]|]; unfold same_save in Hsame; [by destruct Hsame|..|done].
    destruct Hsame as [_ Hcode]. change (result_code _) with AlreadyExists in Hcode.
    cbn [mbind option_bind result_err].
    destruct (decide (CodeOf (Some e) = Unknown)); [discriminate Hcode|].
    rewrite decide_True by (by symmetry).
    split; [by intros ?%Hcur|by exists conn'].
Qed.

End ClientSqlite.

(** ** Witnesses *)

#[local] Existing Instances example_json example_stored_json example_sql_text example_sqlitex
  example_time.

Definition example_client_event (id : string) : EventWithMapTags :=
  mkEventWithMapTags id "OrderPlaced" (DString (PE_DataJSON (example_event id)))
    (DOther (json_Marshal (JObject []))).

Definition example_query : Query := mkQuery [Some (mkCriterion [Some (mkTag "order" "o-1" "")])].

(** The first save of an order is accepted, with or without the explicit position; the
second, which also expects no event, is refused. *)
Lemma client_saves :
  let c := client_of example_store in
  let save id expected w :=
    SaveEvents c example_caller [example_client_event id] "orders" expected (Some example_query) w in
  let first := save "e-1" None example_world in
  first.1 = Some (Ok (mkPosition 1 1))
  ∧ (save "e-1" (Some NotExistsPosition) example_world).1 = Some (Ok (mkPosition 1 1))
  ∧ CodeOf ((save "e-2" None first.2).1 ≫= result_err) = AlreadyExists
  ∧ (save "e-2" (Some (mkPosition 1 1)) first.2).1 = Some (Ok (mkPosition 2 2)).
Proof. vm_compute. split_and!; reflexivity. Qed.

Lemma client_conditional_save_witness :
  is_context (c_tables example_conn) (context_matches (read_criteria (Query_Criteria example_query)))
    NotExistsPosition
  ∧ ∃ pos, (SaveEvents (client_of example_store) example_caller [example_client_event "e-2"]
              "orders" None (Some example_query) example_world).1 = Some (Ok pos).
Proof.
  refine (@client_conditional_save example_json example_json_laws example_stored_json
    example_stored_laws example_sql_text example_time example_sqlitex example_sqlitex_laws
    example_store example_now example_caller [example_client_event "e-2"]
    (SR_Events (example_save "e-2")) "orders" None example_query example_world example_conn
    [example_check] example_sqlite_store I eq_refl log_inv_empty (conj eq_refl eq_refl) _ _ _).
  - discriminate.
  - vm_compute. reflexivity.
  - apply example_acceptable. discriminate.
Defined.
