(* ===== verification/HintReceiver.v ===== *)
(** * Hints of a subscription: [orisun/subscription_notifications.go]

The goroutine that keeps a subscription woken: it registers a listener for the hints of
the boundary, publishes a hint of its own at the start, after a reconnection and when no
hint has been received for the idle threshold. The connection only carries hints, and may
lose them. Times are nanoseconds of the monotonic clock, and [latency] bounds one turn of
the loop, from its reading of the clock to the reset of its timer. *)

From stdpp Require Import options.
From S2P Require Import Prelude Status Model.

Set Default Proof Using "Type*".

(** [defaultSubscriptionIdleThreshold]. *)
Definition defaultSubscriptionIdleThreshold : Z := 10 * 1000000000.

(** The threshold that the loop uses, from the one that is configured. *)
Definition idle_threshold (configured : Z) : Z :=
  if (configured <=? 0)%Z then defaultSubscriptionIdleThreshold else configured.

(** [subscriptionHintActivity]: [changed] is a channel of one place. *)
Record subscriptionHintActivity := mkActivity { lastReceived : Z; changed : bool }.

Definition newSubscriptionHintActivity (now : Z) : subscriptionHintActivity := mkActivity now false.

Definition received (now : Z) (a : subscriptionHintActivity) : subscriptionHintActivity :=
  mkActivity now true.

Definition remaining (now threshold : Z) (a : subscriptionHintActivity) : Z :=
  let elapsed := (now - lastReceived a)%Z in
  if (threshold <=? elapsed)%Z then 0%Z else (threshold - elapsed)%Z.

(** [openSubscriptionNotifications]: the answers of the connection to [Subscribe], to
[FlushWithContext] and to [Unsubscribe]; [live] counts the listeners of this subscription
that are registered. *)
Definition openSubscriptionNotifications (subscribe flush unsubscribe : option goerror)
    (live : nat) : result unit * nat :=
  match subscribe with
  | Some e => (Err e, live)
  | None =>
      match flush with
      | Some e => (Err e, match unsubscribe with None => live | Some _ => S live end)
      | None => (Ok tt, S live)
      end
  end.

(** Where [receiveSubscriptionNotifications] is: registering the listener; about to publish
the first hint; in the select; with the clock read at [t0], because the timer fired or
not; about to publish after the timer fired; about to set the timer; about to publish
after a reconnection; returned. *)
Inductive receiver_pc :=
  | RRegister | RStart | RSelect
  | RRead (fired : bool) (t0 : Z) | RIdlePing (t0 : Z) | RReset (t0 delay : Z)
  | RReconnected | RStopped.

Record Receiver := mkReceiver {
  rc_now : Z;
  rc_ended : bool;                 (* the context has ended *)
  rc_pc : receiver_pc;
  rc_live : nat;                   (* listeners *)
  rc_activity : subscriptionHintActivity;
  rc_callback : option Z;          (* a hint is being handled; the clock it has read *)
  rc_woken : nat;                  (* calls of [drain.wake] *)
  rc_timer : option Z;             (* when the timer fires *)
  rc_status : bool;                (* [connected] is not nil *)
  rc_pings : list Z }.             (* when hints were published *)

Definition newReceiver (now : Z) : Receiver :=
  mkReceiver now false RRegister 0 (newSubscriptionHintActivity now) None 0 None true [].

(** What happens next. *)
Inductive receiver_event :=
  | EvTime (d : Z)                                          (* time passes *)
  | EvEnd                                                   (* the context ends *)
  | EvRegister (subscribe flush unsubscribe : option goerror) (* an attempt to register *)
  | EvHint                                                  (* the callback is called *)
  | EvStored                                                (* it goes on and returns *)
  | EvDone | EvChanged | EvTimer | EvStatus (ok : bool)     (* cases of the select *)
  | EvNext.                                                 (* the next statement *)

Section Receiver.
Context (threshold latency : Z).

Definition rc_at (pc : receiver_pc) (s : Receiver) : Receiver :=
  mkReceiver (rc_now s) (rc_ended s) pc (rc_live s) (rc_activity s) (rc_callback s) (rc_woken s)
    (rc_timer s) (rc_status s) (rc_pings s).

Definition rc_set_timer (timer : option Z) (s : Receiver) : Receiver :=
  mkReceiver (rc_now s) (rc_ended s) (rc_pc s) (rc_live s) (rc_activity s) (rc_callback s)
    (rc_woken s) timer (rc_status s) (rc_pings s).

Definition rc_set_live (live : nat) (s : Receiver) : Receiver :=
  mkReceiver (rc_now s) (rc_ended s) (rc_pc s) live (rc_activity s) (rc_callback s) (rc_woken s)
    (rc_timer s) (rc_status s) (rc_pings s).

(** [ping]: nothing is published once the context has ended; the error of [Publish] is
only logged. *)
Definition ping (s : Receiver) : Receiver :=
  if rc_ended s then s
  else mkReceiver (rc_now s) (rc_ended s) (rc_pc s) (rc_live s) (rc_activity s) (rc_callback s)
         (rc_woken s) (rc_timer s) (rc_status s) (rc_pings s ++ [rc_now s]).

(** Within a turn of the loop no more than [latency] passes. *)
Definition in_time (s : Receiver) (now : Z) : bool :=
  match rc_pc s with
  | RRead _ t0 | RIdlePing t0 | RReset t0 _ => (now <=? t0 + latency)%Z
  | _ => true
  end.

(** The return of the function: the listener is removed and the timer is stopped. *)
Definition rc_return (s : Receiver) : Receiver :=
  rc_at RStopped (rc_set_live (pred (rc_live s)) (rc_set_timer None s)).

Definition rc_next (s : Receiver) : option Receiver :=
  match rc_pc s with
  | RStart => Some (rc_at (RReset (rc_now s) threshold) (ping s))
  | RRead fired t0 =>
      let r := remaining t0 threshold (rc_activity s) in
      Some (rc_at (if negb fired || (0 <? r)%Z then RReset t0 r else RIdlePing t0) s)
  | RIdlePing t0 => Some (rc_at (RReset t0 threshold) (ping s))
  | RReset t0 delay => Some (rc_at RSelect (rc_set_timer (Some (rc_now s + delay)%Z) s))
  | RReconnected => Some (rc_at RSelect (ping s))
  | RRegister | RSelect | RStopped => None
  end.

Definition receiver_step (e : receiver_event) (s : Receiver) : option Receiver :=
  match e with
  | EvTime d =>
      if (0 <=? d)%Z && in_time s (rc_now s + d)
      then Some (mkReceiver (rc_now s + d) (rc_ended s) (rc_pc s) (rc_live s) (rc_activity s)
                   (rc_callback s) (rc_woken s) (rc_timer s) (rc_status s) (rc_pings s))
      else None
  | EvEnd => Some (mkReceiver (rc_now s) true (rc_pc s) (rc_live s) (rc_activity s)
                     (rc_callback s) (rc_woken s) (rc_timer s) (rc_status s) (rc_pings s))
  | EvRegister subscribe flush unsubscribe =>
      match rc_pc s with
      | RRegister =>
          if rc_ended s then Some (rc_at RStopped s)
          else match openSubscriptionNotifications subscribe flush unsubscribe (rc_live s) with
               | (Ok _, live) => Some (rc_at RStart (rc_set_live live s))
               | (Err _, live) => Some (rc_set_live live s)
               end
      | _ => None
      end
  | EvHint =>
      match rc_callback s with
      | None => Some (mkReceiver (rc_now s) (rc_ended s) (rc_pc s) (rc_live s) (rc_activity s)
                        (Some (rc_now s)) (rc_woken s) (rc_timer s) (rc_status s) (rc_pings s))
      | Some _ => None
      end
  | EvStored =>
      match rc_callback s with
      | Some t => Some (mkReceiver (rc_now s) (rc_ended s) (rc_pc s) (rc_live s)
                          (received t (rc_activity s)) None (S (rc_woken s)) (rc_timer s)
                          (rc_status s) (rc_pings s))
      | None => None
      end
  | EvDone =>
      match rc_pc s with RSelect => if rc_ended s then Some (rc_return s) else None | _ => None end
  | EvChanged =>
      match rc_pc s with
      | RSelect =>
          if changed (rc_activity s)
          then Some (mkReceiver (rc_now s) (rc_ended s) (RRead false (rc_now s)) (rc_live s)
                       (mkActivity (lastReceived (rc_activity s)) false) (rc_callback s)
                       (rc_woken s) (rc_timer s) (rc_status s) (rc_pings s))
          else None
      | _ => None
      end
  | EvTimer =>
      match rc_pc s, rc_timer s with
      | RSelect, Some d =>
          if (d <=? rc_now s)%Z then Some (rc_at (RRead true (rc_now s)) (rc_set_timer None s))
          else None
      | _, _ => None
      end
  | EvStatus ok =>
      match rc_pc s with
      | RSelect =>
          if rc_status s
          then Some (if ok then rc_at RReconnected s
                     else mkReceiver (rc_now s) (rc_ended s) RSelect (rc_live s) (rc_activity s)
                            (rc_callback s) (rc_woken s) (rc_timer s) false (rc_pings s))
          else None
      | _ => None
      end
  | EvNext => rc_next s
  end.

Fixpoint receiver_run (events : list receiver_event) (s : Receiver) : option Receiver :=
  match events with
  | [] => Some s
  | e :: events => s ← receiver_step e s; receiver_run events s
  end.

Inductive receiver_reachable (start : Z) : Receiver → Prop :=
  | rr_start : receiver_reachable start (newReceiver start)
  | rr_step s e s' : receiver_reachable start s → receiver_step e s = Some s' →
      receiver_reachable start s'.

(** The last sign of life: a hint that was received, or one that was published. *)
Definition last_sign (s : Receiver) : Z :=
  foldr Z.max (lastReceived (rc_activity s)) (rc_pings s).

(** ** The timer is never late *)

Hypothesis Hlatency : (0 <= latency)%Z.

(** The timer is due already, or it will be in time. *)
Definition timely (s : Receiver) (deadline : Z) : Prop :=
  (deadline <= rc_now s ∨ deadline <= last_sign s + threshold + latency)%Z.

Definition within (s : Receiver) (t0 : Z) : Prop := (t0 <= rc_now s <= t0 + latency)%Z.

Definition pc_inv (s : Receiver) : Prop :=
  match rc_pc s with
  | RRead _ t0 | RIdlePing t0 => within s t0
  | RReset t0 delay =>
      within s t0
      ∧ (rc_ended s = false → delay <= 0 ∨ t0 + delay <= last_sign s + threshold)%Z
  | RSelect | RReconnected => rc_ended s = false → ∃ d, rc_timer s = Some d ∧ timely s d
  | RRegister | RStart | RStopped => True
  end.

Record receiver_inv (s : Receiver) : Prop := {
  ri_last : (lastReceived (rc_activity s) <= rc_now s)%Z;
  ri_callback t : rc_callback s = Some t →
    (lastReceived (rc_activity s) <= t <= rc_now s)%Z;
  ri_pc : pc_inv s }.

Lemma foldr_max_base (l : list Z) a b : (a <= b)%Z → (foldr Z.max a l <= foldr Z.max b l)%Z.
Proof. induction l; simpl; lia. Qed.

Lemma foldr_max_le (l : list Z) a : (a <= foldr Z.max a l)%Z.
Proof. induction l; simpl; lia. Qed.

Lemma foldr_max_snoc (l : list Z) a x : foldr Z.max a (l ++ [x]) = Z.max x (foldr Z.max a l).
Proof. induction l as [|y l IH]; simpl; [lia|]. rewrite IH. lia. Qed.

Lemma last_received_sign s : (lastReceived (rc_activity s) <= last_sign s)%Z.
Proof. apply foldr_max_le. Qed.

Lemma ping_sign s : (last_sign s <= last_sign (ping s))%Z ∧ (rc_ended s = false →
  rc_now s <= last_sign (ping s))%Z.
Proof.
  unfold ping, last_sign. destruct (rc_ended s); simpl; [lia|]. rewrite foldr_max_snoc. lia.
Qed.

Lemma ping_fields s :
  rc_now (ping s) = rc_now s ∧ rc_ended (ping s) = rc_ended s ∧ rc_timer (ping s) = rc_timer s
  ∧ rc_activity (ping s) = rc_activity s ∧ rc_callback (ping s) = rc_callback s.
Proof. unfold ping. by destruct (rc_ended s) eqn:E. Qed.

(** Where the loop is stays true when time passes within bounds and signs of life come. *)
Lemma pc_inv_later s s' :
  pc_inv s → rc_pc s' = rc_pc s → (rc_now s <= rc_now s')%Z → in_time s (rc_now s') = true →
  (rc_ended s' = false → rc_ended s = false) → rc_timer s' = rc_timer s →
  (last_sign s <= last_sign s')%Z → pc_inv s'.
Proof.
  unfold pc_inv, within, in_time, timely. intros H Hpc Hnow Htime Hend Ht Hsign. rewrite Hpc, Ht.
  destruct (rc_pc s); try done; try (apply Z.leb_le in Htime; lia).
  - intros He. destruct (H (Hend He)) as (d & ? & ?). exists d. split; [done|lia].
  - apply Z.leb_le in Htime. destruct H as [? Hd]. split; [lia|]. intros He.
    specialize (Hd (Hend He)). lia.
  - intros He. destruct (H (Hend He)) as (d & ? & ?). exists d. split; [done|lia].
Qed.

Lemma in_time_now s : pc_inv s → in_time s (rc_now s) = true.
Proof.
  unfold pc_inv, in_time, within. destruct (rc_pc s); try done; intros; apply Z.leb_le; lia.
Qed.

Lemma receiver_inv_next s s' : receiver_inv s → rc_next s = Some s' → receiver_inv s'.
Proof.
  intros [Hl Hc Hp] H. unfold rc_next in H. unfold pc_inv in Hp.
  destruct (ping_fields s) as (Fn & Fe & Ft & Fa & Fc). destruct (ping_sign s) as [S1 S2].
  pose proof (last_received_sign s) as Hls.
  destruct (rc_pc s) as [| | |fired t0|t0|t0 delay| |] eqn:E; try done; injection H as <-;
    (split; simpl; [rewrite ?Fa, ?Fn; done|intros t; rewrite ?Fa, ?Fn, ?Fc; apply Hc|]);
    unfold pc_inv, within, timely, last_sign in *; simpl; rewrite ?Fn, ?Fe, ?Ft.
  - split; [lia|]. intros He. specialize (S2 He). lia.
  - unfold remaining. destruct (Z.leb_spec threshold (t0 - lastReceived (rc_activity s))); simpl.
    + destruct fired; simpl; [lia|]. split; [lia|]. by left.
    + destruct (negb fired || _); [|lia]. split; [lia|]. intros _. right. lia.
  - split; [lia|]. intros He. specialize (S2 He). lia.
  - intros He. eexists. split; [done|]. destruct Hp as [Hw Hd]. specialize (Hd He). lia.
  - intros He. destruct (Hp He) as (d & ? & ?). exists d. split; [done|]. lia.
Qed.

Lemma receiver_inv_step e s s' :
  receiver_inv s → receiver_step e s = Some s' → receiver_inv s'.
Proof.
  intros Hinv H. pose proof Hinv as [Hl Hc Hp]. pose proof (in_time_now s Hp) as Hin.
  destruct e as [d| |sub fl un| | | | | |ok|]; simpl in H.
  - destruct (Z.leb_spec 0 d) as [Hd|]; [|done]. destruct (in_time s _) eqn:Ht; [|done].
    injection H as <-. split; simpl; [lia|intros t Hcb; specialize (Hc t Hcb); lia|].
    apply (pc_inv_later s); simpl; try done; lia.
  - injection H as <-. split; simpl; [done..|]. by apply (pc_inv_later s).
  - destruct (rc_pc s) eqn:E; try done. destruct (rc_ended s); [by injection H as <-|].
    destruct (openSubscriptionNotifications _ _ _ _) as [[[]|] live]; injection H as <-;
      (split; [done..|]); unfold pc_inv; simpl; [done|by rewrite E].
  - destruct (rc_callback s) eqn:E; [done|]. injection H as <-.
    split; simpl; [done|intros t [= <-]; lia|]. by apply (pc_inv_later s).
  - destruct (rc_callback s) as [t|] eqn:E; [|done]. injection H as <-.
    specialize (Hc t eq_refl). split; simpl; [lia|done|].
    apply (pc_inv_later s); simpl; try done. apply foldr_max_base. simpl. lia.
  - destruct (rc_pc s); try done. destruct (rc_ended s); [|done]. injection H as <-.
    by split.
  - destruct (rc_pc s); try done. destruct (changed _); [|done]. injection H as <-.
    split; simpl; [done..|]. unfold pc_inv, within. simpl. lia.
  - destruct (rc_pc s); try done. destruct (rc_timer s) as [d|]; [|done].
    destruct (d <=? rc_now s)%Z; [|done]. injection H as <-. split; simpl; [done..|].
    unfold pc_inv, within. simpl. lia.
  - unfold pc_inv in Hp. destruct (rc_pc s) eqn:E; try done. destruct (rc_status s); [|done].
    injection H as <-. by destruct ok; split.
  - by apply (receiver_inv_next s).
Qed.

Lemma receiver_inv_reachable start s :
  receiver_reachable start s → receiver_inv s.
Proof.
  induction 1 as [|s e s' _ IH H]; [by split; simpl|]. by eapply receiver_inv_step.
Qed.

(** C18: a subscription that is registered does not stay silent: when the loop waits and no hint
was received or published for the threshold and one turn of the loop, the timer has fired,
and the loop publishes a hint, which its listener receives when the connection carries it. *)
Theorem silent_subscription_pings start s :
  receiver_reachable start s → rc_pc s = RSelect → rc_ended s = false →
  (last_sign s + threshold + latency <= rc_now s)%Z →
  ∃ s', receiver_run [EvTimer; EvNext; EvNext] s = Some s'
    ∧ rc_pings s' = rc_pings s ++ [rc_now s].
Proof.
  intros Hr Hpc He Hsilent. apply receiver_inv_reachable in Hr as [_ _ Hp].
  unfold pc_inv in Hp. rewrite Hpc in Hp. destruct (Hp He) as (d & Ht & Hd).
  pose proof (last_received_sign s). simpl. rewrite Hpc, Ht.
  destruct (Z.leb_spec d (rc_now s)) as [_|]; [|unfold timely in Hd; lia]. simpl.
  unfold rc_next. simpl. unfold remaining.
  destruct (Z.leb_spec threshold (rc_now s - lastReceived (rc_activity s))); [|lia].
  simpl. eexists. split; [done|]. simpl. unfold ping. simpl. by rewrite He.
Qed.

End Receiver.

(** ** Witness *)

Definition example_silence : list receiver_event :=
  [EvRegister None (Some ContextDeadlineExceeded) None; EvRegister None None None; EvNext; EvNext;
   EvTime 3; EvHint; EvStored; EvChanged; EvNext; EvNext; EvTime 20].

Definition example_receiver : Receiver :=
  Eval vm_compute in default (newReceiver 0) (receiver_run 10 1 example_silence (newReceiver 0)).

Lemma receiver_run_reachable threshold latency start events s s' :
  receiver_reachable threshold latency start s →
  receiver_run threshold latency events s = Some s' →
  receiver_reachable threshold latency start s'.
Proof.
  revert s. induction events as [|e events IH]; intros s Hs H; simpl in H; [by injection H as <-|].
  destruct (receiver_step threshold latency e s) as [s1|] eqn:E; [|done].
  eapply IH; [|exact H]. by eapply rr_step.
Qed.

Lemma example_receiver_reachable : receiver_reachable 10 1 0 example_receiver.
Proof.
  apply (receiver_run_reachable 10 1 0 example_silence (newReceiver 0)); [constructor|].
  vm_compute. reflexivity.
Qed.

Lemma silent_subscription_pings_witness :
  ∃ s', receiver_run 10 1 [EvTimer; EvNext; EvNext] example_receiver = Some s'
    ∧ rc_pings s' = [0; 23]%Z.
Proof.
  apply (silent_subscription_pings 10 1 ltac:(lia) 0 example_receiver example_receiver_reachable
    eq_refl eq_refl).
  vm_compute. discriminate.
Defined.
