(* ===== verification/Config.v ===== *)
(** * Configuration: [config/config.go]

The configuration record, the substitution of environment variables into the values of
the embedded YAML file, the loading of a configuration and the checks that it passes
before the server starts. Reading YAML and filling the record is the work of the library
viper: its values and its [Unmarshal] are parameters. The environment is a function. *)

From stdpp Require Import options.
From S2P Require Import Prelude Status Model PgStore EventStore.

Set Default Proof Using "Type*".

(** ** The record; durations are nanoseconds *)

Record BackendConfig := mkBackendConfig { Backend_Type : string }.

Record GroupCommitConfig := mkGroupCommitConfig {
  MaxBatchRequests : Z; MaxBatchEvents : Z; MaxDelay : Z; MaxPending : Z; FlushTimeout : Z }.

Record SqliteConfig := mkSqliteConfig {
  InMemory : bool; Dir : string; Synchronous : string; BusyTimeoutMs : Z; ReadPoolSize : Z;
  CacheSize : Z; MmapSize : Z; WalAutoCheckpoint : Z; TempStore : string;
  PublisherWakeDelay : Z; Sqlite_GroupCommit : GroupCommitConfig }.

Record AdminConfig := mkAdminConfig { Admin_Port : string; Admin_Boundary : string }.

(** [PostgresDBConfig] without the sizes of its three pools. *)
Record PostgresDBConfig := mkPostgresDBConfig {
  Pg_User : string; Pg_Name : string; Pg_Password : string; Pg_Host : string; Pg_Port : string;
  AdminSchema : string; SSLMode : string; ListenEnabled : bool;
  Pg_GroupCommit : GroupCommitConfig }.

Record NatsClusterConfig := mkNatsClusterConfig {
  Cluster_Name : string; Cluster_Host : string; Cluster_Port : Z; Routes : string;
  Cluster_Username : string; Cluster_Password : string; Cluster_Enabled : bool;
  Cluster_Timeout : Z }.

Record NatsConfig := mkNatsConfig {
  URL : string; ServerName : string; Nats_Port : Z; MaxPayload : Z; MaxConnections : Z;
  StoreDir : string; PublishAsyncMaxPending : Z; Cluster : NatsClusterConfig }.

Record AuthConfig := mkAuthConfig {
  AdminUsername : string; AdminPassword : string; SessionTTL : Z }.

(** [AppConfig], with the parts that the modelled code reads. *)
Record AppConfig := mkAppConfig {
  Backend : BackendConfig; Postgres : PostgresDBConfig; Sqlite : SqliteConfig;
  SubscriptionIdleThreshold : Z; Nats : NatsConfig; AuthOf : AuthConfig; Admin : AdminConfig }.

Definition BootstrapSchemaMapping (p : PostgresDBConfig) (adminBoundary : string)
  : gmap string BoundaryToPostgresSchemaMapping :=
  {[ adminBoundary := mkMapping adminBoundary (AdminSchema p) ]}.

Definition GetRoutes (c : NatsClusterConfig) : list string := Split (Routes c) ",".

Definition BackendType (c : AppConfig) : string :=
  if String.eqb (Backend_Type (Backend c)) "" then "postgres" else Backend_Type (Backend c).

(** ** Names *)

Definition config_isLetter (c : ascii) : bool :=
  let n := N_of_ascii c in
  ((97 <=? n)%N && (n <=? 122)%N) || ((65 <=? n)%N && (n <=? 90)%N).

Definition config_isDigit (c : ascii) : bool :=
  let n := N_of_ascii c in (48 <=? n)%N && (n <=? 57)%N.

(** The loop over [boundary[1:]]. *)
Fixpoint config_name_rest (s : string) : result unit :=
  match s with
  | EmptyString => Ok tt
  | String c s =>
      if negb (config_isLetter c) && negb (config_isDigit c) && negb (Ascii.eqb c "_")
      then Err (PlainError "boundary name can only contain letters, digits, and underscores, invalid char '%c' at position %d")
      else config_name_rest s
  end.

Definition config_validateBoundaryName (boundary : string) : result unit :=
  match boundary with
  | EmptyString => Err (PlainError "boundary name must be 1-63 characters, got %d")
  | String firstChar rest =>
      if (63 <? go_len boundary)%Z
      then Err (PlainError "boundary name must be 1-63 characters, got %d")
      else if negb (config_isLetter firstChar) && negb (Ascii.eqb firstChar "_")
      then Err (PlainError "boundary name must start with a letter or underscore, got '%c'")
      else config_name_rest rest
  end.

(** ** [validateConfig] *)

Definition validate_backend (config : AppConfig) : result unit :=
  let type := Backend_Type (Backend config) in
  if String.eqb type "" || String.eqb type "postgres" then Ok tt
  else if String.eqb type "sqlite"
  then
    if Cluster_Enabled (Cluster (Nats config))
    then Err (PlainError "sqlite backend does not support NATS clustering (single-node only); set ORISUN_NATS_CLUSTER_ENABLED=false")
    else if negb (InMemory (Sqlite config)) && String.eqb (Dir (Sqlite config)) ""
    then Err (PlainError "sqlite backend requires ORISUN_SQLITE_DIR")
    else if (PublisherWakeDelay (Sqlite config) <? 0)%Z
    then Err (PlainError "sqlite publisher wake delay must be >= 0, got %s")
    else Ok tt
  else Err (PlainError "unknown backend type %q (expected 'postgres' or 'sqlite')").

Definition wrap_error {A} (format : string) (r : result A) : result A :=
  match r with Ok a => Ok a | Err e => Err (Wrapped format e) end.

Definition validateConfig (config : AppConfig) : result unit :=
  _ ← validate_backend config;
  _ ← wrap_error "invalid admin boundary name %q: %w"
        (config_validateBoundaryName (Admin_Boundary (Admin config)));
  _ ← (if String.eqb (BackendType config) "postgres"
       then wrap_error "invalid ORISUN_PG_ADMIN_SCHEMA %q: %w"
              (config_validateBoundaryName (AdminSchema (Postgres config)))
       else Ok tt);
  _ ← reject_if (SessionTTL (AuthOf config) <=? 0)%Z
        (PlainError "ORISUN_AUTH_SESSION_TTL must be greater than zero, got %s");
  reject_if (SubscriptionIdleThreshold config <=? 0)%Z
    (PlainError "ORISUN_SUBSCRIPTION_IDLE_THRESHOLD must be greater than zero, got %s").

(** ** Environment variables *)

(** [strings.HasSuffix] of a one-byte suffix. *)
Fixpoint ends_with (s : string) (c : ascii) : bool :=
  match s with
  | EmptyString => false
  | String d EmptyString => Ascii.eqb d c
  | String _ s => ends_with s c
  end.

(** The byte index of the first colon that is not within backticks; the loop ranges over
characters, of which only these two matter, both of one byte. *)
Fixpoint colon_pos (content : string) (inBackticks : bool) (i : nat) : option nat :=
  match content with
  | EmptyString => None
  | String c content =>
      if Ascii.eqb c "`" then colon_pos content (negb inBackticks) (S i)
      else if Ascii.eqb c ":" && negb inBackticks then Some i
      else colon_pos content inBackticks (S i)
  end.

(** [content[lo:hi]]; [None] is the panic of a slice out of range. *)
Definition slice (s : string) (lo hi : nat) : option string :=
  if (lo <=? hi) && (hi <=? String.length s) then Some (String.substring lo (hi - lo) s) else None.

Definition substituteEnvVars (Getenv : string → string) (value : string) : option string :=
  if HasPrefix value "${" && ends_with value "}"
  then
    content ← slice value 2 (String.length value - 1);
    let colonPos := colon_pos content false 0 in
    let content := ReplaceAll content "`" "" in
    '(envVar, defaultValue) ←
      match colonPos with
      | None => Some (content, "")
      | Some i =>
          envVar ← slice content 0 i;
          defaultValue ← slice content (S i) (String.length content);
          Some (envVar, defaultValue)
      end;
    Some (if String.eqb (Getenv envVar) "" then defaultValue else Getenv envVar)
  else Some value.

(** ** [LoadConfig] *)

(** A value of viper: a string, or one of another type, which is left alone. *)
Inductive viper_value := VString (s : string) | VOther.

Section Load.
(** [os.LookupEnv] ([None] when the variable is not set), the keys and values that viper
read from the embedded file, and its [Unmarshal]. *)
Context (LookupEnv : string → option string) (ReadConfig : result (list (string * viper_value)))
  (Unmarshal : list (string * viper_value) → result AppConfig).

Definition Getenv (key : string) : string := default "" (LookupEnv key).

Definition substitute_entry (entry : string * viper_value) : option (string * viper_value) :=
  match entry.2 with
  | VString s => s ← substituteEnvVars Getenv s; Some (entry.1, VString s)
  | VOther => Some entry
  end.

(** [None] is a panic. *)
Definition LoadConfig : option (result AppConfig) :=
  match LookupEnv "ORISUN_PG_DIALECT" with
  | Some _ => Some (Err (PlainError "ORISUN_PG_DIALECT was removed in Orisun 0.10.0; the PostgreSQL backend now supports PostgreSQL only"))
  | None =>
      match ReadConfig with
      | Err e => Some (Err (Wrapped "failed to read config data: %w" e))
      | Ok entries =>
          values ← mapM substitute_entry entries;
          Some (match Unmarshal values with
                | Err e => Err (Wrapped "failed to unmarshal config: %w" e)
                | Ok config => _ ← validateConfig config; mret config
                end)
      end
  end.

End Load.

(** ** Names: the three checks agree *)

Lemma config_letter c : config_isLetter c = letter c.
Proof. by destruct c as [[] [] [] [] [] [] [] []]. Qed.

Lemma config_digit c : config_isDigit c = digit c.
Proof. by destruct c as [[] [] [] [] [] [] [] []]. Qed.

Lemma config_rest_ok s : config_name_rest s = Ok tt ↔ name_rest s = true.
Proof.
  induction s as [|c s IH]; simpl; [done|]. rewrite config_letter, config_digit.
  destruct (letter c), (digit c), (Ascii.eqb c "_"); simpl; naive_solver.
Qed.

Lemma name_rest_pg s :
  name_rest s = string_forallb (λ c, isLetter c || isDigit c || Ascii.eqb c "_") s.
Proof.
  induction s as [|c s IH]; [done|]. cbn [name_rest string_forallb]. rewrite IH.
  change (isLetter c) with (config_isLetter c). change (isDigit c) with (config_isDigit c).
  by rewrite <-config_letter, <-config_digit.
Qed.

(** The name checks of the configuration, of the boundary catalog and of the PostgreSQL
backend, three copies of one loop, accept the same names. *)
Lemma name_checks_agree name :
  (config_validateBoundaryName name = Ok tt ↔ ValidateName name = Ok tt)
  ∧ (config_validateBoundaryName name = Ok tt ↔ validateBoundaryName name = Ok tt).
Proof.
  unfold config_validateBoundaryName, ValidateName, validateBoundaryName.
  destruct name as [|c rest]; [by split|].
  assert ((go_len (String c rest) =? 0)%Z = false) as ->
    by (apply Z.eqb_neq; unfold go_len; simpl; lia).
  change (isLetter c) with (config_isLetter c). rewrite config_letter, <-name_rest_pg. simpl.
  destruct (63 <? _)%Z; [by split|]. destruct (negb _ && negb _); [by split|].
  rewrite config_rest_ok. by destruct (name_rest rest).
Qed.

(** ** A configuration that was accepted *)

Lemma wrap_error_ok {A} format (r : result A) a : wrap_error format r = Ok a ↔ r = Ok a.
Proof. unfold wrap_error. by destruct r. Qed.

(** What the rest of the program may rely on. *)
Record valid_config (config : AppConfig) : Prop := {
  vc_backend : BackendType config = "postgres" ∨ BackendType config = "sqlite";
  vc_boundary : ValidateName (Admin_Boundary (Admin config)) = Ok tt;
  vc_schema : BackendType config = "postgres" →
    validateBoundaryName (AdminSchema (Postgres config)) = Ok tt;
  vc_sqlite : BackendType config = "sqlite" →
    Cluster_Enabled (Cluster (Nats config)) = false
    ∧ (InMemory (Sqlite config) = true ∨ Dir (Sqlite config) ≠ "")
    ∧ (0 <= PublisherWakeDelay (Sqlite config))%Z;
  vc_session : (0 < SessionTTL (AuthOf config))%Z;
  vc_idle : (0 < SubscriptionIdleThreshold config)%Z }.

Lemma validate_backend_ok config :
  validate_backend config = Ok tt ↔
  BackendType config = "postgres"
  ∨ (BackendType config = "sqlite" ∧ Cluster_Enabled (Cluster (Nats config)) = false
     ∧ (InMemory (Sqlite config) = true ∨ Dir (Sqlite config) ≠ "")
     ∧ (0 <= PublisherWakeDelay (Sqlite config))%Z).
Proof.
  unfold validate_backend, BackendType.
  destruct (String.eqb_spec (Backend_Type (Backend config)) "") as [->|]; [naive_solver|].
  destruct (String.eqb_spec (Backend_Type (Backend config)) "postgres") as [->|]; [naive_solver|].
  destruct (String.eqb_spec (Backend_Type (Backend config)) "sqlite") as [->|]; simpl;
    [|naive_solver].
  destruct (Cluster_Enabled _); [naive_solver|].
  destruct (InMemory _), (String.eqb_spec (Dir (Sqlite config)) ""); simpl; try naive_solver;
    destruct (Z.ltb_spec (PublisherWakeDelay (Sqlite config)) 0); naive_solver lia.
Qed.

Theorem validateConfig_exact config : validateConfig config = Ok tt ↔ valid_config config.
Proof.
  unfold validateConfig. split.
  - intros H. apply result_bind_ok in H as ([] & Hb & H).
    apply result_bind_ok in H as ([] & Hn%wrap_error_ok & H).
    apply result_bind_ok in H as ([] & Hs & H). apply result_bind_ok in H as ([] & Ht & H).
    rewrite reject_if_ok, Z.leb_gt in Ht, H. apply validate_backend_ok in Hb.
    apply (proj1 (name_checks_agree _)) in Hn. split; try done; [naive_solver|..].
    + intros E. rewrite E in Hs. simpl in Hs. apply wrap_error_ok in Hs.
      by apply (proj2 (name_checks_agree _)).
    + intros E. rewrite E in Hb. naive_solver.
  - intros [Hb Hn Hs Hq Ht Hi]. apply (proj1 (name_checks_agree _)) in Hn.
    assert (validate_backend config = Ok tt) as -> by (apply validate_backend_ok; naive_solver).
    simpl. rewrite Hn. simpl.
    destruct (String.eqb_spec (BackendType config) "postgres") as [E|]; simpl.
    + specialize (Hs E). apply (proj2 (name_checks_agree _)) in Hs. rewrite Hs. simpl.
      rewrite (proj2 (Z.leb_gt _ _) Ht). simpl. by rewrite (proj2 (Z.leb_gt _ _) Hi).
    + rewrite (proj2 (Z.leb_gt _ _) Ht). simpl. by rewrite (proj2 (Z.leb_gt _ _) Hi).
Qed.

(** ** Substitution *)

Lemma substring_after a b n : String.substring (String.length a) n (a +:+ b) = String.substring 0 n b.
Proof. induction a as [|c a IH]; [done|]. exact IH. Qed.

Lemma substring_before a b : String.substring 0 (String.length a) (a +:+ b) = a.
Proof. induction a as [|c a IH]; simpl; [by destruct b|]. by rewrite IH. Qed.

Lemma slice_middle a b c :
  slice (a +:+ b +:+ c) (String.length a) (String.length a + String.length b) = Some b.
Proof.
  unfold slice. rewrite !string_length_app. rewrite !(proj2 (Nat.leb_le _ _)) by lia. simpl.
  f_equal. replace (_ + _ - _) with (String.length b) by lia.
  by rewrite substring_after, substring_before.
Qed.

Lemma slice_prefix a b : slice (a +:+ b) 0 (String.length a) = Some a.
Proof. exact (slice_middle "" a b). Qed.

Lemma slice_suffix a c b :
  slice (a +:+ String c b) (S (String.length a)) (String.length (a +:+ String c b)) = Some b.
Proof.
  pose proof (slice_middle (a +:+ String c "") b "") as H.
  rewrite string_app_nil_r, string_app_assoc, string_length_app in H. simpl in H.
  rewrite <-H. rewrite string_length_app. simpl. f_equal; lia.
Qed.

Lemma ends_with_snoc s c : ends_with (s +:+ String c "") c = true.
Proof.
  induction s as [|d s IH]; simpl; [by rewrite Ascii.eqb_refl|].
  destruct (s +:+ String c "") eqn:E; [|done]. by destruct s.
Qed.

(** Neither a colon nor a backtick. *)
Definition plain_char (c : ascii) : bool := negb (Ascii.eqb c ":") && negb (Ascii.eqb c "`").

Lemma colon_pos_plain name rest i :
  string_forallb plain_char name = true →
  colon_pos (name +:+ rest) false i = colon_pos rest false (i + String.length name).
Proof.
  revert i. induction name as [|c name IH]; intros i H; simpl; [by rewrite Nat.add_0_r|].
  simpl in H. apply andb_true_iff in H as [Hc Hn]. unfold plain_char in Hc.
  apply andb_true_iff in Hc as [H1 H2]. apply negb_true_iff in H1, H2. rewrite H1, H2. simpl.
  rewrite IH by done. f_equal. lia.
Qed.


Lemma ReplaceAll_plain name :
  string_forallb plain_char name = true → ReplaceAll name "`" "" = name.
Proof.
  induction name as [|c name IH]; intros H; simpl; [done|]. simpl in H.
  apply andb_true_iff in H as [Hc Hn]. unfold plain_char in Hc.
  apply andb_true_iff in Hc as [_ H2]. apply negb_true_iff in H2. rewrite H2. by rewrite IH.
Qed.

Lemma substitute_content env content :
  substituteEnvVars env ("${" +:+ content +:+ "}")
  = '(envVar, defaultValue) ←
      match colon_pos content false 0 with
      | None => Some (ReplaceAll content "`" "", "")
      | Some i =>
          envVar ← slice (ReplaceAll content "`" "") 0 i;
          defaultValue ← slice (ReplaceAll content "`" "") (S i)
                           (String.length (ReplaceAll content "`" ""));
          Some (envVar, defaultValue)
      end;
    Some (if String.eqb (env envVar) "" then defaultValue else env envVar).
Proof.
  unfold substituteEnvVars.
  assert (HasPrefix ("${" +:+ content +:+ "}") "${" = true) as -> by (by destruct content).
  assert (ends_with ("${" +:+ content +:+ "}") "}" = true) as ->
    by (rewrite <-string_app_assoc; apply ends_with_snoc).
  assert (slice ("${" +:+ content +:+ "}") 2 (String.length ("${" +:+ content +:+ "}") - 1)
          = Some content) as ->; [|done].
  etrans; [|apply (slice_middle "${" content "}")]. f_equal. rewrite !string_length_app. simpl. lia.
Qed.

(** A placeholder [${NAME:default}] stands for the variable, or for the default when the
variable is empty or not set; the backticks that protect colons in the default are removed.
So does [${NAME}], with an empty default; a value of another form is left as it is. *)
Theorem substitute_placeholder env name def :
  string_forallb plain_char name = true →
  substituteEnvVars env ("${" +:+ name +:+ ":" +:+ def +:+ "}")
    = Some (if String.eqb (env name) "" then ReplaceAll def "`" "" else env name)
  ∧ substituteEnvVars env ("${" +:+ name +:+ "}") = Some (env name).
Proof.
  intros Hn. split.
  - replace (name +:+ ":" +:+ def +:+ "}") with ((name +:+ ":" +:+ def) +:+ "}")
      by (by rewrite !string_app_assoc).
    rewrite substitute_content, colon_pos_plain by done. simpl.
    rewrite ReplaceAll_app, (ReplaceAll_plain name) by done. simpl.
    rewrite slice_prefix. simpl. by rewrite slice_suffix.
  - rewrite substitute_content. rewrite <-(string_app_nil_r name) at 1.
    rewrite colon_pos_plain by done. simpl. rewrite ReplaceAll_plain by done.
    by destruct (String.eqb_spec (env name) "") as [->|].
Qed.

(** The colon is looked for before the backticks are removed: backticks in front of it
shift the name and the default, or the slice is out of range and the program panics. *)
Lemma substitute_backtick_before_colon env :
  substituteEnvVars env "${HO`S`T:a-default}"
    = Some (if String.eqb (env "HOST:a") "" then "default" else env "HOST:a")
  ∧ substituteEnvVars env "${`HOST`:}" = None.
Proof. split; reflexivity. Qed.

(** A routes value of the embedded file. *)
Example substitute_routes env :
  env "ORISUN_NATS_CLUSTER_ROUTES" = "" →
  substituteEnvVars env "${ORISUN_NATS_CLUSTER_ROUTES:`nats://0.0.0.0:6223,nats://0.0.0.0:6224`}"
  = Some "nats://0.0.0.0:6223,nats://0.0.0.0:6224".
Proof. intros H. unfold substituteEnvVars. simpl. by rewrite H. Qed.

(** ** What startup makes of an accepted configuration *)

Section Startup.
Context {B : Type}.

Lemma LoadConfig_valid LookupEnv ReadConfig Unmarshal config :
  LoadConfig LookupEnv ReadConfig Unmarshal = Some (Ok config) →
  LookupEnv "ORISUN_PG_DIALECT" = None ∧ valid_config config.
Proof.
  unfold LoadConfig. destruct (LookupEnv "ORISUN_PG_DIALECT"); [done|].
  destruct ReadConfig as [entries|]; [|done]. destruct (mapM _ _) as [values|]; [|done]. simpl.
  destruct (Unmarshal values) as [config'|]; [|done]. intros [= H].
  apply result_bind_ok in H as ([] & H & [= <-]). split; [done|]. by apply validateConfig_exact.
Qed.

(** The steps of the startup that depend on a configuration that was loaded do not fail: the
gate of the event store opens for the admin boundary and for no other, and the PostgreSQL
mapping of the admin boundary has valid names. *)
Lemma loaded_config_starts LookupEnv ReadConfig Unmarshal config (s : EventStore B) :
  LoadConfig LookupEnv ReadConfig Unmarshal = Some (Ok config) → activeBoundaries s = ∅ →
  let admin := Admin_Boundary (Admin config) in
  (∃ s', EnableBoundaryActivationGate (Some s) [admin] = Ok s'
     ∧ ∀ b, RequireBoundaryActive (Some s') b = Ok tt ↔ b = admin)
  ∧ (BackendType config = "postgres" →
     ∀ b m, BootstrapSchemaMapping (Postgres config) admin !! b = Some m →
       validateBoundaryName (Mapping_Boundary m) = Ok tt
       ∧ validateBoundaryName (Mapping_Schema m) = Ok tt).
Proof.
  intros [_ [Hb Hn Hs Hq Ht Hi]]%LoadConfig_valid He admin.
  assert (validate_active [admin] = Ok tt) as Hva
    by (simpl; unfold invalid_active, admin; by rewrite Hn).
  split.
  - eexists. unfold EnableBoundaryActivationGate. rewrite Hva. cbn [mbind result_bind].
    split; [done|]. intros b. simpl. rewrite He. split.
    + destruct (ValidateName b) eqn:Ev; [|done]. case_bool_decide as Hin; [|done]. set_solver.
    + intros ->. unfold admin. rewrite Hn. rewrite bool_decide_true by set_solver. done.
  - intros Hp b m. unfold BootstrapSchemaMapping. rewrite lookup_singleton_Some.
    intros [<- <-]. simpl. split; [|by apply Hs].
    by apply (proj2 (name_checks_agree _)), (proj1 (name_checks_agree _)).
Qed.

End Startup.
