(* ===== verification/Server.v ===== *)
(** * Server: [server/server.go], [server/health.go], [nats/nats.go], [Backoff]

The parts of the server with logic of their own: how the connection to NATS is opened and
released, the health of the gRPC services, the interceptors that compress, recover and
classify, the projectors of the boundaries that are installed, and the default user. The
NATS libraries and the gRPC runtime are met through their answers. *)

From stdpp Require Import options.
From S2P Require Import Prelude Status Model Number Json Predicates Consistency EventData.
From S2P Require Import WriteContext SqlPredicates Sql SqliteStore SqliteLog GroupCommit.
From S2P Require Import SqliteRead SqliteIndex PgStore EventStore Api Auth Users Config.

Set Default Proof Using "Type*".

(** ** [Backoff]: [orisun/eventstore.go] *)

Module Backoff.

(** Durations are nanoseconds. *)
Record t := mk { Base : Z; Max : Z; cur : Z }.

Definition start (b : t) : Z := if (cur b <=? 0)%Z then Base b else cur b.

(** [Wait]: [ctx] is the error of a context that ends first, [jitter] the number drawn; the
result is how long it slept. *)
Definition Wait (ctx : option goerror) (jitter : Z) (b : t) : result Z * t :=
  let c := start b in
  match ctx with
  | Some e => (Err e, mk (Base b) (Max b) c)
  | None =>
      let next := wrap64 (c * 2) in
      (Ok (c + jitter)%Z, mk (Base b) (Max b) (if (Max b <? next)%Z then Max b else next))
  end.

(** What [rand.Int64N] may draw. *)
Definition drawn (b : t) (jitter : Z) : Prop := (0 <= jitter < start b / 2 + 1)%Z.

Definition Reset (b : t) : t := mk (Base b) (Max b) 0.

(** The sleeps of consecutive waits of a live context. *)
Fixpoint waits (jitters : list Z) (b : t) : list Z :=
  match jitters with
  | [] => []
  | j :: jitters =>
      match Wait None j b with
      | (Ok slept, b) => slept :: waits jitters b
      | (Err _, _) => []
      end
  end.

Fixpoint all_drawn (jitters : list Z) (b : t) : Prop :=
  match jitters with
  | [] => True
  | j :: jitters => drawn b j ∧ all_drawn jitters (Wait None j b).2
  end.

(** The intervals double up to [Max], and each sleep adds at most half of its interval. *)
Lemma waits_bounded jitters b :
  (0 < Base b <= Max b)%Z → (Max b <= 2 ^ 61)%Z → (cur b <= Max b)%Z → all_drawn jitters b →
  ∀ (i : nat) slept, waits jitters b !! i = Some slept →
    (Z.min (start b * 2 ^ Z.of_nat i) (Max b) <= slept <= Z.min (start b * 2 ^ Z.of_nat i) (Max b) * 3 / 2)%Z.
Proof.
  revert b. induction jitters as [|j jitters IH]; intros b Hb Hm Hc Hd i slept H; [done|].
  destruct Hd as [Hj Hd].
  unfold drawn in Hj. simpl in H.
  assert (0 < start b <= Max b)%Z as Hs by (unfold start; destruct (Z.leb_spec (cur b) 0); lia).
  assert (wrap64 (start b * 2) = start b * 2)%Z as Hw
    by (apply wrap64_id; unfold is_int64, MinInt64, MaxInt64; lia).
  destruct i as [|i]; simpl in H.
  - injection H as <-. change (2 ^ Z.of_nat 0)%Z with 1%Z. rewrite Z.mul_1_r, Z.min_l by lia.
    assert (start b * 3 / 2 = start b + start b / 2)%Z as ->
      by (replace (start b * 3)%Z with (start b * 2 + start b)%Z by lia;
          by rewrite Z.div_add_l by lia). lia.
  - set (b' := mk (Base b) (Max b) (if (Max b <? wrap64 (start b * 2))%Z then Max b
                                   else wrap64 (start b * 2))) in *.
    assert (start b' = Z.min (start b * 2) (Max b)) as Hb'.
    { unfold start at 1, b'. simpl. rewrite Hw.
      destruct (Z.ltb_spec (Max b) (start b * 2));
        [destruct (Z.leb_spec (Max b) 0)|destruct (Z.leb_spec (start b * 2) 0)]; lia. }
    assert (cur b' <= Max b')%Z as Hcur
      by (unfold b'; simpl; rewrite Hw; destruct (Z.ltb_spec (Max b) (start b * 2)); lia).
    specialize (IH b' Hb Hm Hcur Hd i slept H). rewrite Hb' in IH. change (Max b') with (Max b) in IH.
    replace (Z.min (start b * 2 ^ Z.of_nat (S i)) (Max b))
      with (Z.min (Z.min (start b * 2) (Max b) * 2 ^ Z.of_nat i) (Max b)); [done|].
    rewrite Nat2Z.inj_succ, Z.pow_succ_r by lia.
    assert (0 < 2 ^ Z.of_nat i)%Z by (apply Z.pow_pos_nonneg; lia). nia.
Qed.

End Backoff.

(** ** The connection to NATS: [nats/nats.go] *)

Module NatsRuntime.

(** What is open: connections and embedded servers. *)
Record Resources := mkResources { conns : nat; servers : nat }.

Record Runtime := mkRuntime { rt_Conn : bool; rt_Server : bool; ownsConn : bool }.

(** [options]: what the caller supplied. *)
Record options := mkOptions { opt_url : string; opt_conn : bool; opt_jetStream : bool }.

(** The answers of [jetstream.New], [waitForJetStream], [natsgo.Connect] and of the start of
the embedded server: [server.NewServer] and [ReadyForConnections]. *)
Record Answers := mkAnswers {
  a_new : option goerror; a_wait : option goerror; a_connect : option goerror;
  a_server : option goerror; a_ready : bool }.

Definition open_conn (r : Resources) : Resources := mkResources (S (conns r)) (servers r).
Definition close_conn (r : Resources) : Resources := mkResources (pred (conns r)) (servers r).
Definition open_server (r : Resources) : Resources := mkResources (conns r) (S (servers r)).
Definition shutdown (r : Resources) : Resources := mkResources (conns r) (pred (servers r)).

Definition natsStartupTimeout (timeout : Z) : Z :=
  if (timeout <=? 0)%Z then 30 * 1000000000 else timeout.

Definition startNATSServer (a : Answers) (r : Resources) : result unit * Resources :=
  match a_server a with
  | Some e => (Err e, r)
  | None =>
      if a_ready a then (Ok tt, open_server r)
      else (Err (PlainError "NATS server failed to start"), shutdown (open_server r))
  end.

(** [jetstream.New] and [waitForJetStream]; [release] is what a failure closes. *)
Definition jetstream_on (a : Answers) (release : Resources → Resources) (rt : Runtime)
    (r : Resources) : result Runtime * Resources :=
  match a_new a with
  | Some e => (Err e, release r)
  | None => match a_wait a with
            | Some e => (Err e, release r)
            | None => (Ok rt, r)
            end
  end.

Definition Start (o : options) (a : Answers) (r : Resources) : result Runtime * Resources :=
  if opt_jetStream o then (Ok (mkRuntime false false false), r)
  else if opt_conn o then jetstream_on a id (mkRuntime true false false) r
  else if negb (String.eqb (TrimSpace (opt_url o)) "")
  then match a_connect a with
       | Some e => (Err e, r)
       | None => jetstream_on a close_conn (mkRuntime true false true) (open_conn r)
       end
  else match startNATSServer a r with
       | (Err e, r) => (Err e, r)
       | (Ok _, r) =>
           match a_connect a with
           | Some e => (Err e, shutdown r)
           | None => jetstream_on a (λ r, shutdown (close_conn r)) (mkRuntime true true true)
                       (open_conn r)
           end
       end.

Definition Close (rt : option Runtime) (r : Resources) : Resources :=
  match rt with
  | None => r
  | Some rt =>
      let r := if rt_Conn rt && ownsConn rt then close_conn r else r in
      if rt_Server rt then shutdown r else r
  end.

(** [HealthCheck]: [configured] tells that there is a JetStream context, [closed] that the
connection is closed, [info] is the answer of [AccountInfo]. *)
Definition HealthCheck (rt : option Runtime) (configured closed : bool) (info : option goerror)
  : result unit :=
  match rt with
  | Some rt =>
      if negb configured then Err (PlainError "JetStream runtime is not configured")
      else if rt_Conn rt && closed then Err (PlainError "NATS connection is closed")
      else match info with
           | Some e => Err (Wrapped "query JetStream account info: %w" e)
           | None => Ok tt
           end
  | None => Err (PlainError "JetStream runtime is not configured")
  end.

(** [waitForJetStream]: each attempt tells whether the context has ended before it and the
answers of the stream creation, of the publication and of the wait after a failure. *)
Record Attempt := mkAttempt {
  at_ctx : option goerror; at_create : option goerror; at_publish : option goerror;
  at_pause : option goerror }.

(** [None]: still trying after these attempts. *)
Fixpoint waitForJetStream (attempts : list Attempt) : option (result unit) :=
  match attempts with
  | [] => None
  | a :: attempts =>
      match at_ctx a with
      | Some e => Some (Err e)
      | None =>
          match at_create a, at_publish a with
          | None, None => Some (Ok tt)
          | _, _ => match at_pause a with
                    | Some e => Some (Err e)
                    | None => waitForJetStream attempts
                    end
          end
      end
  end.

(** A start that fails leaves nothing open, and closing a runtime releases exactly what its
start opened: a connection that the caller supplied stays open. *)
Theorem start_releases o a r :
  match Start o a r with
  | (Err _, r') => r' = r
  | (Ok rt, r') => Close (Some rt) r' = r
  end.
Proof.
  destruct r as [c s]. unfold Start, jetstream_on, startNATSServer.
  destruct (opt_jetStream o); [done|].
  destruct (opt_conn o); [by destruct (a_new a), (a_wait a)|].
  destruct (negb _).
  - destruct (a_connect a); [done|]. by destruct (a_new a), (a_wait a).
  - destruct (a_server a); [done|]. destruct (a_ready a); [|done].
    destruct (a_connect a); [done|]. by destruct (a_new a), (a_wait a).
Qed.

(** Waiting ends well only on a live context, after a message was published. *)
Lemma waitForJetStream_published attempts :
  waitForJetStream attempts = Some (Ok tt) →
  ∃ a, a ∈ attempts ∧ at_ctx a = None ∧ at_create a = None ∧ at_publish a = None.
Proof.
  induction attempts as [|a attempts IH]; [done|]. simpl. intros H.
  destruct (at_ctx a) eqn:Hc; [done|].
  destruct (at_create a) eqn:Hr, (at_publish a) eqn:Hp;
    try (exists a; split_and!; [left|done..]);
    (destruct (at_pause a); [done|]; destruct (IH H) as (b & ? & ?); exists b; split; [by right|done]).
Qed.

End NatsRuntime.

(** ** Health: [server/health.go] *)

Inductive ServingStatus := NOT_SERVING | SERVING.
#[export] Instance ServingStatus_eq_dec : EqDecision ServingStatus.
Proof. solve_decision. Defined.

(** The statuses that the health service answers with, by service. *)
Notation HealthServer := (gmap string ServingStatus) (only parsing).

Definition grpcHealthServices : list string := [""; "orisun.EventStore"; "orisun.Admin"].

Definition setGRPCHealthStatus (server : HealthServer) (status : ServingStatus) : HealthServer :=
  foldl (λ server service, <[service := status]> server) server grpcHealthServices.

Definition newGRPCHealthServer : HealthServer := setGRPCHealthStatus ∅ NOT_SERVING.

(** A probe: its name, and the answer of its check; [None] when the check is nil. *)
Record grpcHealthProbe := mkProbe { probe_name : string; probe_check : option (option goerror) }.

Fixpoint refreshGRPCHealth (server : HealthServer) (probes : list grpcHealthProbe)
  : option goerror * HealthServer :=
  match probes with
  | [] => (None, setGRPCHealthStatus server SERVING)
  | probe :: probes =>
      match probe_check probe with
      | None => (Some (PlainError "%s: health probe is not configured"),
                 setGRPCHealthStatus server NOT_SERVING)
      | Some (Some e) => (Some (Wrapped "%s: %w" e), setGRPCHealthStatus server NOT_SERVING)
      | Some None => refreshGRPCHealth server probes
      end
  end.

(** [monitorGRPCHealth]: the ticks of its ticker, with the probes of each, and the errors that
[onTransition] is called with; [None] reports a recovery. *)
Fixpoint monitorGRPCHealth (ticks : list (list grpcHealthProbe)) (wasReady : bool)
    (server : HealthServer) (reported : list (option goerror))
  : bool * HealthServer * list (option goerror) :=
  match ticks with
  | [] => (wasReady, server, reported)
  | probes :: ticks =>
      let '(err, server) := refreshGRPCHealth server probes in
      let ready := bool_decide (err = None) in
      if Bool.eqb ready wasReady then monitorGRPCHealth ticks wasReady server reported
      else monitorGRPCHealth ticks ready server (reported ++ [err])
  end.

Definition probe_passes (p : grpcHealthProbe) : bool :=
  match probe_check p with Some None => true | _ => false end.

Lemma setGRPCHealthStatus_lookup server status service :
  service ∈ grpcHealthServices → setGRPCHealthStatus server status !! service = Some status.
Proof.
  intros H%list_elem_of_In. unfold setGRPCHealthStatus, grpcHealthServices. cbn [foldl].
  destruct H as [<-|[<-|[<-|[]]]]; rewrite ?lookup_insert_ne by discriminate;
    apply lookup_insert_eq.
Qed.

(** Every service is reported as serving exactly when all the probes pass. *)
Theorem health_follows_probes server probes :
  let '(err, server') := refreshGRPCHealth server probes in
  (err = None ↔ forallb probe_passes probes = true)
  ∧ ∀ service, service ∈ grpcHealthServices →
      server' !! service = Some (if forallb probe_passes probes then SERVING else NOT_SERVING).
Proof.
  induction probes as [|p probes IH]; simpl.
  - split; [done|]. intros. by apply setGRPCHealthStatus_lookup.
  - unfold probe_passes at 1 3. destruct (probe_check p) as [[e|]|]; simpl; [|done|];
      (split; [done|]; intros; by apply setGRPCHealthStatus_lookup).
Qed.

(** Reports that alternate between failure and recovery, starting from a known readiness. *)
Fixpoint alternating (ready : bool) (reported : list (option goerror)) : Prop :=
  match reported with
  | [] => True
  | err :: reported =>
      bool_decide (err = None) ≠ ready ∧ alternating (bool_decide (err = None)) reported
  end.

(** The readiness after the reports. *)
Fixpoint readiness (ready : bool) (reported : list (option goerror)) : bool :=
  match reported with
  | [] => ready
  | err :: reported => readiness (bool_decide (err = None)) reported
  end.

Lemma alternating_snoc ready reported err :
  alternating ready reported → bool_decide (err = None) ≠ readiness ready reported →
  alternating ready (reported ++ [err]) ∧
  readiness ready (reported ++ [err]) = bool_decide (err = None).
Proof.
  revert ready. induction reported as [|e l IH]; intros ready; simpl; [done|].
  intros [He Hl] H. destruct (IH _ Hl H) as [H1 H2]. by split_and!.
Qed.

(** Transitions are reported once each, in alternation, and the last report tells the
current readiness. *)
Lemma monitor_reports ticks initial ready server reported ready' server' reported' :
  alternating initial reported → readiness initial reported = ready →
  monitorGRPCHealth ticks ready server reported = (ready', server', reported') →
  alternating initial reported' ∧ readiness initial reported' = ready'.
Proof.
  revert ready server reported.
  induction ticks as [|probes ticks IH]; intros ready server reported Ha Hr H; simpl in H.
  { by injection H as <- <- <-. }
  destruct (refreshGRPCHealth server probes) as [err server1].
  destruct (Bool.eqb (bool_decide (err = None)) ready) eqn:E; [by eapply IH|].
  apply eqb_false_iff in E.
  destruct (alternating_snoc initial reported err Ha) as [H1 H2]; [by rewrite Hr|].
  by eapply IH; [exact H1|exact H2|].
Qed.

(** ** Interceptors *)

(** What a handler hands to gRPC: a status error, or another error. *)
Definition rpc_error : Type := GrpcCode * string + goerror.

(** [streamErrorInterceptor]: [status.FromError] succeeds on status errors. *)
Definition streamErrorInterceptor (err : option rpc_error) : option rpc_error :=
  match err with
  | None => None
  | Some (inl st) => Some (inl st)
  | Some (inr _) => Some (inl (GInternal, "Error: %v"))
  end.

(** [recoveryInterceptor]: [None] is a panic of the handler. *)
Definition recoveryInterceptor {A} (r : option (A + rpc_error)) : A + rpc_error :=
  match r with
  | None => inr (inl (GInternal, "Internal server error"))
  | Some r => r
  end.

(** [clientAcceptsGzip]: the values of [grpc-accept-encoding]; [None] without metadata. *)
Definition clientAcceptsGzip (md : option (list string)) : bool :=
  match md with
  | None => false
  | Some values =>
      existsb (λ ae, existsb (λ enc, String.eqb (TrimSpace enc) "gzip") (Split ae ",")) values
  end.

(** The compression interceptors: the compressor that is set before the handler runs. *)
Definition compressionInterceptor (md : option (list string)) : option string :=
  if clientAcceptsGzip md then Some "gzip" else None.

Example gzip_accepted :
  clientAcceptsGzip (Some ["deflate, gzip"]) = true ∧ clientAcceptsGzip (Some ["x-gzip"]) = false.
Proof. vm_compute. split; reflexivity. Qed.

(** ** What the server tells about itself *)

Inductive StorageBackend :=
  STORAGE_BACKEND_POSTGRES | STORAGE_BACKEND_SQLITE | STORAGE_BACKEND_UNSPECIFIED.

Definition grpcStorageBackend (backend : string) : StorageBackend :=
  if String.eqb backend "postgres" then STORAGE_BACKEND_POSTGRES
  else if String.eqb backend "sqlite" then STORAGE_BACKEND_SQLITE
  else STORAGE_BACKEND_UNSPECIFIED.

(** A server that runs on an accepted configuration names its backend. *)
Lemma backend_named config :
  validateConfig config = Ok tt →
  grpcStorageBackend (BackendType config) ≠ STORAGE_BACKEND_UNSPECIFIED.
Proof. intros [[-> | ->] _ _ _ _ _]%validateConfig_exact; done. Qed.

(** ** Projectors of the boundaries *)

(** [eventCountProjectionManager], and what [Run] shares with it: the boundaries that are
provisioned, the manager once it is created, the projectors that were started, and the
calls of [StartBoundary] that [installBoundary] makes after it has released the lock. *)
Record Projectors := mkProjectors {
  provisionedBoundaries : gset string;
  eventCountProjectors : option (gset string);   (* [running] of the manager *)
  started : list string;
  calls : list string }.

(** [StartBoundary] of a manager that is not nil. *)
Definition StartBoundary (boundary : string) (running : gset string) (started : list string)
  : gset string * list string :=
  if bool_decide (boundary ∈ running) then (running, started)
  else ({[boundary]} ∪ running, started ++ [boundary]).

(** The locked part of [installBoundary], after the backend has installed the boundary and its
relay has started. *)
Definition installBoundary (boundary : string) (p : Projectors) : Projectors :=
  mkProjectors ({[boundary]} ∪ provisionedBoundaries p) (eventCountProjectors p) (started p)
    (match eventCountProjectors p with
     | Some _ => calls p ++ [boundary]
     | None => calls p
     end).

(** The rest of [installBoundary], for one of the calls that are under way. *)
Definition start_installed (i : nat) (p : Projectors) : option Projectors :=
  boundary ← calls p !! i;
  running ← eventCountProjectors p;
  let '(running, started) := StartBoundary boundary running (started p) in
  Some (mkProjectors (provisionedBoundaries p) (Some running) started (delete i (calls p))).

(** The creation of the manager: it starts what is provisioned, in the order of the map. *)
Definition create_manager (order : list string) (p : Projectors) : Projectors :=
  let '(running, started) :=
    foldl (λ '(running, started) boundary, StartBoundary boundary running started)
      (∅, started p) order in
  mkProjectors (provisionedBoundaries p) (Some running) started (calls p).

Definition first_projectors (adminBoundary : string) : Projectors :=
  mkProjectors {[adminBoundary]} None [] [].

Inductive projectors_step : Projectors → Projectors → Prop :=
  | ps_install boundary p : projectors_step p (installBoundary boundary p)
  | ps_start i p p' : start_installed i p = Some p' → projectors_step p p'
  | ps_manager order p :
      eventCountProjectors p = None → (∀ b, b ∈ order ↔ b ∈ provisionedBoundaries p) →
      projectors_step p (create_manager order p).

Record projectors_inv (p : Projectors) : Prop := {
  pi_once : NoDup (started p);
  pi_before : eventCountProjectors p = None → started p = [] ∧ calls p = [];
  pi_after running : eventCountProjectors p = Some running →
    (∀ b, b ∈ running ↔ b ∈ started p)
    ∧ ∀ b, b ∈ provisionedBoundaries p ↔ b ∈ started p ∨ b ∈ calls p }.

Lemma StartBoundary_spec boundary running started running' started' :
  NoDup started → (∀ b, b ∈ running ↔ b ∈ started) →
  StartBoundary boundary running started = (running', started') →
  NoDup started' ∧ (∀ b, b ∈ running' ↔ b ∈ started')
  ∧ ∀ b, b ∈ started' ↔ b = boundary ∨ b ∈ started.
Proof.
  unfold StartBoundary. intros Hd Hr H. case_bool_decide as Hin; injection H as <- <-.
  - split_and!; [done..|]. intros b. split; [by right|]. intros [-> |?]; [by apply Hr|done].
  - split_and!.
    + apply NoDup_app. split_and!; [done| |apply NoDup_singleton].
      intros b Hb ->%list_elem_of_singleton. by apply Hin, Hr.
    + set_solver.
    + set_solver.
Qed.

Lemma start_order order running started running' started' :
  NoDup started → (∀ b, b ∈ running ↔ b ∈ started) →
  foldl (λ '(running, started) boundary, StartBoundary boundary running started)
    (running, started) order = (running', started') →
  NoDup started' ∧ (∀ b, b ∈ running' ↔ b ∈ started')
  ∧ ∀ b, b ∈ started' ↔ b ∈ order ∨ b ∈ started.
Proof.
  revert running started. induction order as [|x order IH]; intros running started Hd Hr H; simpl in H.
  { injection H as <- <-. split_and!; [done..|]. set_solver. }
  destruct (StartBoundary x running started) as [r1 s1] eqn:E.
  apply StartBoundary_spec in E as (H1 & H2 & H3); [|done..].
  destruct (IH _ _ H1 H2 H) as (H4 & H5 & H6). split_and!; [done..|].
  intros b. rewrite H6, H3. set_solver.
Qed.

Lemma projectors_inv_step p p' : projectors_inv p → projectors_step p p' → projectors_inv p'.
Proof.
  intros [Hd Hb Ha] H. destruct H as [boundary p|i p p' H|order p Hn Ho].
  - unfold installBoundary. destruct (eventCountProjectors p) as [running|] eqn:E; split; simpl;
      try done.
    intros r [= <-]. destruct (Ha running eq_refl) as [H1 H2]. split; [done|]. set_solver.
  - unfold start_installed in H. destruct (calls p !! i) as [boundary|] eqn:Hi; [|done].
    destruct (eventCountProjectors p) as [running|] eqn:E; [|done]. simpl in H.
    destruct (Ha running eq_refl) as [H1 H2].
    destruct (StartBoundary boundary running (started p)) as [r1 s1] eqn:Es.
    apply StartBoundary_spec in Es as (H3 & H4 & H5); [|done..]. injection H as <-.
    assert (∀ b, b ∈ calls p ↔ b = boundary ∨ b ∈ delete i (calls p)) as Hp.
    { intros b. pose proof (delete_Permutation (calls p) i boundary Hi) as Hperm.
      rewrite Hperm at 1. set_solver. }
    split; simpl; [done..|]. intros r [= <-]. split; [done|]. intros b. rewrite H2, H5, Hp.
    tauto.
  - destruct (Hb Hn) as [Hs Hc]. unfold create_manager. rewrite Hs.
    destruct (foldl _ _ order) as [r1 s1] eqn:E.
    apply start_order in E as (H3 & H4 & H5); [|by constructor|set_solver].
    split; simpl; [done..|]. intros r [= <-]. split; [done|]. intros b. rewrite Hc, H5, Ho.
    set_solver.
Qed.

(** However the installation of boundaries and the creation of the manager interleave, no
boundary gets two projectors; and once the manager exists and no installation is under way,
every provisioned boundary has its projector. *)
Theorem boundary_projectors adminBoundary p :
  rtc projectors_step (first_projectors adminBoundary) p →
  NoDup (started p)
  ∧ (is_Some (eventCountProjectors p) → calls p = [] →
     ∀ b, b ∈ provisionedBoundaries p ↔ b ∈ started p).
Proof.
  intros H. assert (projectors_inv p) as [Hd _ Ha].
  { assert (projectors_inv (first_projectors adminBoundary)) as Hinv
      by (split; simpl; [constructor|done|done]).
    induction H as [|p1 p2 p3 H _ IH]; [done|]. apply IH. by eapply projectors_inv_step. }
  split; [done|]. intros [running Hr] Hc b. destruct (Ha running Hr) as [_ H2].
  rewrite H2, Hc. set_solver.
Qed.

(** ** The default user *)

Section DefaultUser.
Context `{J : GoJson} {B : Type}.

Definition createDefaultUser (hash : string → result string) (newUserId eventId : result string)
    (adminBoundary : string) (s : EventStore B) (ctx : Ctx) (w : World B)
  : result unit * World B :=
  match CreateUser hash newUserId eventId s ctx "admin" "admin" "changeit" [RoleAdmin]
          adminBoundary None w with
  | (Err e, w) => (if decide (e = user_exists "admin") then Ok tt else Err e, w)
  | (Ok _, w) => (Ok tt, w)
  end.

(** The call of [Run]. *)
Definition run_default_user (config : AppConfig) (hash : string → result string)
    (newUserId eventId : result string) (s : EventStore B) (ctx : Ctx) (w : World B)
  : result unit * World B :=
  createDefaultUser hash newUserId eventId (Admin_Boundary (Admin config)) s ctx w.

(** The user that the server creates has the password [changeit], whatever the admin
credentials of the configuration are. *)
Lemma default_password_fixed (config : AppConfig) hash newUserId eventId (s : EventStore B) ctx
    (w : World B) u w' :
  CreateUser hash newUserId eventId s ctx "admin" "admin" "changeit" [RoleAdmin]
    (Admin_Boundary (Admin config)) None w = (Ok u, w') →
  run_default_user config hash newUserId eventId s ctx w = (Ok tt, w')
  ∧ UC_Username u = "admin" ∧ UC_Roles u = [RoleAdmin] ∧ hash "changeit" = Ok (UC_PasswordHash u).
Proof.
  intros H. unfold run_default_user, createDefaultUser. rewrite H. split; [done|].
  unfold CreateUser in H. destruct (CreateUser_decide _ _ _ _ _ _ _ _ _ _ _ _) as [[u' req]|] eqn:E;
    [|done].
  destruct (SaveEventsV2 _ _ _ _) as [[]]; [|done]. injection H as -> _.
  unfold CreateUser_decide in E. apply result_bind_ok in E as (found & _ & E).
  apply result_bind_ok in E as (created & _ & E). apply result_bind_ok in E as (deleted & _ & E).
  apply result_bind_ok in E as (userId & _ & E). apply result_bind_ok in E as (evts & Hh & E).
  apply result_bind_ok in E as (saves & _ & E). unfold createUserCommandHandler in Hh.
  destruct (_ && _); [done|]. apply result_bind_ok in Hh as (h & Hh & [= <-]).
  injection E as <- _. simpl. by split_and!.
Qed.

End DefaultUser.

(** ** Examples *)

#[local] Existing Instances example_json example_stored_json example_sql_text example_sqlitex
  example_time.

(** Starting the server again does not create the user again. *)
Example default_user_once :
  let start w := createDefaultUser admin_hash (Ok "u-1") (Ok "e-1") "admin" admin_store
                   (mkCtx None None) w in
  let first := start admin_world in
  first.1 = Ok tt ∧ (start first.2).1 = Ok tt ∧ backend (start first.2).2 = backend first.2
  ∧ (length ∘ t_events ∘ c_tables <$> (backend first.2 !! "admin")) = Some 1.
Proof. vm_compute. split_and!; reflexivity. Qed.

(** A boundary that is installed while the manager is being created gets one projector. *)
Example projectors_handover :
  ∃ p, rtc projectors_step (first_projectors "admin") p
    ∧ started p = ["admin"; "orders"] ∧ calls p = [].
Proof.
  eexists. split.
  - eapply rtc_l; [apply (ps_install "orders")|].
    eapply rtc_l; [apply (ps_manager ["admin"; "orders"]); [done|]; simpl; set_solver|].
    eapply rtc_l; [apply (ps_install "orders")|].
    eapply rtc_l; [apply (ps_start 0); reflexivity|]. apply rtc_refl.
  - vm_compute. split; reflexivity.
Qed.
