(* ===== verification/CountProjectors.v ===== *)
(** * The loops of the counting projectors: [admin/slices/dashboard/event_count],
[admin/slices/dashboard/user_count], [admin/auth.go]

What a projector subscribes to, and the loop in which its handler retries an event: the
event is projected, then the checkpoint is saved, and after a failure of either the loop
waits and starts again with the projection. *)

From stdpp Require Import options.
From S2P Require Import Prelude Status Model Number Json Predicates Consistency EventData.
From S2P Require Import WriteContext SqlPredicates Sql SqliteStore SqliteLog GroupCommit.
From S2P Require Import SqliteRead SqliteIndex EventStore Api Subscription Auth Users SqliteAdmin.
From S2P Require Import Projections.

Set Default Proof Using "Type*".

(** ** Subscriptions *)

Definition projectorNameForBoundary (boundary : string) : string :=
  "Event_Count_Projection" +:+ "__" +:+ boundary.

Definition user_count_projector_name : string := "User_Count_Projection".

(** [Start] of the two projections, up to the subscription: the request, from the saved
checkpoint; the database answers with a position even when there is none. *)
Definition EventCount_Start (fault : option goerror) (boundary : string) (a : SqliteAdminDB)
  : result SubscribeRequest :=
  let projectorName := projectorNameForBoundary boundary in
  pos ← GetProjectorLastPosition fault projectorName a;
  mret (mkSubscribe boundary projectorName
          (Some (mkPosition (CommitPosition pos) (PreparePosition pos))) []).

Definition UserCount_Start (fault : option goerror) (boundary : string) (a : SqliteAdminDB)
  : result SubscribeRequest :=
  pos ← GetProjectorLastPosition fault user_count_projector_name a;
  mret (mkSubscribe boundary user_count_projector_name
          (Some (mkPosition (CommitPosition pos) (PreparePosition pos))) []).

(** [AuthUserProjector.Start]: a name of its own for every run, and no position, so that it
starts with the events after the subscription; [uuid] is the fresh identifier. *)
Definition AuthUserProjector_Start (uuid boundary : string) : SubscribeRequest :=
  mkSubscribe boundary ("auth-user-projector-" +:+ uuid) None [].

(** ** The handler loop *)

Section Loop.
Context {S F : Type} (project : F → S → result unit * S)
  (checkpoint : option goerror → S → result unit * S).

(** A turn of the loop: what the projection meets, what the checkpoint meets, and the error of
a context that ends during the wait after a failure. *)
Record Turn := mkTurn {
  turn_project : F; turn_checkpoint : option goerror; turn_ctx : option goerror }.

(** [None]: the loop is still running after these turns. *)
Fixpoint handler_loop (turns : list Turn) (s : S) : option (result unit) * S :=
  match turns with
  | [] => (None, s)
  | turn :: turns =>
      let retry s := match turn_ctx turn with
                     | Some e => (Some (Err e), s)
                     | None => handler_loop turns s
                     end in
      match project (turn_project turn) s with
      | (Err _, s) => retry s
      | (Ok _, s) =>
          match checkpoint (turn_checkpoint turn) s with
          | (Err _, s) => retry s
          | (Ok _, s) => (Some (Ok tt), s)
          end
      end
  end.

(** A handler that accepts an event has saved its checkpoint last. *)
Lemma handler_loop_checkpoint turns s s' :
  handler_loop turns s = (Some (Ok tt), s') →
  ∃ f fault s1 s2, project f s1 = (Ok tt, s2) ∧ checkpoint fault s2 = (Ok tt, s').
Proof.
  revert s. induction turns as [|turn turns IH]; intros s H; [done|]. simpl in H.
  destruct (project (turn_project turn) s) as [[[]|e] s1] eqn:Hp.
  - destruct (checkpoint (turn_checkpoint turn) s1) as [[[]|e] s2] eqn:Hc.
    + injection H as <-. by exists (turn_project turn), (turn_checkpoint turn), s, s1.
    + destruct (turn_ctx turn); [done|]. by apply (IH s2).
  - destruct (turn_ctx turn); [done|]. by apply (IH s1).
Qed.

(** The loop of [AuthUserProjector.Start], which keeps no checkpoint; each turn has the error of
a context that ends during the wait. *)
Fixpoint retry_loop (handle : S → result unit * S) (waits : list (option goerror)) (s : S)
  : option (result unit) * S :=
  match waits with
  | [] => (None, s)
  | wait :: waits =>
      match handle s with
      | (Ok _, s) => (Some (Ok tt), s)
      | (Err _, s) => match wait with
                      | Some e => (Some (Err e), s)
                      | None => retry_loop handle waits s
                      end
      end
  end.

End Loop.
Arguments Turn : clear implicits.

(** The handlers of the two projections. *)
Definition EventCount_handler (boundary : string) (event : ReadEvent)
  : list (Turn (option goerror * option goerror * option goerror * option goerror
                * option goerror)) → SqliteAdminDB → option (result unit) * SqliteAdminDB :=
  handler_loop
    (λ '(take, cacheFault, fault, save, id) a,
       EventCount_Project take cacheFault fault save id boundary a)
    (λ fault a, UpdateProjectorPosition fault (projectorNameForBoundary boundary)
                  (RE_Position event) a).

Definition UserCount_handler (event : ReadEvent)
  : list (Turn (option goerror * option goerror * option goerror)) → SqliteAdminDB →
    option (result unit) * SqliteAdminDB :=
  handler_loop
    (λ '(get, save, id) a, UserCount_Project get save id event a)
    (λ fault a, UpdateProjectorPosition fault user_count_projector_name (RE_Position event) a).

(** ** An event is counted once per turn *)

Lemma CutPrefix_app p s : CutPrefix (p +:+ s) p = Some s.
Proof. induction p as [|c p IH]; [by destruct s|]. simpl. by rewrite Ascii.eqb_refl. Qed.

Lemma event_count_pool a boundary conn m :
  counted a boundary conn m → poolForProjectorName a (projectorNameForBoundary boundary) = boundary.
Proof.
  intros [_ Hm]. unfold poolForProjectorName, projectorNameForBoundary.
  rewrite <-string_app_assoc. change ("Event_Count_Projection" +:+ "__")
    with "Event_Count_Projection__". rewrite CutPrefix_app.
  rewrite bool_decide_true; [done|]. left. by eexists.
Qed.

Lemma event_checkpoint fault pos a boundary conn m :
  counted a boundary conn m →
  match UpdateProjectorPosition fault (projectorNameForBoundary boundary) pos a with
  | (Ok _, a') => fault = None ∧ ∃ m', counted a' boundary conn m'
      ∧ mt_events_count m' = mt_events_count m
      ∧ mt_checkpoints m' !! projectorNameForBoundary boundary = Some pos
  | (Err _, a') => is_Some fault ∧ a' = a
  end.
Proof.
  intros Hc. unfold UpdateProjectorPosition. rewrite (event_count_pool _ _ _ _ Hc).
  destruct Hc as [He Hm]. unfold meta_statement. rewrite Hm. destruct fault as [e|].
  - split; [by eexists|done].
  - split; [done|]. eexists. split; [split; simpl; [done|apply lookup_insert_eq]|].
    simpl. split; [done|apply lookup_insert_eq].
Qed.

(** A turn without failures of the tables, whose checkpoint meets [fault]. *)
Definition counting_turn (fault : option goerror)
  : Turn (option goerror * option goerror * option goerror * option goerror * option goerror) :=
  mkTurn (None, None, None, None, None) fault None.

(** The projection is not idempotent: an event whose checkpoint fails [k] times before it is
saved raises the count by [k + 1]. *)
Theorem failed_checkpoint_counts_again a boundary conn m n event faults :
  counted a boundary conn m → mt_events_count m !! boundary = Some n → (0 <= n)%Z →
  (n + Z.of_nat (length faults) + 1 <= MaxInt64)%Z →
  ∃ a', EventCount_handler boundary event
          ((counting_turn ∘ Some <$> faults) ++ [counting_turn None]) a = (Some (Ok tt), a')
    ∧ GetEventsCount None None None boundary a' = Ok (n + Z.of_nat (length faults) + 1)%Z
    ∧ GetProjectorLastPosition None (projectorNameForBoundary boundary) a'
      = Ok (RE_Position event).
Proof.
  revert a m n. induction faults as [|e faults IH]; intros a m n Hc Hn Hn0 Hmax; simpl in Hmax.
  all: destruct (EventCount_Project_step _ _ _ _ Hc) as (Hget & m1 & Hc1 & Hm1);
    rewrite Hn in Hget, Hm1; simpl in Hget, Hm1;
    rewrite wrap64_id in Hm1 by (unfold is_int64, MinInt64, MaxInt64 in *; lia);
    assert ((EventCount_Project None None None None None boundary a).1 = Ok tt) as Hok
      by (unfold EventCount_Project; by rewrite Hget);
    unfold EventCount_handler; simpl;
    destruct (EventCount_Project None None None None None boundary a) as [r1 a1];
    simpl in Hok, Hc1; subst r1.
  - pose proof (event_checkpoint None (RE_Position event) _ _ _ _ Hc1) as H.
    destruct (UpdateProjectorPosition _ _ _ a1) as [[[]|e] a2]; [|by destruct H as [[? ?] _]].
    destruct H as (_ & m2 & Hc2 & Hcount & Hpos). exists a2. split; [done|].
    destruct (EventCount_Project_step _ _ _ _ Hc2) as [-> _]. rewrite Hcount, Hm1. simpl.
    split; [f_equal; lia|]. unfold GetProjectorLastPosition.
    rewrite (event_count_pool _ _ _ _ Hc2). unfold meta_query. rewrite (ct_meta _ _ _ _ Hc2).
    by rewrite Hpos.
  - pose proof (event_checkpoint (Some e) (RE_Position event) _ _ _ _ Hc1) as H.
    destruct (UpdateProjectorPosition _ _ _ a1) as [[[]|e1] a2]; [by destruct H|].
    destruct H as [_ ->]. destruct (IH a1 m1 (n + 1)%Z Hc1 Hm1) as (a' & Hr & Hg & Hp); [lia..|].
    exists a'. split; [exact Hr|]. split; [|done]. rewrite Hg. simpl. f_equal. lia.
Qed.

(** The checkpoint that [Start] resumes from is the one that the handler saved. *)
Lemma event_count_resumes a boundary pos :
  GetProjectorLastPosition None (projectorNameForBoundary boundary) a = Ok pos →
  EventCount_Start None boundary a
  = Ok (mkSubscribe boundary (projectorNameForBoundary boundary) (Some pos) []).
Proof. intros H. unfold EventCount_Start. rewrite H. by destruct pos. Qed.

(** ** Witness *)

Definition example_recounting : SqliteAdminDB :=
  newSqliteAdminDBWithRegistry {[ "orders" := example_connA ]}
    {[ "orders" := mkMetaTables ∅ ∅ ∅ {[ "orders" := 4%Z ]} ]} "orders".

Lemma failed_checkpoint_counts_again_witness :
  ∃ a', EventCount_handler "orders" (example_read_event "OrderPlaced" [] 5)
          [counting_turn (Some (PlainError "busy")); counting_turn None] example_recounting
        = (Some (Ok tt), a')
    ∧ GetEventsCount None None None "orders" a' = Ok 6%Z
    ∧ GetProjectorLastPosition None (projectorNameForBoundary "orders") a'
      = Ok (mkPosition 5 5).
Proof.
  apply (failed_checkpoint_counts_again example_recounting "orders" example_connA
    (mkMetaTables ∅ ∅ ∅ {[ "orders" := 4%Z ]}) 4 (example_read_event "OrderPlaced" [] 5)
    [PlainError "busy"]).
  - by constructor.
  - reflexivity.
  - lia.
  - vm_compute. discriminate.
Defined.
