(* ===== verification/Streams.v ===== *)
(** * Buffered streams: [orisun/common.go], [orisun/stream.go]

[MessageHandler] and [CustomEventStream]: a buffered channel with a context. A send checks
the context and the closed flag, and then waits for room, so that the handler may be closed
between the two; a receive waits for a message or for the end of the context. *)

From stdpp Require Import options.
From S2P Require Import Prelude Status.

Set Default Proof Using "Type*".

Section Streams.
Context {T : Type}.

(** The two ways to send. *)
Inductive send_kind := KSend | KTrySend.

(** [MessageHandler]: the capacity of the channel, the error of the context, the closed flag
and the messages in the channel; the sends that have passed their check; and, for the
statements, what was sent and received. *)
Record MessageHandler := mkHandler {
  h_capacity : nat; h_ctx : option goerror; h_closed : bool; h_events : list T;
  h_senders : list (send_kind * T); h_sent : list T; h_received : list T }.

Definition new_handler (capacity : nat) : MessageHandler :=
  mkHandler capacity None false [] [] [] [].

Definition NewMessageHandler : MessageHandler := new_handler 100.

Definition NewMessageHandlerWithBuffer (bufferSize : Z) : MessageHandler :=
  new_handler (Z.to_nat (if (bufferSize <=? 0)%Z then 1 else bufferSize)).

Definition ErrQueueFull : goerror := Sentinel "message handler queue full".

(** The checks at the start of [Send] and [TrySend]. *)
Definition send_check (h : MessageHandler) : result unit :=
  match h_ctx h with
  | Some e => Err e
  | None => if h_closed h then Err (PlainError "message handler closed") else Ok tt
  end.

Definition begin_send (k : send_kind) (event : T) (h : MessageHandler)
  : result unit * MessageHandler :=
  match send_check h with
  | Err e => (Err e, h)
  | Ok _ => (Ok tt, mkHandler (h_capacity h) (h_ctx h) (h_closed h) (h_events h)
                      (h_senders h ++ [(k, event)]) (h_sent h) (h_received h))
  end.

Definition end_send (i : nat) (h : MessageHandler) : MessageHandler :=
  mkHandler (h_capacity h) (h_ctx h) (h_closed h) (h_events h) (delete i (h_senders h))
    (h_sent h) (h_received h).

Definition room (h : MessageHandler) : bool := length (h_events h) <? h_capacity h.

(** The select of the [i]-th send: [ready] chooses the context when both cases are ready.
[None]: the send blocks. *)
Definition finish_send (i : nat) (ready : bool) (h : MessageHandler)
  : option (result unit * MessageHandler) :=
  '(k, event) ← h_senders h !! i;
  let enqueue := Some (Ok tt, let h' := end_send i h in
    mkHandler (h_capacity h') (h_ctx h') (h_closed h') (h_events h' ++ [event]) (h_senders h')
      (h_sent h' ++ [event]) (h_received h')) in
  match k, h_ctx h with
  | KTrySend, _ => if room h then enqueue else Some (Err ErrQueueFull, end_send i h)
  | KSend, Some e =>
      if ready || negb (room h) then Some (Err e, end_send i h) else enqueue
  | KSend, None => if room h then enqueue else None
  end.

(** [Recv]: [ready] chooses the context when both cases are ready; [None]: it blocks. The
channel is never closed. *)
Definition Recv (ready : bool) (h : MessageHandler) : option (result T * MessageHandler) :=
  match h_ctx h, h_events h with
  | Some e, [] => Some (Err e, h)
  | None, [] => None
  | ctx, event :: events =>
      match ctx, ready with
      | Some e, true => Some (Err e, h)
      | _, _ => Some (Ok event, mkHandler (h_capacity h) (h_ctx h) (h_closed h) events
                                  (h_senders h) (h_sent h) (h_received h ++ [event]))
      end
  end.

(** [Close], and the goroutine that closes the handler when its context has ended. *)
Definition Close (h : MessageHandler) : MessageHandler :=
  mkHandler (h_capacity h) (h_ctx h) true (h_events h) (h_senders h) (h_sent h) (h_received h).

Definition end_context (e : goerror) (h : MessageHandler) : MessageHandler :=
  mkHandler (h_capacity h) (Some (default e (h_ctx h))) (h_closed h) (h_events h) (h_senders h)
    (h_sent h) (h_received h).

Inductive handler_step : MessageHandler → MessageHandler → Prop :=
  | hs_begin k event h r h' : begin_send k event h = (r, h') → handler_step h h'
  | hs_finish i ready h r h' : finish_send i ready h = Some (r, h') → handler_step h h'
  | hs_recv ready h r h' : Recv ready h = Some (r, h') → handler_step h h'
  | hs_close h : handler_step h (Close h)
  | hs_context e h : handler_step h (end_context e h)
  | hs_watch h : is_Some (h_ctx h) → handler_step h (Close h).

Record handler_inv (h : MessageHandler) : Prop := {
  hi_fifo : h_sent h = h_received h ++ h_events h;
  hi_bound : length (h_events h) ≤ h_capacity h }.

Lemma enqueue_inv (h : MessageHandler) i event :
  handler_inv h → room h = true →
  handler_inv (mkHandler (h_capacity h) (h_ctx h) (h_closed h) (h_events h ++ [event])
    (delete i (h_senders h)) (h_sent h ++ [event]) (h_received h)).
Proof.
  intros [Hf Hb] Hr%Nat.ltb_lt. split; simpl; [by rewrite Hf, (assoc_L (++))|].
  rewrite length_app. simpl. lia.
Qed.

Lemma handler_inv_step h h' : handler_inv h → handler_step h h' → handler_inv h'.
Proof.
  intros Hi H. pose proof Hi as [Hf Hb].
  destruct H as [k event h r h' H|i ready h r h' H|ready h r h' H|h|e h|h _]; [| | |done..].
  - unfold begin_send in H. destruct (send_check h); injection H as <- <-; [by split|done].
  - unfold finish_send in H. destruct (h_senders h !! i) as [[k event]|]; [|done]. simpl in H.
    destruct (room h) eqn:Hr, k, (h_ctx h) as [e|] eqn:Hx, ready; simpl in H; simplify_eq;
      first [by split | rewrite <-Hx; by apply enqueue_inv].
  - unfold Recv in H. destruct (h_events h) as [|event events] eqn:He, (h_ctx h) as [e|] eqn:Hx;
      simplify_eq/=; [by split; rewrite ?He| |].
    + destruct ready; simplify_eq; (split; simpl; [|rewrite ?He in *; simpl in *; lia]);
        rewrite ?He, Hf; [done|]. by rewrite <-(assoc_L (++)).
    + split; simpl; [|lia]. rewrite Hf. by rewrite <-(assoc_L (++)).
Qed.

(** A stream delivers what was sent, in order and without loss, and holds no more than its
buffer: what was received and what is waiting is what was sent. *)
Theorem stream_fifo capacity h :
  rtc handler_step (new_handler capacity) h →
  h_sent h = h_received h ++ h_events h ∧ length (h_events h) ≤ h_capacity h.
Proof.
  intros H. assert (handler_inv h) as [? ?]; [|done].
  assert (handler_inv (new_handler capacity)) as Hi by (split; simpl; [done|lia]).
  induction H as [|h1 h2 h3 H _ IH]; [done|]. apply IH. by eapply handler_inv_step.
Qed.

(** A send that begins after the handler was closed, or after its context ended, fails. *)
Lemma closed_refuses k event h :
  h_closed h = true ∨ is_Some (h_ctx h) → is_ok (begin_send k event h).1 = false.
Proof. unfold begin_send, send_check. intros [-> |[e ->]]; by destruct (h_ctx h). Qed.

(** [TrySend] does not block. *)
Lemma try_send_returns i ready event h :
  h_senders h !! i = Some (KTrySend, event) → is_Some (finish_send i ready h).
Proof.
  intros H. unfold finish_send. rewrite H. simpl. destruct (room h); [|by eexists].
  destruct (h_ctx h); by eexists.
Qed.

End Streams.
Arguments MessageHandler : clear implicits.

(** [CustomEventStream] is the same channel without a closed flag: its [Send] has no check
before the select. *)
Definition CustomEventStream_Send {T} (event : T) (ready : bool) (h : MessageHandler T)
  : option (result unit * MessageHandler T) :=
  let h' := mkHandler (h_capacity h) (h_ctx h) (h_closed h) (h_events h)
              ((KSend, event) :: h_senders h) (h_sent h) (h_received h) in
  finish_send 0 ready h'.
